(* ===== verification/_CoqProject ===== *)
-Q . S2P
Prelude.v
Persister.v
Labrpc.v
LabrpcSpec.v
Bitset.v
Chan.v
RaftApi.v
ShardConfig.v
Rebalance.v
ShardCtrler.v
ShardCtrlerSpec.v
Raft.v
RaftLog.v
RaftAppend.v
RaftSteps.v
RaftSpec.v
RaftOps.v
RaftElection.v
RaftHistory.v
RaftRep.v
RaftGroup.v
RaftGroupSteps.v
RaftGroupLog.v
RaftGroupElect.v
RaftGroupRun.v
RaftSafety.v
RaftBackup.v
Rsm.v
RsmRun.v
RaftTester.v
RaftTesterNet.v
RaftTesterSpec.v
KVTester.v
KVTesterSpec.v
RaftInstance.v
Codecs.v
KVRaft.v
KVRaftSpec.v
ShardKV.v
ShardKVSpec.v
Clerks.v
ShardSystem.v
ShardHistory.v
ShardReplica.v
ShardGroup.v
ShardService.v
CtrlGroup.v
CtrlService.v
System.v
Porcupine.v
PorcupineList.v
PorcupineSpec.v
PorcupineSearch.v
PorcupineCheck.v
KvModel.v
PorcupineOps.v
PorcupinePar.v
KVLinear.v
KVGroup.v
KVService.v
MapReduce.v
MapReduceSpec.v
MapReduceCoord.v
MapReduceFiles.v
MapReduceJson.v
MapReduceWork.v
MapReduceRun.v
