(* ===== verification/Prelude.v ===== *)
(** * Sharded-KV: a verification library

    The repository is a sharded, replicated key/value store in Go (MIT 6.824):
    - [raft/]: a replicated log with elections, snapshots and persistence;
    - [shardctrler/]: a service on top of it that numbers configurations, each
      an assignment of ten shards to replica groups, and rebalances them;
    - [kvraft/]: a key/value service replicated by one group;
    - [shardkv/]: replica groups that serve the shards a configuration gives
      them, pull the shards they gain from their previous owners and confirm
      the transfer so that these delete them;
    - [porcupine/] and [models/]: the linearizability checker and the model of
      a key/value store with which the test suites judge the services;
    - [labrpc/]: the simulated network over which peers, servers and clerks call
      each other, and [raft/config.go], [kvraft/config.go]: the testers that build
      groups on it, cut and restore connections, crash and restart servers and
      compare what is applied;
    - [mr/], [main/mrsequential.go], [mrapps/]: map-reduce, a program of its own:
      a coordinator, workers that exchange files, and a sequential version.
    A client's clerk numbers its operations and repeats a call until a leader
    answers; the server hands the operation to Raft, waits on a channel for the
    log index, and the applier executes what Raft delivers, skipping numbers it
    has executed.  Sources are named below without their prefix [src/src/].

    ** How the code is modelled

    Definitions are functions on records with the fields of the Go structs, one
    per function of the source or, where a goroutine releases its lock or waits,
    one per critical section.  Statement sequences that can panic are in the
    monad [Go] of this file: index out of range, failed type assertions, [nil]
    dereferences and misuse of channels are values, and a theorem that a
    computation is [Ret _] rules them out.  Concurrency is interleaving: relations
    or event lists whose steps are the critical sections, with messages that may
    be lost, delayed, repeated and reordered.  What the sources rely on and do
    not contain is a class with laws and at least one instance:
    - [KeyOrder] (here): the order in which Go enumerates a map;
    - [Codec] (Persister.v): encoding and decoding of labgob, a round trip;
      Codecs.v has an instance for the state of a server, a list of tokens;
    - [RaftService] (RaftApi.v): what the services use of Raft; RaftInstance.v
      shows that the model of raft/raft.go has it;
    - [Controller] (ShardSystem.v): the configurations by number; CtrlService.v
      shows that the controller service provides them;
    - [Replica] (Rsm.v): what a replicated service must do with the messages of its
      peer; KVGroup.v shows it of kvraft/server.go, ShardGroup.v of
      shardkv/server.go and CtrlGroup.v of shardctrler/server.go;
    - [CheckableModel] (PorcupineSpec.v) and [Sorter] (Porcupine.v): what the
      checker relies on of a model and of [sort.Sort];
    - [KeySorter] and [RecordCodec] (MapReduce.v): sorting by key, and records
      written as JSON and read back.
    Integers are unbounded [Z] where the code counts terms, indices and
    configuration numbers; the bit sets of the checker keep their 64-bit words.

    ** Files

    - Prelude.v: the [Go] monad, slices and maps of Go, automation ([bool_to_prop],
      [case_test], [inv_bind], [zlen_lia]), shared lemmas on lists.
    - Persister.v: raft/persister.go and the codec.  Chan.v: Go channels and the
      map of wait channels the three servers share.
    - Labrpc.v, LabrpcSpec.v: labrpc/labrpc.go with its delays, drops, dead servers
      and late replies; a call is handled at most once, a [true] means that the
      handler ran and returned that reply, and every call returns.
    - ShardConfig.v, Rebalance.v: shardctrler/common.go and [rebalance] with its
      helpers; the assignment is complete and balanced and the loop ends.
    - ShardCtrler.v, ShardCtrlerSpec.v: shardctrler/server.go; each operation
      makes the next configuration, configurations never change, replicas agree;
      repeated operations are executed again.
    - Raft.v: raft/raft.go, all RPC handlers, the two halves of each call a leader
      or candidate makes, timers, applier, snapshots and persistence.  RaftLog.v,
      RaftAppend.v, RaftSteps.v: the invariant of a peer and its preservation by
      every event.  RaftSpec.v, RaftOps.v: no panic, stable committed entries,
      recovery after a crash, and each operation against its specification.
      RaftElection.v: election safety for a group of peers, with the goroutines of a
      candidate that send their RequestVote again when a call fails.  RaftBackup.v:
      whole rounds between a leader and a follower; in every reachable group the
      search for the point where logs diverge ends, and a snapshot lost after its
      acknowledgement is not sent again.  RaftInstance.v: the interface of the
      services.
    - RaftHistory.v: the logs of all leaders and who acknowledged them, and why
      what a quorum acknowledged is safe.  RaftRep.v: the whole log of a peer,
      what its snapshot stands for included.  RaftGroup.v: all peers with every
      call of raft/raft.go between them, and the invariant.  RaftGroupSteps.v,
      RaftGroupLog.v, RaftGroupElect.v: every step keeps it.  RaftGroupRun.v: an
      executable scheduler and a sample run.  RaftSafety.v: the peers implement
      one growing log (state machine safety), leader completeness, log matching,
      and no message makes a peer panic.
    - RaftTester.v, RaftTesterNet.v, RaftTesterSpec.v: raft/config.go; connections
      after any sequence of partitions, and the tester on the peers of a group,
      with crashed servers, whose pointer is nil, and goroutines that outlive their
      instance: in no run does an applier report an error or a check of the suite
      fail; a crashed server's applier can call nil ([applier_nil]).
      KVTester.v, KVTesterSpec.v: kvraft/config.go; [make_partition] separates the
      leader from a majority and [partition] connects exactly within the parts.
    - KVRaft.v, KVRaftSpec.v: kvraft/; the state after any log is that of a
      reference in which each client operation is executed once, with snapshots
      and restarts.  Rsm.v: a service on the peers of a group, and why each of its
      servers is in the state of the committed log ([Replica] says what the code of
      a service must do).  RsmRun.v: an executable scheduler for it.  KVLinear.v: the specification with a clock, and why it is
      linearizable.  KVGroup.v: kvraft/ on raft/, with its clerks, the requests
      and their wait channels, crashes and lost messages.  KVService.v: the service
      is linearizable, and the check of its test suite never fails.
    - ShardKV.v, ShardKVSpec.v: shardkv/server.go and common.go; one server.
      ShardSystem.v, ShardHistory.v, ShardReplica.v: all groups with the
      controller; a shard has one owner, the groups together refine one map in
      which operations are executed once and in order, no shard is lost on the
      way (but one that belonged to no group is never acquired), and snapshots and
      restarts are not visible.  Codecs.v: the encoder as
      lists of tokens.  ShardGroup.v, ShardService.v: every group of shardkv/ on the
      peers of its raft/ group; such a system refines the one with a log per
      group, and two servers of different groups never serve a shard in the same
      configuration.
    - CtrlGroup.v, CtrlService.v: shardctrler/ on raft/ with its clerks; one sequence
      of configurations, what each query was answered with, and that a query sees
      what was answered before it was made.
      System.v: the groups and the controller in one world, in which a server learns
      configurations by asking; it refines the groups of one log each.
    - Clerks.v: shardctrler/client.go and shardkv/client.go.
    - Bitset.v, Porcupine.v: porcupine/bitset.go, model.go, checker.go and
      porcupine.go.  PorcupineList.v: the linked list as a heap; [lift] and
      [unlift].  PorcupineSpec.v: linearizability.  PorcupineSearch.v,
      PorcupineCheck.v: the backtracking search finds a linearization exactly
      when there is one, within a number of iterations computed from the number
      of operations.  KvModel.v: models/kv.go, and that checking key by key is
      enough.  PorcupineOps.v: operations, times and entries.  PorcupinePar.v:
      the parallel check as a state machine, and the checker as a whole.
    - MapReduce.v: mr/coordinator.go, mr/worker.go, main/mrsequential.go.
      MapReduceSpec.v: splitting a job by the hash of the keys does not change its
      lines.  MapReduceCoord.v: the coordinator.  MapReduceFiles.v: what tasks do
      to files.  MapReduceJson.v: an encoder and a sort.  MapReduceWork.v: a worker
      step by step, file by file and record by record.  MapReduceRun.v: whole
      jobs, with crashes and timeouts, against the sequential program; one worker
      completes a job; what late reports and late workers do.

    ** Bounds

    Loops that the source does not bound structurally take fuel, and [NoFuel] is
    not a result of any theorem that says a call returns.  [rebalance] computes
    its own bound ([rebalance_fuel]: a potential that every move lowers).  The
    scans of a log take its length.  A clerk's loop takes the number of attempts.
    [checkSingle] needs [search_bound n] iterations for [n] operations: every
    entry of the list costs at most [entry_cost k] with [k] operations left.
    A worker of map-reduce on its own needs one round per task and three more.

    ** What the theorems do not cover

    - kvraft/, shardkv/ and shardctrler/ are composed with the peers of raft/
      (KVGroup.v, ShardGroup.v, CtrlGroup.v), the latter two with each other
      (System.v), each with a network of its own.  In ShardGroup.v a client's
      request is what it does to the log and to the wait channels; its answer is
      [sharded_exactly_once]'s.
    - The composition uses its own relation for messages between peers, in which
      they may be lost, delayed, repeated and reordered.  labrpc/ itself repeats
      nothing, but a candidate sends RequestVote again when a call fails (up to
      four times): the relation has a step for that, and handles any call, the
      first or a repeated one, any number of times.
    - All servers of a service enumerate maps in the same order ([KeyOrder] is one
      parameter); [replicas_agree] shows that the order does not matter.  Which
      shards a Join or Leave moves is not specified, only that the assignment is
      complete and balanced, and, by [replicas_agree], the same on all servers.
    - [sharded_exactly_once] orders the operations of a client on each shard, not
      across shards.
    - In RaftTesterSpec.v, when a server is restarted in a test with snapshots, what
      its old instance had still to deliver is dropped: in the code it would go on,
      with the new peer and a stale position, and nothing is claimed of that.
      Without snapshots old instances go on until their batch is delivered; they
      take no further batch.
    - Time: timers are events that may fire at any moment, so nothing is claimed
      about how long an election or a transfer takes.
    - labgob/ (the encoder) wraps the standard library; shardkv/config.go and
      shardctrler/config.go repeat the tester of kvraft/ for several groups;
      porcupine/visualization.go renders a web page; the functions that describe
      operations as text serve it only.
    - Of map-reduce, making a temporary file and renaming it is one step, and so is
      reading one file.  A job is correct when tasks are handed out again only after
      their worker is gone ([job_correct]); with workers that are alive but slow it
      need not be ([stale_report_loses_output], [late_mapper_loses_records]).
      The sockets and processes of main/mrcoordinator.go and main/mrworker.go, and
      the plugins of mrapps/ other than the reduce function of wc, are left out.
    - Debug printing, and goroutines that only print. *)

From stdpp Require Export gmap strings list sorting.
From Stdlib Require Export ZArith Lia.

#[global] Open Scope Z_scope.

(** ** Go computations that may panic

    A Go statement sequence either runs through or panics.  [Go A] is the
    result of running it; [mbind] sequences statements and stops at the first
    panic.  [NoFuel] is not a Go outcome: it is what a loop modelled with an
    iteration bound returns when the bound is too small, and a theorem that a
    computation is [Ret _] rules it out. *)
Inductive panic :=
| PIndex          (* index out of range *)
| PSlice          (* slice bounds out of range *)
| PType           (* failed type assertion *)
| PNil            (* nil pointer dereference *)
| PDivide         (* integer division by zero *)
| PUser           (* an explicit call of panic *)
| PFatal          (* log.Fatalf or t.Fatalf: the program or the test ends *)
| PCloseClosed    (* close of a closed channel *)
| PSendClosed.    (* send on a closed channel *)

#[export] Instance panic_eq_dec : EqDecision panic.
Proof. solve_decision. Defined.

Inductive Go (A : Type) :=
| Ret (a : A)
| Panic (p : panic)
| NoFuel.         (* the iteration bound of a modelled loop was reached *)
Arguments Ret {A} _.
Arguments Panic {A} _.
Arguments NoFuel {A}.

#[export] Instance Go_ret : MRet Go := @Ret.
#[export] Instance Go_bind : MBind Go := λ A B f m,
  match m with Ret a => f a | Panic p => Panic p | NoFuel => NoFuel end.

(** A computation that returns. *)
Definition safe {A} (m : Go A) : Prop := ∃ a, m = Ret a.

Lemma bind_Ret {A B} (a : A) (f : A → Go B) : (Ret a ≫= f) = f a.
Proof. done. Qed.

Lemma bind_inv {A B} (m : Go A) (f : A → Go B) b :
  m ≫= f = Ret b → ∃ a, m = Ret a ∧ f a = Ret b.
Proof. destruct m; [eauto | discriminate..]. Qed.

(** ** Slices and arrays

    Go's [int] indices are integers, so slices are read with [Z] indices and
    panic outside their length.  (Go lets the upper bound of a slice
    expression reach the capacity; the model panics beyond the length, and the
    theorems show that the code stays within the length.) *)
Definition zlen {A} (l : list A) : Z := Z.of_nat (length l).

Definition index {A} (l : list A) (i : Z) : Go A :=
  if (i <? 0)%Z then Panic PIndex
  else match l !! Z.to_nat i with
       | Some x => Ret x
       | None => Panic PIndex
       end.

Definition set_index {A} (l : list A) (i : Z) (x : A) : Go (list A) :=
  if ((0 <=? i) && (i <? zlen l))%Z then Ret (<[Z.to_nat i := x]> l)
  else Panic PIndex.

(** [s[lo:]], [s[:hi]] and [s[lo:hi]]. *)
Definition slice_from {A} (l : list A) (lo : Z) : Go (list A) :=
  if ((0 <=? lo) && (lo <=? zlen l))%Z then Ret (drop (Z.to_nat lo) l)
  else Panic PSlice.

Definition slice_to {A} (l : list A) (hi : Z) : Go (list A) :=
  if ((0 <=? hi) && (hi <=? zlen l))%Z then Ret (take (Z.to_nat hi) l)
  else Panic PSlice.

Definition slice {A} (l : list A) (lo hi : Z) : Go (list A) :=
  if ((0 <=? lo) && (lo <=? hi) && (hi <=? zlen l))%Z
  then Ret (take (Z.to_nat (hi - lo)) (drop (Z.to_nat lo) l))
  else Panic PSlice.

(** Reading a Go map yields the zero value at an absent key. *)
Definition map_get {K} `{Countable K} {V} (zero : V) (m : gmap K V) (k : K) : V :=
  default zero (m !! k).

Lemma map_get_insert_eq {K} `{Countable K} {V} (zero : V) (m : gmap K V) k v :
  map_get zero (<[k := v]> m) k = v.
Proof. unfold map_get. by rewrite lookup_insert_eq. Qed.

Lemma map_get_insert_ne {K} `{Countable K} {V} (zero : V) (m : gmap K V) k k' v :
  k ≠ k' → map_get zero (<[k := v]> m) k' = map_get zero m k'.
Proof. intros. unfold map_get. by rewrite lookup_insert_ne. Qed.

(** [for i, x := range l]: the index/element pairs of a slice, in order. *)
Definition enumerate {A} (l : list A) : list (Z * A) :=
  imap (λ i x, (Z.of_nat i, x)) l.

(** [for k := range m]: Go visits the keys of a map in an unspecified order.
    [KeyOrder] is one such order per map; code that ranges over a map takes it
    as an argument, and a result is deterministic when it is the same for
    every instance. *)
Class KeyOrder := {
  key_order : ∀ {V : Type}, gmap Z V → list Z;
  key_order_perm : ∀ {V : Type} (m : gmap Z V), key_order m ≡ₚ (map_to_list m).*1
}.

(** The orders stdpp's enumeration gives, and its reverse. *)
Definition key_order_std : KeyOrder :=
  {| key_order := λ V m, (map_to_list m).*1;
     key_order_perm := λ V m, reflexivity _ |}.

Definition key_order_rev : KeyOrder :=
  {| key_order := λ V m, rev ((map_to_list m).*1);
     key_order_perm := λ V m, symmetry (Permutation_rev _) |}.

Lemma elem_of_key_order {KO : KeyOrder} {V} (m : gmap Z V) k :
  k ∈ key_order m ↔ is_Some (m !! k).
Proof.
  rewrite key_order_perm, list_elem_of_fmap. split.
  - intros ([k' v] & -> & Hin%elem_of_map_to_list). eauto.
  - intros [v Hv]. exists (k, v). by rewrite elem_of_map_to_list.
Qed.

Lemma NoDup_key_order {KO : KeyOrder} {V} (m : gmap Z V) : NoDup (key_order m).
Proof. rewrite key_order_perm. apply NoDup_fst_map_to_list. Qed.

(** ** Automation *)

(** Turns the boolean tests of the code into the propositions they decide. *)
Ltac bool_to_prop :=
  repeat match goal with
  | H : (_ && _) = true |- _ => apply andb_true_iff in H as [? ?]
  | H : (_ && _) = false |- _ => apply andb_false_iff in H
  | H : (_ || _) = true |- _ => apply orb_true_iff in H
  | H : (_ || _) = false |- _ => apply orb_false_iff in H as [? ?]
  | H : negb _ = true |- _ => apply negb_true_iff in H
  | H : negb _ = false |- _ => apply negb_false_iff in H
  | H : (_ =? _)%Z = true |- _ => apply Z.eqb_eq in H
  | H : (_ =? _)%Z = false |- _ => apply Z.eqb_neq in H
  | H : (_ <? _)%Z = true |- _ => apply Z.ltb_lt in H
  | H : (_ <? _)%Z = false |- _ => apply Z.ltb_ge in H
  | H : (_ <=? _)%Z = true |- _ => apply Z.leb_le in H
  | H : (_ <=? _)%Z = false |- _ => apply Z.leb_gt in H
  | H : bool_decide _ = true |- _ => apply bool_decide_eq_true in H
  | H : bool_decide _ = false |- _ => apply bool_decide_eq_false in H
  end.

(** Splits on the next test of the goal and reads it as a proposition. *)
Ltac case_test :=
  match goal with
  | |- context [if ?b then _ else _] =>
      lazymatch b with
      | context [if _ then _ else _] => fail
      | _ => let E := fresh "Htest" in destruct b eqn:E; bool_to_prop
      end
  end.

(** Splits on the next test of a hypothesis. *)
Ltac case_test_in H :=
  match type of H with
  | context [if ?b then _ else _] =>
      lazymatch b with
      | context [if _ then _ else _] => fail
      | _ => let E := fresh "Htest" in destruct b eqn:E; bool_to_prop
      end
  end.

(** Steps through the successful binds of a hypothesis [m ≫= f = Ret b]. *)
Ltac inv_bind H :=
  let x := fresh "x" in let Hx := fresh "Hb" in
  apply bind_inv in H as (x & Hx & H).

Create HintDb shardkv.
Create HintDb zlen.

(** ** Lists and integers *)
Lemma elem_of_middle {A} (x y : A) l1 l2 : x ∈ l1 ++ l2 → x ∈ l1 ++ y :: l2.
Proof. rewrite !elem_of_app, elem_of_cons. tauto. Qed.

Lemma elem_of_here {A} (x : A) l1 l2 : x ∈ l1 ++ x :: l2.
Proof. rewrite elem_of_app, elem_of_cons. auto. Qed.

Lemma destruct_last {A} (l : list A) : l ≠ [] → ∃ k x, l = k ++ [x].
Proof. destruct l as [|x k _] using rev_ind; [done|eauto]. Qed.

Lemma prefix_snoc_inv {A} (l k : list A) x :
  l `prefix_of` k ++ [x] → l `prefix_of` k ∨ l = k ++ [x].
Proof.
  intros [r Hr]. destruct r as [|y r _] using rev_ind.
  - right. by rewrite app_nil_r in Hr.
  - left. rewrite app_assoc in Hr. apply app_inj_tail in Hr as [-> _]. by apply prefix_app_r.
Qed.

Lemma foldl_ext' {A B} (f g : A → B → A) a l :
  (∀ x y, f x y = g x y) → foldl f a l = foldl g a l.
Proof.
  intros Hfg. revert a. induction l as [|y l IH]; intros a; [done|].
  simpl. by rewrite Hfg.
Qed.

(** Two majorities of [n] meet. *)
Lemma quorums_meet (n : Z) (Q1 Q2 : gset Z) :
  Q1 ⊆ list_to_set (seqZ 0 n) → Q2 ⊆ list_to_set (seqZ 0 n) →
  Z.quot n 2 < Z.of_nat (size Q1) → Z.quot n 2 < Z.of_nat (size Q2) → 0 ≤ n → ∃ v, v ∈ Q1 ∧ v ∈ Q2.
Proof.
  intros H1 H2 Hs1 Hs2 Hn. destruct (decide (Q1 ∩ Q2 = ∅)) as [He|Hne].
  - exfalso. assert (size (Q1 ∪ Q2) = size Q1 + size Q2)%nat as Hu by (apply size_union; set_solver).
    assert (size (Q1 ∪ Q2) ≤ size (list_to_set (seqZ 0 n) : gset Z))%nat as Hle
      by (apply subseteq_size; set_solver).
    rewrite size_list_to_set, length_seqZ in Hle by apply NoDup_seqZ.
    rewrite Z.quot_div_nonneg in Hs1, Hs2 by lia.
    pose proof (Z.div_mod n 2 ltac:(lia)). pose proof (Z.mod_pos_bound n 2 ltac:(lia)). lia.
  - apply set_choose_L in Hne as [v Hv]. exists v. set_solver.
Qed.

Lemma list_filter_all {A} (P : A → Prop) `{!∀ x, Decision (P x)} (l : list A) :
  (∀ x, x ∈ l → P x) → filter P l = l.
Proof.
  induction l as [|x l IH]; intros Hl; [done|].
  rewrite filter_cons_True by set_solver. f_equal. apply IH. set_solver.
Qed.

Lemma list_filter_none {A} (P : A → Prop) `{!∀ x, Decision (P x)} (l : list A) :
  (∀ x, x ∈ l → ¬ P x) → filter P l = [].
Proof.
  induction l as [|x l IH]; intros Hl; [done|].
  rewrite filter_cons_False by (apply Hl; set_solver). apply IH. set_solver.
Qed.

Section lists.
Context {A : Type}.
Implicit Types (l k : list A) (i : Z) (x : A).

Lemma zlen_nonneg l : 0 ≤ zlen l.
Proof. unfold zlen. lia. Qed.

Lemma zlen_nil : zlen (@nil A) = 0.
Proof. done. Qed.

Lemma zlen_cons x l : zlen (x :: l) = 1 + zlen l.
Proof. unfold zlen. simpl. lia. Qed.

Lemma zlen_app l k : zlen (l ++ k) = zlen l + zlen k.
Proof. unfold zlen. rewrite length_app. lia. Qed.

Lemma zlen_insert l (n : nat) x : zlen (<[n := x]> l) = zlen l.
Proof. unfold zlen. by rewrite length_insert. Qed.

Lemma zlen_take l (n : nat) : zlen (take n l) = Z.min (Z.of_nat n) (zlen l).
Proof. unfold zlen. rewrite length_take. lia. Qed.

Lemma zlen_drop l (n : nat) : zlen (drop n l) = Z.max 0 (zlen l - Z.of_nat n).
Proof. unfold zlen. rewrite length_drop. lia. Qed.

Lemma index_Ret l i x :
  index l i = Ret x ↔ 0 ≤ i ∧ l !! Z.to_nat i = Some x.
Proof.
  unfold index. destruct (Z.ltb_spec i 0).
  - split; [done | lia].
  - destruct (l !! Z.to_nat i) eqn:E; naive_solver.
Qed.

Lemma index_safe l i : 0 ≤ i < zlen l → ∃ x, index l i = Ret x.
Proof.
  intros Hi. destruct (lookup_lt_is_Some_2 l (Z.to_nat i)) as [x Hx].
  { unfold zlen in Hi. lia. }
  exists x. apply index_Ret. split; [lia | done].
Qed.

Lemma index_bounds l i x : index l i = Ret x → 0 ≤ i < zlen l.
Proof.
  intros [? Hx]%index_Ret. apply lookup_lt_Some in Hx. unfold zlen. lia.
Qed.

Lemma index_oob l i : ¬ (0 ≤ i < zlen l) → index l i = Panic PIndex.
Proof.
  intros Hi. unfold index. destruct (Z.ltb_spec i 0); [done|].
  rewrite lookup_ge_None_2; [done|]. unfold zlen in Hi. lia.
Qed.

Lemma set_index_Ret l i x :
  0 ≤ i < zlen l → set_index l i x = Ret (<[Z.to_nat i := x]> l).
Proof. intros Hi. unfold set_index. case_test; [done | lia]. Qed.

Lemma set_index_inv l i x k :
  set_index l i x = Ret k → 0 ≤ i < zlen l ∧ k = <[Z.to_nat i := x]> l.
Proof. unfold set_index. case_test; [|done]. intros [= <-]. split; [lia|done]. Qed.

Lemma slice_from_Ret l i :
  0 ≤ i ≤ zlen l → slice_from l i = Ret (drop (Z.to_nat i) l).
Proof. intros Hi. unfold slice_from. case_test; [done | lia]. Qed.

Lemma slice_to_Ret l i :
  0 ≤ i ≤ zlen l → slice_to l i = Ret (take (Z.to_nat i) l).
Proof. intros Hi. unfold slice_to. case_test; [done | lia]. Qed.

Lemma slice_Ret l i j :
  0 ≤ i ≤ j → j ≤ zlen l →
  slice l i j = Ret (take (Z.to_nat (j - i)) (drop (Z.to_nat i) l)).
Proof. intros Hi Hj. unfold slice. case_test; [done | lia]. Qed.

Lemma slice_from_inv l i k :
  slice_from l i = Ret k → 0 ≤ i ≤ zlen l ∧ k = drop (Z.to_nat i) l.
Proof. unfold slice_from. case_test; [|done]. intros [= <-]. split; [lia|done]. Qed.

Lemma slice_to_inv l i k :
  slice_to l i = Ret k → 0 ≤ i ≤ zlen l ∧ k = take (Z.to_nat i) l.
Proof. unfold slice_to. case_test; [|done]. intros [= <-]. split; [lia|done]. Qed.

Lemma slice_inv l i j k :
  slice l i j = Ret k →
  0 ≤ i ≤ j ∧ j ≤ zlen l ∧ k = take (Z.to_nat (j - i)) (drop (Z.to_nat i) l).
Proof. unfold slice. case_test; [|done]. intros [= <-]. split_and!; [lia..|done]. Qed.
End lists.

#[export] Hint Rewrite @zlen_nil @zlen_cons @zlen_app @zlen_insert @zlen_take @zlen_drop : zlen.

(** Normalises lengths and closes the arithmetic that remains. *)
Ltac zlen_lia :=
  autorewrite with zlen in *;
  repeat match goal with
  | |- context [zlen ?l] =>
      lazymatch goal with
      | _ : 0 ≤ zlen l |- _ => fail
      | _ => pose proof (zlen_nonneg l)
      end
  | _ : context [zlen ?l] |- _ =>
      lazymatch goal with
      | _ : 0 ≤ zlen l |- _ => fail
      | _ => pose proof (zlen_nonneg l)
      end
  end;
  lia.
