(* ===== verification/Persister.v ===== *)
(** * Stable storage: raft/persister.go, and the encoder it is used with

    [Persister] keeps two byte slices, the Raft state and the service's
    snapshot.  Both are written through labgob, a wrapper around Go's
    encoding/gob; the servers rely on one thing about it, that decoding what
    was encoded gives the value back.  [Codec] states that as an interface;
    every type that can be enumerated has an instance ([countable_codec]), so
    that the interface is inhabited for every state the servers store. *)

From S2P Require Import Prelude.

Abbreviation bytes := (list Z) (only parsing).

(** What the servers rely on of labgob: [gob_encode] is the sequence of
    [e.Encode] calls that write one value, [gob_decode] the [d.Decode] calls
    that read it back ([None] when one of them returns an error). *)
Class Codec (A : Type) := {
  gob_encode : A → bytes;
  gob_decode : bytes → option A;
  gob_decode_encode : ∀ a, gob_decode (gob_encode a) = Some a;
  gob_encode_nonempty : ∀ a, gob_encode a ≠ []
}.

(** An instance for every countable type: the binary digits of its number. *)
Fixpoint positive_bytes (p : positive) : bytes :=
  match p with
  | xH => [1]
  | xO p => 0 :: positive_bytes p
  | xI p => 1 :: positive_bytes p
  end.

Fixpoint bytes_positive (l : bytes) : option positive :=
  match l with
  | [] => None
  | [b] => if b =? 1 then Some xH else None
  | b :: l => p ← bytes_positive l; Some (if b =? 1 then xI p else xO p)
  end.

Lemma positive_bytes_nonempty p : positive_bytes p ≠ [].
Proof. by destruct p. Qed.

Lemma bytes_positive_roundtrip p : bytes_positive (positive_bytes p) = Some p.
Proof.
  induction p as [p IH|p IH|]; [| |done]; simpl;
    destruct (positive_bytes p) eqn:E; try done;
    (by destruct (positive_bytes_nonempty p)) || by rewrite IH.
Qed.

Lemma countable_roundtrip {A} `{Countable A} (a : A) :
  bytes_positive (positive_bytes (encode a)) ≫= decode = Some a.
Proof. rewrite bytes_positive_roundtrip. apply decode_encode. Qed.

#[export] Instance countable_codec {A} `{Countable A} : Codec A := {|
  gob_encode := λ a, positive_bytes (encode a);
  gob_decode := λ l, bytes_positive l ≫= decode;
  gob_decode_encode := countable_roundtrip;
  gob_encode_nonempty := λ a, positive_bytes_nonempty (encode a)
|}.

(** ** The persister *)
Record Persister := mkPersister { raftstate : bytes; snapshot : bytes }.

#[export] Instance Persister_eq_dec : EqDecision Persister.
Proof. solve_decision. Defined.

Definition MakePersister : Persister := mkPersister [] [].

(** [clone] copies byte by byte into a fresh slice of the same length. *)
Definition clone (orig : bytes) : bytes :=
  imap (λ i _, nth i orig 0) (replicate (length orig) 0).

Definition Copy (ps : Persister) : Persister :=
  mkPersister (raftstate ps) (snapshot ps).

Definition SaveRaftState (ps : Persister) (state : bytes) : Persister :=
  mkPersister (clone state) (snapshot ps).

Definition ReadRaftState (ps : Persister) : bytes := clone (raftstate ps).

Definition RaftStateSize (ps : Persister) : Z := zlen (raftstate ps).

Definition SaveStateAndSnapshot (ps : Persister) (state snap : bytes) : Persister :=
  mkPersister (clone state) (clone snap).

Definition ReadSnapshot (ps : Persister) : bytes := clone (snapshot ps).

Definition SnapshotSize (ps : Persister) : Z := zlen (snapshot ps).

Lemma clone_id l : clone l = l.
Proof.
  unfold clone. apply list_eq. intros i. rewrite list_lookup_imap.
  destruct (decide (i < length l)%nat) as [Hi|Hi].
  - rewrite lookup_replicate_2 by done. simpl.
    destruct (lookup_lt_is_Some_2 l i Hi) as [x Hx]. rewrite Hx.
    f_equal. by apply nth_lookup_Some.
  - by rewrite !lookup_ge_None_2 by (rewrite ?length_replicate; lia).
Qed.

Lemma ReadRaftState_Save ps state : ReadRaftState (SaveRaftState ps state) = state.
Proof. unfold ReadRaftState. simpl. by rewrite !clone_id. Qed.

Lemma ReadRaftState_SaveBoth ps state snap :
  ReadRaftState (SaveStateAndSnapshot ps state snap) = state.
Proof. unfold ReadRaftState. simpl. by rewrite !clone_id. Qed.

Lemma ReadSnapshot_SaveBoth ps state snap :
  ReadSnapshot (SaveStateAndSnapshot ps state snap) = snap.
Proof. unfold ReadSnapshot. simpl. by rewrite !clone_id. Qed.

Lemma ReadSnapshot_Save ps state : ReadSnapshot (SaveRaftState ps state) = ReadSnapshot ps.
Proof. done. Qed.

#[export] Hint Rewrite ReadRaftState_Save ReadRaftState_SaveBoth
  ReadSnapshot_SaveBoth ReadSnapshot_Save clone_id : shardkv.
