(* ===== verification/Labrpc.v ===== *)
(** * The simulated network: labrpc/labrpc.go

    Client ends are connected to servers by name and can be enabled and disabled;
    a server is a set of services with methods.  A call travels in goroutines:
    the network's loop accepts it, [processReq] looks up the server and waits for
    the handler, which runs in a goroutine of its own, and the reply goes back
    unless it is dropped, the server was removed or the end disabled.  Each stretch
    between two points where a goroutine waits is a definition here; [lstep] puts
    them together.  Random numbers are arguments, time passes between steps. *)

From S2P Require Import Prelude Persister.

(** Names are [interface{}] values; the harnesses use strings and integers. *)
Inductive name := NStr (s : string) | NInt (i : Z).

#[export] Instance name_eq_dec : EqDecision name.
Proof. solve_decision. Defined.
#[export] Instance name_countable : Countable name.
Proof.
  refine (inj_countable' (λ x, match x with NStr s => inl s | NInt i => inr i end)
            (λ x, match x with inl s => NStr s | inr i => NInt i end) _). by intros [].
Defined.

(** [int32] and [int64] counters wrap around. *)
Definition wrap (bits z : Z) : Z := (z + 2 ^ (bits - 1)) mod 2 ^ bits - 2 ^ (bits - 1).

Record reqMsg := mkReqMsg { endname : name; svcMeth : string; rq_args : bytes }.

Record replyMsg := mkReplyMsg { rep_ok : bool; rep_reply : bytes }.

(** [replyMsg{false, nil}]. *)
Definition no_reply : replyMsg := mkReplyMsg false [].

(** ** The network *)

(** Servers are objects compared by identity: [servers] holds pointers, and [nil]
    and absent entries read the same. *)
Record Network := mkNetwork {
  reliable : bool;
  longDelays : bool;
  longReordering : bool;
  ends : gset name;
  enabled : gmap name bool;
  servers : gmap name (option Z);
  connections : gmap name (option name);
  net_done : bool;
  net_count : Z;
  net_bytes : Z
}.

Definition MakeNetwork : Network := mkNetwork true false false ∅ ∅ ∅ ∅ false 0 0.

(** The loop of [MakeNetwork] accepts a request. *)
Definition net_accept (rn : Network) (req : reqMsg) : Network :=
  mkNetwork (reliable rn) (longDelays rn) (longReordering rn) (ends rn) (enabled rn) (servers rn) (connections rn)
    (net_done rn) (wrap 32 (net_count rn + 1)) (wrap 64 (net_bytes rn + zlen (rq_args req))).

Definition add_bytes (rn : Network) (r : replyMsg) : Network :=
  mkNetwork (reliable rn) (longDelays rn) (longReordering rn) (ends rn) (enabled rn) (servers rn) (connections rn)
    (net_done rn) (net_count rn) (wrap 64 (net_bytes rn + zlen (rep_reply r))).

(** [close(rn.done)] panics the second time. *)
Definition Cleanup (rn : Network) : Go Network :=
  if net_done rn then Panic PCloseClosed
  else Ret (mkNetwork (reliable rn) (longDelays rn) (longReordering rn) (ends rn) (enabled rn) (servers rn)
              (connections rn) true (net_count rn) (net_bytes rn)).

Definition Reliable (yes : bool) (rn : Network) : Network :=
  mkNetwork yes (longDelays rn) (longReordering rn) (ends rn) (enabled rn) (servers rn) (connections rn)
    (net_done rn) (net_count rn) (net_bytes rn).

Definition LongReordering (yes : bool) (rn : Network) : Network :=
  mkNetwork (reliable rn) (longDelays rn) yes (ends rn) (enabled rn) (servers rn) (connections rn)
    (net_done rn) (net_count rn) (net_bytes rn).

Definition LongDelays (yes : bool) (rn : Network) : Network :=
  mkNetwork (reliable rn) yes (longReordering rn) (ends rn) (enabled rn) (servers rn) (connections rn)
    (net_done rn) (net_count rn) (net_bytes rn).

(** What [processReq] needs to know of an end: enabled, server name, server, and the
    two modes. *)
Record endInfo := mkEndInfo {
  ei_enabled : bool;
  ei_servername : option name;
  ei_server : option Z;
  ei_reliable : bool;
  ei_longreordering : bool
}.

Definition server_of (rn : Network) (servername : name) : option Z := map_get None (servers rn) servername.

Definition readEndnameInfo (rn : Network) (e : name) : endInfo :=
  let servername := map_get None (connections rn) e in
  mkEndInfo (map_get false (enabled rn) e) servername (servername ≫= server_of rn)
    (reliable rn) (longReordering rn).

Definition isServerDead (rn : Network) (e servername : name) (server : Z) : bool :=
  negb (map_get false (enabled rn) e) || negb (bool_decide (server_of rn servername = Some server)).

Definition MakeEnd (e : name) (rn : Network) : Go Network :=
  if bool_decide (e ∈ ends rn) then Panic PFatal
  else Ret (mkNetwork (reliable rn) (longDelays rn) (longReordering rn) ({[e]} ∪ ends rn)
              (<[e := false]> (enabled rn)) (servers rn) (<[e := None]> (connections rn))
              (net_done rn) (net_count rn) (net_bytes rn)).

Definition AddServer (servername : name) (rs : Z) (rn : Network) : Network :=
  mkNetwork (reliable rn) (longDelays rn) (longReordering rn) (ends rn) (enabled rn)
    (<[servername := Some rs]> (servers rn)) (connections rn) (net_done rn) (net_count rn) (net_bytes rn).

Definition DeleteServer (servername : name) (rn : Network) : Network :=
  mkNetwork (reliable rn) (longDelays rn) (longReordering rn) (ends rn) (enabled rn)
    (<[servername := None]> (servers rn)) (connections rn) (net_done rn) (net_count rn) (net_bytes rn).

Definition Connect (e servername : name) (rn : Network) : Network :=
  mkNetwork (reliable rn) (longDelays rn) (longReordering rn) (ends rn) (enabled rn) (servers rn)
    (<[e := Some servername]> (connections rn)) (net_done rn) (net_count rn) (net_bytes rn).

Definition Enable (e : name) (yes : bool) (rn : Network) : Network :=
  mkNetwork (reliable rn) (longDelays rn) (longReordering rn) (ends rn) (<[e := yes]> (enabled rn)) (servers rn)
    (connections rn) (net_done rn) (net_count rn) (net_bytes rn).

Definition GetTotalCount (rn : Network) : Z := net_count rn.

Definition GetTotalBytes (rn : Network) : Z := net_bytes rn.

(** ** Servers and services *)

(** [F] is an activation of a handler, which can wait in between; the [mt_entry] of a
    method decodes its argument. *)
Section server.
Context {F : Type}.

(** What reflection tells of a method: [mt_ptr2] is [In(2).Kind() == reflect.Ptr]. *)
Record methodInfo := mkMethodInfo {
  mt_name : string;
  mt_pkgPath : string;
  mt_numIn : Z;
  mt_ptr2 : bool;
  mt_numOut : Z;
  mt_entry : bytes → F
}.

Record Service := mkService { svc_name : string; svc_methods : gmap string (bytes → F) }.

Record Server := mkServer { services : gmap string Service; srv_count : Z }.

(** A method is a handler when it is exported, takes two arguments, the second a
    pointer, and returns nothing. *)
Definition suitable (m : methodInfo) : bool :=
  bool_decide (mt_pkgPath m = "") && (mt_numIn m =? 3) && mt_ptr2 m && (mt_numOut m =? 0).

Definition MakeService (rcvr : string) (ms : list methodInfo) : Service :=
  mkService rcvr
    (foldl (λ acc m, if suitable m then <[mt_name m := mt_entry m]> acc else acc) ∅ ms).

Definition MakeServer : Server := mkServer ∅ 0.

Definition AddService (rs : Server) (svc : Service) : Server :=
  mkServer (<[svc_name svc := svc]> (services rs)) (srv_count rs).

(** [strings.LastIndex(s, ".")] on the characters of [s]. *)
Fixpoint lastDot (s : list Ascii.ascii) (i : Z) (dot : Z) : Z :=
  match s with
  | [] => dot
  | c :: s' => lastDot s' (i + 1) (if Ascii.eqb c (Ascii.ascii_of_N 46) then i else dot)
  end.

Definition split_method (svcMeth : string) : Go (string * string) :=
  let s := String.list_ascii_of_string svcMeth in
  let dot := lastDot s 0 (-1) in
  serviceName ← slice_to s dot;
  methodName ← slice_from s (dot + 1);
  mret (String.string_of_list_ascii serviceName, String.string_of_list_ascii methodName).

(** [Service.dispatch] up to the call of the method. *)
Definition Service_dispatch (svc : Service) (methname : string) (req : reqMsg) : Go F :=
  match svc_methods svc !! methname with
  | Some entry => Ret (entry (rq_args req))
  | None => Panic PFatal
  end.

Definition dispatch (rs : Server) (req : reqMsg) : Go (Server * F) :=
  let rs' := mkServer (services rs) (srv_count rs + 1) in
  '(serviceName, methodName) ← split_method (svcMeth req);
  match services rs !! serviceName with
  | Some svc => f ← Service_dispatch svc methodName req; mret (rs', f)
  | None => Panic PFatal
  end.

Definition Server_GetCount (rs : Server) : Z := srv_count rs.

(** A server that was removed is a nil pointer. *)
Definition GetCount (heap : gmap Z Server) (rn : Network) (servername : name) : Go Z :=
  match server_of rn servername ≫= (heap !!.) with
  | Some rs => Ret (Server_GetCount rs)
  | None => Panic PNil
  end.
End server.
Arguments methodInfo : clear implicits.
Arguments Service : clear implicits.
Arguments Server : clear implicits.

(** ** Calls under way *)

(** [Call] sends a request and decodes the reply it gets; once the network is
    destroyed it may also return false without sending ([Call_destroyed]). *)
Definition Call_request {X} `{Codec X} (e : name) (meth : string) (args : X) : reqMsg :=
  mkReqMsg e meth (gob_encode args).

Definition Call_destroyed (rn : Network) : bool := net_done rn.

Definition Call_result {X} `{Codec X} (rep : replyMsg) : Go (bool * option X) :=
  if rep_ok rep then
    match gob_decode (rep_reply rep) with
    | Some x => Ret (true, Some x)
    | None => Panic PFatal
    end
  else Ret (false, None).

(** Where [processReq] is: not begun; waiting for the handler on a server, with
    the modes it read; about to give up, or to pass on a reply, when a timer fires;
    done, with the reply in [replyCh]; and the reply received by [Call]. *)
Inductive cphase :=
| CSent
| CWaiting (servername : name) (server : Z) (reliable longreordering : bool)
| CTimeout
| CDelayed (r : replyMsg)
| CAnswered (r : replyMsg)
| CReturned (r : replyMsg).

(** Where the goroutine of the handler is: the reply of the handler stays in [ech]
    until it is received. *)
Inductive hphase {F} :=
| HStarted (server : Z)
| HRunning (f : F)
| HReturned (r : replyMsg)
| HDone.
Arguments hphase : clear implicits.

(** The first stretch of [processReq]; [draw] is [rand.Int()]. *)
Definition processReq_begin (rn : Network) (req : reqMsg) (draw : Z) : cphase :=
  let info := readEndnameInfo rn (endname req) in
  match ei_enabled info, ei_servername info, ei_server info with
  | true, Some servername, Some server =>
      if negb (ei_reliable info) && (draw mod 1000 <? 100) then CAnswered no_reply
      else CWaiting servername server (ei_reliable info) (ei_longreordering info)
  | _, _, _ => CTimeout
  end.

(** The timer of the waiting loop: give up when the server is gone. *)
Definition processReq_tick (rn : Network) (req : reqMsg) (servername : name) (server : Z) : option cphase :=
  if isServerDead rn (endname req) servername server then Some (CAnswered no_reply) else None.

(** The reply of the handler has arrived. *)
Definition processReq_end (rn : Network) (req : reqMsg) (servername : name) (server : Z) (rel lr : bool)
    (reply : replyMsg) (draw1 draw2 : Z) : Network * cphase :=
  if isServerDead rn (endname req) servername server then (rn, CAnswered no_reply)
  else if negb rel && (draw1 mod 1000 <? 100) then (rn, CAnswered no_reply)
  else if lr && (draw2 mod 900 <? 600) then (rn, CDelayed reply)
  else (add_bytes rn reply, CAnswered reply).

Section calls.
Context {A F : Type} (resume : A → F → Go (A * (F + bytes))).

(** The network, the server objects, the program behind them, and the calls with
    their two goroutines.  Calls are numbered; the number stands for the channels
    [replyCh] and [ech] of a call. *)
Record lworld := mkLWorld {
  l_net : Network;
  l_heap : gmap Z (Server F);
  l_app : A;
  l_calls : gmap Z (reqMsg * cphase);
  l_handlers : gmap Z (reqMsg * hphase F)
}.
Implicit Types (w : lworld).

Inductive label :=
| LCall (id : Z) (req : reqMsg)      (* the network accepts a request *)
| LRun (id server : Z)               (* a handler is called *)
| LReturn (id : Z) (reply : bytes)   (* it returns *)
| LAnswer (id : Z) (r : replyMsg)    (* [Call] receives the reply *)
| LInternal.

Definition set_call (id : Z) (req : reqMsg) (c : cphase) w : lworld :=
  mkLWorld (l_net w) (l_heap w) (l_app w) (<[id := (req, c)]> (l_calls w)) (l_handlers w).

Definition set_handler (id : Z) (req : reqMsg) (h : hphase F) w : lworld :=
  mkLWorld (l_net w) (l_heap w) (l_app w) (l_calls w) (<[id := (req, h)]> (l_handlers w)).

Definition set_net (rn : Network) w : lworld :=
  mkLWorld rn (l_heap w) (l_app w) (l_calls w) (l_handlers w).

(** The goroutine of [processReq] and the receiving end of [Call] move on; [None]
    while they wait for the handler. *)
Definition call_step (draw1 draw2 id : Z) w : option (label * lworld) :=
  '(req, c) ← l_calls w !! id;
  match c with
  | CSent =>
      let c' := processReq_begin (l_net w) req draw1 in
      Some (LInternal,
        match c' with
        | CWaiting _ server _ _ => set_handler id req (HStarted server) (set_call id req c' w)
        | _ => set_call id req c' w
        end)
  | CWaiting servername server rel lr =>
      match l_handlers w !! id with
      | Some (_, HReturned r) =>
          let '(rn', c') := processReq_end (l_net w) req servername server rel lr r draw1 draw2 in
          Some (LInternal, set_handler id req HDone (set_call id req c' (set_net rn' w)))
      | _ =>
          c' ← processReq_tick (l_net w) req servername server; Some (LInternal, set_call id req c' w)
      end
  | CTimeout => Some (LInternal, set_call id req (CAnswered no_reply) w)
  | CDelayed r => Some (LInternal, set_call id req (CAnswered r) (set_net (add_bytes (l_net w) r) w))
  | CAnswered r => Some (LAnswer id r, set_call id req (CReturned r) w)
  | CReturned _ => None
  end.

(** The timer may also fire when the reply of the handler is there. *)
Definition tick_step (id : Z) w : option lworld :=
  '(req, c) ← l_calls w !! id;
  match c with
  | CWaiting servername server rel lr =>
      c' ← processReq_tick (l_net w) req servername server; Some (set_call id req c' w)
  | _ => None
  end.

(** The goroutine of the handler: [server.dispatch], the handler itself, and what it
    leaves in [ech], which is drained when nobody waits for it. *)
Definition handler_step (id : Z) w : option (Go (label * lworld)) :=
  '(req, h) ← l_handlers w !! id;
  match h with
  | HStarted server =>
      rs ← l_heap w !! server;
      Some ('(rs', f) ← dispatch rs req;
            mret (LRun id server,
              mkLWorld (l_net w) (<[server := rs']> (l_heap w)) (l_app w) (l_calls w)
                (<[id := (req, HRunning f)]> (l_handlers w))))
  | HRunning f =>
      Some ('(a, x) ← resume (l_app w) f;
            mret (match x with
                  | inl f' => (LInternal, set_handler id req (HRunning f')
                      (mkLWorld (l_net w) (l_heap w) a (l_calls w) (l_handlers w)))
                  | inr reply => (LReturn id reply, set_handler id req (HReturned (mkReplyMsg true reply))
                      (mkLWorld (l_net w) (l_heap w) a (l_calls w) (l_handlers w)))
                  end))
  | HReturned _ =>
      match l_calls w !! id with
      | Some (_, CWaiting _ _ _ _) => None
      | _ => Some (Ret (LInternal, set_handler id req HDone w))
      end
  | HDone => None
  end.

(** What a harness does to the network. *)
Inductive netop :=
| OReliable (yes : bool)
| OLongReordering (yes : bool)
| OLongDelays (yes : bool)
| OMakeEnd (e : name)
| OAddServer (servername : name) (rs : Z)
| ODeleteServer (servername : name)
| OConnect (e servername : name)
| OEnable (e : name) (yes : bool)
| OCleanup.

Definition net_do (o : netop) (rn : Network) : Go Network :=
  match o with
  | OReliable yes => Ret (Reliable yes rn)
  | OLongReordering yes => Ret (LongReordering yes rn)
  | OLongDelays yes => Ret (LongDelays yes rn)
  | OMakeEnd e => MakeEnd e rn
  | OAddServer servername rs => Ret (AddServer servername rs rn)
  | ODeleteServer servername => Ret (DeleteServer servername rn)
  | OConnect e servername => Ret (Connect e servername rn)
  | OEnable e yes => Ret (Enable e yes rn)
  | OCleanup => Cleanup rn
  end.

Inductive lstep : lworld → label → lworld → Prop :=
| ls_call w id req :                   (* [Call] sends a request *)
    l_calls w !! id = None → l_handlers w !! id = None →
    lstep w (LCall id req) (set_call id req CSent (set_net (net_accept (l_net w) req) w))
| ls_process w id draw1 draw2 l w' : call_step draw1 draw2 id w = Some (l, w') → lstep w l w'
| ls_tick w id w' : tick_step id w = Some w' → lstep w LInternal w'
| ls_handler w id l w' : handler_step id w = Some (Ret (l, w')) → lstep w l w'
| ls_net w o rn' : net_do o (l_net w) = Ret rn' → lstep w LInternal (set_net rn' w)
| ls_server w p rs :                   (* [MakeServer] and [AddService] *)
    lstep w LInternal (mkLWorld (l_net w) (<[p := rs]> (l_heap w)) (l_app w) (l_calls w) (l_handlers w))
| ls_app w a :                         (* the program behind the servers *)
    lstep w LInternal (mkLWorld (l_net w) (l_heap w) a (l_calls w) (l_handlers w)).

(** Runs, with their labels, the latest first. *)
Inductive lrun (w0 : lworld) : list label → lworld → Prop :=
| lrun_nil : lrun w0 [] w0
| lrun_step t w l w' : lrun w0 t w → lstep w l w' → lrun w0 (l :: t) w'.

Definition lworld_init w : Prop := l_calls w = ∅ ∧ l_handlers w = ∅.
End calls.
Arguments lworld : clear implicits.
