(* ===== verification/LabrpcSpec.v ===== *)
(** * What the simulated network promises

    A call runs its handler at most once and returns at most once; when it
    reports success the handler ran, the reply is the one it returned, and the
    server was still there, and the end enabled, after it had returned.  A call
    that does not wait for a running handler returns after a bounded number of
    steps of its own. *)

From S2P Require Import Prelude Persister Labrpc.

(** ** At most once *)
Definition run_of (l : label) : option Z := match l with LRun id _ => Some id | _ => None end.
Definition answer_of (l : label) : option Z := match l with LAnswer id _ => Some id | _ => None end.

(** The calls whose handler was called, and those that returned. *)
Definition runs (t : list label) : list Z := omap run_of t.
Definition answers (t : list label) : list Z := omap answer_of t.

Section spec.
Context {A F : Type} (resume : A → F → Go (A * (F + bytes))) (w0 : lworld A F).
Implicit Types (w : lworld A F) (t : list label).
Local Notation run := (lrun resume w0).

(** The handler of [id] returned the reply [r] on a server that was not removed from
    the network, nor the client's end disabled, up to some moment after that. *)
Definition confirmed t (id : Z) (req : reqMsg) (r : replyMsg) : Prop :=
  rep_ok r = true ∧ ∃ t0 w1 servername server,
    t0 `suffix_of` t ∧ run t0 w1 ∧ LRun id server ∈ t0 ∧ LReturn id (rep_reply r) ∈ t0 ∧
    isServerDead (l_net w1) (endname req) servername server = false.

Definition outcome t (id : Z) (req : reqMsg) (r : replyMsg) : Prop := r = no_reply ∨ confirmed t id req r.

(** The goroutine of the handler. *)
Definition handled t (id : Z) (server : Z) (oh : option (reqMsg * hphase F)) : Prop :=
  match oh with
  | None => False
  | Some (_, HStarted s) => s = server ∧ id ∉ runs t
  | Some (_, HReturned r) => LRun id server ∈ t ∧ rep_ok r = true ∧ LReturn id (rep_reply r) ∈ t
  | Some (_, _) => LRun id server ∈ t
  end.

Definition unhandled t (id : Z) (oh : option (reqMsg * hphase F)) : Prop := oh = None ∧ id ∉ runs t.

Definition phase_inv t (id : Z) (req : reqMsg) (c : cphase) (oh : option (reqMsg * hphase F)) : Prop :=
  match c with
  | CSent => unhandled t id oh
  | CWaiting _ server _ _ => handled t id server oh
  | _ => unhandled t id oh ∨ ∃ server, handled t id server oh
  end ∧
  match c with
  | CDelayed r | CAnswered r | CReturned r => outcome t id req r
  | _ => True
  end ∧
  match c with CReturned _ => True | _ => id ∉ answers t end.

Definition call_inv t (id : Z) (oc : option (reqMsg * cphase)) (oh : option (reqMsg * hphase F)) : Prop :=
  match oc with
  | None => unhandled t id oh ∧ id ∉ answers t
  | Some (req, c) => LCall id req ∈ t ∧ phase_inv t id req c oh
  end.

Record linv t w : Prop := {
  li_runs : NoDup (runs t);
  li_answers : NoDup (answers t);
  li_call : ∀ id, call_inv t id (l_calls w !! id) (l_handlers w !! id);
  li_answer : ∀ id r, LAnswer id r ∈ t → ∃ req, LCall id req ∈ t ∧ outcome t id req r
}.

Lemma outcome_mono l t id req r : outcome t id req r → outcome (l :: t) id req r.
Proof.
  intros [?|(? & t0 & w1 & sn & s & ? & ?)]; [by left|right]. split; [done|]. exists t0, w1, sn, s.
  split; [by apply suffix_cons_r|done].
Qed.

Lemma not_in_runs l t id : run_of l ≠ Some id → id ∉ runs t → id ∉ runs (l :: t).
Proof. unfold runs. simpl. destruct (run_of l); [|done]. rewrite elem_of_cons. naive_solver. Qed.

Lemma not_in_answers l t id : answer_of l ≠ Some id → id ∉ answers t → id ∉ answers (l :: t).
Proof. unfold answers. simpl. destruct (answer_of l); [|done]. rewrite elem_of_cons. naive_solver. Qed.

Lemma handled_mono l t id s oh : run_of l ≠ Some id → handled t id s oh → handled (l :: t) id s oh.
Proof.
  intros Hl. unfold handled. destruct oh as [[req []]|]; rewrite ?elem_of_cons; [|naive_solver..].
  intros [? ?]. split; [done|]. by apply not_in_runs.
Qed.

Lemma unhandled_mono l t id oh : run_of l ≠ Some id → unhandled t id oh → unhandled (l :: t) id oh.
Proof. intros Hl [? ?]. split; [done|]. by apply not_in_runs. Qed.

Lemma phase_inv_mono l t id req c oh :
  run_of l ≠ Some id → answer_of l ≠ Some id → phase_inv t id req c oh → phase_inv (l :: t) id req c oh.
Proof.
  intros Hr Ha (Hh & Ho & Hn). split_and!.
  - destruct c; [by apply unhandled_mono|by apply handled_mono|..];
      (destruct Hh as [?|[s ?]]; [left; by apply unhandled_mono|right; exists s; by apply handled_mono]).
  - destruct c; try done; by apply outcome_mono.
  - destruct c; try done; by apply not_in_answers.
Qed.

Lemma call_inv_mono l t id oc oh :
  run_of l ≠ Some id → answer_of l ≠ Some id → call_inv t id oc oh → call_inv (l :: t) id oc oh.
Proof.
  intros Hr Ha. destruct oc as [[req c]|]; simpl.
  - intros [? ?]. split; [by apply elem_of_cons; right|by apply phase_inv_mono].
  - intros [? ?]. split; [by apply unhandled_mono|by apply not_in_answers].
Qed.

(** Any step that concerns one call only. *)
Lemma linv_one t w l w' id0 :
  linv t w → run t w → lstep resume w l w' →
  (∀ id, id ≠ id0 → run_of l ≠ Some id ∧ answer_of l ≠ Some id ∧
     l_calls w' !! id = l_calls w !! id ∧ l_handlers w' !! id = l_handlers w !! id) →
  (run_of l = Some id0 → id0 ∉ runs t) → (answer_of l = Some id0 → id0 ∉ answers t) →
  (∀ r, l = LAnswer id0 r → ∃ req, LCall id0 req ∈ t ∧ outcome t id0 req r) →
  call_inv (l :: t) id0 (l_calls w' !! id0) (l_handlers w' !! id0) →
  linv (l :: t) w'.
Proof.
  intros [Hr Ha Hc Hans] _ Hstep Hother Hr0 Ha0 Hl Hid. split.
  - unfold runs. simpl. destruct (run_of l) as [id|] eqn:E; [|done]. apply NoDup_cons. split; [|done].
    destruct (decide (id = id0)) as [->|Hne]; [by apply Hr0|]. by destruct (Hother id Hne) as [? _].
  - unfold answers. simpl. destruct (answer_of l) as [id|] eqn:E; [|done]. apply NoDup_cons. split; [|done].
    destruct (decide (id = id0)) as [->|Hne]; [by apply Ha0|]. by destruct (Hother id Hne) as (_ & ? & _).
  - intros id. destruct (decide (id = id0)) as [->|Hne]; [done|].
    destruct (Hother id Hne) as (? & ? & -> & ->). by apply call_inv_mono.
  - intros id r [Heq|Hin]%elem_of_cons.
    + destruct (decide (id = id0)) as [->|Hne]; [|by destruct (Hother id Hne) as (_ & H2 & _); rewrite <- Heq in H2].
      destruct (Hl r (eq_sym Heq)) as (req & ? & ?). exists req. rewrite elem_of_cons.
      split; [by right|by apply outcome_mono].
    + destruct (Hans id r Hin) as (req & ? & ?). exists req. rewrite elem_of_cons.
      split; [by right|by apply outcome_mono].
Qed.

(** A step that leaves all calls alone. *)
Lemma linv_none t w l w' :
  linv t w → l = LInternal → l_calls w' = l_calls w → l_handlers w' = l_handlers w → linv (l :: t) w'.
Proof.
  intros [Hr Ha Hc Hans] -> Hcs Hhs. split; [done|done|..].
  - intros id. rewrite Hcs, Hhs. by apply call_inv_mono.
  - intros id r [?|Hin]%elem_of_cons; [done|]. destruct (Hans id r Hin) as (req & ? & ?). exists req.
    rewrite elem_of_cons. split; [by right|by apply outcome_mono].
Qed.

(** An internal step of one call, from its phases before and after. *)
Lemma linv_internal t w w' id req c c' oh' :
  linv t w → run t w → lstep resume w LInternal w' → l_calls w !! id = Some (req, c) →
  l_calls w' = <[id := (req, c')]> (l_calls w) →
  l_handlers w' = partial_alter (λ _, oh') id (l_handlers w) →
  (LCall id req ∈ t → phase_inv t id req c (l_handlers w !! id) → phase_inv t id req c' oh') →
  linv (LInternal :: t) w'.
Proof.
  intros Hinv Hrun Hstep Hc Hcs Hhs Hphase. eapply (linv_one t w LInternal w' id); try done.
  - intros id' Hne. rewrite Hcs, Hhs, lookup_insert_ne, lookup_partial_alter_ne by done. done.
  - rewrite Hcs, Hhs, lookup_insert_eq, lookup_partial_alter_eq. pose proof (li_call _ _ Hinv id) as Hi.
    rewrite Hc in Hi. destruct Hi as [Hcall Hi]. split; [by apply elem_of_cons; right|].
    apply phase_inv_mono; [done..|]. by apply Hphase.
Qed.

(** What a call that will not wait any more has become. *)
Lemma phase_given_up t id req c oh r :
  phase_inv t id req c oh → match c with CReturned _ => False | _ => True end → outcome t id req r →
  phase_inv t id req (CAnswered r) oh ∧ phase_inv t id req (CDelayed r) oh.
Proof.
  intros (Hh & Ho & Hn) Hc Hout. unfold phase_inv.
  assert (unhandled t id oh ∨ ∃ server, handled t id server oh) by (destruct c; eauto; by right; eexists).
  destruct c; try done; split_and!; done.
Qed.

Lemma linv_sent t w id req draw :
  linv t w → run t w → l_calls w !! id = Some (req, CSent) →
  let c' := processReq_begin (l_net w) req draw in
  let w' := match c' with
            | CWaiting _ server _ _ => set_handler id req (HStarted server) (set_call id req c' w)
            | _ => set_call id req c' w
            end in
  lstep resume w LInternal w' → linv (LInternal :: t) w'.
Proof.
  intros Hinv Hrun Hc c' w' Hstep. subst w'. unfold c', processReq_begin in *. clear c'.
  assert (∀ c', match c' with CAnswered r => r = no_reply | CTimeout => True | _ => False end →
    lstep resume w LInternal (set_call id req c' w) → linv (LInternal :: t) (set_call id req c' w)) as Hfail.
  { intros c' Hc' Hst. eapply (linv_internal t w _ id req CSent c' (l_handlers w !! id)); try done.
    - simpl. by rewrite partial_alter_self.
    - intros _ (Hu & _ & Hn). destruct c'; try done; [|subst r]; (split_and!; [by left|first [done|by left]|done]). }
  destruct (ei_enabled _); [|by apply Hfail]. destruct (ei_servername _) as [sn|]; [|by apply Hfail].
  destruct (ei_server _) as [s|]; [|by apply Hfail]. case_test; [by apply Hfail|].
  eapply (linv_internal t w _ id req CSent _ (Some (req, HStarted s))); try done.
  intros _ ([_ Hu] & _ & Hn). by split_and!.
Qed.

Lemma linv_waiting t w id req sn s rel lr r req' draw1 draw2 :
  linv t w → run t w → l_calls w !! id = Some (req, CWaiting sn s rel lr) →
  l_handlers w !! id = Some (req', HReturned r) →
  let '(rn', c') := processReq_end (l_net w) req sn s rel lr r draw1 draw2 in
  let w' := set_handler id req HDone (set_call id req c' (set_net rn' w)) in
  lstep resume w LInternal w' → linv (LInternal :: t) w'.
Proof.
  intros Hinv Hrun Hc Hh. destruct (processReq_end _ _ _ _ _ _ _ _ _) as [rn' c'] eqn:E. simpl. intros Hstep.
  eapply (linv_internal t w _ id req _ c' (Some (req, HDone))); try done.
  intros _. rewrite Hh. intros ((Hr & Hok & Hret) & _ & Hn).
  assert (isServerDead (l_net w) (endname req) sn s = false → confirmed t id req r) as Hconf.
  { intros Halive. split; [done|]. exists t, w, sn, s. by split_and!. }
  unfold processReq_end in E. repeat case_test_in E; injection E as _ <-;
    (split_and!; [by right; exists s|first [by left|by right; apply Hconf]|done]).
Qed.

Lemma linv_call_step t w id draw1 draw2 l w' :
  linv t w → run t w → call_step draw1 draw2 id w = Some (l, w') → linv (l :: t) w'.
Proof.
  intros Hinv Hrun Hstep. assert (lstep resume w l w') as Hls by by eapply ls_process.
  unfold call_step in Hstep. apply bind_Some in Hstep as ([req c] & Hc & Hstep).
  destruct c as [|sn s rel lr| |r|r|r]; [| | | | |done].
  - injection Hstep as <- <-. by eapply linv_sent.
  - assert (∀ c', processReq_tick (l_net w) req sn s = Some c' → LInternal = l → set_call id req c' w = w' →
      linv (l :: t) w') as Htick.
    { intros c' Hc' <- <-. unfold processReq_tick in Hc'. case_test_in Hc'; [|done]. injection Hc' as <-.
      eapply (linv_internal t w _ id req _ _ (l_handlers w !! id)); try done; [simpl; by rewrite partial_alter_self|].
      intros _ Hp. by apply (phase_given_up _ _ _ _ _ _ Hp); [|left]. }
    destruct (l_handlers w !! id) as [[req' [?|?|r|]]|] eqn:Hh;
      try by (apply bind_Some in Hstep as (c' & Hc' & [= <- <-]); eapply Htick).
    pose proof (linv_waiting t w id req sn s rel lr r req' draw1 draw2 Hinv Hrun Hc Hh) as Hw.
    destruct (processReq_end _ _ _ _ _ _ _ _ _) as [rn' c'] eqn:E. injection Hstep as <- <-. by apply Hw.
  - injection Hstep as <- <-.
    eapply (linv_internal t w _ id req CTimeout (CAnswered no_reply) (l_handlers w !! id)); try done;
      [simpl; by rewrite partial_alter_self|].
    intros _ Hp. by apply (phase_given_up _ _ _ _ _ _ Hp); [|left].
  - injection Hstep as <- <-.
    eapply (linv_internal t w _ id req (CDelayed r) (CAnswered r) (l_handlers w !! id)); try done.
    simpl. by rewrite partial_alter_self.
  - injection Hstep as <- <-. pose proof (li_call _ _ Hinv id) as Hi. rewrite Hc in Hi.
    destruct Hi as (Hcall & Hh & Ho & Hn). eapply (linv_one t w _ _ id); try done.
    + intros id' Hne. simpl. rewrite lookup_insert_ne by done. split_and!; [done|congruence|done|done].
    + intros r' [= <-]. by exists req.
    + simpl. rewrite lookup_insert_eq. split; [by apply elem_of_cons; right|]. split; [|split; [exact (outcome_mono _ _ _ _ _ Ho)|done]].
      destruct Hh as [?|[s ?]]; [left; by apply unhandled_mono|right; exists s; by apply handled_mono].
Qed.

Lemma linv_tick_step t w id w' :
  linv t w → run t w → tick_step id w = Some w' → linv (LInternal :: t) w'.
Proof.
  intros Hinv Hrun Hstep. assert (lstep resume w LInternal w') as Hls by by eapply ls_tick.
  unfold tick_step in Hstep. apply bind_Some in Hstep as ([req c] & Hc & Hstep).
  destruct c as [|sn s rel lr| | | |]; try done. apply bind_Some in Hstep as (c' & Hc' & [= <-]).
  unfold processReq_tick in Hc'. case_test_in Hc'; [|done]. injection Hc' as <-.
  eapply (linv_internal t w _ id req _ _ (l_handlers w !! id)); try done; [simpl; by rewrite partial_alter_self|].
  intros _ Hp. by apply (phase_given_up _ _ _ _ _ _ Hp); [|left].
Qed.

(** The call of a handler, whoever waits for it. *)
Lemma call_inv_handler l t id oc req h h' :
  answer_of l ≠ Some id →
  (∀ server, handled t id server (Some (req, h)) → handled (l :: t) id server (Some (req, h'))) →
  call_inv t id oc (Some (req, h)) → call_inv (l :: t) id oc (Some (req, h')).
Proof.
  intros Ha Hh. destruct oc as [[req' c]|]; [|by intros [[? _] _]]. intros (Hcall & Hp & Ho & Hn).
  split; [by apply elem_of_cons; right|]. split_and!.
  - destruct c; [by destruct Hp|by apply Hh|..];
      (destruct Hp as [[? _]|[s Hs]]; [done|right; exists s; by apply Hh]).
  - destruct c; try done; by apply outcome_mono.
  - destruct c; try done; by apply not_in_answers.
Qed.

(** Every handler that has not been called yet is new. *)
Lemma handler_server t w id req h :
  linv t w → l_handlers w !! id = Some (req, h) → ∃ server, handled t id server (Some (req, h)).
Proof.
  intros Hinv Hh. pose proof (li_call _ _ Hinv id) as Hi. rewrite Hh in Hi.
  destruct (l_calls w !! id) as [[req' c]|]; [|by destruct Hi as [[? _] _]]. destruct Hi as (_ & Hp & _).
  destruct c; [by destruct Hp|by eexists|..]; (destruct Hp as [[? _]|?]; [done|done]).
Qed.

Lemma linv_handler_step t w id l w' :
  linv t w → run t w → handler_step resume id w = Some (Ret (l, w')) → linv (l :: t) w'.
Proof.
  intros Hinv Hrun Hstep. assert (lstep resume w l w') as Hls by by eapply ls_handler.
  unfold handler_step in Hstep. apply bind_Some in Hstep as ([req h] & Hh & Hstep).
  destruct (handler_server _ _ _ _ _ Hinv Hh) as [s0 Hs0].
  assert (∀ h', answer_of l ≠ Some id → (run_of l = Some id → id ∉ runs t) →
    (∀ id', id' ≠ id → run_of l ≠ Some id' ∧ answer_of l ≠ Some id') →
    l_calls w' = l_calls w → l_handlers w' = <[id := (req, h')]> (l_handlers w) →
    (∀ server, handled t id server (Some (req, h)) → handled (l :: t) id server (Some (req, h'))) →
    linv (l :: t) w') as Hgo.
  { intros h' Ha Hr Hne Hcs Hhs Hnext. eapply (linv_one t w l w' id); try done.
    - intros id' Hid. rewrite Hcs, Hhs, lookup_insert_ne by done. destruct (Hne id' Hid). done.
    - intros r ->. simpl in Ha. congruence.
    - rewrite Hcs, Hhs, lookup_insert_eq. eapply call_inv_handler; [done..|]. rewrite <- Hh. apply (li_call _ _ Hinv id). }
  destruct h as [s|f|r|]; [| | |done].
  - apply bind_Some in Hstep as (rs & Hrs & [= Hstep]). inv_bind Hstep. destruct x as [rs' f].
    injection Hstep as <- <-. destruct Hs0 as [<- Hnew].
    apply (Hgo (HRunning f)); try done; [intros id' Hne; simpl; split; congruence|].
    intros s0 [-> _]. simpl. apply elem_of_cons. by left.
  - injection Hstep as Hstep. inv_bind Hstep. destruct x as [a [f'|reply]]; injection Hstep as <- <-.
    + apply (Hgo (HRunning f')); try done. intros s Hr. simpl in *. apply elem_of_cons. by right.
    + apply (Hgo (HReturned (mkReplyMsg true reply))); try done. intros s Hr. simpl in *. rewrite !elem_of_cons. auto.
  - destruct (l_calls w !! id) as [[? []]|]; try done; injection Hstep as <- <-;
      (apply (Hgo HDone); try done; intros s (Hr & _); simpl; apply elem_of_cons; by right).
Qed.

Lemma lrun_linv t w : lworld_init w0 → run t w → linv t w.
Proof.
  intros [Hc0 Hh0]. induction 1 as [|t w l w' Hrun IH Hstep].
  - split; [apply NoDup_nil_2..| |by intros id r ?%elem_of_nil].
    intros id. rewrite Hc0, Hh0, !lookup_empty. split; [|apply not_elem_of_nil]. split; [done|apply not_elem_of_nil].
  - pose proof Hstep as Hls. destruct Hstep as [w id req Hc Hh|w id d1 d2 l w' Hs|w id w' Hs|w id l w' Hs|w o rn' Ho|w p rs|w a].
    + eapply (linv_one t w _ _ id); try done.
      * intros id' Hne. simpl. by rewrite lookup_insert_ne.
      * pose proof (li_call _ _ IH id) as Hi. rewrite Hc, Hh in Hi. destruct Hi as [[_ Hr] Ha].
        simpl. rewrite lookup_insert_eq, Hh. split; [apply elem_of_cons; by left|]. by split_and!.
    + by eapply linv_call_step.
    + by eapply linv_tick_step.
    + by eapply linv_handler_step.
    + by eapply linv_none.
    + by eapply linv_none.
    + by eapply linv_none.
Qed.
End spec.

(** ** Calls return *)

Definition phase_of {A F} (w : lworld A F) (id : Z) : option cphase := snd <$> l_calls w !! id.

(** The call waits for a handler that has not returned, on a server that is
    there. *)
Definition stalled {A F} (w : lworld A F) (id : Z) : bool :=
  match l_calls w !! id with
  | Some (req, CWaiting servername server _ _) =>
      negb (isServerDead (l_net w) (endname req) servername server) &&
      match l_handlers w !! id with Some (_, HReturned _) => false | _ => true end
  | _ => false
  end.

(** The call alone, for as many steps as there are pairs of random numbers. *)
Fixpoint call_steps {A F} (draws : list (Z * Z)) (id : Z) (w : lworld A F) : lworld A F :=
  match draws with
  | [] => w
  | (d1, d2) :: draws' =>
      match call_step d1 d2 id w with
      | Some (_, w') => call_steps draws' id w'
      | None => w
      end
  end.

(** A call that has its reply, and one that is about to get it. *)
Lemma returned_steps {A F} (draws : list (Z * Z)) (w : lworld A F) id r :
  phase_of w id = Some (CReturned r) → phase_of (call_steps draws id w) id = Some (CReturned r).
Proof.
  destruct draws as [|[d1 d2] draws]; [done|]. simpl. unfold call_step. unfold phase_of at 1.
  intros ([req c] & Hc & Heq)%fmap_Some. simpl in Heq. subst c. unfold phase_of. by rewrite !Hc; simpl; rewrite Hc.
Qed.

Lemma answered_steps {A F} (draws : list (Z * Z)) (w : lworld A F) id req r :
  l_calls w !! id = Some (req, CAnswered r) → (1 ≤ length draws)%nat →
  phase_of (call_steps draws id w) id = Some (CReturned r).
Proof.
  intros Hc Hd. destruct draws as [|[d1 d2] draws]; [simpl in Hd; lia|]. cbn [call_steps]. unfold call_step.
  rewrite Hc. simpl. apply returned_steps. unfold phase_of. simpl. by rewrite lookup_insert_eq.
Qed.

Lemma timer_steps {A F} (draws : list (Z * Z)) (w : lworld A F) id req c r :
  l_calls w !! id = Some (req, c) → c = CTimeout ∧ r = no_reply ∨ c = CDelayed r → (2 ≤ length draws)%nat →
  phase_of (call_steps draws id w) id = Some (CReturned r).
Proof.
  intros Hc Hcase Hd. destruct draws as [|[d1 d2] draws]; [simpl in Hd; lia|]. cbn [call_steps]. unfold call_step.
  rewrite Hc. simpl in Hd. destruct Hcase as [[-> ->]| ->]; simpl;
    (eapply answered_steps; [simpl; apply lookup_insert_eq|lia]).
Qed.

(** A stalled call stays where it is. *)
Lemma stalled_steps {A F} (draws : list (Z * Z)) (w : lworld A F) id :
  stalled w id = true → call_steps draws id w = w.
Proof.
  intros Hst. destruct draws as [|[d1 d2] draws]; [done|]. simpl. unfold call_step. unfold stalled in Hst.
  destruct (l_calls w !! id) as [[req [|sn s rel lr| | | |]]|] eqn:Hc; try done. cbn [mbind option_bind].
  apply andb_true_iff in Hst as [Hd Hh]. apply negb_true_iff in Hd.
  unfold processReq_tick. rewrite Hd. by destruct (l_handlers w !! id) as [[req' []]|].
Qed.

(** A call that waits no longer: its handler has returned or its server is gone. *)
Lemma waiting_steps {A F} (draws : list (Z * Z)) (w : lworld A F) id req sn s rel lr :
  l_calls w !! id = Some (req, CWaiting sn s rel lr) → stalled w id = false → (3 ≤ length draws)%nat →
  ∃ r, phase_of (call_steps draws id w) id = Some (CReturned r) ∧
    if isServerDead (l_net w) (endname req) sn s then r = no_reply
    else ∃ req' r0, l_handlers w !! id = Some (req', HReturned r0) ∧ (r = r0 ∨ rel = false ∧ r = no_reply).
Proof.
  intros Hc Hst Hd. destruct draws as [|[d1 d2] draws]; [simpl in Hd; lia|]. simpl in Hd.
  unfold stalled in Hst. rewrite Hc in Hst. cbn [call_steps]. unfold call_step. rewrite Hc. cbn [mbind option_bind].
  destruct (isServerDead (l_net w) (endname req) sn s) eqn:Hdead.
  - exists no_reply. split; [|done]. unfold processReq_tick, processReq_end. rewrite Hdead.
    destruct (l_handlers w !! id) as [[req' []]|]; simpl;
      (eapply answered_steps; [simpl; apply lookup_insert_eq|lia]).
  - destruct (l_handlers w !! id) as [[req' [| |r0|]]|] eqn:Hh; try done. unfold processReq_end. rewrite Hdead.
    case_test; [|case_test].
    + exists no_reply. split; [eapply answered_steps; [simpl; apply lookup_insert_eq|lia]|].
      exists req', r0. split; [done|]. right. by destruct rel.
    + exists r0. split; [eapply timer_steps; [simpl; apply lookup_insert_eq|by right|lia]|]. eauto.
    + exists r0. split; [eapply answered_steps; [simpl; apply lookup_insert_eq|lia]|]. eauto.
Qed.

(** A request reaches its server: the end is enabled, connected to a server that is
    there, and the request is not dropped. *)
Definition reaches (rn : Network) (req : reqMsg) (draw : Z) : bool :=
  let info := readEndnameInfo rn (endname req) in
  ei_enabled info && bool_decide (is_Some (ei_server info)) && (ei_reliable info || negb (draw mod 1000 <? 100)).

(** A request that has just been sent: it waits for its handler, or fails. *)
Lemma sent_steps {A F} (w : lworld A F) id req d1 d2 draws :
  l_calls w !! id = Some (req, CSent) → (2 ≤ length draws)%nat →
  let w' := call_steps ((d1, d2) :: draws) id w in
  if reaches (l_net w) req d1 then stalled w' id = true else phase_of w' id = Some (CReturned no_reply).
Proof.
  intros Hc Hd. cbn [call_steps]. unfold call_step. rewrite Hc. cbn [mbind option_bind].
  unfold processReq_begin, reaches. set (info := readEndnameInfo (l_net w) (endname req)).
  assert (map_get false (enabled (l_net w)) (endname req) = ei_enabled info) as Hen by done.
  assert (ei_servername info ≫= server_of (l_net w) = ei_server info) as Hsrv by done. clearbody info.
  assert (∀ w1 : lworld A F, l_calls w1 !! id = Some (req, CTimeout) →
    phase_of (call_steps draws id w1) id = Some (CReturned no_reply)) as Ht
    by (intros w1 H1; eapply timer_steps; [done|by left|done]).
  destruct (ei_enabled info) eqn:He; [|simpl; apply Ht; apply lookup_insert_eq].
  destruct (ei_server info) as [server|] eqn:Hs; cycle 1.
  { rewrite bool_decide_eq_false_2 by (by intros []). simpl.
    destruct (ei_servername info); simpl; apply Ht; apply lookup_insert_eq. }
  destruct (ei_servername info) as [sn|] eqn:Hn; [simpl in Hsrv|done].
  rewrite bool_decide_eq_true_2 by done. simpl.
  destruct (ei_reliable info) eqn:Hr, (d1 mod 1000 <? 100); simpl;
    try (eapply answered_steps; [simpl; apply lookup_insert_eq|lia]).
  all: rewrite stalled_steps; unfold stalled; simpl; rewrite !lookup_insert_eq; unfold isServerDead; simpl;
    by rewrite Hen, Hsrv, bool_decide_eq_true_2.
Qed.

(** ** A sample run *)
Inductive laction {F} :=
| XCall (id : Z) (req : reqMsg)
| XProcess (id draw1 draw2 : Z)
| XHandler (id : Z)
| XNet (o : netop)
| XServer (p : Z) (rs : Server F).
Arguments laction : clear implicits.

Section exec.
Context {A F : Type} (resume : A → F → Go (A * (F + bytes))).

Definition lexec (x : laction F) (w : lworld A F) : option (label * lworld A F) :=
  match x with
  | XCall id req =>
      guard (l_calls w !! id = None);; guard (l_handlers w !! id = None);;
      Some (LCall id req, set_call id req CSent (set_net (net_accept (l_net w) req) w))
  | XProcess id d1 d2 => call_step d1 d2 id w
  | XHandler id =>
      m ← handler_step resume id w; match m with Ret x => Some x | _ => None end
  | XNet o => match net_do o (l_net w) with Ret rn' => Some (LInternal, set_net rn' w) | _ => None end
  | XServer p rs =>
      Some (LInternal, mkLWorld (l_net w) (<[p := rs]> (l_heap w)) (l_app w) (l_calls w) (l_handlers w))
  end.

Fixpoint lexecs (l : list (laction F)) (t : list label) (w : lworld A F) : option (list label * lworld A F) :=
  match l with
  | [] => Some (t, w)
  | x :: l' => '(lb, w') ← lexec x w; lexecs l' (lb :: t) w'
  end.

Lemma lexec_sound x w lb w' : lexec x w = Some (lb, w') → lstep resume w lb w'.
Proof.
  destruct x; simpl; intros Hx.
  - apply bind_Some in Hx as (H1 & _ & Hx). apply bind_Some in Hx as (H2 & _ & Hx). injection Hx as <- <-.
    by apply ls_call.
  - by eapply ls_process.
  - apply bind_Some in Hx as ([[lb1 w1]| |] & Hh & Hx); try done. injection Hx as -> ->. by eapply ls_handler.
  - destruct (net_do o (l_net w)) as [rn'| |] eqn:E; try done. injection Hx as <- <-. by eapply ls_net.
  - injection Hx as <- <-. apply ls_server.
Qed.

Lemma lexecs_sound w0 l t w t' w' :
  lrun resume w0 t w → lexecs l t w = Some (t', w') → lrun resume w0 t' w'.
Proof.
  revert t w. induction l as [|x l IH]; intros t w Hrun; simpl; [by intros [= <- <-]|].
  intros ([lb w1] & Hx%lexec_sound & Hl)%bind_Some. eapply IH; [|done]. by eapply lrun_step.
Qed.
End exec.

(** A server that numbers its calls: the handler replies with its argument and
    the number. *)
Definition count_resume (a : Z) (f : bytes) : Go (Z * (bytes + bytes)) := Ret (a + 1, inr (f ++ [a])).
Definition count_server : Server bytes :=
  AddService MakeServer (MakeService "Counter" [mkMethodInfo "Next" "" 3 true 0 id; mkMethodInfo "secret" "p" 3 true 0 id]).
Definition net_world : lworld Z bytes := mkLWorld MakeNetwork ∅ 0 ∅ ∅.
Definition e1 : name := NStr "e1".

(** Two calls; before the second is answered the server is removed. *)
Definition net_run : list (laction bytes) :=
  [XServer 7 count_server; XNet (OMakeEnd e1); XNet (OConnect e1 (NInt 0)); XNet (OAddServer (NInt 0) 7);
   XNet (OEnable e1 true);
   XCall 1 (mkReqMsg e1 "Counter.Next" [5]); XProcess 1 0 0; XHandler 1; XHandler 1; XProcess 1 0 0; XProcess 1 0 0;
   XCall 2 (mkReqMsg e1 "Counter.Next" [6]); XProcess 2 0 0; XHandler 2; XHandler 2; XNet (ODeleteServer (NInt 0))].

Definition net_after : list label * lworld Z bytes := default ([], net_world) (lexecs count_resume net_run [] net_world).

Lemma net_after_run : lrun count_resume net_world net_after.1 net_after.2.
Proof.
  unfold net_after. destruct (lexecs count_resume net_run [] net_world) as [[t w]|] eqn:E; [|apply lrun_nil].
  eapply (lexecs_sound count_resume net_world); [apply lrun_nil|exact E].
Qed.

(** ** Theorems *)

(** C25: a call executes its handler at most once and returns at most once.  When it
    reports success, the reply is what the handler returned, and at some moment
    after that the server on which it ran was still the one registered under its
    name and the client's end was enabled: a server that has been removed never
    answers.  Otherwise the reply is the empty failure. *)
Theorem rpc_at_most_once {A F} (resume : A → F → Go (A * (F + bytes))) (w0 w : lworld A F) (t : list label)
    (Hinit : lworld_init w0) (Hrun : lrun resume w0 t w) :
  NoDup (runs t) ∧ NoDup (answers t) ∧
  ∀ id r, LAnswer id r ∈ t → ∃ req, LCall id req ∈ t ∧ (r = no_reply ∨ confirmed resume w0 t id req r).
Proof.
  destruct (lrun_linv resume w0 t w Hinit Hrun) as [Hr Ha _ Hans]. split; [done|]. split; [done|]. exact Hans.
Qed.

(** The first call of the sample got its reply; its handler ran once. *)
Lemma rpc_at_most_once_witness :
  net_after.1 !! 5%nat = Some (LAnswer 1 (mkReplyMsg true [5; 0])) ∧ NoDup (runs net_after.1).
Proof.
  split; [vm_compute; reflexivity|].
  exact (proj1 (rpc_at_most_once count_resume net_world net_after.2 net_after.1 (conj eq_refl eq_refl) net_after_run)).
Defined.

(** What a call in a phase returns when it returns without waiting: a request that
    has just been sent, and one that did not reach its server, fail; a call that
    waits fails when its server was removed or replaced or its end disabled, and
    otherwise has the reply of its handler, unless an unreliable network drops that;
    a delayed reply arrives even if the server is gone by then. *)
Definition returns_with {A F} (w : lworld A F) (id : Z) (req : reqMsg) (c : cphase) (r : replyMsg) : Prop :=
  match c with
  | CSent | CTimeout => r = no_reply
  | CWaiting servername server rel _ =>
      if isServerDead (l_net w) (endname req) servername server then r = no_reply
      else ∃ req' r0, l_handlers w !! id = Some (req', HReturned r0) ∧ (r = r0 ∨ rel = false ∧ r = no_reply)
  | CDelayed r0 | CAnswered r0 | CReturned r0 => r = r0
  end.

(** C34: a call returns.  In whatever phase a call is, the sending of its request
    included, four steps of its own, with whatever random numbers, either bring
    it to its return, with the reply [returns_with] says, or leave it waiting for a handler
    that has not returned, on a server that is there.  The latter happens to a
    request that was just sent exactly when it reaches its server, and otherwise only
    to a call that is so waiting already. *)
Theorem call_returns {A F} (w : lworld A F) (id : Z) (req : reqMsg) (c : cphase) (d1 d2 : Z) (draws : list (Z * Z))
    (Hc : l_calls w !! id = Some (req, c)) (Hd : (3 ≤ length draws)%nat) :
  let w' := call_steps ((d1, d2) :: draws) id w in
  let waits := match c with CSent => reaches (l_net w) req d1 | _ => stalled w id end in
  if waits then stalled w' id = true else ∃ r, phase_of w' id = Some (CReturned r) ∧ returns_with w id req c r.
Proof.
  destruct c as [|sn s rel lr| |r|r|r]; cbv zeta.
  - pose proof (sent_steps w id req d1 d2 draws Hc ltac:(lia)) as Hs. cbv zeta in Hs. case_match; [done|].
    by exists no_reply.
  - destruct (stalled w id) eqn:Hst; [by rewrite stalled_steps|].
    by destruct (waiting_steps ((d1, d2) :: draws) w id req sn s rel lr Hc Hst ltac:(simpl; lia)) as (r & ? & ?); exists r.
  - unfold stalled at 1. rewrite Hc. exists no_reply. split; [|done]. eapply timer_steps; [done|by left|simpl; lia].
  - unfold stalled at 1. rewrite Hc. exists r. split; [|done]. eapply timer_steps; [done|by right|simpl; lia].
  - unfold stalled at 1. rewrite Hc. exists r. split; [|done]. eapply answered_steps; [done|simpl; lia].
  - unfold stalled at 1. rewrite Hc. exists r. split; [|done]. apply returned_steps. unfold phase_of. by rewrite Hc.
Qed.

(** The second call of the sample: its handler has returned, the server is gone. *)
Lemma call_returns_witness :
  ∃ r, phase_of (call_steps [(0, 0); (0, 0); (0, 0); (0, 0)] 2 net_after.2) 2 = Some (CReturned r) ∧ r = no_reply.
Proof.
  assert (l_calls net_after.2 !! 2 = Some (mkReqMsg e1 "Counter.Next" [6], CWaiting (NInt 0) 7 true false)) as Hw
    by (vm_compute; reflexivity).
  exact (call_returns net_after.2 2 _ _ 0 0 [(0, 0); (0, 0); (0, 0)] Hw ltac:(simpl; lia)).
Defined.
