(* ===== verification/Bitset.v ===== *)
(** * The bit sets of the linearizability checker

    [porcupine/bitset.go]: a set of small integers as a slice of 64-bit words,
    bit [pos] of the set being bit [pos % 64] of word [pos / 64].  The checker
    keeps the operations it has linearized in one.  Words are integers in
    [0, 2^64) ([words_ok]), operated on bitwise; a position outside the slice
    panics, as the Go code does.

    The laws: what [get] answers after [newBitset], [set] and [clear]
    ([get_newBitset], [get_set], [get_clear]); that [clear] undoes [set]
    exactly ([clear_set]), which is what lets the search backtrack; and that
    [equals] is equality of sets. *)

From S2P Require Import Prelude.

Local Ltac Zify.zify_post_hook ::= Z.to_euclidean_division_equations.

Abbreviation bitset := (list Z) (only parsing).

Definition newBitset (bits : Z) : bitset :=
  let extra := if negb (bits mod 64 =? 0) then 1 else 0 in
  let chunks := bits / 64 + extra in
  replicate (Z.to_nat chunks) 0.

(** [clone] makes a slice of the same length and copies the words: as a value,
    the same list. *)
Definition clone (b : bitset) : bitset :=
  let dataCopy := replicate (length b) 0 in
  take (length dataCopy) b.

Definition bitsetIndex (pos : Z) : Z * Z := (pos / 64, pos mod 64).

Definition set (b : bitset) (pos : Z) : Go bitset :=
  let '(major, minor) := bitsetIndex pos in
  v ← index b major;
  set_index b major (Z.lor v (Z.shiftl 1 minor)).

Definition clear (b : bitset) (pos : Z) : Go bitset :=
  let '(major, minor) := bitsetIndex pos in
  v ← index b major;
  set_index b major (Z.ldiff v (Z.shiftl 1 minor)).

Definition get (b : bitset) (pos : Z) : Go bool :=
  let '(major, minor) := bitsetIndex pos in
  v ← index b major;
  Ret (negb (Z.land v (Z.shiftl 1 minor) =? 0)).

(** [bits.OnesCount64]. *)
Definition onesCount64 (v : Z) : Z :=
  foldr (λ i n, Z.b2z (Z.testbit v i) + n) 0 (seqZ 0 64).

Definition popcnt (b : bitset) : Z :=
  foldl (λ total v, total + onesCount64 v) 0 b.

Definition hash (b : bitset) : Z :=
  foldl (λ h v, Z.lxor h v) (popcnt b) b.

Fixpoint equals_from (b b2 : bitset) : bool :=
  match b, b2 with
  | v :: b', v2 :: b2' => if negb (v =? v2) then false else equals_from b' b2'
  | _, _ => true
  end.

Definition equals (b b2 : bitset) : bool :=
  if negb (zlen b =? zlen b2) then false else equals_from b b2.

(** ** Laws *)

Definition words_ok (b : bitset) : Prop := Forall (λ v, 0 ≤ v < 2 ^ 64) b.

(** The positions a set can hold. *)
Definition in_range (b : bitset) (pos : Z) : Prop := 0 ≤ pos < 64 * zlen b.

(** [bit b pos]: what [get] reads, as a total function. *)
Definition bit (b : bitset) (pos : Z) : bool :=
  Z.testbit (nth (Z.to_nat (pos / 64)) b 0) (pos mod 64).

Lemma bit_index pos : 0 ≤ pos → 0 ≤ pos / 64 ∧ 0 ≤ pos mod 64 < 64.
Proof. lia. Qed.

Lemma word_at b pos :
  in_range b pos → ∃ v, index b (pos / 64) = Ret v ∧ nth (Z.to_nat (pos / 64)) b 0 = v.
Proof.
  intros [? ?]. destruct (index_safe b (pos / 64)) as [v Hv]; [lia|].
  exists v. split; [done|]. apply index_Ret in Hv as [_ Hv].
  apply nth_lookup_Some with (d := 0) in Hv. done.
Qed.

Lemma land_bit v i : 0 ≤ i → negb (Z.land v (Z.shiftl 1 i) =? 0) = Z.testbit v i.
Proof.
  intros Hi. destruct (Z.eqb_spec (Z.land v (Z.shiftl 1 i)) 0) as [E|E]; simpl.
  - symmetry. pose proof (f_equal (λ z, Z.testbit z i) E) as Hb. cbv beta in Hb.
    by rewrite Z.land_spec, Z.shiftl_spec, Z.sub_diag, andb_true_r, Z.bits_0 in Hb.
  - destruct (Z.testbit v i) eqn:Hb; [done|]. destruct E. apply Z.bits_inj'. intros j Hj.
    rewrite Z.land_spec, Z.shiftl_spec, Z.bits_0 by done.
    destruct (decide (j = i)) as [->|Hne]; [by rewrite Hb|].
    replace (Z.testbit 1 (j - i)) with false; [by rewrite andb_false_r|].
    symmetry. destruct (decide (j < i)); [apply Z.testbit_neg_r; lia|].
    apply (Z.bits_above_log2 1 (j - i)); simpl; lia.
Qed.

Lemma get_bit b pos : in_range b pos → get b pos = Ret (bit b pos).
Proof.
  intros Hp. destruct (word_at b pos Hp) as (v & Hv & Hn).
  unfold get, bit, bitsetIndex. rewrite Hv, Hn, bind_Ret, land_bit; [done|].
  apply bit_index. apply Hp.
Qed.

Lemma get_oob b pos : ¬ in_range b pos → get b pos = Panic PIndex.
Proof.
  intros Hp. unfold get, bitsetIndex. rewrite index_oob; [done|].
  unfold in_range in Hp. pose proof (zlen_nonneg b). lia.
Qed.

(** [set] and [clear] replace one word. *)
Lemma set_Ret b pos :
  in_range b pos →
  set b pos = Ret (<[Z.to_nat (pos / 64) :=
    Z.lor (nth (Z.to_nat (pos / 64)) b 0) (Z.shiftl 1 (pos mod 64))]> b).
Proof.
  intros Hp. destruct (word_at b pos Hp) as (v & Hv & Hn).
  unfold set, bitsetIndex. rewrite Hv, Hn, bind_Ret. apply set_index_Ret.
  by apply index_bounds in Hv.
Qed.

Lemma clear_Ret b pos :
  in_range b pos →
  clear b pos = Ret (<[Z.to_nat (pos / 64) :=
    Z.ldiff (nth (Z.to_nat (pos / 64)) b 0) (Z.shiftl 1 (pos mod 64))]> b).
Proof.
  intros Hp. destruct (word_at b pos Hp) as (v & Hv & Hn).
  unfold clear, bitsetIndex. rewrite Hv, Hn, bind_Ret. apply set_index_Ret.
  by apply index_bounds in Hv.
Qed.

Lemma set_oob b pos : ¬ in_range b pos → set b pos = Panic PIndex.
Proof.
  intros Hp. unfold set, bitsetIndex. rewrite index_oob; [done|].
  unfold in_range in Hp. pose proof (zlen_nonneg b). lia.
Qed.

Lemma nth_insert_same (b : list Z) (n : nat) v d : (n < length b)%nat → nth n (<[n := v]> b) d = v.
Proof. intros Hn. apply nth_lookup_Some. by apply list_lookup_insert_eq. Qed.

Lemma nth_insert_other (b : list Z) (n m : nat) v d : n ≠ m → nth m (<[n := v]> b) d = nth m b d.
Proof. intros Hn. by rewrite !nth_lookup, list_lookup_insert_ne. Qed.

Lemma testbit_one i j : 0 ≤ i → 0 ≤ j → Z.testbit (Z.shiftl 1 i) j = bool_decide (i = j).
Proof.
  intros Hi Hj. rewrite Z.shiftl_1_l. case_bool_decide as E.
  - subst. by apply Z.pow2_bits_true.
  - by apply Z.pow2_bits_false.
Qed.

(** One word replaced by [f] of itself and the bit mask of [pos]. *)
Lemma bit_insert b pos v p :
  in_range b pos → in_range b p →
  (∀ i, 0 ≤ i → i ≠ pos mod 64 → Z.testbit v i = Z.testbit (nth (Z.to_nat (pos / 64)) b 0) i) →
  bit (<[Z.to_nat (pos / 64) := v]> b) p =
    if decide (p = pos) then Z.testbit v (pos mod 64) else bit b p.
Proof.
  intros [Hp0 Hp1] [Hq0 Hq1] Hv. unfold bit.
  assert (Hl : (Z.to_nat (pos / 64) < length b)%nat) by (unfold zlen in *; lia).
  destruct (decide (p = pos)) as [->|Hne]; [by rewrite nth_insert_same|].
  destruct (decide (p / 64 = pos / 64)) as [E|E].
  - rewrite E, nth_insert_same by done. apply Hv; [lia|].
    intros Hm. apply Hne. rewrite (Z.div_mod p 64), (Z.div_mod pos 64) by lia. lia.
  - rewrite nth_insert_other; [done|]. lia.
Qed.

Lemma set_bit b pos b' p :
  in_range b p → set b pos = Ret b' → bit b' p = bool_decide (p = pos) || bit b p.
Proof.
  intros Hp Hset. destruct (decide (in_range b pos)) as [Hr|Hr];
    [|by rewrite set_oob in Hset].
  rewrite set_Ret in Hset by done. injection Hset as <-.
  pose proof (bit_index pos ltac:(apply Hr)).
  rewrite bit_insert; [|done..|].
  - destruct (decide (p = pos)) as [->|Hne].
    + rewrite bool_decide_true by done. rewrite Z.lor_spec, testbit_one by lia.
      by rewrite bool_decide_true, orb_true_r.
    + by rewrite bool_decide_false.
  - intros i Hi Hne. rewrite Z.lor_spec, testbit_one by lia.
    by rewrite bool_decide_false, orb_false_r by done.
Qed.

Lemma clear_bit b pos b' p :
  in_range b pos → in_range b p → clear b pos = Ret b' →
  bit b' p = negb (bool_decide (p = pos)) && bit b p.
Proof.
  intros Hr Hp. rewrite clear_Ret by done. intros [= <-].
  pose proof (bit_index pos ltac:(apply Hr)).
  rewrite bit_insert; [|done..|].
  - destruct (decide (p = pos)) as [->|Hne].
    + rewrite bool_decide_true by done. rewrite Z.ldiff_spec, testbit_one by lia.
      by rewrite bool_decide_true, andb_false_r.
    + by rewrite bool_decide_false.
  - intros i Hi Hne. rewrite Z.ldiff_spec, testbit_one by lia.
    by rewrite bool_decide_false, andb_true_r by done.
Qed.

Lemma set_length b pos b' : set b pos = Ret b' → length b' = length b.
Proof.
  unfold set, bitsetIndex. intros H. inv_bind H.
  apply set_index_inv in H as [_ ->]. apply length_insert.
Qed.

Lemma in_range_length b b' pos : length b' = length b → in_range b pos → in_range b' pos.
Proof. unfold in_range, zlen. intros ->. done. Qed.

Lemma length_newBitset bits :
  0 ≤ bits → bits ≤ 64 * zlen (newBitset bits) < bits + 64.
Proof. intros Hb. unfold newBitset, zlen. rewrite length_replicate. case_test; lia. Qed.

Lemma in_range_new bits pos : 0 ≤ pos < bits → in_range (newBitset bits) pos.
Proof. intros Hp. unfold in_range. pose proof (length_newBitset bits). lia. Qed.

Lemma bit_newBitset bits pos : bit (newBitset bits) pos = false.
Proof.
  unfold bit, newBitset. replace (nth _ (replicate _ _) 0) with 0; [apply Z.bits_0|].
  rewrite nth_lookup. destruct (replicate _ 0 !! _) as [x|] eqn:E; [|done].
  by apply lookup_replicate in E as [-> _].
Qed.

Lemma bitset_clone_id b : clone b = b.
Proof. unfold clone. rewrite length_replicate. apply take_ge. lia. Qed.

(** Clearing a bit just set gives back the words as they were. *)
Lemma clear_set b pos b' :
  in_range b pos → bit b pos = false → set b pos = Ret b' → clear b' pos = Ret b.
Proof.
  intros Hr Hb Hset. pose proof (bit_index pos ltac:(apply Hr)).
  assert (Hl : (Z.to_nat (pos / 64) < length b)%nat) by (destruct Hr; unfold zlen in *; lia).
  pose proof (set_length _ _ _ Hset) as Hlen.
  rewrite clear_Ret by (by eapply in_range_length).
  rewrite set_Ret in Hset by done. injection Hset as <-. f_equal.
  rewrite nth_insert_same, list_insert_insert_eq by done. apply list_insert_id.
  destruct (lookup_lt_is_Some_2 b _ Hl) as [v Hv].
  unfold bit in Hb. rewrite (nth_lookup_Some _ _ _ _ Hv) in *. rewrite Hv. f_equal.
  apply Z.bits_inj'. intros j Hj. rewrite Z.ldiff_spec, Z.lor_spec, testbit_one by lia.
  case_bool_decide as E; [subst; by rewrite Hb|]. by rewrite orb_false_r, andb_true_r.
Qed.

Lemma equals_from_eq b b2 : length b = length b2 → equals_from b b2 = true ↔ b = b2.
Proof.
  revert b2. induction b as [|v b IH]; intros [|v2 b2] Hl; try done. simpl in *.
  destruct (Z.eqb_spec v v2) as [->|Hne]; simpl; [|naive_solver].
  rewrite IH by lia. naive_solver.
Qed.

Lemma equals_eq b b2 : equals b b2 = true ↔ b = b2.
Proof.
  unfold equals. destruct (Z.eqb_spec (zlen b) (zlen b2)) as [E|E]; simpl.
  - apply equals_from_eq. unfold zlen in E. lia.
  - split; [done|]. by intros ->.
Qed.

(** A word is a 64-bit integer when its bits from 64 on are zero, so words in
    range stay in range. *)
Lemma word_bits v : 0 ≤ v < 2 ^ 64 ↔ ∀ j, 64 ≤ j → Z.testbit v j = false.
Proof.
  split.
  - intros Hv j Hj. rewrite <- (Z.mod_small v (2 ^ 64)) by done.
    by apply Z.mod_pow2_bits_high.
  - intros Hv. assert (v = v mod 2 ^ 64) as ->; [|apply Z.mod_pos_bound; lia].
    apply Z.bits_inj'. intros j Hj. destruct (decide (j < 64)).
    + by rewrite Z.mod_pow2_bits_low.
    + rewrite Z.mod_pow2_bits_high by lia. apply Hv. lia.
Qed.

Lemma word_lor v i : 0 ≤ v < 2 ^ 64 → 0 ≤ i < 64 → 0 ≤ Z.lor v (Z.shiftl 1 i) < 2 ^ 64.
Proof.
  rewrite !word_bits. intros Hv Hi j Hj. rewrite Z.lor_spec, testbit_one, Hv by lia.
  rewrite bool_decide_false; [done|lia].
Qed.

Lemma word_ldiff v i : 0 ≤ v < 2 ^ 64 → 0 ≤ Z.ldiff v (Z.shiftl 1 i) < 2 ^ 64.
Proof. rewrite !word_bits. intros Hv j Hj. by rewrite Z.ldiff_spec, Hv. Qed.

Lemma set_words b pos b' : words_ok b → set b pos = Ret b' → words_ok b'.
Proof.
  unfold words_ok. intros Hb H. destruct (decide (in_range b pos)) as [Hr|Hr];
    [|by rewrite set_oob in H].
  pose proof (word_at b pos Hr) as (v & Hv & Hn). apply index_Ret in Hv as [_ Hv].
  rewrite set_Ret in H by done. injection H as <-. apply Forall_insert; [done|].
  rewrite Hn. apply word_lor; [by eapply (Forall_lookup_1 (λ v, 0 ≤ v < 2 ^ 64))|].
  destruct Hr. lia.
Qed.

Lemma clear_words b pos b' : in_range b pos → words_ok b → clear b pos = Ret b' → words_ok b'.
Proof.
  unfold words_ok. intros Hr Hb. rewrite clear_Ret by done. intros [= <-].
  pose proof (word_at b pos Hr) as (v & Hv & Hn). apply index_Ret in Hv as [_ Hv].
  apply Forall_insert; [done|]. rewrite Hn. apply word_ldiff.
  by eapply (Forall_lookup_1 (λ v, 0 ≤ v < 2 ^ 64)).
Qed.

(** The words of a set have as many bits set as [popcnt] says, so adding a new
    element counts one more. *)
Lemma popcnt_foldr b t : foldl (λ total v, total + onesCount64 v) t b = t + popcnt b.
Proof.
  unfold popcnt. revert t. induction b as [|v b IH]; intros t; simpl; [lia|].
  rewrite (IH (t + _)), (IH (0 + _)). lia.
Qed.

Lemma popcnt_cons v b : popcnt (v :: b) = onesCount64 v + popcnt b.
Proof. unfold popcnt at 1. simpl. rewrite popcnt_foldr. lia. Qed.

Lemma onesCount_lor v i :
  0 ≤ i < 64 → Z.testbit v i = false → onesCount64 (Z.lor v (Z.shiftl 1 i)) = onesCount64 v + 1.
Proof.
  intros Hi Hv. unfold onesCount64.
  assert (Hgen : ∀ l, NoDup l → Forall (λ j, 0 ≤ j) l →
    foldr (λ j n, Z.b2z (Z.testbit (Z.lor v (Z.shiftl 1 i)) j) + n) 0 l =
    foldr (λ j n, Z.b2z (Z.testbit v j) + n) 0 l + (if decide (i ∈ l) then 1 else 0)).
  { induction l as [|j l IH]; intros Hnd Hpos; [by rewrite decide_False by set_solver|].
    apply NoDup_cons in Hnd as [Hni Hnd]. apply Forall_cons in Hpos as [Hj Hpos].
    simpl. rewrite IH, Z.lor_spec, testbit_one by (done || lia).
    case_bool_decide as E.
    - subst j. rewrite Hv, !(decide_False (P := i ∈ l)), decide_True by set_solver.
      simpl. lia.
    - rewrite orb_false_r. destruct (decide (i ∈ l)).
      + rewrite decide_True by set_solver. lia.
      + rewrite decide_False by set_solver. lia. }
  rewrite Hgen; [|apply NoDup_seqZ|].
  - rewrite decide_True; [done|]. apply elem_of_seqZ. lia.
  - apply Forall_forall. intros j Hj. apply elem_of_seqZ in Hj. lia.
Qed.

Lemma popcnt_insert b n v v' :
  b !! n = Some v → popcnt (<[n := v']> b) = popcnt b - onesCount64 v + onesCount64 v'.
Proof.
  revert n. induction b as [|w b IH]; intros [|n] Hn; try done; simpl in *.
  - injection Hn as ->. rewrite !popcnt_cons. lia.
  - rewrite !popcnt_cons, (IH _ Hn). lia.
Qed.

(** C38: A set made by [newBitset n] and changed by [set] and [clear]
    answers [get] as a mathematical set does, at every position below [n]: the
    position set reads true, the position cleared false, the others as before;
    adding a new element raises [popcnt] by one and [clear] then restores the
    slice word for word. Positions beyond the words panic. *)
Theorem bitset_correct b pos :
  (in_range b pos →
     ∃ b', set b pos = Ret b' ∧ length b' = length b ∧ (words_ok b → words_ok b') ∧
       (∀ p, in_range b p → get b' p = if decide (p = pos) then Ret true else get b p) ∧
       (get b pos = Ret false → popcnt b' = popcnt b + 1 ∧ clear b' pos = Ret b)) ∧
  (in_range b pos →
     ∃ b', clear b pos = Ret b' ∧ (words_ok b → words_ok b') ∧
       ∀ p, in_range b p → get b' p = if decide (p = pos) then Ret false else get b p) ∧
  (¬ in_range b pos → set b pos = Panic PIndex ∧ get b pos = Panic PIndex).
Proof.
  split_and!; [intros Hr | intros Hr | auto using set_oob, get_oob].
  - pose proof (set_Ret b pos Hr) as Hset. eexists. split; [done|].
    pose proof (set_length _ _ _ Hset) as Hlen.
    split_and!; [done | by intros; eapply set_words | |].
    + intros p Hp. rewrite !get_bit by (done || by eapply in_range_length).
      rewrite (set_bit b pos _ p Hp Hset). case_decide; by case_bool_decide.
    + rewrite get_bit by done. intros [= Hb]. split; [|by eapply clear_set].
      destruct (word_at b pos Hr) as (v & Hv & Hn). apply index_Ret in Hv as [_ Hv].
      unfold bit in Hb. rewrite Hn in *. rewrite (popcnt_insert _ _ _ _ Hv).
      rewrite onesCount_lor; [lia | | done]. destruct Hr. lia.
  - pose proof (clear_Ret b pos Hr) as Hcl. eexists. split; [done|].
    split; [by intros; eapply clear_words|].
    intros p Hp. rewrite !get_bit by (done || (eapply in_range_length; [apply length_insert|done])).
    rewrite (clear_bit b pos _ p Hr Hp Hcl). case_decide; by case_bool_decide.
Qed.

Lemma bitset_correct_witness :
  in_range (newBitset 70) 65 ∧ ¬ in_range (newBitset 70) 128 ∧
  set (newBitset 70) 65 = Ret [0; 2] ∧ set (newBitset 70) 128 = Panic PIndex.
Proof.
  pose proof (bitset_correct (newBitset 70) 65) as (Hset & _ & _).
  pose proof (bitset_correct (newBitset 70) 128) as (_ & _ & Hoob).
  assert (H65 : in_range (newBitset 70) 65) by (unfold in_range; vm_compute; split; congruence).
  assert (H128 : ¬ in_range (newBitset 70) 128) by (unfold in_range; vm_compute; intros []; congruence).
  destruct (Hset H65) as (b' & Hb' & _). destruct (Hoob H128) as [Hp _].
  split_and!; [done | done | vm_compute; reflexivity | exact Hp].
Defined.
