(* ===== verification/Chan.v ===== *)
(** * Go channels, and the wait channels of the three servers

    The servers park each client request on a channel of capacity one, filed
    under the log index the request was given.  The request handler keeps its
    reference to the channel after the map entry is gone, so channels live in
    a heap and the map holds their addresses. *)

From S2P Require Import Prelude.

Section chan.
Context {A : Type}.

(** A buffered channel of capacity one. *)
Record chan := mkChan { ch_buf : option A; ch_closed : bool }.

(** The wait channels of a server: the channel heap, the address of the next
    channel, and the [waitChan] map from log index to channel. *)
Record waitroom := mkWaitroom {
  wr_heap : gmap Z chan;
  wr_next : Z;
  wr_map : gmap Z Z
}.

Definition empty_waitroom : waitroom := mkWaitroom ∅ 0 ∅.

(** [getWaitCh]: the channel filed under [index], made if there is none. *)
Definition wait_get (w : waitroom) (index : Z) : waitroom * Z :=
  match wr_map w !! index with
  | Some c => (w, c)
  | None =>
      (mkWaitroom (<[wr_next w := mkChan None false]> (wr_heap w))
                  (wr_next w + 1) (<[index := wr_next w]> (wr_map w)),
       wr_next w)
  end.

(** [select { case ch <- v: case <-time.After(...): }]: sending on a closed
    channel panics; on a full one the timer fires and nothing is sent (a
    receiver that empties the channel meanwhile is a receive before this
    step). *)
Definition chan_offer (w : waitroom) (c : Z) (v : A) : Go waitroom :=
  match wr_heap w !! c with
  | None => Ret w
  | Some ch =>
      if ch_closed ch then Panic PSendClosed
      else match ch_buf ch with
           | Some _ => Ret w
           | None => Ret (mkWaitroom (<[c := mkChan (Some v) false]> (wr_heap w))
                                     (wr_next w) (wr_map w))
           end
  end.

(** The offer made by an applier: to the channel filed under the index, if
    there is one. *)
Definition wait_notify (w : waitroom) (index : Z) (v : A) : Go waitroom :=
  match wr_map w !! index with
  | Some c => chan_offer w c v
  | None => Ret w
  end.

(** What a receive yields: nothing yet, a value, or a closed channel. *)
Inductive received := RBlocked | RValue (v : A) | RClosed.

Definition chan_recv (w : waitroom) (c : Z) : waitroom * received :=
  match wr_heap w !! c with
  | None => (w, RBlocked)
  | Some ch =>
      match ch_buf ch with
      | Some v => (mkWaitroom (<[c := mkChan None (ch_closed ch)]> (wr_heap w))
                              (wr_next w) (wr_map w), RValue v)
      | None => (w, if ch_closed ch then RClosed else RBlocked)
      end
  end.

(** [close(waitCh); delete(waitChan, index)]. *)
Definition wait_release (w : waitroom) (index c : Z) : Go waitroom :=
  match wr_heap w !! c with
  | None => Ret w
  | Some ch =>
      if ch_closed ch then Panic PCloseClosed
      else Ret (mkWaitroom (<[c := mkChan (ch_buf ch) true]> (wr_heap w))
                           (wr_next w) (delete index (wr_map w)))
  end.

(** Every filed channel is allocated and open, under one index only. *)
Record wait_wf (w : waitroom) : Prop := {
  ww_alloc : ∀ c, is_Some (wr_heap w !! c) → 0 ≤ c < wr_next w;
  ww_next : 0 ≤ wr_next w;
  ww_open : ∀ i c, wr_map w !! i = Some c →
              ∃ ch, wr_heap w !! c = Some ch ∧ ch_closed ch = false;
  ww_inj : ∀ i j c, wr_map w !! i = Some c → wr_map w !! j = Some c → i = j
}.

Lemma wait_wf_empty : wait_wf empty_waitroom.
Proof. split; simpl; [intros c; rewrite lookup_empty; by intros [? [=]]|done..]. Qed.

Lemma wait_get_wf w index :
  wait_wf w →
  wait_wf (wait_get w index).1 ∧
  wr_map (wait_get w index).1 !! index = Some (wait_get w index).2.
Proof.
  intros Hwf. unfold wait_get. destruct (wr_map w !! index) as [c|] eqn:Hm; [done|].
  simpl. split; [|apply lookup_insert_eq].
  assert (∀ i c, wr_map w !! i = Some c → c < wr_next w) as Hlt.
  { intros i c (ch & Hch & _)%(ww_open _ Hwf). apply (ww_alloc _ Hwf c). eauto. }
  destruct Hwf as [Ha Hn Ho Hi]. split; simpl.
  - intros c [<-|[Hc ?]]%lookup_insert_is_Some; [lia|]. pose proof (Ha c ltac:(done)). lia.
  - lia.
  - intros i c [[-> ->]|[Hne Hc]]%lookup_insert_Some.
    + rewrite lookup_insert_eq. eauto.
    + pose proof (Hlt _ _ Hc). rewrite lookup_insert_ne by lia. eauto.
  - intros i j c [[-> <-]|[? Hc]]%lookup_insert_Some [[-> Hd]|[? Hd]]%lookup_insert_Some.
    + done.
    + apply Hlt in Hd. lia.
    + apply Hlt in Hc. lia.
    + by eapply Hi.
Qed.

Lemma chan_offer_filed w i c v :
  wait_wf w → wr_map w !! i = Some c → ∃ w', chan_offer w c v = Ret w' ∧ wait_wf w' ∧
    wr_map w' = wr_map w.
Proof.
  intros Hwf Hc. destruct (ww_open _ Hwf _ _ Hc) as (ch & Hch & Hopen).
  unfold chan_offer. rewrite Hch, Hopen. destruct (ch_buf ch); [eauto|].
  eexists. split; [done|]. split; [|done]. destruct Hwf as [Ha Hn Ho Hi].
  split; simpl; try done.
  - intros d [<-|[_ ?]]%lookup_insert_is_Some; eauto.
  - intros j d Hd. destruct (decide (c = d)) as [->|].
    + rewrite lookup_insert_eq. eauto.
    + rewrite lookup_insert_ne by done. eauto.
Qed.

(** Notifying never sends on a closed channel while the map is well formed. *)
Lemma wait_notify_wf w index v :
  wait_wf w → ∃ w', wait_notify w index v = Ret w' ∧ wait_wf w' ∧ wr_map w' = wr_map w.
Proof.
  intros Hwf. unfold wait_notify.
  destruct (wr_map w !! index) as [c|] eqn:Hc; [|by eauto].
  by eapply chan_offer_filed.
Qed.

(** A channel that was closed stays closed, so a second release panics. *)
Lemma wait_release_twice w index c w' i' :
  is_Some (wr_heap w !! c) → wait_release w index c = Ret w' →
  wait_release w' i' c = Panic PCloseClosed.
Proof.
  intros [ch Hch]. unfold wait_release at 1. rewrite Hch.
  destruct (ch_closed ch); [done|]. intros [= <-].
  unfold wait_release. simpl. by rewrite lookup_insert_eq.
Qed.

(** What an offer can leave in a channel. *)
Lemma wait_notify_buffer (w w' : waitroom) i x ch v b :
  wait_notify w i x = Ret w' → wr_heap w' !! ch = Some (mkChan (Some v) b) →
  (∃ b', wr_heap w !! ch = Some (mkChan (Some v) b')) ∨ v = x.
Proof.
  unfold wait_notify, chan_offer. destruct (wr_map w !! i) as [c|]; [|by intros [= <-]; eauto].
  destruct (wr_heap w !! c) as [[o cl]|] eqn:Hc; [|by intros [= <-]; eauto]. simpl.
  destruct cl; [done|]. destruct o; intros [= <-]; simpl; [by eauto|].
  intros [[<- [= <- <-]]|[_ ?]]%lookup_insert_Some; eauto.
Qed.


(** ** The channel of a request *)

(** The channel a request got for an index: as long as it is open it is the one
    filed there. *)
Definition filed (w : waitroom) (index c : Z) : Prop :=
  ∃ ch, wr_heap w !! c = Some ch ∧ (ch_closed ch = false → wr_map w !! index = Some c).

(** A step of the handlers and appliers of a server keeps the room in order, and
    what other requests hold. *)
Record room_step (w w' : waitroom) : Prop := {
  rs_wf : wait_wf w → wait_wf w';
  rs_filed : ∀ i c, wait_wf w → filed w i c → filed w' i c
}.

Lemma room_step_refl w : room_step w w.
Proof. by split. Qed.

Lemma room_step_get w i : room_step w (wait_get w i).1.
Proof.
  split; [intros Hw; by apply wait_get_wf|]. intros j c [Ha _ _ _] (ch & Hc & Hf). unfold wait_get.
  destruct (wr_map w !! i) as [d|] eqn:Hi; [by exists ch|]. exists ch. simpl.
  assert (c ≠ wr_next w) by (destruct (Ha c); [by exists ch|lia]). rewrite lookup_insert_ne by done.
  split; [done|]. intros Hcl. specialize (Hf Hcl). rewrite lookup_insert_ne; congruence.
Qed.

Lemma wait_get_filed w i : wait_wf w → filed (wait_get w i).1 i (wait_get w i).2.
Proof.
  intros Hw. destruct (wait_get_wf w i Hw) as [Hw' Hm]. destruct (ww_open _ Hw' _ _ Hm) as (ch & Hc & _). by exists ch.
Qed.

(** Changing what a channel holds. *)
Lemma room_step_buffer w c o cl :
  (ch_closed <$> wr_heap w !! c) = Some cl →
  room_step w (mkWaitroom (<[c := mkChan o cl]> (wr_heap w)) (wr_next w) (wr_map w)).
Proof.
  intros (ch & Hc & Hcl)%fmap_Some. split.
  - intros [Ha Hn Ho Hi]. split; simpl; try done.
    + intros d [<-|[_ ?]]%lookup_insert_is_Some; eauto.
    + intros i d Hd. destruct (Ho i d Hd) as (ch' & Hch' & Hopen). destruct (decide (c = d)) as [<-|Hne].
      * rewrite lookup_insert_eq. eexists. split; [done|]. simpl. congruence.
      * rewrite lookup_insert_ne by done. eauto.
  - intros i d _ (ch' & Hd & Hf). destruct (decide (c = d)) as [<-|Hne].
    + eexists. simpl. rewrite lookup_insert_eq. split; [done|]. simpl. rewrite Hc in Hd. injection Hd as <-. by rewrite Hcl.
    + exists ch'. simpl. by rewrite lookup_insert_ne.
Qed.

Lemma room_step_notify w i v w' : wait_notify w i v = Ret w' → room_step w w'.
Proof.
  unfold wait_notify, chan_offer. destruct (wr_map w !! i) as [c|]; [|intros [= <-]; apply room_step_refl].
  destruct (wr_heap w !! c) as [[o cl]|] eqn:Hc; [|intros [= <-]; apply room_step_refl]. simpl.
  destruct cl; [done|]. destruct o; intros [= <-]; [apply room_step_refl|]. apply room_step_buffer. by rewrite Hc.
Qed.

Lemma room_step_recv w c w' v : chan_recv w c = (w', v) → room_step w w'.
Proof.
  unfold chan_recv. destruct (wr_heap w !! c) as [[o cl]|] eqn:Hc; [|intros [= <- _]; apply room_step_refl]. simpl.
  destruct o; intros [= <- _]; [|apply room_step_refl]. apply room_step_buffer. by rewrite Hc.
Qed.

Lemma room_step_release w i c w' : filed w i c → wait_release w i c = Ret w' → room_step w w'.
Proof.
  intros (ch & Hc & Hf). unfold wait_release. rewrite Hc. destruct (ch_closed ch); [done|]. specialize (Hf eq_refl).
  intros [= <-]. split.
  - intros [Ha Hn Ho Hi]. split; simpl; try done.
    + intros d [<-|[_ ?]]%lookup_insert_is_Some; eauto.
    + intros j d [Hne Hd]%lookup_delete_Some. assert (c ≠ d) by (intros ->; eauto).
      rewrite lookup_insert_ne by done. eauto.
    + intros j k d [_ Hd]%lookup_delete_Some [_ Hd']%lookup_delete_Some. eauto.
  - intros j d _ (ch' & Hd & Hfd). destruct (decide (c = d)) as [<-|Hne].
    + eexists. simpl. rewrite lookup_insert_eq. split; [done|]. done.
    + exists ch'. simpl. rewrite lookup_insert_ne by done. split; [done|]. intros Hcl. specialize (Hfd Hcl).
      rewrite lookup_delete_ne; [done|]. intros ->. congruence.
Qed.

(** Releasing the channel filed under its own index keeps the map well formed. *)
Lemma wait_release_wf w index c :
  wait_wf w → wr_map w !! index = Some c →
  ∃ w', wait_release w index c = Ret w' ∧ wait_wf w' ∧ wr_map w' !! index = None.
Proof.
  intros Hwf Hc. destruct (ww_open _ Hwf _ _ Hc) as (ch & Hch & Hopen).
  destruct (wait_release w index c) as [w'| |] eqn:Hr; unfold wait_release in Hr; rewrite Hch, Hopen in Hr; try done.
  exists w'. injection Hr as <-. split_and!; [done| |apply lookup_delete_eq].
  apply (room_step_release w index c); [by exists ch|by unfold wait_release; rewrite Hch, Hopen|done].
Qed.
End chan.
Arguments chan : clear implicits.
Arguments waitroom : clear implicits.
Arguments received : clear implicits.
