(* ===== verification/RaftApi.v ===== *)
(** * What Raft offers the services above it

    [ApplyMsg] is the message of raft/raft.go that carries a committed command
    or a snapshot to the service.  [RaftService] is the interface the three
    servers program against: the calls they make on [rf], with what they rely
    on.  [RaftInstance.v] shows that the model of raft/raft.go provides it. *)

From S2P Require Import Prelude Persister.

Section ApplyMsg.
Context {C : Type}.

(** [Command] is an [interface{}]: [None] is nil. *)
Record ApplyMsg := mkApplyMsg {
  CommandValid : bool;
  Command : option C;
  CommandIndex : Z;
  SnapshotValid : bool;
  Snapshot : bytes;
  SnapshotTerm : Z;
  SnapshotIndex : Z
}.

(** The message that delivers one committed command. *)
Definition command_msg (c : option C) (i : Z) : ApplyMsg :=
  mkApplyMsg true c i false [] 0 0.

(** The message that delivers a snapshot. *)
Definition snapshot_msg (data : bytes) (t i : Z) : ApplyMsg :=
  mkApplyMsg false None 0 true data t i.
End ApplyMsg.
Arguments ApplyMsg : clear implicits.

Class RaftService (R C : Type) := {
  (** the states a running peer can be in *)
  rs_wf : R → Prop;
  (** the command a peer has logged at an index *)
  rs_command : R → Z → option C;
  rs_GetState : R → Z * bool;
  rs_Start : R → C → Go (R * (Z * Z * bool));
  rs_CondInstallSnapshot : R → Z → Z → bytes → Go (R * bool);
  rs_Snapshot : R → Z → bytes → Go R;
  rs_GetStateSize : R → Z;
  rs_GetSnapshot : R → bytes;
  (** [Start] returns; it claims leadership only of a peer that [GetState]
      reports as leader, and has then logged the command at the index it
      returns; otherwise it changes nothing. *)
  rs_Start_spec r c : rs_wf r → ∃ r' i t lead,
    rs_Start r c = Ret (r', (i, t, lead)) ∧ rs_wf r' ∧
    if lead : bool
    then rs_GetState r = (t, true) ∧ rs_command r' i = Some c
    else r' = r ∧ i = -1 ∧ t = -1;
  (** A peer that is not leader starts nothing. *)
  rs_Start_follower r c : rs_wf r → (rs_GetState r).2 = false →
    rs_Start r c = Ret (r, (-1, -1, false))
}.
