(* ===== verification/ShardConfig.v ===== *)
(** * Shard configurations (shardctrler/common.go) and their rebalancing
    (the pure functions of shardctrler/server.go)

    [Config] is the numbered assignment of the ten shards to replica groups.
    [getGIDtoShardsMap] and [rebalance] compute the assignment that follows a
    Join or a Leave; [rebalance] is modelled with its loop, its appends at the
    end of the per-group slices and its removal of the last element, so that
    which shard moves is the code's choice.  The loop runs on fuel
    ([rebalance_fuel]); [Rebalance.v] proves the fuel sufficient. *)

From S2P Require Import Prelude.

Definition NShards : Z := 10.

Record Config := mkConfig {
  Num : Z;                          (* config number *)
  Shards : list Z;                  (* [NShards]int, shard -> gid *)
  Groups : gmap Z (list string)     (* gid -> servers[] *)
}.

#[export] Instance Config_eq_dec : EqDecision Config.
Proof. solve_decision. Defined.

(** The zero value of [[NShards]int]. *)
Definition zeroShards : list Z := replicate (Z.to_nat NShards) 0.

(** [Config{}], the zero value. *)
Definition emptyConfig : Config := mkConfig 0 zeroShards ∅.

(** [GetGroupMapCopy] allocates a copy of each server slice and then stores the
    original slice in the new map; the mapping it returns is the same. *)
Definition GetGroupMapCopy (originalMap : gmap Z (list string)) : gmap Z (list string) :=
  map_fold (λ key value copyMap, <[key := value]> copyMap) ∅ originalMap.

Definition GetShardsCopy (originalShards : list Z) : Go (list Z) :=
  foldl (λ acc '(idx, item), acc ≫= λ shardsCopy, set_index shardsCopy idx item)
        (Ret zeroShards) (enumerate originalShards).

Definition getGIDtoShardsMap (shards : list Z) (newMap : gmap Z (list string))
  : gmap Z (list Z) :=
  foldl (λ gitToShards '(shardIndex, gid),
           match newMap !! gid with
           | Some _ => <[gid := map_get [] gitToShards gid ++ [shardIndex]]> gitToShards
           | None => gitToShards
           end)
        ((λ _, []) <$> newMap) (enumerate shards).

(** The shards that belong to no live group. *)
Definition freeShards (gitToShards : gmap Z (list Z)) (oldShards : list Z) : list Z :=
  foldl (λ free '(shardIndex, gid),
           if gid =? 0 then free ++ [shardIndex]
           else match gitToShards !! gid with
                | None => free ++ [shardIndex]
                | Some _ => free
                end)
        [] (enumerate oldShards).

(** The scan for the fullest and the emptiest group, in [liveGroup] order. *)
Record extremes := mkExtremes {
  maxShards : Z; maxGID : Z; minShards : Z; minGID : Z
}.

Definition scan_step (gitToShards : gmap Z (list Z)) (e : extremes) (gid : Z) : extremes :=
  let n := zlen (map_get [] gitToShards gid) in
  let e1 := if maxShards e <? n
            then mkExtremes n gid (minShards e) (minGID e) else e in
  if n <? minShards e1
  then mkExtremes (maxShards e1) (maxGID e1) n gid else e1.

Definition scan (gitToShards : gmap Z (list Z)) (liveGroup : list Z) : extremes :=
  foldl (scan_step gitToShards) (mkExtremes (-1) (-1) (NShards + 1) (-1)) liveGroup.

(** The [for] loop; [free] is [freeShards[freeShardsIndex:]]. *)
Fixpoint rebalance_loop (fuel : nat) (liveGroup : list Z) (gitToShards : gmap Z (list Z))
    (free : list Z) (moveShards : gmap Z bool) : Go (gmap Z (list Z) * gmap Z bool) :=
  match fuel with
  | O => NoFuel
  | S fuel' =>
      let e := scan gitToShards liveGroup in
      if (maxShards e - minShards e <=? 1) && (zlen free <=? 0)
      then Ret (gitToShards, moveShards)
      else match free with
           | moveShardIndex :: free' =>
               rebalance_loop fuel' liveGroup
                 (<[minGID e := map_get [] gitToShards (minGID e) ++ [moveShardIndex]]> gitToShards)
                 free' (<[moveShardIndex := true]> moveShards)
           | [] =>
               let from := map_get [] gitToShards (maxGID e) in
               moveShardIndex ← index from (zlen from - 1);
               rest ← slice_to from (zlen from - 1);
               let g1 := <[maxGID e := rest]> gitToShards in
               let g2 := <[minGID e := map_get [] g1 (minGID e) ++ [moveShardIndex]]> g1 in
               rebalance_loop fuel' liveGroup g2 [] (<[moveShardIndex := true]> moveShards)
           end
  end.

(** Copies the per-group slices back into the shard array. *)
Definition assign_group (gitToShards : gmap Z (list Z)) (acc : Go (list Z)) (gid : Z)
  : Go (list Z) :=
  foldl (λ acc shardsIndex, acc ≫= λ newShards, set_index newShards shardsIndex gid)
        acc (map_get [] gitToShards gid).

Definition assign_all (gitToShards : gmap Z (list Z)) (liveGroup : list Z) : Go (list Z) :=
  foldl (assign_group gitToShards) (Ret zeroShards) liveGroup.

(** Every pass of the loop either consumes a free shard or moves one between
    groups whose sizes differ by two or more; the bound is proved enough. *)
Definition total_shards (gitToShards : gmap Z (list Z)) (liveGroup free : list Z) : nat :=
  (length free + sum_list_with (λ gid, length (map_get [] gitToShards gid)) liveGroup)%nat.

Definition rebalance_fuel (gitToShards : gmap Z (list Z)) (liveGroup free : list Z) : nat :=
  let t := total_shards gitToShards liveGroup free in (length free + t * t + 1)%nat.

Definition rebalance `{KeyOrder} (gitToShards : gmap Z (list Z)) (oldShards : list Z)
    (newMap : gmap Z (list string)) : Go (list Z * gmap Z bool) :=
  let liveGroup := merge_sort (≤) (key_order gitToShards) in
  let free := freeShards gitToShards oldShards in
  '(gitToShards', moveShards) ←
    rebalance_loop (rebalance_fuel gitToShards liveGroup free) liveGroup gitToShards free ∅;
  newShards ← assign_all gitToShards' liveGroup;
  mret (newShards, moveShards).
