(* ===== verification/Rebalance.v ===== *)
(** * Correctness of [rebalance] (shardctrler/server.go)

    The loop of [rebalance] terminates within its fuel, never indexes out of
    range, and leaves every live group with a number of shards that differs by
    at most one from any other's; no shard is lost or duplicated; a group that
    loses shards gains none; and the outcome does not depend on the order in
    which Go enumerates the map of groups. *)

From S2P Require Import Prelude ShardConfig.

(** All shard numbers, and the shards held by the groups of [live]. *)
Definition allShards : list Z := Z.of_nat <$> seq 0 (Z.to_nat NShards).

Notation held g gid := (map_get (@nil Z) g gid).

Definition shards_of (g : gmap Z (list Z)) (live : list Z) : list Z :=
  live ≫= λ gid, held g gid.

(** Groups differ by at most one shard. *)
Definition balanced_map (g : gmap Z (list Z)) (live : list Z) : Prop :=
  ∀ a b, a ∈ live → b ∈ live → zlen (held g a) ≤ zlen (held g b) + 1.

Section shards_of.
Implicit Types (g : gmap Z (list Z)) (live : list Z).

Lemma shards_of_cons g a l : shards_of g (a :: l) = held g a ++ shards_of g l.
Proof. done. Qed.

Lemma shards_of_app g l1 l2 : shards_of g (l1 ++ l2) = shards_of g l1 ++ shards_of g l2.
Proof. unfold shards_of. by rewrite bind_app. Qed.

Lemma shards_of_ext g live (f : Z → list Z) :
  (∀ gid, gid ∈ live → held g gid = f gid) → shards_of g live = live ≫= f.
Proof.
  induction live as [|a live IH]; intros Hf; [done|]. rewrite shards_of_cons.
  simpl. rewrite (Hf a) by left. f_equal. apply IH. intros gid Hin. apply Hf. by right.
Qed.

Lemma shards_of_insert_notin g live a l :
  a ∉ live → shards_of (<[a := l]> g) live = shards_of g live.
Proof.
  induction live as [|b live IH]; [done|]. intros [Hne Hn]%not_elem_of_cons.
  rewrite !shards_of_cons, map_get_insert_ne by congruence. by rewrite IH.
Qed.

Lemma shards_of_insert g live a l :
  NoDup live → a ∈ live →
  shards_of (<[a := l]> g) live ++ held g a ≡ₚ l ++ shards_of g live.
Proof.
  intros Hnd (l1 & l2 & ->)%list_elem_of_split.
  apply NoDup_app in Hnd as (_ & Hd & [Hn2 _]%NoDup_cons).
  assert (a ∉ l1) as Hn1 by (intros H; apply (Hd a H); left).
  rewrite !shards_of_app, (shards_of_insert_notin _ l1) by done.
  rewrite !shards_of_cons, (shards_of_insert_notin _ l2), map_get_insert_eq by done.
  solve_Permutation.
Qed.

(** The same accounting for any per-group quantity. *)
Lemma sum_insert (f : list Z → nat) g live a l :
  NoDup live → a ∈ live →
  (sum_list_with (λ gid, f (held (<[a := l]> g) gid)) live + f (held g a) =
   f l + sum_list_with (λ gid, f (held g gid)) live)%nat.
Proof.
  induction live as [|b live IH]; [by intros _ ?%not_elem_of_nil|].
  intros [Hn Hnd]%NoDup_cons Hin. simpl. apply elem_of_cons in Hin as [<-|Hin].
  - rewrite map_get_insert_eq.
    assert (sum_list_with (λ gid, f (held (<[a := l]> g) gid)) live =
            sum_list_with (λ gid, f (held g gid)) live) as ->; [|lia].
    clear -Hn. induction live as [|c live IH]; [done|].
    apply not_elem_of_cons in Hn as [??]. simpl.
    rewrite map_get_insert_ne by done. by rewrite IH.
  - rewrite map_get_insert_ne by (intros ->; done). specialize (IH Hnd Hin). lia.
Qed.

Lemma elem_of_shards_of g live x :
  x ∈ shards_of g live ↔ ∃ gid, x ∈ held g gid ∧ gid ∈ live.
Proof. unfold shards_of. by rewrite list_elem_of_bind. Qed.

Lemma length_shards_of g live :
  length (shards_of g live) = sum_list_with (λ gid, length (held g gid)) live.
Proof.
  induction live as [|a live IH]; [done|].
  rewrite shards_of_cons, length_app, IH. done.
Qed.

Lemma held_length_le g live gid :
  gid ∈ live → (length (held g gid) ≤ length (shards_of g live))%nat.
Proof.
  rewrite length_shards_of. induction live as [|a live IH]; [by intros ?%not_elem_of_nil|].
  intros [->|Hin]%elem_of_cons; simpl; [lia|]. specialize (IH Hin). lia.
Qed.

Lemma sum_squares_le g live :
  (sum_list_with (λ gid, length (held g gid) * length (held g gid)) live ≤
   length (shards_of g live) * length (shards_of g live))%nat.
Proof.
  rewrite length_shards_of. induction live as [|a live IH]; simpl; nia.
Qed.
End shards_of.

(** ** The scan for the fullest and the emptiest group *)
Record scan_ok (g : gmap Z (list Z)) (live : list Z) (e : extremes) : Prop := {
  so_max_in : maxGID e ∈ live;
  so_max_eq : maxShards e = zlen (held g (maxGID e));
  so_max : ∀ gid, gid ∈ live → zlen (held g gid) ≤ maxShards e;
  so_min_in : minGID e ∈ live;
  so_min_eq : minShards e = zlen (held g (minGID e));
  so_min : ∀ gid, gid ∈ live → minShards e ≤ zlen (held g gid)
}.

Lemma scan_snoc g live a : scan g (live ++ [a]) = scan_step g (scan g live) a.
Proof. unfold scan. by rewrite foldl_app. Qed.

Lemma scan_correct g live :
  live ≠ [] → (∀ gid, gid ∈ live → zlen (held g gid) ≤ NShards) →
  scan_ok g live (scan g live).
Proof.
  induction live as [|a live IH] using rev_ind; [done|]. intros _ Hlen.
  assert (a ∈ live ++ [a]) as Hain by (apply elem_of_app; right; left).
  pose proof (Hlen a Hain) as Ha. pose proof (zlen_nonneg (held g a)).
  rewrite scan_snoc. destruct (decide (live = [])) as [->|Hne].
  - unfold scan_step, scan, NShards in *. simpl.
    repeat (case_test; simpl in *; try lia).
    split; simpl; try done; intros gid ->%list_elem_of_singleton; lia.
  - destruct (IH Hne) as [M1 M2 M3 m1 m2 m3].
    { intros gid Hin. apply Hlen, elem_of_app. by left. }
    pose proof (m3 _ M1). pose proof (M3 _ M1). pose proof (M3 _ m1). pose proof (m3 _ m1).
    unfold scan_step. repeat (case_test; simpl in *);
      (split; simpl; try lia; try (apply elem_of_app; by left); try done;
       intros gid [Hin| ->%list_elem_of_singleton]%elem_of_app; try lia;
       specialize (M3 _ Hin); specialize (m3 _ Hin); lia).
Qed.

(** ** The loop *)

(** Removing the last element of a non-empty slice. *)
Lemma last_split (l : list Z) :
  0 < zlen l → ∃ rest x, l = rest ++ [x] ∧
    index l (zlen l - 1) = Ret x ∧ slice_to l (zlen l - 1) = Ret rest.
Proof.
  destruct l as [|x rest _] using rev_ind; [done|]. intros _. exists rest, x.
  split; [done|]. rewrite zlen_app, zlen_cons, zlen_nil.
  replace (zlen rest + (1 + 0) - 1) with (zlen rest) by lia. split.
  - apply index_Ret. split; [apply zlen_nonneg|]. unfold zlen. rewrite Nat2Z.id.
    by rewrite lookup_app_r, Nat.sub_diag by lia.
  - rewrite slice_to_Ret by zlen_lia. unfold zlen. by rewrite Nat2Z.id, take_app_length.
Qed.

(** How a group fares: it holds what it held at the start, or it has only
    received (and is then among the smallest), or it has only given (and is
    then among the largest). *)
Definition untouched (g0 g : gmap Z (list Z)) (gid : Z) : Prop := held g gid = held g0 gid.

Definition receiver (g0 g : gmap Z (list Z)) (live : list Z) (gid : Z) : Prop :=
  held g0 gid `prefix_of` held g gid ∧
  ∀ h, h ∈ live → zlen (held g gid) ≤ zlen (held g h) + 1.

Definition donor (g0 g : gmap Z (list Z)) (live : list Z) (gid : Z) : Prop :=
  held g gid `prefix_of` held g0 gid ∧
  ∀ h, h ∈ live → zlen (held g h) ≤ zlen (held g gid) + 1.

(** The invariant of the loop: the shards of the groups and the free ones are
    all the shards; a shard that was not moved is with its old group; groups
    only gave or only received. *)
Record loop_inv (old : list Z) (g0 : gmap Z (list Z)) (live : list Z)
    (g : gmap Z (list Z)) (free : list Z) (moved : gmap Z bool) : Prop := {
  li_nodup : NoDup live;
  li_live : live ≠ [];
  li_perm : shards_of g live ++ free ≡ₚ allShards;
  li_kept : ∀ gid x, gid ∈ live → x ∈ held g gid → moved !! x = None →
              old !! Z.to_nat x = Some gid;
  li_roles : ∀ gid, gid ∈ live →
    untouched g0 g gid ∨ receiver g0 g live gid ∨ (free = [] ∧ donor g0 g live gid)
}.

Lemma loop_inv_small old g0 live g free moved gid :
  loop_inv old g0 live g free moved → gid ∈ live → zlen (held g gid) ≤ NShards.
Proof.
  intros [? ? Hp _ _] Hin. apply Permutation_length in Hp.
  rewrite length_app in Hp. pose proof (held_length_le g live gid Hin).
  unfold zlen, NShards. change (length allShards) with 10%nat in Hp. lia.
Qed.

Lemma loop_inv_scan old g0 live g free moved :
  loop_inv old g0 live g free moved → scan_ok g live (scan g live).
Proof.
  intros Hi. apply scan_correct; [by destruct Hi|]. eauto using loop_inv_small.
Qed.

Section steps.
Context (old : list Z) (g0 : gmap Z (list Z)) (live : list Z).
Implicit Types (g : gmap Z (list Z)) (moved : gmap Z bool).

Lemma shards_of_receive g b x :
  NoDup live → b ∈ live →
  shards_of (<[b := held g b ++ [x]]> g) live ≡ₚ x :: shards_of g live.
Proof.
  intros Hnd Hb. apply (Permutation_app_inv_r (held g b)).
  rewrite shards_of_insert by done. solve_Permutation.
Qed.

Lemma shards_of_give g a rest x :
  NoDup live → a ∈ live → held g a = rest ++ [x] →
  x :: shards_of (<[a := rest]> g) live ≡ₚ shards_of g live.
Proof.
  intros Hnd Ha Hh. pose proof (shards_of_insert g live a rest Hnd Ha) as Hp.
  rewrite Hh in Hp. apply (Permutation_app_inv_l rest). rewrite <- Hp.
  solve_Permutation.
Qed.

(** A free shard goes to the emptiest group. *)
Lemma loop_inv_free g x free moved :
  loop_inv old g0 live g (x :: free) moved →
  loop_inv old g0 live
    (<[minGID (scan g live) := held g (minGID (scan g live)) ++ [x]]> g)
    free (<[x := true]> moved).
Proof.
  intros Hi. destruct (loop_inv_scan _ _ _ _ _ _ Hi) as [_ _ _ Hb Hbm Hmin].
  set (b := minGID (scan g live)) in *.
  destruct Hi as [Hnd Hne Hp Hk Hr]. split; [done..| | |].
  - rewrite shards_of_receive by done. rewrite <- Hp. solve_Permutation.
  - intros gid y Hg Hy Hm. apply lookup_insert_None in Hm as [Hm Hxy].
    apply Hk; [done| |done]. destruct (decide (b = gid)) as [->|].
    + rewrite map_get_insert_eq in Hy. set_solver.
    + by rewrite map_get_insert_ne in Hy.
  - intros gid Hg. destruct (decide (b = gid)) as [<-|Hne'].
    + right; left. unfold receiver. rewrite map_get_insert_eq, zlen_app, zlen_cons, zlen_nil.
      split.
      * destruct (Hr b Hg) as [Hu|[[Hu _]|[? _]]]; [|by apply prefix_app_r|done].
        rewrite Hu. by apply prefix_app_r.
      * intros h Hh. pose proof (Hmin h Hh). destruct (decide (b = h)) as [<-|].
        { rewrite map_get_insert_eq. zlen_lia. }
        rewrite map_get_insert_ne by done. lia.
    + unfold untouched, receiver. rewrite !map_get_insert_ne by done.
      destruct (Hr gid Hg) as [?|[[? Hu]|[? _]]]; [by left| |done].
      right; left; split; [done|]. intros h Hh. pose proof (Hu h Hh).
      destruct (decide (b = h)) as [<-|].
      { rewrite map_get_insert_eq. zlen_lia. }
      by rewrite map_get_insert_ne by done.
Qed.

(** A shard moves from the fullest to the emptiest group. *)
Section move.
Context (g : gmap Z (list Z)) (moved : gmap Z bool) (a b : Z) (rest : list Z) (x : Z).
Hypothesis Hi : loop_inv old g0 live g [] moved.
Hypothesis Ha : a ∈ live.
Hypothesis Hb : b ∈ live.
Hypothesis Hamax : ∀ h, h ∈ live → zlen (held g h) ≤ zlen (held g a).
Hypothesis Hbmin : ∀ h, h ∈ live → zlen (held g b) ≤ zlen (held g h).
Hypothesis Hgap : 2 ≤ zlen (held g a) - zlen (held g b).
Hypothesis Hlast : held g a = rest ++ [x].

Let g1 := <[a := rest]> g.
Let g2 := <[b := held g1 b ++ [x]]> g1.

Lemma move_ne : a ≠ b.
Proof. intros <-. lia. Qed.

Lemma move_held h :
  held g2 h = if decide (h = b) then held g b ++ [x]
              else if decide (h = a) then rest else held g h.
Proof.
  pose proof move_ne. unfold g2, g1. destruct (decide (h = b)) as [->|].
  - by rewrite map_get_insert_eq, map_get_insert_ne.
  - rewrite map_get_insert_ne by done. destruct (decide (h = a)) as [->|].
    + by rewrite map_get_insert_eq.
    + by rewrite map_get_insert_ne.
Qed.

Lemma move_zlen h :
  zlen (held g2 h) = zlen (held g h) + (if decide (h = b) then 1 else 0)
                                     - (if decide (h = a) then 1 else 0).
Proof.
  pose proof move_ne. rewrite move_held.
  destruct (decide (h = b)), (decide (h = a)); subst; try done; zlen_lia ||
    (rewrite Hlast; zlen_lia).
Qed.

Lemma move_perm : shards_of g2 live ≡ₚ shards_of g live.
Proof.
  destruct Hi as [Hnd _ _ _ _]. unfold g2.
  rewrite shards_of_receive by done. by apply shards_of_give.
Qed.

Lemma move_inv : loop_inv old g0 live g2 [] (<[x := true]> moved).
Proof.
  pose proof move_ne as Hab. destruct Hi as [Hnd Hne Hp Hk Hr]. split; [done..| | |].
  - by rewrite move_perm.
  - intros gid y Hg Hy Hm. apply lookup_insert_None in Hm as [Hm Hxy].
    apply Hk; [done| |done]. rewrite move_held in Hy. repeat case_decide; subst.
    + set_solver.
    + rewrite Hlast. set_solver.
    + done.
  - intros gid Hg. pose proof (Hamax gid Hg). pose proof (Hbmin gid Hg).
    unfold untouched, receiver, donor.
    destruct (decide (gid = b)) as [->|Hgb]; [right; left|
      destruct (decide (gid = a)) as [->|Hga]; [right; right; split; [done|]|]].
    + split.
      * rewrite move_held, decide_True by done.
        destruct (Hr b Hb) as [Hu|[[Hu _]|[_ [_ Hd]]]].
        { rewrite Hu. by apply prefix_app_r. }
        { by apply prefix_app_r. }
        { specialize (Hd a Ha). lia. }
      * intros h Hh. rewrite !move_zlen. pose proof (Hbmin h Hh).
        repeat case_decide; subst; lia.
    + split.
      * rewrite move_held, decide_False, decide_True by done.
        assert (rest `prefix_of` held g a) by (rewrite Hlast; by apply prefix_app_r).
        destruct (Hr a Ha) as [Hu|[[_ Hd]|[_ [Hu _]]]].
        { by rewrite <- Hu. }
        { specialize (Hd b Hb). lia. }
        { by etrans. }
      * intros h Hh. rewrite !move_zlen. pose proof (Hamax h Hh).
        repeat case_decide; subst; lia.
    + assert (held g2 gid = held g gid) as Hg2
        by (rewrite move_held; by rewrite !decide_False).
      destruct (Hr gid Hg) as [Hu|[[Hu Hd]|[_ [Hu Hd]]]];
        [left; by rewrite Hg2|right; left|right; right; split; [done|]];
        (split; [by rewrite Hg2|]); intros h Hh; specialize (Hd h Hh);
        rewrite !move_zlen; repeat case_decide; subst; try done;
        pose proof (Hamax gid Hg); pose proof (Hbmin gid Hg); lia.
Qed.

Lemma move_decreases :
  (sum_list_with (λ gid, length (held g2 gid) * length (held g2 gid)) live <
   sum_list_with (λ gid, length (held g gid) * length (held g gid)) live)%nat.
Proof.
  pose proof move_ne as Hab. destruct Hi as [Hnd _ _ _ _].
  pose proof (sum_insert (λ l, length l * length l)%nat g1 live b (held g1 b ++ [x]) Hnd Hb) as H2.
  pose proof (sum_insert (λ l, length l * length l)%nat g live a rest Hnd Ha) as H1.
  fold g1 in H1. fold g2 in H2. cbn beta in H1, H2.
  assert (held g1 b = held g b) as Hgb by (unfold g1; by rewrite map_get_insert_ne).
  rewrite Hgb, length_app in H2. rewrite Hlast, length_app in H1.
  pose proof Hgap as Hgap'. rewrite Hlast in Hgap'. unfold zlen in Hgap'.
  rewrite length_app in Hgap'. simpl in *. nia.
Qed.
End move.
End steps.

(** ** The loop returns, balanced, within its fuel *)
Section loop.
Context (old : list Z) (g0 : gmap Z (list Z)) (live : list Z).

Definition sum_squares (g : gmap Z (list Z)) : nat :=
  sum_list_with (λ gid, length (held g gid) * length (held g gid))%nat live.

Definition loop_result (r : Go (gmap Z (list Z) * gmap Z bool)) : Prop :=
  ∃ g' moved', r = Ret (g', moved') ∧ loop_inv old g0 live g' [] moved' ∧
               balanced_map g' live.

Lemma loop_moves fuel g moved :
  loop_inv old g0 live g [] moved → (sum_squares g < fuel)%nat →
  loop_result (rebalance_loop fuel live g [] moved).
Proof.
  revert g moved. induction fuel as [|fuel IH]; [lia|]. intros g moved Hi Hf.
  pose proof (loop_inv_scan _ _ _ _ _ _ Hi) as [Ha HaM Hamax Hb Hbm Hbmin].
  simpl. change (zlen (@nil Z) <=? 0) with true. rewrite andb_true_r.
  destruct (Z.leb_spec (maxShards (scan g live) - minShards (scan g live)) 1) as [Hle|Hgt].
  - exists g, moved. split_and!; [done..|]. intros a b Ha' Hb'.
    specialize (Hamax a Ha'). specialize (Hbmin b Hb'). lia.
  - destruct (last_split (held g (maxGID (scan g live)))) as (rest & x & Hl & -> & ->).
    { pose proof (zlen_nonneg (held g (minGID (scan g live)))). lia. }
    rewrite !bind_Ret. apply IH.
    + eapply move_inv; eauto; intros; rewrite <- ?HaM, <- ?Hbm; auto; lia.
    + eapply Nat.lt_le_trans; [|apply Nat.lt_succ_r, Hf].
      eapply move_decreases; eauto; intros; rewrite <- ?HaM, <- ?Hbm; auto; lia.
Qed.

Lemma loop_inv_total g free moved :
  loop_inv old g0 live g free moved → total_shards g live free = 10%nat.
Proof.
  intros [_ _ Hp _ _]. apply Permutation_length in Hp.
  rewrite length_app, length_shards_of in Hp. unfold total_shards.
  change (length allShards) with 10%nat in Hp. lia.
Qed.

Lemma loop_free fuel g free moved :
  loop_inv old g0 live g free moved → (length free + 100 < fuel)%nat →
  loop_result (rebalance_loop fuel live g free moved).
Proof.
  revert fuel g moved. induction free as [|x free IH]; intros fuel g moved Hi Hf.
  - apply loop_moves; [done|]. pose proof (sum_squares_le g live) as Hs.
    pose proof (loop_inv_total _ _ _ Hi) as Ht. unfold total_shards in Ht.
    rewrite length_shards_of in Hs. simpl in *. rewrite Ht in Hs.
    unfold sum_squares. lia.
  - destruct fuel as [|fuel]; [simpl in Hf; lia|]. cbn [rebalance_loop].
    rewrite (proj2 (Z.leb_gt (zlen (x :: free)) 0)) by zlen_lia.
    rewrite andb_false_r. apply IH; [by apply loop_inv_free|simpl in Hf; lia].
Qed.

Lemma loop_enough g free moved :
  loop_inv old g0 live g free moved →
  loop_result (rebalance_loop (rebalance_fuel g live free) live g free moved).
Proof.
  intros Hi. apply loop_free; [done|]. unfold rebalance_fuel.
  rewrite (loop_inv_total _ _ _ Hi). lia.
Qed.
End loop.

(** With no live group the free shards are parked under the key -1. *)
Lemma loop_no_groups fuel g free moved :
  (length free < fuel)%nat →
  ∃ g' moved', rebalance_loop fuel [] g free moved = Ret (g', moved').
Proof.
  revert fuel g moved. induction free as [|x free IH]; intros fuel g moved Hf;
    (destruct fuel as [|fuel]; [simpl in Hf; lia|]); cbn [rebalance_loop].
  - eauto.
  - rewrite (proj2 (Z.leb_gt (zlen (x :: free)) 0)) by zlen_lia.
    rewrite andb_false_r. apply IH. simpl in Hf. lia.
Qed.

(** ** The initial map and the free shards *)
Section initial.
Implicit Types (l : list (Z * Z)) (newMap : gmap Z (list string)).

Lemma elem_of_enumerate {A} (l : list A) i x :
  (i, x) ∈ enumerate l ↔ 0 ≤ i ∧ l !! Z.to_nat i = Some x.
Proof.
  unfold enumerate. rewrite elem_of_lookup_imap. split.
  - intros (j & y & [= -> ->] & Hj). rewrite Nat2Z.id. split; [lia|done].
  - intros [Hi Hx]. exists (Z.to_nat i), x. split; [|done]. f_equal. lia.
Qed.

Lemma enumerate_keys {A} (l : list A) :
  (enumerate l).*1 = Z.of_nat <$> seq 0 (length l).
Proof.
  unfold enumerate. apply list_eq. intros i.
  rewrite !list_lookup_fmap, list_lookup_imap. destruct (l !! i) eqn:E; simpl.
  - rewrite lookup_seq_lt by (by eapply lookup_lt_Some). done.
  - rewrite lookup_seq_ge by (by apply lookup_ge_None). done.
Qed.

Definition of_gid (gid : Z) l : list Z := (filter (λ p, p.2 = gid) l).*1.

Lemma getGIDtoShardsMap_lookup shards newMap gid :
  getGIDtoShardsMap shards newMap !! gid =
    (λ _, of_gid gid (enumerate shards)) <$> newMap !! gid.
Proof.
  unfold getGIDtoShardsMap. generalize (enumerate shards) as l. intros l.
  revert gid. induction l as [|[i g] l IH] using rev_ind; intros gid.
  - simpl. by rewrite lookup_fmap.
  - rewrite foldl_app. simpl. unfold of_gid in *. rewrite filter_app, fmap_app.
    rewrite filter_cons. simpl. destruct (newMap !! g) eqn:Hg.
    + destruct (decide (g = gid)) as [->|Hne].
      * rewrite lookup_insert_eq. unfold map_get. rewrite IH, Hg. done.
      * rewrite lookup_insert_ne, IH by done. by rewrite app_nil_r.
    + rewrite IH. destruct (decide (g = gid)) as [->|Hne]; [by rewrite Hg|].
      by rewrite app_nil_r.
Qed.

Lemma freeShards_eq (g : gmap Z (list Z)) old :
  freeShards g old = (filter (λ p : Z * Z, p.2 = 0 ∨ g !! p.2 = None) (enumerate old)).*1.
Proof.
  unfold freeShards. generalize (enumerate old) as l. intros l.
  induction l as [|[i x] l IH] using rev_ind; [done|].
  rewrite foldl_app, filter_app, fmap_app, IH. simpl. rewrite filter_cons. simpl.
  case_decide as Hd.
  - destruct (Z.eqb_spec x 0); [done|]. destruct Hd as [?|Hd]; [done|]. by rewrite Hd.
  - destruct (Z.eqb_spec x 0) as [->|]; [tauto|].
    destruct (g !! x); [|tauto]. by rewrite app_nil_r.
Qed.

Lemma split_by_gid live l :
  NoDup live →
  (live ≫= λ gid, of_gid gid l) ++ (filter (λ p, p.2 ∉ live) l).*1 ≡ₚ l.*1.
Proof.
  induction live as [|a live IH].
  - intros _. simpl. induction l as [|p l IH]; [done|].
    rewrite filter_cons_True by apply not_elem_of_nil. simpl. by rewrite IH.
  - intros [Hn Hnd]%NoDup_cons. simpl. rewrite <- (IH Hnd), <- (assoc_L (++)).
    rewrite Permutation_app_swap_app. apply Permutation_app_head. clear IH Hnd.
    unfold of_gid. rewrite <- fmap_app. apply fmap_Permutation.
    induction l as [|[i x] l IH]; [done|]. rewrite !filter_cons. simpl.
    destruct (decide (x = a)) as [->|Hne].
    + rewrite decide_False by (intros H; apply H; left). rewrite decide_True by done.
      rewrite <- IH. done.
    + destruct (decide (x ∈ live)) as [Hin|Hnin].
      * rewrite !decide_False by set_solver. done.
      * rewrite !decide_True by set_solver. rewrite <- IH. solve_Permutation.
Qed.
End initial.

(** Before the first pass the invariant holds. *)
Section start.
Context `{KO : KeyOrder} (old : list Z) (newMap : gmap Z (list string)).
Hypothesis Hlen : length old = Z.to_nat NShards.
Hypothesis Hzero : newMap !! 0 = None.

Let g0 := getGIDtoShardsMap old newMap.
Definition live_groups : list Z := merge_sort (≤) (key_order g0).

Lemma elem_of_live gid : gid ∈ live_groups ↔ is_Some (newMap !! gid).
Proof.
  unfold live_groups. rewrite merge_sort_Permutation, elem_of_key_order.
  unfold g0. rewrite getGIDtoShardsMap_lookup. by rewrite fmap_is_Some.
Qed.

Lemma held_initial gid :
  gid ∈ live_groups → held g0 gid = of_gid gid (enumerate old).
Proof.
  intros [v Hv]%elem_of_live. unfold map_get, g0.
  by rewrite getGIDtoShardsMap_lookup, Hv.
Qed.

Lemma elem_of_held_initial gid x :
  gid ∈ live_groups → x ∈ held g0 gid ↔ 0 ≤ x ∧ old !! Z.to_nat x = Some gid.
Proof.
  intros Hg. rewrite held_initial by done. unfold of_gid.
  rewrite list_elem_of_fmap, <- elem_of_enumerate. split.
  - intros ([i y] & -> & [[= ->] ?]%list_elem_of_filter). done.
  - intros Hin. exists (x, gid). by rewrite list_elem_of_filter.
Qed.

Lemma free_initial :
  freeShards g0 old = (filter (λ p : Z * Z, p.2 ∉ live_groups) (enumerate old)).*1.
Proof.
  rewrite freeShards_eq. f_equal. apply list_filter_iff. intros [i x]. simpl.
  rewrite elem_of_live. unfold g0. rewrite getGIDtoShardsMap_lookup.
  rewrite fmap_None, <- eq_None_not_Some. split; [|tauto]. intros [->|?]; [|tauto].
  by rewrite Hzero.
Qed.

Lemma loop_inv_initial :
  live_groups ≠ [] → loop_inv old g0 live_groups g0 (freeShards g0 old) ∅.
Proof.
  intros Hne. assert (NoDup live_groups) as Hnd.
  { unfold live_groups. rewrite merge_sort_Permutation. apply NoDup_key_order. }
  split; [done..| | |].
  - rewrite free_initial. transitivity ((enumerate old).*1).
    + rewrite <- (split_by_gid live_groups (enumerate old)) by done. apply Permutation_app_tail.
      apply reflexive_eq, shards_of_ext. auto using held_initial.
    + rewrite enumerate_keys, Hlen. done.
  - intros gid x Hg Hx _. by apply elem_of_held_initial in Hx as [_ Hx].
  - intros gid _. by left.
Qed.
End start.

(** ** Writing the assignment back *)
Section assign.
Implicit Types (ps : list (Z * Z)) (ns : list Z).

Definition write_pair (acc : Go (list Z)) (p : Z * Z) : Go (list Z) :=
  acc ≫= λ ns, set_index ns p.1 p.2.

Definition pairs_of (g : gmap Z (list Z)) (live : list Z) : list (Z * Z) :=
  live ≫= λ gid, (λ x, (x, gid)) <$> held g gid.

Lemma assign_all_pairs g live :
  assign_all g live = foldl write_pair (Ret zeroShards) (pairs_of g live).
Proof.
  unfold assign_all. generalize (Ret zeroShards) as acc.
  induction live as [|gid live IH]; intros acc; [done|].
  unfold pairs_of in *. simpl. rewrite foldl_app, IH. f_equal.
  unfold assign_group. generalize (held g gid) as l. clear IH.
  intros l. revert acc. induction l as [|x l IH]; intros acc; [done|]. simpl.
  by rewrite IH.
Qed.

Lemma write_pairs ps ns :
  NoDup ps.*1 → (∀ x gid, (x, gid) ∈ ps → 0 ≤ x < zlen ns) →
  ∃ ns', foldl write_pair (Ret ns) ps = Ret ns' ∧ length ns' = length ns ∧
    ∀ x gid, (x, gid) ∈ ps → ns' !! Z.to_nat x = Some gid.
Proof.
  induction ps as [|[x gid] ps IH] using rev_ind; intros Hnd Hin.
  - exists ns. split_and!; [done..|]. intros ? ? ?%not_elem_of_nil. done.
  - rewrite fmap_app in Hnd. apply NoDup_app in Hnd as (Hnd & Hd & _).
    destruct IH as (ns' & Hf & Hl & Hlook); [done| |].
    { intros y h Hy. apply (Hin y h), elem_of_app. by left. }
    pose proof (Hin x gid ltac:(apply elem_of_app; right; left)) as Hx.
    rewrite foldl_app, Hf. unfold zlen in *. rewrite <- Hl in Hx.
    exists (<[Z.to_nat x := gid]> ns'). cbn [foldl]. unfold write_pair. rewrite bind_Ret. cbn [fst snd].
    rewrite set_index_Ret by done. split_and!; [done|by rewrite length_insert|].
    intros y h [Hy|[= -> ->]%list_elem_of_singleton]%elem_of_app.
    + rewrite list_lookup_insert_ne; [by apply Hlook|].
      pose proof (Hin y h ltac:(apply elem_of_app; by left)).
      assert (y ≠ x); [|lia]. intros ->. apply (Hd x).
      * apply list_elem_of_fmap. by exists (x, h).
      * left.
    + apply list_lookup_insert_eq. lia.
Qed.

Lemma pairs_of_keys g live : (pairs_of g live).*1 = shards_of g live.
Proof.
  induction live as [|gid live IH]; [done|]. rewrite shards_of_cons, <- IH.
  unfold pairs_of. cbn [mbind list_bind]. rewrite fmap_app. f_equal.
  rewrite <- list_fmap_compose. apply list_fmap_id.
Qed.

Lemma elem_of_pairs_of g live x gid :
  (x, gid) ∈ pairs_of g live ↔ gid ∈ live ∧ x ∈ held g gid.
Proof.
  unfold pairs_of. rewrite list_elem_of_bind. split.
  - intros (h & Hx & Hh). apply list_elem_of_fmap in Hx as (y & [= -> ->] & Hy). done.
  - intros [Hg Hx]. exists gid. split; [|done]. apply list_elem_of_fmap. by exists x.
Qed.

Lemma elem_of_allShards x : x ∈ allShards ↔ 0 ≤ x < NShards.
Proof.
  unfold allShards. rewrite list_elem_of_fmap. split.
  - intros (n & -> & Hn%elem_of_seq). unfold NShards in *. lia.
  - intros Hx. exists (Z.to_nat x). rewrite elem_of_seq. unfold NShards in *. lia.
Qed.

Lemma NoDup_allShards : NoDup allShards.
Proof. apply (NoDup_fmap_2 Z.of_nat), NoDup_seq. Qed.

Lemma assign_all_correct g live :
  shards_of g live ≡ₚ allShards →
  ∃ ns, assign_all g live = Ret ns ∧ length ns = Z.to_nat NShards ∧
    ∀ gid x, gid ∈ live → x ∈ held g gid → ns !! Z.to_nat x = Some gid.
Proof.
  intros Hp. destruct (write_pairs (pairs_of g live) zeroShards) as (ns & Hf & Hl & Hlook).
  - rewrite pairs_of_keys, Hp. apply NoDup_allShards.
  - intros x gid Hx. assert (x ∈ allShards) as Hin%elem_of_allShards; [|done].
    rewrite <- Hp, <- pairs_of_keys, list_elem_of_fmap. by exists (x, gid).
  - exists ns. rewrite assign_all_pairs, Hf. split_and!; [done..|].
    intros gid x Hg Hx. apply Hlook. by apply elem_of_pairs_of.
Qed.
End assign.

(** ** What [rebalance] guarantees *)

Lemma filter_enumerate (gid : Z) (f : nat → Z) (ns : list Z) :
  filter (λ x, x = gid) ns = (filter (λ p, p.2 = gid) (imap (λ i x, (f i, x)) ns)).*2.
Proof.
  revert f. induction ns as [|a ns IH]; intros f; [done|]. cbn [imap].
  rewrite !filter_cons. cbn [snd]. rewrite (IH (f ∘ S)). by case_decide.
Qed.

(** How many shards the array assigns to a group. *)
Definition shard_count (shards : list Z) (gid : Z) : Z :=
  zlen (filter (λ x, x = gid) shards).

(** The shards a group holds in an array. *)
Definition owns (shards : list Z) (gid x : Z) : Prop :=
  0 ≤ x ∧ shards !! Z.to_nat x = Some gid.

Section result.
Context `{KO : KeyOrder} (old : list Z) (newMap : gmap Z (list string)).
Hypothesis Hlen : length old = Z.to_nat NShards.
Hypothesis Hzero : newMap !! 0 = None.
Hypothesis Hgroups : newMap ≠ ∅.

Let g0 := getGIDtoShardsMap old newMap.
Let live := live_groups old newMap.

Lemma live_nonempty : live ≠ [].
Proof.
  destruct (map_choose newMap Hgroups) as (gid & v & Hv).
  assert (gid ∈ live) as Hin by (apply elem_of_live; eauto).
  intros Hl. rewrite Hl in Hin. by apply not_elem_of_nil in Hin.
Qed.

(** The array [rebalance] returns is the final map of the loop, inverted. *)
Lemma rebalance_result :
  ∃ ns moved g', rebalance g0 old newMap = Ret (ns, moved) ∧
    length ns = Z.to_nat NShards ∧
    loop_inv old g0 live g' [] moved ∧ balanced_map g' live ∧
    ∀ gid x, gid ∈ live → owns ns gid x ↔ x ∈ held g' gid.
Proof.
  destruct (loop_enough old g0 live g0 (freeShards g0 old) ∅
              (loop_inv_initial old newMap Hlen Hzero live_nonempty))
    as (g' & moved & Hloop & Hi & Hbal).
  destruct Hi as [Hnd Hne Hp Hk Hr] eqn:EHi. clear EHi.
  rewrite app_nil_r in Hp.
  destruct (assign_all_correct g' live Hp) as (ns & Hns & Hl & Hlook).
  exists ns, moved, g'. split_and!; [|done..|].
  - unfold rebalance. fold g0 live. change (merge_sort (≤) (key_order g0)) with live.
    rewrite Hloop, bind_Ret. cbn. by rewrite Hns.
  - intros gid x Hg. split.
    + intros [Hx0 Hx]. assert (x ∈ allShards) as Hin.
      { apply elem_of_allShards. split; [done|].
        apply lookup_lt_Some in Hx. rewrite Hl in Hx. unfold NShards in *. lia. }
      rewrite <- Hp, elem_of_shards_of in Hin. destruct Hin as (h & Hxh & Hh).
      pose proof (Hlook _ _ Hh Hxh). by simplify_eq.
    + intros Hx. split; [|by apply Hlook].
      assert (x ∈ allShards) as ?%elem_of_allShards; [|lia].
      rewrite <- Hp, elem_of_shards_of. eauto.
Qed.

Lemma owned_by_live ns moved :
  rebalance g0 old newMap = Ret (ns, moved) →
  ∀ x, 0 ≤ x < NShards → ∃ gid, owns ns gid x ∧ is_Some (newMap !! gid).
Proof.
  intros Hr x Hx. destruct rebalance_result as (ns' & moved' & g' & Hr' & Hl & Hi & _ & Hown).
  rewrite Hr in Hr'. injection Hr' as <- <-.
  destruct Hi as [_ _ Hp _ _]. rewrite app_nil_r in Hp.
  apply elem_of_allShards in Hx. rewrite <- Hp, elem_of_shards_of in Hx.
  destruct Hx as (gid & Hx & Hg). exists gid. split; [by apply Hown|].
  by apply (elem_of_live old newMap gid).
Qed.

Lemma NoDup_held g' moved gid :
  loop_inv old g0 live g' [] moved → gid ∈ live → NoDup (held g' gid).
Proof.
  intros [_ _ Hp _ _] (l1 & l2 & Hl)%list_elem_of_split. rewrite app_nil_r in Hp.
  pose proof NoDup_allShards as Hnd. rewrite <- Hp, Hl in Hnd.
  rewrite shards_of_app, shards_of_cons in Hnd.
  apply NoDup_app in Hnd as (_ & _ & Hnd). by apply NoDup_app in Hnd as (? & _).
Qed.

Lemma shard_count_held ns moved g' gid :
  loop_inv old g0 live g' [] moved → length ns = Z.to_nat NShards →
  (∀ gid x, gid ∈ live → owns ns gid x ↔ x ∈ held g' gid) →
  gid ∈ live → shard_count ns gid = zlen (held g' gid).
Proof.
  intros Hi Hl Hown Hg. unfold shard_count, zlen. f_equal.
  rewrite (filter_enumerate _ Z.of_nat). change (imap _ ns) with (enumerate ns).
  rewrite length_fmap, <- (length_fmap fst).
  apply Permutation_length, NoDup_Permutation.
  - apply NoDup_fmap_2_strong; [|apply NoDup_filter, NoDup_fmap_1 with fst].
    + intros [i a] [j b] Hi1 Hj1 Hij. simpl in *. subst.
      apply list_elem_of_filter in Hi1 as [Ha _], Hj1 as [Hb _]. simpl in *. by subst.
    + rewrite enumerate_keys. apply (NoDup_fmap_2 Z.of_nat), NoDup_seq.
  - by eapply NoDup_held.
  - intros x. rewrite <- Hown, list_elem_of_fmap by done. unfold owns.
    rewrite <- elem_of_enumerate. split.
    + intros ([i y] & -> & [[= ->] ?]%list_elem_of_filter). done.
    + intros Hx. exists (x, gid). by rewrite list_elem_of_filter.
Qed.
End result.

(** With at least one group the loop's result, read back into an array. *)
Lemma rebalance_spec `{KeyOrder} (old : list Z) (newMap : gmap Z (list string))
    (Hlen : length old = Z.to_nat NShards) (Hzero : newMap !! 0 = None)
    (Hgroups : newMap ≠ ∅) :
  ∃ ns moved, rebalance (getGIDtoShardsMap old newMap) old newMap = Ret (ns, moved) ∧
    length ns = Z.to_nat NShards ∧
    (∀ x, 0 ≤ x < NShards → ∃ gid, owns ns gid x ∧ is_Some (newMap !! gid)) ∧
    (∀ a b, is_Some (newMap !! a) → is_Some (newMap !! b) →
       shard_count ns a ≤ shard_count ns b + 1).
Proof.
  destruct (rebalance_result old newMap Hlen Hzero Hgroups)
    as (ns & moved & g' & Hr & Hl & Hi & Hbal & Hown).
  exists ns, moved. split_and!; [done..| |].
  - exact (owned_by_live old newMap Hlen Hzero Hgroups ns moved Hr).
  - intros a b Ha%(elem_of_live old newMap) Hb%(elem_of_live old newMap).
    erewrite !shard_count_held by done. by apply Hbal.
Qed.

(** C19: for ten shards and at least one group (and no group numbered 0, the
    invalid group), [rebalance] returns — its loop ends and no index is out of
    range — an array of ten entries that gives every shard to a live group,
    and no group has two shards more than another. *)
Theorem rebalance_balanced `{KeyOrder} (old : list Z) (newMap : gmap Z (list string))
    (Hlen : length old = Z.to_nat NShards) (Hzero : newMap !! 0 = None)
    (Hgroups : newMap ≠ ∅) :
  ∃ ns moved, rebalance (getGIDtoShardsMap old newMap) old newMap = Ret (ns, moved) ∧
    length ns = Z.to_nat NShards ∧
    (∀ x, 0 ≤ x < NShards → ∃ gid, owns ns gid x ∧ is_Some (newMap !! gid)) ∧
    (∀ a b, is_Some (newMap !! a) → is_Some (newMap !! b) →
       shard_count ns a ≤ shard_count ns b + 1).
Proof. by apply rebalance_spec. Qed.

(** [rebalance] moves as little as it can on each side: a live group either
    keeps every shard it had or gains none, and a shard not recorded in the
    second result stays with its group. *)
Theorem rebalance_gives_or_takes `{KeyOrder} (old : list Z) (newMap : gmap Z (list string))
    (ns : list Z) (moved : gmap Z bool)
    (Hlen : length old = Z.to_nat NShards) (Hzero : newMap !! 0 = None)
    (Hgroups : newMap ≠ ∅)
    (Hr : rebalance (getGIDtoShardsMap old newMap) old newMap = Ret (ns, moved)) :
  (∀ gid, is_Some (newMap !! gid) →
     (∀ x, owns old gid x → owns ns gid x) ∨ (∀ x, owns ns gid x → owns old gid x)) ∧
  (∀ x gid, owns ns gid x → moved !! x = None → owns old gid x).
Proof.
  destruct (rebalance_result old newMap Hlen Hzero Hgroups)
    as (ns' & moved' & g' & Hr' & Hl & Hi & Hbal & Hown).
  rewrite Hr in Hr'. injection Hr' as <- <-. split.
  - intros gid Hg%(elem_of_live old newMap).
    assert (∀ x, owns old gid x ↔ x ∈ held (getGIDtoShardsMap old newMap) gid) as Hold
      by (intros x; by rewrite elem_of_held_initial).
    setoid_rewrite Hold. setoid_rewrite (Hown gid); [|done..].
    destruct (li_roles _ _ _ _ _ _ Hi gid Hg) as [->|[[Hp _]|[_ [Hp _]]]].
    + by left.
    + left. intros x Hx. by eapply elem_of_prefix.
    + right. intros x Hx. by eapply elem_of_prefix.
  - intros x gid Hx Hm. destruct (Hx) as [Hx0 Hxs]. split; [done|].
    assert (0 ≤ x < NShards) as Hb.
    { apply lookup_lt_Some in Hxs. rewrite Hl in Hxs. unfold NShards in *. lia. }
    destruct (owned_by_live old newMap Hlen Hzero Hgroups _ _ Hr x Hb) as (h & [_ Hh] & Hlive).
    simplify_eq. apply (elem_of_live old newMap) in Hlive.
    eapply li_kept; [done..| |done]. by apply Hown.
Qed.

(** Sorting the keys removes the order Go enumerated them in. *)
Lemma rebalance_order_irrelevant (KO1 KO2 : KeyOrder) (g : gmap Z (list Z)) (old : list Z)
    (newMap : gmap Z (list string)) :
  @rebalance KO1 g old newMap = @rebalance KO2 g old newMap.
Proof.
  unfold rebalance.
  assert (merge_sort (≤) (@key_order KO1 _ g) = merge_sort (≤) (@key_order KO2 _ g)) as ->; [|done].
  apply (Sorted_unique Z.le).
  - apply (Sorted_merge_sort Z.le).
  - apply (Sorted_merge_sort Z.le).
  - by rewrite !merge_sort_Permutation, !key_order_perm.
Qed.

(** the replicas of the controller compute the same assignment although Go
    enumerates the map of groups in an order of its own on each of them. *)
Theorem rebalance_deterministic (KO1 KO2 : KeyOrder) (g : gmap Z (list Z)) (old : list Z)
    (newMap : gmap Z (list string)) :
  @rebalance KO1 g old newMap = @rebalance KO2 g old newMap.
Proof. apply rebalance_order_irrelevant. Qed.

(** When the last group leaves, every shard is assigned to the invalid
    group 0. *)
Lemma rebalance_empty `{KeyOrder} (old : list Z) :
  ∃ moved, rebalance (getGIDtoShardsMap old ∅) old ∅ = Ret (zeroShards, moved).
Proof.
  set (g0 := getGIDtoShardsMap old ∅).
  assert (merge_sort (≤) (key_order g0) = []) as Hl.
  { apply elem_of_nil_inv. intros gid. rewrite merge_sort_Permutation, elem_of_key_order.
    unfold g0. rewrite getGIDtoShardsMap_lookup, lookup_empty. by intros [? [=]]. }
  destruct (loop_no_groups (rebalance_fuel g0 [] (freeShards g0 old)) g0
              (freeShards g0 old) ∅) as (g' & moved & Hr).
  { unfold rebalance_fuel. lia. }
  exists moved. unfold rebalance. rewrite Hl, Hr. done.
Qed.

Definition sample_groups : gmap Z (list string) :=
  <[3 := ["s3"%string]]> (<[7 := ["s7"%string]]> (<[5 := ["s5"%string]]> ∅)).
Definition sample_shards : list Z := [7; 7; 7; 7; 7; 7; 9; 9; 0; 5].

Lemma rebalance_balanced_witness :
  ∃ ns moved,
    @rebalance key_order_std (getGIDtoShardsMap sample_shards sample_groups)
      sample_shards sample_groups = Ret (ns, moved) ∧
    length ns = Z.to_nat NShards ∧
    (∀ x, 0 ≤ x < NShards → ∃ gid, owns ns gid x ∧ is_Some (sample_groups !! gid)) ∧
    (∀ a b, is_Some (sample_groups !! a) → is_Some (sample_groups !! b) →
       shard_count ns a ≤ shard_count ns b + 1).
Proof.
  apply (@rebalance_balanced key_order_std sample_shards sample_groups);
    [reflexivity | reflexivity | discriminate].
Defined.

Lemma rebalance_gives_or_takes_witness :
  length sample_shards = Z.to_nat NShards ∧
  (∀ gid, is_Some (sample_groups !! gid) →
     (∀ x, owns sample_shards gid x → owns [7; 7; 7; 7; 5; 3; 3; 3; 5; 5] gid x) ∨
     (∀ x, owns [7; 7; 7; 7; 5; 3; 3; 3; 5; 5] gid x → owns sample_shards gid x)).
Proof.
  split; [reflexivity|].
  refine (proj1 (@rebalance_gives_or_takes key_order_std sample_shards sample_groups
    [7; 7; 7; 7; 5; 3; 3; 3; 5; 5] _ eq_refl eq_refl _ _)).
  - discriminate.
  - vm_compute. reflexivity.
Defined.
