(* ===== verification/ShardCtrler.v ===== *)
(** * The shard controller server (shardctrler/server.go)

    The controller is a replicated state machine whose state is the list of
    all configurations.  [applyToStateMachine] and [applyHandler] are the
    transitions made for each committed operation; [RequestHandler] is split at
    its lock and channel operations into [request_begin], [request_end] and
    [request_cleanup]. *)

From S2P Require Import Prelude Persister Chan RaftApi ShardConfig Rebalance.

Module ShardCtrler.

Definition OK : string := "OK".
Definition ErrWrongLeader : string := "ErrWrongLeader".

Definition JoinArgsType : Z := 1.
Definition LeaveArgsType : Z := 2.
Definition MoveArgsType : Z := 3.
Definition QueryArgsType : Z := 4.

(** The operation stored in the log; [CommandArgs] has the same fields. *)
Record Op := mkOp {
  ArgsType : Z;
  Servers : gmap Z (list string);   (* Join *)
  GIDs : list Z;                    (* Leave *)
  Shard : Z;                        (* Move *)
  GID : Z;                          (* Move *)
  QNum : Z;                         (* Query: desired config number *)
  SeqNum : Z;                       (* for deduplication *)
  ClientID : Z                      (* for deduplication *)
}.

(** [Op{}], what a failed type assertion yields. *)
Definition zeroOp : Op := mkOp 0 ∅ [] 0 0 0 0 0.

Record CommandArgs := mkCommandArgs {
  ca_ArgsType : Z;
  ca_Servers : gmap Z (list string);
  ca_GIDs : list Z;
  ca_Shard : Z;
  ca_GID : Z;
  ca_Num : Z;
  ca_SeqNum : Z;
  ca_ClientID : Z
}.

Record CommandReply := mkCommandReply {
  ReplyType : Z;
  WrongLeader : bool;
  rErr : string;
  rConfig : Config
}.

(** [&CommandReply{}]. *)
Definition zeroReply : CommandReply := mkCommandReply 0 false "" emptyConfig.

(** [Op{args.ArgsType, ...}]. *)
Definition op_of_args (args : CommandArgs) : Op :=
  mkOp (ca_ArgsType args) (ca_Servers args) (ca_GIDs args) (ca_Shard args) (ca_GID args)
       (ca_Num args) (ca_SeqNum args) (ca_ClientID args).

Record server := mkServer {
  configs : list Config;            (* indexed by config num *)
  waitChan : waitroom Op;
  clientSeq : gmap Z Z
}.

Definition set_configs (sc : server) (cs : list Config) : server :=
  mkServer cs (waitChan sc) (clientSeq sc).
Definition set_waitChan (sc : server) (w : waitroom Op) : server :=
  mkServer (configs sc) w (clientSeq sc).
Definition set_clientSeq (sc : server) (m : gmap Z Z) : server :=
  mkServer (configs sc) (waitChan sc) m.

(** [StartServer]: one configuration, number 0, with no groups. *)
Definition StartServer : server := mkServer [emptyConfig] empty_waitroom ∅.

(** ** The state machine *)

(** The Join loop: a group that is already present is deleted first. *)
Definition join_groups (copyMap newServers : gmap Z (list string)) : gmap Z (list string) :=
  map_fold (λ gid values copyMap,
              let copyMap' := match copyMap !! gid with
                              | Some _ => delete gid copyMap
                              | None => copyMap
                              end in
              <[gid := values]> copyMap')
           copyMap newServers.

Definition leave_groups (copyMap : gmap Z (list string)) (gids : list Z) : gmap Z (list string) :=
  foldl (λ copyMap gid, delete gid copyMap) copyMap gids.

Section machine.
Context {KO : KeyOrder}.

(** Appends the configuration whose groups are [copyMap]. *)
Definition append_rebalanced (sc : server) (oldNum : Z) (oldShards : list Z)
    (copyMap : gmap Z (list string)) : Go server :=
  '(newShards, _) ← rebalance (getGIDtoShardsMap oldShards copyMap) oldShards copyMap;
  mret (set_configs sc (configs sc ++ [mkConfig (oldNum + 1) newShards copyMap])).

Definition applyToStateMachine (sc : server) (appliedOp : Op) : Go server :=
  old ← index (configs sc) (zlen (configs sc) - 1);
  let oldNum := Num old in
  let oldShards := Shards old in
  let oldGroups := Groups old in
  if ArgsType appliedOp =? JoinArgsType then
    append_rebalanced sc oldNum oldShards
      (join_groups (GetGroupMapCopy oldGroups) (GetGroupMapCopy (Servers appliedOp)))
  else if ArgsType appliedOp =? LeaveArgsType then
    append_rebalanced sc oldNum oldShards
      (leave_groups (GetGroupMapCopy oldGroups) (GIDs appliedOp))
  else if ArgsType appliedOp =? MoveArgsType then
    shardsCopy ← GetShardsCopy oldShards;
    shardsCopy' ← set_index shardsCopy (Shard appliedOp) (GID appliedOp);
    mret (set_configs sc (configs sc ++ [mkConfig (oldNum + 1) shardsCopy' oldGroups]))
  else mret sc.

(** One pass of the [applyHandler] loop. *)
Definition applyHandler (sc : server) (applyMsg : ApplyMsg Op) : Go server :=
  if negb (CommandValid applyMsg) then mret sc
  else
    let appliedOp := default zeroOp (Command applyMsg) in
    let sc1 := match clientSeq sc !! ClientID appliedOp with
               | Some _ => sc
               | None => set_clientSeq sc (<[ClientID appliedOp := 0]> (clientSeq sc))
               end in
    sc2 ← (if SeqNum appliedOp <=? map_get 0 (clientSeq sc1) (ClientID appliedOp)
           then mret sc1 else applyToStateMachine sc1 appliedOp);
    w ← wait_notify (waitChan sc2) (CommandIndex applyMsg) appliedOp;
    mret (set_waitChan sc2 w).
End machine.

(** ** Queries *)
Definition getConfig (sc : server) (i : Z) : Go Config :=
  lastConfig ← index (configs sc) (zlen (configs sc) - 1);
  if (i =? -1) || (zlen (configs sc) <=? i) then mret lastConfig
  else index (configs sc) i.

(** ** The request handler *)
Definition getWaitCh (sc : server) (i : Z) : server * Z :=
  let '(w, c) := wait_get (waitChan sc) i in (set_waitChan sc w, c).

Definition wrong_leader (reply : CommandReply) : CommandReply :=
  mkCommandReply (ReplyType reply) true ErrWrongLeader (rConfig reply).

Section handler.
Context {R : Type} `{RaftService R Op}.

(** Up to the wait: either the reply is final, or the request waits on a
    channel for the entry at a log index. *)
Definition request_begin (rf : R) (sc : server) (args : CommandArgs) (reply : CommandReply)
  : Go (R * server * (CommandReply + Z * Z)) :=
  let '(_, isLeader) := rs_GetState rf in
  if negb isLeader then mret (rf, sc, inl (wrong_leader reply))
  else
    '(rf', (i, _, isLeader')) ← rs_Start rf (op_of_args args);
    if negb isLeader' then mret (rf', sc, inl (wrong_leader reply))
    else let '(sc', waitCh) := getWaitCh sc i in mret (rf', sc', inr (i, waitCh)).
End handler.

(** What ends the wait. *)
Inductive wake := WTimeout | WReceived (r : received Op).

(** From the wake-up to the reply. *)
Definition request_end (sc : server) (args : CommandArgs) (reply : CommandReply) (ev : wake)
  : Go CommandReply :=
  match ev with
  | WTimeout | WReceived RClosed | WReceived RBlocked => mret (wrong_leader reply)
  | WReceived (RValue applyOp) =>
      if (SeqNum applyOp =? ca_SeqNum args) && (ClientID applyOp =? ca_ClientID args) then
        reply1 ← (if ArgsType applyOp =? QueryArgsType then
                    queryConfig ← getConfig sc (ca_Num args);
                    shards ← GetShardsCopy (Shards queryConfig);
                    mret (mkCommandReply (ReplyType reply) (WrongLeader reply) (rErr reply)
                            (mkConfig (Num queryConfig) shards
                               (GetGroupMapCopy (Groups queryConfig))))
                  else mret reply);
        mret (mkCommandReply (ReplyType reply1) (WrongLeader reply1) OK (rConfig reply1))
      else mret (wrong_leader reply)
  end.

(** The goroutine that closes the channel and drops it from the map. *)
Definition request_cleanup (sc : server) (i waitCh : Z) : Go server :=
  w ← wait_release (waitChan sc) i waitCh; mret (set_waitChan sc w).

(** ** Persistence *)
Section persist.
Context `{Codec (list Config * gmap Z Z)}.

Definition getServerPersistData (sc : server) : bytes :=
  gob_encode (configs sc, clientSeq sc).

Definition readServerPersistData (sc : server) (data : bytes) : server :=
  if (zlen data <? 1) then sc
  else match gob_decode data with
       | None => sc
       | Some (cs, seq) => set_clientSeq (set_configs sc cs) seq
       end.
End persist.

End ShardCtrler.
