(* ===== verification/ShardCtrlerSpec.v ===== *)
(** * Correctness of the shard controller

    Every committed operation extends the list of configurations by at most
    one configuration, with the next number; what [Query] returns for a number
    never changes; Join and Leave leave the shards balanced over exactly the
    remaining groups; replicas agree.  The last section shows what the
    controller's duplicate detection does. *)

From S2P Require Import Prelude Persister Chan RaftApi ShardConfig Rebalance ShardCtrler.
Import ShardCtrler.

(** ** The map and array helpers *)
Lemma map_fold_insert_union (m s : gmap Z (list string)) :
  map_fold (λ k v m, <[k := v]> m) m s = s ∪ m.
Proof.
  apply (map_fold_weak_ind (λ r s, r = s ∪ m)).
  - by rewrite (left_id_L ∅ (∪)).
  - intros k v s' r Hk ->. by rewrite insert_union_l.
Qed.

Lemma GetGroupMapCopy_id m : GetGroupMapCopy m = m.
Proof. unfold GetGroupMapCopy. by rewrite map_fold_insert_union, (right_id_L ∅ (∪)). Qed.

Lemma join_groups_union m s : join_groups m s = s ∪ m.
Proof.
  unfold join_groups. apply (map_fold_weak_ind (λ r s, r = s ∪ m)).
  - by rewrite (left_id_L ∅ (∪)).
  - intros k v s' r Hk ->. rewrite <- insert_union_l.
    destruct ((s' ∪ m) !! k); [|done]. by rewrite insert_delete_eq.
Qed.

Lemma leave_groups_lookup m gids gid :
  leave_groups m gids !! gid = if decide (gid ∈ gids) then None else m !! gid.
Proof.
  unfold leave_groups. revert m. induction gids as [|a gids IH]; intros m; [done|].
  simpl. rewrite IH, lookup_delete. repeat case_decide; set_solver.
Qed.

Lemma GetShardsCopy_id shards :
  length shards = Z.to_nat NShards → GetShardsCopy shards = Ret shards.
Proof.
  intros Hlen. unfold GetShardsCopy.
  destruct (write_pairs (enumerate shards) zeroShards) as (ns & Hf & Hl & Hlook).
  - rewrite enumerate_keys. apply (NoDup_fmap_2 Z.of_nat), NoDup_seq.
  - intros x gid [Hx Hin]%elem_of_enumerate. apply lookup_lt_Some in Hin.
    unfold zlen. change (length zeroShards) with (Z.to_nat NShards). lia.
  - transitivity (foldl write_pair (Ret zeroShards) (enumerate shards)).
    { apply foldl_ext'. by intros acc [i x]. }
    rewrite Hf. f_equal. apply list_eq. intros i.
    destruct (shards !! i) as [x|] eqn:Hx.
    + specialize (Hlook (Z.of_nat i) x). rewrite Nat2Z.id in Hlook. apply Hlook.
      apply elem_of_enumerate. rewrite Nat2Z.id. split; [lia|done].
    + apply lookup_ge_None in Hx. apply lookup_ge_None. rewrite Hl.
      change (length zeroShards) with (Z.to_nat NShards). lia.
Qed.

(** ** The invariant of the controller *)
Record config_ok (n : Z) (c : Config) : Prop := {
  co_num : Num c = n;
  co_shards : length (Shards c) = Z.to_nat NShards;
  co_groups : Groups c !! 0 = None
}.

Record ctrl_wf (sc : server) : Prop := {
  cw_nonempty : configs sc ≠ [];
  cw_configs : ∀ i c, configs sc !! i = Some c → config_ok (Z.of_nat i) c;
  cw_wait : wait_wf (waitChan sc)
}.

(** The operations a clerk issues: a Join names no group 0, a Move names one of
    the ten shards. *)
Definition op_valid (op : Op) : Prop :=
  (ArgsType op = JoinArgsType → Servers op !! 0 = None) ∧
  (ArgsType op = MoveArgsType → 0 ≤ Shard op < NShards).

Lemma ctrl_wf_start : ctrl_wf StartServer.
Proof.
  split; [done| |apply wait_wf_empty]. intros i c Hc.
  apply list_lookup_singleton_Some in Hc as [-> <-]. by split.
Qed.

Section machine.
Context {KO : KeyOrder}.

Lemma last_config sc :
  ctrl_wf sc → ∃ c, index (configs sc) (zlen (configs sc) - 1) = Ret c ∧
    last (configs sc) = Some c ∧ config_ok (zlen (configs sc) - 1) c.
Proof.
  intros [Hne Hc _]. destruct (destruct_last (configs sc) Hne) as (cs & c & Heq).
  rewrite Heq in *. exists c. rewrite last_snoc.
  assert ((cs ++ [c]) !! length cs = Some c) as Hlast by by apply list_lookup_middle.
  replace (zlen (cs ++ [c]) - 1) with (Z.of_nat (length cs))
    by (unfold zlen; rewrite length_app; simpl; lia).
  split_and!; [|done|by apply Hc]. apply index_Ret. rewrite Nat2Z.id. split; [lia|done].
Qed.

Lemma ctrl_wf_append sc cfg :
  ctrl_wf sc → config_ok (zlen (configs sc)) cfg →
  ctrl_wf (set_configs sc (configs sc ++ [cfg])).
Proof.
  intros [Hne Hc Hw] Hcfg. split; simpl; [by destruct (configs sc)| |done].
  intros i c Hi. apply lookup_app_Some in Hi as [Hi|[Hi Hc']]; [by apply Hc|].
  apply list_lookup_singleton_Some in Hc' as [Hi' <-].
  replace (Z.of_nat i) with (zlen (configs sc)) by (unfold zlen; lia). done.
Qed.

(** What a Join or Leave appends. *)
Definition balanced_config (c : Config) : Prop :=
  if decide (Groups c = ∅) then Shards c = zeroShards
  else (∀ x, 0 ≤ x < NShards → ∃ gid, owns (Shards c) gid x ∧ is_Some (Groups c !! gid)) ∧
       (∀ a b, is_Some (Groups c !! a) → is_Some (Groups c !! b) →
          shard_count (Shards c) a ≤ shard_count (Shards c) b + 1).

Lemma append_rebalanced_spec sc n old m :
  length old = Z.to_nat NShards → m !! 0 = None →
  ∃ ns, append_rebalanced sc n old m =
      Ret (set_configs sc (configs sc ++ [mkConfig (n + 1) ns m])) ∧
    length ns = Z.to_nat NShards ∧ balanced_config (mkConfig (n + 1) ns m).
Proof.
  intros Hlen Hz. unfold append_rebalanced, balanced_config.
  destruct (decide (m = ∅)) as [->|Hne].
  - destruct (rebalance_empty old) as [moved ->]. exists zeroShards. split_and!; [done..|].
    simpl. by rewrite decide_True.
  - destruct (rebalance_spec old m Hlen Hz Hne) as (ns & moved & -> & Hl & Hown & Hbal).
    exists ns. split_and!; [done..|]. simpl. by rewrite decide_False.
Qed.

(** ** The abstract specification of an operation *)
Definition changes_config (op : Op) : bool :=
  (ArgsType op =? JoinArgsType) || (ArgsType op =? LeaveArgsType) || (ArgsType op =? MoveArgsType).

(** The configuration that follows [old] when [op] is applied. *)
Definition next_config (op : Op) (old new : Config) : Prop :=
  Num new = Num old + 1 ∧
  if ArgsType op =? JoinArgsType then
    Groups new = Servers op ∪ Groups old ∧ balanced_config new
  else if ArgsType op =? LeaveArgsType then
    (∀ gid, Groups new !! gid = if decide (gid ∈ GIDs op) then None else Groups old !! gid) ∧
    balanced_config new
  else Groups new = Groups old ∧ Shards new = <[Z.to_nat (Shard op) := GID op]> (Shards old).

(** The machine appends the specified configuration, or changes nothing. *)
Lemma apply_spec sc op :
  ctrl_wf sc → op_valid op →
  ∃ cs, applyToStateMachine sc op = Ret (set_configs sc (configs sc ++ cs)) ∧
    ctrl_wf (set_configs sc (configs sc ++ cs)) ∧
    if changes_config op
    then ∃ old new, last (configs sc) = Some old ∧ cs = [new] ∧ next_config op old new
    else cs = [].
Proof.
  intros Hwf [Hjoin Hmove]. unfold applyToStateMachine, changes_config, next_config.
  destruct (last_config sc Hwf) as (old & -> & Hlast & [Hnum Hsh Hgr]).
  rewrite bind_Ret. cbn zeta. rewrite !GetGroupMapCopy_id.
  assert (∀ ns m, length ns = Z.to_nat NShards → m !! 0 = None →
    ctrl_wf (set_configs sc (configs sc ++ [mkConfig (Num old + 1) ns m]))) as Hok.
  { intros ns m Hl Hm. apply ctrl_wf_append; [done|]. split; simpl; [lia|done..]. }
  destruct (Z.eqb_spec (ArgsType op) JoinArgsType) as [Hj|Hj]; [|
  destruct (Z.eqb_spec (ArgsType op) LeaveArgsType) as [Hl|Hl]; [|
  destruct (Z.eqb_spec (ArgsType op) MoveArgsType) as [Hm|Hm]]].
  - rewrite join_groups_union.
    assert ((Servers op ∪ Groups old) !! 0 = None) as H0
      by (rewrite lookup_union_None; auto).
    destruct (append_rebalanced_spec sc (Num old) (Shards old) _ Hsh H0) as (ns & -> & Hns & Hb).
    eexists. split; [done|]. split; [by apply Hok|]. simpl. eauto 10.
  - assert (leave_groups (Groups old) (GIDs op) !! 0 = None) as H0
      by (rewrite leave_groups_lookup; by case_decide).
    destruct (append_rebalanced_spec sc (Num old) (Shards old) _ Hsh H0) as (ns & -> & Hns & Hb).
    eexists. split; [done|]. split; [by apply Hok|]. simpl.
    eexists _, _. split_and!; [done..|intros gid; apply leave_groups_lookup|done].
  - specialize (Hmove Hm). rewrite GetShardsCopy_id, bind_Ret by done.
    rewrite set_index_Ret by (unfold zlen; rewrite Hsh; unfold NShards in *; lia).
    eexists. split; [done|]. split; [apply Hok; [by rewrite length_insert|done]|].
    simpl. eauto 10.
  - exists []. rewrite app_nil_r. destruct sc. done.
Qed.

(** The commands a controller's log holds are valid operations. *)
Definition msg_valid (m : ApplyMsg Op) : Prop := op_valid (default zeroOp (Command m)).

Lemma zeroOp_valid : op_valid zeroOp.
Proof. by split. Qed.

(** One pass of [applyHandler]: the configurations it appends. *)
Lemma applyHandler_spec sc m :
  ctrl_wf sc → msg_valid m →
  ∃ sc' cs, applyHandler sc m = Ret sc' ∧ ctrl_wf sc' ∧ configs sc' = configs sc ++ cs ∧
    (length cs ≤ 1)%nat ∧
    (∀ id n, clientSeq sc' !! id = Some n → clientSeq sc !! id = Some n ∨ n = 0).
Proof.
  intros Hwf Hv. unfold applyHandler.
  destruct (CommandValid m); simpl; [|exists sc, []; rewrite app_nil_r; naive_solver lia].
  set (op := default zeroOp (Command m)) in *.
  set (sc1 := match clientSeq sc !! ClientID op with Some _ => sc | None => _ end).
  assert (ctrl_wf sc1 ∧ configs sc1 = configs sc ∧
    ∀ id n, clientSeq sc1 !! id = Some n → clientSeq sc !! id = Some n ∨ n = 0) as (Hwf1 & Hc1 & Hs1).
  { unfold sc1. destruct (clientSeq sc !! ClientID op); [by eauto|]. simpl. split_and!; [|done|].
    - by destruct Hwf; split.
    - intros id n [[_ <-]|[_ ?]]%lookup_insert_Some; eauto. }
  assert (∃ cs, (if SeqNum op <=? map_get 0 (clientSeq sc1) (ClientID op) then mret sc1
     else applyToStateMachine sc1 op) = Ret (set_configs sc1 (configs sc1 ++ cs)) ∧
     ctrl_wf (set_configs sc1 (configs sc1 ++ cs)) ∧ (length cs ≤ 1)%nat) as (cs & -> & Hwf2 & Hlen).
  { case_test.
    - exists []. rewrite app_nil_r. destruct sc1. simpl in *. eauto.
    - destruct (apply_spec sc1 op Hwf1 Hv) as (cs & -> & ? & Hcs). exists cs.
      split_and!; [done..|]. destruct (changes_config op); [|subst; simpl; lia].
      destruct Hcs as (? & ? & _ & -> & _). done. }
  rewrite bind_Ret. destruct (wait_notify_wf _ (CommandIndex m) op (cw_wait _ Hwf2)) as (w & -> & Hw & _).
  eexists _, cs. split; [done|]. simpl. rewrite Hc1. split_and!; [|done..].
  destruct Hwf2 as [? Hcfg ?]. simpl in *. rewrite Hc1 in *. by split.
Qed.

(** A replica applies the committed messages in order. *)
Fixpoint apply_log (sc : server) (log : list (ApplyMsg Op)) : Go server :=
  match log with
  | [] => mret sc
  | m :: log => sc' ← applyHandler sc m; apply_log sc' log
  end.

Lemma apply_log_spec sc log :
  ctrl_wf sc → Forall msg_valid log →
  ∃ sc', apply_log sc log = Ret sc' ∧ ctrl_wf sc' ∧ configs sc `prefix_of` configs sc' ∧
    (∀ id n, clientSeq sc' !! id = Some n → clientSeq sc !! id = Some n ∨ n = 0).
Proof.
  intros Hwf Hv. revert sc Hwf. induction Hv as [|m log Hm Hv IH]; intros sc Hwf; simpl.
  - eauto 10.
  - destruct (applyHandler_spec sc m Hwf Hm) as (sc1 & cs & -> & Hwf1 & Hc & _ & Hs).
    rewrite bind_Ret. destruct (IH sc1 Hwf1) as (sc' & -> & Hwf' & Hp & Hs').
    exists sc'. split_and!; [done..| |].
    + rewrite Hc in Hp. etrans; [|done]. by apply prefix_app_r.
    + intros id n [?| ->]%Hs'; auto.
Qed.
End machine.

Lemma getConfig_lookup sc n c :
  ctrl_wf sc → 0 ≤ n < zlen (configs sc) →
  getConfig sc n = Ret c ↔ configs sc !! Z.to_nat n = Some c.
Proof.
  intros Hwf Hn. unfold getConfig. destruct (last_config sc Hwf) as (l & -> & _ & _).
  rewrite bind_Ret. case_test; [lia|]. rewrite index_Ret. naive_solver lia.
Qed.

(** A valid Join with a positive sequence number always appends, and leaves the
    recorded sequence numbers at 0. *)
Lemma apply_join_grows {KO : KeyOrder} sc op i :
  ctrl_wf sc → op_valid op → ArgsType op = JoinArgsType → 0 < SeqNum op →
  (∀ id, map_get 0 (clientSeq sc) id = 0) →
  ∃ sc', applyHandler sc (command_msg (Some op) i) = Ret sc' ∧ ctrl_wf sc' ∧
    (∀ id, map_get 0 (clientSeq sc') id = 0) ∧ zlen (configs sc') = zlen (configs sc) + 1.
Proof.
  intros Hwf Hop Hj Hs Hz. unfold applyHandler. simpl.
  set (sc1 := match clientSeq sc !! ClientID op with Some _ => sc | None => _ end).
  assert (ctrl_wf sc1 ∧ configs sc1 = configs sc ∧ ∀ id, map_get 0 (clientSeq sc1) id = 0)
    as (Hwf1 & Hc1 & Hz1).
  { unfold sc1. destruct (clientSeq sc !! ClientID op); [by eauto|]. simpl. split_and!; [|done|].
    - by destruct Hwf; split.
    - intros id. destruct (decide (ClientID op = id)) as [->|].
      + by rewrite map_get_insert_eq.
      + by rewrite map_get_insert_ne. }
  rewrite Hz1, (proj2 (Z.leb_gt _ 0)) by done.
  destruct (apply_spec sc1 op Hwf1 Hop) as (cs & -> & Hwf2 & Hcs). rewrite bind_Ret.
  unfold changes_config in Hcs. rewrite Hj in Hcs. destruct Hcs as (old & new & _ & -> & _).
  destruct (wait_notify_wf _ i op (cw_wait _ Hwf2)) as (w & -> & Hw & _).
  eexists. split; [done|]. simpl. split_and!; [|done|rewrite zlen_app, Hc1; done].
  destruct Hwf2. by split.
Qed.

(** ** Theorems *)

(** whatever valid operations a replica applies, it does not panic, keeps
    one configuration per number with ten shards and no group 0, and only ever
    extends the list of configurations, by one per operation at most. *)
Theorem applyHandler_preserves {KO : KeyOrder} (sc : server) (m : ApplyMsg Op)
    (Hwf : ctrl_wf sc) (Hm : msg_valid m) :
  ∃ sc' cs, applyHandler sc m = Ret sc' ∧ ctrl_wf sc' ∧ configs sc' = configs sc ++ cs ∧
    (length cs ≤ 1)%nat.
Proof. destruct (applyHandler_spec sc m Hwf Hm) as (sc' & cs & ? & ? & ? & ? & _). eauto 10. Qed.

Definition join_op : Op := mkOp JoinArgsType sample_groups [] 0 0 0 1 42.

Lemma applyHandler_preserves_witness :
  ∃ sc' cs, @applyHandler key_order_std StartServer (command_msg (Some join_op) 1) = Ret sc' ∧
    ctrl_wf sc' ∧ configs sc' = configs StartServer ++ cs ∧ (length cs ≤ 1)%nat.
Proof.
  apply (@applyHandler_preserves key_order_std).
  - apply ctrl_wf_start.
  - split; [reflexivity | discriminate].
Defined.

(** C29: the functional behaviour of every operation: Join, Leave and Move
    append exactly the configuration the specification [next_config] names
    (Join and Leave one that is balanced over the groups that remain, Move one
    that differs in one shard), a Query appends none. *)
Theorem applyToStateMachine_correct {KO : KeyOrder} (sc : server) (op : Op)
    (Hwf : ctrl_wf sc) (Hop : op_valid op) :
  ∃ cs, applyToStateMachine sc op = Ret (set_configs sc (configs sc ++ cs)) ∧
    if changes_config op
    then ∃ old new, last (configs sc) = Some old ∧ cs = [new] ∧ next_config op old new
    else cs = [].
Proof. destruct (apply_spec sc op Hwf Hop) as (cs & ? & _ & ?). eauto. Qed.

Lemma applyToStateMachine_correct_witness :
  ∃ cs, @applyToStateMachine key_order_std StartServer join_op =
      Ret (set_configs StartServer (configs StartServer ++ cs)) ∧
    ∃ old new, last (configs StartServer) = Some old ∧ cs = [new] ∧ next_config join_op old new.
Proof.
  apply (@applyToStateMachine_correct key_order_std StartServer join_op).
  - apply ctrl_wf_start.
  - split; [reflexivity | discriminate].
Defined.

(** the answer to a query for a numbered configuration is fixed once it has
    been given: after any further committed operations the same number is
    answered with the same configuration. *)
Theorem query_stable {KO : KeyOrder} (sc : server) (log : list (ApplyMsg Op)) (n : Z) (c : Config)
    (Hwf : ctrl_wf sc) (Hlog : Forall msg_valid log) (Hn : 0 ≤ n < zlen (configs sc))
    (Hget : getConfig sc n = Ret c) :
  ∃ sc', apply_log sc log = Ret sc' ∧ getConfig sc' n = Ret c ∧ Num c = n.
Proof.
  destruct (apply_log_spec sc log Hwf Hlog) as (sc' & -> & Hwf' & [k Hp] & _).
  apply getConfig_lookup in Hget; [|done..]. exists sc'. split; [done|]. split.
  - apply getConfig_lookup; [done| |].
    + rewrite Hp, zlen_app. pose proof (zlen_nonneg k). lia.
    + rewrite Hp. by apply lookup_app_l_Some.
  - destruct (cw_configs _ Hwf _ _ Hget) as [-> _ _]. lia.
Qed.

Lemma query_stable_witness :
  ∃ sc', @apply_log key_order_std StartServer [command_msg (Some join_op) 1] = Ret sc' ∧
    getConfig sc' 0 = Ret emptyConfig ∧ Num emptyConfig = 0.
Proof.
  apply (@query_stable key_order_std).
  - apply ctrl_wf_start.
  - repeat constructor; discriminate.
  - unfold zlen. simpl. lia.
  - reflexivity.
Defined.

(** C37: replicas that apply the same log reach the same state, whatever orders
    their runtimes enumerate maps in. *)
Theorem replicas_agree (KO1 KO2 : KeyOrder) (sc : server) (log : list (ApplyMsg Op)) :
  @apply_log KO1 sc log = @apply_log KO2 sc log.
Proof.
  revert sc. induction log as [|m log IH]; intros sc; [done|]. simpl.
  assert (∀ s op, @applyToStateMachine KO1 s op = @applyToStateMachine KO2 s op) as Hop.
  { intros s op. unfold applyToStateMachine, append_rebalanced.
    destruct (index _ _); [|done..]. rewrite !bind_Ret. cbn zeta.
    by rewrite !(rebalance_order_irrelevant KO1 KO2). }
  assert (@applyHandler KO1 sc m = @applyHandler KO2 sc m) as ->
    by (unfold applyHandler; by rewrite Hop).
  destruct (@applyHandler KO2 sc m); simpl; auto.
Qed.

(** a request is answered OK only by the entry of its own client and
    sequence number; on a timeout, a closed channel or a foreign entry the
    reply is ErrWrongLeader with [WrongLeader] set, and the clerk retries. *)
Theorem request_end_ok (sc : server) (args : CommandArgs) (ev : wake) (reply : CommandReply)
    (Hend : request_end sc args zeroReply ev = Ret reply) :
  (WrongLeader reply = false ↔ rErr reply = OK) ∧
  (rErr reply = OK → ∃ op, ev = WReceived (RValue op) ∧
     SeqNum op = ca_SeqNum args ∧ ClientID op = ca_ClientID args ∧
     (ArgsType op = QueryArgsType → ∃ c, getConfig sc (ca_Num args) = Ret c ∧ Num (rConfig reply) = Num c)).
Proof.
  unfold request_end in Hend. destruct ev as [|[|op|]]; try (injection Hend as <-; by split).
  case_test_in Hend; [|injection Hend as <-; by split].
  case_test_in Hend.
  - inv_bind Hend. injection Hend as <-. inv_bind Hb. inv_bind Hb. injection Hb as <-.
    simpl. split; [done|]. intros _. exists op. split_and!; [done|lia..|]. eauto.
  - rewrite bind_Ret in Hend. injection Hend as <-. split; [done|]. intros _.
    exists op. split_and!; [done|lia..|]. intros ?. lia.
Qed.

Definition query_args : CommandArgs := mkCommandArgs QueryArgsType ∅ [] 0 0 (-1) 2 42.

Lemma request_end_ok_witness :
  ∃ reply, request_end StartServer query_args zeroReply
             (WReceived (RValue (op_of_args query_args))) = Ret reply ∧
    (WrongLeader reply = false ↔ rErr reply = OK).
Proof.
  eexists. split; [vm_compute; reflexivity|].
  refine (proj1 (request_end_ok StartServer query_args
    (WReceived (RValue (op_of_args query_args))) _ _)). vm_compute. reflexivity.
Defined.

(** ** Duplicate detection *)

(** C40: the controller never records a sequence number it has applied: in every
    state reached by applying a log the recorded numbers are 0, so a valid
    Join that is committed twice (a clerk's retry) is applied twice and makes
    two configurations. *)
Theorem duplicate_join_applied {KO : KeyOrder} (log : list (ApplyMsg Op)) (op : Op) (i j : Z)
    (Hlog : Forall msg_valid log) (Hop : op_valid op)
    (Hjoin : ArgsType op = JoinArgsType) (Hseq : 0 < SeqNum op) :
  ∃ sc sc', apply_log StartServer log = Ret sc ∧
    apply_log sc [command_msg (Some op) i; command_msg (Some op) j] = Ret sc' ∧
    zlen (configs sc') = zlen (configs sc) + 2.
Proof.
  destruct (apply_log_spec StartServer log ctrl_wf_start Hlog) as (sc & Hsc & Hwf & _ & Hs).
  assert (∀ id, map_get 0 (clientSeq sc) id = 0) as Hz.
  { intros id. unfold map_get. destruct (clientSeq sc !! id) eqn:E; [|done].
    apply Hs in E as [E|E]; [|done]. cbn in E. by rewrite lookup_empty in E. }
  destruct (apply_join_grows sc op i Hwf Hop Hjoin Hseq Hz) as (sc1 & H1 & Hwf1 & Hz1 & Hl1).
  destruct (apply_join_grows sc1 op j Hwf1 Hop Hjoin Hseq Hz1) as (sc2 & H2 & _ & _ & Hl2).
  exists sc, sc2. split; [done|]. simpl. rewrite H1, bind_Ret, H2. split; [done|]. lia.
Qed.

Lemma duplicate_join_applied_witness :
  ∃ sc sc', @apply_log key_order_std StartServer [] = Ret sc ∧
    @apply_log key_order_std sc [command_msg (Some join_op) 1; command_msg (Some join_op) 2] = Ret sc' ∧
    zlen (configs sc') = zlen (configs sc) + 2.
Proof.
  apply (@duplicate_join_applied key_order_std []).
  - constructor.
  - split; [reflexivity | discriminate].
  - reflexivity.
  - reflexivity.
Defined.

(** two requests that wait on one channel (the same log index, handed out
    in two terms) cannot both clean up: the second [close] panics. *)
Theorem shared_wait_channel_panics (sc sc1 sc2 : server) (i ch : Z)
    (Hget : getWaitCh sc i = (sc1, ch)) (Hwf : ctrl_wf sc)
    (Hfirst : request_cleanup sc1 i ch = Ret sc2) :
  getWaitCh sc1 i = (sc1, ch) ∧ request_cleanup sc2 i ch = Panic PCloseClosed.
Proof.
  unfold getWaitCh in *. destruct (wait_get (waitChan sc) i) as [w c] eqn:Hw.
  injection Hget as <- <-. destruct (wait_get_wf _ i (cw_wait _ Hwf)) as [Hwf1 Hm].
  rewrite Hw in *. simpl in *. split.
  - unfold wait_get. by rewrite Hm.
  - unfold request_cleanup in *. inv_bind Hfirst. injection Hfirst as <-. simpl in *.
    erewrite wait_release_twice; [done| |done].
    destruct (ww_open _ Hwf1 _ _ Hm) as (? & -> & _). eauto.
Qed.

Lemma shared_wait_channel_panics_witness :
  ∃ sc1 sc2, getWaitCh StartServer 1 = (sc1, 0) ∧
    getWaitCh sc1 1 = (sc1, 0) ∧ request_cleanup sc2 1 0 = Panic PCloseClosed.
Proof.
  eexists _, _. split; [reflexivity|].
  eapply (shared_wait_channel_panics StartServer); [reflexivity|apply ctrl_wf_start|reflexivity].
Defined.
