(* ===== verification/Raft.v ===== *)
(** * One Raft peer (raft/raft.go)

    [Raft] is the peer's struct; each method that runs under [rf.mu] is a
    function from the struct to the struct (and its results), in [Go] where an
    index or a slice expression can panic.  A goroutine that releases the lock
    around an RPC is two functions, one for the part before the call and one
    for the part that handles the reply.  Clock readings are arguments; the
    messages sent on [applyCh] are results; the condition variable that wakes
    the applier carries no data and is left out. *)

From S2P Require Import Prelude Persister RaftApi.

Module Raft.

Inductive role := UNKNOWN | LEADER | FOLLOWER | CANDIDATE.

#[export] Instance role_eq_dec : EqDecision role.
Proof. solve_decision. Defined.

(** The RPC structs that do not mention commands. *)
Record RequestVoteArgs := mkRequestVoteArgs {
  rva_Term : Z;
  rva_CandidateId : Z;
  rva_LastLogIndex : Z;
  rva_LastLogTerm : Z
}.

Record RequestVoteReply := mkRequestVoteReply { rvr_Term : Z; rvr_VoteGranted : bool }.

Record InstallSnapshotArgs := mkInstallSnapshotArgs {
  isa_Term : Z;
  isa_LeaderId : Z;
  isa_LastIncludedIndex : Z;
  isa_LastIncludedTerm : Z;
  isa_Data : bytes
}.

Record InstallSnapshotReply := mkInstallSnapshotReply { isr_Term : Z }.

(** The field XLen of the struct is never written nor read. *)
Record AppendEntriesReply := mkAppendEntriesReply {
  aer_Term : Z;
  aer_Success : bool;
  aer_LogInconsistency : bool;
  aer_XTerm : Z;
  aer_XIndex : Z
}.

Section raft.
(** The type of commands, [interface{}] in the code; nil is [None]. *)
Context {C : Type}.

Record LogEntry := mkLogEntry { le_Term : Z; le_Command : option C; le_Index : Z }.

(** [LogEntry{}]. *)
Definition zeroEntry : LogEntry := mkLogEntry 0 None 0.

Record AppendEntriesArgs := mkAppendEntriesArgs {
  aea_Term : Z;
  aea_LeaderId : Z;
  aea_PrevLogIndex : Z;
  aea_PrevLogTerm : Z;
  aea_Entries : list LogEntry;
  aea_LeaderCommit : Z
}.

Record Raft := mkRaft {
  peers : Z;   (* len(rf.peers) *)
  me : Z;   (* this peer's index into peers[] *)
  dead : bool;   (* set by Kill() *)
  persister : Persister;   (* persisted state *)
  lastTimeHeared : Z;   (* last time the peer heard from the leader *)
  state : role;
  Log : list LogEntry;   (* Log[0] stands for the last snapshotted entry *)
  currentTerm : Z;
  votedFor : Z;   (* -1: none *)
  commitIndex : Z;   (* highest index known committed *)
  lastApplied : Z;   (* highest index applied *)
  getVotesNum : Z;   (* votes counted as candidate *)
  nextIndex : list Z;   (* per peer, next index to send *)
  matchIndex : list Z;   (* per peer, highest index known replicated *)
  lastIncludedIndex : Z;
  lastIncludedTerm : Z;
  snapShot : bytes
}.

(** Assignments to the fields of [*rf]. *)
Definition set_dead (v : bool) (rf : Raft) : Raft :=
  mkRaft (peers rf) (me rf) v (persister rf) (lastTimeHeared rf) (state rf) (Log rf)
    (currentTerm rf) (votedFor rf) (commitIndex rf) (lastApplied rf) (getVotesNum rf)
    (nextIndex rf) (matchIndex rf) (lastIncludedIndex rf) (lastIncludedTerm rf)
    (snapShot rf).
Definition set_persister (v : Persister) (rf : Raft) : Raft :=
  mkRaft (peers rf) (me rf) (dead rf) v (lastTimeHeared rf) (state rf) (Log rf)
    (currentTerm rf) (votedFor rf) (commitIndex rf) (lastApplied rf) (getVotesNum rf)
    (nextIndex rf) (matchIndex rf) (lastIncludedIndex rf) (lastIncludedTerm rf)
    (snapShot rf).
Definition set_lastTimeHeared (v : Z) (rf : Raft) : Raft :=
  mkRaft (peers rf) (me rf) (dead rf) (persister rf) v (state rf) (Log rf)
    (currentTerm rf) (votedFor rf) (commitIndex rf) (lastApplied rf) (getVotesNum rf)
    (nextIndex rf) (matchIndex rf) (lastIncludedIndex rf) (lastIncludedTerm rf)
    (snapShot rf).
Definition set_state (v : role) (rf : Raft) : Raft :=
  mkRaft (peers rf) (me rf) (dead rf) (persister rf) (lastTimeHeared rf) v (Log rf)
    (currentTerm rf) (votedFor rf) (commitIndex rf) (lastApplied rf) (getVotesNum rf)
    (nextIndex rf) (matchIndex rf) (lastIncludedIndex rf) (lastIncludedTerm rf)
    (snapShot rf).
Definition set_Log (v : list LogEntry) (rf : Raft) : Raft :=
  mkRaft (peers rf) (me rf) (dead rf) (persister rf) (lastTimeHeared rf) (state rf) v
    (currentTerm rf) (votedFor rf) (commitIndex rf) (lastApplied rf) (getVotesNum rf)
    (nextIndex rf) (matchIndex rf) (lastIncludedIndex rf) (lastIncludedTerm rf)
    (snapShot rf).
Definition set_currentTerm (v : Z) (rf : Raft) : Raft :=
  mkRaft (peers rf) (me rf) (dead rf) (persister rf) (lastTimeHeared rf) (state rf)
    (Log rf) v (votedFor rf) (commitIndex rf) (lastApplied rf) (getVotesNum rf)
    (nextIndex rf) (matchIndex rf) (lastIncludedIndex rf) (lastIncludedTerm rf)
    (snapShot rf).
Definition set_votedFor (v : Z) (rf : Raft) : Raft :=
  mkRaft (peers rf) (me rf) (dead rf) (persister rf) (lastTimeHeared rf) (state rf)
    (Log rf) (currentTerm rf) v (commitIndex rf) (lastApplied rf) (getVotesNum rf)
    (nextIndex rf) (matchIndex rf) (lastIncludedIndex rf) (lastIncludedTerm rf)
    (snapShot rf).
Definition set_commitIndex (v : Z) (rf : Raft) : Raft :=
  mkRaft (peers rf) (me rf) (dead rf) (persister rf) (lastTimeHeared rf) (state rf)
    (Log rf) (currentTerm rf) (votedFor rf) v (lastApplied rf) (getVotesNum rf)
    (nextIndex rf) (matchIndex rf) (lastIncludedIndex rf) (lastIncludedTerm rf)
    (snapShot rf).
Definition set_lastApplied (v : Z) (rf : Raft) : Raft :=
  mkRaft (peers rf) (me rf) (dead rf) (persister rf) (lastTimeHeared rf) (state rf)
    (Log rf) (currentTerm rf) (votedFor rf) (commitIndex rf) v (getVotesNum rf)
    (nextIndex rf) (matchIndex rf) (lastIncludedIndex rf) (lastIncludedTerm rf)
    (snapShot rf).
Definition set_getVotesNum (v : Z) (rf : Raft) : Raft :=
  mkRaft (peers rf) (me rf) (dead rf) (persister rf) (lastTimeHeared rf) (state rf)
    (Log rf) (currentTerm rf) (votedFor rf) (commitIndex rf) (lastApplied rf) v
    (nextIndex rf) (matchIndex rf) (lastIncludedIndex rf) (lastIncludedTerm rf)
    (snapShot rf).
Definition set_nextIndex (v : list Z) (rf : Raft) : Raft :=
  mkRaft (peers rf) (me rf) (dead rf) (persister rf) (lastTimeHeared rf) (state rf)
    (Log rf) (currentTerm rf) (votedFor rf) (commitIndex rf) (lastApplied rf)
    (getVotesNum rf) v (matchIndex rf) (lastIncludedIndex rf) (lastIncludedTerm rf)
    (snapShot rf).
Definition set_matchIndex (v : list Z) (rf : Raft) : Raft :=
  mkRaft (peers rf) (me rf) (dead rf) (persister rf) (lastTimeHeared rf) (state rf)
    (Log rf) (currentTerm rf) (votedFor rf) (commitIndex rf) (lastApplied rf)
    (getVotesNum rf) (nextIndex rf) v (lastIncludedIndex rf) (lastIncludedTerm rf)
    (snapShot rf).
Definition set_lastIncludedIndex (v : Z) (rf : Raft) : Raft :=
  mkRaft (peers rf) (me rf) (dead rf) (persister rf) (lastTimeHeared rf) (state rf)
    (Log rf) (currentTerm rf) (votedFor rf) (commitIndex rf) (lastApplied rf)
    (getVotesNum rf) (nextIndex rf) (matchIndex rf) v (lastIncludedTerm rf) (snapShot
    rf).
Definition set_lastIncludedTerm (v : Z) (rf : Raft) : Raft :=
  mkRaft (peers rf) (me rf) (dead rf) (persister rf) (lastTimeHeared rf) (state rf)
    (Log rf) (currentTerm rf) (votedFor rf) (commitIndex rf) (lastApplied rf)
    (getVotesNum rf) (nextIndex rf) (matchIndex rf) (lastIncludedIndex rf) v (snapShot
    rf).
Definition set_snapShot (v : bytes) (rf : Raft) : Raft :=
  mkRaft (peers rf) (me rf) (dead rf) (persister rf) (lastTimeHeared rf) (state rf)
    (Log rf) (currentTerm rf) (votedFor rf) (commitIndex rf) (lastApplied rf)
    (getVotesNum rf) (nextIndex rf) (matchIndex rf) (lastIncludedIndex rf)
    (lastIncludedTerm rf) v.

(** ** Reading the log *)
Definition getRealLogIndex (rf : Raft) (logicalIndex : Z) : Z :=
  logicalIndex - lastIncludedIndex rf.

(** exist, index, term *)
Definition getLogAt (rf : Raft) (realIndex : Z) : Go (bool * Z * Z) :=
  if zlen (Log rf) <=? realIndex then mret (false, -1, -1)
  else if realIndex =? 0 then mret (true, lastIncludedIndex rf, lastIncludedTerm rf)
  else e ← index (Log rf) realIndex;
       mret (true, lastIncludedIndex rf + realIndex, le_Term e).

Definition getLastLogIndex (rf : Raft) : Go Z :=
  '(_, i, _) ← getLogAt rf (zlen (Log rf) - 1); mret i.

Definition getLastLogTerm (rf : Raft) : Go Z :=
  '(_, _, t) ← getLogAt rf (zlen (Log rf) - 1); mret t.

Definition NeedEmptyLogEntry (rf : Raft) : Go bool :=
  '(_, _, term) ← getLogAt rf (zlen (Log rf) - 1);
  mret (bool_decide (state rf = LEADER) && negb (term =? currentTerm rf)).

(** [for i = realIndex; i > 0 && rf.Log[i-1].Term == sameTerm; i--]. *)
Fixpoint sameTermLoop (log : list LogEntry) (sameTerm : Z) (i : nat) : Go Z :=
  match i with
  | O => mret 0
  | S i' =>
      e ← index log (Z.of_nat i');
      if le_Term e =? sameTerm then sameTermLoop log sameTerm i' else mret (Z.of_nat i)
  end.

Definition getSameTermFirst (rf : Raft) (realIndex : Z) : Go Z :=
  if realIndex =? 0 then mret 0
  else '(_, _, sameTerm) ← getLogAt rf realIndex;
       sameTermLoop (Log rf) sameTerm (Z.to_nat realIndex).

(** ** Counting replicas *)

(** The first position whose term is the current one, by default the last. *)
Fixpoint firstCurrentTerm (rf : Raft) (n : nat) (i : Z) : Go Z :=
  match n with
  | O => mret (zlen (Log rf) - 1)
  | S n' =>
      '(_, idx, term) ← getLogAt rf i;
      if term =? currentTerm rf then mret (idx - lastIncludedIndex rf)
      else firstCurrentTerm rf n' (i + 1)
  end.

(** [replica] starts at one, for the leader itself. *)
Definition countMatching (rf : Raft) (i : Z) : Go Z :=
  foldl (λ acc j,
           replica ← acc;
           if j =? me rf then mret replica
           else mi ← index (matchIndex rf) j;
                mret (if i + lastIncludedIndex rf <=? mi then replica + 1 else replica))
        (Ret 1) (seqZ 0 (peers rf)).

(** The downward scan; [fuel] bounds the positions visited. *)
Fixpoint commitScan (rf : Raft) (fuel : nat) (i realIndexStart : Z) : Go Z :=
  match fuel with
  | O => NoFuel
  | S fuel' =>
      if (commitIndex rf <? i + lastIncludedIndex rf) && (realIndexStart <=? i) then
        replica ← countMatching rf i;
        if Z.quot (peers rf) 2 <? replica then mret (i + lastIncludedIndex rf)
        else commitScan rf fuel' (i - 1) realIndexStart
      else mret (commitIndex rf)
  end.

Definition countReplica (rf : Raft) : Go Z :=
  lastTerm ← getLastLogTerm rf;
  if negb (lastTerm =? currentTerm rf) then
    mret (if commitIndex rf <=? lastIncludedIndex rf then lastIncludedIndex rf else commitIndex rf)
  else
    realIndexStart ← firstCurrentTerm rf (length (Log rf)) 0;
    N ← commitScan rf (S (length (Log rf))) (zlen (Log rf) - 1) realIndexStart;
    mret (if N <? lastIncludedIndex rf then lastIncludedIndex rf else N).

(** ** Persistence *)
Context `{Codec (Z * Z * list LogEntry * Z * Z)}.

Definition getStatePersistData (rf : Raft) : bytes :=
  gob_encode (currentTerm rf, votedFor rf, Log rf, lastIncludedIndex rf, lastIncludedTerm rf).

Definition persist (rf : Raft) : Raft :=
  set_persister (SaveRaftState (persister rf) (getStatePersistData rf)) rf.

Definition readPersist (rf : Raft) (data : bytes) : Raft :=
  if zlen data <? 1 then rf
  else match gob_decode data with
       | None => rf
       | Some (term, voted, log, lii, lit) =>
           set_commitIndex lii (set_lastApplied lii (set_lastIncludedTerm lit
             (set_lastIncludedIndex lii (set_Log log (set_votedFor voted
               (set_currentTerm term rf))))))
       end.

Definition GetStateSize (rf : Raft) : Z := RaftStateSize (persister rf).

Definition GetSnapshot (rf : Raft) : bytes := ReadSnapshot (persister rf).

(** ** Changes of role *)
Definition LeaderState (rf : Raft) : Go Raft :=
  foldl (λ acc i,
           rf ← acc;
           last ← getLastLogIndex rf;
           ni ← set_index (nextIndex rf) i (last + 1);
           mi ← set_index (matchIndex rf) i (-1);
           mret (set_matchIndex mi (set_nextIndex ni rf)))
        (Ret (set_state LEADER rf)) (seqZ 0 (peers rf)).

Definition FollowerState (newTerm : Z) (rf : Raft) : Raft :=
  persist (set_getVotesNum 0 (set_votedFor (-1) (set_currentTerm newTerm (set_state FOLLOWER rf)))).

Definition CandidateState (rf : Raft) : Raft :=
  persist (set_getVotesNum 1 (set_votedFor (me rf)
    (set_currentTerm (currentTerm rf + 1) (set_state CANDIDATE rf)))).

Definition GetState (rf : Raft) : Z * bool :=
  (currentTerm rf, bool_decide (state rf = LEADER)).

(** ** Snapshots *)

(** The downward search for the entry a snapshot ends with; by default the
    whole log is trimmed. *)
Fixpoint trimScan (rf : Raft) (lit lii : Z) (n : nat) : Go Z :=
  match n with
  | O => mret (zlen (Log rf))
  | S i =>
      '(_, entryIndex, entryTerm) ← getLogAt rf (Z.of_nat i);
      if (entryTerm =? lit) && (entryIndex =? lii) then mret (Z.of_nat i + 1)
      else trimScan rf lit lii i
  end.

Definition CondInstallSnapshot (rf : Raft) (lit lii : Z) (snap : bytes) : Go (Raft * bool) :=
  if lii <=? commitIndex rf then mret (rf, false)
  else
    trimIndex ← trimScan rf lit lii (length (Log rf));
    newLogTail ← slice_from (Log rf) trimIndex;
    let rf1 := set_lastIncludedTerm lit (set_lastIncludedIndex lii
                 (set_Log ([zeroEntry] ++ newLogTail) rf)) in
    let rf2 := if commitIndex rf1 <? lii then set_commitIndex lii rf1 else rf1 in
    let rf3 := if lastApplied rf2 <? lii then set_lastApplied lii rf2 else rf2 in
    mret (set_persister (SaveStateAndSnapshot (persister rf3) (getStatePersistData rf3) snap) rf3,
          true).

(** The upward search for the entry at [i]: entryIndex, entryTerm, realIndex.
    When no entry has that index the first two are the last entry's and
    realIndex keeps its zero value. *)
Fixpoint snapshotScan (rf : Raft) (target : Z) (n : nat) (i entryIndex entryTerm : Z)
  : Go (Z * Z * Z) :=
  match n with
  | O => mret (entryIndex, entryTerm, 0)
  | S n' =>
      '(_, ei, et) ← getLogAt rf i;
      if ei =? target then mret (ei, et, i)
      else snapshotScan rf target n' (i + 1) ei et
  end.

Definition Snapshot (rf : Raft) (target : Z) (snap : bytes) : Go Raft :=
  if target <=? lastIncludedIndex rf then mret rf
  else
    '(entryIndex, entryTerm, realIndex) ← snapshotScan rf target (length (Log rf)) 0 0 0;
    let rf1 := set_lastIncludedTerm entryTerm (set_lastIncludedIndex entryIndex rf) in
    let rf2 := if lastApplied rf1 <? target then set_lastApplied target rf1 else rf1 in
    let rf3 := if commitIndex rf2 <? target then set_commitIndex target rf2 else rf2 in
    rest ← slice_from (Log rf3) (realIndex + 1);
    let rf4 := set_Log ([zeroEntry] ++ rest) rf3 in
    mret (set_persister (SaveStateAndSnapshot (persister rf4) (getStatePersistData rf4) snap) rf4).

(** ** RPC handlers *)

Definition upToDate (args : RequestVoteArgs) (lastIndex lastTerm : Z) : bool :=
  (lastTerm <? rva_LastLogTerm args) ||
  ((rva_LastLogTerm args =? lastTerm) && (lastIndex <=? rva_LastLogIndex args)).

Definition RequestVote (rf : Raft) (args : RequestVoteArgs) (now : Z)
  : Go (Raft * RequestVoteReply) :=
  let rf1 := if currentTerm rf <? rva_Term args then FollowerState (rva_Term args) rf else rf in
  if rva_Term args <? currentTerm rf1 then
    mret (persist rf1, mkRequestVoteReply (currentTerm rf1) false)
  else
    currentLastLogIndex ← getLastLogIndex rf1;
    currentLastLogTerm ← getLastLogTerm rf1;
    if ((votedFor rf1 =? -1) || (votedFor rf1 =? rva_CandidateId args))
       && upToDate args currentLastLogIndex currentLastLogTerm then
      mret (set_lastTimeHeared now (persist (set_votedFor (rva_CandidateId args) rf1)),
            mkRequestVoteReply (currentTerm rf1) true)
    else mret (rf1, mkRequestVoteReply (currentTerm rf1) false).

(** Cuts the log at the first entry whose term differs from the new one's. *)
Fixpoint cutConflicts (entries log : list LogEntry) (j : Z) : Go (list LogEntry * bool) :=
  match entries with
  | [] => mret (log, false)
  | e :: entries' =>
      if j <? zlen log then
        l ← index log j;
        if negb (le_Term e =? le_Term l) then log' ← slice_to log j; mret (log', true)
        else cutConflicts entries' log (j + 1)
      else mret (log, false)
  end.

(** Appends the entries that lie beyond the end of the log. *)
Fixpoint appendMissing (entries log : list LogEntry) (pos : Z) (needPersist : bool)
  : list LogEntry * bool :=
  match entries with
  | [] => (log, needPersist)
  | e :: entries' =>
      if zlen log <=? pos then appendMissing entries' (log ++ [e]) (pos + 1) true
      else appendMissing entries' log (pos + 1) needPersist
  end.

Definition AppendEntries (rf : Raft) (args : AppendEntriesArgs) (now : Z)
  : Go (Raft * AppendEntriesReply) :=
  let rf1 := if (currentTerm rf <? aea_Term args)
                || ((aea_Term args =? currentTerm rf) && bool_decide (state rf = CANDIDATE))
             then FollowerState (aea_Term args) rf else rf in
  if aea_Term args <? currentTerm rf1 then
    mret (rf1, mkAppendEntriesReply (currentTerm rf1) false false 0 0)
  else
    let rf2 := set_lastTimeHeared now rf1 in
    let firstLogIndex := lastIncludedIndex rf2 in
    lastLogIndex ← getLastLogIndex rf2;
    if aea_PrevLogIndex args <? firstLogIndex then
      mret (rf2, mkAppendEntriesReply (currentTerm rf2) false true (-1) (firstLogIndex + 1))
    else
      let realIndex := if lastLogIndex <? aea_PrevLogIndex args then 0
                       else aea_PrevLogIndex args - lastIncludedIndex rf2 in
      '(contains, _, prevTerm) ←
        (if lastLogIndex <? aea_PrevLogIndex args then mret (false, 0, 0)
         else getLogAt rf2 realIndex);
      if negb contains || negb (prevTerm =? aea_PrevLogTerm args) then
        if negb contains then
          mret (rf2, mkAppendEntriesReply (currentTerm rf2) false true (-1) (lastLogIndex + 1))
        else
          first ← getSameTermFirst rf2 realIndex;
          mret (rf2, mkAppendEntriesReply (currentTerm rf2) false true prevTerm
                       (first + lastIncludedIndex rf2))
      else
        '(log1, cut) ← cutConflicts (aea_Entries args) (Log rf2) (realIndex + 1);
        let startAppendIndex := realIndex + 1 in
        let '(log2, needPersist) :=
          if zlen log1 <=? startAppendIndex then (log1 ++ aea_Entries args, true)
          else appendMissing (aea_Entries args) log1 startAppendIndex cut in
        let rf3 := set_Log log2 rf2 in
        let rf4 := if needPersist then persist rf3 else rf3 in
        let rf5 := if commitIndex rf4 <? aea_LeaderCommit args then
                     set_commitIndex (if aea_LeaderCommit args <? lastLogIndex
                                      then aea_LeaderCommit args else lastLogIndex) rf4
                   else rf4 in
        mret (rf5, mkAppendEntriesReply (currentTerm rf5) true false 0 0).

(** The snapshot is handed to the service by a goroutine of its own: the third
    component is the message that goroutine sends on [applyCh]. *)
Definition InstallSnapshot (rf : Raft) (args : InstallSnapshotArgs) (now : Z)
  : Raft * InstallSnapshotReply * option (ApplyMsg C) :=
  if isa_Term args <? currentTerm rf then
    (rf, mkInstallSnapshotReply (currentTerm rf), None)
  else
    let rf1 := if currentTerm rf <? isa_Term args then FollowerState (isa_Term args) rf else rf in
    let rf2 := set_lastTimeHeared now rf1 in
    if isa_LastIncludedIndex args <=? commitIndex rf2 then
      (rf2, mkInstallSnapshotReply (currentTerm rf2), None)
    else
      (set_snapShot (isa_Data args) rf2, mkInstallSnapshotReply (currentTerm rf2),
       Some (snapshot_msg (isa_Data args) (isa_LastIncludedTerm args) (isa_LastIncludedIndex args))).

(** ** The leader's side *)

Definition handleLogInconsistency_scan (rf : Raft) (xterm xindex : Z) : nat → Go Z :=
  fix go n :=
    match n with
    | O | S O => mret xindex
    | S i =>
        '(_, entryIndex, entryTerm) ← getLogAt rf (Z.of_nat i);
        if entryTerm =? xterm then mret (entryIndex + 1) else go i
    end.

Definition handleLogInconsistency (rf : Raft) (i : Z) (reply : AppendEntriesReply) : Go Raft :=
  if aer_XTerm reply =? -1 then
    ni ← set_index (nextIndex rf) i (aer_XIndex reply);
    n ← index ni i;
    m ← index (matchIndex rf) i;
    if n <=? m then ni' ← set_index ni i (m + 1); mret (set_nextIndex ni' rf)
    else mret (set_nextIndex ni rf)
  else
    target ← handleLogInconsistency_scan rf (aer_XTerm reply) (aer_XIndex reply) (length (Log rf));
    ni ← set_index (nextIndex rf) i target;
    mret (set_nextIndex ni rf).

(** What the per-peer goroutine of [leaderAppendEntries] sends. *)
Inductive outgoing :=
| SendSnapshot (args : InstallSnapshotArgs)
| SendEntries (args : AppendEntriesArgs)
| SendNothing.

(** The message for a peer whose next index is [next], from the log; a round of
    messages brings the leader's own entries of the two arrays up to date. *)
Definition prepare_entries (rf : Raft) (next : Z) : Go (Raft * outgoing) :=
  '(_, _, entryTerm) ← getLogAt rf (getRealLogIndex rf (next - 1));
  last ← getLastLogIndex rf;
  entries ← (if next <=? last then slice_from (Log rf) (getRealLogIndex rf next) else mret []);
  ni ← set_index (nextIndex rf) (me rf) (last + 1);
  mi ← set_index (matchIndex rf) (me rf) last;
  let rf1 := set_matchIndex mi (set_nextIndex ni rf) in
  if bool_decide (state rf = LEADER) then
    mret (rf1, SendEntries (mkAppendEntriesArgs (currentTerm rf) (me rf) (next - 1) entryTerm
                              entries (commitIndex rf)))
  else mret (rf1, SendNothing).

(** Up to the RPC. *)
Definition leader_prepare (rf : Raft) (i : Z) : Go (Raft * outgoing) :=
  next ← index (nextIndex rf) i;
  if next - 1 <? lastIncludedIndex rf then
    if bool_decide (state rf = LEADER) then
      mret (rf, SendSnapshot (mkInstallSnapshotArgs (currentTerm rf) (me rf)
                                (lastIncludedIndex rf) (lastIncludedTerm rf)
                                (ReadSnapshot (persister rf))))
    else mret (rf, SendNothing)
  else prepare_entries rf next.

(** The reply to InstallSnapshot; [ok] is whether the call went through. *)
Definition handle_install_reply (rf : Raft) (i : Z) (args : InstallSnapshotArgs) (ok : bool)
    (reply : InstallSnapshotReply) : Go Raft :=
  if currentTerm rf <? isr_Term reply then mret (FollowerState (isr_Term reply) rf)
  else if negb (bool_decide (state rf = LEADER)) then mret rf
  else if negb ok then mret rf
  else
    rf1 ← (if isr_Term reply =? currentTerm rf then
             m ← index (matchIndex rf) i;
             if m <=? isa_LastIncludedIndex args then
               mi ← set_index (matchIndex rf) i (isa_LastIncludedIndex args);
               m' ← index mi i;
               ni ← set_index (nextIndex rf) i (m' + 1);
               mret (set_nextIndex ni (set_matchIndex mi rf))
             else mret rf
           else mret rf);
    n ← countReplica rf1;
    mret (set_commitIndex n rf1).

(** The reply to AppendEntries, when the call went through. *)
Definition handle_append_reply (rf : Raft) (i : Z) (args : AppendEntriesArgs)
    (reply : AppendEntriesReply) : Go Raft :=
  if currentTerm rf <? aer_Term reply then mret (FollowerState (aer_Term reply) rf)
  else if negb (bool_decide (state rf = LEADER)) || negb (currentTerm rf =? aea_Term args)
  then mret rf
  else
    rf1 ← (if aer_Success reply then
             mi ← set_index (matchIndex rf) i (aea_PrevLogIndex args + zlen (aea_Entries args));
             m ← index mi i;
             ni ← set_index (nextIndex rf) i (m + 1);
             mret (set_nextIndex ni (set_matchIndex mi rf))
           else if aer_LogInconsistency reply then handleLogInconsistency rf i reply
           else mret rf);
    n ← countReplica rf1;
    mret (set_commitIndex n rf1).

(** ** Elections *)

(** The arguments every peer is sent. *)
Definition candidateRequestVote (rf : Raft) : Go RequestVoteArgs :=
  lastIndex ← getLastLogIndex rf;
  lastTerm ← getLastLogTerm rf;
  mret (mkRequestVoteArgs (currentTerm rf) (me rf) lastIndex lastTerm).

(** The reply to RequestVote, when the call went through. *)
Definition handle_vote_reply (rf : Raft) (args : RequestVoteArgs) (reply : RequestVoteReply)
  : Go Raft :=
  if currentTerm rf <? rvr_Term reply then mret (FollowerState (rvr_Term reply) rf)
  else if negb (bool_decide (state rf = CANDIDATE)) || negb (currentTerm rf =? rva_Term args)
  then mret rf
  else if (rvr_Term reply =? currentTerm rf) && bool_decide (state rf = CANDIDATE)
          && rvr_VoteGranted reply then
    let rf1 := set_getVotesNum (getVotesNum rf + 1) rf in
    if Z.quot (peers rf1) 2 <? getVotesNum rf1 then LeaderState rf1 else mret rf1
  else mret rf.

(** One pass of [ticker]: [randTime] is the election timeout in force; [None]
    when no election is started. *)
Definition ticker (rf : Raft) (now randTime : Z) : Go (Raft * option RequestVoteArgs) :=
  if bool_decide (state rf = LEADER) then mret (rf, None)
  else if now - lastTimeHeared rf <? randTime then mret (rf, None)
  else
    let rf1 := CandidateState (set_lastTimeHeared now rf) in
    args ← candidateRequestVote rf1;
    mret (rf1, Some args).

(** One pass of [heartBeat]: does the peer start a round of AppendEntries? *)
Definition heartBeat (rf : Raft) : bool := bool_decide (state rf = LEADER).

(** ** The interface to the service *)
Definition Start (rf : Raft) (command : C) : Go (Raft * (Z * Z * bool)) :=
  if dead rf then mret (rf, (-1, -1, false))
  else
    last ← getLastLogIndex rf;
    if negb (bool_decide (state rf = LEADER)) then mret (rf, (-1, -1, false))
    else
      let entry := mkLogEntry (currentTerm rf) (Some command)
                     (lastIncludedIndex rf + zlen (Log rf)) in
      mret (persist (set_Log (Log rf ++ [entry]) rf), (last + 1, currentTerm rf, true)).

Definition Kill (rf : Raft) : Raft := set_dead true rf.

Definition killed (rf : Raft) : bool := dead rf.

(** The exported form. *)
Definition Killed (rf : Raft) : bool := dead rf.

(** One pass of [applyChecker]: the messages it sends and the commit index it
    then records; [None] while there is nothing to apply. *)
Definition applyChecker_take (rf : Raft) : Go (option (list (ApplyMsg C) * Z)) :=
  if commitIndex rf <=? lastApplied rf then mret None
  else
    entries ← slice (Log rf) (lastApplied rf + 1 - lastIncludedIndex rf)
                             (commitIndex rf + 1 - lastIncludedIndex rf);
    mret (Some (map (λ e, command_msg (le_Command e) (le_Index e)) entries, commitIndex rf)).

Definition applyChecker_done (rf : Raft) (commit : Z) : Raft :=
  if lastApplied rf <? commit then set_lastApplied commit rf else rf.

(** [Make]: a new peer, with the state that was persisted, if any. *)
Definition Make (npeers id : Z) (ps : Persister) (now : Z) : Raft :=
  let rf := mkRaft npeers id false ps now FOLLOWER [zeroEntry] 0 (-1) 0 0 0
              (replicate (Z.to_nat npeers) 1) (replicate (Z.to_nat npeers) 0) 0 0 [] in
  readPersist rf (ReadRaftState ps).

End raft.
Arguments LogEntry : clear implicits.
Arguments Raft : clear implicits.
Arguments AppendEntriesArgs : clear implicits.
Arguments outgoing : clear implicits.

End Raft.
