(* ===== verification/RaftLog.v ===== *)
(** * The log of a Raft peer: well-formedness and the functions that read it

    [raft_wf] is the invariant of a peer: the log starts with the stand-in for
    the last snapshotted entry, the entries carry consecutive indices and
    non-decreasing terms, and
    lastIncludedIndex <= lastApplied <= commitIndex <= last index.  Under it
    the readers of the log do not panic and mean what their names say. *)

From S2P Require Import Prelude Persister RaftApi Raft.
Import Raft.

Section log.
Context {C : Type}.
Implicit Types (rf : Raft C) (l : list (LogEntry C)).

(** The term of the entry at a position of the log; position 0 stands for the
    last entry of the snapshot. *)
Definition term_at rf (i : nat) : Z :=
  match i with
  | O => lastIncludedTerm rf
  | S _ => match Log rf !! i with Some e => le_Term e | None => -1 end
  end.

Definition last_index rf : Z := lastIncludedIndex rf + zlen (Log rf) - 1.
Definition last_term rf : Z := term_at rf (length (Log rf) - 1).

(** The logical entry at an index above the snapshot. *)
Definition entry_at rf (i : Z) : option (LogEntry C) :=
  if lastIncludedIndex rf <? i then Log rf !! Z.to_nat (i - lastIncludedIndex rf) else None.

(** The part that concerns the log and the terms. *)
Record log_wf rf : Prop := {
  lw_nonempty : Log rf ≠ [];
  lw_index : ∀ i e, (0 < i)%nat → Log rf !! i = Some e →
               le_Index e = lastIncludedIndex rf + Z.of_nat i;
  lw_sorted : ∀ i j, (i ≤ j < length (Log rf))%nat → term_at rf i ≤ term_at rf j;
  lw_lit : 0 ≤ lastIncludedTerm rf;
  lw_bound : last_term rf ≤ currentTerm rf
}.

Record raft_wf rf : Prop := {
  rw_log : log_wf rf;
  rw_next : zlen (nextIndex rf) = peers rf;
  rw_match : zlen (matchIndex rf) = peers rf;
  rw_me : 0 ≤ me rf < peers rf;
  rw_lii : 0 ≤ lastIncludedIndex rf ≤ lastApplied rf;
  rw_applied : lastApplied rf ≤ commitIndex rf;
  rw_commit : commitIndex rf ≤ last_index rf
}.

Lemma log_length rf : log_wf rf → (0 < length (Log rf))%nat.
Proof. intros [Hne _ _ _ _]. destruct (Log rf); [done|]. simpl. lia. Qed.

Lemma log_zlen rf : log_wf rf → 0 < zlen (Log rf).
Proof. intros Hw%log_length. unfold zlen. lia. Qed.

Lemma term_at_bound rf i : log_wf rf → (i < length (Log rf))%nat → term_at rf i ≤ currentTerm rf.
Proof.
  intros Hw Hi. etrans; [|apply (lw_bound _ Hw)]. apply (lw_sorted _ Hw). lia.
Qed.

Lemma term_at_nonneg rf i : log_wf rf → (i < length (Log rf))%nat → 0 ≤ term_at rf i.
Proof.
  intros Hw Hi. etrans; [apply (lw_lit _ Hw)|]. apply (lw_sorted _ Hw 0). lia.
Qed.

Lemma getLogAt_in rf (i : nat) :
  (i < length (Log rf))%nat →
  getLogAt rf (Z.of_nat i) = Ret (true, lastIncludedIndex rf + Z.of_nat i, term_at rf i).
Proof.
  intros Hi. unfold getLogAt, zlen. case_test; [lia|]. case_test.
  - destruct i; [|lia]. simpl. by rewrite Z.add_0_r.
  - destruct (lookup_lt_is_Some_2 (Log rf) i Hi) as [e He].
    rewrite (proj2 (index_Ret _ _ e)) by (rewrite Nat2Z.id; split; [lia|done]).
    destruct i; [lia|]. unfold term_at. by rewrite He.
Qed.

Lemma getLogAt_Z rf i :
  0 ≤ i < zlen (Log rf) →
  getLogAt rf i = Ret (true, lastIncludedIndex rf + i, term_at rf (Z.to_nat i)).
Proof.
  intros Hi. rewrite <- (Z2Nat.id i) at 1 by lia. rewrite getLogAt_in by (unfold zlen in Hi; lia).
  by rewrite Z2Nat.id by lia.
Qed.

Lemma getLogAt_out rf i : zlen (Log rf) ≤ i → getLogAt rf i = Ret (false, -1, -1).
Proof. intros Hi. unfold getLogAt. case_test; [done|lia]. Qed.

Lemma getLastLogIndex_raw rf : 0 < zlen (Log rf) → getLastLogIndex rf = Ret (last_index rf).
Proof.
  intros Hz. unfold getLastLogIndex, last_index.
  rewrite getLogAt_Z by lia. simpl. do 2 f_equal. lia.
Qed.

Lemma getLastLogIndex_eq rf : log_wf rf → getLastLogIndex rf = Ret (last_index rf).
Proof. intros Hw. by apply getLastLogIndex_raw, log_zlen. Qed.

Lemma getLastLogTerm_eq rf : log_wf rf → getLastLogTerm rf = Ret (last_term rf).
Proof.
  intros Hw. pose proof (log_zlen rf Hw). unfold getLastLogTerm, last_term.
  rewrite getLogAt_Z by lia. simpl. do 2 f_equal. unfold zlen. lia.
Qed.

Lemma last_index_ge rf : log_wf rf → lastIncludedIndex rf ≤ last_index rf.
Proof. intros Hw%log_zlen. unfold last_index. lia. Qed.

(** ** The first position of a run of equal terms *)
Lemma sameTermLoop_spec l t (i : nat) :
  (i ≤ length l)%nat →
  ∃ j : nat, sameTermLoop l t i = Ret (Z.of_nat j) ∧ (j ≤ i)%nat ∧
    (∀ k e, (j ≤ k < i)%nat → l !! k = Some e → le_Term e = t) ∧
    (∀ e, (0 < j)%nat → l !! (j - 1)%nat = Some e → le_Term e ≠ t).
Proof.
  induction i as [|i IH]; intros Hi; cbn [sameTermLoop].
  - exists 0%nat. split_and!; [done|lia|lia|lia].
  - destruct (lookup_lt_is_Some_2 l i ltac:(lia)) as [e He].
    rewrite (proj2 (index_Ret _ _ e)) by (rewrite Nat2Z.id; split; [lia|done]).
    rewrite bind_Ret. case_test.
    + destruct IH as (j & -> & Hj & Hrun & Hfirst); [lia|]. exists j.
      split_and!; [done|lia| |done]. intros k e' Hk He'.
      destruct (decide (k = i)) as [->|]; [by simplify_eq|]. apply (Hrun k); [lia|done].
    + exists (S i). split_and!; [done|lia|lia|]. intros e' _.
      replace (S i - 1)%nat with i by lia. intros ?. by simplify_eq.
Qed.

(** [getSameTermFirst] returns the start of the run of the entry's term. *)
Lemma getSameTermFirst_spec rf (i : nat) :
  (0 < i < length (Log rf))%nat →
  ∃ j : nat, getSameTermFirst rf (Z.of_nat i) = Ret (Z.of_nat j) ∧ (j ≤ i)%nat ∧
    (∀ k e, (j ≤ k < i)%nat → Log rf !! k = Some e → le_Term e = term_at rf i) ∧
    (∀ e, (0 < j)%nat → Log rf !! (j - 1)%nat = Some e → le_Term e ≠ term_at rf i).
Proof.
  intros Hi. unfold getSameTermFirst. case_test; [lia|].
  rewrite getLogAt_in by lia. rewrite bind_Ret, Nat2Z.id. apply sameTermLoop_spec. lia.
Qed.

(** ** Counting replicas *)

(** The peers other than the leader whose [matchIndex] reaches [n]. *)
Definition matching rf (n : Z) : list Z :=
  filter (λ j, j ≠ me rf ∧ n ≤ nth (Z.to_nat j) (matchIndex rf) 0) (seqZ 0 (peers rf)).

Lemma countMatching_eq rf i :
  zlen (matchIndex rf) = peers rf →
  countMatching rf i = Ret (1 + zlen (matching rf (i + lastIncludedIndex rf))).
Proof.
  intros Hm. unfold countMatching, matching.
  assert (∀ (js : list Z) a, Forall (λ j, 0 ≤ j < peers rf) js →
    foldl (λ acc j, replica ← acc;
             if j =? me rf then mret replica
             else mi ← index (matchIndex rf) j;
                  mret (if i + lastIncludedIndex rf <=? mi then replica + 1 else replica))
          (Ret a) js =
    Ret (a + zlen (filter (λ j, j ≠ me rf ∧
           i + lastIncludedIndex rf ≤ nth (Z.to_nat j) (matchIndex rf) 0) js))) as Hl.
  { induction js as [|j js IH]; intros a Hj; [simpl; by rewrite Z.add_0_r|].
    apply Forall_cons in Hj as [Hj Hl]. cbn [foldl]. rewrite bind_Ret, filter_cons.
    destruct (Z.eqb_spec j (me rf)) as [->|Hne].
    - rewrite decide_False by tauto. by apply IH.
    - destruct (index_safe (matchIndex rf) j ltac:(lia)) as [x Hx]. rewrite Hx, bind_Ret.
      apply index_Ret in Hx as [_ Hx]. rewrite (nth_lookup_Some _ _ _ _ Hx).
      change (mret (M:=Go)) with (@Ret Z). case_test.
      + rewrite decide_True by done. rewrite IH, zlen_cons by done. f_equal. lia.
      + rewrite decide_False by lia. by apply IH. }
  apply Hl, Forall_forall. intros j Hj%elem_of_seqZ. lia.
Qed.

(** The first position of the current term. *)
Lemma firstCurrentTerm_spec rf n (i : nat) :
  (i + n = length (Log rf))%nat →
  (∀ k, (k < i)%nat → term_at rf k ≠ currentTerm rf) →
  ∃ s : Z, firstCurrentTerm rf n (Z.of_nat i) = Ret s ∧
    ((s = zlen (Log rf) - 1 ∧ ∀ k, (k < length (Log rf))%nat → term_at rf k ≠ currentTerm rf) ∨
     (∃ k : nat, s = Z.of_nat k ∧ (k < length (Log rf))%nat ∧ term_at rf k = currentTerm rf ∧
       ∀ k', (k' < k)%nat → term_at rf k' ≠ currentTerm rf)).
Proof.
  revert i. induction n as [|n IH]; intros i Hi Hbefore; cbn [firstCurrentTerm].
  - eexists. split; [done|]. left. split; [done|]. intros k Hk. apply Hbefore. lia.
  - rewrite getLogAt_in by lia. rewrite bind_Ret. case_test.
    + eexists. split; [done|]. right. exists i. split_and!; [lia|lia|done|done].
    + replace (Z.of_nat i + 1) with (Z.of_nat (S i)) by lia. apply IH; [lia|].
      intros k Hk. destruct (decide (k = i)) as [->|]; [done|]. apply Hbefore. lia.
Qed.

(** What a commit decision means: a majority (the leader included) has it. *)
Definition majority_at rf (n : Z) : Prop :=
  Z.quot (peers rf) 2 < 1 + zlen (matching rf n).

#[global] Instance majority_at_dec rf n : Decision (majority_at rf n).
Proof. unfold majority_at. apply _. Defined.

(** The scan returns the highest index of its range that a majority has, or
    the old commit index. *)
Lemma commitScan_spec rf fuel i s :
  zlen (matchIndex rf) = peers rf → 0 ≤ s → -1 ≤ i → i + 1 < Z.of_nat fuel →
  ∃ n, commitScan rf fuel i s = Ret n ∧
    ((n = commitIndex rf ∧ ∀ k, s ≤ k ≤ i → commitIndex rf < k + lastIncludedIndex rf →
                             ¬ majority_at rf (k + lastIncludedIndex rf)) ∨
     (commitIndex rf < n ∧ s + lastIncludedIndex rf ≤ n ≤ i + lastIncludedIndex rf ∧
      majority_at rf n ∧ ∀ k, n < k ≤ i + lastIncludedIndex rf → ¬ majority_at rf k)).
Proof.
  intros Hm Hs. revert i. induction fuel as [|fuel IH]; intros i Hi0 Hi; [simpl in Hi; lia|].
  cbn [commitScan]. case_test.
  - rewrite countMatching_eq by done. rewrite bind_Ret. case_test.
    + exists (i + lastIncludedIndex rf). split; [done|]. right.
      split_and!; [lia|lia|lia|done|]. intros k Hk. lia.
    + assert (¬ majority_at rf (i + lastIncludedIndex rf)) as Hno by (unfold majority_at; lia).
      destruct (IH (i - 1)) as (n & -> & Hn); [lia..|]. exists n. split; [done|].
      destruct Hn as [[-> Hn]|(? & ? & ? & Hn)]; [left|right].
      * split; [done|]. intros k Hk Hc. destruct (decide (k = i)) as [->|]; [done|].
        apply Hn; [lia|done].
      * split_and!; [done|lia|lia|done|]. intros k Hk.
        destruct (decide (k = i + lastIncludedIndex rf)) as [->|]; [done|]. apply Hn. lia.
  - exists (commitIndex rf). split; [done|]. left. split; [done|]. intros k Hk Hc. lia.
Qed.

(** The specification of [countReplica]: unchanged, or the highest index of the
    current term that a majority holds. *)
Lemma countReplica_spec rf :
  raft_wf rf →
  ∃ n, countReplica rf = Ret n ∧ commitIndex rf ≤ n ≤ last_index rf ∧
    (commitIndex rf < n → majority_at rf n ∧
       term_at rf (Z.to_nat (n - lastIncludedIndex rf)) = currentTerm rf) ∧
    (∀ k, n < k ≤ last_index rf →
       term_at rf (Z.to_nat (k - lastIncludedIndex rf)) = currentTerm rf → ¬ majority_at rf k).
Proof.
  intros Hwf. destruct (Hwf) as [Hl Hnx Hm Hme Hlii Happ Hc].
  pose proof (log_zlen rf Hl) as Hz. unfold countReplica. rewrite getLastLogTerm_eq, bind_Ret by done.
  assert (∀ k, lastIncludedIndex rf ≤ k ≤ last_index rf →
    (Z.to_nat (k - lastIncludedIndex rf) < length (Log rf))%nat) as Hpos
    by (unfold last_index, zlen; lia).
  case_test.
  - eexists. split; [done|].
    replace (if commitIndex rf <=? lastIncludedIndex rf then lastIncludedIndex rf
             else commitIndex rf) with (commitIndex rf) by (case_test; lia).
    split_and!; [lia|lia|lia|]. intros k Hk Ht. exfalso.
    apply Htest. apply Z.le_antisymm; [apply (lw_bound _ Hl)|]. rewrite <- Ht.
    unfold last_term. apply (lw_sorted _ Hl). specialize (Hpos k ltac:(lia)). lia.
  - destruct (firstCurrentTerm_spec rf (length (Log rf)) 0 ltac:(lia) ltac:(lia)) as (s & Hs0 & Hs).
    change (Z.of_nat 0) with 0 in Hs0. rewrite Hs0. clear Hs0.
    rewrite bind_Ret.
    assert (∃ k : nat, s = Z.of_nat k ∧ (k < length (Log rf))%nat ∧ term_at rf k = currentTerm rf ∧
       ∀ k', (k' < k)%nat → term_at rf k' ≠ currentTerm rf) as (k0 & -> & Hk0 & Ht0 & Hmin).
    { destruct Hs as [[_ Hnone]|Hs]; [|done]. exfalso.
      apply (Hnone (length (Log rf) - 1)%nat); [unfold zlen in Hz; lia|done]. }
    destruct (commitScan_spec rf (S (length (Log rf))) (zlen (Log rf) - 1) (Z.of_nat k0))
      as (n & -> & Hn); [done|lia|lia|unfold zlen; lia|]. rewrite bind_Ret.
    eexists. split; [done|].
    replace (if n <? lastIncludedIndex rf then lastIncludedIndex rf else n) with n
      by (case_test; destruct Hn as [[-> _]|Hn]; lia).
    assert (∀ k, Z.of_nat k0 + lastIncludedIndex rf ≤ k ≤ last_index rf →
      term_at rf (Z.to_nat (k - lastIncludedIndex rf)) = currentTerm rf) as Hrun.
    { intros k Hk. specialize (Hpos k ltac:(lia)). apply Z.le_antisymm.
      - by apply term_at_bound.
      - rewrite <- Ht0. apply (lw_sorted _ Hl). lia. }
    unfold last_index in *. destruct Hn as [[-> Hn]|(Hgt & Hr & Hmaj & Hn)].
    + split_and!; [lia|lia|lia|]. intros k Hk Ht Hmaj.
      apply (Hn (k - lastIncludedIndex rf)); [|lia|by replace (k - _ + _) with k by lia].
      split; [|lia]. destruct (decide (Z.of_nat k0 ≤ k - lastIncludedIndex rf)); [done|].
      exfalso. apply (Hmin (Z.to_nat (k - lastIncludedIndex rf))); [lia|done].
    + split_and!; [lia|lia| |].
      * intros _. split; [done|]. apply Hrun. lia.
      * intros k Hk _. apply Hn. lia.
Qed.
End log.
