(* ===== verification/RaftAppend.v ===== *)
(** * AppendEntries: how a follower's log changes

    The handler cuts the log at the first conflicting entry and then appends
    what is missing, with two loops over indices.  [merge] is the reference
    definition of the combined effect, and [log_update_merge] the equivalence. *)

From S2P Require Import Prelude Persister RaftApi Raft RaftLog.
Import Raft.

Section merge.
Context {C : Type}.
Implicit Types (pre rest es log : list (LogEntry C)).

(** The reference: keep the log while terms agree, then take the new entries. *)
Fixpoint merge rest es {struct es} : list (LogEntry C) :=
  match es, rest with
  | [], _ => rest
  | _, [] => es
  | e :: es', l :: rest' =>
      if le_Term e =? le_Term l then l :: merge rest' es' else es
  end.

(** What the conflict loop leaves after the common prefix. *)
Fixpoint keep rest es {struct es} : list (LogEntry C) * bool :=
  match es, rest with
  | [], _ => (rest, false)
  | _, [] => ([], false)
  | e :: es', l :: rest' =>
      if le_Term e =? le_Term l
      then let '(k, cut) := keep rest' es' in (l :: k, cut) else ([], true)
  end.

Lemma cutConflicts_keep es pre rest :
  cutConflicts es (pre ++ rest) (zlen pre) = Ret (pre ++ (keep rest es).1, (keep rest es).2).
Proof.
  revert pre rest. induction es as [|e es IH]; intros pre rest; [done|].
  cbn [cutConflicts]. destruct rest as [|l rest].
  - rewrite app_nil_r, Z.ltb_irrefl. simpl. by rewrite app_nil_r.
  - case_test; [|exfalso; zlen_lia].
    rewrite (proj2 (index_Ret _ _ l)).
    2: { unfold zlen. rewrite Nat2Z.id. split; [lia|]. by apply list_lookup_middle. }
    rewrite bind_Ret. simpl. destruct (Z.eqb_spec (le_Term e) (le_Term l)); simpl.
    + replace (zlen pre + 1) with (zlen (pre ++ [l])) by zlen_lia.
      replace (pre ++ l :: rest) with ((pre ++ [l]) ++ rest) by by rewrite <- app_assoc.
      rewrite IH, <- app_assoc. simpl. by destruct (keep rest es).
    + rewrite slice_to_Ret by zlen_lia. unfold zlen. rewrite Nat2Z.id, take_app_length.
      simpl. by rewrite app_nil_r.
Qed.

Lemma appendMissing_app es log (n : nat) b :
  appendMissing es log (zlen log - Z.of_nat n) b =
  (log ++ drop n es, b || bool_decide (n < length es)%nat).
Proof.
  revert log n b. induction es as [|e es IH]; intros log n b.
  - simpl. rewrite drop_nil, app_nil_r, orb_comm. done.
  - cbn [appendMissing]. case_test.
    + assert (n = 0%nat) as -> by lia. specialize (IH (log ++ [e]) 0%nat true).
      replace (zlen log - Z.of_nat 0 + 1) with (zlen (log ++ [e]) - Z.of_nat 0) by zlen_lia.
      rewrite IH, <- app_assoc, !drop_0. simpl. by rewrite orb_comm.
    + destruct n as [|n]; [lia|]. specialize (IH log n b).
      replace (zlen log - Z.of_nat (S n) + 1) with (zlen log - Z.of_nat n) by lia.
      rewrite IH. simpl. do 2 f_equal. apply bool_decide_ext. lia.
Qed.

Lemma keep_merge rest es :
  (keep rest es).1 ++ drop (length (keep rest es).1) es = merge rest es ∧
  ((keep rest es).2 = false → (length es ≤ length (keep rest es).1)%nat → merge rest es = rest).
Proof.
  revert rest. induction es as [|e es IH]; intros [|l rest]; simpl.
  - done.
  - by rewrite ?drop_nil, app_nil_r.
  - split; [done|lia].
  - case_test; [|by split]. destruct (IH rest) as [IH1 IH2].
    destruct (keep rest es) as [k cut]. simpl in *. split.
    + by rewrite IH1.
    + intros ? ?. rewrite IH2; [done..|lia].
Qed.

(** The log the handler computes, from the position after the matched entry. *)
Definition log_update es log1 (cut : bool) (start : Z) : list (LogEntry C) * bool :=
  if zlen log1 <=? start then (log1 ++ es, true) else appendMissing es log1 start cut.

(** Equivalence with the reference; when the handler decides not to persist,
    the log has not changed. *)
Lemma log_update_merge es pre rest :
  ∃ log1 cut log2 np,
    cutConflicts es (pre ++ rest) (zlen pre) = Ret (log1, cut) ∧
    log_update es log1 cut (zlen pre) = (log2, np) ∧
    log2 = pre ++ merge rest es ∧ (np = false → log2 = pre ++ rest).
Proof.
  rewrite cutConflicts_keep. destruct (keep_merge rest es) as [Hm Hsame].
  destruct (keep rest es) as [k cut]. simpl in *.
  destruct (log_update es (pre ++ k) cut (zlen pre)) as [log2 np] eqn:Hu.
  exists (pre ++ k), cut, log2, np. split; [done|]. split; [done|].
  unfold log_update in Hu. case_test_in Hu.
  - assert (k = []) as -> by (destruct k; [done|zlen_lia]). rewrite app_nil_r in Hu.
    injection Hu as <- <-. rewrite <- Hm. simpl. by rewrite drop_0.
  - replace (zlen pre) with (zlen (pre ++ k) - Z.of_nat (length k)) in Hu
      by (unfold zlen; rewrite length_app; lia).
    rewrite appendMissing_app, <- app_assoc, Hm in Hu. injection Hu as <- <-. split; [done|].
    intros [-> Hn%bool_decide_eq_false]%orb_false_iff. rewrite Hsame; [done..|lia].
Qed.

(** ** Properties of the reference *)
Lemma merge_terms rest es k e :
  es !! k = Some e → ∃ x, merge rest es !! k = Some x ∧ le_Term x = le_Term e.
Proof.
  revert rest k. induction es as [|e' es IH]; intros rest k; [done|].
  destruct rest as [|l rest]; [by eauto|]. simpl. case_test; [|by eauto].
  destruct k as [|k]; simpl; [|by apply IH]. intros [= ->]. eauto.
Qed.

Lemma merge_elem rest es k x :
  merge rest es !! k = Some x → rest !! k = Some x ∨ es !! k = Some x.
Proof.
  revert rest k. induction es as [|e es IH]; intros [|l rest] k; simpl; try by eauto.
  case_test; [|by eauto]. destruct k as [|k]; simpl; [by eauto|]. apply IH.
Qed.

(** Either nothing changed, or the terms are those of the new entries and the
    old tail was shorter or conflicted somewhere. *)
Lemma merge_cases rest es :
  merge rest es = rest ∨
  (le_Term <$> merge rest es = le_Term <$> es ∧
   ((length rest ≤ length es)%nat ∨
    ∃ k e l, es !! k = Some e ∧ rest !! k = Some l ∧ le_Term e ≠ le_Term l)).
Proof.
  revert rest. induction es as [|e es IH]; intros [|l rest]; simpl.
  - by left.
  - by left.
  - right. split; [done|]. left. lia.
  - case_test.
    + destruct (IH rest) as [->|[Ht Hc]]; [by left|right]. split.
      * rewrite !fmap_cons, Ht. by f_equal.
      * destruct Hc as [?|(k & e' & l' & ? & ? & ?)]; [left; lia|right]. by exists (S k), e', l'.
    + right. split; [done|]. right. by exists 0%nat, e, l.
Qed.

Lemma merge_length rest es : (length es ≤ length (merge rest es))%nat.
Proof.
  destruct (decide (length es ≤ length (merge rest es))%nat) as [|Hn]; [done|exfalso].
  destruct (lookup_lt_is_Some_2 es (length (merge rest es)) ltac:(lia)) as [e He].
  apply (merge_terms rest) in He as (x & Hx & _). apply lookup_lt_Some in Hx. lia.
Qed.
End merge.

(** ** The messages a leader sends, and the follower's new log *)
Section handler.
Context {C : Type} `{Codec (Z * Z * list (LogEntry C) * Z * Z)}.
Implicit Types (rf : Raft C) (args : AppendEntriesArgs C).

(** The entries of a message continue the entry before them, and the leader
    has committed nothing beyond them. *)
Record append_args_wf args : Prop := {
  aw_index : ∀ k e, aea_Entries args !! k = Some e →
               le_Index e = aea_PrevLogIndex args + 1 + Z.of_nat k;
  aw_prev : ∀ k e, aea_Entries args !! k = Some e → aea_PrevLogTerm args ≤ le_Term e;
  aw_sorted : ∀ j k e e', (j ≤ k)%nat → aea_Entries args !! j = Some e →
                aea_Entries args !! k = Some e' → le_Term e ≤ le_Term e';
  aw_term : ∀ k e, aea_Entries args !! k = Some e → le_Term e ≤ aea_Term args;
  aw_commit : aea_LeaderCommit args ≤ aea_PrevLogIndex args + zlen (aea_Entries args)
}.

(** No entry of the message contradicts an entry the follower has committed. *)
Definition respects_commit rf args : Prop :=
  ∀ k e l, aea_Entries args !! k = Some e →
    entry_at rf (aea_PrevLogIndex args + 1 + Z.of_nat k) = Some l →
    aea_PrevLogIndex args + 1 + Z.of_nat k ≤ commitIndex rf → le_Term e = le_Term l.

(** The follower holds the entry before the message's. *)
Definition prev_matches rf args : Prop :=
  lastIncludedIndex rf ≤ aea_PrevLogIndex args ≤ last_index rf ∧
  term_at rf (Z.to_nat (aea_PrevLogIndex args - lastIncludedIndex rf)) = aea_PrevLogTerm args.

#[global] Instance prev_matches_dec rf args : Decision (prev_matches rf args).
Proof. unfold prev_matches. apply _. Defined.

(** The log after a matching message. *)
Definition merged_log rf args : list (LogEntry C) :=
  let n := Z.to_nat (aea_PrevLogIndex args - lastIncludedIndex rf + 1) in
  take n (Log rf) ++ merge (drop n (Log rf)) (aea_Entries args).

(** The state in which the handler examines the log. *)
Definition append_enter rf args (now : Z) : Raft C :=
  set_lastTimeHeared now
    (if (currentTerm rf <? aea_Term args)
        || ((aea_Term args =? currentTerm rf) && bool_decide (state rf = CANDIDATE))
     then FollowerState (aea_Term args) rf else rf).

(** The commit index after a matching message: the handler compares with the
    last index the log had before the message. *)
Definition follower_commit rf args : Z :=
  if commitIndex rf <? aea_LeaderCommit args
  then Z.min (aea_LeaderCommit args) (last_index rf) else commitIndex rf.

(** The handler's state when it accepts a message. *)
Definition append_accept rf args (now : Z) (np : bool) : Raft C :=
  let rf3 := set_Log (merged_log rf args) (append_enter rf args now) in
  set_commitIndex (follower_commit rf args) (if np then persist rf3 else rf3).

Lemma append_enter_fields rf args now :
  let rf2 := append_enter rf args now in
  Log rf2 = Log rf ∧ lastIncludedIndex rf2 = lastIncludedIndex rf ∧
  lastIncludedTerm rf2 = lastIncludedTerm rf ∧ commitIndex rf2 = commitIndex rf ∧
  lastApplied rf2 = lastApplied rf ∧ peers rf2 = peers rf ∧ me rf2 = me rf ∧
  nextIndex rf2 = nextIndex rf ∧ matchIndex rf2 = matchIndex rf.
Proof. unfold append_enter. simpl. by case_test. Qed.

Lemma append_enter_term rf args now :
  currentTerm rf ≤ aea_Term args → currentTerm (append_enter rf args now) = aea_Term args.
Proof. intros Ht. unfold append_enter. simpl. case_test; simpl; [done|]. lia. Qed.

Lemma term_at_ext rf rf' i :
  Log rf' = Log rf → lastIncludedTerm rf' = lastIncludedTerm rf → term_at rf' i = term_at rf i.
Proof. intros Hl Ht. unfold term_at. by rewrite Hl, Ht. Qed.

Lemma set_commitIndex_same rf v : v = commitIndex rf → set_commitIndex v rf = rf.
Proof. intros ->. by destruct rf. Qed.

Lemma getSameTermFirst_bounds rf i :
  0 ≤ i < zlen (Log rf) → ∃ j, getSameTermFirst rf i = Ret j ∧ 0 ≤ j ≤ i.
Proof.
  intros Hi. destruct (Z.eq_dec i 0) as [->|Hne]; [exists 0; by split|].
  destruct (getSameTermFirst_spec rf (Z.to_nat i)) as (j & Hj & Hle & _).
  { unfold zlen in Hi. lia. }
  rewrite Z2Nat.id in Hj by lia. exists (Z.of_nat j). split; [done|lia].
Qed.

(** The reply to a message that does not match. *)
Definition mismatch_reply rf args (reply : AppendEntriesReply) : Prop :=
  aer_Term reply = aea_Term args ∧ aer_Success reply = false ∧ aer_LogInconsistency reply = true ∧
  (aer_XTerm reply = -1 → aea_PrevLogIndex args < lastIncludedIndex rf ∧
       aer_XIndex reply = lastIncludedIndex rf + 1 ∨
     last_index rf < aea_PrevLogIndex args ∧ aer_XIndex reply = last_index rf + 1) ∧
  (aer_XTerm reply ≠ -1 →
     aer_XTerm reply = term_at rf (Z.to_nat (aea_PrevLogIndex args - lastIncludedIndex rf)) ∧
     aer_XTerm reply ≠ aea_PrevLogTerm args ∧
     lastIncludedIndex rf ≤ aer_XIndex reply ≤ aea_PrevLogIndex args ≤ last_index rf).

(** The handler on every branch: a stale message, one whose previous entry the
    follower does not hold, and one it accepts. *)
Lemma AppendEntries_cases rf args now :
  log_wf rf →
  ∃ rf' reply, AppendEntries rf args now = Ret (rf', reply) ∧
   ((aea_Term args < currentTerm rf ∧ rf' = rf ∧
     reply = mkAppendEntriesReply (currentTerm rf) false false 0 0) ∨
    (currentTerm rf ≤ aea_Term args ∧ ¬ prev_matches rf args ∧
     rf' = append_enter rf args now ∧ mismatch_reply rf args reply) ∨
    (currentTerm rf ≤ aea_Term args ∧ prev_matches rf args ∧
     reply = mkAppendEntriesReply (aea_Term args) true false 0 0 ∧
     ∃ np, rf' = append_accept rf args now np ∧ (np = false → merged_log rf args = Log rf))).
Proof.
  intros Hw. unfold AppendEntries.
  destruct (Z.ltb_spec (aea_Term args) (currentTerm rf)) as [Hlt|Hge].
  { rewrite (proj2 (Z.ltb_ge (currentTerm rf) _)) by lia.
    rewrite (proj2 (Z.eqb_neq (aea_Term args) _)) by lia. simpl.
    rewrite (proj2 (Z.ltb_lt _ _)) by done. eexists _, _. split; [done|]. left. done. }
  set (rf1 := if _ || _ then _ else _).
  assert (currentTerm rf1 = aea_Term args) as Ht1.
  { pose proof (append_enter_term rf args now Hge) as He. exact He. }
  rewrite Ht1, Z.ltb_irrefl.
  change (set_lastTimeHeared now rf1) with (append_enter rf args now).
  destruct (append_enter_fields rf args now) as (HL & HI & HT & HC & _).
  set (rf2 := append_enter rf args now) in *.
  assert (currentTerm rf2 = aea_Term args) as Ht2 by by apply append_enter_term.
  assert (last_index rf2 = last_index rf) as Hli by (unfold last_index; by rewrite HL, HI).
  assert (getLastLogIndex rf2 = Ret (last_index rf)) as ->.
  { rewrite <- Hli. apply getLastLogIndex_raw. rewrite HL. by apply log_zlen. }
  rewrite bind_Ret, HI, Ht2. pose proof (last_index_ge rf Hw) as Hge'.
  destruct (Z.ltb_spec (aea_PrevLogIndex args) (lastIncludedIndex rf)) as [Hp|Hp].
  { eexists _, _. split; [done|]. right; left. split_and!; [done|unfold prev_matches; lia|done|].
    split_and!; simpl; [done..| |]. all: intros ?; lia. }
  destruct (Z.ltb_spec (last_index rf) (aea_PrevLogIndex args)) as [Hp2|Hp2].
  { rewrite bind_Ret. simpl. eexists _, _. split; [done|]. right; left.
    split_and!; [done|unfold prev_matches; lia|done|]. split_and!; simpl; [done..| |]. all: intros ?; lia. }
  set (r := aea_PrevLogIndex args - lastIncludedIndex rf) in *.
  assert (0 ≤ r < zlen (Log rf)) as Hr by (unfold r, last_index in *; lia).
  rewrite getLogAt_Z by (rewrite HL; lia). rewrite bind_Ret. cbn [negb orb].
  rewrite (term_at_ext rf rf2) by done.
  destruct (Z.eqb_spec (term_at rf (Z.to_nat r)) (aea_PrevLogTerm args)) as [Heq|Hne]; cbn [negb].
  - assert (prev_matches rf args) as Hpm by (unfold prev_matches; fold r; lia).
    destruct (log_update_merge (aea_Entries args) (take (Z.to_nat (r + 1)) (Log rf))
                (drop (Z.to_nat (r + 1)) (Log rf))) as (log1 & cut & log2 & np & H1 & H2 & Hm & Hnp).
    rewrite take_drop in H1. rewrite zlen_take, Z2Nat.id, Z.min_l in H1, H2 by lia.
    rewrite HL, H1, bind_Ret. unfold log_update in H2. rewrite H2.
    eexists _, _. split; [done|]. right; right. split_and!; [done..| |].
    { f_equal. repeat case_test; simpl; done. }
    exists np. unfold append_accept, merged_log. fold r rf2. rewrite <- Hm. split.
    + unfold follower_commit.
      assert (commitIndex (if np then persist (set_Log log2 rf2) else set_Log log2 rf2) =
              commitIndex rf) as -> by (destruct np; done).
      case_test.
      * f_equal. case_test; lia.
      * rewrite set_commitIndex_same; [done|]. destruct np; done.
    + intros Hf. rewrite Hnp by done. apply take_drop.
  - destruct (getSameTermFirst_bounds rf2 r) as (j & -> & Hj); [by rewrite HL|].
    rewrite bind_Ret. eexists _, _. split; [done|]. right; left.
    split_and!; [done| |done|].
    + unfold prev_matches. fold r. intros [_ ?]. done.
    + pose proof (term_at_nonneg rf (Z.to_nat r) Hw ltac:(unfold zlen in Hr; lia)).
      split_and!; simpl; [done..|lia|]. fold r. intros _. split_and!; [done..|lia|lia|lia].
Qed.
End handler.
