(* ===== verification/RaftSteps.v ===== *)
(** * Everything that can happen to a Raft peer, and what stays true

    [event] enumerates the critical sections of raft/raft.go, [run] executes
    one.  Every event keeps the invariant [raft_wf] and does not panic, and
    leaves on stable storage what a restart needs ([durable]). *)

From S2P Require Import Prelude Persister RaftApi Raft RaftLog RaftAppend.
Import Raft.

Section steps.
Context {C : Type} `{Codec (Z * Z * list (LogEntry C) * Z * Z)}.
Implicit Types (rf : Raft C).

Inductive event :=
| EvVote (args : RequestVoteArgs) (now : Z)
| EvAppend (args : AppendEntriesArgs C) (now : Z)
| EvInstall (args : InstallSnapshotArgs) (now : Z)
| EvTick (now randTime : Z)
| EvVoteReply (args : RequestVoteArgs) (reply : RequestVoteReply)
| EvPrepare (i : Z)
| EvAppendReply (i : Z) (args : AppendEntriesArgs C) (reply : AppendEntriesReply)
| EvInstallReply (i : Z) (args : InstallSnapshotArgs) (ok : bool) (reply : InstallSnapshotReply)
| EvStart (c : C)
| EvCondInstall (lit lii : Z) (snap : bytes)
| EvSnapshot (target : Z) (snap : bytes)
| EvTake
| EvDone (commit : Z)
| EvKill.

Definition run rf (ev : event) : Go (Raft C) :=
  match ev with
  | EvVote args now => r ← RequestVote rf args now; mret r.1
  | EvAppend args now => r ← AppendEntries rf args now; mret r.1
  | EvInstall args now => mret (InstallSnapshot rf args now).1.1
  | EvTick now randTime => r ← ticker rf now randTime; mret r.1
  | EvVoteReply args reply => handle_vote_reply rf args reply
  | EvPrepare i => r ← leader_prepare rf i; mret r.1
  | EvAppendReply i args reply => handle_append_reply rf i args reply
  | EvInstallReply i args ok reply => handle_install_reply rf i args ok reply
  | EvStart c => r ← Start rf c; mret r.1
  | EvCondInstall lit lii snap => r ← CondInstallSnapshot rf lit lii snap; mret r.1
  | EvSnapshot target snap => Snapshot rf target snap
  | EvTake => _ ← applyChecker_take rf; mret rf
  | EvDone commit => mret (applyChecker_done rf commit)
  | EvKill => mret (Kill rf)
  end.

(** What each event is given: peers are addressed by their number, a message of
    a leader is well formed and respects what is committed here, a snapshot
    offered by the leader is not from a later term, the service snapshots what
    was committed, and the applier records an index it took. *)
Definition event_ok rf (ev : event) : Prop :=
  match ev with
  | EvAppend args _ =>
      currentTerm rf ≤ aea_Term args → append_args_wf args ∧ respects_commit rf args
  | EvPrepare i | EvAppendReply i _ _ | EvInstallReply i _ _ _ => 0 ≤ i < peers rf
  | EvCondInstall lit _ _ => 0 ≤ lit ≤ currentTerm rf
  | EvSnapshot target _ => target ≤ commitIndex rf
  | EvDone commit => commit ≤ commitIndex rf
  | _ => True
  end.

(** ** Frames *)
Lemma log_wf_frame rf rf' :
  Log rf' = Log rf → lastIncludedIndex rf' = lastIncludedIndex rf →
  lastIncludedTerm rf' = lastIncludedTerm rf → currentTerm rf ≤ currentTerm rf' →
  log_wf rf → log_wf rf'.
Proof.
  intros HL HI HT Hc [Hne Hidx Hs Hlit Hb].
  assert (∀ i, term_at rf' i = term_at rf i) as Hta by (intros; by apply term_at_ext).
  split; rewrite ?HL, ?HI, ?HT; try done.
  - intros i j Hij. rewrite !Hta. auto.
  - unfold last_term. rewrite Hta, HL. unfold last_term in Hb. lia.
Qed.

Lemma last_index_frame rf rf' :
  Log rf' = Log rf → lastIncludedIndex rf' = lastIncludedIndex rf →
  last_index rf' = last_index rf.
Proof. intros HL HI. unfold last_index. by rewrite HL, HI. Qed.

Lemma raft_wf_frame rf rf' :
  Log rf' = Log rf → lastIncludedIndex rf' = lastIncludedIndex rf →
  lastIncludedTerm rf' = lastIncludedTerm rf → currentTerm rf ≤ currentTerm rf' →
  peers rf' = peers rf → me rf' = me rf →
  zlen (nextIndex rf') = zlen (nextIndex rf) → zlen (matchIndex rf') = zlen (matchIndex rf) →
  lastApplied rf ≤ lastApplied rf' → lastApplied rf' ≤ commitIndex rf' →
  commitIndex rf' ≤ last_index rf →
  raft_wf rf → raft_wf rf'.
Proof.
  intros HL HI HT Hc Hp Hm Hn Hmi Ha1 Ha2 Hcm [Hw Hnx Hmt Hme Hl Ha Hcl].
  split; rewrite ?HI, ?Hp, ?Hm, ?Hn, ?Hmi; try done.
  - by eapply log_wf_frame.
  - lia.
  - by rewrite (last_index_frame rf).
Qed.

(** Closes the premises of the frame lemmas that hold by computation. *)
Ltac frame rf := apply (raft_wf_frame rf); simpl; first [reflexivity|done|lia|idtac].

Lemma FollowerState_wf rf t : currentTerm rf ≤ t → raft_wf rf → raft_wf (FollowerState t rf).
Proof. intros Ht Hw. pose proof Hw as [_ _ _ _ ? ? ?]. frame rf. Qed.

Lemma append_enter_wf rf args now :
  currentTerm rf ≤ aea_Term args → raft_wf rf → raft_wf (append_enter rf args now).
Proof.
  intros Ht Hw. pose proof Hw as [_ _ _ _ ? ? ?]. unfold append_enter. case_test; frame rf.
Qed.

Lemma set_index_len (l : list Z) i x : 0 ≤ i < zlen l →
  ∃ l', set_index l i x = Ret l' ∧ zlen l' = zlen l ∧ l' = <[Z.to_nat i := x]> l.
Proof. intros Hi. eexists. rewrite set_index_Ret by done. split; [done|]. by rewrite zlen_insert. Qed.

(** ** Elections *)
Lemma RequestVote_wf rf args now :
  raft_wf rf → ∃ rf' reply, RequestVote rf args now = Ret (rf', reply) ∧ raft_wf rf'.
Proof.
  intros Hw. unfold RequestVote.
  set (rf1 := if currentTerm rf <? rva_Term args then _ else _).
  assert (raft_wf rf1) as Hw1.
  { unfold rf1. case_test; [|done]. apply FollowerState_wf; [lia|done]. }
  pose proof Hw1 as [Hl1 _ _ _ ? ? ?]. case_test.
  - eexists _, _. split; [done|]. frame rf1.
  - rewrite getLastLogIndex_eq, bind_Ret, getLastLogTerm_eq, bind_Ret by done.
    case_test; eexists _, _; (split; [done|]); [frame rf1|done].
Qed.

Lemma LeaderState_spec rf :
  raft_wf rf → ∃ ni mi, LeaderState rf = Ret (set_matchIndex mi (set_nextIndex ni (set_state LEADER rf))) ∧
    zlen ni = zlen (nextIndex rf) ∧ zlen mi = zlen (matchIndex rf) ∧
    (∀ i, 0 ≤ i < peers rf → ni !! Z.to_nat i = Some (last_index rf + 1) ∧ mi !! Z.to_nat i = Some (-1)).
Proof.
  intros Hw. pose proof Hw as [Hl Hn Hm _ _ _ _]. pose proof (log_zlen rf Hl) as Hz.
  unfold LeaderState.
  assert (∀ n : nat, Z.of_nat n ≤ peers rf →
    ∃ ni mi, foldl (λ acc i, rf ← acc; last ← getLastLogIndex rf;
           ni ← set_index (nextIndex rf) i (last + 1); mi ← set_index (matchIndex rf) i (-1);
           mret (set_matchIndex mi (set_nextIndex ni rf)))
        (Ret (set_state LEADER rf)) (seqZ 0 (Z.of_nat n)) =
      Ret (set_matchIndex mi (set_nextIndex ni (set_state LEADER rf))) ∧
      zlen ni = zlen (nextIndex rf) ∧ zlen mi = zlen (matchIndex rf) ∧
      ∀ i, 0 ≤ i < Z.of_nat n → ni !! Z.to_nat i = Some (last_index rf + 1) ∧
                                mi !! Z.to_nat i = Some (-1)) as Hloop.
  { induction n as [|n IH]; intros Hle.
    - exists (nextIndex rf), (matchIndex rf). split_and!; [by destruct rf|done..|lia].
    - destruct IH as (ni & mi & Hf & Hln & Hlm & Hlook); [lia|].
      replace (Z.of_nat (S n)) with (Z.of_nat n + 1) by lia.
      rewrite seqZ_app, foldl_app, Hf by lia. cbn [foldl seqZ].
      change (seqZ (0 + Z.of_nat n) 1) with [0 + Z.of_nat n]. cbn [foldl]. rewrite bind_Ret.
      rewrite getLastLogIndex_raw by done. rewrite bind_Ret. simpl.
      rewrite !set_index_Ret by lia. rewrite !bind_Ret.
      exists (<[Z.to_nat (0 + Z.of_nat n) := last_index rf + 1]> ni),
        (<[Z.to_nat (0 + Z.of_nat n) := -1]> mi).
      split; [done|]. rewrite !zlen_insert. split_and!; [done..|].
      intros i Hi. destruct (decide (i = Z.of_nat n)) as [->|Hne].
      + rewrite !list_lookup_insert_eq by (unfold zlen in *; lia). done.
      + rewrite !list_lookup_insert_ne by lia. apply Hlook. lia. }
  destruct (Hloop (Z.to_nat (peers rf))) as (ni & mi & Hf & Hrest).
  { pose proof (zlen_nonneg (nextIndex rf)). lia. }
  exists ni, mi. rewrite Z2Nat.id in Hf, Hrest by (pose proof (zlen_nonneg (nextIndex rf)); lia).
  done.
Qed.

Lemma handle_vote_reply_wf rf args reply :
  raft_wf rf → ∃ rf', handle_vote_reply rf args reply = Ret rf' ∧ raft_wf rf'.
Proof.
  intros Hw. pose proof Hw as [_ _ _ _ ? ? ?]. unfold handle_vote_reply. case_test.
  { eexists. split; [done|]. apply FollowerState_wf; [lia|done]. }
  case_test; [by eauto|]. case_test; [|by eauto]. case_test.
  - assert (raft_wf (set_getVotesNum (getVotesNum rf + 1) rf)) as Hw' by (frame rf).
    destruct (LeaderState_spec _ Hw') as (ni & mi & -> & Hn & Hm & _).
    eexists. split; [done|]. frame rf.
  - eexists. split; [done|]. frame rf.
Qed.

Lemma ticker_wf rf now randTime :
  raft_wf rf → ∃ rf' o, ticker rf now randTime = Ret (rf', o) ∧ raft_wf rf'.
Proof.
  intros Hw. unfold ticker. case_test; [by eauto|]. case_test; [by eauto|].
  assert (raft_wf (CandidateState (set_lastTimeHeared now rf))) as Hw1.
  { pose proof Hw as [_ _ _ _ ? ? ?]. frame rf. }
  pose proof (rw_log _ Hw1) as Hl1. unfold candidateRequestVote.
  rewrite getLastLogIndex_eq, bind_Ret, getLastLogTerm_eq, bind_Ret by done.
  eexists _, _. split; [done|]. done.
Qed.

(** ** Replication: the follower's side *)
Section merged.
Context (rf : Raft C) (args : AppendEntriesArgs C).
Context (Hw : log_wf rf) (Hp : prev_matches rf args) (Ha : append_args_wf args).
Let n := Z.to_nat (aea_PrevLogIndex args - lastIncludedIndex rf + 1).
Let M := merge (drop n (Log rf)) (aea_Entries args).

Lemma merged_prefix_length : (1 ≤ n ≤ length (Log rf))%nat ∧
  Z.of_nat n = aea_PrevLogIndex args - lastIncludedIndex rf + 1.
Proof. destruct Hp as [Hr _]. unfold n, last_index, zlen in *. lia. Qed.

Lemma merged_lookup_pre i : (i < n)%nat → merged_log rf args !! i = Log rf !! i.
Proof.
  intros Hi. pose proof merged_prefix_length. unfold merged_log. fold n.
  rewrite lookup_app_l by (rewrite length_take; lia). by rewrite lookup_take_lt.
Qed.

Lemma merged_lookup_post k : merged_log rf args !! (n + k)%nat = M !! k.
Proof.
  pose proof merged_prefix_length. unfold merged_log. fold n M.
  rewrite lookup_app_r by (rewrite length_take; lia). rewrite length_take. f_equal. lia.
Qed.

Lemma merged_length : length (merged_log rf args) = (n + length M)%nat.
Proof.
  pose proof merged_prefix_length. unfold merged_log. fold n M.
  rewrite length_app, length_take. lia.
Qed.

Lemma merged_same : M = drop n (Log rf) → merged_log rf args = Log rf.
Proof. intros HM. unfold merged_log. fold n M. rewrite HM. apply take_drop. Qed.

Lemma merged_index i e : (0 < i)%nat → merged_log rf args !! i = Some e →
  le_Index e = lastIncludedIndex rf + Z.of_nat i.
Proof.
  intros Hi. pose proof merged_prefix_length as [Hn1 Hn2]. destruct (decide (i < n)%nat) as [Hlt|Hge].
  - rewrite merged_lookup_pre by done. by apply (lw_index _ Hw).
  - replace i with (n + (i - n))%nat at 1 by lia. rewrite merged_lookup_post.
    intros [He|He]%merge_elem.
    + rewrite lookup_drop in He. apply (lw_index _ Hw) in He; lia.
    + apply (aw_index _ Ha) in He. lia.
Qed.

(** Where the merged log differs from the old one its terms are the message's. *)
Lemma merged_terms rf' :
  Log rf' = merged_log rf args → lastIncludedTerm rf' = lastIncludedTerm rf →
  (∀ i, (i < n)%nat → term_at rf' i = term_at rf i) ∧
  (le_Term <$> M = le_Term <$> aea_Entries args →
   ∀ k, (k < length M)%nat → ∃ e, aea_Entries args !! k = Some e ∧ term_at rf' (n + k)%nat = le_Term e).
Proof.
  intros HL HT. pose proof merged_prefix_length as [Hn1 _]. split.
  - intros [|i] Hi; unfold term_at; [done|]. by rewrite HL, merged_lookup_pre.
  - intros Hm k Hk. destruct (lookup_lt_is_Some_2 M k Hk) as [x Hx].
    assert ((le_Term <$> aea_Entries args) !! k = Some (le_Term x)) as He
      by by rewrite <- Hm, list_lookup_fmap, Hx.
    rewrite list_lookup_fmap in He. destruct (aea_Entries args !! k) as [e|]; [|done].
    exists e. split; [done|]. simpl in He. unfold term_at. destruct (n + k)%nat eqn:E; [lia|].
    rewrite <- E, HL, merged_lookup_post, Hx. congruence.
Qed.

Lemma merged_log_wf rf' :
  currentTerm rf ≤ aea_Term args →
  Log rf' = merged_log rf args → lastIncludedTerm rf' = lastIncludedTerm rf →
  lastIncludedIndex rf' = lastIncludedIndex rf → currentTerm rf' = aea_Term args → log_wf rf'.
Proof.
  intros Ht HL HT HI Hc. destruct (merge_cases (drop n (Log rf)) (aea_Entries args)) as [Hm|[Hm _]].
  { apply (log_wf_frame rf); [|done..|lia|done]. by rewrite HL, merged_same. }
  fold M in Hm. pose proof merged_prefix_length as [Hn1 Hn2].
  destruct (merged_terms rf' HL HT) as [Hpre Hpost]. specialize (Hpost Hm).
  assert (∀ k, (k < length M)%nat → term_at rf' (n + k)%nat ≤ aea_Term args) as Hb.
  { intros k (e & He & ->)%Hpost. by apply (aw_term _ Ha) in He. }
  assert (term_at rf (n - 1) = aea_PrevLogTerm args) as Hprev.
  { destruct Hp as [_ <-]. f_equal. lia. }
  assert (0 < length (merged_log rf args))%nat as Hpos by (rewrite merged_length; lia).
  split.
  - rewrite HL. destruct (merged_log rf args); [simpl in Hpos; lia|done].
  - rewrite HL, HI. apply merged_index.
  - intros i j. rewrite HL, merged_length. intros Hij.
    destruct (decide (j < n)%nat) as [Hj|Hj].
    { rewrite !Hpre by lia. apply (lw_sorted _ Hw). lia. }
    destruct (Hpost (j - n)%nat ltac:(lia)) as (e & He & Hte).
    replace (n + (j - n))%nat with j in Hte by lia. rewrite Hte.
    destruct (decide (i < n)%nat) as [Hi|Hi].
    + rewrite Hpre by lia. etrans; [|by eapply (aw_prev _ Ha)]. rewrite <- Hprev.
      apply (lw_sorted _ Hw). lia.
    + destruct (Hpost (i - n)%nat ltac:(lia)) as (e' & He' & Hte').
      replace (n + (i - n))%nat with i in Hte' by lia. rewrite Hte'.
      eapply (aw_sorted _ Ha (i - n) (j - n)); [lia|done..].
  - rewrite HT. apply (lw_lit _ Hw).
  - unfold last_term. rewrite HL, merged_length, Hc.
    destruct (decide (length M = 0)%nat) as [->|].
    + rewrite Hpre by lia. etrans; [|done]. apply term_at_bound; [done|lia].
    + replace (n + length M - 1)%nat with (n + (length M - 1))%nat by lia. apply Hb. lia.
Qed.

(** Nothing committed is cut off. *)
Lemma merged_commit :
  respects_commit rf args → commitIndex rf ≤ last_index rf →
  follower_commit rf args ≤ lastIncludedIndex rf + zlen (merged_log rf args) - 1.
Proof.
  intros Hr Hc. pose proof merged_prefix_length as [Hn1 Hn2].
  assert (follower_commit rf args ≤ last_index rf) as Hfc
    by (unfold follower_commit; case_test; lia).
  assert (follower_commit rf args ≤ Z.max (commitIndex rf) (aea_LeaderCommit args)) as Hfc'
    by (unfold follower_commit; case_test; lia).
  pose proof (merge_length (drop n (Log rf)) (aea_Entries args)) as Hml. fold M in Hml.
  pose proof (aw_commit _ Ha) as Hlc.
  destruct (merge_cases (drop n (Log rf)) (aea_Entries args)) as [Hm|[_ [Hlen|(k & e & l & He & Hl & Hne)]]].
  - rewrite merged_same by done. unfold last_index in *. lia.
  - rewrite length_drop in Hlen. unfold last_index, zlen in *. rewrite merged_length. lia.
  - rewrite lookup_drop in Hl.
    assert (commitIndex rf < aea_PrevLogIndex args + 1 + Z.of_nat k) as Hk.
    { destruct (Z.lt_ge_cases (commitIndex rf) (aea_PrevLogIndex args + 1 + Z.of_nat k)); [done|].
      exfalso. apply Hne. apply (Hr k); [done| |done]. unfold entry_at. case_test; [|lia].
      rewrite <- Hl. f_equal. lia. }
    apply lookup_lt_Some in He. unfold zlen in *. rewrite merged_length. lia.
Qed.
End merged.

Lemma AppendEntries_wf rf args now :
  raft_wf rf → (currentTerm rf ≤ aea_Term args → append_args_wf args ∧ respects_commit rf args) →
  ∃ rf' reply, AppendEntries rf args now = Ret (rf', reply) ∧ raft_wf rf'.
Proof.
  intros Hw Hok. pose proof Hw as [Hl Hn Hm Hme Hi Hap Hc].
  destruct (AppendEntries_cases rf args now Hl) as (rf' & reply & -> & Hcase).
  exists rf', reply. split; [done|].
  destruct Hcase as [(_ & -> & _)|[(? & _ & -> & _)|(Ht & Hp & _ & np & -> & _)]]; [done| |].
  { by apply append_enter_wf. }
  destruct (Hok Ht) as [Ha Hr].
  destruct (append_enter_fields rf args now) as (EL & EI & ET & EC & EA & EP & EM & EN & EX).
  pose proof (append_enter_term rf args now Ht) as Et. unfold append_accept.
  set (rf2 := append_enter rf args now) in *. clearbody rf2.
  assert (∀ b : bool, raft_wf (set_commitIndex (follower_commit rf args)
     (if b then persist (set_Log (merged_log rf args) rf2) else set_Log (merged_log rf args) rf2))) as Hg; [|done].
  intros b. assert (commitIndex rf ≤ follower_commit rf args) as Hge
    by (unfold follower_commit; case_test; lia).
  pose proof (merged_commit rf args Hp Ha Hr Hc) as Hmc.
  assert (lastApplied rf2 ≤ follower_commit rf args) by lia.
  split; [apply (merged_log_wf rf args); destruct b; done|destruct b; simpl; congruence..|
    destruct b; simpl; lia| destruct b; simpl; lia| destruct b; simpl; lia|].
  unfold last_index. destruct b; simpl; lia.
Qed.

Lemma InstallSnapshot_wf rf args now : raft_wf rf → raft_wf (InstallSnapshot rf args now).1.1.
Proof.
  intros Hw. unfold InstallSnapshot. case_test; [done|].
  set (rf1 := if currentTerm rf <? isa_Term args then _ else _).
  assert (raft_wf rf1) as Hw1.
  { unfold rf1. case_test; [|done]. apply FollowerState_wf; [lia|done]. }
  pose proof Hw1 as [_ _ _ _ ? ? ?]. clearbody rf1. case_test; simpl; frame rf1.
Qed.

(** ** Replication: the leader's side *)
Lemma raft_wf_indices rf ni mi :
  zlen ni = zlen (nextIndex rf) → zlen mi = zlen (matchIndex rf) →
  raft_wf rf → raft_wf (set_matchIndex mi (set_nextIndex ni rf)).
Proof. intros Hn Hm Hw. pose proof Hw as [_ _ _ _ ? ? ?]. frame rf. Qed.

(** The message for a peer: a snapshot when the entry before the peer's next
    one is no longer in the log, else the log from there on. *)
Lemma leader_prepare_cases rf i :
  raft_wf rf → 0 ≤ i < peers rf →
  ∃ rf' out next, leader_prepare rf i = Ret (rf', out) ∧ raft_wf rf' ∧ Log rf' = Log rf ∧
    nextIndex rf !! Z.to_nat i = Some next ∧
    ((state rf ≠ LEADER ∧ out = SendNothing) ∨
     (state rf = LEADER ∧ next ≤ lastIncludedIndex rf ∧
      out = SendSnapshot (mkInstallSnapshotArgs (currentTerm rf) (me rf) (lastIncludedIndex rf)
                            (lastIncludedTerm rf) (ReadSnapshot (persister rf)))) ∨
     (state rf = LEADER ∧ lastIncludedIndex rf < next ∧ ∃ pt,
      out = SendEntries (mkAppendEntriesArgs (currentTerm rf) (me rf) (next - 1) pt
              (drop (Z.to_nat (next - lastIncludedIndex rf)) (Log rf)) (commitIndex rf)) ∧
      ((next - 1 ≤ last_index rf ∧ pt = term_at rf (Z.to_nat (next - 1 - lastIncludedIndex rf))) ∨
       (last_index rf < next - 1 ∧ pt = -1)))).
Proof.
  intros Hw Hi. pose proof Hw as [Hl Hn Hm Hme Hii Hap Hc].
  destruct (index_safe (nextIndex rf) i ltac:(lia)) as [next Hx].
  unfold leader_prepare, prepare_entries. rewrite Hx, bind_Ret. apply index_Ret in Hx as [_ Hx].
  case_test.
  { case_test; eexists _, _, next; (split; [done|]); (split; [done|]); (split; [done|]);
      (split; [done|]); [right; left|left]; split_and!; done || (simpl; lia). }
  assert (∃ pt, (∃ b k, getLogAt rf (getRealLogIndex rf (next - 1)) = Ret (b, k, pt)) ∧
    ((next - 1 ≤ last_index rf ∧ pt = term_at rf (Z.to_nat (next - 1 - lastIncludedIndex rf))) ∨
       (last_index rf < next - 1 ∧ pt = -1))) as (pt & (b & k & ->) & Hpt).
  { unfold getRealLogIndex. destruct (Z.le_gt_cases (next - 1) (last_index rf)).
    - eexists. rewrite getLogAt_Z by (unfold last_index in *; lia). split; [by eauto|]. by left.
    - eexists. rewrite getLogAt_out by (unfold last_index in *; lia). split; [by eauto|]. right.
      split; [lia|done]. }
  rewrite bind_Ret, getLastLogIndex_eq, bind_Ret by done.
  assert ((if next <=? last_index rf then slice_from (Log rf) (getRealLogIndex rf next) else mret []) =
          Ret (drop (Z.to_nat (next - lastIncludedIndex rf)) (Log rf))) as ->.
  { unfold getRealLogIndex. case_test.
    - apply slice_from_Ret. unfold last_index in *. lia.
    - rewrite drop_ge; [done|]. unfold last_index, zlen in *. lia. }
  rewrite bind_Ret, !set_index_Ret, !bind_Ret by lia.
  case_test; eexists _, _, next; (split; [done|]).
  - split; [by apply raft_wf_indices; rewrite ?zlen_insert|]. split; [done|]. split; [done|].
    right; right. split; [done|]. split; [lia|]. eauto.
  - split; [by apply raft_wf_indices; rewrite ?zlen_insert|]. split; [done|]. split; [done|]. by left.
Qed.

Lemma commit_counted_wf rf :
  raft_wf rf → ∃ n, countReplica rf = Ret n ∧ raft_wf (set_commitIndex n rf).
Proof.
  intros Hw. destruct (countReplica_spec rf Hw) as (n & Hn & Hr & _). exists n. split; [done|].
  pose proof Hw as [_ _ _ _ ? ? ?]. frame rf.
Qed.

Lemma handleLogInconsistency_scan_safe rf xt xi n :
  (n ≤ length (Log rf))%nat → ∃ t, handleLogInconsistency_scan rf xt xi n = Ret t.
Proof.
  induction n as [|[|n] IH]; intros Hn; [by eexists..|].
  change (handleLogInconsistency_scan rf xt xi (S (S n))) with
    ('(_, ei, et) ← getLogAt rf (Z.of_nat (S n));
     if et =? xt then mret (ei + 1) else handleLogInconsistency_scan rf xt xi (S n)).
  rewrite getLogAt_in by lia. rewrite bind_Ret. case_test; [by eexists|]. apply IH. lia.
Qed.

Lemma handleLogInconsistency_wf rf i reply :
  raft_wf rf → 0 ≤ i < peers rf →
  ∃ ni, handleLogInconsistency rf i reply = Ret (set_nextIndex ni rf) ∧ zlen ni = zlen (nextIndex rf).
Proof.
  intros Hw Hi. pose proof Hw as [Hl Hn Hm Hme Hii Hap Hc]. unfold handleLogInconsistency. case_test.
  - rewrite set_index_Ret, bind_Ret by lia.
    destruct (index_safe (<[Z.to_nat i:=aer_XIndex reply]> (nextIndex rf)) i) as [x Hx]; [zlen_lia|].
    rewrite Hx, bind_Ret. destruct (index_safe (matchIndex rf) i) as [y ->]; [lia|]. rewrite bind_Ret.
    case_test; [rewrite set_index_Ret, bind_Ret by zlen_lia|]; eexists; split; try done; zlen_lia.
  - destruct (handleLogInconsistency_scan_safe rf (aer_XTerm reply) (aer_XIndex reply)
                (length (Log rf)) ltac:(lia)) as [t ->].
    rewrite bind_Ret, set_index_Ret, bind_Ret by lia. eexists. split; [done|]. zlen_lia.
Qed.

Lemma handle_append_reply_wf rf i args reply :
  raft_wf rf → 0 ≤ i < peers rf →
  ∃ rf', handle_append_reply rf i args reply = Ret rf' ∧ raft_wf rf'.
Proof.
  intros Hw Hi. pose proof Hw as [Hl Hn Hm Hme Hii Hap Hc]. unfold handle_append_reply. case_test.
  { eexists. split; [done|]. apply FollowerState_wf; [lia|done]. }
  case_test; [by eauto|]. case_test.
  - rewrite set_index_Ret, bind_Ret by lia.
    destruct (index_safe (<[Z.to_nat i:=aea_PrevLogIndex args + zlen (aea_Entries args)]> (matchIndex rf)) i)
      as [m ->]; [zlen_lia|].
    rewrite bind_Ret, set_index_Ret, !bind_Ret by lia. edestruct commit_counted_wf as (n & -> & Hw').
    2: { rewrite bind_Ret. by eexists. }
    apply (raft_wf_frame rf); simpl; rewrite ?zlen_insert; done || lia.
  - case_test.
    + destruct (handleLogInconsistency_wf rf i reply Hw Hi) as (ni & -> & Hni). rewrite bind_Ret.
      destruct (commit_counted_wf (set_nextIndex ni rf)) as (n & -> & Hw'); [frame rf|].
      rewrite bind_Ret. by eexists.
    + rewrite bind_Ret. destruct (commit_counted_wf rf Hw) as (n & -> & Hw').
      rewrite bind_Ret. by eexists.
Qed.

Lemma handle_install_reply_wf rf i args ok reply :
  raft_wf rf → 0 ≤ i < peers rf →
  ∃ rf', handle_install_reply rf i args ok reply = Ret rf' ∧ raft_wf rf'.
Proof.
  intros Hw Hi. pose proof Hw as [Hl Hn Hm Hme Hii Hap Hc]. unfold handle_install_reply. case_test.
  { eexists. split; [done|]. apply FollowerState_wf; [lia|done]. }
  case_test; [by eauto|]. case_test; [by eauto|].
  assert (∀ rf1, raft_wf rf1 → ∃ rf', (n ← countReplica rf1; mret (set_commitIndex n rf1)) = Ret rf' ∧
    raft_wf rf') as Hend.
  { intros rf1 (n & -> & Hw')%commit_counted_wf. rewrite bind_Ret. by eexists. }
  case_test; [|by rewrite bind_Ret; apply Hend].
  destruct (index_safe (matchIndex rf) i) as [y ->]; [lia|]. rewrite bind_Ret. case_test.
  - rewrite set_index_Ret, bind_Ret by lia.
    destruct (index_safe (<[Z.to_nat i:=isa_LastIncludedIndex args]> (matchIndex rf)) i)
      as [m ->]; [zlen_lia|].
    rewrite bind_Ret, set_index_Ret, !bind_Ret by lia. apply Hend.
    apply (raft_wf_frame rf); simpl; rewrite ?zlen_insert; done || lia.
  - rewrite bind_Ret. by apply Hend.
Qed.

(** ** The interface to the service *)
Lemma Start_cases rf c :
  raft_wf rf →
  ∃ rf' i t lead, Start rf c = Ret (rf', (i, t, lead)) ∧ raft_wf rf' ∧
    if lead : bool
    then dead rf = false ∧ state rf = LEADER ∧ t = currentTerm rf ∧ i = last_index rf + 1 ∧
         Log rf' = Log rf ++ [mkLogEntry t (Some c) i] ∧ rf' = persist (set_Log (Log rf') rf)
    else (dead rf = true ∨ state rf ≠ LEADER) ∧ rf' = rf ∧ i = -1 ∧ t = -1.
Proof.
  intros Hw. pose proof Hw as [Hl Hn Hm Hme Hii Hap Hc]. unfold Start. destruct (dead rf) eqn:Hd.
  { eexists _, _, _, _. split; [done|]. split; [done|]. eauto. }
  rewrite getLastLogIndex_eq, bind_Ret by done. case_test.
  { eexists _, _, _, _. split; [done|]. split; [done|]. eauto. }
  eexists _, _, _, _. split; [done|]. split; cycle 1.
  { split_and!; try done. simpl. do 3 f_equal. unfold last_index. lia. }
  pose proof (log_length rf Hl) as Hlen.
  assert (∀ k, (k < length (Log rf))%nat → ∀ e,
    term_at (persist (set_Log (Log rf ++ [e]) rf)) k = term_at rf k) as Hpre.
  { intros [|k] Hk e; [done|]. simpl. by rewrite lookup_app_l. }
  assert (term_at (persist (set_Log (Log rf ++ [mkLogEntry (currentTerm rf) (Some c)
    (lastIncludedIndex rf + zlen (Log rf))]) rf)) (length (Log rf)) = currentTerm rf) as Hlast.
  { destruct (length (Log rf)) eqn:E; [lia|]. rewrite <- E. unfold term_at. rewrite E, <- E. simpl.
    by rewrite list_lookup_middle. }
  split; simpl; try done.
  - split; simpl.
    + destruct (Log rf); done.
    + intros i e Hi. destruct (decide (i < length (Log rf))%nat) as [Hlt|Hge].
      * rewrite lookup_app_l by done. by apply (lw_index _ Hl).
      * rewrite lookup_app_r by lia. intros [Hx <-]%list_lookup_singleton_Some. simpl.
        unfold zlen. lia.
    + intros i j. rewrite length_app. simpl. intros Hij.
      destruct (decide (j < length (Log rf))%nat) as [Hlt|Hge].
      * rewrite !Hpre by lia. apply (lw_sorted _ Hl). lia.
      * replace j with (length (Log rf)) by lia. rewrite Hlast.
        destruct (decide (i < length (Log rf))%nat) as [Hi|Hi].
        -- rewrite Hpre by done. by apply term_at_bound.
        -- replace i with (length (Log rf)) by lia. by rewrite Hlast.
    + apply (lw_lit _ Hl).
    + unfold last_term. simpl. rewrite length_app. simpl.
      replace (length (Log rf) + 1 - 1)%nat with (length (Log rf)) by lia. rewrite Hlast. lia.
  - unfold last_index in *. simpl. rewrite zlen_app, zlen_cons, zlen_nil. lia.
Qed.

(** ** Snapshots *)

(** [rf'] is [rf] with the entries up to position [i] replaced by the stand-in. *)
Record trimmed rf rf' (i : nat) : Prop := {
  tr_log : Log rf' = zeroEntry :: drop (S i) (Log rf);
  tr_lii : lastIncludedIndex rf' = lastIncludedIndex rf + Z.of_nat i;
  tr_lit : lastIncludedTerm rf' = term_at rf i;
  tr_term : currentTerm rf' = currentTerm rf
}.

Lemma trimmed_length rf rf' i :
  trimmed rf rf' i → (i < length (Log rf))%nat → (length (Log rf') + i = length (Log rf))%nat.
Proof. intros Ht Hi. rewrite (tr_log _ _ _ Ht). simpl. rewrite length_drop. lia. Qed.

Lemma trimmed_term_at rf rf' i j : trimmed rf rf' i → term_at rf' j = term_at rf (i + j).
Proof.
  intros [HL _ HT _]. destruct j as [|j]; [by rewrite Nat.add_0_r|]. unfold term_at at 1.
  rewrite HL. simpl. rewrite lookup_drop. replace (i + S j)%nat with (S (i + j)) by lia. done.
Qed.

Lemma trimmed_last rf rf' i :
  trimmed rf rf' i → (i < length (Log rf))%nat → last_index rf' = last_index rf.
Proof.
  intros Ht Hi. pose proof (trimmed_length _ _ _ Ht Hi). unfold last_index, zlen.
  rewrite (tr_lii _ _ _ Ht). lia.
Qed.

(** Above the cut the entries stay where they were. *)
Lemma trimmed_entry_at rf rf' i k :
  trimmed rf rf' i → lastIncludedIndex rf' < k → entry_at rf' k = entry_at rf k.
Proof.
  intros [HL HI _ _] Hk. unfold entry_at. case_test; [|lia]. case_test; [|lia].
  rewrite HL, HI. replace (Z.to_nat (k - (lastIncludedIndex rf + Z.of_nat i))) with
    (S (Z.to_nat (k - lastIncludedIndex rf) - i - 1)) by lia.
  simpl. rewrite lookup_drop. f_equal. lia.
Qed.

Lemma trimmed_log_wf rf rf' i :
  trimmed rf rf' i → (i < length (Log rf))%nat → log_wf rf → log_wf rf'.
Proof.
  intros Ht Hi Hw. pose proof (trimmed_length _ _ _ Ht Hi) as Hlen. split.
  - by rewrite (tr_log _ _ _ Ht).
  - intros j e Hj. rewrite (tr_log _ _ _ Ht), (tr_lii _ _ _ Ht). destruct j as [|j]; [lia|].
    simpl. rewrite lookup_drop. intros He%(lw_index _ Hw); lia.
  - intros j k Hjk. rewrite !(trimmed_term_at rf rf' i) by done. apply (lw_sorted _ Hw). lia.
  - rewrite (tr_lit _ _ _ Ht). by apply term_at_nonneg.
  - unfold last_term. rewrite (trimmed_term_at rf rf' i) by done. rewrite (tr_term _ _ _ Ht).
    apply term_at_bound; [done|lia].
Qed.

Lemma trimScan_spec rf lit lii n :
  (n ≤ length (Log rf))%nat →
  (trimScan rf lit lii n = Ret (zlen (Log rf)) ∧
   ∀ i, (i < n)%nat → ¬ (term_at rf i = lit ∧ lastIncludedIndex rf + Z.of_nat i = lii)) ∨
  ∃ i, (i < n)%nat ∧ trimScan rf lit lii n = Ret (Z.of_nat i + 1) ∧
    term_at rf i = lit ∧ lastIncludedIndex rf + Z.of_nat i = lii.
Proof.
  induction n as [|n IH]; intros Hn; [left; split; [done|lia]|]. cbn [trimScan].
  rewrite getLogAt_in by lia. rewrite bind_Ret. case_test.
  - right. exists n. split; [lia|]. done.
  - destruct IH as [[-> Hno]|(i & Hi & -> & ?)]; [lia| |].
    + left. split; [done|]. intros i Hi. destruct (decide (i = n)) as [->|]; [lia|]. apply Hno. lia.
    + right. exists i. split; [lia|done].
Qed.

(** [CondInstallSnapshot] on every branch: refused when it is not ahead of the
    commit index; otherwise the log is cut after the entry the snapshot ends
    with, or dropped altogether when it has no such entry. *)
Lemma CondInstallSnapshot_cases rf lit lii snap :
  raft_wf rf → 0 ≤ lit ≤ currentTerm rf →
  ∃ rf' b, CondInstallSnapshot rf lit lii snap = Ret (rf', b) ∧ raft_wf rf' ∧
   ((lii ≤ commitIndex rf ∧ b = false ∧ rf' = rf) ∨
    (commitIndex rf < lii ∧ b = true ∧ lastIncludedIndex rf' = lii ∧ lastIncludedTerm rf' = lit ∧
     lastApplied rf' = lii ∧ commitIndex rf' = lii ∧
     currentTerm rf' = currentTerm rf ∧ votedFor rf' = votedFor rf ∧ state rf' = state rf ∧
     persister rf' = SaveStateAndSnapshot (persister rf) (getStatePersistData rf') snap ∧
     ((∃ i, (i < length (Log rf))%nat ∧ trimmed rf rf' i) ∨
      (Log rf' = [zeroEntry] ∧
       ∀ i, (i < length (Log rf))%nat → ¬ (term_at rf i = lit ∧ lastIncludedIndex rf + Z.of_nat i = lii))))).
Proof.
  intros Hw Hlit. pose proof Hw as [Hl Hn Hm Hme Hii Hap Hc]. unfold CondInstallSnapshot. case_test.
  { eexists _, _. split; [done|]. split; [done|]. left. done. }
  assert (∃ tl, (trim ← trimScan rf lit lii (length (Log rf)); slice_from (Log rf) trim) = Ret tl ∧
    ((∃ i, (i < length (Log rf))%nat ∧ tl = drop (S i) (Log rf) ∧ term_at rf i = lit ∧
           lastIncludedIndex rf + Z.of_nat i = lii) ∨
     (tl = [] ∧ ∀ i, (i < length (Log rf))%nat →
                  ¬ (term_at rf i = lit ∧ lastIncludedIndex rf + Z.of_nat i = lii)))) as (tl & Htl & Hcase).
  { destruct (trimScan_spec rf lit lii (length (Log rf)) ltac:(lia)) as [[-> Hno]|(i & Hi & -> & Hit & Hil)].
    - rewrite bind_Ret, slice_from_Ret by zlen_lia. eexists. split; [done|]. right. split; [|done].
      unfold zlen. rewrite Nat2Z.id. apply drop_all.
    - rewrite bind_Ret, slice_from_Ret by (unfold zlen; lia). eexists. split; [done|]. left. exists i.
      split_and!; [done| |done..]. f_equal. lia. }
  destruct (bind_inv _ _ _ Htl) as (trim & -> & Hsl). rewrite bind_Ret, Hsl, bind_Ret. eexists _, _. split; [done|].
  simpl. rewrite (proj2 (Z.ltb_lt (commitIndex rf) lii)) by done. simpl.
  rewrite (proj2 (Z.ltb_lt (lastApplied rf) lii)) by lia.
  match goal with |- raft_wf ?r ∧ _ => set (rf' := r) end.
  assert ((∃ i, (i < length (Log rf))%nat ∧ trimmed rf rf' i) ∨
     (tl = [] ∧ ∀ i, (i < length (Log rf))%nat →
                  ¬ (term_at rf i = lit ∧ lastIncludedIndex rf + Z.of_nat i = lii))) as Hcase'.
  { destruct Hcase as [(i & Hi & -> & <- & <-)|?]; [left|by right]. exists i. split; [done|].
    split; done. }
  assert (log_wf rf' ∧ lii ≤ last_index rf') as [Hl' Hlast].
  { destruct Hcase' as [(i & Hi & Ht)|[-> _]].
    - assert (log_wf rf') as Hl' by (by eapply trimmed_log_wf). split; [done|].
      pose proof (last_index_ge rf' Hl'). done.
    - split; [|unfold last_index; simpl; unfold zlen; simpl; lia].
      split; simpl; [done| | |lia|unfold last_term; simpl; lia].
      + intros [|i] e Hi; [lia|done].
      + intros i j Hij. assert (i = 0%nat) as -> by lia. assert (j = 0%nat) as -> by lia. done. }
  split.
  - split; try done; simpl; lia.
  - right. split_and!; try done. destruct Hcase' as [?|[-> ?]]; [by left|by right].
Qed.

Lemma snapshotScan_spec rf target n (i : nat) ei et :
  (i + n = length (Log rf))%nat →
  lastIncludedIndex rf + Z.of_nat i ≤ target ≤ last_index rf →
  snapshotScan rf target n (Z.of_nat i) ei et =
    Ret (target, term_at rf (Z.to_nat (target - lastIncludedIndex rf)), target - lastIncludedIndex rf).
Proof.
  revert i ei et. induction n as [|n IH]; intros i ei et Hn Ht.
  { unfold last_index, zlen in Ht. lia. }
  cbn [snapshotScan]. rewrite getLogAt_in by lia. rewrite bind_Ret. case_test.
  - rewrite <- Htest. replace (lastIncludedIndex rf + Z.of_nat i - lastIncludedIndex rf)
      with (Z.of_nat i) by lia. by rewrite Nat2Z.id.
  - replace (Z.of_nat i + 1) with (Z.of_nat (S i)) by lia. apply IH; lia.
Qed.

(** [Snapshot] on every branch. *)
Lemma Snapshot_cases rf target snap :
  raft_wf rf → target ≤ commitIndex rf →
  ∃ rf', Snapshot rf target snap = Ret rf' ∧ raft_wf rf' ∧
   ((target ≤ lastIncludedIndex rf ∧ rf' = rf) ∨
    (lastIncludedIndex rf < target ∧ lastIncludedIndex rf' = target ∧
     commitIndex rf' = commitIndex rf ∧ lastApplied rf' = Z.max (lastApplied rf) target ∧
     currentTerm rf' = currentTerm rf ∧ votedFor rf' = votedFor rf ∧ state rf' = state rf ∧
     persister rf' = SaveStateAndSnapshot (persister rf) (getStatePersistData rf') snap ∧
     ∃ i, (i < length (Log rf))%nat ∧ trimmed rf rf' i)).
Proof.
  intros Hw Ht. pose proof Hw as [Hl Hn Hm Hme Hii Hap Hc]. unfold Snapshot. case_test.
  { eexists. split; [done|]. split; [done|]. by left. }
  change 0 with (Z.of_nat 0) at 1. rewrite snapshotScan_spec by lia. rewrite bind_Ret.
  set (i := Z.to_nat (target - lastIncludedIndex rf)).
  assert (i < length (Log rf))%nat as Hi by (unfold i, last_index, zlen in *; lia).
  match goal with |- context [slice_from (Log ?r) _] => set (rf3 := r) end.
  assert (Log rf3 = Log rf) as -> by (unfold rf3; repeat case_test; done).
  rewrite slice_from_Ret by (unfold i, zlen in *; lia). rewrite bind_Ret.
  replace (Z.to_nat (target - lastIncludedIndex rf + 1)) with (S i) by lia.
  eexists. split; [done|].
  assert (rf3 = set_commitIndex (commitIndex rf) (set_lastApplied (Z.max (lastApplied rf) target)
            (set_lastIncludedTerm (term_at rf i) (set_lastIncludedIndex target rf)))) as ->.
  { unfold rf3. simpl. case_test; simpl; (case_test; [lia|]); simpl.
    - rewrite Z.max_r by lia. by destruct rf.
    - rewrite Z.max_l by lia. by destruct rf. }
  match goal with |- raft_wf ?r ∧ _ => set (rf' := r) end.
  assert (trimmed rf rf' i) as Htr by (split; [done| |done..]; simpl; lia).
  split.
  - split; try done; simpl; try lia; [by eapply trimmed_log_wf|].
    rewrite (trimmed_last _ _ _ Htr Hi). done.
  - right. split_and!; try done; eauto; lia.
Qed.

(** ** The applier *)
Lemma applyChecker_take_cases rf :
  raft_wf rf →
  ∃ o, applyChecker_take rf = Ret o ∧
    match o with
    | None => commitIndex rf ≤ lastApplied rf
    | Some (msgs, commit) =>
        commit = commitIndex rf ∧ lastApplied rf < commit ∧
        zlen msgs = commit - lastApplied rf ∧
        ∀ k m, msgs !! k = Some m → ∃ e,
          entry_at rf (lastApplied rf + 1 + Z.of_nat k) = Some e ∧
          m = command_msg (le_Command e) (lastApplied rf + 1 + Z.of_nat k)
    end.
Proof.
  intros Hw. pose proof Hw as [Hl Hn Hm Hme Hii Hap Hc]. unfold applyChecker_take. case_test.
  { eexists. split; [done|]. done. }
  unfold last_index in Hc. rewrite slice_Ret by lia. rewrite bind_Ret. eexists. split; [done|].
  split; [done|]. split; [lia|]. split.
  { unfold zlen. rewrite length_map, length_take, length_drop. unfold zlen in *. lia. }
  intros k m. rewrite list_lookup_fmap. rewrite fmap_Some. intros (e & He & ->).
  apply lookup_take_Some in He as [He Hk]. rewrite lookup_drop in He. exists e.
  replace (Z.to_nat (lastApplied rf + 1 - lastIncludedIndex rf) + k)%nat with
    (Z.to_nat (lastApplied rf + 1 + Z.of_nat k - lastIncludedIndex rf)) in He by lia.
  split.
  - unfold entry_at. case_test; [done|lia].
  - f_equal. apply (lw_index _ Hl) in He; lia.
Qed.

Lemma applyChecker_done_wf rf c : c ≤ commitIndex rf → raft_wf rf → raft_wf (applyChecker_done rf c).
Proof.
  intros Hc Hw. pose proof Hw as [_ _ _ _ ? ? ?]. unfold applyChecker_done. case_test; [|done]. frame rf.
Qed.

Lemma Kill_wf rf : raft_wf rf → raft_wf (Kill rf).
Proof. intros Hw. pose proof Hw as [_ _ _ _ ? ? ?]. frame rf. Qed.

(** ** Every event *)
Lemma run_safe rf ev : raft_wf rf → event_ok rf ev → ∃ rf', run rf ev = Ret rf' ∧ raft_wf rf'.
Proof.
  intros Hw Hok. destruct ev; cbn [run]; simpl in Hok.
  - destruct (RequestVote_wf rf args now Hw) as (rf' & r & -> & ?). by eexists.
  - destruct (AppendEntries_wf rf args now Hw Hok) as (rf' & r & -> & ?). by eexists.
  - eexists. split; [done|]. by apply InstallSnapshot_wf.
  - destruct (ticker_wf rf now randTime Hw) as (rf' & r & -> & ?). by eexists.
  - by apply handle_vote_reply_wf.
  - destruct (leader_prepare_cases rf i Hw Hok) as (rf' & o & nx & -> & ? & _). by eexists.
  - by apply handle_append_reply_wf.
  - by apply handle_install_reply_wf.
  - destruct (Start_cases rf c Hw) as (rf' & i & t & l & -> & ? & _). by eexists.
  - destruct (CondInstallSnapshot_cases rf lit lii snap Hw Hok) as (rf' & b & -> & ? & _). by eexists.
  - destruct (Snapshot_cases rf target snap Hw Hok) as (rf' & -> & ? & _). by eexists.
  - destruct (applyChecker_take_cases rf Hw) as (o & -> & _). by eexists.
  - eexists. split; [done|]. by apply applyChecker_done_wf.
  - eexists. split; [done|]. by apply Kill_wf.
Qed.

End steps.
