(* ===== verification/RaftSpec.v ===== *)
(** * What one Raft peer guarantees

    The theorems about a single peer: it never panics and keeps its invariant
    ([raft_step_safe]), what it must not forget survives a crash
    ([raft_crash_recovers]), and each operation does what the protocol asks. *)

From S2P Require Import Prelude Persister RaftApi Raft RaftLog RaftAppend RaftSteps.
Import Raft.

Section durable.
Context {C : Type} `{Codec (Z * Z * list (LogEntry C) * Z * Z)}.
Implicit Types (rf : Raft C).

(** The state a peer must not forget. *)
Definition saved rf : Z * Z * list (LogEntry C) * Z * Z :=
  (currentTerm rf, votedFor rf, Log rf, lastIncludedIndex rf, lastIncludedTerm rf).

(** A peer made from the stable storage of [rf] has its saved state, whatever
    its number, and starts as a follower that has applied the snapshot only. *)
Definition recovers rf : Prop :=
  ∀ n i now, let rf' := Make n i (persister rf) now in
    saved rf' = saved rf ∧ state rf' = FOLLOWER ∧
    lastApplied rf' = lastIncludedIndex rf ∧ commitIndex rf' = lastIncludedIndex rf.

Lemma recovers_written rf : ReadRaftState (persister rf) = getStatePersistData rf → recovers rf.
Proof.
  intros Hp n i now. unfold Make. simpl. rewrite Hp. unfold readPersist, getStatePersistData.
  rewrite gob_decode_encode. case_test; [|done].
  destruct (gob_encode _) eqn:E; [by apply gob_encode_nonempty in E|zlen_lia].
Qed.

Lemma recovers_fresh n i now : recovers (Make n i MakePersister now).
Proof. done. Qed.

Lemma recovers_frame rf rf' :
  persister rf' = persister rf → saved rf' = saved rf → recovers rf → recovers rf'.
Proof.
  intros Hp Hs Hr n i now. unfold recovers in Hr. rewrite Hp, Hs.
  replace (lastIncludedIndex rf') with (lastIncludedIndex rf) by (unfold saved in Hs; congruence).
  apply Hr.
Qed.

Lemma recovers_persist rf : recovers (persist rf).
Proof. apply recovers_written. simpl. by autorewrite with shardkv. Qed.

Lemma recovers_FollowerState t rf : recovers (FollowerState t rf).
Proof. apply recovers_persist. Qed.

Lemma LeaderState_frame rf rf' :
  LeaderState rf = Ret rf' → persister rf' = persister rf ∧ saved rf' = saved rf.
Proof.
  unfold LeaderState.
  assert (∀ js rf0, foldl (λ acc i, rf ← acc; last ← getLastLogIndex rf;
      ni ← set_index (nextIndex rf) i (last + 1); mi ← set_index (matchIndex rf) i (-1);
      mret (set_matchIndex mi (set_nextIndex ni rf))) (Ret rf0) js = Ret rf' →
    persister rf' = persister rf0 ∧ saved rf' = saved rf0) as Hl; [|by intros [-> ->]%Hl].
  induction js as [|j js IH]; intros rf0; simpl; [by intros [= ->]|].
  intros Hf. destruct (getLastLogIndex rf0 ≫= _) as [rf1| |] eqn:E; cycle 1.
  - exfalso. clear -Hf. induction js as [|j' js IH]; [done|]. by apply IH.
  - exfalso. clear -Hf. induction js as [|j' js IH]; [done|]. by apply IH.
  - apply IH in Hf as [-> ->]. do 3 inv_bind E. by injection E as <-.
Qed.

Lemma recovers_RequestVote rf args now rf' reply :
  RequestVote rf args now = Ret (rf', reply) → recovers rf → recovers rf'.
Proof.
  intros Hrun Hr. unfold RequestVote in Hrun.
  set (rf1 := if currentTerm rf <? rva_Term args then _ else _) in *.
  assert (recovers rf1) as Hr1.
  { unfold rf1. case_test; [apply recovers_FollowerState|done]. }
  clearbody rf1. case_test_in Hrun.
  { injection Hrun as <- _. apply recovers_persist. }
  do 2 inv_bind Hrun. case_test_in Hrun; injection Hrun as <- _; [|done].
  eapply recovers_frame; [..|apply recovers_persist]; done.
Qed.

Lemma recovers_AppendEntries rf args now rf' reply :
  log_wf rf → AppendEntries rf args now = Ret (rf', reply) → recovers rf → recovers rf'.
Proof.
  intros Hw Hrun Hr. destruct (AppendEntries_cases rf args now Hw) as (rf1 & reply1 & E & Hcase).
  assert (rf1 = rf') as -> by congruence. clear E Hrun.
  assert (recovers (append_enter rf args now)) as He.
  { unfold append_enter. case_test.
    - by apply (recovers_frame (FollowerState (aea_Term args) rf)); [..|apply recovers_FollowerState].
    - by apply (recovers_frame rf). }
  destruct Hcase as [(_ & -> & _)|[(? & _ & -> & _)|(Ht & Hp & _ & np & -> & Hnp)]]; [done..|].
  unfold append_accept. destruct np.
  - by eapply recovers_frame; [..|apply recovers_persist].
  - apply (recovers_frame (append_enter rf args now)); [done| |done].
    rewrite Hnp by done. destruct (append_enter_fields rf args now) as (EL & _).
    rewrite <- EL. done.
Qed.

Lemma recovers_handle_append rf i args reply rf' :
  handle_append_reply rf i args reply = Ret rf' → recovers rf → recovers rf'.
Proof.
  unfold handle_append_reply. intros Hrun Hr. case_test_in Hrun.
  { injection Hrun as <-. apply recovers_FollowerState. }
  case_test_in Hrun; [by injection Hrun as <-|]. inv_bind Hrun.
  assert (persister x = persister rf ∧ saved x = saved rf) as [Hp Hs].
  { case_test_in Hb.
    - do 3 inv_bind Hb. by injection Hb as <-.
    - case_test_in Hb; [|by injection Hb as <-]. unfold handleLogInconsistency in Hb.
      case_test_in Hb.
      + do 3 inv_bind Hb. case_test_in Hb; [inv_bind Hb|]; by injection Hb as <-.
      + do 2 inv_bind Hb. by injection Hb as <-. }
  inv_bind Hrun. injection Hrun as <-. by apply (recovers_frame rf).
Qed.

Lemma recovers_handle_install rf i args ok reply rf' :
  handle_install_reply rf i args ok reply = Ret rf' → recovers rf → recovers rf'.
Proof.
  unfold handle_install_reply. intros Hrun Hr. case_test_in Hrun.
  { injection Hrun as <-. apply recovers_FollowerState. }
  case_test_in Hrun; [by injection Hrun as <-|]. case_test_in Hrun; [by injection Hrun as <-|].
  inv_bind Hrun.
  assert (persister x = persister rf ∧ saved x = saved rf) as [Hp Hs].
  { case_test_in Hb; [|by injection Hb as <-]. inv_bind Hb. case_test_in Hb; [|by injection Hb as <-].
    do 3 inv_bind Hb. by injection Hb as <-. }
  inv_bind Hrun. injection Hrun as <-. by apply (recovers_frame rf).
Qed.

Lemma recovers_handle_vote rf args reply rf' :
  handle_vote_reply rf args reply = Ret rf' → recovers rf → recovers rf'.
Proof.
  unfold handle_vote_reply. intros Hrun Hr. case_test_in Hrun.
  { injection Hrun as <-. apply recovers_FollowerState. }
  case_test_in Hrun; [by injection Hrun as <-|]. case_test_in Hrun; [|by injection Hrun as <-].
  case_test_in Hrun.
  - apply LeaderState_frame in Hrun as [Hp Hs]. by apply (recovers_frame rf).
  - injection Hrun as <-. by apply (recovers_frame rf).
Qed.

Lemma run_durable rf ev rf' :
  raft_wf rf → event_ok rf ev → run rf ev = Ret rf' → recovers rf → recovers rf'.
Proof.
  intros Hw Hok Hrun Hr. destruct ev; cbn [run] in Hrun; simpl in Hok.
  - inv_bind Hrun. injection Hrun as <-. destruct x. by eapply recovers_RequestVote.
  - inv_bind Hrun. injection Hrun as <-. destruct x. eapply recovers_AppendEntries; [apply Hw|done..].
  - injection Hrun as <-. unfold InstallSnapshot. case_test; [done|].
    set (rf1 := if currentTerm rf <? isa_Term args then _ else _).
    assert (recovers rf1) as Hr1 by (unfold rf1; case_test; [apply recovers_FollowerState|done]).
    clearbody rf1. case_test; by apply (recovers_frame rf1).
  - inv_bind Hrun. injection Hrun as <-. unfold ticker in Hb.
    case_test_in Hb; [by injection Hb as <-|]. case_test_in Hb; [by injection Hb as <-|].
    inv_bind Hb. injection Hb as <-. apply recovers_persist.
  - by eapply recovers_handle_vote.
  - inv_bind Hrun. injection Hrun as <-. unfold leader_prepare, prepare_entries in Hb. inv_bind Hb. case_test_in Hb.
    { case_test_in Hb; by injection Hb as <-. }
    inv_bind Hb. destruct x1 as [[? ?] ?]. do 4 inv_bind Hb.
    case_test_in Hb; injection Hb as <-; by apply (recovers_frame rf).
  - by eapply recovers_handle_append.
  - by eapply recovers_handle_install.
  - inv_bind Hrun. injection Hrun as <-. destruct (Start_cases rf c Hw) as (rf1 & i & t & l & E & _ & Hl).
    rewrite E in Hb. injection Hb as <-. destruct l; simpl.
    + destruct Hl as (_ & _ & _ & _ & _ & ->). apply recovers_persist.
    + by destruct Hl as (_ & -> & _).
  - inv_bind Hrun. injection Hrun as <-.
    destruct (CondInstallSnapshot_cases rf lit lii snap Hw Hok) as (rf1 & b & E & _ & Hcase).
    rewrite E in Hb. injection Hb as <-. simpl.
    destruct Hcase as [(_ & _ & ->)|(_ & _ & _ & _ & _ & _ & _ & _ & _ & Hp & _)]; [done|].
    apply recovers_written. rewrite Hp. by autorewrite with shardkv.
  - destruct (Snapshot_cases rf target snap Hw Hok) as (rf1 & E & _ & Hcase).
    rewrite E in Hrun. injection Hrun as <-.
    destruct Hcase as [(_ & ->)|(_ & _ & _ & _ & _ & _ & _ & Hp & _)]; [done|].
    apply recovers_written. rewrite Hp. by autorewrite with shardkv.
  - inv_bind Hrun. by injection Hrun as <-.
  - injection Hrun as <-. unfold applyChecker_done. case_test; [|done]. by apply (recovers_frame rf).
  - injection Hrun as <-. by apply (recovers_frame rf).
Qed.
End durable.

(** ** Committed entries stay *)
Section stable.
Context {C : Type} `{Codec (Z * Z * list (LogEntry C) * Z * Z)}.
Implicit Types (rf : Raft C).

(** Progress is never undone, and a committed entry is never replaced (it can
    only move into the snapshot). *)
Record advances rf rf' : Prop := {
  ad_term : currentTerm rf ≤ currentTerm rf';
  ad_commit : commitIndex rf ≤ commitIndex rf';
  ad_applied : lastApplied rf ≤ lastApplied rf';
  ad_lii : lastIncludedIndex rf ≤ lastIncludedIndex rf';
  ad_entries : ∀ i, lastIncludedIndex rf' < i ≤ commitIndex rf → entry_at rf' i = entry_at rf i
}.

#[export] Instance advances_refl : Reflexive advances.
Proof. intros rf. by split. Qed.

Lemma advances_frame rf rf' :
  currentTerm rf ≤ currentTerm rf' → commitIndex rf ≤ commitIndex rf' →
  lastApplied rf ≤ lastApplied rf' → lastIncludedIndex rf' = lastIncludedIndex rf →
  Log rf' = Log rf → advances rf rf'.
Proof.
  intros Ht Hc Ha Hi Hl. split; [done..|lia|]. intros i Hr. unfold entry_at. by rewrite Hi, Hl.
Qed.

Lemma merge_keeps (rest es : list (LogEntry C)) k l :
  (∀ j e x, (j ≤ k)%nat → es !! j = Some e → rest !! j = Some x → le_Term e = le_Term x) →
  rest !! k = Some l → merge rest es !! k = Some l.
Proof.
  revert rest k. induction es as [|e es IH]; intros [|x rest] k Hag; simpl; try done.
  rewrite (proj2 (Z.eqb_eq _ _)) by (apply (Hag 0%nat); [lia|done..]).
  destruct k as [|k]; simpl; [done|]. apply IH. intros j e' x' Hj. apply (Hag (S j)). lia.
Qed.

Lemma merged_entry_at rf rf' args i :
  log_wf rf → prev_matches rf args → respects_commit rf args →
  Log rf' = merged_log rf args → lastIncludedIndex rf' = lastIncludedIndex rf →
  i ≤ commitIndex rf → commitIndex rf ≤ last_index rf → entry_at rf' i = entry_at rf i.
Proof.
  intros Hw Hp Hr HL HI Hi Hc. unfold entry_at. rewrite HI. case_test; [|done]. rewrite HL.
  destruct (merged_prefix_length rf args Hp) as [Hn1 Hn2].
  set (n := Z.to_nat (aea_PrevLogIndex args - lastIncludedIndex rf + 1)) in *.
  set (p := Z.to_nat (i - lastIncludedIndex rf)).
  destruct (decide (p < n)%nat) as [Hlt|Hge]; [by apply merged_lookup_pre|].
  destruct (lookup_lt_is_Some_2 (Log rf) p) as [l Hl].
  { unfold p, last_index, zlen in *. lia. }
  pose proof (merged_lookup_post rf args Hp (p - n)) as E. fold n in E.
  replace (n + (p - n))%nat with p in E by lia. rewrite E, Hl. apply merge_keeps; [|rewrite lookup_drop, <- Hl; f_equal; lia].
  intros j e x Hj He Hx. rewrite lookup_drop in Hx. apply (Hr j); [done| |lia].
  unfold entry_at. case_test; [|lia]. rewrite <- Hx. f_equal. lia.
Qed.

Lemma trimmed_advances rf rf' i :
  trimmed rf rf' i → commitIndex rf ≤ commitIndex rf' → lastApplied rf ≤ lastApplied rf' →
  advances rf rf'.
Proof.
  intros Ht Hc Ha. pose proof Ht as [_ HI _ HT]. split; [lia..|].
  intros k Hk. eapply trimmed_entry_at; [done|lia].
Qed.

Lemma advances_counted rf x n :
  persister x = persister rf → saved x = saved rf → commitIndex x = commitIndex rf →
  lastApplied x = lastApplied rf → raft_wf x → countReplica x = Ret n →
  advances rf (set_commitIndex n x).
Proof.
  intros _ Hs Hc Ha Hw Hn. destruct (countReplica_spec x Hw) as (n' & E & Hr & _).
  assert (n' = n) as -> by congruence. unfold saved in Hs.
  apply advances_frame; simpl; try lia; congruence || (apply Z.eq_le_incl; congruence).
Qed.

Lemma LeaderState_advances rf rf' : LeaderState rf = Ret rf' → raft_wf rf → advances rf rf'.
Proof.
  intros HL Hw. destruct (LeaderState_spec rf Hw) as (ni & mi & E & _).
  rewrite E in HL. injection HL as <-. by apply advances_frame.
Qed.

Lemma AppendEntries_advances rf args now rf' reply :
  raft_wf rf → event_ok rf (EvAppend args now) →
  AppendEntries rf args now = Ret (rf', reply) → advances rf rf'.
Proof.
  intros Hw Hok Hrun. pose proof Hw as [Hl _ _ _ _ _ Hc].
  destruct (AppendEntries_cases rf args now Hl) as (rf1 & reply1 & E & Hcase).
  assert (rf1 = rf') as -> by congruence. clear E Hrun.
  destruct (append_enter_fields rf args now) as (EL & EI & ET & EC & EA & _).
  destruct Hcase as [(_ & -> & _)|[(Ht & _ & -> & _)|(Ht & Hp & _ & np & -> & Hnp)]]; [done| |].
  - pose proof (append_enter_term rf args now Ht). apply advances_frame; try done; lia.
  - pose proof (append_enter_term rf args now Ht) as Et. destruct (Hok Ht) as [_ Hr].
    assert (commitIndex rf ≤ follower_commit rf args) by (unfold follower_commit; case_test; lia).
    unfold append_accept. set (rf2 := append_enter rf args now) in *. clearbody rf2.
    split; [destruct np; simpl; lia..|]. intros i Hi.
    eapply merged_entry_at; try done; destruct np; done || (simpl in *; lia).
Qed.

Lemma handle_append_advances rf i args reply rf' :
  raft_wf rf → 0 ≤ i < peers rf → handle_append_reply rf i args reply = Ret rf' → advances rf rf'.
Proof.
  unfold handle_append_reply. intros Hw Hi Hrun. pose proof Hw as [_ _ _ _ _ _ _]. case_test_in Hrun.
  { injection Hrun as <-. apply advances_frame; simpl; try done; lia. }
  case_test_in Hrun; [by injection Hrun as <-|]. inv_bind Hrun. inv_bind Hrun. injection Hrun as <-.
  case_test_in Hb.
  - do 3 inv_bind Hb. injection Hb as <-. apply set_index_inv in Hb1 as [_ ->], Hb3 as [_ ->].
    eapply advances_counted; try done. pose proof Hw as [? ? ? ? ? ? ?].
    apply (raft_wf_frame rf); simpl; rewrite ?zlen_insert; done || lia.
  - case_test_in Hb; [|injection Hb as <-; by eapply advances_counted].
    destruct (handleLogInconsistency_wf rf i reply Hw Hi) as (ni & E & Hni). rewrite E in Hb.
    injection Hb as <-. eapply advances_counted; try done. pose proof Hw as [? ? ? ? ? ? ?].
    apply (raft_wf_frame rf); simpl; done || lia.
Qed.

Lemma handle_install_advances rf i args ok reply rf' :
  raft_wf rf → handle_install_reply rf i args ok reply = Ret rf' → advances rf rf'.
Proof.
  unfold handle_install_reply. intros Hw Hrun. case_test_in Hrun.
  { injection Hrun as <-. apply advances_frame; simpl; try done; lia. }
  case_test_in Hrun; [by injection Hrun as <-|]. case_test_in Hrun; [by injection Hrun as <-|].
  inv_bind Hrun. inv_bind Hrun. injection Hrun as <-.
  case_test_in Hb; [|injection Hb as <-; by eapply advances_counted]. inv_bind Hb.
  case_test_in Hb; [|injection Hb as <-; by eapply advances_counted].
  do 3 inv_bind Hb. injection Hb as <-. apply set_index_inv in Hb2 as [_ ->], Hb4 as [_ ->].
  eapply advances_counted; try done. pose proof Hw as [? ? ? ? ? ? ?].
  apply (raft_wf_frame rf); simpl; rewrite ?zlen_insert; done || lia.
Qed.

Lemma run_advances rf ev rf' :
  raft_wf rf → event_ok rf ev → run rf ev = Ret rf' → advances rf rf'.
Proof.
  intros Hw Hok Hrun. destruct ev; cbn [run] in Hrun; simpl in Hok.
  - inv_bind Hrun. injection Hrun as <-. unfold RequestVote in Hb.
    set (rf1 := if currentTerm rf <? rva_Term args then _ else _) in *.
    assert (advances rf rf1) as [? ? ? ? He]
      by (unfold rf1; case_test; [apply advances_frame; simpl; try done; lia|done]).
    clearbody rf1. case_test_in Hb; [by injection Hb as <-|]. do 2 inv_bind Hb.
    case_test_in Hb; by injection Hb as <-.
  - inv_bind Hrun. injection Hrun as <-. destruct x. by eapply AppendEntries_advances.
  - injection Hrun as <-. unfold InstallSnapshot. case_test; [done|].
    set (rf1 := if currentTerm rf <? isa_Term args then _ else _).
    assert (advances rf rf1) as [? ? ? ? He]
      by (unfold rf1; case_test; [apply advances_frame; simpl; try done; lia|done]).
    clearbody rf1. by case_test.
  - inv_bind Hrun. injection Hrun as <-. unfold ticker in Hb.
    case_test_in Hb; [by injection Hb as <-|]. case_test_in Hb; [by injection Hb as <-|].
    inv_bind Hb. injection Hb as <-. apply advances_frame; simpl; try done; lia.
  - unfold handle_vote_reply in Hrun. case_test_in Hrun.
    { injection Hrun as <-. apply advances_frame; simpl; try done; lia. }
    case_test_in Hrun; [by injection Hrun as <-|]. case_test_in Hrun; [|by injection Hrun as <-].
    assert (raft_wf (set_getVotesNum (getVotesNum rf + 1) rf)) as Hw1.
    { pose proof Hw as [? ? ? ? ? ? ?]. apply (raft_wf_frame rf); simpl; done || lia. }
    case_test_in Hrun; [|by injection Hrun as <-].
    apply LeaderState_advances in Hrun as [? ? ? ? ?]; [|done]. by split.
  - inv_bind Hrun. injection Hrun as <-. unfold leader_prepare, prepare_entries in Hb. inv_bind Hb. case_test_in Hb.
    { case_test_in Hb; by injection Hb as <-. }
    inv_bind Hb. destruct x1 as [[? ?] ?]. do 4 inv_bind Hb. case_test_in Hb; by injection Hb as <-.
  - by eapply handle_append_advances.
  - by eapply handle_install_advances.
  - inv_bind Hrun. injection Hrun as <-. destruct (Start_cases rf c Hw) as (rf1 & i & t & l & E & _ & Hl).
    rewrite E in Hb. injection Hb as <-. destruct l; simpl.
    + destruct Hl as (_ & _ & _ & _ & HL & ->). split; try done. intros k [Hk1 Hk2]. unfold entry_at.
      simpl in *. case_test; [|done]. rewrite HL. apply lookup_app_l.
      pose proof (rw_commit _ Hw). unfold last_index, zlen in *. lia.
    + by destruct Hl as (_ & -> & _).
  - inv_bind Hrun. injection Hrun as <-.
    destruct (CondInstallSnapshot_cases rf lit lii snap Hw Hok) as (rf1 & b & E & _ & Hcase).
    rewrite E in Hb. injection Hb as <-. simpl. pose proof Hw as [_ _ _ _ ? ? _].
    destruct Hcase as [(_ & _ & ->)|(Hlt & _ & HI & _ & HA & HC & HT & _)]; [done|].
    split; lia.
  - destruct (Snapshot_cases rf target snap Hw Hok) as (rf1 & E & _ & Hcase).
    rewrite E in Hrun. injection Hrun as <-.
    destruct Hcase as [(_ & ->)|(_ & _ & HC & HA & _ & _ & _ & _ & i & _ & Ht)]; [done|].
    eapply trimmed_advances; [done|lia|lia].
  - inv_bind Hrun. by injection Hrun as <-.
  - injection Hrun as <-. unfold applyChecker_done. case_test; [|done].
    apply advances_frame; simpl; try done; lia.
  - injection Hrun as <-. by apply advances_frame.
Qed.
End stable.

(** ** Reachable states *)
Section reachable.
Context {C : Type} `{Codec (Z * Z * list (LogEntry C) * Z * Z)}.
Implicit Types (rf : Raft C).

(** The states of peer [i] of [n]: made on empty storage, changed by events,
    and made again from its own storage after a crash. *)
Inductive reachable (n i : Z) : Raft C → Prop :=
| reach_make now : reachable n i (Make n i MakePersister now)
| reach_step rf ev rf' :
    reachable n i rf → event_ok rf ev → run rf ev = Ret rf' → reachable n i rf'
| reach_crash rf now : reachable n i rf → reachable n i (Make n i (persister rf) now).

Lemma Make_static n i ps now :
  let rf := Make (C:=C) n i ps now in
  peers rf = n ∧ me rf = i ∧ zlen (nextIndex rf) = Z.max 0 n ∧ zlen (matchIndex rf) = Z.max 0 n ∧
  persister rf = ps.
Proof.
  unfold Make, readPersist. simpl.
  assert (∀ x, zlen (replicate (Z.to_nat n) x : list Z) = Z.max 0 n) as Hz.
  { intros x. unfold zlen. rewrite length_replicate. lia. }
  repeat case_match; simpl; rewrite ?Hz; done.
Qed.

Lemma Make_wf rf n i now :
  0 ≤ i < n → raft_wf rf → recovers rf → raft_wf (Make n i (persister rf) now).
Proof.
  intros Hi Hw Hr. destruct (Hr n i now) as (Hs & _ & Ha & Hc). unfold saved in Hs.
  destruct (Make_static n i (persister rf) now) as (Hp & Hm & Hn & Hx & _).
  set (rf' := Make n i (persister rf) now) in *. clearbody rf'.
  assert (currentTerm rf' = currentTerm rf ∧ Log rf' = Log rf ∧
          lastIncludedIndex rf' = lastIncludedIndex rf ∧
          lastIncludedTerm rf' = lastIncludedTerm rf) as (HT & HL & HI & HIT)
    by (split_and!; congruence).
  pose proof Hw as [Hl _ _ _ Hii _ _]. pose proof (last_index_ge rf Hl).
  split; [|lia..|rewrite (last_index_frame rf); [lia|done..]].
  apply (log_wf_frame rf); [done..|lia|done].
Qed.

Lemma Make_fresh_wf n i now : 0 ≤ i < n → raft_wf (Make (C:=C) n i MakePersister now).
Proof.
  intros Hi. destruct (Make_static n i MakePersister now) as (Hp & Hm & Hn & Hx & _).
  split; try done; try lia. split; simpl; try done.
  - intros [|k] e Hk; [lia|done].
  - intros j k Hjk. assert (j = 0%nat) as -> by lia. assert (k = 0%nat) as -> by lia. done.
Qed.

Lemma reachable_inv n i rf :
  0 ≤ i < n → reachable n i rf → raft_wf rf ∧ recovers rf.
Proof.
  intros Hi. induction 1 as [now|rf ev rf' _ [Hw Hr] Hok Hrun|rf now _ [Hw Hr]].
  - split; [by apply Make_fresh_wf|apply recovers_fresh].
  - split; [|by eapply run_durable]. destruct (run_safe rf ev Hw Hok) as (rf1 & E & ?). congruence.
  - split; [by apply Make_wf|]. intros m j now'.
    destruct (Make_static n i (persister rf) now) as (_ & _ & _ & _ & ->).
    destruct (Hr n i now) as (Hs & _ & _). pose proof Hs as Hs'. unfold saved in Hs'.
    replace (lastIncludedIndex (Make n i (persister rf) now)) with (lastIncludedIndex rf) by congruence.
    rewrite Hs. apply Hr.
Qed.
End reachable.

(** ** A concrete peer *)
#[export] Instance LogEntry_eq_dec {C} `{EqDecision C} : EqDecision (LogEntry C).
Proof. solve_decision. Defined.

#[export] Instance LogEntry_countable {C} `{Countable C} : Countable (LogEntry C).
Proof.
  refine (inj_countable' (λ e, (le_Term e, le_Command e, le_Index e))
            (λ '(t, c, i), mkLogEntry t c i) _). by intros [].
Defined.

(** A leader of three in term 2 with two entries, one of them of its term. *)
Definition sample_log : list (LogEntry Z) :=
  [zeroEntry; mkLogEntry 1 (Some 10) 1; mkLogEntry 2 (Some 20) 2].

Definition sample_leader : Raft Z :=
  mkRaft 3 0 false MakePersister 0 LEADER sample_log 2 0 0 0 2 [3; 3; 1] [2; 2; -1] 0 0 [].

Lemma sample_log_wf rf :
  Log rf = sample_log → lastIncludedIndex rf = 0 → lastIncludedTerm rf = 0 → currentTerm rf = 2 →
  log_wf rf.
Proof.
  intros HL HI HT Hc. split; rewrite ?HL, ?HI, ?HT, ?Hc; try done.
  - intros [|[|[|i]]] e Hi; [lia|by intros [= <-]..|done].
  - assert (∀ i, term_at rf i = match i with 0%nat => 0 | 1%nat => 1 | 2%nat => 2 | _ => -1 end) as Ht.
    { intros [|[|[|i]]]; unfold term_at; rewrite ?HL, ?HT; done. }
    intros i j. rewrite !Ht. intros Hij. simpl in Hij.
    destruct i as [|[|[|i]]], j as [|[|[|j]]]; simpl in *; lia.
  - unfold last_term. rewrite HL. unfold term_at. simpl. rewrite HL. simpl. lia.
Qed.

Lemma sample_leader_wf : raft_wf sample_leader.
Proof. split; try done. by apply sample_log_wf. Qed.

(** ** Theorems *)

(** The leader of term 1 sends its first entry to a fresh peer. *)
Definition sample_message : AppendEntriesArgs Z := mkAppendEntriesArgs 1 0 0 0 [mkLogEntry 1 (Some 7) 1] 0.

(** C13: a peer that is sent what the protocol allows never panics and only moves
    forward.  The condition on the events ([event_ok]), assumed of each one that
    led to the state and of the next: an AppendEntries of the peer's term or a
    later one has entries that are numbered and have non-decreasing terms, commits
    nothing beyond them and contradicts no entry the peer has committed; replies
    name an existing peer; a snapshot offered by the service has a term the peer
    has seen; the service takes snapshots of, and has applied, committed entries
    only.  Nothing is assumed of votes, installed snapshots, replies, stale
    messages, timeouts, commands, and of the order of events and crashes.  Then
    the invariant [raft_wf] holds, the next event returns in a state where it holds
    again, neither term, commit index, applied index nor snapshot position
    decreases, and no committed entry is replaced.  (That a group of peers meets the
    condition by itself is [RaftSafety.group_no_panic].) *)
Theorem raft_step_safe {C} `{Codec (Z * Z * list (LogEntry C) * Z * Z)} (n i : Z) (rf : Raft C)
    (ev : event) (Hi : 0 ≤ i < n) (Hr : reachable n i rf) (Hok : event_ok rf ev) :
  raft_wf rf ∧ ∃ rf', run rf ev = Ret rf' ∧ raft_wf rf' ∧
    currentTerm rf ≤ currentTerm rf' ∧ commitIndex rf ≤ commitIndex rf' ∧
    lastApplied rf ≤ lastApplied rf' ∧ lastIncludedIndex rf ≤ lastIncludedIndex rf' ∧
    ∀ k, lastIncludedIndex rf' < k ≤ commitIndex rf → entry_at rf' k = entry_at rf k.
Proof.
  destruct (reachable_inv n i rf Hi Hr) as [Hw _]. split; [done|].
  destruct (run_safe rf ev Hw Hok) as (rf' & Hrun & Hw'). exists rf'.
  by destruct (run_advances rf ev rf' Hw Hok Hrun).
Qed.

Lemma raft_step_safe_witness :
  ∃ rf', run (Make (C:=Z) 3 1 MakePersister 0) (EvAppend sample_message 5) = Ret rf' ∧ raft_wf rf' ∧
    last_index rf' = 1.
Proof.
  destruct (raft_step_safe 3 1 (Make (C:=Z) 3 1 MakePersister 0) (EvAppend sample_message 5))
    as (_ & rf' & Hrun & Hw & _).
  - lia.
  - apply reach_make.
  - intros _. split.
    + split; intros; repeat match goal with
        | Hk : aea_Entries sample_message !! ?k = Some _ |- _ =>
            destruct k as [|[|]]; [injection Hk as <-|discriminate Hk..] end; unfold zlen, sample_message in *; simpl; lia.
    + intros [|[|]] e l He Hl Hc; [|discriminate He..]. simpl in Hc. lia.
  - exists rf'. split; [exact Hrun|]. split; [exact Hw|]. vm_compute in Hrun. injection Hrun as <-. reflexivity.
Defined.

(** C14: what a peer must not forget survives a crash at any point: a peer made
    from the storage of a reachable one has the same term, vote, log and
    snapshot position, and re-applies from the snapshot on. *)
Theorem raft_crash_recovers {C} `{Codec (Z * Z * list (LogEntry C) * Z * Z)} (n i : Z) (rf : Raft C)
    (now : Z) (Hi : 0 ≤ i < n) (Hr : reachable n i rf) :
  let rf' := Make n i (persister rf) now in
  saved rf' = saved rf ∧ state rf' = FOLLOWER ∧ lastApplied rf' = lastIncludedIndex rf ∧
  commitIndex rf' = lastIncludedIndex rf.
Proof. destruct (reachable_inv n i rf Hi Hr) as [_ Hrec]. apply Hrec. Qed.

(** The candidate a fresh peer becomes at its first timeout. *)
Definition sample_candidate : Raft Z :=
  match run (Make 3 1 MakePersister 0) (EvTick 1000 300) with
  | Ret rf => rf
  | _ => Make 3 1 MakePersister 0
  end.

Lemma raft_crash_recovers_witness :
  let rf' := Make (C:=Z) 3 1 (persister sample_candidate) 2000 in
  saved rf' = (1, 1, [zeroEntry], 0, 0) ∧ state rf' = FOLLOWER.
Proof.
  destruct (raft_crash_recovers 3 1 sample_candidate 2000 ltac:(lia)) as (Hs & Hst & _);
    [|by split; [etrans; [exact Hs|vm_compute; reflexivity]|exact Hst]].
  apply (reach_step 3 1 (Make 3 1 MakePersister 0) (EvTick 1000 300));
    [apply reach_make|exact I|vm_compute; reflexivity].
Defined.

(** [countReplica] computes the commit index of the protocol: it never
    moves back, and when it moves it moves to the highest entry of the
    leader's own term that a majority of the peers hold. *)
Theorem countReplica_correct {C} (rf : Raft C) (Hw : raft_wf rf) :
  ∃ n, countReplica rf = Ret n ∧ commitIndex rf ≤ n ≤ last_index rf ∧
    (commitIndex rf < n → majority_at rf n ∧
       term_at rf (Z.to_nat (n - lastIncludedIndex rf)) = currentTerm rf) ∧
    (∀ k, n < k ≤ last_index rf →
       term_at rf (Z.to_nat (k - lastIncludedIndex rf)) = currentTerm rf → ¬ majority_at rf k).
Proof. by apply countReplica_spec. Qed.

Lemma countReplica_correct_witness :
  countReplica sample_leader = Ret 2 ∧ ∃ n, countReplica sample_leader = Ret n ∧ 0 ≤ n.
Proof.
  split; [done|]. destruct (countReplica_correct sample_leader sample_leader_wf) as (n & Hn & [Hr _] & _).
  exists n. split; [exact Hn|exact Hr].
Defined.
