(* ===== verification/RaftOps.v ===== *)
(** * The operations of a Raft peer, one by one

    What each RPC handler and each call of the service does to the log, stated
    on the logical entries ([entry_at], [term_at]) rather than on slices. *)

From S2P Require Import Prelude Persister RaftApi Raft RaftLog RaftAppend RaftSteps RaftSpec.
Import Raft.

Section ops.
Context {C : Type} `{Codec (Z * Z * list (LogEntry C) * Z * Z)}.
Implicit Types (rf : Raft C).

(** The term of the entry at a logical index: the stand-in's at the snapshot's
    last index. *)
Definition index_term rf (i : Z) : option Z :=
  if i =? lastIncludedIndex rf then Some (lastIncludedTerm rf) else le_Term <$> entry_at rf i.

Lemma index_term_at rf i :
  lastIncludedIndex rf ≤ i ≤ last_index rf →
  index_term rf i = Some (term_at rf (Z.to_nat (i - lastIncludedIndex rf))).
Proof.
  intros Hi. unfold index_term, entry_at. destruct (Z.eqb_spec i (lastIncludedIndex rf)) as [->|Hne].
  - by rewrite Z.sub_diag.
  - case_test; [|lia]. unfold term_at. destruct (Z.to_nat (i - lastIncludedIndex rf)) eqn:E; [lia|].
    rewrite <- E. destruct (lookup_lt_is_Some_2 (Log rf) (Z.to_nat (i - lastIncludedIndex rf))) as [e He].
    { unfold last_index, zlen in Hi. lia. }
    by rewrite He.
Qed.

(** The first [k] entries of a message are there already, as far as their terms
    tell. *)
Definition agrees_to rf (args : AppendEntriesArgs C) (k : nat) : Prop :=
  ∀ j, (j < k)%nat → ∃ x e, entry_at rf (aea_PrevLogIndex args + 1 + Z.of_nat j) = Some x ∧
    aea_Entries args !! j = Some e ∧ le_Term x = le_Term e.

(** The log a message [args] makes of that of [rf]: what precedes the message
    stays; an entry of the message replaces what the log had unless the two
    agree up to there; after the message the old log stays only when nothing
    was in conflict. *)
Record replaced_by rf rf' (args : AppendEntriesArgs C) : Prop := {
  rb_before : ∀ i, i ≤ aea_PrevLogIndex args → entry_at rf' i = entry_at rf i;
  rb_kept : ∀ k e, aea_Entries args !! k = Some e → agrees_to rf args (S k) →
    entry_at rf' (aea_PrevLogIndex args + 1 + Z.of_nat k) = entry_at rf (aea_PrevLogIndex args + 1 + Z.of_nat k);
  rb_new : ∀ k e, aea_Entries args !! k = Some e → ¬ agrees_to rf args (S k) →
    entry_at rf' (aea_PrevLogIndex args + 1 + Z.of_nat k) = Some e;
  rb_after : ∀ i, aea_PrevLogIndex args + zlen (aea_Entries args) < i →
    agrees_to rf args (length (aea_Entries args)) → entry_at rf' i = entry_at rf i;
  rb_cut : ∀ i, aea_PrevLogIndex args + zlen (aea_Entries args) < i →
    ¬ agrees_to rf args (length (aea_Entries args)) → entry_at rf' i = None
}.

(** The same of the two lists of entries. *)
Definition meets (rest es : list (LogEntry C)) (k : nat) : Prop :=
  ∀ j, (j < k)%nat → ∃ x e, rest !! j = Some x ∧ es !! j = Some e ∧ le_Term x = le_Term e.

Lemma meets_cons x rest e es k :
  meets (x :: rest) (e :: es) (S k) ↔ le_Term x = le_Term e ∧ meets rest es k.
Proof.
  split.
  - intros Hm. split; [by destruct (Hm 0%nat) as (? & ? & [= <-] & [= <-] & ?); [lia|]|].
    intros j Hj. apply (Hm (S j)). lia.
  - intros [Ht Hm] [|j] Hj; [by exists x, e|]. apply Hm. lia.
Qed.

Lemma merge_lookup (rest es : list (LogEntry C)) k :
  (meets rest es (S k `min` length es) → merge rest es !! k = rest !! k) ∧
  (¬ meets rest es (S k `min` length es) → merge rest es !! k = es !! k).
Proof.
  revert rest k. induction es as [|e es IH]; intros rest k.
  - rewrite Nat.min_0_r. simpl. split; [done|]. intros []. intros j Hj. lia.
  - destruct rest as [|x rest].
    { split; [|done]. intros Hm. destruct (Hm 0%nat) as (? & ? & ? & _); [simpl; lia|done]. }
    change (S k `min` length (e :: es))%nat with (S (k `min` length es)). rewrite meets_cons. simpl merge.
    destruct (Z.eqb_spec (le_Term e) (le_Term x)) as [Ht|Ht]; cycle 1.
    { split; [|done]. by intros [? _]. }
    destruct k as [|k]; simpl; [split; [done|]|].
    + intros []. split; [done|]. intros j Hj. lia.
    + destruct (IH rest k) as [IH1 IH2]. split; [by intros [_ ?]; apply IH1|].
      intros Hn. apply IH2. intros ?. by apply Hn.
Qed.

(** An accepted message replaces the log so. *)
Lemma merged_replaced rf rf' args :
  prev_matches rf args → Log rf' = merged_log rf args → lastIncludedIndex rf' = lastIncludedIndex rf →
  replaced_by rf rf' args.
Proof.
  intros Hp HL HI. destruct (merged_prefix_length rf args Hp) as [Hn1 Hn2].
  set (n := Z.to_nat (aea_PrevLogIndex args - lastIncludedIndex rf + 1)) in *.
  assert (∀ k, entry_at rf (aea_PrevLogIndex args + 1 + Z.of_nat k) = drop n (Log rf) !! k) as Hold.
  { intros k. unfold entry_at. case_test; [|lia]. rewrite lookup_drop. f_equal. lia. }
  assert (∀ k, entry_at rf' (aea_PrevLogIndex args + 1 + Z.of_nat k) =
    merge (drop n (Log rf)) (aea_Entries args) !! k) as Hnew.
  { intros k. unfold entry_at. rewrite HI. case_test; [|lia]. rewrite HL.
    pose proof (merged_lookup_post rf args Hp k) as E. fold n in E. rewrite <- E. f_equal. lia. }
  assert (∀ k, agrees_to rf args k ↔ meets (drop n (Log rf)) (aea_Entries args) k) as Hag.
  { intros k. unfold agrees_to, meets. by setoid_rewrite Hold. }
  assert (∀ i, aea_PrevLogIndex args + zlen (aea_Entries args) < i → ∃ k,
    i = aea_PrevLogIndex args + 1 + Z.of_nat k ∧ (length (aea_Entries args) ≤ k)%nat) as Hafter.
  { intros i Hi. exists (Z.to_nat (i - aea_PrevLogIndex args - 1)). unfold zlen in Hi. lia. }
  split.
  - intros i Hi. unfold entry_at. rewrite HI. case_test; [|done]. rewrite HL.
    apply merged_lookup_pre; [done|lia].
  - intros k e Hk Ha. rewrite Hnew, Hold. apply merge_lookup. apply Hag.
    apply lookup_lt_Some in Hk. by rewrite Nat.min_l by lia.
  - intros k e Hk Ha. rewrite Hnew, <- Hk. apply merge_lookup. rewrite <- Hag.
    apply lookup_lt_Some in Hk. by rewrite Nat.min_l by lia.
  - intros i (k & -> & Hk)%Hafter Ha. rewrite Hnew, Hold. apply merge_lookup. apply Hag. by rewrite Nat.min_r by lia.
  - intros i (k & -> & Hk)%Hafter Ha. rewrite Hnew. rewrite (proj2 (merge_lookup _ _ _)).
    + by apply lookup_ge_None_2.
    + rewrite <- Hag. by rewrite Nat.min_r by lia.
Qed.

(** [merge] changes nothing when the entries are those of the log already. *)
Lemma merge_prefix (rest es : list (LogEntry C)) :
  (∀ k e, es !! k = Some e → ∃ x, rest !! k = Some x ∧ le_Term x = le_Term e) →
  merge rest es = rest.
Proof.
  revert rest. induction es as [|e es IH]; intros rest Hag; [by destruct rest|].
  destruct rest as [|x rest].
  { by destruct (Hag 0%nat e) as (? & ? & ?). }
  simpl. destruct (Hag 0%nat e) as (x' & [= <-] & Ht); [done|].
  rewrite (proj2 (Z.eqb_eq _ _)) by done. f_equal. apply IH. intros k. apply (Hag (S k)).
Qed.
End ops.

(** ** Replication *)

(** C15: AppendEntries is answered with success exactly when the message is of
    the peer's term or later and the peer holds the entry before the
    message's.  Its new log is then determined entry by entry ([replaced_by]):
    what precedes the message stays, an entry of the message is put in its
    place with its command, unless the log agrees in terms up to there, and what
    follows the message is kept when nothing was in conflict and cut off
    otherwise.  What was committed stays if the message does not contradict it.
    Whatever the outcome the new state is on stable storage; if the message is
    refused the log is what it was. *)
Theorem AppendEntries_correct {C} `{Codec (Z * Z * list (LogEntry C) * Z * Z)} (rf : Raft C)
    (args : AppendEntriesArgs C) (now : Z) (Hw : raft_wf rf) (Hrec : recovers rf) :
  ∃ rf' reply, AppendEntries rf args now = Ret (rf', reply) ∧ recovers rf' ∧
    (aer_Success reply = true ↔ currentTerm rf ≤ aea_Term args ∧ prev_matches rf args) ∧
    (aer_Success reply = false → Log rf' = Log rf ∧ commitIndex rf' = commitIndex rf) ∧
    (aer_Success reply = true →
       currentTerm rf' = aea_Term args ∧ replaced_by rf rf' args ∧
       (respects_commit rf args → ∀ i, i ≤ commitIndex rf → entry_at rf' i = entry_at rf i) ∧
       commitIndex rf' = Z.max (commitIndex rf) (Z.min (aea_LeaderCommit args) (last_index rf))).
Proof.
  pose proof Hw as [Hl _ _ _ _ _ Hc].
  destruct (AppendEntries_cases rf args now Hl) as (rf' & reply & E & Hcase).
  pose proof (recovers_AppendEntries rf args now rf' reply Hl E Hrec) as Hrec'.
  exists rf', reply. split; [done|]. split; [done|]. destruct (append_enter_fields rf args now) as (EL & EI & _ & EC & _).
  destruct Hcase as [(Ht & -> & ->)|[(Ht & Hp & -> & _ & Hs & _)|(Ht & Hp & -> & np & -> & _)]].
  - simpl. split_and!; [split; [done|lia]|done..].
  - rewrite Hs. split_and!; [split; [done|tauto]|done..].
  - simpl. split_and!; [done|done|]. intros _. pose proof (append_enter_term rf args now Ht) as ET.
    unfold append_accept in *. set (rf2 := append_enter rf args now) in *. clearbody rf2.
    match goal with |- context [replaced_by _ ?r] => set (rf3 := r) in * end.
    assert (Log rf3 = merged_log rf args) as HL by (by destruct np).
    assert (lastIncludedIndex rf3 = lastIncludedIndex rf) as HI by (by destruct np).
    split_and!; [by destruct np|by apply merged_replaced| |].
    + intros Hr i Hi. by eapply merged_entry_at.
    + destruct np; simpl; unfold follower_commit; case_test; lia.
Qed.

(** A follower that lacks the second entry of the sample leader. *)
Definition sample_follower : Raft Z :=
  persist (mkRaft 3 2 false MakePersister 0 FOLLOWER [zeroEntry; mkLogEntry 1 (Some 10) 1] 1 (-1) 0 0 0
             [1; 1; 1] [0; 0; 0] 0 0 []).

Definition sample_append : AppendEntriesArgs Z :=
  mkAppendEntriesArgs 2 0 1 1 [mkLogEntry 2 (Some 20) 2] 1.

Lemma sample_follower_wf : raft_wf sample_follower.
Proof.
  split; try done. split; simpl; try done.
  - intros [|[|i]] e Hi; [lia|by intros [= <-]|done].
  - intros i j Hij. destruct i as [|[|i]], j as [|[|j]]; simpl in *; lia.
Qed.

Lemma sample_append_wf : append_args_wf sample_append.
Proof.
  split; simpl.
  - intros [|k] e; [by intros [= <-]|done].
  - intros [|k] e; [by intros [= <-]|done].
  - intros [|j] [|k] e e' Hj; try done. by intros [= <-] [= <-].
  - intros [|k] e; [by intros [= <-]|done].
  - done.
Qed.

(** The follower's second entry is of another term: it is replaced. *)
Definition sample_conflict : Raft Z :=
  persist (set_Log [zeroEntry; mkLogEntry 1 (Some 10) 1; mkLogEntry 1 (Some 11) 2; mkLogEntry 1 (Some 12) 3]
             sample_follower).

Lemma sample_conflict_wf : raft_wf sample_conflict.
Proof.
  split; try done. split; simpl; try done.
  - intros [|[|[|[|i]]]] e Hi; try lia; try (by intros [= <-]); done.
  - intros i j Hij. destruct i as [|[|[|[|i]]]], j as [|[|[|[|j]]]]; simpl in *; lia.
Qed.

Lemma AppendEntries_correct_witness :
  ∃ rf' reply, AppendEntries sample_conflict sample_append 5 = Ret (rf', reply) ∧
    entry_at rf' 2 = Some (mkLogEntry 2 (Some 20) 2) ∧ entry_at rf' 3 = None.
Proof.
  assert (∀ k, (1 ≤ k)%nat → ¬ agrees_to sample_conflict sample_append k) as Hno.
  { intros k Hk Ha. destruct (Ha 0%nat ltac:(lia)) as (x & e & Hx & He & Ht).
    vm_compute in Hx. simpl in He. injection Hx as <-. injection He as <-. discriminate Ht. }
  destruct (AppendEntries_correct sample_conflict sample_append 5) as (rf' & reply & E & _ & Hs & _ & Hr).
  - apply sample_conflict_wf.
  - apply recovers_persist.
  - destruct (Hr (proj2 Hs ltac:(vm_compute; split_and!; discriminate || reflexivity))) as (_ & [_ _ Hn _ Hc] & _).
    exists rf', reply. split; [exact E|]. split.
    + exact (Hn 0%nat _ eq_refl (Hno 1%nat ltac:(lia))).
    + exact (Hc 3 ltac:(vm_compute; reflexivity) (Hno 1%nat ltac:(lia))).
Defined.

(** AppendEntries is idempotent on the log: a message delivered a second
    time, as the network may, leaves the log as the first delivery left it. *)
Theorem AppendEntries_idempotent {C} `{Codec (Z * Z * list (LogEntry C) * Z * Z)} (rf rf1 rf2 : Raft C)
    (args : AppendEntriesArgs C) (now now' : Z) (reply1 reply2 : AppendEntriesReply)
    (Hw : raft_wf rf) (Ha : append_args_wf args) (Hr : respects_commit rf args)
    (H1 : AppendEntries rf args now = Ret (rf1, reply1)) (Hs : aer_Success reply1 = true)
    (H2 : AppendEntries rf1 args now' = Ret (rf2, reply2)) :
  aer_Success reply2 = true ∧ Log rf2 = Log rf1 ∧ commitIndex rf1 ≤ commitIndex rf2.
Proof.
  pose proof Hw as [Hl _ _ _ _ _ Hc].
  destruct (AppendEntries_wf rf args now Hw) as (rf1' & r1' & E1 & Hw1); [done|].
  assert (rf1' = rf1) as -> by congruence. clear E1. pose proof (rw_log _ Hw1) as Hl1.
  destruct (AppendEntries_cases rf args now Hl) as (? & ? & E & Hcase).
  rewrite H1 in E. injection E as <- <-.
  destruct Hcase as [(_ & _ & ->)|[(_ & _ & _ & _ & Hf & _)|(Ht & Hp & -> & np & Hrf1 & _)]];
    [done|congruence|].
  destruct (append_enter_fields rf args now) as (EL & EI & ET & _).
  pose proof (append_enter_term rf args now Ht) as Et.
  assert (Log rf1 = merged_log rf args) as HL1 by (rewrite Hrf1; by destruct np).
  assert (lastIncludedIndex rf1 = lastIncludedIndex rf ∧ lastIncludedTerm rf1 = lastIncludedTerm rf ∧
          currentTerm rf1 = aea_Term args) as (HI1 & HT1 & Hc1)
    by (rewrite Hrf1; unfold append_accept; by destruct np).
  destruct (merged_prefix_length rf args Hp) as [Hn1 Hn2].
  assert (prev_matches rf1 args) as Hp1.
  { destruct (merged_terms rf args Hp rf1 HL1 HT1) as [Hpre _]. destruct Hp as [Hb Hpt]. split.
    - rewrite HI1. unfold last_index, zlen. rewrite HL1, HI1, merged_length by done. lia.
    - rewrite HI1, Hpre; [done|lia]. }
  destruct (AppendEntries_cases rf1 args now' Hl1) as (? & ? & E & Hcase).
  rewrite H2 in E. injection E as <- <-.
  destruct Hcase as [(? & _)|[(_ & ? & _)|(_ & _ & -> & np' & -> & _)]]; [lia|done|].
  simpl. destruct (append_enter_fields rf1 args now') as (EL' & EI' & _).
  split_and!; [done| |].
  - transitivity (merged_log rf1 args); [by destruct np'|].
    unfold merged_log at 1. rewrite HI1.
    set (n := Z.to_nat (aea_PrevLogIndex args - lastIncludedIndex rf + 1)) in *.
    rewrite merge_prefix; [apply take_drop|].
    intros k e (x & Hx & Hxt)%(merge_terms (drop n (Log rf))). exists x. split; [|done].
    rewrite lookup_drop, HL1. pose proof (merged_lookup_post rf args Hp k) as E. fold n in E.
    by rewrite E.
  - simpl. unfold follower_commit. case_test; destruct np'; simpl; try lia.
    all: pose proof (rw_commit _ Hw1); lia.
Qed.

Definition sample_once : Raft Z :=
  match AppendEntries sample_follower sample_append 5 with
  | Ret (rf, _) => rf | _ => sample_follower end.

Definition sample_twice : Raft Z :=
  match AppendEntries sample_once sample_append 6 with Ret (rf, _) => rf | _ => sample_once end.

Lemma AppendEntries_idempotent_witness : Log sample_twice = Log sample_once.
Proof.
  pose (ok := mkAppendEntriesReply 2 true false 0 0).
  refine (proj1 (proj2 (AppendEntries_idempotent sample_follower sample_once sample_twice
    sample_append 5 6 ok ok sample_follower_wf sample_append_wf _ _ _ _))).
  - intros [|k] e l; [|done]. intros [= <-]. done.
  - vm_compute. reflexivity.
  - reflexivity.
  - vm_compute. reflexivity.
Defined.

(** the messages a leader sends are the ones its followers expect: the
    entries continue the one before them, terms do not decrease and do not
    exceed the leader's, nothing beyond them is announced as committed, and
    they are the leader's own log from the follower's next index on. *)
Theorem leader_message_wf {C} `{Codec (Z * Z * list (LogEntry C) * Z * Z)} (rf rf' : Raft C)
    (i : Z) (args : AppendEntriesArgs C) (Hw : raft_wf rf) (Hi : 0 ≤ i < peers rf)
    (Hrun : leader_prepare rf i = Ret (rf', SendEntries args)) :
  append_args_wf args ∧ aea_Term args = currentTerm rf ∧ aea_LeaderId args = me rf ∧
  state rf = LEADER ∧ nextIndex rf !! Z.to_nat i = Some (aea_PrevLogIndex args + 1) ∧
  (∀ k e, aea_Entries args !! k = Some e ↔ entry_at rf (aea_PrevLogIndex args + 1 + Z.of_nat k) = Some e).
Proof.
  destruct (leader_prepare_cases rf i Hw Hi) as (rf1 & out & next & E & _ & _ & Hn & Hcase).
  rewrite Hrun in E. injection E as <- <-. pose proof Hw as [Hl _ _ _ Hii _ Hc].
  destruct Hcase as [[_ ?]|[(_ & _ & ?)|(Hst & Hlt & pt & [= ->] & Hpt)]]; [done..|].
  simpl. rewrite Z.sub_add.
  assert (∀ k e, drop (Z.to_nat (next - lastIncludedIndex rf)) (Log rf) !! k = Some e ↔
            entry_at rf (next + Z.of_nat k) = Some e) as Hent.
  { intros k e. rewrite lookup_drop. unfold entry_at. case_test; [|lia].
    by replace (Z.to_nat (next - lastIncludedIndex rf) + k)%nat with
      (Z.to_nat (next + Z.of_nat k - lastIncludedIndex rf)) by lia. }
  assert (∀ k e, entry_at rf (next + Z.of_nat k) = Some e →
    (Z.to_nat (next + Z.of_nat k - lastIncludedIndex rf) < length (Log rf))%nat ∧
    term_at rf (Z.to_nat (next + Z.of_nat k - lastIncludedIndex rf)) = le_Term e) as Hterm.
  { intros k e. unfold entry_at. case_test; [|done]. intros He. split; [by eapply lookup_lt_Some|].
    unfold term_at. destruct (Z.to_nat (next + Z.of_nat k - lastIncludedIndex rf)) eqn:E; [lia|].
    by rewrite He. }
  split_and!; try done. split; simpl.
  - intros k e He. apply Hent in He. unfold entry_at in He. case_test_in He; [|done].
    apply (lw_index _ Hl) in He; lia.
  - intros k e He. apply Hent in He. destruct (Hterm _ _ He) as [Hk <-].
    destruct Hpt as [[Hle ->]|[_ ->]].
    + apply (lw_sorted _ Hl). lia.
    + pose proof (term_at_nonneg rf _ Hl Hk). lia.
  - intros j k e e' Hj He He'. apply Hent in He, He'.
    destruct (Hterm _ _ He) as [Hk <-], (Hterm _ _ He') as [Hk' <-]. apply (lw_sorted _ Hl). lia.
  - intros k e He. apply Hent in He. destruct (Hterm _ _ He) as [Hk <-]. by apply term_at_bound.
  - unfold zlen. rewrite length_drop. unfold last_index, zlen in Hc. lia.
Qed.

Lemma leader_message_wf_witness :
  append_args_wf (mkAppendEntriesArgs 2 0 0 0 (tail sample_log) 0).
Proof.
  refine (proj1 (leader_message_wf sample_leader _ 2 _ sample_leader_wf _ eq_refl)). simpl. lia.
Defined.

(** ** Votes *)

(** The test of the handler. *)
Lemma grant_test (v c i t : Z) (args : RequestVoteArgs) :
  ((v =? -1) || (v =? c)) && upToDate args i t = true ↔
  (v = -1 ∨ v = c) ∧ (t < rva_LastLogTerm args ∨ t = rva_LastLogTerm args ∧ i ≤ rva_LastLogIndex args).
Proof.
  unfold upToDate. rewrite andb_true_iff, !orb_true_iff, andb_true_iff, !Z.eqb_eq, Z.ltb_lt, Z.leb_le.
  naive_solver lia.
Qed.

(** RequestVote grants exactly when the candidate's term is not behind,
    the peer has not given its vote of that term to another, and the
    candidate's log is at least as up to date; a vote it grants is for the
    candidate, in the candidate's term, and on stable storage. *)
Theorem RequestVote_correct {C} `{Codec (Z * Z * list (LogEntry C) * Z * Z)} (rf : Raft C)
    (args : RequestVoteArgs) (now : Z) (Hw : raft_wf rf) (Hr : recovers rf) :
  ∃ rf' reply, RequestVote rf args now = Ret (rf', reply) ∧ recovers rf' ∧ Log rf' = Log rf ∧
    currentTerm rf' = Z.max (currentTerm rf) (rva_Term args) ∧ rvr_Term reply = currentTerm rf' ∧
    (rvr_VoteGranted reply = true ↔
       currentTerm rf ≤ rva_Term args ∧
       (currentTerm rf < rva_Term args ∨ votedFor rf = -1 ∨ votedFor rf = rva_CandidateId args) ∧
       (last_term rf < rva_LastLogTerm args ∨
        last_term rf = rva_LastLogTerm args ∧ last_index rf ≤ rva_LastLogIndex args)) ∧
    (rvr_VoteGranted reply = true → votedFor rf' = rva_CandidateId args).
Proof.
  destruct (RequestVote_wf rf args now Hw) as (rf' & reply & E & _). exists rf', reply.
  split; [done|]. split; [by eapply recovers_RequestVote|]. unfold RequestVote in E.
  set (rf1 := if currentTerm rf <? rva_Term args then _ else _) in *.
  assert (currentTerm rf1 = Z.max (currentTerm rf) (rva_Term args) ∧ Log rf1 = Log rf ∧
    last_index rf1 = last_index rf ∧ last_term rf1 = last_term rf ∧ raft_wf rf1 ∧
    ((votedFor rf1 = -1 ∨ votedFor rf1 = rva_CandidateId args) ↔
     (currentTerm rf < rva_Term args ∨ votedFor rf = -1 ∨ votedFor rf = rva_CandidateId args)))
    as (Ht & HL & Hi & Hlt & Hw1 & Hv).
  { unfold rf1. case_test.
    - split_and!; try done; [simpl; lia|apply FollowerState_wf; [lia|done]|]. simpl. tauto.
    - split_and!; try done; [lia|]. split; [by right|]. intros [?|?]; [lia|done]. }
  clearbody rf1. case_test_in E.
  { injection E as <- <-. simpl. split_and!; try done. split; [done|]. intros [? _]. lia. }
  rewrite getLastLogIndex_eq, bind_Ret, getLastLogTerm_eq, bind_Ret in E by apply Hw1.
  rewrite Hi, Hlt in E. destruct (_ && _) eqn:Hg in E; injection E as <- <-; simpl.
  - apply grant_test in Hg as [Hg1 Hg2]. split_and!; try done. split; [|done]. intros _.
    split_and!; [lia|by apply Hv|done].
  - split_and!; try done. split; [done|]. intros (_ & Hvote & Hup).
    rewrite (proj2 (grant_test _ _ _ _ _)) in Hg; [done|]. split; [by apply Hv|done].
Qed.

Definition sample_vote : RequestVoteArgs := mkRequestVoteArgs 3 1 1 1.

Lemma RequestVote_correct_witness :
  ∃ rf' reply, RequestVote sample_follower sample_vote 5 = Ret (rf', reply) ∧
    rvr_Term reply = currentTerm rf' ∧ currentTerm rf' = 3.
Proof.
  destruct (RequestVote_correct sample_follower sample_vote 5 sample_follower_wf (recovers_persist _))
    as (rf' & reply & E & _ & _ & Ht & Hrt & _).
  exists rf', reply. split; [exact E|]. split; [exact Hrt|exact Ht].
Defined.

(** ** Snapshots *)

(** [Snapshot] forgets nothing the log still has to provide: the entries
    above the snapshot's index, their positions, the last index and the term
    at the cut are unchanged, and the snapshot is stored together with the log
    it belongs to. *)
Theorem Snapshot_correct {C} `{Codec (Z * Z * list (LogEntry C) * Z * Z)} (rf : Raft C)
    (target : Z) (snap : bytes) (Hw : raft_wf rf) (Hr : recovers rf)
    (Ht : lastIncludedIndex rf < target ≤ commitIndex rf) :
  ∃ rf', Snapshot rf target snap = Ret rf' ∧ raft_wf rf' ∧ recovers rf' ∧
    lastIncludedIndex rf' = target ∧ Some (lastIncludedTerm rf') = index_term rf target ∧
    last_index rf' = last_index rf ∧ (∀ k, target < k → entry_at rf' k = entry_at rf k) ∧
    GetSnapshot rf' = snap.
Proof.
  destruct (Snapshot_cases rf target snap Hw) as (rf' & E & Hw' & Hcase); [lia|].
  exists rf'. split; [done|]. split; [done|].
  split; [eapply (run_durable rf (EvSnapshot target snap)); [done|simpl; lia|done..]|].
  destruct Hcase as [[? _]|(_ & HI & _ & _ & _ & _ & _ & Hp & i & Hi & Htr)]; [lia|].
  pose proof (tr_lii _ _ _ Htr) as HI'. pose proof (rw_commit _ Hw). split_and!; [done| | | |].
  - rewrite index_term_at by lia. rewrite (tr_lit _ _ _ Htr). do 2 f_equal. lia.
  - by eapply trimmed_last.
  - intros k Hk. eapply trimmed_entry_at; [done|lia].
  - unfold GetSnapshot. rewrite Hp. by autorewrite with shardkv.
Qed.

(** The sample leader with both entries committed. *)
Definition sample_stored : Raft Z := persist (set_commitIndex 2 sample_leader).

Lemma sample_stored_wf : raft_wf sample_stored.
Proof. split; try done. by apply sample_log_wf. Qed.

Lemma Snapshot_correct_witness :
  ∃ rf', Snapshot sample_stored 1 [7] = Ret rf' ∧ lastIncludedIndex rf' = 1 ∧ GetSnapshot rf' = [7].
Proof.
  destruct (Snapshot_correct sample_stored 1 [7] sample_stored_wf (recovers_persist _))
    as (rf' & E & _ & _ & HI & _ & _ & _ & Hs); [simpl; lia|].
  exists rf'. split; [exact E|]. split; [exact HI|exact Hs].
Defined.

(** a snapshot from the leader is installed exactly when it is ahead of
    what the peer has committed; then it is stored, becomes the commit and
    applied index, and the entries after it are kept when the log has the
    entry the snapshot ends with, and discarded otherwise. *)
Theorem CondInstallSnapshot_correct {C} `{Codec (Z * Z * list (LogEntry C) * Z * Z)} (rf : Raft C)
    (lit lii : Z) (snap : bytes) (Hw : raft_wf rf) (Hr : recovers rf) (Hlit : 0 ≤ lit ≤ currentTerm rf) :
  ∃ rf' b, CondInstallSnapshot rf lit lii snap = Ret (rf', b) ∧ raft_wf rf' ∧ recovers rf' ∧
    (b = true ↔ commitIndex rf < lii) ∧ (b = false → rf' = rf) ∧
    (b = true → lastIncludedIndex rf' = lii ∧ lastIncludedTerm rf' = lit ∧ lastApplied rf' = lii ∧
       commitIndex rf' = lii ∧ GetSnapshot rf' = snap ∧
       ∀ k, lii < k → entry_at rf' k = if bool_decide (index_term rf lii = Some lit)
                                       then entry_at rf k else None).
Proof.
  destruct (CondInstallSnapshot_cases rf lit lii snap Hw Hlit) as (rf' & b & E & Hw' & Hcase).
  exists rf', b. split; [done|]. split; [done|]. split.
  { eapply (run_durable rf (EvCondInstall lit lii snap)); [done..| |done]. simpl. by rewrite E. }
  pose proof Hw as [Hl _ _ _ Hii Hap Hc].
  destruct Hcase as [(Hle & -> & ->)|(Hlt & -> & HI & HT & HA & HC & _ & _ & _ & Hp & Hlog)].
  { split_and!; try done. split; [done|lia]. }
  split_and!; try done. intros _. split_and!; try done.
  { unfold GetSnapshot. rewrite Hp. by autorewrite with shardkv. }
  intros k Hk. destruct Hlog as [(i & Hi & Htr)|[HL Hno]].
  - rewrite bool_decide_eq_true_2; [eapply trimmed_entry_at; [done|lia]|].
    pose proof (tr_lii _ _ _ Htr) as HI'. pose proof (tr_lit _ _ _ Htr) as HT'.
    rewrite index_term_at by (unfold last_index, zlen; lia). rewrite <- HT, HT'. do 2 f_equal. lia.
  - rewrite bool_decide_eq_false_2.
    + unfold entry_at. rewrite HL. case_test; [|done]. rewrite lookup_ge_None_2; [done|]. simpl. lia.
    + intros Hit. destruct (decide (lii ≤ last_index rf)) as [Hin|Hout].
      * rewrite index_term_at in Hit by lia. injection Hit as Hit.
        apply (Hno (Z.to_nat (lii - lastIncludedIndex rf))).
        { unfold last_index, zlen in Hin. lia. }
        split; [done|lia].
      * unfold index_term, entry_at in Hit. case_test_in Hit; [lia|]. case_test_in Hit; [|done].
        rewrite lookup_ge_None_2 in Hit; [done|]. unfold last_index, zlen in Hout. lia.
Qed.

Lemma CondInstallSnapshot_correct_witness :
  ∃ rf' b, CondInstallSnapshot sample_follower 1 1 [9] = Ret (rf', b) ∧ (b = true ↔ 0 < 1).
Proof.
  destruct (CondInstallSnapshot_correct sample_follower 1 1 [9] sample_follower_wf (recovers_persist _))
    as (rf' & b & E & _ & _ & Hb & _); [simpl; lia|].
  exists rf', b. split; [exact E|exact Hb].
Defined.

(** ** The applier *)

(** the applier hands the service exactly the entries it has committed
    and not yet applied, each once, in order, with its index; after it has
    recorded them the next batch starts where this one ended. *)
Theorem applyChecker_in_order {C} (rf : Raft C) (Hw : raft_wf rf) :
  ∃ o, applyChecker_take rf = Ret o ∧
    match o with
    | None => commitIndex rf = lastApplied rf
    | Some (msgs, commit) =>
        commit = commitIndex rf ∧ zlen msgs = commit - lastApplied rf ∧
        (∀ k m, msgs !! k = Some m → ∃ e,
          entry_at rf (lastApplied rf + 1 + Z.of_nat k) = Some e ∧
          m = command_msg (le_Command e) (lastApplied rf + 1 + Z.of_nat k)) ∧
        lastApplied (applyChecker_done rf commit) = lastApplied rf + zlen msgs
    end.
Proof.
  destruct (applyChecker_take_cases rf Hw) as (o & E & Ho). exists o. split; [done|].
  pose proof (rw_applied _ Hw). destruct o as [[msgs commit]|]; [|lia].
  destruct Ho as (-> & Hlt & Hlen & Hm). split_and!; try done.
  unfold applyChecker_done. case_test; simpl; lia.
Qed.

Lemma applyChecker_in_order_witness :
  applyChecker_take sample_stored = Ret (Some ([command_msg (Some 10) 1; command_msg (Some 20) 2], 2)) ∧
  ∃ o, applyChecker_take sample_stored = Ret o.
Proof.
  split; [done|]. destruct (applyChecker_in_order sample_stored sample_stored_wf) as (o & E & _).
  exists o. exact E.
Defined.
