(* ===== verification/RaftElection.v ===== *)
(** * Election safety: at most one leader per term

    The peers of a group, with the RequestVote calls and replies in flight.
    Everything else that can happen to a peer (AppendEntries or InstallSnapshot
    from anybody, client commands, snapshots, crashes) is an arbitrary event of
    that peer: election safety does not depend on it.  A goroutine per voter sends
    the call up to four times; calls and replies may be lost, repeated, delayed
    without bound and reordered, and the goroutine ends with the first reply it
    takes. *)

From S2P Require Import Prelude Persister RaftApi Raft RaftLog RaftAppend RaftSteps RaftSpec RaftOps.
Import Raft.

Section view.
Context {C : Type} `{Codec (Z * Z * list (LogEntry C) * Z * Z)}.
Implicit Types (rf : Raft C).

(** The events that are no part of an election. *)
Definition quiet_event (ev : event (C:=C)) : bool :=
  match ev with EvVote _ _ | EvTick _ _ | EvVoteReply _ _ => false | _ => true end.

(** What a step outside an election does to a peer's term, vote and role:
    nothing, a later term without a vote, a candidate that gives up, or a
    restart. *)
Inductive vstep rf rf' : Prop :=
| vs_same : currentTerm rf' = currentTerm rf → votedFor rf' = votedFor rf → state rf' = state rf →
    getVotesNum rf' = getVotesNum rf → vstep rf rf'
| vs_later : currentTerm rf < currentTerm rf' → state rf' = FOLLOWER → vstep rf rf'
| vs_yield : currentTerm rf' = currentTerm rf → state rf = CANDIDATE → state rf' = FOLLOWER → vstep rf rf'
| vs_restart : currentTerm rf' = currentTerm rf → votedFor rf' = votedFor rf → state rf' = FOLLOWER →
    vstep rf rf'.

Lemma vstep_append rf args now rf' reply :
  log_wf rf → AppendEntries rf args now = Ret (rf', reply) → vstep rf rf'.
Proof.
  intros Hw Hrun. destruct (AppendEntries_cases rf args now Hw) as (rf1 & reply1 & E & Hcase).
  assert (rf1 = rf') as -> by congruence. clear E Hrun.
  assert (currentTerm rf ≤ aea_Term args → vstep rf (append_enter rf args now)) as He.
  { intros Ht. unfold append_enter. case_test; [|by apply vs_same].
    destruct (decide (currentTerm rf < aea_Term args)); [by apply vs_later|].
    apply vs_yield; simpl; [lia| |done]. destruct Htest as [?|?]; bool_to_prop; [lia|done]. }
  destruct Hcase as [(_ & -> & _)|[(? & _ & -> & _)|(Ht & Hp & _ & np & -> & Hnp)]];
    [by apply vs_same|by apply He|].
  destruct (He Ht); [apply vs_same|apply vs_later|apply vs_yield|apply vs_restart];
    destruct np; simpl; done.
Qed.

Lemma LeaderState_view rf rf' :
  raft_wf rf → LeaderState rf = Ret rf' →
  state rf' = LEADER ∧ currentTerm rf' = currentTerm rf ∧ votedFor rf' = votedFor rf ∧
  me rf' = me rf ∧ peers rf' = peers rf.
Proof.
  intros Hw HL. destruct (LeaderState_spec rf Hw) as (ni & mi & E & _). rewrite E in HL.
  by injection HL as <-.
Qed.

Lemma vstep_quiet rf ev rf' :
  raft_wf rf → event_ok rf ev → quiet_event ev = true → run rf ev = Ret rf' → vstep rf rf'.
Proof.
  intros Hw Hok Hq Hrun. destruct ev; try done; cbn [run] in Hrun; simpl in Hok.
  - inv_bind Hrun. injection Hrun as <-. destruct x. eapply vstep_append; [apply Hw|done].
  - injection Hrun as <-. unfold InstallSnapshot. case_test; [by apply vs_same|].
    destruct (Z.ltb_spec (currentTerm rf) (isa_Term args)); case_test; simpl;
      first [by apply vs_same|by apply vs_later].
  - inv_bind Hrun. injection Hrun as <-. unfold leader_prepare, prepare_entries in Hb. inv_bind Hb. case_test_in Hb.
    { case_test_in Hb; injection Hb as <-; by apply vs_same. }
    inv_bind Hb. destruct x1 as [[? ?] ?]. do 4 inv_bind Hb.
    case_test_in Hb; injection Hb as <-; by apply vs_same.
  - unfold handle_append_reply in Hrun. case_test_in Hrun.
    { injection Hrun as <-. by apply vs_later. }
    case_test_in Hrun; [by injection Hrun as <-; apply vs_same|]. inv_bind Hrun. inv_bind Hrun.
    injection Hrun as <-. case_test_in Hb.
    { do 3 inv_bind Hb. injection Hb as <-. by apply vs_same. }
    case_test_in Hb; [|by injection Hb as <-; apply vs_same].
    destruct (handleLogInconsistency_wf rf i reply Hw Hok) as (ni & E & _). rewrite E in Hb.
    injection Hb as <-. by apply vs_same.
  - unfold handle_install_reply in Hrun. case_test_in Hrun.
    { injection Hrun as <-. by apply vs_later. }
    case_test_in Hrun; [by injection Hrun as <-; apply vs_same|].
    case_test_in Hrun; [by injection Hrun as <-; apply vs_same|]. inv_bind Hrun. inv_bind Hrun.
    injection Hrun as <-. case_test_in Hb; [|by injection Hb as <-; apply vs_same].
    inv_bind Hb. case_test_in Hb; [|by injection Hb as <-; apply vs_same].
    do 3 inv_bind Hb. injection Hb as <-. by apply vs_same.
  - inv_bind Hrun. injection Hrun as <-. destruct (Start_cases rf c Hw) as (rf1 & i & t & l & E & _ & Hl).
    rewrite E in Hb. injection Hb as <-. destruct l.
    + destruct Hl as (_ & _ & _ & _ & _ & ->). by apply vs_same.
    + destruct Hl as (_ & -> & _). by apply vs_same.
  - inv_bind Hrun. injection Hrun as <-. unfold CondInstallSnapshot in Hb.
    case_test_in Hb; [by injection Hb as <-; apply vs_same|]. do 2 inv_bind Hb. injection Hb as <-.
    apply vs_same; simpl; by repeat case_test.
  - unfold Snapshot in Hrun. case_test_in Hrun; [by injection Hrun as <-; apply vs_same|].
    inv_bind Hrun. destruct x as [[? ?] ?]. inv_bind Hrun. injection Hrun as <-.
    apply vs_same; simpl; by repeat case_test.
  - inv_bind Hrun. injection Hrun as <-. by apply vs_same.
  - injection Hrun as <-. unfold applyChecker_done. case_test; by apply vs_same.
  - injection Hrun as <-. by apply vs_same.
Qed.

(** A peer keeps its number and the size of its group. *)
Lemma run_static rf ev rf' :
  raft_wf rf → event_ok rf ev → run rf ev = Ret rf' → me rf' = me rf ∧ peers rf' = peers rf.
Proof.
  intros Hw Hok Hrun. destruct ev; cbn [run] in Hrun; simpl in Hok.
  - inv_bind Hrun. injection Hrun as <-. unfold RequestVote in Hb.
    set (rf1 := if currentTerm rf <? rva_Term args then _ else _) in *.
    assert (me rf1 = me rf ∧ peers rf1 = peers rf) as [<- <-] by (unfold rf1; by case_test).
    case_test_in Hb; [by injection Hb as <-|]. do 2 inv_bind Hb. by case_test_in Hb; injection Hb as <-.
  - inv_bind Hrun. injection Hrun as <-.
    destruct (AppendEntries_cases rf args now (rw_log _ Hw)) as (rf1 & reply1 & E & Hcase).
    rewrite E in Hb. injection Hb as <-. simpl.
    destruct (append_enter_fields rf args now) as (_ & _ & _ & _ & _ & EP & EM & _).
    destruct Hcase as [(_ & -> & _)|[(? & _ & -> & _)|(Ht & Hp & _ & np & -> & Hnp)]]; [done..|].
    by destruct np.
  - injection Hrun as <-. unfold InstallSnapshot. repeat case_test; done.
  - inv_bind Hrun. injection Hrun as <-. unfold ticker in Hb.
    case_test_in Hb; [by injection Hb as <-|]. case_test_in Hb; [by injection Hb as <-|].
    inv_bind Hb. by injection Hb as <-.
  - unfold handle_vote_reply in Hrun. case_test_in Hrun; [by injection Hrun as <-|].
    case_test_in Hrun; [by injection Hrun as <-|]. case_test_in Hrun; [|by injection Hrun as <-].
    case_test_in Hrun; [|by injection Hrun as <-]. apply LeaderState_view in Hrun; [naive_solver|].
    pose proof Hw as [? ? ? ? ? ? ?]. apply (raft_wf_frame rf); simpl; done || lia.
  - inv_bind Hrun. injection Hrun as <-. unfold leader_prepare, prepare_entries in Hb. inv_bind Hb. case_test_in Hb.
    { case_test_in Hb; by injection Hb as <-. }
    inv_bind Hb. destruct x1 as [[? ?] ?]. do 4 inv_bind Hb. case_test_in Hb; by injection Hb as <-.
  - unfold handle_append_reply in Hrun. case_test_in Hrun; [by injection Hrun as <-|].
    case_test_in Hrun; [by injection Hrun as <-|]. inv_bind Hrun. inv_bind Hrun.
    injection Hrun as <-. case_test_in Hb; [do 3 inv_bind Hb; by injection Hb as <-|].
    case_test_in Hb; [|by injection Hb as <-].
    destruct (handleLogInconsistency_wf rf i reply Hw Hok) as (ni & E & _). rewrite E in Hb.
    by injection Hb as <-.
  - unfold handle_install_reply in Hrun. case_test_in Hrun; [by injection Hrun as <-|].
    case_test_in Hrun; [by injection Hrun as <-|]. case_test_in Hrun; [by injection Hrun as <-|].
    inv_bind Hrun. inv_bind Hrun. injection Hrun as <-. case_test_in Hb; [|by injection Hb as <-].
    inv_bind Hb. case_test_in Hb; [|by injection Hb as <-]. do 3 inv_bind Hb. by injection Hb as <-.
  - inv_bind Hrun. injection Hrun as <-. destruct (Start_cases rf c Hw) as (rf1 & i & t & l & E & _ & Hl).
    rewrite E in Hb. injection Hb as <-. destruct l.
    + by destruct Hl as (_ & _ & _ & _ & _ & ->).
    + by destruct Hl as (_ & -> & _).
  - inv_bind Hrun. injection Hrun as <-. unfold CondInstallSnapshot in Hb.
    case_test_in Hb; [by injection Hb as <-|]. do 2 inv_bind Hb. injection Hb as <-. simpl.
    by repeat case_test.
  - unfold Snapshot in Hrun. case_test_in Hrun; [by injection Hrun as <-|].
    inv_bind Hrun. destruct x as [[? ?] ?]. inv_bind Hrun. injection Hrun as <-. simpl.
    by repeat case_test.
  - inv_bind Hrun. by injection Hrun as <-.
  - injection Hrun as <-. unfold applyChecker_done. by case_test.
  - by injection Hrun as <-.
Qed.

Lemma reachable_static n i rf : 0 ≤ i < n → reachable n i rf → me rf = i ∧ peers rf = n.
Proof.
  intros Hi Hr. assert (Hr' := Hr). revert Hr'.
  induction Hr as [now|rf ev rf' Hr IH Hok Hrun|rf now Hr IH]; intros _.
  - done.
  - destruct (IH Hr) as [<- <-]. destruct (reachable_inv _ _ rf Hi Hr) as [Hw _].
    by eapply run_static.
  - by destruct (Make_static n i (persister rf) now) as (? & ? & _).
Qed.
End view.

(** ** The network *)
Section network.
Context {C : Type} `{Codec (Z * Z * list (LogEntry C) * Z * Z)}.
Context (n : Z).
Implicit Types (rf : Raft C).

(** The peers, the calls that were sent (addressee and arguments) and the replies,
    either of which may still arrive any number of times; the history of the
    elections: which votes were granted (voter, term, candidate), which votes
    each candidate has counted in a term, and who was elected when; and the
    goroutines that wait for a vote, by candidate, term and voter, with their
    variable [retry]. *)
Record net := mkNet {
  n_peer : gmap Z (Raft C);
  n_calls : list (Z * RequestVoteArgs);
  n_replies : list (Z * RequestVoteArgs * RequestVoteReply);
  n_granted : gset (Z * Z * Z);
  n_counted : gmap (Z * Z) (gset Z);
  n_elected : gset (Z * Z);
  n_open : gmap (Z * Z * Z) Z
}.
Implicit Types (N : net).

Definition counted N (c T : Z) : gset Z := default ∅ (n_counted N !! (c, T)).

(** Every peer starts on empty storage. *)
Definition net_init N : Prop :=
  (∀ i rf, n_peer N !! i = Some rf → 0 ≤ i < n ∧ ∃ now, rf = Make n i MakePersister now) ∧
  n_calls N = [] ∧ n_replies N = [] ∧ n_granted N = ∅ ∧ n_counted N = ∅ ∧
  n_elected N = ∅ ∧ n_open N = ∅.

(** The calls of [candidateRequestVote]: one to every other peer. *)
Definition vote_calls (o : option RequestVoteArgs) : list (Z * RequestVoteArgs) :=
  match o with
  | None => []
  | Some args => map (λ j, (j, args)) (filter (λ j, j ≠ rva_CandidateId args) (seqZ 0 n))
  end.

(** A call or reply, as (candidate, term, voter). *)
Definition ballot_key (p : Z * RequestVoteArgs) : Z * Z * Z :=
  (rva_CandidateId p.2, rva_Term p.2, p.1).

(** The goroutines that make them. *)
Definition vote_routines (o : option RequestVoteArgs) : gmap (Z * Z * Z) Z :=
  list_to_map ((λ p, (ballot_key p, 0)) <$> vote_calls o).

(** The loop of such a goroutine when its call has failed: it sends again while
    [retry <= 3], and ends otherwise. *)
Definition vote_retry (retry : Z) : option Z :=
  let retry := retry + 1 in if retry <=? 3 then Some retry else None.

(** Is the reply counted as a vote? *)
Definition counts rf (args : RequestVoteArgs) (reply : RequestVoteReply) : bool :=
  bool_decide (state rf = CANDIDATE) && (currentTerm rf =? rva_Term args) &&
  (rvr_Term reply =? currentTerm rf) && rvr_VoteGranted reply.

(** Did the reply make the candidate leader? *)
Definition elects rf rf' : bool :=
  bool_decide (state rf = CANDIDATE) && bool_decide (state rf' = LEADER).

Inductive nstep : net → net → Prop :=
| ns_quiet N i rf ev rf' :
    n_peer N !! i = Some rf → quiet_event ev = true → event_ok rf ev → run rf ev = Ret rf' →
    nstep N (mkNet (<[i := rf']> (n_peer N)) (n_calls N) (n_replies N) (n_granted N)
               (n_counted N) (n_elected N) (n_open N))
| ns_tick N i rf now randTime rf' o :
    n_peer N !! i = Some rf → ticker rf now randTime = Ret (rf', o) →
    nstep N (mkNet (<[i := rf']> (n_peer N)) (vote_calls o ++ n_calls N) (n_replies N) (n_granted N)
               (n_counted N) (n_elected N) (vote_routines o ∪ n_open N))
| ns_vote N v rf args now rf' reply :
    (v, args) ∈ n_calls N →
    n_peer N !! v = Some rf → RequestVote rf args now = Ret (rf', reply) →
    nstep N (mkNet (<[v := rf']> (n_peer N)) (n_calls N) ((v, args, reply) :: n_replies N)
               (if rvr_VoteGranted reply
                then {[(v, rva_Term args, rva_CandidateId args)]} ∪ n_granted N else n_granted N)
               (n_counted N) (n_elected N) (n_open N))
| ns_retry N key retry :
    n_open N !! key = Some retry →
    nstep N (mkNet (n_peer N) (n_calls N) (n_replies N) (n_granted N) (n_counted N) (n_elected N)
               (partial_alter (λ _, vote_retry retry) key (n_open N)))
| ns_reply N v rf args reply retry rf' :
    (v, args, reply) ∈ n_replies N → n_open N !! ballot_key (v, args) = Some retry →
    n_peer N !! rva_CandidateId args = Some rf → handle_vote_reply rf args reply = Ret rf' →
    nstep N (mkNet (<[rva_CandidateId args := rf']> (n_peer N)) (n_calls N) (n_replies N) (n_granted N)
               (if counts rf args reply
                then <[(rva_CandidateId args, rva_Term args) :=
                         {[v]} ∪ counted N (rva_CandidateId args) (rva_Term args)]> (n_counted N)
                else n_counted N)
               (if elects rf rf' then {[(rva_CandidateId args, rva_Term args)]} ∪ n_elected N
                else n_elected N)
               (delete (ballot_key (v, args)) (n_open N)))
| ns_crash N i rf now :
    n_peer N !! i = Some rf →
    nstep N (mkNet (<[i := Make n i (persister rf) now]> (n_peer N)) (n_calls N) (n_replies N)
               (n_granted N) (n_counted N) (n_elected N) (n_open N)).

Inductive net_reachable : net → Prop :=
| nr_init N : net_init N → net_reachable N
| nr_step N N' : net_reachable N → nstep N N' → net_reachable N'.

(** ** The invariant *)

(** The calls and replies. *)
Definition pending N : list (Z * Z * Z) :=
  map ballot_key (n_calls N) ++ map (ballot_key ∘ fst) (n_replies N).

(** A peer [i] whose term has reached [T], with a condition on the peer if it
    still is in that term. *)
Definition at_term N (i T : Z) (P : Raft C → Prop) : Prop :=
  ∃ rf, n_peer N !! i = Some rf ∧ T ≤ currentTerm rf ∧ (currentTerm rf = T → P rf).

Record net_inv N : Prop := {
  ni_reach : ∀ i rf, n_peer N !! i = Some rf → 0 ≤ i < n ∧ reachable n i rf;
  ni_open : ∀ c T v, is_Some (n_open N !! (c, T, v)) → v ∉ counted N c T;
  ni_pending : ∀ c T v, (c, T, v) ∈ pending N → at_term N c T (λ _, True) ∧ 0 ≤ v < n ∧ v ≠ c;
  ni_reply : ∀ v args reply, (v, args, reply) ∈ n_replies N → rvr_VoteGranted reply = true →
    (v, rva_Term args, rva_CandidateId args) ∈ n_granted N;
  ni_counted : ∀ c T v, v ∈ counted N c T →
    at_term N c T (λ _, True) ∧ 0 ≤ v < n ∧ v ≠ c ∧ (v, T, c) ∈ n_granted N;
  ni_granted : ∀ v T c, (v, T, c) ∈ n_granted N →
    0 ≤ c ∧ at_term N v T (λ rf, state rf = FOLLOWER ∧ votedFor rf = c);
  ni_unique : ∀ v T c d, (v, T, c) ∈ n_granted N → (v, T, d) ∈ n_granted N → c = d;
  ni_self : ∀ c rf, n_peer N !! c = Some rf → state rf ≠ FOLLOWER → votedFor rf = c;
  ni_votes : ∀ c rf, n_peer N !! c = Some rf → state rf = CANDIDATE →
    getVotesNum rf = 1 + Z.of_nat (size (counted N c (currentTerm rf)));
  ni_elected : ∀ c T, (c, T) ∈ n_elected N →
    Z.quot n 2 < 1 + Z.of_nat (size (counted N c T)) ∧ 0 ≤ c < n ∧ (∀ d, (c, T, d) ∉ n_granted N) ∧
    at_term N c T (λ rf, votedFor rf = c ∧ state rf ≠ CANDIDATE);
  ni_leader : ∀ c rf, n_peer N !! c = Some rf → state rf = LEADER → (c, currentTerm rf) ∈ n_elected N
}.

Lemma ni_state N c rf : net_inv N → n_peer N !! c = Some rf → raft_wf rf ∧ recovers rf ∧ me rf = c ∧ peers rf = n.
Proof.
  intros Hi Hc. destruct (ni_reach _ Hi _ _ Hc) as [Hr Hreach].
  destruct (reachable_inv _ _ _ Hr Hreach), (reachable_static _ _ _ Hr Hreach). done.
Qed.

(** Changing one peer keeps what is known of the others. *)
Lemma at_term_update N N' i rf rf' c T (P : Raft C → Prop) :
  n_peer N !! i = Some rf → n_peer N' = <[i := rf']> (n_peer N) →
  currentTerm rf ≤ currentTerm rf' →
  (i = c → currentTerm rf' = T → currentTerm rf = T → P rf → P rf') →
  at_term N c T P → at_term N' c T P.
Proof.
  intros Hi HN Ht HP (rc & Hc & Hle & Hcond). unfold at_term. rewrite HN.
  destruct (decide (i = c)) as [->|Hne].
  - rewrite lookup_insert_eq. assert (rc = rf) as -> by congruence. exists rf'.
    split; [done|]. split; [lia|]. intros HT. apply HP; [done|done|lia|apply Hcond; lia].
  - rewrite lookup_insert_ne by done. eauto.
Qed.

Lemma at_term_update_True N N' i rf rf' c T :
  n_peer N !! i = Some rf → n_peer N' = <[i := rf']> (n_peer N) →
  currentTerm rf ≤ currentTerm rf' → at_term N c T (λ _, True) → at_term N' c T (λ _, True).
Proof. intros. by eapply at_term_update. Qed.

(** Is the peer looked up the one that changed? *)
Ltac peer_case Hpeer H :=
  rewrite Hpeer in H; apply lookup_insert_Some in H as [[<- <-]|[_ H]].

(** Steps outside elections keep the invariant. *)
Lemma inv_quiet N i rf rf' :
  net_inv N → n_peer N !! i = Some rf → reachable n i rf' → vstep rf rf' →
  net_inv (mkNet (<[i := rf']> (n_peer N)) (n_calls N) (n_replies N) (n_granted N)
             (n_counted N) (n_elected N) (n_open N)).
Proof.
  intros Hinv Hi Hreach Hv. set (N' := mkNet _ _ _ _ _ _ _).
  assert (n_peer N' = <[i := rf']> (n_peer N)) as Hpeer by done.
  assert (currentTerm rf ≤ currentTerm rf') as Ht by (destruct Hv; lia).
  pose proof Hinv as [Ir Ind Ip Irp Ic Ig Iu Is Iv Ie Il].
  assert (∀ c T, at_term N c T (λ _, True) → at_term N' c T (λ _, True)) as Hat.
  { intros c T. by eapply at_term_update_True. }
  split; try done.
  - intros j r Hj. peer_case Hpeer Hj; [|by apply Ir]. split; [by eapply Ir|done].
  - intros c T v Hin. destruct (Ip c T v Hin) as (? & ? & ?). eauto.
  - intros c T v Hin. destruct (Ic c T v Hin) as (? & ? & ? & ?). eauto.
  - intros v T c Hin. destruct (Ig v T c Hin) as [? Hat']. split; [done|].
    eapply at_term_update; try done. intros -> HT HT' [? ?]. destruct Hv; try lia; split; congruence.
  - intros c r Hj Hs. peer_case Hpeer Hj; [|by apply Is].
    destruct Hv; try done. rewrite H1. apply Is; [done|congruence].
  - intros c r Hj Hs. peer_case Hpeer Hj; [|by apply Iv].
    destruct Hv; try congruence. rewrite H3, H0. apply Iv; [done|congruence].
  - intros c T Hin. destruct (Ie c T Hin) as (Hq & Hr & Hng & Hat').
    split; [done|]. split; [done|]. split; [done|].
    eapply at_term_update; try done. intros -> HT HT' [? ?]. destruct Hv; try lia; split; congruence.
  - intros c r Hj Hs. peer_case Hpeer Hj; [|by apply Il].
    destruct Hv; try congruence. rewrite H0. apply Il; [done|congruence].
Qed.

(** A later term has no history yet. *)
Lemma counted_later N i rf T :
  net_inv N → n_peer N !! i = Some rf → currentTerm rf < T → counted N i T = ∅.
Proof.
  intros Hinv Hi Ht. apply set_eq. intros v. split; [|set_solver].
  intros ((r & Hr & ? & _) & _)%(ni_counted _ Hinv). assert (r = rf) as -> by congruence. lia.
Qed.

Lemma vote_calls_keys args c T v :
  (c, T, v) ∈ map ballot_key (vote_calls (Some args)) ↔
  c = rva_CandidateId args ∧ T = rva_Term args ∧ 0 ≤ v < n ∧ v ≠ c.
Proof.
  unfold vote_calls. rewrite map_map, list_elem_of_fmap. split.
  - intros (j & [= -> -> ->] & Hj). apply list_elem_of_filter in Hj as [Hne Hj%elem_of_seqZ].
    split_and!; try done; lia.
  - intros (-> & -> & Hv & Hne). exists v. split; [done|]. apply list_elem_of_filter.
    split; [done|]. apply elem_of_seqZ. lia.
Qed.

Lemma vote_routines_key args key :
  is_Some (vote_routines (Some args) !! key) → key ∈ map ballot_key (vote_calls (Some args)).
Proof.
  intros [r Hr]. apply elem_of_list_to_map_2, list_elem_of_fmap in Hr as (p & [= -> _] & Hp).
  apply list_elem_of_fmap. by exists p.
Qed.

Lemma candidateRequestVote_view rf args :
  candidateRequestVote rf = Ret args → rva_CandidateId args = me rf ∧ rva_Term args = currentTerm rf.
Proof.
  unfold candidateRequestVote. intros Hb. do 2 inv_bind Hb. by injection Hb as <-.
Qed.

Lemma ticker_view rf now rt rf' args :
  ticker rf now rt = Ret (rf', Some args) →
  currentTerm rf' = currentTerm rf + 1 ∧ votedFor rf' = me rf ∧ state rf' = CANDIDATE ∧
  getVotesNum rf' = 1 ∧ rva_CandidateId args = me rf ∧ rva_Term args = currentTerm rf + 1.
Proof.
  intros Htick. unfold ticker in Htick. case_test_in Htick; [done|]. case_test_in Htick; [done|].
  cbv zeta in Htick. set (rf1 := CandidateState _) in Htick.
  assert (currentTerm rf1 = currentTerm rf + 1 ∧ votedFor rf1 = me rf ∧ state rf1 = CANDIDATE ∧
    getVotesNum rf1 = 1 ∧ me rf1 = me rf) as (? & ? & ? & ? & ?) by (split_and!; reflexivity).
  clearbody rf1. inv_bind Htick. injection Htick as <- <-.
  apply candidateRequestVote_view in Hb as [Hb1 Hb2]. split_and!; congruence.
Qed.

Lemma ticker_idle rf now rt rf' : ticker rf now rt = Ret (rf', None) → rf' = rf.
Proof.
  intros Htick. unfold ticker in Htick. case_test_in Htick; [by injection Htick|].
  case_test_in Htick; [by injection Htick|]. by inv_bind Htick.
Qed.

(** Starting an election. *)
Lemma inv_tick N i rf now rt rf' o :
  net_inv N → n_peer N !! i = Some rf → ticker rf now rt = Ret (rf', o) →
  net_inv (mkNet (<[i := rf']> (n_peer N)) (vote_calls o ++ n_calls N) (n_replies N) (n_granted N)
             (n_counted N) (n_elected N) (vote_routines o ∪ n_open N)).
Proof.
  intros Hinv Hi Htick. destruct (ni_state _ _ _ Hinv Hi) as (Hw & _ & Hme & _).
  assert (reachable n i rf') as Hreach.
  { apply (reach_step n i rf (EvTick now rt)); [by apply (ni_reach _ Hinv)|done|].
    cbn [run]. by rewrite Htick. }
  destruct o as [args|].
  2: { apply ticker_idle in Htick as ->. change (vote_routines None) with (∅ : gmap (Z * Z * Z) Z). rewrite (left_id_L ∅ (∪)).
       apply (inv_quiet N i rf); try done. by apply vs_same. }
  destruct (ticker_view _ _ _ _ _ Htick) as (Ht & Hv & Hs & Hg & Hc & Ha). rewrite Hme in Hv, Hc.
  clear Htick. pose proof Hinv as [Ir Ind Ip Irp Ic Ig Iu Is Iv Ie Il].
  set (N' := mkNet _ _ _ _ _ _ _).
  assert (n_peer N' = <[i := rf']> (n_peer N)) as Hpeer by done.
  assert (pending N' = map ballot_key (vote_calls (Some args)) ++ pending N) as Hpend.
  { unfold pending. simpl. by rewrite map_app, <- app_assoc. }
  assert (∀ c T P, at_term N c T P → at_term N' c T P) as Hat.
  { intros c T P. eapply at_term_update; try done; [lia|]. intros _ ? ?. lia. }
  assert (∀ T, at_term N i T (λ _, True) → T ≤ currentTerm rf) as Hold.
  { intros T (r & Hr & ? & _). assert (r = rf) as -> by congruence. done. }
  split; try done.
  - intros j r Hj. peer_case Hpeer Hj; [|by apply Ir]. split; [by eapply Ir|done].
  - intros c T v [r [Hr|[_ Hr]]%lookup_union_Some_raw]; [|by apply Ind; exists r].
    destruct (proj1 (vote_calls_keys args c T v)) as (-> & -> & _); [by apply vote_routines_key; exists r|].
    change (counted N' (rva_CandidateId args)) with (counted N (rva_CandidateId args)).
    rewrite Hc, (counted_later N i rf); [set_solver|done|done|lia].
  - intros c T v. rewrite Hpend, elem_of_app, vote_calls_keys. intros [(-> & -> & Hv' & Hne)|Hin].
    + rewrite Hc in *. split_and!; try lia.
      exists rf'. rewrite Hpeer, lookup_insert_eq. split_and!; try done. lia.
    + destruct (Ip c T v Hin) as (? & ? & ?). eauto.
  - intros c T v Hin. destruct (Ic c T v Hin) as (? & ? & ? & ?). eauto.
  - intros v T c Hin. destruct (Ig v T c Hin) as [? Hat']. eauto.
  - intros c r Hj Hs'. peer_case Hpeer Hj; [done|by apply Is].
  - intros c r Hj Hs'. peer_case Hpeer Hj; [|by apply Iv].
    change (counted N' i) with (counted N i). rewrite (counted_later N i rf); [|done|done|lia].
    by rewrite size_empty.
  - intros c T Hin. destruct (Ie c T Hin) as (? & ? & ? & Hat'). eauto.
  - intros c r Hj Hs'. peer_case Hpeer Hj; [congruence|by apply Il].
Qed.

(** Granting a vote. *)
Lemma inv_grant N v rf rf' c T :
  net_inv N → (c, T, v) ∈ pending N → n_peer N !! v = Some rf → reachable n v rf' →
  currentTerm rf ≤ T → (currentTerm rf = T → votedFor rf = -1 ∨ votedFor rf = c) →
  currentTerm rf' = T → votedFor rf' = c → state rf' = FOLLOWER →
  net_inv (mkNet (<[v := rf']> (n_peer N)) (n_calls N) (n_replies N)
             ({[(v, T, c)]} ∪ n_granted N) (n_counted N) (n_elected N) (n_open N)).
Proof.
  intros Hinv Hkey Hv Hreach Hle Hvote HT Hvf Hst. set (N' := mkNet _ _ _ _ _ _ _).
  assert (n_peer N' = <[v := rf']> (n_peer N)) as Hpeer by done.
  pose proof Hinv as [Ir Ind Ip Irp Ic Ig Iu Is Iv Ie Il].
  destruct (Ip _ _ _ Hkey) as ((rc & Hrc & _ & _) & Hvr & Hvc).
  destruct (Ir _ _ Hrc) as [Hcr _].
  assert (∀ c' T', at_term N c' T' (λ _, True) → at_term N' c' T' (λ _, True)) as Hat.
  { intros c' T'. apply (at_term_update_True N N' v rf rf'); try done. lia. }
  (* an earlier vote of this term was for the same candidate *)
  assert (∀ T' d, at_term N v T' (λ r, state r = FOLLOWER ∧ votedFor r = d) → T' = T → 0 ≤ d → d = c)
    as Hsame.
  { intros T' d (r & Hr & Hle' & Hc) -> Hd. assert (r = rf) as -> by congruence.
    destruct Hc as [_ Hd']; [lia|]. destruct Hvote; lia. }
  (* a peer elected in this term does not vote in it *)
  assert (¬ at_term N v T (λ r, votedFor r = v ∧ state r ≠ CANDIDATE)) as Hnot.
  { intros (r & Hr & Hle' & Hc). assert (r = rf) as -> by congruence.
    destruct Hc as [Hd' _]; [lia|]. destruct Hvote; lia. }
  split; try done.
  - intros j r Hj. peer_case Hpeer Hj; [|by apply Ir]. by split.
  - intros c' T' v' Hin. destruct (Ip c' T' v' Hin) as (? & ? & ?). eauto.
  - intros v' args reply Hin Hg. apply elem_of_union_r. eauto.
  - intros c' T' v' Hin. destruct (Ic c' T' v' Hin) as (? & ? & ? & ?).
    split_and!; try done; [by apply Hat|lia|lia|by apply elem_of_union_r].
  - intros v' T' c' [Hnew|Hold]%elem_of_union.
    + apply elem_of_singleton in Hnew. injection Hnew as -> -> ->. split; [lia|].
      exists rf'. rewrite Hpeer, lookup_insert_eq. split_and!; try done. lia.
    + destruct (Ig v' T' c' Hold) as [Hc' Hat']. split; [done|].
      apply (at_term_update N N' v rf rf'); try done; [lia|]. intros <- HT' _ _. split; [done|].
      rewrite Hvf. symmetry. eapply Hsame; [done|lia|done].
  - intros v' T' c1 c2 [H1|H1]%elem_of_union [H2|H2]%elem_of_union.
    + apply elem_of_singleton in H1, H2. congruence.
    + apply elem_of_singleton in H1. injection H1 as -> -> ->. symmetry. destruct (Ig _ _ _ H2) as [? ?]. by eapply Hsame.
    + apply elem_of_singleton in H2. injection H2 as -> -> ->. destruct (Ig _ _ _ H1) as [? ?]. by eapply Hsame.
    + by eapply Iu.
  - intros c' r Hj Hs'. peer_case Hpeer Hj; [done|by apply Is].
  - intros c' r Hj Hs'. peer_case Hpeer Hj; [congruence|by apply Iv].
  - intros c' T' Hin. destruct (Ie c' T' Hin) as (Hq & Hr & Hng & Hat'). split; [done|]. split; [done|].
    split.
    + intros d [Hnew|Hold]%elem_of_union; [|by eapply Hng].
      apply elem_of_singleton in Hnew. by injection Hnew as -> -> ->.
    + apply (at_term_update N N' v rf rf'); try done; [lia|]. intros <- HT1 HT2 _.
      exfalso. apply Hnot. by replace T with T' by lia.
  - intros c' r Hj Hs'. peer_case Hpeer Hj; [congruence|by apply Il].
Qed.

(** A call is answered. *)
Lemma inv_answer N v args reply :
  net_inv N → (v, args) ∈ n_calls N →
  (rvr_VoteGranted reply = true → (v, rva_Term args, rva_CandidateId args) ∈ n_granted N) →
  net_inv (mkNet (n_peer N) (n_calls N) ((v, args, reply) :: n_replies N) (n_granted N)
             (n_counted N) (n_elected N) (n_open N)).
Proof.
  intros Hinv Hcall Hg. pose proof Hinv as [Ir Ind Ip Irp Ic Ig Iu Is Iv Ie Il].
  set (N' := mkNet _ _ _ _ _ _ _).
  split; try done.
  - intros c T v' Hin. apply Ip. revert Hin. unfold pending. simpl. rewrite !elem_of_app, elem_of_cons.
    intros [?|[Hk|?]]; [by left| |by right]. left. rewrite Hk. by apply (list_elem_of_fmap_2 ballot_key _ (v, args)).
  - intros v' a r [[= -> -> ->]|Hin]%elem_of_cons; [done|by eapply Irp].
Qed.

(** Some goroutines end or count on. *)
Lemma inv_open N op :
  net_inv N → (∀ key, is_Some (op !! key) → is_Some (n_open N !! key)) →
  net_inv (mkNet (n_peer N) (n_calls N) (n_replies N) (n_granted N) (n_counted N) (n_elected N) op).
Proof.
  intros [Ir Ind Ip Irp Ic Ig Iu Is Iv Ie Il] Hop. split; try done. intros c T v Ho%Hop. by apply Ind.
Qed.

(** Counting a vote. *)
Lemma inv_count N c T v rf rf' :
  net_inv N → n_peer N !! c = Some rf → reachable n c rf' →
  n_open N !! (c, T, v) = None → v ∉ counted N c T → 0 ≤ v < n → v ≠ c → (v, T, c) ∈ n_granted N →
  currentTerm rf = T → state rf = CANDIDATE → currentTerm rf' = T → votedFor rf' = votedFor rf →
  (state rf' = CANDIDATE ∧ getVotesNum rf' = getVotesNum rf + 1 ∨
   state rf' = LEADER ∧ Z.quot n 2 < getVotesNum rf + 1) →
  net_inv (mkNet (<[c := rf']> (n_peer N)) (n_calls N) (n_replies N) (n_granted N)
             (<[(c, T) := {[v]} ∪ counted N c T]> (n_counted N))
             (if elects rf rf' then {[(c, T)]} ∪ n_elected N else n_elected N) (n_open N)).
Proof.
  intros Hinv Hc Hreach Hkey Hvc Hvr Hne Hgr HT Hst HT' Hvf Hres. set (N' := mkNet _ _ _ _ _ _ _).
  assert (n_peer N' = <[c := rf']> (n_peer N)) as Hpeer by done.
  pose proof Hinv as [Ir Ind Ip Irp Ic Ig Iu Is Iv Ie Il].
  assert (∀ c' T' P, (¬ (c' = c ∧ T' = T ∧ P rf)) → at_term N c' T' P → at_term N' c' T' P) as Hat.
  { intros c' T' P Hn. apply (at_term_update N N' c rf rf'); try done; [lia|]. intros <- ? ? HP. exfalso. apply Hn.
    split_and!; [done|lia|done]. }
  assert (∀ c' T', at_term N c' T' (λ _, True) → at_term N' c' T' (λ _, True)) as HatT.
  { intros c' T'. apply (at_term_update_True N N' c rf rf'); try done. lia. }
  assert (counted N' c T = {[v]} ∪ counted N c T) as Hnew by (unfold counted; simpl; by rewrite lookup_insert_eq).
  assert (∀ c' T', (c', T') ≠ (c, T) → counted N' c' T' = counted N c' T') as Hoth
    by (intros; unfold counted; simpl; by rewrite lookup_insert_ne).
  assert (∀ c' T', counted N c' T' ⊆ counted N' c' T') as Hsub.
  { intros c' T'. destruct (decide ((c', T') = (c, T))) as [[= -> ->]|Hn]; [rewrite Hnew|rewrite Hoth by done];
      set_solver. }
  assert (size (counted N' c T) = S (size (counted N c T))) as Hsize.
  { rewrite Hnew, size_union by set_solver. rewrite size_singleton. lia. }
  pose proof (Iv c rf Hc Hst) as Hcount. rewrite HT in Hcount.
  assert (∀ d, (c, T, d) ∉ n_granted N) as Hng.
  { intros d (_ & r & Hr & _ & Hf)%Ig. assert (r = rf) as -> by congruence.
    destruct (Hf HT) as [? _]. congruence. }
  assert (∀ x, x ∈ n_elected N → x ∈ n_elected N') as Hel by (simpl; case_test; set_solver).
  split; try done.
  - intros j r Hj. peer_case Hpeer Hj; [|by apply Ir]. split; [by eapply Ir|done].
  - intros c' T' v' Hop. pose proof (Ind c' T' v' Hop) as Hnc.
    destruct (decide ((c', T') = (c, T))) as [[= -> ->]|Hn]; [|by rewrite Hoth].
    rewrite Hnew. assert (v' ≠ v) by (intros ->; simpl in Hop; rewrite Hkey in Hop; by destruct Hop). set_solver.
  - intros c' T' v' Hin. destruct (Ip c' T' v' Hin) as (? & ? & ?). split_and!; try done; [by apply HatT|lia|lia].
  - intros c' T' v' Hin. destruct (decide ((c', T') = (c, T))) as [[= -> ->]|Hn].
    + rewrite Hnew in Hin. apply elem_of_union in Hin as [->%elem_of_singleton|Hin].
      * split_and!; try done; [|lia|lia]. exists rf'. rewrite Hpeer, lookup_insert_eq.
        split_and!; try done. lia.
      * destruct (Ic _ _ _ Hin) as (? & ? & ? & ?). eauto.
    + rewrite Hoth in Hin by done. destruct (Ic _ _ _ Hin) as (? & ? & ? & ?). eauto.
  - intros v' T' d Hin. destruct (Ig _ _ _ Hin) as [Hd Hat']. split; [done|]. apply Hat; [|done].
    intros (_ & _ & ? & _). congruence.
  - intros d r Hj Hs'. peer_case Hpeer Hj; [|by apply Is]. rewrite Hvf. apply Is; [done|congruence].
  - intros d r Hj Hs'. destruct (decide (d = c)) as [->|Hdc].
    + rewrite Hpeer, lookup_insert_eq in Hj. injection Hj as <-. rewrite HT', Hsize.
      destruct Hres as [[_ ->]|[? _]]; [lia|congruence].
    + rewrite Hpeer, lookup_insert_ne in Hj by done. rewrite Hoth by congruence. by apply Iv.
  - intros c' T' Hin. assert ((c', T') ∈ n_elected N ∨ (c' = c ∧ T' = T ∧ state rf' = LEADER)) as [Hold|(-> & -> & Hl)].
    { simpl in Hin. unfold elects in Hin. case_test_in Hin; [|by left].
      apply elem_of_union in Hin as [Hin|?]; [|by left]. right. set_solver. }
    + destruct (Ie c' T' Hold) as (Hq & Hr & Hn & Hat'). split; [|split; [done|split; [done|]]].
      * pose proof (subseteq_size _ _ (Hsub c' T')). lia.
      * apply Hat; [|done]. intros (_ & _ & _ & ?). congruence.
    + destruct (Ir _ _ Hc) as [Hcr _]. split; [|split; [done|split; [done|]]].
      * destruct Hres as [[? _]|[_ ?]]; [congruence|lia].
      * exists rf'. rewrite Hpeer, lookup_insert_eq. split; [done|]. split; [lia|]. intros _.
        rewrite Hvf, Hl. split; [|done]. apply Is; [done|congruence].
  - intros d r Hj Hs'. destruct (decide (d = c)) as [->|Hdc].
    + rewrite Hpeer, lookup_insert_eq in Hj. injection Hj as <-. simpl. unfold elects.
      rewrite !bool_decide_eq_true_2 by done. rewrite HT'. set_solver.
    + rewrite Hpeer, lookup_insert_ne in Hj by done. apply Hel. by apply Il.
Qed.


(** ** Preservation *)
Lemma RequestVote_view rf args now rf' reply :
  RequestVote rf args now = Ret (rf', reply) →
  if rvr_VoteGranted reply then
    currentTerm rf ≤ rva_Term args ∧ currentTerm rf' = rva_Term args ∧
    votedFor rf' = rva_CandidateId args ∧
    (currentTerm rf = rva_Term args → (votedFor rf = -1 ∨ votedFor rf = rva_CandidateId args) ∧
                                      state rf' = state rf) ∧
    (currentTerm rf < rva_Term args → state rf' = FOLLOWER)
  else vstep rf rf'.
Proof.
  intros E. unfold RequestVote in E.
  set (rf1 := if currentTerm rf <? rva_Term args then _ else _) in *.
  assert (vstep rf rf1 ∧ currentTerm rf1 = Z.max (currentTerm rf) (rva_Term args) ∧
    (currentTerm rf = rva_Term args → rf1 = rf) ∧ (currentTerm rf < rva_Term args → state rf1 = FOLLOWER))
    as (Hv & Ht & Heq & Hlt).
  { unfold rf1. case_test.
    - split_and!; [by apply vs_later|simpl; lia|lia|done].
    - split_and!; [by apply vs_same|lia|done|lia]. }
  clearbody rf1. case_test_in E.
  { injection E as <- <-. simpl.
    destruct Hv; [by apply vs_same|by apply vs_later|by apply vs_yield|by apply vs_restart]. }
  do 2 inv_bind E. destruct (_ && _) eqn:Hg in E; injection E as <- <-; simpl; [|done].
  apply grant_test in Hg as [Hg _]. split_and!; try done; [lia|lia|].
  intros Hc. by rewrite Heq in * by done.
Qed.

Lemma handle_vote_reply_view rf args reply rf' :
  raft_wf rf → handle_vote_reply rf args reply = Ret rf' →
  if counts rf args reply then
    currentTerm rf = rva_Term args ∧ state rf = CANDIDATE ∧ currentTerm rf' = rva_Term args ∧
    votedFor rf' = votedFor rf ∧
    (state rf' = CANDIDATE ∧ getVotesNum rf' = getVotesNum rf + 1 ∨
     state rf' = LEADER ∧ Z.quot (peers rf) 2 < getVotesNum rf + 1)
  else vstep rf rf' ∧ elects rf rf' = false.
Proof.
  intros Hw E. unfold handle_vote_reply in E. unfold counts, elects. case_test_in E.
  { injection E as <-. rewrite (proj2 (Z.eqb_neq (rvr_Term reply) _)), andb_false_r by lia. simpl.
    split; [by apply vs_later|]. by rewrite andb_false_r. }
  destruct (bool_decide (state rf = CANDIDATE)) eqn:Hs; bool_to_prop; simpl in E |- *; cycle 1.
  { injection E as <-. split; [by apply vs_same|done]. }
  destruct (currentTerm rf =? rva_Term args) eqn:Hc; bool_to_prop; simpl in E |- *; cycle 1.
  { injection E as <-. split; [by apply vs_same|]. by rewrite Hs. }
  rewrite andb_true_r in E. destruct (_ && _) eqn:Hg in E |- *; cycle 1.
  { injection E as <-. split; [by apply vs_same|]. by rewrite Hs. }
  split; [done|]. split; [done|]. case_test_in E.
  - apply LeaderState_view in E as (? & ? & ? & _).
    + simpl in *. split_and!; try congruence. by right.
    + pose proof Hw as [? ? ? ? ? ? ?]. apply (raft_wf_frame rf); simpl; done || lia.
  - injection E as <-. simpl. split_and!; try done. by left.
Qed.

Lemma inv_init N : net_init N → net_inv N.
Proof.
  intros (Hp & Hc & Hr & Hg & Hco & He & Ho).
  assert (∀ c T, counted N c T = ∅) as Hcnt by (intros; unfold counted; by rewrite Hco).
  assert (pending N = []) as Hpend by (unfold pending; by rewrite Hc, Hr).
  assert (∀ c rf, n_peer N !! c = Some rf → state rf = FOLLOWER) as Hf
    by (intros c rf (_ & now & ->)%Hp; done).
  split; rewrite ?Hpend, ?Hr, ?Hg, ?He, ?Ho.
  - intros i rf (Hi & now & ->)%Hp. split; [done|apply reach_make].
  - intros c T v []. done.
  - intros c T v Hin. by apply not_elem_of_nil in Hin.
  - intros v args reply Hin. by apply not_elem_of_nil in Hin.
  - intros c T v. by rewrite Hcnt.
  - intros v T c Hin. by apply not_elem_of_empty in Hin.
  - intros v T c d Hin. by apply not_elem_of_empty in Hin.
  - intros c rf Hc'%Hf. done.
  - intros c rf Hc'%Hf. congruence.
  - intros c T Hin. by apply not_elem_of_empty in Hin.
  - intros c rf Hc'%Hf. congruence.
Qed.

Lemma nstep_inv N N' : net_inv N → nstep N N' → net_inv N'.
Proof.
  intros Hinv Hstep. destruct Hstep as [N i rf ev rf' Hi Hq Hok Hrun|N i rf now rt rf' o Hi Htick|
    N v rf args now rf' reply Hcalls Hv Hrun|N key retry Hopen|N v rf args reply retry rf' Hrep Hopen Hc Hrun|N i rf now Hi].
  - destruct (ni_state _ _ _ Hinv Hi) as (Hw & _). apply inv_quiet with rf; try done.
    + eapply reach_step; [by apply (ni_reach _ Hinv)|done..].
    + by eapply vstep_quiet.
  - by apply inv_tick with rf now rt.
  - destruct (ni_state _ _ _ Hinv Hv) as (Hw & _). destruct (ni_reach _ Hinv _ _ Hv) as [Hvr Hreach].
    assert (reachable n v rf') as Hreach'.
    { apply (reach_step n v rf (EvVote args now)); [done..|]. cbn [run]. by rewrite Hrun. }
    assert ((rva_CandidateId args, rva_Term args, v) ∈ pending N) as Hkey.
    { unfold pending. apply elem_of_app. left. by apply (list_elem_of_fmap_2 ballot_key _ (v, args)). }
    destruct (ni_pending _ Hinv _ _ _ Hkey) as (_ & _ & Hne).
    apply RequestVote_view in Hrun. destruct (rvr_VoteGranted reply) eqn:Hg.
    + destruct Hrun as (Hle & HT & Hvf & Heq & Hlt).
      set (N1 := mkNet (<[v := rf']> (n_peer N)) (n_calls N) (n_replies N)
        ({[(v, rva_Term args, rva_CandidateId args)]} ∪ n_granted N) (n_counted N) (n_elected N) (n_open N)).
      assert (net_inv N1) as Hinv1; [|refine (inv_answer N1 v args reply Hinv1 Hcalls _)].
      2: { intros _. apply elem_of_union_l. by apply elem_of_singleton. }
      apply inv_grant with rf; try done.
      * intros Hc. by apply Heq.
      * destruct (decide (currentTerm rf = rva_Term args)) as [Hc|]; [|apply Hlt; lia].
        destruct (Heq Hc) as [Hvote ->]. destruct (decide (state rf = FOLLOWER)) as [|Hs]; [done|].
        exfalso. pose proof (ni_self _ Hinv _ _ Hv Hs). destruct Hvote; lia.
    + refine (inv_answer (mkNet (<[v := rf']> (n_peer N)) (n_calls N) (n_replies N) (n_granted N)
        (n_counted N) (n_elected N) (n_open N)) v args reply _ Hcalls _); [|congruence].
      by apply inv_quiet with rf.
  - apply inv_open; [done|]. intros key' [r Hr]. destruct (decide (key = key')) as [<-|Hne]; [by exists retry|].
    rewrite lookup_partial_alter_ne in Hr by done. by exists r.
  - set (op := delete (ballot_key (v, args)) (n_open N)).
    assert (net_inv (mkNet (n_peer N) (n_calls N) (n_replies N) (n_granted N) (n_counted N) (n_elected N) op)) as Hinv1.
    { apply inv_open; [done|]. intros key' [r [_ Hr]%lookup_delete_Some]. by exists r. }
    assert ((rva_CandidateId args, rva_Term args, v) ∈ pending N) as Hkey.
    { unfold pending. apply elem_of_app. right. by apply (list_elem_of_fmap_2 (ballot_key ∘ fst) _ (v, args, reply)). }
    destruct (ni_state _ _ _ Hinv Hc) as (Hw & _ & _ & Hn). destruct (ni_reach _ Hinv _ _ Hc) as [Hcr Hreach].
    assert (reachable n (rva_CandidateId args) rf') as Hreach'.
    { by apply (reach_step n _ rf (EvVoteReply args reply)). }
    destruct (ni_pending _ Hinv _ _ _ Hkey) as (_ & Hvr & Hne).
    pose proof (ni_open _ Hinv _ _ _ (ex_intro _ _ Hopen)) as Hnc.
    apply handle_vote_reply_view in Hrun; [|done]. destruct (counts rf args reply) eqn:Hcnt.
    + destruct Hrun as (HT & Hs & HT' & Hvf & Hres). rewrite Hn in Hres.
      refine (inv_count (mkNet (n_peer N) (n_calls N) (n_replies N) (n_granted N) (n_counted N) (n_elected N) op)
               _ _ v rf rf' Hinv1 Hc Hreach' _ Hnc Hvr Hne _ HT Hs HT' Hvf Hres); [apply lookup_delete_eq|].
      apply (ni_reply _ Hinv v args reply); [done|].
      unfold counts in Hcnt. by apply andb_true_iff in Hcnt as [_ ?].
    + destruct Hrun as [Hvs ->].
      refine (inv_quiet (mkNet (n_peer N) (n_calls N) (n_replies N) (n_granted N) (n_counted N) (n_elected N) op)
               _ rf rf' Hinv1 Hc Hreach' Hvs).
  - destruct (ni_state _ _ _ Hinv Hi) as (Hw & Hr & _). apply inv_quiet with rf; try done.
    + apply reach_crash. by apply (ni_reach _ Hinv).
    + destruct (Hr n i now) as (Hs & Hf & _). unfold saved in Hs. apply vs_restart; congruence.
Qed.

Lemma net_reachable_inv N : net_reachable N → net_inv N.
Proof. induction 1; [by apply inv_init|by eapply nstep_inv]. Qed.

(** ** Quorums *)
Definition quorum N (c T : Z) : gset Z := {[c]} ∪ counted N c T.

Lemma quorum_size N c T :
  net_inv N → (c, T) ∈ n_elected N →
  Z.quot n 2 < Z.of_nat (size (quorum N c T)) ∧ quorum N c T ⊆ list_to_set (seqZ 0 n).
Proof.
  intros Hinv Hel. destruct (ni_elected _ Hinv _ _ Hel) as (Hq & Hc & _ & _).
  assert (∀ v, v ∈ counted N c T → 0 ≤ v < n ∧ v ≠ c) as Hv.
  { intros v (_ & ? & ? & _)%(ni_counted _ Hinv). done. }
  split.
  - unfold quorum. rewrite size_union, size_singleton; [lia|].
    intros x ->%elem_of_singleton Hx%Hv. lia.
  - intros x. unfold quorum. rewrite elem_of_list_to_set, elem_of_seqZ.
    intros [->%elem_of_singleton|Hx%Hv]%elem_of_union; lia.
Qed.

Lemma elected_unique N c d T :
  net_inv N → (c, T) ∈ n_elected N → (d, T) ∈ n_elected N → c = d.
Proof.
  intros Hinv Hc Hd. destruct (quorum_size N c T Hinv Hc) as [Sc Uc].
  destruct (quorum_size N d T Hinv Hd) as [Sd Ud].
  destruct (ni_elected _ Hinv _ _ Hc) as (_ & Hcr & Hcg & _).
  destruct (ni_elected _ Hinv _ _ Hd) as (_ & _ & Hdg & _).
  destruct (quorums_meet n _ _ Uc Ud Sc Sd) as (v & Hv1 & Hv2); [lia|].
  unfold quorum in Hv1, Hv2. apply elem_of_union in Hv1, Hv2. rewrite elem_of_singleton in Hv1, Hv2.
  destruct Hv1 as [->|(_ & _ & _ & Hv1)%(ni_counted _ Hinv)],
           Hv2 as [->|(_ & _ & _ & Hv2)%(ni_counted _ Hinv)].
  - done.
  - by apply Hcg in Hv2.
  - by apply Hdg in Hv1.
  - by eapply (ni_unique _ Hinv).
Qed.
End network.

(** ** Theorems *)

(** C9: election safety.  In every state the group can reach, whatever calls and
    replies are lost, sent again, handled repeatedly, delayed or reordered and
    whoever crashes and restarts, two peers that lead the same term are the same
    peer; more generally two peers that were ever elected in the same term are. *)
Theorem election_safety {C} `{Codec (Z * Z * list (LogEntry C) * Z * Z)} (n : Z) (N : net (C:=C))
    (HN : net_reachable n N) :
  (∀ c d rc rd, n_peer N !! c = Some rc → n_peer N !! d = Some rd →
     state rc = LEADER → state rd = LEADER → currentTerm rc = currentTerm rd → c = d) ∧
  (∀ c d T, (c, T) ∈ n_elected N → (d, T) ∈ n_elected N → c = d).
Proof.
  apply net_reachable_inv in HN as Hinv. split.
  - intros c d rc rd Hc Hd Lc Ld HT. apply (elected_unique n N c d (currentTerm rc) Hinv).
    + by apply (ni_leader n _ Hinv).
    + rewrite HT. by apply (ni_leader n _ Hinv).
  - intros c d T. by apply (elected_unique n).
Qed.

(** Three peers; peer 1 times out first.  Peer 0 votes for it, its reply is lost,
    the call is sent and handled again, and the second reply is counted. *)
Definition sample_voter : Raft Z := Make 3 0 MakePersister 0.
Definition sample_args : RequestVoteArgs := mkRequestVoteArgs 1 1 0 0.
Definition sample_voted (now : Z) rf : Raft Z :=
  match RequestVote rf sample_args now with Ret (rf', _) => rf' | _ => rf end.
Definition sample_elected : Raft Z :=
  match handle_vote_reply sample_candidate sample_args (mkRequestVoteReply 1 true) with
  | Ret rf => rf | _ => sample_candidate end.

Definition sample_net0 : net (C:=Z) :=
  mkNet (<[0 := sample_voter]> (<[1 := Make 3 1 MakePersister 0]> ∅)) [] [] ∅ ∅ ∅ ∅.
Definition sample_net1 : net (C:=Z) :=
  mkNet (<[1 := sample_candidate]> (n_peer sample_net0))
    (vote_calls 3 (Some sample_args) ++ []) [] ∅ ∅ ∅ (vote_routines 3 (Some sample_args) ∪ ∅).
Definition sample_net2 : net (C:=Z) :=
  mkNet (<[0 := sample_voted 1001 sample_voter]> (n_peer sample_net1)) (n_calls sample_net1)
    [(0, sample_args, mkRequestVoteReply 1 true)] ({[(0, 1, 1)]} ∪ ∅) ∅ ∅ (n_open sample_net1).
Definition sample_net3 : net (C:=Z) :=
  mkNet (n_peer sample_net2) (n_calls sample_net2) (n_replies sample_net2) (n_granted sample_net2) ∅ ∅
    (partial_alter (λ _, vote_retry 0) (1, 1, 0) (n_open sample_net2)).
Definition sample_net4 : net (C:=Z) :=
  mkNet (<[0 := sample_voted 1201 (sample_voted 1001 sample_voter)]> (n_peer sample_net3)) (n_calls sample_net3)
    ((0, sample_args, mkRequestVoteReply 1 true) :: n_replies sample_net3)
    ({[(0, 1, 1)]} ∪ n_granted sample_net3) ∅ ∅ (n_open sample_net3).
Definition sample_net5 : net (C:=Z) :=
  mkNet (<[1 := sample_elected]> (n_peer sample_net4)) (n_calls sample_net4) (n_replies sample_net4)
    (n_granted sample_net4) (<[(1, 1) := {[0]} ∪ ∅]> ∅) ({[(1, 1)]} ∪ ∅)
    (delete (ballot_key (0, sample_args)) (n_open sample_net4)).

Lemma sample_net5_reachable : net_reachable 3 sample_net5.
Proof.
  assert (net_reachable 3 sample_net0) as H0.
  { apply nr_init. split; [|done]. intros i rf. unfold sample_net0. simpl.
    intros [[<- <-]|[_ [[<- <-]|[_ ?]]%lookup_insert_Some]]%lookup_insert_Some;
      [split; [lia|by exists 0]..|done]. }
  assert (net_reachable 3 sample_net1) as H1.
  { apply (nr_step 3 _ _ H0).
    refine (ns_tick 3 sample_net0 1 (Make 3 1 MakePersister 0) 1000 300 sample_candidate
              (Some sample_args) _ _); vm_compute; reflexivity. }
  assert (net_reachable 3 sample_net2) as H2.
  { apply (nr_step 3 _ _ H1).
    refine (ns_vote 3 sample_net1 0 sample_voter sample_args 1001 (sample_voted 1001 sample_voter)
              (mkRequestVoteReply 1 true) (list_elem_of_lookup_2 _ 0 _ _) _ _); vm_compute; reflexivity. }
  assert (net_reachable 3 sample_net3) as H3.
  { apply (nr_step 3 _ _ H2). refine (ns_retry 3 sample_net2 (1, 1, 0) 0 _). vm_compute. reflexivity. }
  assert (net_reachable 3 sample_net4) as H4.
  { apply (nr_step 3 _ _ H3).
    refine (ns_vote 3 sample_net3 0 (sample_voted 1001 sample_voter) sample_args 1201 _
              (mkRequestVoteReply 1 true) (list_elem_of_lookup_2 _ 0 _ _) _ _); vm_compute; reflexivity. }
  apply (nr_step 3 _ _ H4).
  refine (ns_reply 3 sample_net4 0 sample_candidate sample_args (mkRequestVoteReply 1 true) 1
            sample_elected (list_elem_of_lookup_2 _ 0 _ _) _ _ _); vm_compute; reflexivity.
Qed.

Lemma election_safety_witness :
  (1, 1) ∈ n_elected sample_net5 ∧ ∀ d, (d, 1) ∈ n_elected sample_net5 → 1 = d.
Proof.
  assert ((1, 1) ∈ n_elected sample_net5) as Hel.
  { change (n_elected sample_net5) with ({[(1, 1)]} ∪ ∅ : gset (Z * Z)).
    apply elem_of_union_l. by apply elem_of_singleton. }
  split; [exact Hel|]. intros d Hd.
  exact (proj2 (election_safety 3 sample_net5 sample_net5_reachable) 1 d 1 Hel Hd).
Defined.
