(* ===== verification/RaftHistory.v ===== *)
(** * The history of a Raft group

    Why Raft is safe, apart from the code: the logs the leaders of all terms ever
    had ([h_leaders]), and which peer acknowledged which of their prefixes
    ([h_acks]).  A log is [good] when each of its entries comes, with everything
    before it, from the leader of the entry's term; two good logs agree up to any
    position at which they have the same term ([good_agree]).  A prefix of a
    leader's log is [chosen] when a quorum acknowledged it in the leader's term.
    The history is in order ([history_ok]) when every leader of a later term has
    every prefix that was chosen or can still be chosen; then all chosen prefixes
    are prefixes of one another ([safe_comparable]). *)

From S2P Require Import Prelude Persister RaftApi Raft RaftAppend.
Import Raft.

Section history.
Context {C : Type}.
Implicit Types (l L p : list (LogEntry C)).

(** ** Lists *)

(** The term of the [k]th entry, counting from one; the empty log ends in term
    zero. *)
Definition vterm l (k : nat) : Z :=
  match k with
  | O => 0
  | S j => match l !! j with Some e => le_Term e | None => -1 end
  end.

Definition sorted_terms l : Prop :=
  ∀ i j e e', (i ≤ j)%nat → l !! i = Some e → l !! j = Some e' → le_Term e ≤ le_Term e'.

Definition numbered l : Prop := ∀ j e, l !! j = Some e → le_Index e = Z.of_nat j + 1.

Definition terms_upto (T : Z) l : Prop := ∀ j e, l !! j = Some e → 1 ≤ le_Term e ≤ T.

Lemma prefix_take_le l p k : l `prefix_of` p → (k ≤ length l)%nat → take k l = take k p.
Proof. intros [r ->] Hk. by rewrite take_app_le. Qed.

Lemma prefix_eq l l' L : l `prefix_of` L → l' `prefix_of` L → length l = length l' → l = l'.
Proof.
  intros [r ->] [r' Hr] Hlen. apply (f_equal (take (length l))) in Hr.
  by rewrite take_app_length, Hlen, take_app_length in Hr.
Qed.

Lemma take_prefix_mono l (i j : nat) : (i ≤ j)%nat → take i l `prefix_of` take j l.
Proof. intros Hij. rewrite <- (Nat.min_l i j Hij), <- take_take. apply prefix_take. Qed.

Lemma prefix_vterm l L k : l `prefix_of` L → (k ≤ length l)%nat → vterm L k = vterm l k.
Proof.
  intros Hp Hk. destruct k as [|k]; [done|]. simpl.
  destruct (lookup_lt_is_Some_2 l k ltac:(lia)) as [e He].
  by rewrite (prefix_lookup_Some _ _ _ _ He Hp), He.
Qed.

Lemma vterm_sorted l i j T :
  sorted_terms l → terms_upto T l → (i ≤ j ≤ length l)%nat → vterm l i ≤ vterm l j.
Proof.
  intros Hs Hu Hij. destruct i as [|i], j as [|j]; simpl; try lia.
  - destruct (lookup_lt_is_Some_2 l j ltac:(lia)) as [e He]. rewrite He. apply Hu in He. lia.
  - destruct (lookup_lt_is_Some_2 l i ltac:(lia)) as [e He].
    destruct (lookup_lt_is_Some_2 l j ltac:(lia)) as [e' He']. rewrite He, He'.
    by eapply Hs; [|done..]; lia.
Qed.

Lemma vterm_upto l k T : terms_upto T l → (0 ≤ T) → (k ≤ length l)%nat → 0 ≤ vterm l k ≤ T.
Proof.
  intros Hu HT Hk. destruct k as [|k]; simpl; [lia|].
  destruct (lookup_lt_is_Some_2 l k ltac:(lia)) as [e He]. rewrite He. apply Hu in He. lia.
Qed.

(** A property of all entries holds for prefixes. *)
Lemma sorted_prefix l L : l `prefix_of` L → sorted_terms L → sorted_terms l.
Proof. intros Hp Hs i j e e' Hij He He'. eapply Hs; [done|by eapply prefix_lookup_Some..]. Qed.

Lemma numbered_prefix l L : l `prefix_of` L → numbered L → numbered l.
Proof. intros Hp Hn j e He. eapply Hn. by eapply prefix_lookup_Some. Qed.

Lemma upto_prefix T l L : l `prefix_of` L → terms_upto T L → terms_upto T l.
Proof. intros Hp Hn j e He. eapply Hn. by eapply prefix_lookup_Some. Qed.

Lemma upto_mono T T' l : T ≤ T' → terms_upto T l → terms_upto T' l.
Proof. intros HT Hn j e He. apply Hn in He. lia. Qed.

(** ** Histories *)

(** The logs of the leaders by term, and who acknowledged how much of them. *)
Record hist := mkHist {
  h_leaders : gmap Z (list (LogEntry C));
  h_acks : gset (Z * Z * nat)
}.
Implicit Types (H : hist).

Definition good H l : Prop :=
  ∀ j e, l !! j = Some e →
    ∃ L, h_leaders H !! le_Term e = Some L ∧ take (S j) l `prefix_of` L.

(** Log matching. *)
Lemma good_agree H l l' j e e' :
  good H l → good H l' → l !! j = Some e → l' !! j = Some e' → le_Term e = le_Term e' →
  take (S j) l = take (S j) l'.
Proof.
  intros Hg Hg' He He' Ht. destruct (Hg j e He) as (L & HL & Hp).
  destruct (Hg' j e' He') as (L' & HL' & Hp'). rewrite Ht in HL. simplify_eq.
  eapply prefix_eq; [done..|]. apply lookup_lt_Some in He, He'. rewrite !length_take. lia.
Qed.

(** The same for a position given by its number of entries, zero included. *)
Lemma good_agree_at H l l' (k : nat) :
  good H l → good H l' → (k ≤ length l)%nat → (k ≤ length l')%nat → vterm l k = vterm l' k →
  take k l = take k l'.
Proof.
  intros Hg Hg' Hk Hk' Ht. destruct k as [|k]; [done|]. simpl in Ht.
  destruct (lookup_lt_is_Some_2 l k ltac:(lia)) as [e He].
  destruct (lookup_lt_is_Some_2 l' k ltac:(lia)) as [e' He']. rewrite He, He' in Ht.
  by eapply good_agree.
Qed.

Lemma good_prefix H l L : l `prefix_of` L → good H L → good H l.
Proof.
  intros Hp Hg j e He. destruct (Hg j e) as (L' & HL' & Hp'); [by eapply prefix_lookup_Some|].
  exists L'. split; [done|]. rewrite (prefix_take_le l L); [done..|].
  apply lookup_lt_Some in He. lia.
Qed.

(** A good log that ends in term [t] is a prefix of the leader's of [t]. *)
Lemma good_last H l t :
  good H l → vterm l (length l) = t → l ≠ [] → ∃ L, h_leaders H !! t = Some L ∧ l `prefix_of` L.
Proof.
  intros Hg Ht Hne. destruct (length l) as [|k] eqn:Hl; [by destruct l|]. simpl in Ht.
  destruct (lookup_lt_is_Some_2 l k ltac:(lia)) as [e He]. rewrite He in Ht.
  destruct (Hg k e He) as (L & HL & Hp). rewrite Ht in HL. exists L. split; [done|].
  by rewrite take_ge in Hp by lia.
Qed.

(** ** Merging a leader's entries *)
Lemma merge_eq (rest es : list (LogEntry C)) :
  (∀ j e x, es !! j = Some e → rest !! j = Some x → le_Term e = le_Term x → e = x) →
  (es `prefix_of` rest ∧ merge rest es = rest) ∨ (¬ es `prefix_of` rest ∧ merge rest es = es).
Proof.
  revert rest. induction es as [|e es IH]; intros [|x rest] Hag; simpl.
  - left. split; [apply prefix_nil|done].
  - left. split; [apply prefix_nil|done].
  - right. split; [apply prefix_nil_not|done].
  - destruct (Z.eqb_spec (le_Term e) (le_Term x)) as [Ht|Hne].
    + assert (e = x) as -> by by apply (Hag 0%nat).
      destruct (IH rest) as [[Hp ->]|[Hp ->]].
      { intros j. apply (Hag (S j)). }
      * left. split; [by apply prefix_cons|done].
      * right. split; [|done]. by intros ?%prefix_cons_inv_2.
    + right. split; [|done]. intros ?%prefix_cons_inv_1. congruence.
Qed.

(** What a follower with the log [l] makes of the entries after position [k] of
    the log [m], when the two agree up to there. *)
Lemma merge_good H l m (k : nat) :
  good H l → good H m → (k ≤ length l)%nat → (k ≤ length m)%nat → take k l = take k m →
  (m `prefix_of` l ∧ take k l ++ merge (drop k l) (drop k m) = l) ∨
  (¬ m `prefix_of` l ∧ take k l ++ merge (drop k l) (drop k m) = m).
Proof.
  intros Hl Hm Hk Hk' Heq.
  destruct (merge_eq (drop k l) (drop k m)) as [[Hp ->]|[Hp ->]].
  { intros j e x. rewrite !lookup_drop. intros He Hx Ht.
    pose proof (good_agree H _ _ _ _ _ Hm Hl He Hx Ht) as Hag.
    apply (f_equal (λ l, l !! (k + j)%nat)) in Hag.
    rewrite !lookup_take_lt in Hag by lia. congruence. }
  - left. rewrite take_drop. split; [|done].
    rewrite <- (take_drop k m), <- (take_drop k l), Heq. by apply prefix_app.
  - right. rewrite Heq, take_drop. split; [|done]. intros [r Hr]. apply Hp. exists r.
    rewrite Hr, drop_app_le by done. done.
Qed.

(** ** Acknowledgements and quorums *)
Context (n : Z) (Hn : 0 ≤ n).

Definition quorum_of (Q : gset Z) : Prop :=
  Q ⊆ list_to_set (seqZ 0 n) ∧ Z.quot n 2 < Z.of_nat (size Q).

Lemma quorum_meet Q Q' : quorum_of Q → quorum_of Q' → ∃ v, v ∈ Q ∧ v ∈ Q'.
Proof using Hn. intros [] []. by apply (quorums_meet n). Qed.

(** Peer [v] has acknowledged, in term [T], the first [k] entries of the leader's
    log. *)
Definition acked H (v T : Z) (k : nat) : Prop := ∃ k', (v, T, k') ∈ h_acks H ∧ (k ≤ k')%nat.

(** The [k]th entry of the leader of [T] is of its own term. *)
Definition own H (T : Z) (k : nat) : Prop :=
  ∃ L, h_leaders H !! T = Some L ∧ (1 ≤ k ≤ length L)%nat ∧ vterm L k = T.

(** A log begins with the first [k] entries of the leader of [T]. *)
Definition has H (T : Z) (k : nat) l : Prop :=
  ∃ L, h_leaders H !! T = Some L ∧ take k L `prefix_of` l.

Definition chosen H (T : Z) (k : nat) : Prop :=
  own H T k ∧ ∃ Q, quorum_of Q ∧ ∀ v, v ∈ Q → acked H v T k.

(** With the current terms [tm] of the peers: too many peers have left term [T]
    without acknowledging for the prefix to be chosen ever. *)
Definition blocked (tm : Z → Z) H (T : Z) (k : nat) : Prop :=
  ∃ Q, quorum_of Q ∧ ∀ v, v ∈ Q → T < tm v ∧ ¬ acked H v T k.

Definition holds (tm : Z → Z) H (T : Z) (k : nat) l : Prop := has H T k l ∨ blocked tm H T k.

Record history_ok (tm : Z → Z) H : Prop := {
  ho_log : ∀ T L, h_leaders H !! T = Some L →
    1 ≤ T ∧ good H L ∧ sorted_terms L ∧ numbered L ∧ terms_upto T L;
  ho_ack : ∀ v T k, (v, T, k) ∈ h_acks H →
    T ≤ tm v ∧ ∃ L, h_leaders H !! T = Some L ∧ (k ≤ length L)%nat;
  ho_later : ∀ T T' L' k, T < T' → h_leaders H !! T' = Some L' → own H T k → holds tm H T k L';
  ho_voters : ∀ T, is_Some (h_leaders H !! T) → ∃ Q, quorum_of Q ∧ ∀ v, v ∈ Q → T ≤ tm v
}.

Lemma chosen_not_blocked tm H T k : chosen H T k → ¬ blocked tm H T k.
Proof using Hn.
  intros [_ (Q & HQ & Hack)] (Q' & HQ' & Hno). destruct (quorum_meet Q Q' HQ HQ') as (v & Hv & Hv').
  destruct (Hno v Hv') as [_ Hna]. by apply Hna, Hack.
Qed.

Lemma own_has H T k : own H T k → ∃ L, h_leaders H !! T = Some L ∧ has H T k L.
Proof. intros (L & HL & _). exists L. split; [done|]. exists L. split; [done|]. apply prefix_take. Qed.

(** Every leader holds what leaders before it own, or it cannot be chosen. *)
Lemma own_later tm H T T' L' k :
  history_ok tm H → T ≤ T' → h_leaders H !! T' = Some L' → own H T k → holds tm H T k L'.
Proof.
  intros Ho HT HL' Hk. destruct (decide (T = T')) as [->|].
  - left. destruct (own_has H T' k Hk) as (L & HL & Hh). by simplify_eq.
  - eapply ho_later; try done. lia.
Qed.

Lemma chosen_later tm H T T' L' k :
  history_ok tm H → T ≤ T' → h_leaders H !! T' = Some L' → chosen H T k → has H T k L'.
Proof using Hn.
  intros Ho HT HL' Hc. destruct (own_later tm H T T' L' k Ho HT HL' (proj1 Hc)) as [?|Hb]; [done|].
  by destruct (chosen_not_blocked tm H T k Hc).
Qed.

(** ** Safe prefixes *)

(** A log that is safe to apply in term [T]: empty, or within a prefix chosen in
    a term up to [T]. *)
Definition safe_log H (T : Z) p : Prop :=
  p = [] ∨ ∃ T0 k L, T0 ≤ T ∧ chosen H T0 k ∧ h_leaders H !! T0 = Some L ∧ p `prefix_of` take k L.

Lemma safe_prefix H T p p' : p' `prefix_of` p → safe_log H T p → safe_log H T p'.
Proof.
  intros Hp [->|(T0 & k & L & HT & Hc & HL & Hpp)].
  - left. by apply prefix_nil_inv.
  - right. exists T0, k, L. split_and!; [done..|]. by etrans.
Qed.

Lemma safe_mono H T T' p : T ≤ T' → safe_log H T p → safe_log H T' p.
Proof.
  intros HT [->|(T0 & k & L & ? & ?)]; [by left|]. right. exists T0, k, L. split; [lia|done].
Qed.

Lemma safe_in_leader tm H T T' L' p :
  history_ok tm H → safe_log H T p → T ≤ T' → h_leaders H !! T' = Some L' → p `prefix_of` L'.
Proof using Hn.
  intros Ho [->|(T0 & k & L & HT & Hc & HL & Hp)] HT' HL'; [apply prefix_nil|].
  destruct (chosen_later tm H T0 T' L' k Ho ltac:(lia) HL' Hc) as (L0 & HL0 & Hp0).
  simplify_eq. by etrans.
Qed.

(** What is safe is safe for everyone. *)
Lemma safe_comparable tm H T T' p p' :
  history_ok tm H → safe_log H T p → safe_log H T' p' → p `prefix_of` p' ∨ p' `prefix_of` p.
Proof using Hn.
  intros Ho Hs Hs'. pose proof Hs as [->|(T0 & k & L & HT & Hc & HL & Hp)]; [left; apply prefix_nil|].
  pose proof Hs' as [->|(T0' & k' & L' & HT' & Hc' & HL' & Hp')]; [right; apply prefix_nil|].
  assert (∀ (Ta Tb : Z) ka La Lb pa, Ta ≤ Tb → chosen H Ta ka → h_leaders H !! Ta = Some La →
    pa `prefix_of` take ka La → h_leaders H !! Tb = Some Lb → pa `prefix_of` Lb) as Hup.
  { intros Ta Tb ka La Lb pa Hab Hca HLa Hpa HLb.
    eapply (safe_in_leader tm H Ta Tb); [done| |done..]. right. by exists Ta, ka, La. }
  destruct (Z.le_ge_cases T0 T0') as [Hle|Hle].
  - apply (prefix_weak_total p p' L'); [apply (Hup T0 T0' k L)|apply (Hup T0' T0' k' L')]; done || lia.
  - apply (prefix_weak_total p p' L); [apply (Hup T0 T0 k L)|apply (Hup T0' T0 k' L')]; done || lia.
Qed.

Lemma safe_facts tm H T p :
  history_ok tm H → 0 ≤ T → safe_log H T p →
  good H p ∧ sorted_terms p ∧ numbered p ∧ terms_upto T p.
Proof.
  intros Ho HT [->|(T0 & k & L & HT0 & Hc & HL & Hp)].
  { split_and!; [by intros j e|by intros i j e e' _|by intros j e..]. }
  destruct (ho_log _ _ Ho _ _ HL) as (_ & Hg & Hs & Hnb & Hu).
  assert (p `prefix_of` L) as Hp' by (etrans; [done|apply prefix_take]).
  split_and!; [by eapply good_prefix|by eapply sorted_prefix|by eapply numbered_prefix|].
  eapply upto_mono, upto_prefix; [|done..]; lia.
Qed.

(** ** Replacing a log *)

(** A log that gives way to [m], part of a leader's log, keeps what it holds. *)
Lemma replace_holds tm H T k l m L' :
  holds tm H T k L' → m `prefix_of` L' → holds tm H T k l → ¬ m `prefix_of` l → holds tm H T k m.
Proof.
  intros [(L & HL & Hp)|?] Hm [(L1 & HL1 & Hp1)|?] Hnp; try by right. simplify_eq. left.
  exists L. split; [done|]. destruct (prefix_weak_total _ _ _ Hp Hm) as [?|Hle]; [done|].
  destruct Hnp. by etrans.
Qed.

Lemma append_holds tm H T T' k l m L' :
  history_ok tm H → own H T k → T ≤ T' → h_leaders H !! T' = Some L' → m `prefix_of` L' →
  holds tm H T k l → ¬ m `prefix_of` l → holds tm H T k m.
Proof. intros Ho Hk HT HL' Hm Hl Hnp. eapply replace_holds; [|done..]. by eapply own_later. Qed.

Lemma install_holds tm H T T' k l p :
  history_ok tm H → own H T k → safe_log H T' p → holds tm H T k l → ¬ p `prefix_of` l →
  holds tm H T k p.
Proof using Hn.
  intros Ho Hk Hs Hl Hnp. pose proof Hs as [->|(T0 & k0 & L0 & HT0 & Hc & HL0 & Hp)].
  { destruct Hnp. apply prefix_nil. }
  destruct (Z.le_ge_cases T T0) as [Hle|Hge].
  - eapply (append_holds tm H T T0); try done. etrans; [done|apply prefix_take].
  - destruct Hk as (L & HL & Hk). eapply (append_holds tm H T T _ _ _ L); try done.
    + by exists L.
    + apply (safe_in_leader tm H T0 T); [done| |lia|done]. right. by exists T0, k0, L0.
Qed.

(** What is committed survives the same replacement. *)
Lemma append_safe tm H T T' q l m L' :
  history_ok tm H → safe_log H T q → T ≤ T' → h_leaders H !! T' = Some L' → m `prefix_of` L' →
  q `prefix_of` l → ¬ m `prefix_of` l → q `prefix_of` m.
Proof using Hn.
  intros Ho Hs HT HL' Hm Hq Hnp. pose proof (safe_in_leader _ _ _ _ _ _ Ho Hs HT HL') as Hq'.
  destruct (prefix_weak_total _ _ _ Hq' Hm) as [?|Hle]; [done|]. destruct Hnp. by etrans.
Qed.

(** ** Growth *)

(** Leaders only append, acknowledgements are never withdrawn, and a peer
    acknowledges only in a term it has not left. *)
Record grows (tm : Z → Z) H H' : Prop := {
  gr_leaders : ∀ T L, h_leaders H !! T = Some L → ∃ L', h_leaders H' !! T = Some L' ∧ L `prefix_of` L';
  gr_acks : h_acks H ⊆ h_acks H';
  gr_fresh : ∀ v T k, (v, T, k) ∈ h_acks H' → (v, T, k) ∈ h_acks H ∨ tm v ≤ T
}.

Lemma grows_refl tm H : grows tm H H.
Proof. split; [intros T L HL; by exists L|done|by left]. Qed.

Section grows.
Context (tm : Z → Z) (H H' : hist) (Hg : grows tm H H').

Lemma good_grows l : good H l → good H' l.
Proof using Hg.
  intros Hl j e (L & HL & Hp)%Hl. destruct (gr_leaders _ _ _ Hg _ _ HL) as (L' & HL' & Hp').
  exists L'. split; [done|]. by etrans.
Qed.

Lemma acked_grows v T k : acked H v T k → acked H' v T k.
Proof using Hg. intros (k' & Hin & Hk). exists k'. split; [|done]. by apply (gr_acks _ _ _ Hg). Qed.

Lemma own_grows T k : own H T k → own H' T k.
Proof using Hg.
  intros (L & HL & Hk & Ht). destruct (gr_leaders _ _ _ Hg _ _ HL) as (L' & HL' & Hp').
  exists L'. pose proof (prefix_length _ _ Hp'). split_and!; [done|lia|lia|].
  rewrite (prefix_vterm L L') by (done || lia). done.
Qed.

Lemma has_grows T k l : has H T k l → (∀ L, h_leaders H !! T = Some L → (k ≤ length L)%nat) → has H' T k l.
Proof using Hg.
  intros (L & HL & Hp) Hk. destruct (gr_leaders _ _ _ Hg _ _ HL) as (L' & HL' & Hp').
  exists L'. split; [done|]. by rewrite <- (prefix_take_le L L') by eauto.
Qed.

Lemma own_length T k L : own H T k → h_leaders H !! T = Some L → (k ≤ length L)%nat.
Proof. intros (L0 & HL0 & Hk & _) HL. simplify_eq. lia. Qed.

Lemma chosen_grows T k : chosen H T k → chosen H' T k.
Proof using Hg.
  intros [Ho (Q & HQ & Hack)]. split; [by apply own_grows|]. exists Q. split; [done|].
  intros v Hv. by apply acked_grows, Hack.
Qed.

Lemma safe_grows T p : safe_log H T p → safe_log H' T p.
Proof using Hg.
  intros [->|(T0 & k & L & HT & Hc & HL & Hp)]; [by left|right].
  destruct (gr_leaders _ _ _ Hg _ _ HL) as (L' & HL' & Hp'). exists T0, k, L'.
  split_and!; [done|by apply chosen_grows|done|]. rewrite <- (prefix_take_le L L'); [done..|].
  by eapply own_length; [apply Hc|].
Qed.

Lemma blocked_grows tm' T k :
  (∀ v, tm v ≤ tm' v) → blocked tm H T k → blocked tm' H' T k.
Proof using Hg.
  intros Htm (Q & HQ & Hno). exists Q. split; [done|]. intros v Hv. destruct (Hno v Hv) as [HT Hna].
  split; [specialize (Htm v); lia|]. intros (k' & Hin & Hk). apply (gr_fresh _ _ _ Hg) in Hin as [Hin|]; [|lia].
  apply Hna. by exists k'.
Qed.

Lemma holds_grows tm' T k l :
  (∀ v, tm v ≤ tm' v) → own H T k → holds tm H T k l → holds tm' H' T k l.
Proof using Hg.
  intros Htm Hk [Hh|Hb]; [left|right; by apply blocked_grows].
  apply has_grows; [done|]. intros L HL. by eapply own_length.
Qed.

(** What someone acknowledged, or a good log has, was owned before. *)
Lemma acked_own v T k :
  history_ok tm H → acked H v T k → own H' T k → own H T k.
Proof using Hg.
  intros Ho (k' & Hin & Hk) (L' & HL' & Hr & Ht).
  destruct (ho_ack _ _ Ho _ _ _ Hin) as (_ & L & HL & Hk').
  destruct (gr_leaders _ _ _ Hg _ _ HL) as (L2 & HL2 & Hp). assert (L2 = L') as -> by congruence.
  exists L. split_and!; [done|lia|lia|]. rewrite <- Ht. symmetry. apply prefix_vterm; [done|lia].
Qed.

Lemma good_own l T k : good H l → own H' T k → has H' T k l → own H T k.
Proof using Hg.
  intros Hl (L' & HL' & Hr & Ht) (L1 & HL1 & Hp). assert (L1 = L') as -> by congruence.
  destruct k as [|k]; [lia|]. simpl in Ht.
  destruct (lookup_lt_is_Some_2 L' k ltac:(lia)) as [e He]. rewrite He in Ht.
  assert (l !! k = Some e) as Hle.
  { eapply prefix_lookup_Some; [|done]. rewrite lookup_take_lt by lia. done. }
  destruct (Hl k e Hle) as (L & HL & Hpl). rewrite Ht in HL.
  pose proof (prefix_length _ _ Hpl) as Hlen. rewrite length_take in Hlen. apply lookup_lt_Some in Hle.
  destruct (gr_leaders _ _ _ Hg _ _ HL) as (L2 & HL2 & Hp2). assert (L2 = L') as -> by congruence.
  exists L. split_and!; [done|lia|lia|]. rewrite <- (prefix_vterm L L') by (done || lia).
  simpl. by rewrite He.
Qed.

Lemma acked_back v T k : acked H' v T k → acked H v T k ∨ tm v ≤ T.
Proof using Hg.
  intros (k' & [Hin|?]%(gr_fresh _ _ _ Hg) & Hk); [left|by right]. by exists k'.
Qed.
End grows.

(** ** What can happen *)

(** Terms grow. *)
Lemma history_terms tm tm' H : (∀ v, tm v ≤ tm' v) → history_ok tm H → history_ok tm' H.
Proof.
  intros Htm [Hl Ha Hlt Hv]. pose proof (grows_refl tm H) as Hg. split.
  - done.
  - intros v T k (HT & ?)%Ha. split; [|done]. specialize (Htm v). lia.
  - intros T T' L' k HT HL' Hk. eapply holds_grows; [done..|]. by eapply Hlt.
  - intros T (Q & HQ & Hq)%Hv. exists Q. split; [done|]. intros v Hin. specialize (Htm v).
    apply Hq in Hin. lia.
Qed.

(** A peer acknowledges. *)
Definition hist_ack (v T : Z) (k : nat) H : hist :=
  mkHist (h_leaders H) ({[(v, T, k)]} ∪ h_acks H).

Lemma ack_grows tm H v T k : tm v ≤ T → grows tm H (hist_ack v T k H).
Proof using Type.
  intros Hv. split.
  - intros T' L HL. by exists L.
  - simpl. apply union_subseteq_r.
  - intros v' T' k' [[= -> -> ->]%elem_of_singleton|?]%elem_of_union; [by right|by left].
Qed.

Lemma history_ack tm H v T k L :
  history_ok tm H → tm v = T → h_leaders H !! T = Some L → (k ≤ length L)%nat →
  history_ok tm (hist_ack v T k H).
Proof using Type.
  intros [Hl Ha Hlt Hv] HT HL Hk. pose proof (ack_grows tm H v T k ltac:(lia)) as Hg. split.
  - done.
  - intros v' T' k' [[= -> -> ->]%elem_of_singleton|Hin%Ha]%elem_of_union; [|done].
    split; [lia|]. by exists L.
  - intros T1 T2 L' k' HT12 HL' Hk'. by eapply holds_grows; [done..|]; eapply Hlt.
  - done.
Qed.

(** A leader appends an entry, which it acknowledges itself. *)
Definition hist_append (c T : Z) L (e : LogEntry C) H : hist :=
  mkHist (<[T := L ++ [e]]> (h_leaders H)) ({[(c, T, S (length L))]} ∪ h_acks H).

Lemma append_grows tm H c T L e :
  tm c ≤ T → h_leaders H !! T = Some L → grows tm H (hist_append c T L e H).
Proof using Type.
  intros Hc HL. split.
  - intros T' L' HL'. simpl. destruct (decide (T' = T)) as [->|Hne].
    + rewrite lookup_insert_eq. simplify_eq. eexists. split; [done|]. by apply prefix_app_r.
    + rewrite lookup_insert_ne by done. by exists L'.
  - simpl. apply union_subseteq_r.
  - intros v' T' k' [[= -> -> ->]%elem_of_singleton|?]%elem_of_union; [by right|by left].
Qed.

Lemma append_own H c T L e T0 k :
  h_leaders H !! T = Some L → own (hist_append c T L e H) T0 k →
  own H T0 k ∨ T0 = T ∧ k = S (length L).
Proof.
  intros HL (L0 & HL0 & Hk & Ht). simpl in HL0. destruct (decide (T0 = T)) as [->|Hne].
  - rewrite lookup_insert_eq in HL0. injection HL0 as <-. rewrite length_app in Hk. simpl in Hk.
    destruct (decide (k = S (length L))); [by right|left]. exists L. split_and!; [done|lia|lia|].
    rewrite <- Ht. symmetry. apply prefix_vterm; [by apply prefix_app_r|lia].
  - rewrite lookup_insert_ne in HL0 by done. left. by exists L0.
Qed.

Lemma history_append tm H c T L e :
  history_ok tm H → tm c = T → h_leaders H !! T = Some L →
  le_Term e = T → le_Index e = Z.of_nat (length L) + 1 →
  history_ok tm (hist_append c T L e H).
Proof using Type.
  intros [Hl Ha Hlt Hv] Hc HL Het Hei.
  pose proof (append_grows tm H c T L e ltac:(lia) HL) as Hg.
  destruct (Hl T L HL) as (HT1 & HgL & HsL & HnL & HuL).
  assert (∀ j x, (L ++ [e]) !! j = Some x → L !! j = Some x ∨ j = length L ∧ x = e) as Hsnoc.
  { intros j x [Hj|[Hj Hx]]%lookup_app_Some; [by left|].
    right. apply list_lookup_singleton_Some in Hx as [Hx <-]. split; [lia|done]. }
  split.
  - intros T' L'. simpl. destruct (decide (T' = T)) as [->|Hne]; cycle 1.
    { rewrite lookup_insert_ne by done. intros HL'. destruct (Hl T' L' HL') as (? & ? & ? & ? & ?).
      split_and!; try done. by eapply good_grows. }
    rewrite lookup_insert_eq. intros [= <-]. split; [done|]. split_and!.
    + intros j x Hj. destruct (Hsnoc j x Hj) as [Hx|[-> ->]].
      * pose proof (good_grows _ _ _ Hg L HgL j x Hx) as (L' & HL' & Hp). exists L'. split; [done|].
        apply lookup_lt_Some in Hx. by rewrite take_app_le by lia.
      * exists (L ++ [e]). simpl. rewrite Het, lookup_insert_eq. split; [done|]. apply prefix_take.
    + intros i j x y Hij Hx%Hsnoc Hy%Hsnoc. destruct Hx as [Hx|[-> ->]], Hy as [Hy|[-> ->]].
      * by eapply HsL.
      * apply HuL in Hx. lia.
      * apply lookup_lt_Some in Hy. lia.
      * done.
    + intros j x [Hx|[-> ->]]%Hsnoc; [by apply HnL|done].
    + intros j x [Hx|[-> ->]]%Hsnoc; [by eapply HuL|lia].
  - assert (∀ T' L', h_leaders H !! T' = Some L' → ∃ L'', h_leaders (hist_append c T L e H) !! T' = Some L'' ∧
      (length L' ≤ length L'')%nat) as Hlen.
    { intros T' L' HL'. destruct (gr_leaders _ _ _ Hg _ _ HL') as (L'' & ? & Hp).
      exists L''. split; [done|by apply prefix_length]. }
    intros v' T' k' [[= -> -> ->]%elem_of_singleton|Hin%Ha]%elem_of_union.
    + split; [lia|]. exists (L ++ [e]). simpl. rewrite lookup_insert_eq. split; [done|].
      rewrite length_app. simpl. lia.
    + destruct Hin as (HT' & L' & HL' & Hk'). split; [done|].
      destruct (Hlen T' L' HL') as (L'' & ? & ?). exists L''. split; [done|lia].
  - intros T1 T2 L' k HT12 HL' Hk. simpl in HL'.
    assert (∃ L2, h_leaders H !! T2 = Some L2 ∧ L2 `prefix_of` L') as (L2 & HL2 & Hp2).
    { destruct (decide (T2 = T)) as [->|Hne].
      - rewrite lookup_insert_eq in HL'. injection HL' as <-. exists L. split; [done|]. by apply prefix_app_r.
      - rewrite lookup_insert_ne in HL' by done. by exists L'. }
    destruct (append_own _ _ _ _ _ _ _ HL Hk) as [Hk0|[-> ->]].
    + destruct (holds_grows tm H _ Hg tm T1 k L2) as [(L1 & HL1 & Hp1)|Hb];
        [done|done|by eapply Hlt| |by right].
      left. exists L1. split; [done|]. by etrans.
    + right. destruct (Hv T2) as (Q & HQ & Hq); [by eexists|]. exists Q. split; [done|].
      intros v Hin%Hq. split; [lia|]. intros (k' & [[= -> ->]%elem_of_singleton|Hin']%elem_of_union & Hk'); [lia|].
      apply Ha in Hin' as (_ & L0 & HL0 & Hk0). simplify_eq. lia.
  - intros T' [L' HL']. apply Hv. simpl in HL'. destruct (decide (T' = T)) as [->|Hne]; [by eexists|].
    rewrite lookup_insert_ne in HL' by done. by eexists.
Qed.

(** A leader is elected with the log [l], which it acknowledges. *)
Definition hist_elect (c T : Z) l H : hist :=
  mkHist (<[T := l]> (h_leaders H)) ({[(c, T, length l)]} ∪ h_acks H).

Lemma elect_grows tm H c T l :
  tm c ≤ T → h_leaders H !! T = None → grows tm H (hist_elect c T l H).
Proof using Type.
  intros Hc HT. split.
  - intros T' L' HL'. simpl. rewrite lookup_insert_ne by congruence. by exists L'.
  - simpl. apply union_subseteq_r.
  - intros v' T' k' [[= -> -> ->]%elem_of_singleton|?]%elem_of_union; [by right|by left].
Qed.

(** A good log has no entry of a term without a leader. *)
Lemma good_terms H l T :
  good H l → terms_upto T l → h_leaders H !! T = None → terms_upto (T - 1) l.
Proof.
  intros Hg Hu HT j e He. pose proof (Hu j e He). destruct (Hg j e He) as (L & HL & _).
  assert (le_Term e ≠ T) by congruence. lia.
Qed.

Lemma elect_own H c T l T0 k :
  terms_upto (T - 1) l → own (hist_elect c T l H) T0 k → own H T0 k.
Proof.
  intros Hu (L0 & HL0 & Hk & Ht). simpl in HL0. destruct (decide (T0 = T)) as [->|Hne].
  - rewrite lookup_insert_eq in HL0. injection HL0 as <-. destruct k as [|k]; [lia|]. simpl in Ht.
    destruct (lookup_lt_is_Some_2 l k ltac:(lia)) as [e He]. rewrite He in Ht. apply Hu in He. lia.
  - rewrite lookup_insert_ne in HL0 by done. by exists L0.
Qed.

Lemma history_elect tm H c T l :
  history_ok tm H → tm c = T → h_leaders H !! T = None → 1 ≤ T →
  good H l → sorted_terms l → numbered l → terms_upto T l →
  (∃ Q, quorum_of Q ∧ ∀ v, v ∈ Q → T ≤ tm v) →
  (∀ T0 k, T0 < T → own H T0 k → holds tm H T0 k l) →
  history_ok tm (hist_elect c T l H).
Proof using Type.
  intros [Hl Ha Hlt Hv] Hc HT HT1 Hgl Hsl Hnl Hul HQ Hholds.
  pose proof (elect_grows tm H c T l ltac:(lia) HT) as Hg.
  pose proof (good_terms H l T Hgl Hul HT) as Hul'. split.
  - intros T' L'. simpl. destruct (decide (T' = T)) as [->|Hne].
    + rewrite lookup_insert_eq. intros [= <-]. split_and!; try done. by eapply good_grows.
    + rewrite lookup_insert_ne by done. intros HL'. destruct (Hl T' L' HL') as (? & ? & ? & ? & ?).
      split_and!; try done. by eapply good_grows.
  - intros v' T' k' [[= -> -> ->]%elem_of_singleton|Hin%Ha]%elem_of_union.
    + split; [lia|]. exists l. simpl. by rewrite lookup_insert_eq.
    + destruct Hin as (HT' & L' & HL' & Hk'). split; [done|]. exists L'. simpl.
      by rewrite lookup_insert_ne by congruence.
  - intros T1 T2 L' k HT12 HL' Hk. apply elect_own in Hk; [|done]. eapply holds_grows; [done..|].
    simpl in HL'. destruct (decide (T2 = T)) as [->|Hne].
    + rewrite lookup_insert_eq in HL'. injection HL' as <-. by apply Hholds.
    + rewrite lookup_insert_ne in HL' by done. by eapply Hlt.
  - intros T' [L' HL']. simpl in HL'. destruct (decide (T' = T)) as [->|Hne]; [done|].
    rewrite lookup_insert_ne in HL' by done. apply Hv. by eexists.
Qed.

(** ** Where commands come from *)
Definition commands_in (P : option C → Prop) H : Prop :=
  ∀ T L e, h_leaders H !! T = Some L → e ∈ L → P (le_Command e).

(** The history grows, and its new entries have commands of [Q]. *)
Record extends (tm : Z → Z) (Q : option C → Prop) H H' : Prop := {
  ex_grows : grows tm H H';
  ex_commands : ∀ P : option C → Prop, (∀ c, Q c → P c) → commands_in P H → commands_in P H'
}.

Lemma extends_refl tm Q H : extends tm Q H H.
Proof. split; [apply grows_refl|done]. Qed.

Lemma extends_ack tm H v T k : tm v ≤ T → extends tm (λ _, False) H (hist_ack v T k H).
Proof using Type. intros Hv. split; [by apply ack_grows|done]. Qed.

Lemma extends_append tm H c T L e :
  tm c ≤ T → h_leaders H !! T = Some L →
  extends tm (λ x, x = le_Command e) H (hist_append c T L e H).
Proof using Type.
  intros Hc HL. split; [by apply append_grows|]. intros P HP HH T' L' x. simpl.
  intros [[<- <-]|[_ HL']]%lookup_insert_Some; [|by apply (HH T')].
  intros [Hx| ->%list_elem_of_singleton]%elem_of_app; [by apply (HH T L)|by apply HP].
Qed.

Lemma extends_elect tm H c T l :
  tm c ≤ T → h_leaders H !! T = None → good H l → extends tm (λ _, False) H (hist_elect c T l H).
Proof using Type.
  intros Hc HT Hg. split; [by apply elect_grows|]. intros P _ HH T' L' x. simpl.
  intros [[<- <-]|[_ HL']]%lookup_insert_Some; [|by apply (HH T')].
  intros [j Hj]%list_elem_of_lookup. destruct (Hg j x Hj) as (L & HL & Hp). apply (HH _ L _ HL).
  apply (list_elem_of_lookup_2 L j). apply (prefix_lookup_Some (take (S j) l)); [|exact Hp].
  by rewrite lookup_take_lt by lia.
Qed.

(** ** The vote *)

(** A candidate whose log [cl] is at least as up to date as the voter's [w] holds
    what the voter holds. *)
Lemma vote_holds tm H T k w cl Tw Tc :
  history_ok tm H → good H w → sorted_terms w → terms_upto Tw w →
  good H cl → sorted_terms cl → terms_upto Tc cl → own H T k → has H T k w →
  (vterm w (length w) < vterm cl (length cl) ∨
   vterm cl (length cl) = vterm w (length w) ∧ (length w ≤ length cl)%nat) →
  holds tm H T k cl.
Proof.
  intros Ho Hgw Hsw Huw Hgc Hsc Huc Hk (L & HL & Hp) Hup.
  assert ((1 ≤ k ≤ length L)%nat ∧ vterm L k = T) as [Hkl Ht].
  { destruct Hk as (L0 & HL0 & ? & ?). by assert (L0 = L) as -> by congruence. }
  destruct (ho_log _ _ Ho _ _ HL) as (HT1 & _ & _ & _ & HuL).
  (* the voter has the entry, so its log does not end in an earlier term *)
  pose proof (prefix_length _ _ Hp) as Hlen. rewrite length_take, Nat.min_l in Hlen by lia.
  assert (∀ l, take k L `prefix_of` l → vterm l k = T) as Hat.
  { intros l Hpl. rewrite (prefix_vterm (take k L) l k Hpl), <- Ht by (rewrite length_take; lia).
    symmetry. apply prefix_vterm; [apply prefix_take|rewrite length_take; lia]. }
  pose proof (vterm_sorted w k (length w) Tw Hsw Huw ltac:(lia)) as Hge. rewrite (Hat w Hp) in Hge.
  assert (cl ≠ []) as Hne.
  { intros ->. simpl in Hup. lia. }
  destruct (good_last H cl _ Hgc eq_refl Hne) as (L' & HL' & Hp'). destruct Hup as [Hlt|[Heq Hle]].
  - destruct (own_later tm H T (vterm cl (length cl)) L' k Ho ltac:(lia) HL' Hk) as [(L1 & HL1 & Hh)|?];
      [|by right]. assert (L1 = L) as -> by congruence. left. exists L. split; [done|].
    destruct (prefix_weak_total _ _ _ Hh Hp') as [?|Hcl]; [done|].
    (* otherwise the candidate's log would end before a term it has reached *)
    pose proof (prefix_length _ _ Hcl) as Hl. rewrite length_take in Hl.
    rewrite <- (prefix_vterm _ _ (length cl) Hcl) in Hlt by done.
    assert (sorted_terms (take k L) ∧ terms_upto T (take k L)) as [Hs1 Hu1].
    { split; [eapply sorted_prefix|eapply upto_prefix]; try apply prefix_take; [|done].
      by apply (ho_log _ _ Ho _ _ HL). }
    pose proof (vterm_upto (take k L) (length cl) T Hu1 ltac:(lia)). rewrite length_take in *. lia.
  - assert (w ≠ []) as Hnw by (intros ->; simpl in Hlen; lia).
    destruct (good_last H w _ Hgw eq_refl Hnw) as (L1 & HL1 & Hp1). rewrite <- Heq in HL1.
    assert (L1 = L') as -> by congruence. left. exists L. split; [done|]. etrans; [done|].
    destruct (prefix_weak_total _ _ _ Hp1 Hp') as [?|Hcw]; [done|].
    by rewrite (prefix_length_eq _ _ Hcw).
Qed.
End history.
