(* ===== verification/RaftRep.v ===== *)
(** * The whole log of a peer

    A peer keeps only the entries after its snapshot.  [rep rf vl] says that [vl]
    is its whole log, from the first entry on: what the peer keeps is the end of
    [vl], and the term of its snapshot is the term of [vl] there.  Reading the
    peer's log is reading [vl], and cutting it at a snapshot does not change
    [vl]. *)

From S2P Require Import Prelude Persister RaftApi Raft RaftLog RaftAppend RaftSteps RaftHistory.
Import Raft.

Section rep.
Context {C : Type} `{HC : Codec (Z * Z * list (LogEntry C) * Z * Z)}.
Implicit Types (rf : Raft C) (vl m : list (LogEntry C)).

Record rep rf vl : Prop := {
  rp_lii : 0 ≤ lastIncludedIndex rf ≤ zlen vl;
  rp_log : drop 1 (Log rf) = drop (Z.to_nat (lastIncludedIndex rf)) vl;
  rp_lit : lastIncludedTerm rf = vterm vl (Z.to_nat (lastIncludedIndex rf))
}.

Lemma rep_frame rf rf' vl :
  Log rf' = Log rf → lastIncludedIndex rf' = lastIncludedIndex rf →
  lastIncludedTerm rf' = lastIncludedTerm rf → rep rf vl → rep rf' vl.
Proof. intros HL HI HT [H1 H2 H3]. split; rewrite ?HL, ?HI, ?HT; done. Qed.

Lemma rep_length rf vl :
  log_wf rf → rep rf vl → (length (Log rf) + Z.to_nat (lastIncludedIndex rf) = length vl + 1)%nat.
Proof.
  intros Hw [Hl Hlog _]. apply (f_equal length) in Hlog. rewrite !length_drop in Hlog.
  pose proof (log_length rf Hw). unfold zlen in Hl. lia.
Qed.

Lemma rep_last rf vl : log_wf rf → rep rf vl → last_index rf = zlen vl.
Proof.
  intros Hw Hr. pose proof (rep_length rf vl Hw Hr). pose proof (rp_lii _ _ Hr).
  unfold last_index, zlen in *. lia.
Qed.

Lemma rep_lookup rf vl (k : nat) :
  rep rf vl → (0 < k)%nat → Log rf !! k = vl !! (Z.to_nat (lastIncludedIndex rf) + k - 1)%nat.
Proof.
  intros Hr Hk.
  pose proof (f_equal (λ l, l !! (k - 1)%nat) (rp_log _ _ Hr)) as Hl. simpl in Hl.
  rewrite !lookup_drop in Hl. replace (1 + (k - 1))%nat with k in Hl by lia. rewrite Hl. f_equal. lia.
Qed.

Lemma rep_term rf vl (k : nat) :
  rep rf vl → (k < length (Log rf))%nat →
  term_at rf k = vterm vl (Z.to_nat (lastIncludedIndex rf) + k).
Proof.
  intros Hr Hk. destruct k as [|k]; [rewrite Nat.add_0_r; apply Hr|].
  unfold term_at. rewrite (rep_lookup rf vl (S k)) by (done || lia).
  set (a := Z.to_nat (lastIncludedIndex rf)).
  replace (a + S k - 1)%nat with (a + k)%nat by lia. by replace (a + S k)%nat with (S (a + k)) by lia.
Qed.

(** The same by index. *)
Lemma rep_term_index rf vl i :
  log_wf rf → rep rf vl → lastIncludedIndex rf ≤ i ≤ last_index rf →
  term_at rf (Z.to_nat (i - lastIncludedIndex rf)) = vterm vl (Z.to_nat i).
Proof.
  intros Hw Hr Hi. pose proof (rep_length rf vl Hw Hr). pose proof (rep_last rf vl Hw Hr).
  pose proof (rp_lii _ _ Hr). rewrite (rep_term rf vl) by (done || unfold zlen in *; lia).
  f_equal. lia.
Qed.

Lemma rep_last_term rf vl : log_wf rf → rep rf vl → last_term rf = vterm vl (length vl).
Proof.
  intros Hw Hr. pose proof (rep_length rf vl Hw Hr). pose proof (log_length rf Hw).
  unfold last_term. rewrite (rep_term rf vl) by (done || lia). f_equal. lia.
Qed.

Lemma rep_entry rf vl i :
  rep rf vl → lastIncludedIndex rf < i → entry_at rf i = vl !! Z.to_nat (i - 1).
Proof.
  intros Hr Hi. pose proof (rp_lii _ _ Hr). unfold entry_at. case_test; [|lia].
  rewrite (rep_lookup rf vl) by (done || lia). f_equal. lia.
Qed.

(** A snapshot of the log's own beginning. *)
Lemma rep_trimmed rf rf' i vl :
  log_wf rf → (i < length (Log rf))%nat → trimmed rf rf' i → rep rf vl → rep rf' vl.
Proof.
  intros Hw Hi [HL HI HT _] Hr. pose proof (rep_length rf vl Hw Hr). pose proof (rp_lii _ _ Hr).
  split.
  - rewrite HI. unfold zlen in *. lia.
  - rewrite HL, HI. simpl. rewrite drop_0. replace (S i) with (1 + i)%nat by lia.
    rewrite <- drop_drop, (rp_log _ _ Hr), drop_drop. f_equal. lia.
  - rewrite HT, HI, (rep_term rf vl) by done. f_equal. lia.
Qed.

(** An entry appended. *)
Lemma rep_snoc rf rf' vl e :
  log_wf rf → Log rf' = Log rf ++ [e] → lastIncludedIndex rf' = lastIncludedIndex rf →
  lastIncludedTerm rf' = lastIncludedTerm rf → rep rf vl → rep rf' (vl ++ [e]).
Proof.
  intros Hw HL HI HT Hr. pose proof (log_length rf Hw). pose proof (rp_lii _ _ Hr) as Hlii.
  unfold zlen in Hlii. split.
  - rewrite HI. unfold zlen. rewrite length_app. simpl. lia.
  - rewrite HL, HI, !drop_app_le by lia. by rewrite (rp_log _ _ Hr).
  - rewrite HT, HI, (rp_lit _ _ Hr). symmetry. apply prefix_vterm; [by apply prefix_app_r|lia].
Qed.

(** The log dropped for a snapshot of [p]. *)
Lemma rep_reset rf p :
  Log rf = [zeroEntry] → lastIncludedIndex rf = zlen p →
  lastIncludedTerm rf = vterm p (length p) → rep rf p.
Proof.
  intros HL HI HT. unfold zlen in HI. split.
  - rewrite HI. unfold zlen. lia.
  - rewrite HL, HI. simpl. by rewrite Nat2Z.id, drop_all.
  - by rewrite HT, HI, Nat2Z.id.
Qed.

(** Entries merged after index [prev]. *)
Lemma rep_merged rf rf' args vl :
  log_wf rf → rep rf vl → prev_matches rf args →
  Log rf' = merged_log rf args → lastIncludedIndex rf' = lastIncludedIndex rf →
  lastIncludedTerm rf' = lastIncludedTerm rf →
  let k := Z.to_nat (aea_PrevLogIndex args) in
  rep rf' (take k vl ++ merge (drop k vl) (aea_Entries args)).
Proof.
  intros Hw Hr [Hp _] HL HI HT k. pose proof (rep_length rf vl Hw Hr) as Hlen.
  pose proof (rep_last rf vl Hw Hr) as Hlast. pose proof (rp_lii _ _ Hr) as Hlii.
  pose proof (log_length rf Hw). unfold zlen in *.
  assert (length (take k vl) = k) as Hk by (rewrite length_take; lia).
  assert (Z.to_nat (lastIncludedIndex rf) ≤ k)%nat as Hlk by lia. split.
  - rewrite HI. unfold zlen. rewrite length_app, Hk. lia.
  - rewrite HL, HI. unfold merged_log.
    replace (Z.to_nat (aea_PrevLogIndex args - lastIncludedIndex rf + 1)) with
      (1 + (k - Z.to_nat (lastIncludedIndex rf)))%nat by lia.
    set (d := (k - Z.to_nat (lastIncludedIndex rf))%nat).
    assert (drop (1 + d) (Log rf) = drop k vl) as ->.
    { rewrite <- drop_drop, (rp_log _ _ Hr), drop_drop. f_equal. lia. }
    assert (take (1 + d) (Log rf) = take 1 (Log rf) ++ take d (drop 1 (Log rf))) as ->.
    { by rewrite take_take_drop. }
    rewrite <- app_assoc, drop_app_length'.
    2: { rewrite length_take. lia. }
    rewrite (rp_log _ _ Hr), drop_app_le by lia. f_equal.
    rewrite take_drop_commute. do 2 f_equal. lia.
  - rewrite HT, HI, (rp_lit _ _ Hr).
    assert (take k vl `prefix_of` take k vl ++ merge (drop k vl) (aea_Entries args)) as Hpre
      by by apply prefix_app_r.
    rewrite (prefix_vterm _ _ (Z.to_nat (lastIncludedIndex rf)) Hpre) by lia.
    apply prefix_vterm; [apply prefix_take|lia].
Qed.
End rep.
