(* ===== verification/RaftGroup.v ===== *)
(** * A group of Raft peers

    All peers of raft/raft.go together: elections as in [RaftElection], and the
    calls with which a leader sends its log and its snapshots ([pstep]); the calls
    of the services, and crashes ([gstep]).  Calls and replies may be lost, delayed, reordered and
    repeated; a goroutine that asks for a vote takes one reply.  Peers crash and restart
    from their storage at any point.  Nothing is assumed of the messages: they
    are what [leader_prepare] of some peer produced.

    The invariant [ginv] ties the peers and the messages to a history
    ([RaftHistory]): every log is good, a leader has the log of its term, a peer
    holds what it acknowledged, what is committed is safe. *)

From S2P Require Import Prelude Persister RaftApi Raft RaftLog RaftAppend RaftSteps RaftSpec RaftOps.
From S2P Require Import RaftElection RaftHistory RaftRep.
From stdpp Require Import functions.
Local Open Scope Z_scope.
Import Raft.

Section group.
Context {C : Type} `{HC : Codec (Z * Z * list (LogEntry C) * Z * Z)}.
Context (n : Z).
Implicit Types (rf : Raft C) (N : net (C:=C)) (vl : list (LogEntry C)).

(** The peers and their elections; the calls under way with their addressees and
    the replies with their senders; and the snapshots handed to the services, as
    (peer, (term, index, data)). *)
Record group := mkGroup {
  g_net : net (C:=C);
  g_appends : list (Z * AppendEntriesArgs C);
  g_areplies : list (Z * AppendEntriesArgs C * AppendEntriesReply);
  g_installs : list (Z * InstallSnapshotArgs);
  g_ireplies : list (Z * InstallSnapshotArgs * InstallSnapshotReply);
  g_offers : list (Z * (Z * Z * bytes))
}.
Implicit Types (G : group).

Definition g_peer G : gmap Z (Raft C) := n_peer (g_net G).

(** One peer changed. *)
Definition net_set N (i : Z) rf : net (C:=C) :=
  mkNet (<[i := rf]> (n_peer N)) (n_calls N) (n_replies N) (n_granted N) (n_counted N)
    (n_elected N) (n_open N).

Definition with_net G N : group :=
  mkGroup N (g_appends G) (g_areplies G) (g_installs G) (g_ireplies G) (g_offers G).

Definition set_peer G (i : Z) rf : group := with_net G (net_set (g_net G) i rf).

(** The call [leader_prepare] has prepared for peer [j]. *)
Definition send (j : Z) (out : outgoing C) G : group :=
  match out with
  | SendNothing => G
  | SendEntries args =>
      mkGroup (g_net G) ((j, args) :: g_appends G) (g_areplies G) (g_installs G) (g_ireplies G) (g_offers G)
  | SendSnapshot args =>
      mkGroup (g_net G) (g_appends G) (g_areplies G) ((j, args) :: g_installs G) (g_ireplies G) (g_offers G)
  end.

Definition add_areply (r : Z * AppendEntriesArgs C * AppendEntriesReply) G : group :=
  mkGroup (g_net G) (g_appends G) (r :: g_areplies G) (g_installs G) (g_ireplies G) (g_offers G).

Definition add_ireply (r : Z * InstallSnapshotArgs * InstallSnapshotReply) G : group :=
  mkGroup (g_net G) (g_appends G) (g_areplies G) (g_installs G) (r :: g_ireplies G) (g_offers G).

(** The message to the service, if there is one. *)
Definition offer (i : Z) (o : option (ApplyMsg C)) G : group :=
  match o with
  | None => G
  | Some m =>
      mkGroup (g_net G) (g_appends G) (g_areplies G) (g_installs G) (g_ireplies G)
        ((i, (SnapshotTerm m, SnapshotIndex m, RaftApi.Snapshot m)) :: g_offers G)
  end.

(** What the peers do among themselves. *)
Inductive pstep : group → group → Prop :=
(* elections *)
| ps_tick G i rf now randTime rf' o :
    g_peer G !! i = Some rf → ticker rf now randTime = Ret (rf', o) →
    pstep G (with_net G (mkNet (<[i := rf']> (g_peer G)) (vote_calls n o ++ n_calls (g_net G))
      (n_replies (g_net G)) (n_granted (g_net G)) (n_counted (g_net G)) (n_elected (g_net G))
      (vote_routines n o ∪ n_open (g_net G))))
| ps_vote G v rf args now rf' reply :
    (v, args) ∈ n_calls (g_net G) →
    g_peer G !! v = Some rf → RequestVote rf args now = Ret (rf', reply) →
    pstep G (with_net G (mkNet (<[v := rf']> (g_peer G)) (n_calls (g_net G))
      ((v, args, reply) :: n_replies (g_net G))
      (if rvr_VoteGranted reply
       then {[(v, rva_Term args, rva_CandidateId args)]} ∪ n_granted (g_net G) else n_granted (g_net G))
      (n_counted (g_net G)) (n_elected (g_net G)) (n_open (g_net G))))
| ps_vote_retry G key retry :
    n_open (g_net G) !! key = Some retry →
    pstep G (with_net G (mkNet (g_peer G) (n_calls (g_net G)) (n_replies (g_net G)) (n_granted (g_net G))
      (n_counted (g_net G)) (n_elected (g_net G)) (partial_alter (λ _, vote_retry retry) key (n_open (g_net G)))))
| ps_vote_reply G v rf args reply retry rf' :
    (v, args, reply) ∈ n_replies (g_net G) → n_open (g_net G) !! ballot_key (v, args) = Some retry →
    g_peer G !! rva_CandidateId args = Some rf → handle_vote_reply rf args reply = Ret rf' →
    pstep G (with_net G (mkNet (<[rva_CandidateId args := rf']> (g_peer G)) (n_calls (g_net G))
      (n_replies (g_net G)) (n_granted (g_net G))
      (if counts rf args reply
       then <[(rva_CandidateId args, rva_Term args) :=
                {[v]} ∪ counted (g_net G) (rva_CandidateId args) (rva_Term args)]> (n_counted (g_net G))
       else n_counted (g_net G))
      (if elects rf rf' then {[(rva_CandidateId args, rva_Term args)]} ∪ n_elected (g_net G)
       else n_elected (g_net G))
      (delete (ballot_key (v, args)) (n_open (g_net G)))))
(* replication *)
| ps_prepare G i j rf rf' out :
    g_peer G !! i = Some rf → 0 ≤ j < n → j ≠ i → leader_prepare rf j = Ret (rf', out) →
    pstep G (send j out (set_peer G i rf'))
| ps_append G d rf args now rf' reply :
    (d, args) ∈ g_appends G → g_peer G !! d = Some rf →
    AppendEntries rf args now = Ret (rf', reply) →
    pstep G (add_areply (d, args, reply) (set_peer G d rf'))
| ps_append_reply G j args reply rf rf' :
    (j, args, reply) ∈ g_areplies G → g_peer G !! aea_LeaderId args = Some rf →
    handle_append_reply rf j args reply = Ret rf' →
    pstep G (set_peer G (aea_LeaderId args) rf')
| ps_install G d rf args now rf' reply o :
    (d, args) ∈ g_installs G → g_peer G !! d = Some rf →
    InstallSnapshot rf args now = (rf', reply, o) →
    pstep G (offer d o (add_ireply (d, args, reply) (set_peer G d rf')))
| ps_install_reply G j args reply rf rf' :
    (j, args, reply) ∈ g_ireplies G → g_peer G !! isa_LeaderId args = Some rf →
    handle_install_reply rf j args true reply = Ret rf' →
    pstep G (set_peer G (isa_LeaderId args) rf')
| ps_install_lost G j args rf rf' :
    (j, args) ∈ g_installs G → g_peer G !! isa_LeaderId args = Some rf →
    handle_install_reply rf j args false (mkInstallSnapshotReply 0) = Ret rf' →
    pstep G (set_peer G (isa_LeaderId args) rf').

(** The calls of the services, crashes, and the steps of the peers. *)
Inductive gstep : group → group → Prop :=
| gs_peers G G' : pstep G G' → gstep G G'
| gs_crash G i rf now :
    g_peer G !! i = Some rf → gstep G (set_peer G i (Make n i (persister rf) now))
| gs_start G i rf c rf' r :
    g_peer G !! i = Some rf → Start rf c = Ret (rf', r) → gstep G (set_peer G i rf')
| gs_cond_install G i rf lit lii data rf' b :
    (i, (lit, lii, data)) ∈ g_offers G → g_peer G !! i = Some rf →
    CondInstallSnapshot rf lit lii data = Ret (rf', b) → gstep G (set_peer G i rf')
| gs_snapshot G i rf target data rf' :
    g_peer G !! i = Some rf → target ≤ commitIndex rf → Raft.Snapshot rf target data = Ret rf' →
    gstep G (set_peer G i rf')
| gs_done G i rf commit :
    g_peer G !! i = Some rf → commit ≤ commitIndex rf →
    gstep G (set_peer G i (applyChecker_done rf commit))
| gs_kill G i rf :
    g_peer G !! i = Some rf → gstep G (set_peer G i (Kill rf)).

Definition group_init G : Prop :=
  net_init n (g_net G) ∧ g_appends G = [] ∧ g_areplies G = [] ∧ g_installs G = [] ∧
  g_ireplies G = [] ∧ g_offers G = [].

Definition group_reach G : Prop := ∃ G0, group_init G0 ∧ rtc gstep G0 G.

(** ** The invariant *)

(** The current terms of the peers. *)
Definition term_of N (v : Z) : Z :=
  match n_peer N !! v with Some rf => currentTerm rf | None => -1 end.

Notation hist := (hist (C:=C)).
Implicit Types (H : hist).

Record peer_inv (tm : Z → Z) H (i : Z) rf vl : Prop := {
  pi_rep : rep rf vl;
  pi_good : good H vl;
  pi_sorted : sorted_terms vl;
  pi_numbered : numbered vl;
  pi_upto : terms_upto (currentTerm rf) vl;
  pi_acks : ∀ T k, own H T k → acked H i T k → holds n tm H T k vl;
  pi_commit : safe_log n H (currentTerm rf) (take (Z.to_nat (commitIndex rf)) vl);
  pi_leader : state rf = LEADER →
    h_leaders H !! currentTerm rf = Some vl ∧ acked H i (currentTerm rf) (length vl);
  pi_match : state rf = LEADER → ∀ j m, 0 ≤ j < n → j ≠ i →
    matchIndex rf !! Z.to_nat j = Some m → m ≤ zlen vl ∧
    ∀ k : nat, commitIndex rf < Z.of_nat k ≤ m → vterm vl k = currentTerm rf →
      acked H j (currentTerm rf) k
}.

(** A call with entries is cut out of the log of its sender's term; the commit
    index it carries is safe.  A call that starts beyond the end of that log
    carries the term -1 and matches nowhere. *)
Definition append_ok H (args : AppendEntriesArgs C) : Prop :=
  ∃ L, h_leaders H !! aea_Term args = Some L ∧
    ((aea_PrevLogTerm args = -1 ∧ aea_Entries args = [] ∧
      aea_LeaderCommit args ≤ aea_PrevLogIndex args) ∨
     ∃ m, m `prefix_of` L ∧ 0 ≤ aea_PrevLogIndex args ≤ zlen m ∧
       aea_Entries args = drop (Z.to_nat (aea_PrevLogIndex args)) m ∧
       aea_PrevLogTerm args = vterm m (Z.to_nat (aea_PrevLogIndex args)) ∧
       aea_LeaderCommit args ≤ zlen m ∧
       safe_log n H (aea_Term args) (take (Z.to_nat (aea_LeaderCommit args)) m)).

(** An acknowledgement is in the history. *)
Definition areply_ok H (r : Z * AppendEntriesArgs C * AppendEntriesReply) : Prop :=
  0 ≤ r.1.1 < n ∧ (aer_Success r.2 = true →
    acked H r.1.1 (aea_Term r.1.2) (Z.to_nat (aea_PrevLogIndex r.1.2 + zlen (aea_Entries r.1.2)))).

(** A snapshot stands for a safe log. *)
Definition snapshot_of H (T lit lii : Z) : Prop :=
  ∃ p, safe_log n H T p ∧ zlen p = lii ∧ vterm p (length p) = lit.

Definition install_ok N H (j : Z) (args : InstallSnapshotArgs) : Prop :=
  0 ≤ j < n ∧ snapshot_of H (isa_Term args) (isa_LastIncludedTerm args) (isa_LastIncludedIndex args) ∧
  (isa_LeaderId args, isa_Term args) ∈ n_elected N ∧
  ∀ rf, n_peer N !! isa_LeaderId args = Some rf → state rf = LEADER →
    currentTerm rf = isa_Term args → isa_LastIncludedIndex args ≤ commitIndex rf.

Definition offer_ok N H (o : Z * (Z * Z * bytes)) : Prop :=
  let '(i, (lit, lii, _)) := o in
  ∃ T rf, n_peer N !! i = Some rf ∧ T ≤ currentTerm rf ∧ snapshot_of H T lit lii.

(** A call for votes carries the end of a log [cl]; what [cl] holds the candidate
    still holds. *)
Definition call_ok N H (V : Z → list (LogEntry C)) (args : RequestVoteArgs) : Prop :=
  ∃ cl, good H cl ∧ sorted_terms cl ∧ terms_upto (rva_Term args) cl ∧
    rva_LastLogIndex args = zlen cl ∧ rva_LastLogTerm args = vterm cl (length cl) ∧
    rva_Term args ≤ term_of N (rva_CandidateId args) ∧
    ∀ rc, n_peer N !! rva_CandidateId args = Some rc → state rc = CANDIDATE →
      currentTerm rc = rva_Term args →
      ∀ T k, T < rva_Term args → own H T k → has H T k cl →
        holds n (term_of N) H T k (V (rva_CandidateId args)).

(** Whoever gave a candidate its vote has acknowledged nothing that the candidate
    does not hold. *)
Definition granted_ok N H (V : Z → list (LogEntry C)) (g : Z * Z * Z) : Prop :=
  let '(v, T', c) := g in
  T' ≤ term_of N c ∧
  ∀ rc, n_peer N !! c = Some rc → state rc = CANDIDATE → currentTerm rc = T' →
    ∀ T k, T < T' → own H T k → acked H v T k → holds n (term_of N) H T k (V c).

Record ginv G H (V : Z → list (LogEntry C)) : Prop := {
  gi_net : net_inv n (g_net G);
  gi_hist : history_ok n (term_of (g_net G)) H;
  gi_elected : ∀ T, is_Some (h_leaders H !! T) → ∃ c, (c, T) ∈ n_elected (g_net G);
  gi_peer : ∀ i rf, g_peer G !! i = Some rf → peer_inv (term_of (g_net G)) H i rf (V i);
  gi_append : ∀ j args, (j, args) ∈ g_appends G → append_ok H args;
  gi_areply : ∀ r, r ∈ g_areplies G → areply_ok H r;
  gi_install : ∀ j args, (j, args) ∈ g_installs G → install_ok (g_net G) H j args;
  gi_ireply : ∀ j args r, (j, args, r) ∈ g_ireplies G → install_ok (g_net G) H j args;
  gi_offer : ∀ o, o ∈ g_offers G → offer_ok (g_net G) H o;
  gi_call : ∀ v args, (v, args) ∈ n_calls (g_net G) → call_ok (g_net G) H V args;
  gi_granted : ∀ g, g ∈ n_granted (g_net G) → granted_ok (g_net G) H V g
}.

Lemma term_of_set N N' i rf rf' v :
  n_peer N !! i = Some rf → n_peer N' = <[i := rf']> (n_peer N) → currentTerm rf ≤ currentTerm rf' →
  term_of N v ≤ term_of N' v.
Proof.
  intros Hi HN Ht. unfold term_of. rewrite HN. destruct (decide (v = i)) as [->|Hne].
  - by rewrite lookup_insert_eq, Hi.
  - by rewrite lookup_insert_ne.
Qed.

Lemma term_of_peer N i rf : n_peer N !! i = Some rf → term_of N i = currentTerm rf.
Proof. unfold term_of. by intros ->. Qed.

Lemma at_term_of N i T P : at_term N i T P → T ≤ term_of N i.
Proof. intros (rf & Hi & HT & _). by rewrite (term_of_peer N i rf). Qed.

(** ** One peer changes

    The parts of the invariant that concern the others. *)
Section update.
Context (G G' : group) (H H' : hist) (V : Z → list (LogEntry C)).
Context (i : Z) (rf rf' : Raft C) (vl' : list (LogEntry C)).
Local Notation N := (g_net G).
Local Notation N' := (g_net G').
Context (Hinv : ginv G H V) (Hi : g_peer G !! i = Some rf).
Context (Hpeer : g_peer G' = <[i := rf']> (g_peer G)).
Context (Hterm : currentTerm rf ≤ currentTerm rf').
Context (Hgr : grows (term_of N) H H').

Context (Hacks : ∀ v T k, v ≠ i → acked H' v T k → acked H v T k).
Context (Hnet : net_inv n (g_net G')).
Context (Hll : ∀ T, h_leaders H' !! T = h_leaders H !! T ∨ (i, T) ∈ n_elected (g_net G')).

Lemma tm_le v : term_of N v ≤ term_of N' v.
Proof using Hi Hpeer Hterm. by eapply term_of_set. Qed.

Lemma peer_inv_other j rj :
  j ≠ i → g_peer G !! j = Some rj → peer_inv (term_of N') H' j rj (V j).
Proof using Hinv Hi Hpeer Hterm Hgr Hacks Hnet Hll.
  intros Hne Hj. pose proof (gi_hist _ _ _ Hinv) as Ho.
  pose proof (gi_peer _ _ _ Hinv j rj Hj) as Hp. pose proof tm_le as Htm. destruct Hp. split; try done.
  - by eapply good_grows.
  - intros T k Hk Ha%Hacks; [|done]. assert (own H T k) as Hk0 by by eapply acked_own.
    eapply holds_grows; [done..|]. by apply pi_acks0.
  - by eapply safe_grows.
  - intros Hl. destruct (pi_leader0 Hl) as [HL Ha]. split; [|by eapply acked_grows].
    destruct (Hll (currentTerm rj)) as [->|Hel]; [done|]. exfalso. apply Hne.
    eapply (elected_unique n N'); [done| |done]. apply (ni_leader n _ Hnet); [|done].
    change (n_peer N') with (g_peer G'). by rewrite Hpeer, lookup_insert_ne.
  - intros Hl j' m Hj' Hne' Hm. destruct (pi_match0 Hl j' m Hj' Hne' Hm) as [? Hack]. split; [done|].
    intros k Hk Ht. eapply acked_grows; [done|]. by apply Hack.
Qed.

Lemma append_ok_grows args : append_ok H args → append_ok H' args.
Proof using Hgr.
  intros (L & HL & Hcase). destruct (gr_leaders _ _ _ Hgr _ _ HL) as (L' & HL' & Hp).
  exists L'. split; [done|]. destruct Hcase as [?|(m & Hm & ? & ? & ? & ? & Hs)]; [by left|right].
  exists m. split_and!; try done; [by etrans|lia|lia|by eapply safe_grows].
Qed.

Lemma areply_ok_grows r : areply_ok H r → areply_ok H' r.
Proof using Hgr. intros [? Ha]. split; [done|]. intros Hs. eapply acked_grows; eauto. Qed.

Lemma snapshot_of_grows T lit lii : snapshot_of H T lit lii → snapshot_of H' T lit lii.
Proof using Hgr. intros (p & Hs & ? & ?). exists p. split_and!; try done. by eapply safe_grows. Qed.

Context (Hel : n_elected N ⊆ n_elected N').
Context (Hlead : state rf' = LEADER → currentTerm rf' = currentTerm rf →
  (state rf = LEADER ∧ commitIndex rf ≤ commitIndex rf') ∨ (i, currentTerm rf) ∉ n_elected N).

Lemma install_ok_grows j args : install_ok N H j args → install_ok N' H' j args.
Proof using Hinv Hi Hpeer Hterm Hgr Hel Hlead.
  intros (Hj & Hs & He & Hc). split_and!; [lia|lia|by apply snapshot_of_grows|by apply Hel|].
  intros r Hr Hst Ht. change (n_peer N') with (g_peer G') in Hr. rewrite Hpeer in Hr.
  apply lookup_insert_Some in Hr as [[Heq <-]|[_ Hr]]; [|by apply Hc].
  rewrite <- Heq in He. destruct (ni_elected _ _ (gi_net _ _ _ Hinv) _ _ He) as (_ & _ & _ & Hat).
  apply at_term_of in Hat. rewrite (term_of_peer N i rf) in Hat by done.
  destruct (Hlead Hst ltac:(lia)) as [[Hst0 Hle]|Hno].
  - rewrite <- Heq in Hc. specialize (Hc rf Hi Hst0 ltac:(lia)). lia.
  - destruct Hno. by replace (currentTerm rf) with (isa_Term args) by lia.
Qed.

Lemma offer_ok_grows o : offer_ok N H o → offer_ok N' H' o.
Proof using Hi Hpeer Hterm Hgr.
  destruct o as [j [[lit lii] data]]. intros (T & r & Hr & HT & Hs). exists T.
  change (n_peer N') with (g_peer G'). rewrite Hpeer. destruct (decide (j = i)) as [->|Hne].
  - rewrite lookup_insert_eq. exists rf'. change (n_peer N) with (g_peer G) in Hr. simplify_eq.
    split_and!; [done|lia|by apply snapshot_of_grows].
  - rewrite lookup_insert_ne by done. exists r. split_and!; [done..|by apply snapshot_of_grows].
Qed.

(** The candidate's log only changes for one that holds as much. *)
Context (Hcand : state rf' = CANDIDATE → currentTerm rf' = currentTerm rf → state rf = CANDIDATE ∧
  ∀ T k, own H T k → holds n (term_of N) H T k (V i) → holds n (term_of N) H T k vl').

Lemma candidate_holds c rc T' T k :
  n_peer N' !! c = Some rc → state rc = CANDIDATE → currentTerm rc = T' → T' ≤ term_of N c →
  own H T k →
  (∀ rc, n_peer N !! c = Some rc → state rc = CANDIDATE → currentTerm rc = T' →
     holds n (term_of N) H T k (V c)) →
  holds n (term_of N') H' T k (<[i := vl']> V c).
Proof using Hi Hpeer Hterm Hgr Hcand.
  intros Hc Hs HT Hle Hk Hold. pose proof tm_le as Htm. eapply holds_grows; [done..|].
  change (n_peer N') with (g_peer G') in Hc. rewrite Hpeer in Hc.
  destruct (decide (c = i)) as [->|Hne].
  - rewrite lookup_insert_eq in Hc. injection Hc as <-. rewrite fn_lookup_insert.
    rewrite (term_of_peer N i rf) in Hle by done.
    destruct (Hcand Hs ltac:(lia)) as [Hs0 Hh]. apply Hh; [done|]. apply (Hold rf); [done..|lia].
  - rewrite lookup_insert_ne in Hc by done. rewrite fn_lookup_insert_ne by done. by apply (Hold rc).
Qed.

Lemma call_ok_grows args : call_ok N H V args → call_ok N' H' (<[i := vl']> V) args.
Proof using Hi Hpeer Hterm Hgr Hcand.
  intros (cl & Hg & Hs & Hu & Hx & Ht & Hle & Hc). exists cl. pose proof (tm_le (rva_CandidateId args)).
  split_and!; try done; [by eapply good_grows|lia|].
  intros rc Hrc Hst HT T k HTT Hk Hh. assert (own H T k) as Hk0 by by eapply good_own.
  eapply candidate_holds; try done. intros rc0 Hrc0 Hst0 HT0. eapply Hc; try done.
  destruct Hk0 as (L & HL & Hkl & _). destruct Hh as (L' & HL' & Hp).
  destruct (gr_leaders _ _ _ Hgr _ _ HL) as (L2 & HL2 & Hp2). assert (L2 = L') as -> by congruence.
  exists L. split; [done|]. by rewrite (prefix_take_le L L') by (done || lia).
Qed.

Lemma granted_ok_grows g :
  g ∈ n_granted N → granted_ok N H V g → granted_ok N' H' (<[i := vl']> V) g.
Proof using Hinv Hi Hpeer Hterm Hgr Hcand.
  destruct g as [[v T'] c]. intros Hg (Hle & Hc). pose proof (tm_le c). split; [lia|].
  intros rc Hrc Hst HT T k HTT Hk Ha.
  destruct (ni_granted _ _ (gi_net _ _ _ Hinv) _ _ _ Hg) as [_ Hat%at_term_of].
  destruct (acked_back _ _ _ Hgr v T k Ha) as [Ha0|?]; [|lia].
  assert (own H T k) as Hk0 by (eapply acked_own; try done; apply Hinv).
  eapply candidate_holds; try done. intros rc0 Hrc0 Hst0 HT0. by eapply Hc.
Qed.

(** The invariant after the change, from what concerns the peer itself and the
    new messages. *)
Lemma ginv_update :
  history_ok n (term_of N') H' →
  (∀ T, is_Some (h_leaders H' !! T) → ∃ c, (c, T) ∈ n_elected N') →
  peer_inv (term_of N') H' i rf' vl' →
  (∀ j args, (j, args) ∈ g_appends G' → (j, args) ∈ g_appends G ∨ append_ok H' args) →
  (∀ r, r ∈ g_areplies G' → r ∈ g_areplies G ∨ areply_ok H' r) →
  (∀ j args, (j, args) ∈ g_installs G' → (j, args) ∈ g_installs G ∨ install_ok N' H' j args) →
  (∀ j args r, (j, args, r) ∈ g_ireplies G' →
     (j, args, r) ∈ g_ireplies G ∨ (j, args) ∈ g_installs G) →
  (∀ o, o ∈ g_offers G' → o ∈ g_offers G ∨ offer_ok N' H' o) →
  (∀ v args, (v, args) ∈ n_calls N' → (v, args) ∈ n_calls N ∨ call_ok N' H' (<[i := vl']> V) args) →
  (∀ g, g ∈ n_granted N' → g ∈ n_granted N ∨ granted_ok N' H' (<[i := vl']> V) g) →
  ginv G' H' (<[i := vl']> V).
Proof using Hinv Hi Hpeer Hterm Hgr Hacks Hnet Hll Hel Hlead Hcand.
  intros Hh Hdom Hpi Ha Har Hin Hir Ho Hc Hg. split; try done.
  - intros j rj. rewrite Hpeer. intros [[<- <-]|[Hne Hj]]%lookup_insert_Some.
    + by rewrite fn_lookup_insert.
    + rewrite fn_lookup_insert_ne by done. by apply peer_inv_other.
  - intros j args [?|?]%Ha; [|done]. eapply append_ok_grows, gi_append; done.
  - intros r [?|?]%Har; [|done]. eapply areply_ok_grows, gi_areply; done.
  - intros j args [?|?]%Hin; [|done]. eapply install_ok_grows, gi_install; done.
  - intros j args r [?|?]%Hir; eapply install_ok_grows; [by eapply gi_ireply|by eapply gi_install].
  - intros o [?|?]%Ho; [|done]. eapply offer_ok_grows, gi_offer; done.
  - intros v args [?|?]%Hc; [|done]. eapply call_ok_grows, gi_call; done.
  - intros g [?|?]%Hg; [|done]. eapply granted_ok_grows, gi_granted; done.
Qed.
End update.
End group.
