(* ===== verification/RaftGroupSteps.v ===== *)
(** * Every step of a Raft group keeps the invariant

    One lemma per step of [RaftGroup.gstep].  Delivered messages turn out to be
    what [event_ok] of [RaftSteps] asks for, so that nothing panics. *)

From S2P Require Import Prelude Persister RaftApi Raft RaftLog RaftAppend RaftSteps RaftSpec RaftOps.
From S2P Require Import RaftElection RaftHistory RaftRep RaftGroup.
From stdpp Require Import functions.
Import Raft.
Local Open Scope Z_scope.

Section steps.
Context {C : Type} `{HC : Codec (Z * Z * list (LogEntry C) * Z * Z)}.
Context (n : Z) (Hn : 0 ≤ n).
Implicit Types (rf : Raft C) (N : net (C:=C)) (vl : list (LogEntry C)) (G : group (C:=C)).
Notation hist := (hist (C:=C)).
Implicit Types (H : hist) (V : Z → list (LogEntry C)).
Notation ginv := (ginv n).
Notation peer_inv := (peer_inv n).

(** ** Frames *)

(** A peer that keeps its whole log. *)
Lemma peer_inv_rep tm tm' H i rf rf' vl :
  peer_inv tm H i rf vl → (∀ v, tm v ≤ tm' v) → rep rf' vl → currentTerm rf ≤ currentTerm rf' →
  safe_log n H (currentTerm rf') (take (Z.to_nat (commitIndex rf')) vl) →
  (state rf' = LEADER → state rf = LEADER ∧ currentTerm rf' = currentTerm rf ∧
     matchIndex rf' = matchIndex rf ∧ commitIndex rf ≤ commitIndex rf') →
  peer_inv tm' H i rf' vl.
Proof using Type.
  intros [] Htm Hrep Hterm Hsafe Hlead. split; try done.
  - by eapply upto_mono.
  - intros T k Hk Ha. eapply (holds_grows n tm H H); [apply grows_refl|done..|]. by apply pi_acks.
  - intros Hs. destruct (Hlead Hs) as (Hs0 & -> & _). by apply pi_leader.
  - intros Hs j m Hj Hne Hm. destruct (Hlead Hs) as (Hs0 & HT0 & HM & Hc).
    rewrite HT0 in *. rewrite HM in Hm. destruct (pi_match Hs0 j m Hj Hne Hm) as [? Hack].
    split; [done|]. intros k Hk Ht. apply Hack; [lia|done].
Qed.

Lemma peer_inv_frame tm tm' H i rf rf' vl :
  peer_inv tm H i rf vl → (∀ v, tm v ≤ tm' v) →
  Log rf' = Log rf → lastIncludedIndex rf' = lastIncludedIndex rf →
  lastIncludedTerm rf' = lastIncludedTerm rf → currentTerm rf ≤ currentTerm rf' →
  safe_log n H (currentTerm rf') (take (Z.to_nat (commitIndex rf')) vl) →
  (state rf' = LEADER → state rf = LEADER ∧ currentTerm rf' = currentTerm rf ∧
     matchIndex rf' = matchIndex rf ∧ commitIndex rf ≤ commitIndex rf') →
  peer_inv tm' H i rf' vl.
Proof using Type.
  intros Hpi Htm HL HI HT. apply (peer_inv_rep tm tm' H i rf rf' vl); try done.
  eapply rep_frame; [done..|apply Hpi].
Qed.

(** A peer that keeps log and commit index. *)
Lemma peer_inv_same tm tm' H i rf rf' vl :
  peer_inv tm H i rf vl → (∀ v, tm v ≤ tm' v) →
  Log rf' = Log rf → lastIncludedIndex rf' = lastIncludedIndex rf →
  lastIncludedTerm rf' = lastIncludedTerm rf → currentTerm rf ≤ currentTerm rf' →
  commitIndex rf' = commitIndex rf →
  (state rf' = LEADER → state rf = LEADER ∧ currentTerm rf' = currentTerm rf ∧
     matchIndex rf' = matchIndex rf) →
  peer_inv tm' H i rf' vl.
Proof using Type.
  intros Hpi Htm HL HI HT Hterm HC' Hlead. eapply peer_inv_frame; try done.
  - rewrite HC'. eapply safe_mono; [done|apply Hpi].
  - intros (? & ? & ?)%Hlead. rewrite HC'. done.
Qed.

Lemma vstep_role rf rf' :
  vstep rf rf' → currentTerm rf ≤ currentTerm rf' ∧
  (state rf' = LEADER → state rf = LEADER ∧ currentTerm rf' = currentTerm rf) ∧
  (state rf' = CANDIDATE → state rf = CANDIDATE ∧ currentTerm rf' = currentTerm rf).
Proof. intros [HT _ HS _|HT HS|HT HS HS'|HT HV HS]; split_and!; intros; try lia; split; congruence. Qed.

(** A critical section outside elections. *)
Lemma quiet_update G G' H H' V i rf rf' vl' ev :
  ginv G H V → g_peer G !! i = Some rf →
  quiet_event ev = true → event_ok rf ev → run rf ev = Ret rf' →
  g_net G' = net_set (g_net G) i rf' →
  grows (term_of (g_net G)) H H' →
  (∀ v T k, v ≠ i → acked H' v T k → acked H v T k) →
  (∀ T, h_leaders H' !! T = h_leaders H !! T ∨ state rf = LEADER ∧ T = currentTerm rf) →
  (state rf' = CANDIDATE → ∀ T k, own H T k → holds n (term_of (g_net G)) H T k (V i) →
     holds n (term_of (g_net G)) H T k vl') →
  history_ok n (term_of (g_net G')) H' →
  (∀ tm', (∀ v, term_of (g_net G) v ≤ tm' v) → tm' = term_of (g_net G') → peer_inv tm' H' i rf' vl') →
  (∀ j args, (j, args) ∈ g_appends G' → (j, args) ∈ g_appends G ∨ append_ok n H' args) →
  (∀ r, r ∈ g_areplies G' → r ∈ g_areplies G ∨ areply_ok n H' r) →
  (∀ j args, (j, args) ∈ g_installs G' → (j, args) ∈ g_installs G ∨ install_ok n (g_net G') H' j args) →
  (∀ j args r, (j, args, r) ∈ g_ireplies G' →
     (j, args, r) ∈ g_ireplies G ∨ (j, args) ∈ g_installs G) →
  (∀ o, o ∈ g_offers G' → o ∈ g_offers G ∨ offer_ok n (g_net G') H' o) →
  ginv G' H' (<[i := vl']> V).
Proof using Type.
  intros Hinv Hi Hq Hok Hrun HG' Hgr Hacks Hll Hkeep Hh Hpi Ha Har Hin Hir Ho.
  pose proof (gi_net _ _ _ _ Hinv) as Hnet.
  destruct (ni_state _ _ _ _ Hnet Hi) as (Hw & _).
  pose proof (vstep_quiet rf ev rf' Hw Hok Hq Hrun) as Hvs.
  destruct (vstep_role _ _ Hvs) as (Hterm & Hl & Hc).
  pose proof (run_advances rf ev rf' Hw Hok Hrun) as Hadv.
  assert (net_inv n (g_net G')) as Hnet'.
  { rewrite HG'. eapply nstep_inv; [exact Hnet|]. by eapply ns_quiet. }
  assert (g_peer G' = <[i := rf']> (g_peer G)) as Hpeer by (unfold g_peer; by rewrite HG').
  assert (∀ v, term_of (g_net G) v ≤ term_of (g_net G') v) as Htm
    by (intros v; by eapply term_of_set).
  assert (n_elected (g_net G') = n_elected (g_net G)) as Hel by by rewrite HG'.
  assert (∀ T, h_leaders H' !! T = h_leaders H !! T ∨ (i, T) ∈ n_elected (g_net G)) as Hll'.
  { intros T. destruct (Hll T) as [?|[Hs ->]]; [by left|right]. by apply (ni_leader n _ Hnet). }
  eapply (ginv_update n G G' H H' V i rf rf' vl'); try done.
  - by rewrite Hel.
  - by rewrite Hel.
  - intros Hs HT. left. split; [by apply Hl|apply Hadv].
  - intros Hs HT. split; [by apply Hc|by apply Hkeep].
  - intros T HT. rewrite Hel. destruct (Hll' T) as [HTe|?]; [|by exists i].
    apply (gi_elected _ _ _ _ Hinv). by rewrite <- HTe.
  - by apply Hpi.
  - rewrite HG'. by left.
  - rewrite HG'. by left.
Qed.

(** The same when neither the log nor the history change. *)
Lemma quiet_keep G G' H V i rf rf' ev :
  ginv G H V → g_peer G !! i = Some rf →
  quiet_event ev = true → event_ok rf ev → run rf ev = Ret rf' →
  g_net G' = net_set (g_net G) i rf' →
  (∀ tm', (∀ v, term_of (g_net G) v ≤ tm' v) → peer_inv tm' H i rf' (V i)) →
  (∀ j args, (j, args) ∈ g_appends G' → (j, args) ∈ g_appends G ∨ append_ok n H args) →
  (∀ r, r ∈ g_areplies G' → r ∈ g_areplies G ∨ areply_ok n H r) →
  (∀ j args, (j, args) ∈ g_installs G' → (j, args) ∈ g_installs G ∨ install_ok n (g_net G') H j args) →
  (∀ j args r, (j, args, r) ∈ g_ireplies G' →
     (j, args, r) ∈ g_ireplies G ∨ (j, args) ∈ g_installs G) →
  (∀ o, o ∈ g_offers G' → o ∈ g_offers G ∨ offer_ok n (g_net G') H o) →
  ginv G' H (<[i := V i]> V).
Proof using Type.
  intros Hinv Hi Hq Hok Hrun HG' Hpi. pose proof (gi_net _ _ _ _ Hinv) as Hnet.
  destruct (ni_state _ _ _ _ Hnet Hi) as (Hw & _).
  destruct (vstep_role _ _ (vstep_quiet rf ev rf' Hw Hok Hq Hrun)) as (Hterm & _).
  apply (quiet_update G G' H H V i rf rf' (V i) ev); try done.
  - apply grows_refl.
  - by left.
  - eapply history_terms; [|apply Hinv]. intros v. rewrite HG'. by eapply term_of_set.
  - intros tm' Htm _. by apply Hpi.
Qed.

(** ** The service *)

Lemma ginv_peer G H V i rf :
  ginv G H V → g_peer G !! i = Some rf →
  raft_wf rf ∧ me rf = i ∧ peers rf = n ∧ 0 ≤ i < n ∧ peer_inv (term_of (g_net G)) H i rf (V i).
Proof using Type.
  intros Hinv Hi. destruct (ni_state _ _ _ _ (gi_net _ _ _ _ Hinv) Hi) as (Hw & _ & Hme & Hp).
  pose proof (ni_reach _ _ (gi_net _ _ _ _ Hinv) _ _ Hi) as [Hr _].
  split_and!; try done; try lia. by apply (gi_peer _ _ _ _ Hinv).
Qed.

Lemma step_done G H V i rf commit :
  ginv G H V → g_peer G !! i = Some rf → commit ≤ commitIndex rf →
  ginv (set_peer G i (applyChecker_done rf commit)) H (<[i := V i]> V).
Proof using Type.
  intros Hinv Hi Hc. destruct (ginv_peer _ _ _ _ _ Hinv Hi) as (Hw & _ & _ & _ & Hpi).
  eapply (quiet_keep G _ H V i rf _ (EvDone commit)); try done; try by left.
  intros tm' Htm. unfold applyChecker_done. by case_test; eapply peer_inv_same.
Qed.

Lemma step_kill G H V i rf :
  ginv G H V → g_peer G !! i = Some rf → ginv (set_peer G i (Kill rf)) H (<[i := V i]> V).
Proof using Type.
  intros Hinv Hi. destruct (ginv_peer _ _ _ _ _ Hinv Hi) as (Hw & _ & _ & _ & Hpi).
  eapply (quiet_keep G _ H V i rf _ EvKill); try done; try by left.
  intros tm' Htm. by eapply peer_inv_same.
Qed.

Lemma Snapshot_match rf target data rf' :
  Raft.Snapshot rf target data = Ret rf' → matchIndex rf' = matchIndex rf.
Proof.
  unfold Raft.Snapshot. intros Hr. case_test_in Hr; [by injection Hr as <-|].
  inv_bind Hr. destruct x as [[? ?] ?]. inv_bind Hr. injection Hr as <-. simpl. by repeat case_test.
Qed.

Lemma step_snapshot G H V i rf target data rf' :
  ginv G H V → g_peer G !! i = Some rf → target ≤ commitIndex rf →
  Raft.Snapshot rf target data = Ret rf' → ginv (set_peer G i rf') H (<[i := V i]> V).
Proof using Type.
  intros Hinv Hi Hc Hr. destruct (ginv_peer _ _ _ _ _ Hinv Hi) as (Hw & _ & _ & _ & Hpi).
  eapply (quiet_keep G _ H V i rf _ (EvSnapshot target data)); try done; try by left.
  intros tm' Htm. pose proof (Snapshot_match _ _ _ _ Hr) as Hm.
  destruct (Snapshot_cases rf target data Hw Hc) as (rf1 & E & _ & Hcase).
  rewrite E in Hr. injection Hr as <-.
  destruct Hcase as [(_ & ->)|(_ & _ & HCI & _ & HT & _ & HS & _ & k & Hk & Htr)].
  - by eapply peer_inv_same.
  - eapply peer_inv_rep; try done.
    + eapply rep_trimmed; [apply Hw|done|done|apply Hpi].
    + lia.
    + rewrite HT, HCI. apply Hpi.
    + intros Hs. split_and!; try done; [congruence|lia].
Qed.

Lemma holds_prefix tm H T k l l' : l `prefix_of` l' → holds n tm H T k l → holds n tm H T k l'.
Proof. intros Hp [(L & HL & Hk)|?]; [left|by right]. exists L. split; [done|]. by etrans. Qed.

Lemma leader_has H T k L l : h_leaders H !! T = Some L → L `prefix_of` l → has H T k l.
Proof. intros HL Hp. exists L. split; [done|]. etrans; [apply prefix_take|done]. Qed.

(** New acknowledgements of one peer. *)
Lemma acked_add H v T k v' T' k' :
  acked (hist_ack v T k H) v' T' k' → acked H v' T' k' ∨ v' = v ∧ T' = T ∧ (k' ≤ k)%nat.
Proof.
  intros (k0 & Hin & Hk). simpl in Hin. apply elem_of_union in Hin as [[= -> -> ->]%elem_of_singleton|Hin];
    [by right|left]. by exists k0.
Qed.

Lemma acked_new H v T k : acked (hist_ack v T k H) v T k.
Proof. exists k. split; [|done]. simpl. by apply elem_of_union_l, elem_of_singleton. Qed.

Lemma acked_append H c T L e v' T' k' :
  acked (hist_append c T L e H) v' T' k' → acked H v' T' k' ∨ v' = c ∧ T' = T.
Proof.
  intros (k0 & Hin & Hk). simpl in Hin. apply elem_of_union in Hin as [[= -> -> ->]%elem_of_singleton|Hin];
    [by right|left]. by exists k0.
Qed.

Lemma start_inv tm H i rf rf' vl e :
  peer_inv tm H i rf vl → history_ok n tm H → tm i = currentTerm rf → log_wf rf →
  0 ≤ commitIndex rf ≤ zlen vl → state rf = LEADER →
  e = mkLogEntry (currentTerm rf) (le_Command e) (zlen vl + 1) →
  rf' = persist (set_Log (Log rf ++ [e]) rf) →
  let H' := hist_append i (currentTerm rf) vl e H in
  history_ok n tm H' ∧ peer_inv tm H' i rf' (vl ++ [e]).
Proof using Type.
  intros Hpi Ho Htm Hw Hc Hs He -> H'. destruct (pi_leader _ _ _ _ _ _ Hpi Hs) as [HL Hack].
  assert (history_ok n tm H') as Ho'.
  { apply history_append; try done; rewrite He; [done|]. simpl. unfold zlen. lia. }
  assert (h_leaders H' !! currentTerm rf = Some (vl ++ [e])) as HL' by (simpl; apply lookup_insert_eq).
  pose proof (append_grows tm H i (currentTerm rf) vl e ltac:(lia) HL) as Hgr. fold H' in Hgr.
  destruct (ho_log _ _ _ Ho' _ _ HL') as (_ & Hg & Hso & Hnb & Hu).
  split; [done|]. split; try done; simpl.
  - eapply rep_snoc; [done|done|done|done|apply Hpi].
  - intros T k Hk Ha. destruct (decide (T = currentTerm rf)) as [->|Hne].
    { left. by eapply leader_has. }
    destruct (append_own _ _ _ _ _ _ _ HL Hk) as [Hk0|[-> _]]; [|done].
    apply (holds_prefix _ _ _ _ vl); [by apply prefix_app_r|].
    eapply (holds_grows n tm H H'); [done..|]. apply Hpi; [done|].
    by apply acked_append in Ha as [?|[_ ?]].
  - rewrite take_app_le by (unfold zlen in Hc; lia). eapply safe_grows; [done|apply Hpi].
  - intros _. split; [done|]. exists (S (length vl)). rewrite length_app. simpl.
    split; [by apply elem_of_union_l, elem_of_singleton|lia].
  - intros _ j m Hj Hne Hm. destruct (pi_match _ _ _ _ _ _ Hpi Hs j m Hj Hne Hm) as [Hle Hk].
    split; [unfold zlen in *; rewrite length_app; lia|]. intros k Hkm Ht.
    eapply acked_grows; [done|]. apply Hk; [done|]. rewrite <- Ht. symmetry.
    apply prefix_vterm; [by apply prefix_app_r|unfold zlen in *; lia].
Qed.

Lemma step_start G H V i rf c rf' r :
  ginv G H V → g_peer G !! i = Some rf → Start rf c = Ret (rf', r) →
  ∃ H' V', ginv (set_peer G i rf') H' V' ∧
    extends (term_of (g_net G)) (λ x, x = Some c) H H'.
Proof using Type.
  intros Hinv Hi Hr. destruct (ginv_peer _ _ _ _ _ Hinv Hi) as (Hw & _ & _ & _ & Hpi).
  assert (run rf (EvStart c) = Ret rf') as Hrun by (cbn [run]; by rewrite Hr).
  destruct (Start_cases rf c Hw) as (rf1 & x & t & lead & E & Hw' & Hl).
  rewrite Hr in E. injection E as <- ->. destruct lead; cycle 1.
  { destruct Hl as (_ & -> & _). exists H, (<[i := V i]> V). split; [|apply extends_refl].
    eapply (quiet_keep G _ H V i rf _ (EvStart c)); try done; try by left.
    intros tm' Htm. by eapply peer_inv_same. }
  destruct Hl as (_ & Hs & -> & Hx & HL & Hrf).
  pose proof (rep_last rf (V i) (rw_log _ Hw) (pi_rep _ _ _ _ _ _ Hpi)) as Hlast.
  pose proof (rw_lii _ Hw). pose proof (rw_applied _ Hw). pose proof (rw_commit _ Hw).
  set (e := mkLogEntry (currentTerm rf) (Some c) x) in *.
  pose proof (term_of_peer (g_net G) i rf Hi) as Htm.
  destruct (start_inv (term_of (g_net G)) H i rf rf' (V i) e Hpi (gi_hist _ _ _ _ Hinv) Htm
    (rw_log _ Hw)) as [Ho' Hpi']; try done; try lia.
  { unfold e. simpl. f_equal. lia. }
  { rewrite Hrf, HL. done. }
  pose proof (pi_leader _ _ _ _ _ _ Hpi Hs) as [HLd _].
  set (H' := hist_append i (currentTerm rf) (V i) e H) in *.
  assert (extends (term_of (g_net G)) (λ y, y = Some c) H H') as Hex.
  { apply (extends_append _ H i (currentTerm rf) (V i) e); [lia|done]. }
  pose proof (ex_grows _ _ _ _ Hex) as Hgr.
  exists H', (<[i := V i ++ [e]]> V). split; [|done].
  assert (∀ v, term_of (g_net (set_peer G i rf')) v = term_of (g_net G) v) as Hsame.
  { intros v. unfold term_of. simpl. destruct (decide (v = i)) as [->|Hne].
    - rewrite lookup_insert_eq. change (n_peer (g_net G)) with (g_peer G). rewrite Hi, Hrf. done.
    - by rewrite lookup_insert_ne. }
  eapply (quiet_update G _ H H' V i rf _ _ (EvStart c)); try done; try by left.
  - by intros v T k Hne [?|[? _]]%acked_append.
  - intros T. simpl. destruct (decide (T = currentTerm rf)) as [->|HT]; [by right|left].
    by apply lookup_insert_ne.
  - rewrite Hrf. simpl. congruence.
  - eapply history_terms; [|exact Ho']. intros v. by rewrite Hsame.
  - intros tm' Htm' ->. apply (peer_inv_same (term_of (g_net G)) _ H' i rf'); done.
Qed.

(** ** Snapshots of other peers *)

Lemma raft_term_nonneg rf : raft_wf rf → 0 ≤ currentTerm rf.
Proof.
  intros Hw. pose proof (rw_log _ Hw) as Hl. pose proof (log_length rf Hl).
  pose proof (term_at_nonneg rf 0 Hl ltac:(lia)). pose proof (term_at_bound rf 0 Hl ltac:(lia)). lia.
Qed.

(** The term a snapshot carries. *)
Lemma snapshot_term tm H T p :
  history_ok n tm H → 0 ≤ T → safe_log n H T p → 0 ≤ vterm p (length p) ≤ T.
Proof using Type.
  intros Ho HT Hs. destruct (safe_facts n tm H T p Ho HT Hs) as (_ & _ & _ & Hu).
  by apply vterm_upto.
Qed.

Lemma CondInstallSnapshot_match rf lit lii data rf' b :
  CondInstallSnapshot rf lit lii data = Ret (rf', b) → matchIndex rf' = matchIndex rf.
Proof.
  unfold CondInstallSnapshot. intros Hr. case_test_in Hr; [by injection Hr as <-|].
  do 2 inv_bind Hr. injection Hr as <- <-. simpl. by repeat case_test.
Qed.

(** A snapshot whose last entry the log has does not change the log; one whose
    last entry the log does not have is no prefix of it. *)
Lemma snapshot_found tm H i rf vl p (k : nat) :
  peer_inv tm H i rf vl → log_wf rf → good H p → (k < length (Log rf))%nat →
  zlen p = lastIncludedIndex rf + Z.of_nat k → vterm p (length p) = term_at rf k → p `prefix_of` vl.
Proof using Type.
  intros Hpi Hw Hg Hk Hz Ht. pose proof (pi_rep _ _ _ _ _ _ Hpi) as Hr.
  pose proof (rep_length rf vl Hw Hr). pose proof (rp_lii _ _ Hr).
  assert (length p = (Z.to_nat (lastIncludedIndex rf) + k)%nat) as Hlen by (unfold zlen in Hz; lia).
  rewrite (rep_term rf vl k Hr Hk), <- Hlen in Ht.
  assert (take (length p) p = take (length p) vl) as Heq.
  { apply (good_agree_at H); [done|apply Hpi|lia|lia|done]. }
  rewrite take_ge in Heq by lia. rewrite Heq. apply prefix_take.
Qed.

Lemma snapshot_missing tm H i rf vl p :
  peer_inv tm H i rf vl → log_wf rf → lastIncludedIndex rf < zlen p →
  (∀ k, (k < length (Log rf))%nat →
     ¬ (term_at rf k = vterm p (length p) ∧ lastIncludedIndex rf + Z.of_nat k = zlen p)) →
  ¬ p `prefix_of` vl.
Proof using Type.
  intros Hpi Hw Hz Hno Hp. pose proof (pi_rep _ _ _ _ _ _ Hpi) as Hr.
  pose proof (rep_length rf vl Hw Hr). pose proof (rp_lii _ _ Hr). pose proof (prefix_length _ _ Hp).
  unfold zlen in *. set (k := (length p - Z.to_nat (lastIncludedIndex rf))%nat).
  destruct (Hno k); [unfold k; lia|]. split; [|unfold k; lia].
  rewrite (rep_term rf vl k Hr) by (unfold k; lia).
  replace (Z.to_nat (lastIncludedIndex rf) + k)%nat with (length p) by (unfold k; lia).
  by apply prefix_vterm.
Qed.

(** A peer that drops its log for a snapshot. *)
Lemma install_inv tm tm' H i rf rf' vl p :
  peer_inv tm H i rf vl → history_ok n tm H → (∀ v, tm v ≤ tm' v) → 0 ≤ currentTerm rf →
  safe_log n H (currentTerm rf) p → ¬ p `prefix_of` vl →
  Log rf' = [zeroEntry] → lastIncludedIndex rf' = zlen p →
  lastIncludedTerm rf' = vterm p (length p) → commitIndex rf' = zlen p →
  currentTerm rf' = currentTerm rf → state rf' = state rf → peer_inv tm' H i rf' p.
Proof using Hn.
  intros Hpi Ho Htm HT Hs Hnp HL HI HIT HCI HCT HS.
  destruct (safe_facts n tm H _ p Ho HT Hs) as (Hg & Hso & Hnb & Hu).
  assert (state rf' ≠ LEADER) as Hnl.
  { rewrite HS. intros [Hld _]%(pi_leader _ _ _ _ _ _ Hpi). apply Hnp.
    by eapply (safe_in_leader n Hn tm H). }
  split; try done.
  - by apply rep_reset.
  - by rewrite HCT.
  - intros T k Hk Ha. eapply (holds_grows n tm H H); [apply grows_refl|done..|].
    eapply install_holds; try done. by apply Hpi.
  - rewrite HCT, HCI. unfold zlen. rewrite Nat2Z.id, take_ge by lia. done.
Qed.

Lemma step_cond_install G H V i rf lit lii data rf' b :
  ginv G H V → (i, (lit, lii, data)) ∈ g_offers G → g_peer G !! i = Some rf →
  CondInstallSnapshot rf lit lii data = Ret (rf', b) → ∃ V', ginv (set_peer G i rf') H V'.
Proof using Hn.
  intros Hinv Hin Hi Hr. destruct (ginv_peer _ _ _ _ _ Hinv Hi) as (Hw & _ & _ & _ & Hpi).
  pose proof (gi_hist _ _ _ _ Hinv) as Ho. pose proof (raft_term_nonneg rf Hw) as HT0.
  destruct (gi_offer _ _ _ _ Hinv _ Hin) as (T & rf0 & Hi0 & HT & p & Hs & Hz & Ht).
  change (n_peer (g_net G)) with (g_peer G) in Hi0. assert (rf0 = rf) as -> by congruence.
  apply (safe_mono n H _ _ _ HT) in Hs. pose proof (snapshot_term _ _ _ _ Ho HT0 Hs) as Hlit.
  rewrite Ht in Hlit. pose proof (CondInstallSnapshot_match _ _ _ _ _ _ Hr) as Hm.
  assert (run rf (EvCondInstall lit lii data) = Ret rf') as Hrun by (cbn [run]; by rewrite Hr).
  destruct (safe_facts n _ H _ p Ho HT0 Hs) as (Hg & _).
  destruct (CondInstallSnapshot_cases rf lit lii data Hw Hlit) as (rf1 & b1 & E & Hw' & Hcase).
  rewrite Hr in E. injection E as <- <-.
  pose proof (rw_lii _ Hw). pose proof (rw_applied _ Hw).
  destruct Hcase as [(_ & _ & ->)|(Hlt & _ & HI & HIT & _ & HCI & HCT & _ & HS & _ & Hlog)].
  { exists (<[i := V i]> V). eapply (quiet_keep G _ H V i rf _ (EvCondInstall lit lii data)); try done; try by left.
    intros tm' Htm. by eapply peer_inv_same. }
  destruct Hlog as [(k & Hk & Htr)|[HL Hno]].
  - exists (<[i := V i]> V). eapply (quiet_keep G _ H V i rf _ (EvCondInstall lit lii data)); try done; try by left.
    intros tm' Htm. eapply peer_inv_rep; try done.
    + eapply rep_trimmed; [apply Hw|done|done|apply Hpi].
    + lia.
    + pose proof Htr as [_ HI' HIT' _].
      assert (p `prefix_of` V i) as Hp by (eapply (snapshot_found _ H i rf (V i) p k); try done; [apply Hw|lia|congruence]).
      rewrite HCT, HCI, <- Hz. unfold zlen. rewrite Nat2Z.id, <- (prefix_take_le p), take_ge by (done || lia).
      done.
    + intros Hsl. split_and!; try done; [congruence|lia].
  - exists (<[i := p]> V). rewrite <- Hz, <- Ht in Hno.
    assert (¬ p `prefix_of` V i) as Hnp by (eapply snapshot_missing; [done|apply Hw|lia|done]).
    eapply (quiet_update G _ H H V i rf _ _ (EvCondInstall lit lii data)); try done; try by left.
    + apply grows_refl.
    + intros _ T1 k Hk Hh. by eapply install_holds.
    + eapply history_terms; [|done]. intros v. eapply term_of_set; [done|done|lia].
    + intros tm' Htm _. eapply (install_inv _ _ H i rf); try done; congruence.
Qed.
End steps.
