(* ===== verification/RaftGroupLog.v ===== *)
(** * Replication keeps the invariant of a Raft group

    The calls with which a leader sends its log and its snapshots, their
    handlers, and the handling of the replies: the steps [ps_prepare],
    [ps_append], [ps_append_reply], [ps_install], [ps_install_reply] and
    [ps_install_lost] of [RaftGroup]. *)

From stdpp Require Import functions.
From S2P Require Import Prelude Persister RaftApi Raft RaftLog RaftAppend RaftSteps RaftSpec RaftOps.
From S2P Require Import RaftElection RaftHistory RaftRep RaftGroup RaftGroupSteps.
Import Raft.
Local Open Scope Z_scope.

Section replication.
Context {C : Type} `{HC : Codec (Z * Z * list (LogEntry C) * Z * Z)}.
Context (n : Z) (Hn : 0 ≤ n).
Implicit Types (rf : Raft C) (N : net (C:=C)) (vl : list (LogEntry C)) (G : group (C:=C)).
Notation hist := (hist (C:=C)).
Implicit Types (H : hist) (V : Z → list (LogEntry C)).
Notation ginv := (ginv n).
Notation peer_inv := (peer_inv n).

(** ** Sending *)

Lemma leader_prepare_frame rf j rf' out :
  leader_prepare rf j = Ret (rf', out) →
  ∃ ni mi, rf' = set_matchIndex mi (set_nextIndex ni rf) ∧
    ∀ k, 0 ≤ k → k ≠ me rf → mi !! Z.to_nat k = matchIndex rf !! Z.to_nat k.
Proof.
  unfold leader_prepare, prepare_entries. intros Hr. inv_bind Hr. case_test_in Hr.
  { exists (nextIndex rf), (matchIndex rf). split; [|done].
    case_test_in Hr; injection Hr as <- _; by destruct rf. }
  inv_bind Hr. destruct x0 as [[? ?] ?]. do 4 inv_bind Hr. apply set_index_inv in Hb4 as [Hme ->].
  eexists _, _. split; [case_test_in Hr; by injection Hr as <- _|].
  intros k Hk Hne. apply list_lookup_insert_ne. lia.
Qed.

(** The messages a leader sends are cut out of its log. *)
Lemma sent_entries_ok tm H i rf vl (next pt : Z) :
  peer_inv tm H i rf vl → raft_wf rf → state rf = LEADER → lastIncludedIndex rf < next →
  ((next - 1 ≤ last_index rf ∧ pt = term_at rf (Z.to_nat (next - 1 - lastIncludedIndex rf))) ∨
   (last_index rf < next - 1 ∧ pt = -1)) →
  append_ok n H (mkAppendEntriesArgs (currentTerm rf) (me rf) (next - 1) pt
    (drop (Z.to_nat (next - lastIncludedIndex rf)) (Log rf)) (commitIndex rf)).
Proof using Type.
  intros Hpi Hw Hs Hlt Hpt. pose proof (pi_rep _ _ _ _ _ _ Hpi) as Hr.
  pose proof (rw_log _ Hw) as Hl. pose proof (rw_commit _ Hw) as Hc.
  pose proof (rep_last rf vl Hl Hr) as Hlast. pose proof (rp_lii _ _ Hr).
  destruct (pi_leader _ _ _ _ _ _ Hpi Hs) as [HL _]. exists vl. split; [done|]. simpl.
  assert (drop (Z.to_nat (next - lastIncludedIndex rf)) (Log rf) = drop (Z.to_nat (next - 1)) vl) as ->.
  { replace (Z.to_nat (next - lastIncludedIndex rf)) with
      (1 + Z.to_nat (next - 1 - lastIncludedIndex rf))%nat by lia.
    rewrite <- drop_drop, (rp_log _ _ Hr), drop_drop. f_equal. lia. }
  destruct Hpt as [[Hle ->]|[Hgt ->]].
  - right. exists vl. split_and!; try done; try lia; [|by apply Hpi].
    apply rep_term_index; [done..|lia].
  - left. split_and!; [done| |lia]. apply drop_ge. unfold zlen in Hlast. lia.
Qed.

Lemma own_snapshot tm H i rf vl :
  peer_inv tm H i rf vl → raft_wf rf →
  snapshot_of n H (currentTerm rf) (lastIncludedTerm rf) (lastIncludedIndex rf).
Proof using Type.
  intros Hpi Hw. pose proof (pi_rep _ _ _ _ _ _ Hpi) as Hr. pose proof (rw_lii _ Hw).
  pose proof (rw_applied _ Hw). pose proof (rp_lii _ _ Hr) as Hlii.
  set (k := Z.to_nat (lastIncludedIndex rf)). exists (take k vl).
  assert (length (take k vl) = k) as Hk by (rewrite length_take; unfold zlen in Hlii; lia).
  split_and!.
  - eapply safe_prefix; [|apply Hpi]. apply take_prefix_mono. lia.
  - unfold zlen. rewrite Hk. lia.
  - rewrite Hk, (rp_lit _ _ Hr). symmetry. apply prefix_vterm; [apply prefix_take|lia].
Qed.

(** A peer that only changes what it knows of the others. *)
Lemma peer_inv_match tm tm' H i rf rf' vl :
  peer_inv tm H i rf vl → (∀ v, tm v ≤ tm' v) →
  Log rf' = Log rf → lastIncludedIndex rf' = lastIncludedIndex rf →
  lastIncludedTerm rf' = lastIncludedTerm rf → currentTerm rf' = currentTerm rf →
  commitIndex rf' = commitIndex rf → state rf' = state rf →
  (state rf = LEADER → ∀ j m, 0 ≤ j < n → j ≠ i →
    matchIndex rf' !! Z.to_nat j = Some m → m ≤ zlen vl ∧
    ∀ k : nat, commitIndex rf < Z.of_nat k ≤ m → vterm vl k = currentTerm rf →
      acked H j (currentTerm rf) k) →
  peer_inv tm' H i rf' vl.
Proof using Type.
  intros [] Htm HL HI HIT HT HCI HS Hm. split; rewrite ?HT, ?HCI, ?HS; try done.
  - by eapply rep_frame.
  - intros T k Hk Ha. eapply (holds_grows n tm H H); [apply grows_refl|done..|]. by apply pi_acks.
Qed.

Lemma step_prepare G H V i j rf rf' out :
  ginv G H V → g_peer G !! i = Some rf → 0 ≤ j < n → j ≠ i →
  leader_prepare rf j = Ret (rf', out) →
  ginv (send j out (set_peer G i rf')) H (<[i := V i]> V).
Proof using Type.
  intros Hinv Hi Hj Hne Hr. destruct (ginv_peer _ _ _ _ _ _ Hinv Hi) as (Hw & Hme & Hpe & Hir & Hpi).
  assert (run rf (EvPrepare j) = Ret rf') as Hrun by (cbn [run]; by rewrite Hr).
  assert (g_net (send j out (set_peer G i rf')) = net_set (g_net G) i rf') as HG' by by destruct out.
  destruct (leader_prepare_frame _ _ _ _ Hr) as (ni & mi & Hrf' & Hmi).
  destruct (leader_prepare_cases rf j Hw ltac:(lia)) as (rf1 & out1 & next & E & _ & _ & _ & Hcase).
  rewrite Hr in E. injection E as <- <-.
  eapply (quiet_keep n G _ H V i rf _ (EvPrepare j)); try done.
  - simpl. lia.
  - intros tm' Htm. eapply (peer_inv_match _ tm' H i rf); try done; try by rewrite Hrf'.
    intros Hs k m Hk Hki Hm. rewrite Hrf' in Hm. simpl in Hm. rewrite Hmi in Hm by lia.
    by apply (pi_match _ _ _ _ _ _ Hpi).
  - intros j' args Hin. destruct Hcase as [[_ ->]|[(_ & _ & ->)|(Hs & Hlt & pt & -> & Hpt)]]; try by left.
    apply elem_of_cons in Hin as [[= -> ->]|Hin]; [right|by left]. by eapply sent_entries_ok.
  - intros r Hin. left. by destruct out.
  - intros j' args Hin. destruct Hcase as [[_ ->]|[(Hs & _ & ->)|(_ & _ & pt & -> & _)]]; try by left.
    apply elem_of_cons in Hin as [[= -> ->]|Hin]; [right|by left]. split_and!; simpl; try lia.
    + by eapply own_snapshot.
    + rewrite Hme. by apply (ni_leader n _ (gi_net _ _ _ _ Hinv)).
    + rewrite Hme, lookup_insert_eq, Hrf'. intros r [= <-] _ _. simpl.
      pose proof (rw_lii _ Hw). pose proof (rw_applied _ Hw). lia.
  - intros j' args r Hin. left. by destruct out.
  - intros o Hin. left. by destruct out.
Qed.

(** ** Counting replicas *)

Lemma matching_quorum rf (m : Z) :
  peers rf = n → 0 ≤ me rf < n → majority_at rf m →
  quorum_of n ({[me rf]} ∪ list_to_set (matching rf m)).
Proof using Type.
  intros Hp Hme Hmaj. unfold matching, majority_at in *. rewrite Hp in *. split.
  - intros v [->%elem_of_singleton|[_ Hv]%elem_of_list_to_set%list_elem_of_filter]%elem_of_union;
      [|by apply elem_of_list_to_set].
    apply elem_of_list_to_set, elem_of_seqZ. lia.
  - rewrite size_union, size_singleton, size_list_to_set.
    + unfold matching, zlen in Hmaj. rewrite Hp in Hmaj. lia.
    + apply NoDup_filter, NoDup_seqZ.
    + intros v ->%elem_of_singleton [[? _] _]%elem_of_list_to_set%list_elem_of_filter. done.
Qed.

(** What the leader commits is chosen. *)
Lemma counted_safe tm H i rf vl m :
  peer_inv tm H i rf vl → raft_wf rf → me rf = i → peers rf = n → state rf = LEADER →
  countReplica rf = Ret m →
  commitIndex rf ≤ m ∧ safe_log n H (currentTerm rf) (take (Z.to_nat m) vl).
Proof using Type.
  intros Hpi Hw Hme Hp Hs Hr. destruct (countReplica_spec rf Hw) as (m' & E & Hm & Hmaj & _).
  assert (m' = m) as -> by congruence. split; [lia|].
  destruct (decide (commitIndex rf = m)) as [<-|Hne]; [apply Hpi|].
  destruct Hmaj as [Hq Ht]; [lia|]. pose proof (rw_lii _ Hw). pose proof (rw_applied _ Hw).
  pose proof (pi_rep _ _ _ _ _ _ Hpi) as Hrep. pose proof (rw_log _ Hw) as Hl.
  pose proof (rep_last rf vl Hl Hrep) as Hlast. unfold zlen in Hlast.
  rewrite (rep_term_index rf vl) in Ht by (done || lia).
  destruct (pi_leader _ _ _ _ _ _ Hpi Hs) as [HL Hack]. pose proof (rw_me _ Hw) as Hme'.
  right. exists (currentTerm rf), (Z.to_nat m), vl. split_and!; [done| |done|done]. split.
  { exists vl. split_and!; [done|lia|lia|done]. }
  exists ({[me rf]} ∪ list_to_set (matching rf m)). split; [apply matching_quorum; [done|lia|done]|].
  intros v [->%elem_of_singleton|[[Hv1 Hv2] Hv]%elem_of_list_to_set%list_elem_of_filter]%elem_of_union.
  - destruct Hack as (k' & Hin & Hk'). exists k'. rewrite Hme. split; [done|lia].
  - apply elem_of_seqZ in Hv. rewrite Hp in Hv.
    destruct (lookup_lt_is_Some_2 (matchIndex rf) (Z.to_nat v)) as [x Hx].
    { pose proof (rw_match _ Hw). unfold zlen in *. lia. }
    rewrite (nth_lookup_Some _ _ _ _ Hx) in Hv2.
    destruct (pi_match _ _ _ _ _ _ Hpi Hs v x) as [_ Hak]; [lia|congruence|done|].
    apply Hak; [lia|done].
Qed.

(** A leader that commits what it counts. *)
Lemma counted_inv tm tm' H i rf vl m :
  peer_inv tm H i rf vl → (∀ v, tm v ≤ tm' v) → raft_wf rf → me rf = i → peers rf = n →
  state rf = LEADER → countReplica rf = Ret m → peer_inv tm' H i (set_commitIndex m rf) vl.
Proof using Type.
  intros Hpi Htm Hw Hme Hp Hs Hr.
  destruct (counted_safe tm H i rf vl m Hpi Hw Hme Hp Hs Hr) as [Hle Hsafe].
  by eapply (peer_inv_frame n tm tm' H i rf).
Qed.

(** [handle_append_reply] on every branch: a later term, a reply it ignores, or
    a count, after it has recorded the match or moved the next index. *)
Lemma handle_append_reply_inv rf j args reply rf' :
  raft_wf rf → 0 ≤ j < peers rf → handle_append_reply rf j args reply = Ret rf' →
  (currentTerm rf < aer_Term reply ∧ rf' = FollowerState (aer_Term reply) rf) ∨ rf' = rf ∨
  (state rf = LEADER ∧ currentTerm rf = aea_Term args ∧ ∃ ni mi m,
     let rf1 := set_nextIndex ni (set_matchIndex mi rf) in
     raft_wf rf1 ∧ countReplica rf1 = Ret m ∧ rf' = set_commitIndex m rf1 ∧
     (mi = matchIndex rf ∨ aer_Success reply = true ∧
       mi = <[Z.to_nat j := aea_PrevLogIndex args + zlen (aea_Entries args)]> (matchIndex rf))).
Proof.
  intros Hw Hj. pose proof Hw as [? ? ? ? ? ? ?]. unfold handle_append_reply. intros Hr.
  case_test_in Hr; [injection Hr as <-; by left|]. right.
  case_test_in Hr; [injection Hr as <-; by left|]. right. split_and!; [naive_solver|lia|].
  inv_bind Hr. inv_bind Hr. injection Hr as <-. case_test_in Hb.
  - do 3 inv_bind Hb. injection Hb as <-. apply set_index_inv in Hb1 as [_ ->], Hb3 as [_ ->].
    eexists _, _, _. split_and!; [|done..|by right].
    apply (raft_wf_frame rf); simpl; rewrite ?zlen_insert; done || lia.
  - case_test_in Hb.
    + destruct (handleLogInconsistency_wf rf j reply Hw Hj) as (ni & E & Hni). rewrite E in Hb.
      injection Hb as <-. exists ni, (matchIndex rf), x0.
      replace (set_nextIndex ni (set_matchIndex (matchIndex rf) rf)) with (set_nextIndex ni rf)
        by by destruct rf.
      split_and!; [|done..|by left]. apply (raft_wf_frame rf); simpl; done || lia.
    + injection Hb as <-. exists (nextIndex rf), (matchIndex rf), x0.
      replace (set_nextIndex (nextIndex rf) (set_matchIndex (matchIndex rf) rf)) with rf
        by by destruct rf.
      split_and!; [done..|by left].
Qed.

(** The same for [handle_install_reply]. *)
Lemma handle_install_reply_inv rf j args ok reply rf' :
  raft_wf rf → 0 ≤ j < peers rf → handle_install_reply rf j args ok reply = Ret rf' →
  (currentTerm rf < isr_Term reply ∧ rf' = FollowerState (isr_Term reply) rf) ∨ rf' = rf ∨
  (state rf = LEADER ∧ ∃ ni mi m,
     let rf1 := set_nextIndex ni (set_matchIndex mi rf) in
     raft_wf rf1 ∧ countReplica rf1 = Ret m ∧ rf' = set_commitIndex m rf1 ∧
     (mi = matchIndex rf ∨ mi = <[Z.to_nat j := isa_LastIncludedIndex args]> (matchIndex rf))).
Proof.
  intros Hw Hj. pose proof Hw as [? ? ? ? ? ? ?]. unfold handle_install_reply. intros Hr.
  assert (rf = set_nextIndex (nextIndex rf) (set_matchIndex (matchIndex rf) rf)) as Hrf by by destruct rf.
  case_test_in Hr; [injection Hr as <-; by left|]. right.
  case_test_in Hr; [injection Hr as <-; by left|].
  case_test_in Hr; [injection Hr as <-; by left|]. right. split; [naive_solver|].
  inv_bind Hr. inv_bind Hr. injection Hr as <-. case_test_in Hb.
  2: { injection Hb as <-. exists (nextIndex rf), (matchIndex rf), x0. rewrite <- Hrf.
       split_and!; [done..|by left]. }
  inv_bind Hb. case_test_in Hb.
  - do 3 inv_bind Hb. injection Hb as <-. apply set_index_inv in Hb2 as [_ ->], Hb4 as [_ ->].
    eexists _, _, _. split_and!; [|done..|by right].
    apply (raft_wf_frame rf); simpl; rewrite ?zlen_insert; done || lia.
  - injection Hb as <-. exists (nextIndex rf), (matchIndex rf), x0. rewrite <- Hrf.
    split_and!; [done..|by left].
Qed.

(** The match index of one peer set. *)
Lemma match_set tm H i rf vl j (x : Z) ni mi :
  peer_inv tm H i rf vl → state rf = LEADER → 0 ≤ j → x ≤ zlen vl →
  (∀ k : nat, commitIndex rf < Z.of_nat k ≤ x → vterm vl k = currentTerm rf →
     acked H j (currentTerm rf) k) →
  (mi = matchIndex rf ∨ mi = <[Z.to_nat j := x]> (matchIndex rf)) →
  peer_inv tm H i (set_nextIndex ni (set_matchIndex mi rf)) vl.
Proof using Type.
  intros Hpi Hs Hj Hx Hak Hmi. apply (peer_inv_match tm tm H i rf); try done.
  intros _ j' m Hj' Hne Hm. simpl in Hm. destruct Hmi as [->| ->].
  { by apply (pi_match _ _ _ _ _ _ Hpi). }
  apply list_lookup_insert_Some in Hm as [(Heq & <- & _)|[_ Hm]].
  - by assert (j' = j) as -> by lia.
  - by apply (pi_match _ _ _ _ _ _ Hpi).
Qed.

Lemma step_append_reply G H V j args reply rf rf' :
  ginv G H V → (j, args, reply) ∈ g_areplies G → g_peer G !! aea_LeaderId args = Some rf →
  handle_append_reply rf j args reply = Ret rf' →
  let i := aea_LeaderId args in ginv (set_peer G i rf') H (<[i := V i]> V).
Proof using Type.
  intros Hinv Hin Hi Hr. simpl. set (i := aea_LeaderId args) in *. clearbody i. destruct (ginv_peer _ _ _ _ _ _ Hinv Hi) as (Hw & Hme & Hp & _ & Hpi).
  destruct (gi_areply _ _ _ _ Hinv _ Hin) as [Hj Hak]. simpl in Hj, Hak.
  eapply (quiet_keep n G _ H V i rf _ (EvAppendReply j args reply)); try done; try by left.
  { simpl. lia. }
  intros tm' Htm.
  destruct (handle_append_reply_inv rf j args reply rf' Hw ltac:(lia) Hr)
    as [[Ht ->]|[->|(Hs & HT & ni & mi & m & Hw1 & Hc & -> & Hmi)]].
  - eapply peer_inv_same; try done. simpl. lia.
  - by eapply peer_inv_same.
  - eapply (counted_inv (term_of (g_net G))); try done. destruct (pi_leader _ _ _ _ _ _ Hpi Hs) as [HL _].
    destruct Hmi as [->|[Hsu ->]].
    { apply (match_set _ _ _ _ _ j 0); try done; [lia|apply zlen_nonneg| |by left].
      intros k Hk. pose proof (rw_lii _ Hw). pose proof (rw_applied _ Hw). lia. }
    apply Hak in Hsu as (k' & Hin' & Hk'). rewrite <- HT in Hin'.
    destruct (ho_ack _ _ _ (gi_hist _ _ _ _ Hinv) _ _ _ Hin') as (_ & L & HL' & Hlen).
    assert (L = V i) as -> by congruence.
    eapply (match_set _ _ _ _ _ j (aea_PrevLogIndex args + zlen (aea_Entries args)));
      try done; [lia|unfold zlen in *; lia| |by right].
    intros k Hk _. exists k'. split; [done|lia].
Qed.

Lemma step_ireply G H V j args ok reply rf rf' :
  ginv G H V → install_ok n (g_net G) H j args → g_peer G !! isa_LeaderId args = Some rf →
  handle_install_reply rf j args ok reply = Ret rf' →
  let i := isa_LeaderId args in ginv (set_peer G i rf') H (<[i := V i]> V).
Proof using Hn.
  intros Hinv (Hj & (p & Hsafe & Hz & Hlt) & Hel & Hold) Hi Hr. simpl.
  set (i := isa_LeaderId args) in *. clearbody i.
  destruct (ginv_peer _ _ _ _ _ _ Hinv Hi) as (Hw & Hme & Hp & _ & Hpi).
  pose proof (gi_hist _ _ _ _ Hinv) as Ho.
  eapply (quiet_keep n G _ H V i rf _ (EvInstallReply j args ok reply)); try done; try by left.
  { simpl. lia. }
  intros tm' Htm.
  destruct (handle_install_reply_inv rf j args ok reply rf' Hw ltac:(lia) Hr)
    as [[Ht ->]|[->|(Hs & ni & mi & m & Hw1 & Hc & -> & Hmi)]].
  - eapply peer_inv_same; try done. simpl. lia.
  - by eapply peer_inv_same.
  - eapply (counted_inv (term_of (g_net G))); try done. destruct (pi_leader _ _ _ _ _ _ Hpi Hs) as [HL _].
    destruct (ni_elected _ _ (gi_net _ _ _ _ Hinv) _ _ Hel) as (_ & _ & _ & Hat%at_term_of).
    rewrite (term_of_peer _ _ rf) in Hat by done.
    pose proof (safe_in_leader n Hn _ _ _ _ _ _ Ho Hsafe Hat HL) as Hpre. pose proof (prefix_length _ _ Hpre).
    eapply (match_set _ _ _ _ _ j (isa_LastIncludedIndex args)); try done; [lia|unfold zlen in *; lia|].
    (* what the snapshot covers is committed here, or of an earlier term *)
    intros k Hk Ht. exfalso. destruct (decide (isa_Term args = currentTerm rf)) as [Heq|Hne].
    { pose proof (Hold rf Hi Hs ltac:(lia)). lia. }
    destruct Hsafe as [->|(T0 & k0 & L0 & HT0 & Hch & HL0 & Hp0)].
    { rewrite zlen_nil in Hz. pose proof (rw_lii _ Hw). pose proof (rw_applied _ Hw). lia. }
    rewrite (prefix_vterm p (V i) k Hpre) in Ht by (unfold zlen in Hz; lia).
    destruct (ho_log _ _ _ Ho _ _ HL0) as (HT1 & _ & _ & _ & Hu).
    assert (terms_upto T0 p) as Hup by (eapply upto_prefix; [etrans; [exact Hp0|apply prefix_take]|done]).
    pose proof (vterm_upto p k T0 Hup ltac:(lia) ltac:(unfold zlen in Hz; lia)). lia.
Qed.

(** ** Receiving a snapshot *)

Lemma InstallSnapshot_frame rf args now rf' reply o :
  InstallSnapshot rf args now = (rf', reply, o) →
  Log rf' = Log rf ∧ lastIncludedIndex rf' = lastIncludedIndex rf ∧
  lastIncludedTerm rf' = lastIncludedTerm rf ∧ currentTerm rf ≤ currentTerm rf' ∧
  commitIndex rf' = commitIndex rf ∧ matchIndex rf' = matchIndex rf ∧
  (state rf' = LEADER → state rf = LEADER ∧ currentTerm rf' = currentTerm rf) ∧
  ∀ m, o = Some m → isa_Term args ≤ currentTerm rf' ∧ SnapshotTerm m = isa_LastIncludedTerm args ∧
    SnapshotIndex m = isa_LastIncludedIndex args.
Proof.
  unfold InstallSnapshot. intros Hr. case_test_in Hr; [by injection Hr as <- <- <-|].
  destruct (Z.ltb_spec (currentTerm rf) (isa_Term args));
    case_test_in Hr; injection Hr as <- <- <-; simpl; split_and!; try done; try lia.
  all: intros m [= <-]; simpl; split_and!; done || lia.
Qed.

Lemma step_install G H V d rf args now rf' reply o :
  ginv G H V → (d, args) ∈ g_installs G → g_peer G !! d = Some rf →
  InstallSnapshot rf args now = (rf', reply, o) →
  ginv (offer d o (add_ireply (d, args, reply) (set_peer G d rf'))) H (<[d := V d]> V).
Proof using Type.
  intros Hinv Hin Hi Hr. destruct (ginv_peer _ _ _ _ _ _ Hinv Hi) as (Hw & _ & _ & _ & Hpi).
  destruct (gi_install _ _ _ _ Hinv _ _ Hin) as (_ & Hsn & _).
  destruct (InstallSnapshot_frame _ _ _ _ _ _ Hr) as (HL & HI & HIT & HT & HCI & HM & HS & Ho).
  assert (run rf (EvInstall args now) = Ret rf') as Hrun by (cbn [run]; by rewrite Hr).
  set (G' := offer d o _).
  assert (g_net G' = net_set (g_net G) d rf' ∧ g_appends G' = g_appends G ∧
    g_areplies G' = g_areplies G ∧ g_installs G' = g_installs G ∧
    g_ireplies G' = (d, args, reply) :: g_ireplies G) as (EN & EA & ER & EI & EIR) by (by destruct o).
  eapply (quiet_keep n G _ H V d rf rf' (EvInstall args now)); try done.
  - intros tm' Htm. eapply peer_inv_same; try done. intros [? ?]%HS. done.
  - rewrite EA. by left.
  - rewrite ER. by left.
  - rewrite EI. by left.
  - rewrite EIR. intros j a r [[= -> -> ->]|?]%elem_of_cons; [by right|by left].
  - intros x. unfold G'. destruct o as [m|]; simpl; [|by left].
    intros [->|?]%elem_of_cons; [right|by left]. destruct (Ho m eq_refl) as (HT' & -> & ->).
    exists (isa_Term args), rf'. simpl. rewrite lookup_insert_eq. done.
Qed.

(** ** Receiving entries *)

(** What is delivered is what [event_ok] asks for. *)
Lemma append_ok_wf tm H args : history_ok n tm H → append_ok n H args → append_args_wf args.
Proof using Type.
  intros Ho (L & HL & [(Ht & He & Hc)|(m & Hm & Hp & He & Ht & Hc & _)]).
  { split; rewrite ?He; try by intros. rewrite zlen_nil. lia. }
  destruct (ho_log _ _ _ Ho _ _ HL) as (HT1 & _ & Hs & Hnb & Hu).
  pose proof (sorted_prefix _ _ Hm Hs) as Hs'. pose proof (numbered_prefix _ _ Hm Hnb) as Hnb'.
  pose proof (upto_prefix _ _ _ Hm Hu) as Hu'. unfold zlen in *.
  set (k := Z.to_nat (aea_PrevLogIndex args)) in *.
  split; rewrite He.
  - intros j e. rewrite lookup_drop. intros Hj%Hnb'. lia.
  - intros j e. rewrite lookup_drop, Ht. intros Hj. pose proof (lookup_lt_Some _ _ _ Hj).
    pose proof (vterm_sorted m k (S (k + j)) _ Hs' Hu' ltac:(lia)) as Hle. simpl in Hle.
    by rewrite Hj in Hle.
  - intros i j e e' Hij. rewrite !lookup_drop. apply Hs'. lia.
  - intros j e. rewrite lookup_drop. intros Hj%Hu'. lia.
  - unfold zlen. rewrite length_drop. lia.
Qed.

Lemma append_ok_respects tm H i rf vl args :
  history_ok n tm H → peer_inv tm H i rf vl → raft_wf rf → append_ok n H args →
  currentTerm rf ≤ aea_Term args → respects_commit rf args.
Proof using Hn.
  intros Ho Hpi Hw (L & HL & Hcase) HT k e l Hk Hl Hc.
  destruct Hcase as [(_ & He & _)|(m & Hm & Hp & He & _)]; rewrite He in Hk; [done|].
  pose proof (safe_in_leader n Hn _ _ _ _ _ _ Ho (pi_commit _ _ _ _ _ _ Hpi) HT HL) as Hpre.
  assert (lastIncludedIndex rf < aea_PrevLogIndex args + 1 + Z.of_nat k) as Hlii.
  { unfold entry_at in Hl. by case_test_in Hl. }
  rewrite (rep_entry rf vl) in Hl by (done || apply Hpi). rewrite lookup_drop in Hk.
  replace (Z.to_nat (aea_PrevLogIndex args + 1 + Z.of_nat k - 1)) with
    (Z.to_nat (aea_PrevLogIndex args) + k)%nat in Hl by lia.
  apply (prefix_lookup_Some _ _ _ _ Hk) in Hm.
  assert (L !! (Z.to_nat (aea_PrevLogIndex args) + k)%nat = Some l) as Hl'.
  { eapply prefix_lookup_Some; [|exact Hpre]. rewrite lookup_take_lt by lia. done. }
  congruence.
Qed.

Lemma append_enter_role rf args now :
  currentTerm rf ≤ aea_Term args → state (append_enter rf args now) ≠ CANDIDATE ∧
  (state (append_enter rf args now) = LEADER → state rf = LEADER ∧ currentTerm rf = aea_Term args).
Proof.
  intros HT. unfold append_enter. destruct (Z.ltb_spec (currentTerm rf) (aea_Term args)); [done|].
  assert (currentTerm rf = aea_Term args) as Heq by lia. rewrite (proj2 (Z.eqb_eq _ _)) by done.
  simpl. case_bool_decide; done.
Qed.

(** The log after a message that matches: what it was, if the message brings
    nothing new, or else the beginning of the leader's log. *)
Lemma accept_log tm H i rf vl m args :
  peer_inv tm H i rf vl → log_wf rf → good H m → prev_matches rf args →
  0 ≤ aea_PrevLogIndex args ≤ zlen m →
  aea_Entries args = drop (Z.to_nat (aea_PrevLogIndex args)) m →
  aea_PrevLogTerm args = vterm m (Z.to_nat (aea_PrevLogIndex args)) →
  let k := Z.to_nat (aea_PrevLogIndex args) in
  let vl' := take k vl ++ merge (drop k vl) (aea_Entries args) in
  (m `prefix_of` vl ∧ vl' = vl) ∨ (¬ m `prefix_of` vl ∧ vl' = m).
Proof using Type.
  intros Hpi Hl Hg [Hr Ht] Hp He Hpt k vl'. unfold vl'. rewrite He.
  pose proof (pi_rep _ _ _ _ _ _ Hpi) as Hrep. pose proof (rep_last rf vl Hl Hrep) as Hlast.
  rewrite (rep_term_index rf vl) in Ht by done. unfold zlen in *.
  apply (merge_good H); [apply Hpi|done|lia|lia|]. apply (good_agree_at H); [apply Hpi|done|lia|lia|].
  congruence.
Qed.

Section accept.
Context (tm tm' : Z → Z) (H : hist) (d : Z) (rf rf' : Raft C) (vl vl' m L : list (LogEntry C)) (T : Z).
Context (Hpi : peer_inv tm H d rf vl) (Ho : history_ok n tm H) (Htm : ∀ v, tm v ≤ tm' v).
Context (Hd : tm d = currentTerm rf) (Hw : raft_wf rf) (HT : currentTerm rf ≤ T).
Context (HL : h_leaders H !! T = Some L) (Hm : m `prefix_of` L).
Context (Hvl : (m `prefix_of` vl ∧ vl' = vl) ∨ (¬ m `prefix_of` vl ∧ vl' = m)).
Let H' := hist_ack d T (length m) H.

Lemma accept_prefix : m `prefix_of` vl'.
Proof using Hvl. by destruct Hvl as [[? ->]|[_ ->]]. Qed.

Lemma accept_grows : grows tm H H'.
Proof using Hd HT. apply ack_grows. lia. Qed.

(** The peer still holds what it has acknowledged. *)
Lemma accept_acks T0 k : own H' T0 k → acked H' d T0 k → holds n tm' H' T0 k vl'.
Proof using Hpi Ho Htm Hd HT HL Hm Hvl.
  intros Hk [Ha|(_ & -> & Hle)]%acked_add.
  - eapply (holds_grows n tm H H'); [apply accept_grows|done..|].
    assert (holds n tm H T0 k vl) as Hh by by apply Hpi. destruct Hvl as [[_ ->]|[Hnp ->]]; [done|].
    destruct Ha as (k' & Hin & _). apply (ho_ack _ _ _ Ho) in Hin as [HT0 _].
    apply (append_holds n tm H T0 T k vl m L); try done. lia.
  - left. exists L. split; [done|]. etrans; [|apply accept_prefix].
    rewrite <- (prefix_take_le m L) by done. apply prefix_take.
Qed.

(** What the peer has committed, and what the leader says is committed, is in the
    new log. *)
Lemma accept_commit (c LC : Z) :
  0 ≤ c ≤ zlen vl → safe_log n H (currentTerm rf) (take (Z.to_nat c) vl) →
  LC ≤ zlen m → safe_log n H T (take (Z.to_nat LC) m) →
  safe_log n H' T (take (Z.to_nat c) vl') ∧
  ∀ x, x ≤ LC → safe_log n H' T (take (Z.to_nat x) vl').
Proof using Hpi Ho Hd HT HL Hm Hvl Hn.
  intros Hc Hs HLC Hs'. split.
  - eapply (safe_grows n tm H H'); [apply accept_grows|].
    destruct Hvl as [[_ ->]|[Hnp ->]]; [by eapply safe_mono|].
    assert (take (Z.to_nat c) vl `prefix_of` m) as Hp.
    { apply (append_safe n Hn tm H (currentTerm rf) T _ vl m L); try done. apply prefix_take. }
    pose proof (prefix_length _ _ Hp) as Hlen. rewrite length_take in Hlen. unfold zlen in Hc.
    rewrite <- (prefix_take_le _ m (Z.to_nat c) Hp) by (rewrite length_take; lia).
    rewrite take_take, Nat.min_id. by eapply safe_mono.
  - intros x Hx. eapply (safe_grows n tm H H'); [apply accept_grows|].
    unfold zlen in HLC. rewrite <- (prefix_take_le m vl') by (apply accept_prefix || lia).
    eapply safe_prefix; [|exact Hs']. apply take_prefix_mono. lia.
Qed.

Lemma accept_inv (LC : Z) :
  rep rf' vl' → currentTerm rf' = T → matchIndex rf' = matchIndex rf →
  (state rf' = LEADER → state rf = LEADER ∧ currentTerm rf = T) →
  LC ≤ zlen m → safe_log n H T (take (Z.to_nat LC) m) →
  commitIndex rf ≤ commitIndex rf' → (commitIndex rf' ≤ LC ∨ commitIndex rf' = commitIndex rf) →
  peer_inv tm' H' d rf' vl'.
Proof using Hpi Ho Htm Hd Hw HT HL Hm Hvl Hn.
  intros Hrep HT' HM HS HLC Hsafe Hge Hci. pose proof accept_grows as Hgr.
  destruct (ho_log _ _ _ Ho _ _ HL) as (HT1 & Hg & Hso & Hnb & Hu).
  pose proof (rep_last rf vl (rw_log _ Hw) (pi_rep _ _ _ _ _ _ Hpi)) as Hlast.
  pose proof (rw_lii _ Hw). pose proof (rw_applied _ Hw). pose proof (rw_commit _ Hw).
  destruct (accept_commit (commitIndex rf) LC) as [Hc1 Hc2]; try done; [lia|apply Hpi|].
  assert (state rf' = LEADER → vl' = vl ∧ L = vl) as Hlead.
  { intros [Hs Heq]%HS. destruct (pi_leader _ _ _ _ _ _ Hpi Hs) as [HL' _].
    assert (L = vl) as -> by congruence. by destruct Hvl as [[_ ->]|[? _]]. }
  split; rewrite ?HT'; try done.
  - eapply good_grows; [done|]. destruct Hvl as [[_ ->]|[_ ->]]; [apply Hpi|by eapply good_prefix].
  - destruct Hvl as [[_ ->]|[_ ->]]; [apply Hpi|by eapply sorted_prefix].
  - destruct Hvl as [[_ ->]|[_ ->]]; [apply Hpi|by eapply numbered_prefix].
  - destruct Hvl as [[_ ->]|[_ ->]]; [eapply upto_mono; [exact HT|apply Hpi]|by eapply upto_prefix].
  - apply accept_acks.
  - destruct Hci as [?|Heq]; [by apply Hc2|by rewrite Heq].
  - intros Hs. destruct (Hlead Hs) as [-> HLv]. destruct (HS Hs) as [Hs0 Heq].
    split; [by rewrite <- HLv|]. eapply acked_grows; [done|]. rewrite <- Heq. by apply Hpi.
  - intros Hs j x Hj Hne Hx. destruct (Hlead Hs) as [-> _]. destruct (HS Hs) as [Hs0 Heq].
    rewrite HM in Hx. destruct (pi_match _ _ _ _ _ _ Hpi Hs0 j x Hj Hne Hx) as [? Hak].
    split; [done|]. intros k Hk Ht. eapply acked_grows; [done|]. rewrite <- Heq in *. apply Hak; [lia|done].
Qed.
End accept.

Lemma append_accept_fields rf args now np :
  let rf' := append_accept rf args now np in
  Log rf' = merged_log rf args ∧ lastIncludedIndex rf' = lastIncludedIndex rf ∧
  lastIncludedTerm rf' = lastIncludedTerm rf ∧
  currentTerm rf' = currentTerm (append_enter rf args now) ∧
  matchIndex rf' = matchIndex rf ∧ state rf' = state (append_enter rf args now) ∧
  commitIndex rf' = follower_commit rf args.
Proof.
  destruct (append_enter_fields rf args now) as (EL & EI & ET & EC & _ & _ & _ & _ & EX).
  unfold append_accept. by destruct np.
Qed.

(** The three ways a message is answered. *)
Section deliver.
Context (G : group (C:=C)) (H : hist) (V : Z → list (LogEntry C)).
Context (d : Z) (rf rf' : Raft C) (args : AppendEntriesArgs C) (now : Z) (reply : AppendEntriesReply).
Context (Hinv : ginv G H V) (Hin : (d, args) ∈ g_appends G) (Hi : g_peer G !! d = Some rf).
Context (Hr : AppendEntries rf args now = Ret (rf', reply)).
Let G' := add_areply (d, args, reply) (set_peer G d rf').

Lemma append_event : event_ok rf (EvAppend args now).
Proof using Hinv Hin Hi Hn.
  intros HT. destruct (ginv_peer _ _ _ _ _ _ Hinv Hi) as (Hw & _ & _ & _ & Hpi).
  pose proof (gi_hist _ _ _ _ Hinv) as Ho. pose proof (gi_append _ _ _ _ Hinv _ _ Hin) as Hok.
  split; [by eapply append_ok_wf|by eapply append_ok_respects].
Qed.

Lemma append_run : run rf (EvAppend args now) = Ret rf'.
Proof using Hr. cbn [run]. by rewrite Hr. Qed.

Lemma append_refused :
  aer_Success reply = false →
  (∀ tm', (∀ v, term_of (g_net G) v ≤ tm' v) → peer_inv tm' H d rf' (V d)) →
  ∃ H' V', ginv G' H' V' ∧ extends (term_of (g_net G)) (λ _, False) H H'.
Proof using Hinv Hin Hi Hr Hn.
  intros Hf Hp. exists H, (<[d := V d]> V). split; [|apply extends_refl].
  destruct (ginv_peer _ _ _ _ _ _ Hinv Hi) as (_ & _ & _ & Hd & _).
  eapply (quiet_keep n G _ H V d rf rf' (EvAppend args now));
    try done; try (by left); [apply append_event|apply append_run|].
  intros r [->|?]%elem_of_cons; [right|by left]. split; [done|]. simpl. by rewrite Hf.
Qed.

Lemma append_accepted np :
  currentTerm rf ≤ aea_Term args → prev_matches rf args → rf' = append_accept rf args now np →
  ∃ H' V', ginv G' H' V' ∧ extends (term_of (g_net G)) (λ _, False) H H'.
Proof using Hinv Hin Hi Hr Hn.
  intros HT Hpm Hrf'. destruct (ginv_peer _ _ _ _ _ _ Hinv Hi) as (Hw & _ & _ & Hd & Hpi).
  pose proof (gi_hist _ _ _ _ Hinv) as Ho. pose proof (rw_log _ Hw) as Hl.
  destruct (gi_append _ _ _ _ Hinv _ _ Hin) as (L & HL & [(Ht & _)|(m & Hm & Hp & He & Ht & HLC & Hsafe)]).
  { destruct Hpm as [Hb Hpt]. pose proof (term_at_nonneg rf
      (Z.to_nat (aea_PrevLogIndex args - lastIncludedIndex rf)) Hl) as Hnn.
    unfold last_index, zlen in Hb. lia. }
  assert (good H m) as Hgm by (eapply good_prefix; [done|apply (ho_log _ _ _ Ho _ _ HL)]).
  pose proof (accept_log _ H d rf (V d) m args Hpi Hl Hgm Hpm Hp He Ht) as Hvl. simpl in Hvl.
  set (vl' := take _ _ ++ _) in Hvl.
  pose proof (append_enter_term rf args now HT) as Et.
  destruct (append_enter_role rf args now HT) as [Hnc HS].
  destruct (append_accept_fields rf args now np) as (FL & FI & FT & FC & FM & FS & FCI).
  rewrite <- Hrf' in FL, FI, FT, FC, FM, FS, FCI. rewrite Et in FC.
  set (H' := hist_ack d (aea_Term args) (length m) H).
  assert (extends (term_of (g_net G)) (λ _, False) H H') as Hex.
  { apply extends_ack. rewrite (term_of_peer _ _ rf); done. }
  pose proof (ex_grows _ _ _ _ Hex) as Hgr.
  exists H', (<[d := vl']> V). split; [|done].
  eapply (quiet_update n G _ H H' V d rf rf' vl' (EvAppend args now));
    try done; try (by left); [apply append_event|apply append_run|..].
  - by intros v T k Hne [?|[? _]]%acked_add.
  - intros Hs. congruence.
  - eapply (history_ack n _ H d _ _ L); [eapply history_terms; [|done]| |done|by apply prefix_length].
    + intros v. eapply term_of_set; [done|done|lia].
    + unfold term_of. simpl. by rewrite lookup_insert_eq.
  - intros tm' Htm' _.
    apply (accept_inv (term_of (g_net G)) tm' H d rf rf' (V d) vl' m L (aea_Term args) Hpi Ho Htm'
      (term_of_peer _ _ _ Hi) Hw HT HL Hm Hvl (aea_LeaderCommit args)); try done.
    + by eapply rep_merged; [| |done|..]; [done|apply Hpi|..].
    + by rewrite FS.
    + rewrite FCI. unfold follower_commit. pose proof (rw_commit _ Hw). case_test; lia.
    + rewrite FCI. unfold follower_commit. case_test; [left; lia|by right].
  - intros r [->|?]%elem_of_cons; [right|by left]. split; [done|]. intros _. simpl.
    replace (Z.to_nat _) with (length m); [apply acked_new|].
    rewrite He. unfold zlen in *. rewrite length_drop. lia.
Qed.

Lemma step_append : ∃ H' V', ginv G' H' V' ∧ extends (term_of (g_net G)) (λ _, False) H H'.
Proof using Hinv Hin Hi Hr Hn.
  destruct (ginv_peer _ _ _ _ _ _ Hinv Hi) as (Hw & _ & _ & Hd & Hpi).
  destruct (AppendEntries_cases rf args now (rw_log _ Hw)) as (rf1 & reply1 & E & Hcase).
  rewrite Hr in E. injection E as <- <-.
  destruct Hcase as [(_ & Hrf' & Hrep)|[(HT & _ & Hrf' & _ & Hf & _)|(HT & Hpm & _ & np & Hrf' & _)]].
  - apply append_refused; [by rewrite Hrep|]. rewrite Hrf'. intros tm' Htm. by eapply peer_inv_same.
  - apply append_refused; [done|]. rewrite Hrf'. intros tm' Htm.
    destruct (append_enter_fields rf args now) as (EL & EI & ET & EC & _ & _ & _ & _ & EX).
    pose proof (append_enter_term rf args now HT) as Et.
    destruct (append_enter_role rf args now HT) as [_ HS].
    eapply peer_inv_same; try done; [lia|]. intros [Hs Heq]%HS. split_and!; [done|lia|done].
  - by eapply append_accepted.
Qed.
End deliver.
End replication.
