(* ===== verification/RaftGroupElect.v ===== *)
(** * Elections and crashes keep the invariant of a Raft group

    The steps [ps_tick], [ps_vote], [ps_vote_retry], [ps_vote_reply] and [gs_crash] of
    [RaftGroup].  A candidate that wins holds every entry that is, or can still
    be, chosen in an earlier term: a voter that acknowledged such an entry checked
    that the candidate's log is at least as up to date as its own. *)

From stdpp Require Import functions.
From S2P Require Import Prelude Persister RaftApi Raft RaftLog RaftAppend RaftSteps RaftSpec RaftOps.
From S2P Require Import RaftElection RaftHistory RaftRep RaftGroup RaftGroupSteps.
Import Raft.
Local Open Scope Z_scope.

Section elections.
Context {C : Type} `{HC : Codec (Z * Z * list (LogEntry C) * Z * Z)}.
Context (n : Z) (Hn : 0 ≤ n).
Implicit Types (rf : Raft C) (N : net (C:=C)) (vl : list (LogEntry C)) (G : group (C:=C)).
Notation hist := (hist (C:=C)).
Implicit Types (H : hist) (V : Z → list (LogEntry C)).
Notation ginv := (ginv n).
Notation peer_inv := (peer_inv n).

(** A step of an election in which nobody is elected. *)
Lemma election_keep G N' H V i rf rf' :
  ginv G H V → g_peer G !! i = Some rf → nstep n (g_net G) N' →
  n_peer N' = <[i := rf']> (g_peer G) → n_elected N' = n_elected (g_net G) →
  currentTerm rf ≤ currentTerm rf' →
  (state rf' = LEADER → state rf = LEADER ∧ commitIndex rf ≤ commitIndex rf') →
  (state rf' = CANDIDATE → currentTerm rf' = currentTerm rf → state rf = CANDIDATE) →
  (∀ tm', (∀ v, term_of (g_net G) v ≤ tm' v) → peer_inv tm' H i rf' (V i)) →
  (∀ v args, (v, args) ∈ n_calls N' →
     (v, args) ∈ n_calls (g_net G) ∨ call_ok n N' H (<[i := V i]> V) args) →
  (∀ g, g ∈ n_granted N' → g ∈ n_granted (g_net G) ∨ granted_ok n N' H (<[i := V i]> V) g) →
  ginv (with_net G N') H (<[i := V i]> V).
Proof using Type.
  intros Hinv Hi Hstep Hpeer Hel Hterm Hlead Hcand Hpi Hc Hg.
  pose proof (gi_net _ _ _ _ Hinv) as Hnet.
  assert (net_inv n N') as Hnet' by by eapply nstep_inv.
  assert (∀ v, term_of (g_net G) v ≤ term_of N' v) as Htm by (intros v; by eapply term_of_set).
  eapply (ginv_update n G (with_net G N') H H V i rf rf' (V i)); try done; try (by left).
  - apply grows_refl.
  - simpl. by rewrite Hel.
  - intros Hs _. left. by apply Hlead.
  - intros Hs HT. split; [by apply Hcand|done].
  - eapply history_terms; [done|apply Hinv].
  - simpl. rewrite Hel. apply Hinv.
  - by apply Hpi.
Qed.

Lemma insert_same V i c : <[i := V i]> V c = V c.
Proof.
  destruct (decide (c = i)) as [->|Hne]; [apply fn_lookup_insert|by apply fn_lookup_insert_ne].
Qed.

Lemma step_crash G H V i rf now :
  ginv G H V → g_peer G !! i = Some rf →
  ginv (set_peer G i (Make n i (persister rf) now)) H (<[i := V i]> V).
Proof using Type.
  intros Hinv Hi. destruct (ginv_peer _ _ _ _ _ _ Hinv Hi) as (Hw & _ & _ & _ & Hpi).
  destruct (ni_state _ _ _ _ (gi_net _ _ _ _ Hinv) Hi) as (_ & Hrec & _).
  destruct (Hrec n i now) as (Hs & Hf & _ & Hc). unfold saved in Hs.
  assert (∀ r, r = Make n i (persister rf) now → currentTerm r = currentTerm rf ∧ Log r = Log rf ∧
    lastIncludedIndex r = lastIncludedIndex rf ∧ lastIncludedTerm r = lastIncludedTerm rf ∧
    state r = FOLLOWER ∧ commitIndex r = lastIncludedIndex rf) as Hr
    by (intros r ->; split_and!; congruence).
  destruct (Hr _ eq_refl) as (HT & HL & HI & HIT & _).
  eapply (election_keep G _ H V i rf (Make n i (persister rf) now)); try done; try (by left).
  - by apply ns_crash.
  - lia.
  - congruence.
  - congruence.
  - intros tm' Htm. eapply peer_inv_frame; try done; [lia| |congruence].
    rewrite HT, Hc. eapply safe_prefix; [|apply Hpi]. apply take_prefix_mono.
    pose proof (rw_lii _ Hw). pose proof (rw_applied _ Hw). lia.
Qed.

(** ** The candidate *)
Lemma candidateRequestVote_eq rf :
  raft_wf rf → candidateRequestVote rf =
    Ret (mkRequestVoteArgs (currentTerm rf) (me rf) (last_index rf) (last_term rf)).
Proof.
  intros Hw. pose proof (rw_log _ Hw) as Hl. unfold candidateRequestVote.
  by rewrite getLastLogIndex_eq, bind_Ret, getLastLogTerm_eq, bind_Ret.
Qed.

Lemma CandidateState_wf rf now : raft_wf rf → raft_wf (CandidateState (set_lastTimeHeared now rf)).
Proof.
  intros Hw. pose proof Hw as [? ? ? ? ? ? ?]. apply (raft_wf_frame rf); simpl; done || lia.
Qed.

Lemma ticker_cases rf now randTime rf' o :
  raft_wf rf → ticker rf now randTime = Ret (rf', o) →
  (rf' = rf ∧ o = None) ∨
  (rf' = CandidateState (set_lastTimeHeared now rf) ∧ state rf ≠ LEADER ∧
   o = Some (mkRequestVoteArgs (currentTerm rf + 1) (me rf) (last_index rf) (last_term rf))).
Proof.
  intros Hw. pose proof (candidateRequestVote_eq _ (CandidateState_wf rf now Hw)) as Hc.
  unfold ticker. case_test; [intros [= <- <-]; by left|]. case_test; [intros [= <- <-]; by left|].
  rewrite Hc, bind_Ret. intros [= <- <-]. by right.
Qed.

Lemma vote_calls_args (args : RequestVoteArgs) v a :
  (v, a) ∈ vote_calls n (Some args) → a = args.
Proof. unfold vote_calls. by intros (j & [= -> ->] & _)%list_elem_of_fmap. Qed.

Lemma step_tick G H V i rf now randTime rf' o :
  ginv G H V → g_peer G !! i = Some rf → ticker rf now randTime = Ret (rf', o) →
  ginv (with_net G (mkNet (<[i := rf']> (g_peer G)) (vote_calls n o ++ n_calls (g_net G))
    (n_replies (g_net G)) (n_granted (g_net G)) (n_counted (g_net G)) (n_elected (g_net G))
    (vote_routines n o ∪ n_open (g_net G))))
    H (<[i := V i]> V).
Proof using Type.
  intros Hinv Hi Hr. destruct (ginv_peer _ _ _ _ _ _ Hinv Hi) as (Hw & Hme & _ & _ & Hpi).
  destruct (ticker_cases rf now randTime rf' o Hw Hr) as [[Hrf Ho]|(Hrf & Hnl & Ho)].
  - eapply (election_keep G _ H V i rf rf'); try done; try (by left); try (by rewrite Hrf).
    + by eapply ns_tick.
    + intros tm' Htm. rewrite Hrf. by eapply peer_inv_same.
    + rewrite Ho. by left.
  - assert (currentTerm rf' = currentTerm rf + 1 ∧ state rf' = CANDIDATE) as [HT HS] by by rewrite Hrf.
    eapply (election_keep G _ H V i rf rf'); try done; try (by left).
    + by eapply ns_tick.
    + lia.
    + congruence.
    + lia.
    + intros tm' Htm. rewrite Hrf. eapply peer_inv_same; try done. simpl. lia.
    + intros v args [Hin|?]%elem_of_app; [right|by left]. rewrite Ho in Hin.
      apply vote_calls_args in Hin as ->. exists (V i). simpl.
      pose proof (pi_rep _ _ _ _ _ _ Hpi) as Hrep.
      pose proof (upto_mono (currentTerm rf) (currentTerm rf + 1) _ ltac:(lia) (pi_upto _ _ _ _ _ _ Hpi)).
      split_and!; try apply Hpi; try done.
      * apply rep_last; [apply Hw|done].
      * apply rep_last_term; [apply Hw|done].
      * unfold term_of. simpl. rewrite Hme, lookup_insert_eq. lia.
      * intros rc _ _ _ T k _ _ Hh. left. by rewrite Hme, insert_same.
Qed.

(** A call that failed is made again. *)
Lemma step_vote_retry G H V key retry :
  ginv G H V → n_open (g_net G) !! key = Some retry →
  ginv (with_net G (mkNet (g_peer G) (n_calls (g_net G)) (n_replies (g_net G)) (n_granted (g_net G))
    (n_counted (g_net G)) (n_elected (g_net G)) (partial_alter (λ _, vote_retry retry) key (n_open (g_net G))))) H V.
Proof using Type.
  intros Hinv Ho. assert (net_inv n (mkNet (g_peer G) (n_calls (g_net G)) (n_replies (g_net G)) (n_granted (g_net G))
    (n_counted (g_net G)) (n_elected (g_net G)) (partial_alter (λ _, vote_retry retry) key (n_open (g_net G))))) as Hnet.
  { eapply nstep_inv; [apply Hinv|by eapply ns_retry]. }
  destruct Hinv. by split.
Qed.

(** ** The voter *)
Lemma RequestVote_frame rf args now rf' reply :
  raft_wf rf → RequestVote rf args now = Ret (rf', reply) →
  Log rf' = Log rf ∧ lastIncludedIndex rf' = lastIncludedIndex rf ∧
  lastIncludedTerm rf' = lastIncludedTerm rf ∧ commitIndex rf' = commitIndex rf ∧
  matchIndex rf' = matchIndex rf ∧ currentTerm rf ≤ currentTerm rf' ∧
  (state rf' = FOLLOWER ∨ state rf' = state rf ∧ currentTerm rf' = currentTerm rf) ∧
  (rvr_VoteGranted reply = true → currentTerm rf' = rva_Term args ∧
     (last_term rf < rva_LastLogTerm args ∨
      last_term rf = rva_LastLogTerm args ∧ last_index rf ≤ rva_LastLogIndex args)).
Proof.
  intros Hw. unfold RequestVote. set (rf1 := if currentTerm rf <? rva_Term args then _ else _).
  assert (raft_wf rf1 ∧ Log rf1 = Log rf ∧ lastIncludedIndex rf1 = lastIncludedIndex rf ∧
    lastIncludedTerm rf1 = lastIncludedTerm rf ∧ commitIndex rf1 = commitIndex rf ∧
    matchIndex rf1 = matchIndex rf ∧ currentTerm rf ≤ currentTerm rf1 ∧ rva_Term args ≤ currentTerm rf1 ∧
    (state rf1 = FOLLOWER ∨ state rf1 = state rf ∧ currentTerm rf1 = currentTerm rf))
    as (Hw1 & HL & HI & HIT & HCI & HM & HT & HT' & HS).
  { unfold rf1. case_test; [|split_and!; done || lia || by right].
    split_and!; try done; simpl; try lia; [apply FollowerState_wf; [lia|done]|by left]. }
  assert (last_index rf1 = last_index rf) as Hli by by apply last_index_frame.
  assert (last_term rf1 = last_term rf) as Hlt by (unfold last_term; rewrite HL; by apply term_at_ext).
  clearbody rf1. case_test; [intros [= <- <-]; by split_and!|].
  pose proof (rw_log _ Hw1) as Hl1.
  rewrite getLastLogIndex_eq, bind_Ret, getLastLogTerm_eq, bind_Ret, Hli, Hlt by done.
  destruct (_ && _) eqn:Ht; intros [= <- <-]; [|by split_and!].
  apply grant_test in Ht as [_ Hup]. split_and!; try done. intros _. split; [simpl; lia|done].
Qed.

Section vote.
Context (G : group (C:=C)) (H : hist) (V : Z → list (LogEntry C)).
Context (v : Z) (rf rf' : Raft C).
Context (args : RequestVoteArgs) (now : Z) (reply : RequestVoteReply).
Context (Hinv : ginv G H V) (Hcalls : (v, args) ∈ n_calls (g_net G)).
Context (Hi : g_peer G !! v = Some rf) (Hr : RequestVote rf args now = Ret (rf', reply)).

(** A vote that is granted: the candidate holds what the voter acknowledged. *)
Lemma vote_granted_ok N' :
  n_peer N' = <[v := rf']> (g_peer G) → rvr_VoteGranted reply = true →
  granted_ok n N' H (<[v := V v]> V) (v, rva_Term args, rva_CandidateId args).
Proof using Hinv Hcalls Hi Hr Hn.
  intros HN' Hg. destruct (ginv_peer _ _ _ _ _ _ Hinv Hi) as (Hw & _ & _ & _ & Hpi).
  destruct (RequestVote_frame _ _ _ _ _ Hw Hr) as (_ & _ & _ & _ & _ & HT & _ & Hup).
  destruct (Hup Hg) as [_ Hlog]. clear Hup.
  destruct (gi_call _ _ _ _ Hinv v args Hcalls) as (cl & Hgc & Hsc & Huc & Hx & Ht & Hle & Hcand).
  assert (v ≠ rva_CandidateId args) as Hne.
  { apply (ni_pending _ _ (gi_net _ _ _ _ Hinv) (rva_CandidateId args) (rva_Term args) v).
    apply elem_of_app. left. apply list_elem_of_fmap. by exists (v, args). }
  assert (∀ w, term_of (g_net G) w ≤ term_of N' w) as Htm by (intros w; by eapply term_of_set).
  pose proof (Htm (rva_CandidateId args)). split; [lia|].
  intros rc Hrc Hs HTc T k HTk Hk Ha. rewrite HN', lookup_insert_ne in Hrc by done.
  rewrite insert_same. eapply (holds_grows n _ H H); [apply grows_refl|done..|].
  destruct (pi_acks _ _ _ _ _ _ Hpi T k Hk Ha) as [Hhas|?]; [|by right].
  pose proof (pi_rep _ _ _ _ _ _ Hpi) as Hrep. pose proof (rw_log _ Hw) as Hl.
  rewrite (rep_last_term rf (V v)), (rep_last rf (V v)), Hx, Ht in Hlog by done.
  destruct (vote_holds n (term_of (g_net G)) H T k (V v) cl (currentTerm rf) (rva_Term args))
    as [Hcl|?]; try done; try apply Hpi; [apply Hinv| |by eapply Hcand|by right].
  unfold zlen in Hlog. destruct Hlog as [?|[? ?]]; [by left|right]. split; [done|lia].
Qed.

Lemma step_vote :
  ginv (with_net G (mkNet (<[v := rf']> (g_peer G)) (n_calls (g_net G))
    ((v, args, reply) :: n_replies (g_net G))
    (if rvr_VoteGranted reply
     then {[(v, rva_Term args, rva_CandidateId args)]} ∪ n_granted (g_net G) else n_granted (g_net G))
    (n_counted (g_net G)) (n_elected (g_net G)) (n_open (g_net G)))) H (<[v := V v]> V).
Proof using Hinv Hcalls Hi Hr Hn.
  destruct (ginv_peer _ _ _ _ _ _ Hinv Hi) as (Hw & _ & _ & _ & Hpi).
  destruct (RequestVote_frame _ _ _ _ _ Hw Hr) as (HL & HI & HIT & HCI & HM & HT & HS & _).
  eapply (election_keep G _ H V v rf rf'); try done.
  - by eapply ns_vote.
  - intros Hs. destruct HS as [?|[<- _]]; [congruence|]. split; [done|lia].
  - intros Hs _. destruct HS as [?|[<- _]]; [congruence|done].
  - intros tm' Htm. eapply peer_inv_same; try done.
    intros Hs. destruct HS as [?|[<- ?]]; [congruence|done].
  - intros w a Hin. by left.
  - intros g. simpl. destruct (rvr_VoteGranted reply) eqn:Hg; [|by left].
    intros [->%elem_of_singleton|?]%elem_of_union; [right|by left]. by apply vote_granted_ok.
Qed.
End vote.

(** ** The new leader *)
Lemma handle_vote_reply_cases rf args reply rf' :
  raft_wf rf → handle_vote_reply rf args reply = Ret rf' →
  (currentTerm rf < rvr_Term reply ∧ rf' = FollowerState (rvr_Term reply) rf) ∨
  (∃ x, rf' = set_getVotesNum x rf) ∨
  (state rf = CANDIDATE ∧ currentTerm rf = rva_Term args ∧ ∃ ni mi x,
     rf' = set_matchIndex mi (set_nextIndex ni (set_state LEADER (set_getVotesNum x rf))) ∧
     ∀ j, 0 ≤ j < peers rf → mi !! Z.to_nat j = Some (-1)).
Proof.
  intros Hw Hr. unfold handle_vote_reply in Hr. case_test_in Hr; [injection Hr as <-; by left|]. right.
  assert (rf = set_getVotesNum (getVotesNum rf) rf) as Hrf by by destruct rf.
  case_test_in Hr; [injection Hr as <-; left; by exists (getVotesNum rf)|].
  case_test_in Hr; [|injection Hr as <-; left; by exists (getVotesNum rf)].
  cbv zeta in Hr. case_test_in Hr; [|injection Hr as <-; left; by eexists].
  assert (raft_wf (set_getVotesNum (getVotesNum rf + 1) rf)) as Hw1.
  { pose proof Hw as [? ? ? ? ? ? ?]. apply (raft_wf_frame rf); simpl; done || lia. }
  destruct (LeaderState_spec _ Hw1) as (ni & mi & E & _ & _ & Hmi). rewrite E in Hr.
  injection Hr as <-. right. split; [naive_solver|]. split; [lia|]. eexists _, _, _. split; [done|].
  intros j Hj. by apply Hmi.
Qed.

(** A candidate or leader is past the first term. *)
Lemma reachable_started i rf :
  0 ≤ i < n → reachable n i rf → state rf ≠ FOLLOWER → 1 ≤ currentTerm rf.
Proof using Type.
  intros Hi Hr. assert (Hr' := Hr). revert Hr'.
  induction Hr as [now|rf ev rf' Hr IH Hok Hrun|rf now Hr IH]; intros _; [done| |].
  - destruct (reachable_inv n i rf Hi Hr) as [Hw _]. specialize (IH Hr).
    pose proof (raft_term_nonneg rf Hw). destruct (quiet_event ev) eqn:Hq.
    { intros Hs. destruct (vstep_quiet rf ev rf' Hw Hok Hq Hrun) as [HT _ HS _|? ?|? ? ?|? ? ?]; try done.
      rewrite HT. apply IH. congruence. }
    destruct ev as [args now| | |now rt|args reply| | | | | | | | |]; try done; cbn [run] in Hrun.
    + inv_bind Hrun. destruct x as [rf1 reply]. injection Hrun as <-.
      destruct (RequestVote_frame _ _ _ _ _ Hw Hb) as (_ & _ & _ & _ & _ & _ & [?|[HS HT]] & _); [done|].
      simpl. rewrite HS, HT. done.
    + inv_bind Hrun. destruct x as [rf1 o]. injection Hrun as <-.
      destruct (ticker_cases _ _ _ _ _ Hw Hb) as [[-> _]|(-> & _)]; [done|simpl; lia].
    + destruct (handle_vote_reply_cases _ _ _ _ Hw Hrun)
        as [[_ ->]|[[x ->]|(Hs & _ & ni & mi & x & -> & _)]]; [done|done|].
      intros _. apply IH. congruence.
  - destruct (reachable_inv n i rf Hi Hr) as [_ Hrec]. by destruct (Hrec n i now) as (_ & ? & _).
Qed.

Lemma elem_of_quorum N c T w : w ∈ quorum N c T → w = c ∨ w ∈ counted N c T.
Proof. unfold quorum. rewrite elem_of_union, elem_of_singleton. done. Qed.

#[local] Instance acked_dec H v T k : Decision (acked H v T k).
Proof.
  refine (cast_if (decide (set_Exists (λ a, a.1 = (v, T) ∧ (k ≤ a.2)%nat) (h_acks H)))).
  - destruct s as ([[v' T'] k'] & Hin & [= -> ->] & Hk). by exists k'.
  - intros (k' & Hin & Hk). apply n0. by exists (v, T, k').
Defined.

(** A candidate with the votes of a quorum holds all that is or can be chosen in
    earlier terms. *)
Lemma elected_holds tm H vl (Q : gset Z) (T T0 : Z) k :
  quorum_of n Q → (∀ v, v ∈ Q → T ≤ tm v) → T0 < T → own H T0 k →
  (∀ v, v ∈ Q → acked H v T0 k → holds n tm H T0 k vl) → holds n tm H T0 k vl.
Proof using Type.
  intros HQ Hterm HT Hk Hv. destruct (decide (set_Exists (λ v, acked H v T0 k) Q)) as [(v & Hin & Ha)|Hno].
  - by apply (Hv v).
  - right. exists Q. split; [done|]. intros v Hin. specialize (Hterm v Hin). split; [lia|].
    intros Ha. apply Hno. by exists v.
Qed.

(** The peer that was elected. *)
Lemma elected_inv tm H c rf rf' vl :
  peer_inv tm H c rf vl → h_leaders H !! currentTerm rf = None → tm c = currentTerm rf →
  Log rf' = Log rf → lastIncludedIndex rf' = lastIncludedIndex rf →
  lastIncludedTerm rf' = lastIncludedTerm rf → currentTerm rf' = currentTerm rf →
  commitIndex rf' = commitIndex rf → 0 ≤ commitIndex rf →
  (∀ j, 0 ≤ j < n → matchIndex rf' !! Z.to_nat j = Some (-1)) →
  peer_inv tm (hist_elect c (currentTerm rf) vl H) c rf' vl.
Proof using Type.
  intros Hpi HN Htm HL HI HIT HT HCI Hc Hm. set (H' := hist_elect _ _ _ _).
  assert (grows tm H H') as Hgr by (apply elect_grows; [lia|done]).
  pose proof (good_terms H vl _ (pi_good _ _ _ _ _ _ Hpi) (pi_upto _ _ _ _ _ _ Hpi) HN) as Hu.
  split; rewrite ?HT, ?HCI; try apply Hpi.
  - eapply rep_frame; [done..|apply Hpi].
  - eapply good_grows; [done|apply Hpi].
  - intros T k Hk Ha. apply elect_own in Hk; [|done]. eapply (holds_grows n tm H H'); [done..|].
    destruct Ha as (k' & Hin & Hk'). simpl in Hin.
    apply elem_of_union in Hin as [[= -> ->]%elem_of_singleton|Hin].
    + destruct Hk as (L & HL' & _). congruence.
    + apply Hpi; [done|]. by exists k'.
  - eapply safe_grows; [done|apply Hpi].
  - intros _. split; [simpl; apply lookup_insert_eq|]. exists (length vl). split; [|done]. simpl.
    by apply elem_of_union_l, elem_of_singleton.
  - intros _ j m Hj _. rewrite Hm by done. intros [= <-]. pose proof (zlen_nonneg vl). split; [lia|].
    intros k Hk. lia.
Qed.

Section reply.
Context (G : group (C:=C)) (H : hist) (V : Z → list (LogEntry C)).
Context (v : Z) (rf rf' : Raft C).
Context (args : RequestVoteArgs) (reply : RequestVoteReply) (retry : Z).
Let c := rva_CandidateId args.
Context (Hinv : ginv G H V) (Hreplies : (v, args, reply) ∈ n_replies (g_net G)).
Context (Hopen : n_open (g_net G) !! ballot_key (v, args) = Some retry).
Context (Hi : g_peer G !! c = Some rf) (Hr : handle_vote_reply rf args reply = Ret rf').
Let N' := mkNet (<[c := rf']> (g_peer G)) (n_calls (g_net G)) (n_replies (g_net G)) (n_granted (g_net G))
  (if counts rf args reply
   then <[(c, rva_Term args) := {[v]} ∪ counted (g_net G) c (rva_Term args)]> (n_counted (g_net G))
   else n_counted (g_net G))
  (if elects rf rf' then {[(c, rva_Term args)]} ∪ n_elected (g_net G) else n_elected (g_net G))
  (delete (ballot_key (v, args)) (n_open (g_net G))).

Lemma reply_step : nstep n (g_net G) N'.
Proof using Hreplies Hopen Hi Hr. by eapply ns_reply. Qed.

Lemma reply_net : net_inv n N'.
Proof using Hinv Hreplies Hopen Hi Hr. eapply nstep_inv; [apply Hinv|apply reply_step]. Qed.

(** Whoever is elected is the first of its term, has the votes of a quorum, and
    holds all it needs. *)
Lemma elected_facts :
  state rf = CANDIDATE → state rf' = LEADER → currentTerm rf = rva_Term args →
  h_leaders H !! currentTerm rf = None ∧ (c, currentTerm rf) ∉ n_elected (g_net G) ∧
  (c, currentTerm rf) ∈ n_elected N' ∧
  (∃ Q, quorum_of n Q ∧ ∀ w, w ∈ Q → currentTerm rf ≤ term_of (g_net G) w) ∧
  ∀ T0 k, T0 < currentTerm rf → own H T0 k → holds n (term_of (g_net G)) H T0 k (V c).
Proof using Hinv Hreplies Hopen Hi Hr.
  intros Hs Hs' HT. pose proof (gi_net _ _ _ _ Hinv) as Hnet. pose proof reply_net as Hnet'.
  assert ((c, currentTerm rf) ∈ n_elected N') as Hel.
  { simpl. unfold elects. rewrite !bool_decide_eq_true_2 by done. simpl. rewrite <- HT.
    by apply elem_of_union_l, elem_of_singleton. }
  assert ((c, currentTerm rf) ∉ n_elected (g_net G)) as Hnot.
  { intros Hin. destruct (ni_elected _ _ Hnet _ _ Hin) as (_ & _ & _ & (r & Hr' & _ & Hc)).
    change (n_peer (g_net G)) with (g_peer G) in Hr'. assert (r = rf) as -> by congruence.
    by destruct (Hc eq_refl). }
  assert (∀ w, w ∈ counted N' c (currentTerm rf) → (w, currentTerm rf, c) ∈ n_granted (g_net G)) as Hgr.
  { intros w Hw. by apply (ni_counted _ _ Hnet') in Hw as (_ & _ & _ & ?). }
  assert (∀ w, w ∈ quorum N' c (currentTerm rf) → currentTerm rf ≤ term_of (g_net G) w) as Hterm.
  { intros w [->|Hw%Hgr]%elem_of_quorum; [by rewrite (term_of_peer _ _ rf)|].
    apply (ni_granted _ _ Hnet) in Hw as [_ Hat]. by eapply at_term_of. }
  destruct (quorum_size n N' c (currentTerm rf) Hnet' Hel) as [Hsz Hsub].
  split_and!; [|done|done|by eexists|].
  - destruct (h_leaders H !! currentTerm rf) as [L|] eqn:HL; [|done]. exfalso.
    destruct (gi_elected _ _ _ _ Hinv (currentTerm rf)) as [c' Hc']; [by eexists|].
    assert (c' = c) as ->; [|done].
    eapply (elected_unique n N'); [done| |done]. simpl. case_match; [by apply elem_of_union_r|done].
  - intros T0 k HT0 Hk. eapply (elected_holds _ H _ (quorum N' c (currentTerm rf)) (currentTerm rf)); try done.
    intros w [->|Hw%Hgr]%elem_of_quorum Ha.
    + by apply (gi_peer _ _ _ _ Hinv c rf).
    + by eapply (gi_granted _ _ _ _ Hinv _ Hw).
Qed.

Lemma step_elected :
  state rf = CANDIDATE → state rf' = LEADER → currentTerm rf = rva_Term args →
  (∃ ni mi x, rf' = set_matchIndex mi (set_nextIndex ni (set_state LEADER (set_getVotesNum x rf))) ∧
     ∀ j, 0 ≤ j < peers rf → mi !! Z.to_nat j = Some (-1)) →
  ∃ H', ginv (with_net G N') H' (<[c := V c]> V) ∧ extends (term_of (g_net G)) (λ _, False) H H'.
Proof using Hinv Hreplies Hopen Hi Hr.
  intros Hs Hs' HT (ni & mi & x & Hrf' & Hmi).
  destruct (ginv_peer _ _ _ _ _ _ Hinv Hi) as (Hw & _ & Hp & Hcr & Hpi).
  destruct (elected_facts Hs Hs' HT) as (HN & Hnot & Hel & HQ & Hholds).
  pose proof (term_of_peer _ _ _ Hi) as Htc. pose proof (gi_hist _ _ _ _ Hinv) as Ho.
  set (H' := hist_elect c (currentTerm rf) (V c) H). exists H'.
  assert (extends (term_of (g_net G)) (λ _, False) H H') as Hex by (apply extends_elect; [lia|done|apply Hpi]).
  split; [|done]. pose proof (ex_grows _ _ _ _ Hex) as Hgr.
  assert (currentTerm rf' = currentTerm rf) as HTr by by rewrite Hrf'.
  assert (∀ w, term_of (g_net G) w ≤ term_of N' w) as Htm.
  { intros w. eapply term_of_set; [done|done|lia]. }
  assert (1 ≤ currentTerm rf) as HT1.
  { destruct (ni_reach _ _ (gi_net _ _ _ _ Hinv) _ _ Hi) as [_ Hreach].
    eapply reachable_started; [done..|congruence]. }
  assert (history_ok n (term_of (g_net G)) H') as Ho'.
  { apply history_elect; try done; try apply Hpi. }
  assert (0 ≤ commitIndex rf) as Hc by (pose proof (rw_lii _ Hw); pose proof (rw_applied _ Hw); lia).
  eapply (ginv_update n G (with_net G N') H H' V c rf rf' (V c)); try done; try (by left).
  - lia.
  - intros w T k Hne (k' & Hin & Hk). simpl in Hin.
    apply elem_of_union in Hin as [[= -> -> ->]%elem_of_singleton|Hin]; [done|]. by exists k'.
  - apply reply_net.
  - intros T. destruct (decide (T = currentTerm rf)) as [->|Hne]; [by right|left]. simpl.
    by apply lookup_insert_ne.
  - simpl. case_match; [apply union_subseteq_r|done].
  - intros _ _. by right.
  - eapply history_terms; [|done]. done.
  - intros T. simpl. destruct (decide (T = currentTerm rf)) as [->|Hne]; [by exists c|].
    rewrite lookup_insert_ne by done. intros [c' Hc']%(gi_elected _ _ _ _ Hinv). exists c'.
    case_match; [by apply elem_of_union_r|done].
  - apply (peer_inv_same n (term_of (g_net G)) _ H' c rf'); try done.
    apply elected_inv; try done; try (by rewrite Hrf').
    intros j Hj. rewrite Hrf'. apply Hmi. lia.
Qed.

Lemma step_vote_reply :
  ∃ H', ginv (with_net G N') H' (<[c := V c]> V) ∧ extends (term_of (g_net G)) (λ _, False) H H'.
Proof using Hinv Hreplies Hopen Hi Hr.
  destruct (ginv_peer _ _ _ _ _ _ Hinv Hi) as (Hw & _ & Hp & Hcr & Hpi).
  destruct (handle_vote_reply_cases rf args reply rf' Hw Hr)
    as [[HT Hrf']|[[x Hrf']|(Hs & HT & ni & mi & x & Hrf' & Hmi)]].
  - exists H. split; [|apply extends_refl].
    eapply (election_keep G N' H V c rf rf'); try done; try (by left); try (by rewrite Hrf').
    + apply reply_step.
    + simpl. unfold elects. rewrite (bool_decide_eq_false_2 (state rf' = LEADER)), andb_false_r by (by rewrite Hrf').
      done.
    + rewrite Hrf'. simpl. lia.
    + intros tm' Htm. rewrite Hrf'. eapply peer_inv_same; try done. simpl. lia.
  - exists H. split; [|apply extends_refl].
    assert (state rf' = state rf) as HS by by rewrite Hrf'.
    eapply (election_keep G N' H V c rf rf'); try done; try (by left); try (by rewrite Hrf').
    + apply reply_step.
    + simpl. unfold elects. rewrite HS. destruct (state rf); done.
    + intros tm' Htm. rewrite Hrf'. by eapply peer_inv_same.
  - apply step_elected; try done; [by rewrite Hrf'|]. eauto.
Qed.
End reply.
End elections.
