(* ===== verification/RaftGroupRun.v ===== *)
(** * Running a Raft group

    [gexec] executes one chosen step of [RaftGroup.gstep]; a run of it is a run of
    the group ([gexecs_sound]).  The sample run elects a leader of three, commits
    a command on it and on one follower, and replaces the leader. *)

From S2P Require Import Prelude Persister RaftApi Raft RaftLog RaftAppend RaftSteps RaftSpec.
From S2P Require Import RaftElection RaftGroup.
Import Raft.

(** The value of a section that returned. *)
Definition returned {A} (m : Go A) : option A := match m with Ret a => Some a | _ => None end.

Lemma returned_Some {A} (m : Go A) a : returned m = Some a → m = Ret a.
Proof. destruct m; simpl; congruence. Qed.

(** What an executed step consists of. *)
Ltac exec_inv :=
  repeat match goal with
  | E : _ ≫= _ = Some _ |- _ => apply bind_Some in E as (? & ? & ?)
  | E : returned _ = Some _ |- _ => apply returned_Some in E
  | E : match ?x with (_, _) => _ end = Some _ |- _ => destruct x eqn:?
  | E : Some _ = Some _ |- _ => injection E as <-
  end; simplify_eq.

Section exec.
Context {C : Type} `{HC : Codec (Z * Z * list (LogEntry C) * Z * Z)}.
Context (n : Z).
Implicit Types (G : group (C:=C)).

(** What happens next; calls and replies are chosen by their position. *)
Inductive action :=
| ATick (i now randTime : Z)
| AVote (p : nat) (now : Z)
| AVoteRetry (c T v : Z)
| AVoteReply (p : nat)
| ACrash (i now : Z)
| APrepare (i j : Z)
| AAppend (p : nat) (now : Z)
| AAppendReply (p : nat)
| AInstall (p : nat) (now : Z)
| AInstallReply (p : nat)
| AInstallLost (p : nat)
| AStart (i : Z) (c : C)
| ACondInstall (p : nat)
| ASnapshot (i target : Z) (data : bytes)
| ADone (i commit : Z)
| AKill (i : Z).

Definition gexec (a : action) G : option (group (C:=C)) :=
  match a with
  | ATick i now randTime =>
      rf ← g_peer G !! i; '(rf', o) ← returned (ticker rf now randTime);
      Some (with_net G (mkNet (<[i := rf']> (g_peer G)) (vote_calls n o ++ n_calls (g_net G))
        (n_replies (g_net G)) (n_granted (g_net G)) (n_counted (g_net G)) (n_elected (g_net G))
        (vote_routines n o ∪ n_open (g_net G))))
  | AVote p now =>
      '(v, args) ← n_calls (g_net G) !! p; rf ← g_peer G !! v;
      '(rf', reply) ← returned (RequestVote rf args now);
      Some (with_net G (mkNet (<[v := rf']> (g_peer G)) (n_calls (g_net G))
        ((v, args, reply) :: n_replies (g_net G))
        (if rvr_VoteGranted reply
         then {[(v, rva_Term args, rva_CandidateId args)]} ∪ n_granted (g_net G) else n_granted (g_net G))
        (n_counted (g_net G)) (n_elected (g_net G)) (n_open (g_net G))))
  | AVoteRetry c T v =>
      retry ← n_open (g_net G) !! (c, T, v);
      Some (with_net G (mkNet (g_peer G) (n_calls (g_net G)) (n_replies (g_net G)) (n_granted (g_net G))
        (n_counted (g_net G)) (n_elected (g_net G))
        (partial_alter (λ _, vote_retry retry) (c, T, v) (n_open (g_net G)))))
  | AVoteReply p =>
      '(v, args, reply) ← n_replies (g_net G) !! p; rf ← g_peer G !! rva_CandidateId args;
      _ ← n_open (g_net G) !! ballot_key (v, args);
      rf' ← returned (handle_vote_reply rf args reply);
      Some (with_net G (mkNet (<[rva_CandidateId args := rf']> (g_peer G)) (n_calls (g_net G))
        (n_replies (g_net G)) (n_granted (g_net G))
        (if counts rf args reply
         then <[(rva_CandidateId args, rva_Term args) :=
                  {[v]} ∪ counted (g_net G) (rva_CandidateId args) (rva_Term args)]> (n_counted (g_net G))
         else n_counted (g_net G))
        (if elects rf rf' then {[(rva_CandidateId args, rva_Term args)]} ∪ n_elected (g_net G)
         else n_elected (g_net G)) (delete (ballot_key (v, args)) (n_open (g_net G)))))
  | ACrash i now => rf ← g_peer G !! i; Some (set_peer G i (Make n i (persister rf) now))
  | APrepare i j =>
      rf ← g_peer G !! i; guard (0 ≤ j < n ∧ j ≠ i);;
      '(rf', out) ← returned (leader_prepare rf j); Some (send j out (set_peer G i rf'))
  | AAppend p now =>
      '(d, args) ← g_appends G !! p; rf ← g_peer G !! d;
      '(rf', reply) ← returned (AppendEntries rf args now);
      Some (add_areply (d, args, reply) (set_peer G d rf'))
  | AAppendReply p =>
      '(j, args, reply) ← g_areplies G !! p; rf ← g_peer G !! aea_LeaderId args;
      rf' ← returned (handle_append_reply rf j args reply);
      Some (set_peer G (aea_LeaderId args) rf')
  | AInstall p now =>
      '(d, args) ← g_installs G !! p; rf ← g_peer G !! d;
      let '(rf', reply, o) := InstallSnapshot rf args now in
      Some (offer d o (add_ireply (d, args, reply) (set_peer G d rf')))
  | AInstallReply p =>
      '(j, args, reply) ← g_ireplies G !! p; rf ← g_peer G !! isa_LeaderId args;
      rf' ← returned (handle_install_reply rf j args true reply);
      Some (set_peer G (isa_LeaderId args) rf')
  | AInstallLost p =>
      '(j, args) ← g_installs G !! p; rf ← g_peer G !! isa_LeaderId args;
      rf' ← returned (handle_install_reply rf j args false (mkInstallSnapshotReply 0));
      Some (set_peer G (isa_LeaderId args) rf')
  | AStart i c => rf ← g_peer G !! i; '(rf', _) ← returned (Start rf c); Some (set_peer G i rf')
  | ACondInstall p =>
      '(i, (lit, lii, data)) ← g_offers G !! p; rf ← g_peer G !! i;
      '(rf', _) ← returned (CondInstallSnapshot rf lit lii data); Some (set_peer G i rf')
  | ASnapshot i target data =>
      rf ← g_peer G !! i; guard (target ≤ commitIndex rf);;
      rf' ← returned (Raft.Snapshot rf target data); Some (set_peer G i rf')
  | ADone i commit =>
      rf ← g_peer G !! i; guard (commit ≤ commitIndex rf);;
      Some (set_peer G i (applyChecker_done rf commit))
  | AKill i => rf ← g_peer G !! i; Some (set_peer G i (Kill rf))
  end.

(** The steps of the protocol itself. *)
Definition peer_action (a : action) : bool :=
  match a with
  | ATick _ _ _ | AVote _ _ | AVoteRetry _ _ _ | AVoteReply _ | APrepare _ _ | AAppend _ _ | AAppendReply _
  | AInstall _ _ | AInstallReply _ | AInstallLost _ => true
  | _ => false
  end.

Lemma gexec_peers a G G' : peer_action a = true → gexec a G = Some G' → pstep n G G'.
Proof.
  destruct a; simpl; try done; intros _ HG; exec_inv.
  - by eapply ps_tick.
  - eapply ps_vote; [by eapply list_elem_of_lookup_2|done..].
  - by eapply ps_vote_retry.
  - eapply ps_vote_reply; [by eapply list_elem_of_lookup_2|done..].
  - destruct_and!. by eapply ps_prepare.
  - eapply ps_append; [by eapply list_elem_of_lookup_2|done..].
  - eapply ps_append_reply; [by eapply list_elem_of_lookup_2|done..].
  - eapply ps_install; [by eapply list_elem_of_lookup_2|done..].
  - eapply ps_install_reply; [by eapply list_elem_of_lookup_2|done..].
  - eapply ps_install_lost; [by eapply list_elem_of_lookup_2|done..].
Qed.

Lemma gexec_sound a G G' : gexec a G = Some G' → gstep n G G'.
Proof.
  destruct (peer_action a) eqn:Ha; [intros; by eapply gs_peers, gexec_peers|].
  destruct a; simpl in *; try done; intros HG; exec_inv.
  - by apply gs_crash.
  - by eapply gs_start.
  - eapply gs_cond_install; [by eapply list_elem_of_lookup_2|done..].
  - by eapply gs_snapshot.
  - by eapply gs_done.
  - by eapply gs_kill.
Qed.

Fixpoint gexecs (l : list action) G : option (group (C:=C)) :=
  match l with
  | [] => Some G
  | a :: l' => G' ← gexec a G; gexecs l' G'
  end.

Lemma gexecs_sound l G G' : gexecs l G = Some G' → rtc (gstep n) G G'.
Proof.
  revert G. induction l as [|a l IH]; intros G; simpl; [by intros [= ->]|].
  intros (G1 & H1%gexec_sound & H2%IH)%bind_Some. by eapply rtc_l.
Qed.
End exec.

(** ** A sample run *)
Definition group3 : group (C:=Z) :=
  mkGroup (mkNet (<[0 := Make 3 0 MakePersister 0]> (<[1 := Make 3 1 MakePersister 0]>
    (<[2 := Make 3 2 MakePersister 0]> ∅))) [] [] ∅ ∅ ∅ ∅) [] [] [] [] [].

Lemma group3_init : group_init 3 group3.
Proof.
  split_and!; try done. split; [|done]. intros i rf. simpl.
  intros [[<- <-]|[_ [[<- <-]|[_ [[<- <-]|[_ ?]]%lookup_insert_Some]]%lookup_insert_Some]]%lookup_insert_Some;
    [split; [lia|by exists 0]..|done].
Qed.

(** Peer 0 leads term 1; a command reaches peers 0 and 1, which commit it. *)
Definition run_commit : list (action (C:=Z)) :=
  [ATick 0 1000 300; AVote 0 1001; AVoteReply 0; AStart 0 10; APrepare 0 1; AAppend 0 1002;
   AAppendReply 0; APrepare 0 1; AAppend 0 1003].

(** Peer 1 leads term 2 with the vote of peer 2, which lacks the entry and gets it
    together with a new one. *)
Definition run_replace : list (action (C:=Z)) :=
  [ATick 1 5000 300; AVote 1 5001; AVoteReply 0; AStart 1 20; APrepare 1 2; AAppend 0 5002;
   AAppendReply 0; APrepare 1 2; AAppend 0 5003; AAppendReply 0; APrepare 1 2; AAppend 0 5004].

Definition after (l : list (action (C:=Z))) (G : group) : group := default G (gexecs 3 l G).
Definition group_committed : group := after run_commit group3.
Definition group_replaced : group := after run_replace group_committed.

Lemma after_sound l G : rtc (gstep 3) G (after l G).
Proof.
  unfold after. destruct (gexecs 3 l G) as [G'|] eqn:E; [by eapply gexecs_sound|apply rtc_refl].
Qed.

Lemma group_replaced_reach : rtc (gstep 3) group3 group_replaced.
Proof. etrans; apply after_sound. Qed.

Definition peer_of (G : group (C:=Z)) (i : Z) : Raft Z :=
  default (Make 3 i MakePersister 0) (g_peer G !! i).
