(* ===== verification/RaftSafety.v ===== *)
(** * Raft is safe

    The theorems about a group of peers, from the invariant of [RaftGroup], which
    every step keeps ([gstep_ginv]): what is committed is the same on all peers
    at all times, later leaders have it, logs that agree at one entry agree
    before it, and no message makes a peer panic. *)

From stdpp Require Import functions.
From S2P Require Import Prelude Persister RaftApi Raft RaftLog RaftAppend RaftSteps RaftSpec RaftOps.
From S2P Require Import RaftElection RaftHistory RaftRep RaftGroup RaftGroupSteps RaftGroupLog RaftGroupElect RaftGroupRun.
Import Raft.
Local Open Scope Z_scope.

Section safety.
Context {C : Type} `{HC : Codec (Z * Z * list (LogEntry C) * Z * Z)}.
Context (n : Z) (Hn : 0 ≤ n).
Implicit Types (rf : Raft C) (G : group (C:=C)).
Notation hist := (hist (C:=C)).
Implicit Types (H : hist) (V : Z → list (LogEntry C)).
Notation ginv := (ginv n).

(** ** The invariant holds *)
Lemma pstep_ginv G G' H V :
  ginv G H V → pstep n G G' → ∃ H' V', ginv G' H' V' ∧ extends (term_of (g_net G)) (λ _, False) H H'.
Proof using Hn.
  intros Hinv Hstep.
  assert (∀ G' V', ginv G' H V' →
    ∃ H' V', ginv G' H' V' ∧ extends (term_of (g_net G)) (λ _, False) H H') as Hsame.
  { intros G1 V1 Hi. exists H, V1. split; [done|apply extends_refl]. }
  destruct Hstep.
  - by eapply Hsame, step_tick.
  - by eapply Hsame, step_vote.
  - by eapply Hsame, step_vote_retry.
  - edestruct step_vote_reply as (H' & ? & ?); [done..|]. by eexists _, _.
  - by eapply Hsame, step_prepare.
  - by eapply step_append.
  - by eapply Hsame, step_append_reply.
  - by eapply Hsame, step_install.
  - eapply Hsame, step_ireply; try done. by eapply (gi_ireply _ _ _ _ Hinv).
  - eapply Hsame, step_ireply; try done. by eapply (gi_install _ _ _ _ Hinv).
Qed.

Lemma gstep_ginv G G' H V :
  ginv G H V → gstep n G G' → ∃ H' V', ginv G' H' V' ∧ grows (term_of (g_net G)) H H'.
Proof using Hn.
  intros Hinv Hstep.
  assert (∀ G' V', ginv G' H V' → ∃ H' V', ginv G' H' V' ∧ grows (term_of (g_net G)) H H') as Hsame.
  { intros G1 V1 Hi. exists H, V1. split; [done|apply grows_refl]. }
  assert (∀ Q G', (∃ H' V', ginv G' H' V' ∧ extends (term_of (g_net G)) Q H H') →
    ∃ H' V', ginv G' H' V' ∧ grows (term_of (g_net G)) H H') as Hext.
  { intros Q G1 (H' & V' & ? & [? _]). by exists H', V'. }
  destruct Hstep.
  - by eapply Hext, pstep_ginv.
  - by eapply Hsame, step_crash.
  - by eapply Hext, step_start.
  - edestruct step_cond_install as (V' & ?); [done..|]. by eapply Hsame.
  - by eapply Hsame, step_snapshot.
  - by eapply Hsame, step_done.
  - by eapply Hsame, step_kill.
Qed.

Lemma init_peer_inv tm i now : peer_inv n tm (mkHist ∅ ∅) i (Make n i MakePersister now) [].
Proof using Type.
  split; try done.
  - intros T k (L & HL & _). simpl in HL. by rewrite lookup_empty in HL.
  - by left.
Qed.

Lemma init_ginv G : group_init n G → ginv G (mkHist ∅ ∅) (λ _, []).
Proof using Type.
  intros (Hnet & Ha & Har & Hin & Hir & Ho). pose proof (inv_init _ _ Hnet) as Hinv.
  destruct Hnet as (Hp & Hc & Hrep & Hg & _ & _).
  split; try done; rewrite ?Ha, ?Har, ?Hin, ?Hir, ?Ho, ?Hc, ?Hg.
  all: try (intros * Hin'; by apply elem_of_nil in Hin').
  - split; simpl.
    + intros T L HL. by rewrite lookup_empty in HL.
    + intros v T k Hin'. by apply not_elem_of_empty in Hin'.
    + intros T T' L' k _ HL. by rewrite lookup_empty in HL.
    + intros T [L HL]. by rewrite lookup_empty in HL.
  - intros T [L HL]. simpl in HL. by rewrite lookup_empty in HL.
  - intros i rf [_ [now ->]]%Hp. apply init_peer_inv.
  - intros g Hin'. by apply not_elem_of_empty in Hin'.
Qed.

(** What holds of the past holds of the future. *)
Lemma greach_ginv G G' H V :
  rtc (gstep n) G G' → ginv G H V → ∃ H' V', ginv G' H' V' ∧
    (∀ T p, safe_log n H T p → safe_log n H' T p) ∧ (∀ l, good H l → good H' l).
Proof using Hn.
  intros Hr. revert H V. induction Hr as [G|G G1 G' Hstep _ IH]; intros H V Hinv.
  { exists H, V. by split_and!. }
  destruct (gstep_ginv _ _ _ _ Hinv Hstep) as (H1 & V1 & Hinv1 & Hgr).
  destruct (IH H1 V1 Hinv1) as (H2 & V2 & Hinv2 & Hs & Hg). exists H2, V2. split_and!; [done| |].
  - intros T p Hp. by eapply Hs, safe_grows.
  - intros l Hl. by eapply Hg, good_grows.
Qed.

(** ** One log *)

(** What the peer has committed is the beginning of the log [l]: the term of its
    snapshot, its entries up to the commit index, and what its applier hands to
    the service. *)
Record agrees rf (l : list (LogEntry C)) : Prop := {
  ag_commit : commitIndex rf ≤ zlen l;
  ag_snapshot : lastIncludedTerm rf = vterm l (Z.to_nat (lastIncludedIndex rf));
  ag_entry : ∀ k, lastIncludedIndex rf < k ≤ commitIndex rf → entry_at rf k = l !! Z.to_nat (k - 1);
  ag_apply : ∀ msgs c k m, applyChecker_take rf = Ret (Some (msgs, c)) → msgs !! k = Some m →
    ∃ e, l !! (Z.to_nat (lastApplied rf) + k)%nat = Some e ∧
      m = command_msg (le_Command e) (lastApplied rf + 1 + Z.of_nat k)
}.

Lemma committed_agrees rf vl l :
  raft_wf rf → rep rf vl → take (Z.to_nat (commitIndex rf)) vl `prefix_of` l → agrees rf l.
Proof using Type.
  intros Hw Hr Hp. pose proof (rw_lii _ Hw). pose proof (rw_applied _ Hw). pose proof (rw_commit _ Hw) as Hc.
  rewrite (rep_last rf vl (rw_log _ Hw) Hr) in Hc. unfold zlen in Hc.
  pose proof (prefix_length _ _ Hp) as Hlen. rewrite length_take, Nat.min_l in Hlen by lia.
  assert (∀ k, lastIncludedIndex rf < k ≤ commitIndex rf → entry_at rf k = l !! Z.to_nat (k - 1)) as He.
  { intros k Hk. rewrite (rep_entry rf vl) by (done || lia).
    destruct (lookup_lt_is_Some_2 vl (Z.to_nat (k - 1)) ltac:(lia)) as [e He]. rewrite He. symmetry.
    eapply prefix_lookup_Some; [|exact Hp]. by rewrite lookup_take_lt by lia. }
  split; [unfold zlen; lia| |done|].
  - rewrite (rp_lit _ _ Hr), (prefix_vterm _ _ (Z.to_nat (lastIncludedIndex rf)) Hp) by (rewrite length_take; lia).
    apply prefix_vterm; [apply prefix_take|rewrite length_take; lia].
  - intros msgs c k m Ht Hk. destruct (applyChecker_take_cases rf Hw) as (o & E & Ho).
    rewrite Ht in E. injection E as <-. destruct Ho as (-> & Hlt & Hz & Hmsg).
    destruct (Hmsg k m Hk) as (e & Hek & ->). apply lookup_lt_Some in Hk. unfold zlen in Hz. exists e.
    rewrite He in Hek by lia. split; [|done]. rewrite <- Hek. f_equal. lia.
Qed.

(** Safe logs have a common continuation. *)
Lemma safe_bound tm H (ls : list (list (LogEntry C))) :
  history_ok n tm H → (∀ p, p ∈ ls → ∃ T, safe_log n H T p) →
  ∃ l, (∃ T, safe_log n H T l) ∧ ∀ p, p ∈ ls → p `prefix_of` l.
Proof using Hn.
  intros Ho. induction ls as [|p ls IH]; intros Hls.
  { exists []. split; [by exists 0; left|]. by intros p ?%elem_of_nil. }
  destruct IH as (l & [T Hl] & Hle); [intros q Hq; apply Hls; by right|].
  destruct (Hls p) as [T' Hp]; [by left|].
  destruct (safe_comparable n Hn tm H _ _ _ _ Ho Hp Hl) as [Hpl|Hlp].
  - exists l. split; [by exists T|]. intros q [->|Hq]%elem_of_cons; [done|by apply Hle].
  - exists p. split; [by exists T'|]. intros q [->|Hq]%elem_of_cons; [done|]. etrans; [by apply Hle|done].
Qed.

Definition group_log G (l : list (LogEntry C)) : Prop := ∀ i rf, g_peer G !! i = Some rf → agrees rf l.

(** A log that was safe before continues to one for all peers. *)
Lemma group_log_extends G H V l0 T0 :
  ginv G H V → safe_log n H T0 l0 →
  ∃ l, (∃ T, safe_log n H T l) ∧ l0 `prefix_of` l ∧ group_log G l.
Proof using Hn.
  intros Hinv Hl0.
  set (ls := l0 :: ((λ x, take (Z.to_nat (commitIndex x.2)) (V x.1)) <$> map_to_list (g_peer G))).
  destruct (safe_bound (term_of (g_net G)) H ls) as (l & Hl & Hle); [apply Hinv| |].
  { intros p [->|([i rf] & -> & Hin%elem_of_map_to_list)%list_elem_of_fmap]%elem_of_cons; [by exists T0|].
    exists (currentTerm rf). by apply (gi_peer _ _ _ _ Hinv i rf). }
  exists l. split_and!; [done|apply Hle; by left|]. intros i rf Hi.
  destruct (ginv_peer _ _ _ _ _ _ Hinv Hi) as (Hw & _ & _ & _ & Hpi).
  eapply (committed_agrees rf (V i)); [done|apply Hpi|]. apply Hle. right. apply list_elem_of_fmap.
  exists (i, rf). split; [done|]. by apply elem_of_map_to_list.
Qed.

(** Two peers, one of which is seen later. *)
Section two.
Context (G0 G1 G2 : group (C:=C)) (H0 : group_init n G0).
Context (H1 : rtc (gstep n) G0 G1) (H2 : rtc (gstep n) G1 G2).
Context (i j : Z) (rf1 rf2 : Raft C) (Hi : g_peer G1 !! i = Some rf1) (Hj : g_peer G2 !! j = Some rf2).

Definition log_of rf vl : Prop :=
  rep rf vl ∧ raft_wf rf ∧ commitIndex rf ≤ zlen vl ∧ last_index rf = zlen vl.

Lemma two_peers : ∃ H tm vl1 vl2, history_ok n tm H ∧
  log_of rf1 vl1 ∧ log_of rf2 vl2 ∧ good H vl1 ∧ good H vl2 ∧
  safe_log n H (currentTerm rf1) (take (Z.to_nat (commitIndex rf1)) vl1) ∧
  safe_log n H (currentTerm rf2) (take (Z.to_nat (commitIndex rf2)) vl2) ∧
  (state rf2 = LEADER → h_leaders H !! currentTerm rf2 = Some vl2).
Proof using Hn H0 H1 H2 Hi Hj.
  destruct (greach_ginv _ _ _ _ H1 (init_ginv _ H0)) as (Ha & Va & Hinv1 & _).
  destruct (greach_ginv _ _ _ _ H2 Hinv1) as (Hb & Vb & Hinv2 & Hs & Hg).
  destruct (ginv_peer _ _ _ _ _ _ Hinv1 Hi) as (Hw1 & _ & _ & _ & Hp1).
  destruct (ginv_peer _ _ _ _ _ _ Hinv2 Hj) as (Hw2 & _ & _ & _ & Hp2).
  assert (∀ rf vl, raft_wf rf → rep rf vl → log_of rf vl) as Hlog.
  { intros rf vl Hw Hr. pose proof (rep_last rf vl (rw_log _ Hw) Hr) as Hl.
    split_and!; try done. rewrite <- Hl. apply Hw. }
  exists Hb, (term_of (g_net G2)), (Va i), (Vb j). split_and!.
  - apply Hinv2.
  - apply Hlog; [done|apply Hp1].
  - apply Hlog; [done|apply Hp2].
  - apply Hg, Hp1.
  - apply Hp2.
  - apply Hs, Hp1.
  - apply Hp2.
  - intros Hl. by apply Hp2.
Qed.

(** Both have committed the entry at an index. *)
Lemma committed_entry rf vl k :
  log_of rf vl → lastIncludedIndex rf < k ≤ commitIndex rf →
  ∃ e, entry_at rf k = Some e ∧ take (Z.to_nat (commitIndex rf)) vl !! Z.to_nat (k - 1) = Some e.
Proof using Type.
  intros (Hr & Hw & Hc & _) Hk. pose proof (rw_lii _ Hw). unfold zlen in Hc.
  destruct (lookup_lt_is_Some_2 vl (Z.to_nat (k - 1)) ltac:(lia)) as [e He]. exists e.
  rewrite (rep_entry rf vl), lookup_take_lt by (done || lia). done.
Qed.

(** A later leader has what was committed. *)
Lemma leader_has_committed :
  state rf2 = LEADER → currentTerm rf1 ≤ currentTerm rf2 →
  commitIndex rf1 ≤ last_index rf2 ∧
  ∀ k, lastIncludedIndex rf1 < k ≤ commitIndex rf1 → lastIncludedIndex rf2 < k →
    entry_at rf2 k = entry_at rf1 k.
Proof using Hn H0 H1 H2 Hi Hj.
  intros Hs HT. destruct two_peers as (H & tm & vl1 & vl2 & Ho & Hl1 & Hl2 & _ & _ & Hs1 & _ & HL).
  pose proof (safe_in_leader n Hn tm H _ _ _ _ Ho Hs1 HT (HL Hs)) as Hp.
  destruct Hl2 as (Hr2 & Hw2 & _ & Hlast2). split.
  - destruct Hl1 as (_ & _ & Hc & _). apply prefix_length in Hp. rewrite length_take in Hp.
    rewrite Hlast2. unfold zlen in *. lia.
  - intros k Hk Hk2. destruct (committed_entry rf1 vl1 k Hl1 Hk) as (e & -> & F).
    rewrite (rep_entry rf2 vl2) by done. by eapply prefix_lookup_Some.
Qed.

(** Logs that have an entry of the same term at an index agree up to it. *)
Lemma logs_match k e1 e2 :
  entry_at rf1 k = Some e1 → entry_at rf2 k = Some e2 → le_Term e1 = le_Term e2 →
  ∀ k', k' ≤ k → lastIncludedIndex rf1 < k' → lastIncludedIndex rf2 < k' →
    entry_at rf1 k' = entry_at rf2 k'.
Proof using Hn H0 H1 H2 Hi Hj.
  intros E1 E2 Ht k' Hk Hk1 Hk2.
  destruct two_peers as (H & tm & vl1 & vl2 & Ho & (Hr1 & Hw1 & _) & (Hr2 & Hw2 & _) & Hg1 & Hg2 & _).
  pose proof (rw_lii _ Hw1). rewrite (rep_entry rf1 vl1) in * by (done || lia).
  rewrite (rep_entry rf2 vl2) in * by (done || lia).
  pose proof (good_agree H vl1 vl2 _ _ _ Hg1 Hg2 E1 E2 Ht) as Heq.
  apply (f_equal (λ l, l !! Z.to_nat (k' - 1))) in Heq. by rewrite !lookup_take_lt in Heq by lia.
Qed.
End two.

(** ** Delivered messages *)

(** The events the group can cause at peer [i]: messages under way, timeouts, and
    the calls of a service that snapshots and acknowledges only what was
    committed. *)
Definition group_event G (i : Z) rf (ev : event (C:=C)) : Prop :=
  match ev with
  | EvVote args _ => (i, args) ∈ n_calls (g_net G)
  | EvAppend args _ => (i, args) ∈ g_appends G
  | EvInstall args _ => (i, args) ∈ g_installs G
  | EvVoteReply args reply => rva_CandidateId args = i ∧ ∃ v, (v, args, reply) ∈ n_replies (g_net G)
  | EvPrepare j => 0 ≤ j < n ∧ j ≠ i
  | EvAppendReply j args reply => aea_LeaderId args = i ∧ (j, args, reply) ∈ g_areplies G
  | EvInstallReply j args ok reply => isa_LeaderId args = i ∧
      if ok then (j, args, reply) ∈ g_ireplies G else (j, args) ∈ g_installs G
  | EvCondInstall lit lii data => (i, (lit, lii, data)) ∈ g_offers G
  | EvSnapshot target _ => target ≤ commitIndex rf
  | EvDone commit => commit ≤ commitIndex rf
  | EvTick _ _ | EvStart _ | EvTake | EvKill => True
  end.

Lemma group_event_ok G H V i rf ev :
  ginv G H V → g_peer G !! i = Some rf → group_event G i rf ev → event_ok rf ev.
Proof using Hn.
  intros Hinv Hi Hev. destruct (ginv_peer _ _ _ _ _ _ Hinv Hi) as (Hw & _ & Hp & _ & Hpi).
  destruct ev; simpl in *; try done.
  - by eapply append_event.
  - lia.
  - destruct Hev as [_ Hin]. apply (gi_areply _ _ _ _ Hinv) in Hin as [Hj _]. simpl in Hj. lia.
  - destruct Hev as [_ Hin]. destruct ok;
      [apply (gi_ireply _ _ _ _ Hinv) in Hin as [Hj _]|apply (gi_install _ _ _ _ Hinv) in Hin as [Hj _]]; lia.
  - destruct (gi_offer _ _ _ _ Hinv _ Hev) as (T & rf0 & Hi0 & HT & p & Hs & _ & <-).
    change (n_peer (g_net G)) with (g_peer G) in Hi0. assert (rf0 = rf) as -> by congruence.
    eapply snapshot_term; [apply Hinv|by apply raft_term_nonneg|by eapply safe_mono].
Qed.
End safety.

(** ** Theorems *)

(** C7: state machine safety.  The peers of a group implement one log that only
    grows: at any two moments of a run there are logs [l1] and [l2], the first a
    beginning of the second, such that whatever any peer has committed by then,
    in its log or in its snapshot, and whatever its applier hands to the service,
    is at its place in that log, whatever was lost, delayed, repeated or
    reordered and whoever crashed and restarted. *)
Theorem state_machine_safety {C} `{Codec (Z * Z * list (LogEntry C) * Z * Z)} (n : Z)
    (G0 G1 G2 : group (C:=C)) (Hn : 0 ≤ n) (H0 : group_init n G0)
    (H1 : rtc (gstep n) G0 G1) (H2 : rtc (gstep n) G1 G2) :
  ∃ l1 l2, l1 `prefix_of` l2 ∧ group_log G1 l1 ∧ group_log G2 l2.
Proof.
  destruct (greach_ginv n Hn _ _ _ _ H1 (init_ginv n _ H0)) as (Ha & Va & Hinv1 & _).
  destruct (greach_ginv n Hn _ _ _ _ H2 Hinv1) as (Hb & Vb & Hinv2 & Hs & _).
  destruct (group_log_extends n Hn _ _ _ [] 0 Hinv1) as (l1 & [T Hl1] & _ & Hg1); [by left|].
  destruct (group_log_extends n Hn _ _ _ l1 T Hinv2) as (l2 & _ & Hp & Hg2); [by apply Hs|].
  by exists l1, l2.
Qed.

(** Committed under the first leader, and later under the second. *)
Lemma state_machine_safety_witness :
  ∃ e1 e2, entry_at (peer_of group_committed 0) 1 = Some e1 ∧
    entry_at (peer_of group_replaced 2) 1 = Some e1 ∧ entry_at (peer_of group_replaced 2) 2 = Some e2.
Proof.
  destruct (state_machine_safety 3 group3 group_committed group_replaced ltac:(lia) group3_init
    (after_sound _ _) (after_sound _ _)) as (l1 & l2 & Hp & Hg1 & Hg2).
  pose proof (Hg1 0 (peer_of group_committed 0) ltac:(vm_compute; reflexivity)) as [_ _ A1 _].
  pose proof (Hg2 2 (peer_of group_replaced 2) ltac:(vm_compute; reflexivity)) as [_ _ A2 _].
  assert (entry_at (peer_of group_committed 0) 1 = Some (mkLogEntry 1 (Some 10) 1)) as E1
    by (vm_compute; reflexivity).
  exists (mkLogEntry 1 (Some 10) 1), (mkLogEntry 2 (Some 20) 2). split_and!; [exact E1| |vm_compute; reflexivity].
  rewrite A2 by (vm_compute; split; done). rewrite A1 in E1 by (vm_compute; split; done).
  eapply prefix_lookup_Some; [exact E1|exact Hp].
Defined.

(** C8: leader completeness.  What any peer has committed at some moment is in
    the log (or the snapshot) of every peer that leads the same or a later term
    at that moment or afterwards. *)
Theorem leader_completeness {C} `{Codec (Z * Z * list (LogEntry C) * Z * Z)} (n : Z)
    (G0 G1 G2 : group (C:=C)) (i j : Z) (rf1 rf2 : Raft C) (Hn : 0 ≤ n) (H0 : group_init n G0)
    (H1 : rtc (gstep n) G0 G1) (H2 : rtc (gstep n) G1 G2)
    (Hi : g_peer G1 !! i = Some rf1) (Hj : g_peer G2 !! j = Some rf2)
    (Hs : state rf2 = LEADER) (HT : currentTerm rf1 ≤ currentTerm rf2) :
  commitIndex rf1 ≤ last_index rf2 ∧
  ∀ k, lastIncludedIndex rf1 < k ≤ commitIndex rf1 → lastIncludedIndex rf2 < k →
    entry_at rf2 k = entry_at rf1 k.
Proof. by eapply leader_has_committed. Qed.

Lemma leader_completeness_witness :
  entry_at (peer_of group_replaced 1) 1 = entry_at (peer_of group_committed 0) 1.
Proof.
  apply (leader_completeness 3 group3 group_committed group_replaced 0 1
    (peer_of group_committed 0) (peer_of group_replaced 1) ltac:(lia) group3_init
    (after_sound _ _) (after_sound _ _)); vm_compute; try reflexivity; try done; split; done.
Defined.

(** C17: log matching.  If two peers, seen at any two moments, have entries of the
    same term at an index, then their logs are the same up to that index, as far
    as neither has replaced it by a snapshot. *)
Theorem log_matching {C} `{Codec (Z * Z * list (LogEntry C) * Z * Z)} (n : Z)
    (G0 G1 G2 : group (C:=C)) (i j k : Z) (rf1 rf2 : Raft C) (e1 e2 : LogEntry C)
    (Hn : 0 ≤ n) (H0 : group_init n G0)
    (H1 : rtc (gstep n) G0 G1) (H2 : rtc (gstep n) G1 G2)
    (Hi : g_peer G1 !! i = Some rf1) (Hj : g_peer G2 !! j = Some rf2)
    (E1 : entry_at rf1 k = Some e1) (E2 : entry_at rf2 k = Some e2) (HT : le_Term e1 = le_Term e2) :
  ∀ k', k' ≤ k → lastIncludedIndex rf1 < k' → lastIncludedIndex rf2 < k' →
    entry_at rf1 k' = entry_at rf2 k'.
Proof. by eapply logs_match. Qed.

Lemma log_matching_witness :
  entry_at (peer_of group_replaced 1) 1 = entry_at (peer_of group_replaced 2) 1.
Proof.
  apply (log_matching 3 group3 group_replaced group_replaced 1 2 2 (peer_of group_replaced 1)
    (peer_of group_replaced 2) (mkLogEntry 2 (Some 20) 2) (mkLogEntry 2 (Some 20) 2) ltac:(lia) group3_init
    group_replaced_reach (rtc_refl _ _));
    vm_compute; try reflexivity; try done.
Defined.

(** C16: no message of the group, no timeout and no call of a service that
    snapshots and acknowledges only what was committed makes a peer panic: what a
    peer sends is what its receivers expect ([event_ok]), so that every critical
    section returns in a well-formed state. *)
Theorem group_no_panic {C} `{Codec (Z * Z * list (LogEntry C) * Z * Z)} (n i : Z)
    (G0 G : group (C:=C)) (rf : Raft C) (ev : event (C:=C)) (Hn : 0 ≤ n) (H0 : group_init n G0)
    (H1 : rtc (gstep n) G0 G) (Hi : g_peer G !! i = Some rf) (Hev : group_event n G i rf ev) :
  event_ok rf ev ∧ ∃ rf', run rf ev = Ret rf' ∧ raft_wf rf'.
Proof.
  destruct (greach_ginv n Hn _ _ _ _ H1 (init_ginv n _ H0)) as (Ha & Va & Hinv & _).
  pose proof (group_event_ok n Hn _ _ _ _ _ _ Hinv Hi Hev) as Hok. split; [done|].
  destruct (ginv_peer _ _ _ _ _ _ Hinv Hi) as (Hw & _). by apply run_safe.
Qed.

(** The first call of the second leader is still under way. *)
Lemma group_no_panic_witness :
  ∃ args, (2, args) ∈ g_appends group_replaced ∧
    ∃ rf', run (peer_of group_replaced 2) (EvAppend args 6000) = Ret rf' ∧ raft_wf rf'.
Proof.
  destruct (g_appends group_replaced !! 2%nat) as [[d args]|] eqn:E; [|vm_compute in E; discriminate E].
  assert (d = 2) as -> by (vm_compute in E; injection E as <- _; reflexivity).
  exists args. assert ((2, args) ∈ g_appends group_replaced) as Hin by (by eapply list_elem_of_lookup_2).
  split; [exact Hin|].
  exact (proj2 (group_no_panic 3 2 group3 group_replaced (peer_of group_replaced 2) (EvAppend args 6000)
    ltac:(lia) group3_init
    group_replaced_reach
    ltac:(vm_compute; reflexivity) Hin)).
Defined.
