(* ===== verification/RaftBackup.v ===== *)
(** * How a leader brings a follower's log up to date

    A leader and one follower exchange messages, none of which is lost
    ([replication_round]).  After a rejected AppendEntries the leader moves the
    follower's next index ([handleLogInconsistency]); in a group the search ends
    after a bounded number of rounds, with the follower's log in agreement or a
    snapshot ([backup_terminates]), unless the follower lost a snapshot it had
    acknowledged: then it never ends ([lost_snapshot_not_resent]). *)

From S2P Require Import Prelude Persister RaftApi Raft RaftLog RaftAppend RaftSteps RaftSpec RaftOps.
From S2P Require Import RaftElection RaftHistory RaftRep RaftGroup RaftGroupSteps RaftGroupRun RaftSafety.
Import Raft.

Section backup.
Context {C : Type} `{Codec (Z * Z * list (LogEntry C) * Z * Z)}.
Implicit Types (rf L f : Raft C).

(** The scan finds the last position of the leader's log with the
    conflicting term. *)
Lemma handleLogInconsistency_scan_spec rf xt xi n :
  (n ≤ length (Log rf))%nat →
  ∃ t, handleLogInconsistency_scan rf xt xi n = Ret t ∧
    (t = xi ∨ ∃ j : nat, (0 < j < n)%nat ∧ term_at rf j = xt ∧
                t = lastIncludedIndex rf + Z.of_nat j + 1).
Proof.
  induction n as [|[|n] IH]; intros Hn; [by eexists; split; [done|left]..|].
  change (handleLogInconsistency_scan rf xt xi (S (S n))) with
    ('(_, ei, et) ← getLogAt rf (Z.of_nat (S n));
     if et =? xt then mret (ei + 1) else handleLogInconsistency_scan rf xt xi (S n)).
  rewrite getLogAt_in by lia. rewrite bind_Ret. case_test.
  - eexists. split; [done|]. right. exists (S n). split_and!; [lia|lia|done|done].
  - destruct IH as (t & -> & Ht); [lia|]. eexists. split; [done|].
    destruct Ht as [?|(j & ? & ? & ?)]; [by left|]. right. exists j. split_and!; [lia|lia|done..].
Qed.

(** What the leader does with a reply that reports a missing entry. *)
Lemma handleLogInconsistency_missing rf i reply m :
  raft_wf rf → 0 ≤ i < peers rf → aer_XTerm reply = -1 → matchIndex rf !! Z.to_nat i = Some m →
  ∃ ni, handleLogInconsistency rf i reply = Ret (set_nextIndex ni rf) ∧
    zlen ni = zlen (nextIndex rf) ∧
    ni !! Z.to_nat i = Some (if aer_XIndex reply <=? m then m + 1 else aer_XIndex reply).
Proof.
  intros Hw Hi Hx Hm. pose proof Hw as [_ Hn Hmt _ _ _ _]. unfold handleLogInconsistency.
  rewrite Hx, Z.eqb_refl, set_index_Ret, bind_Ret by lia.
  assert ((Z.to_nat i < length (nextIndex rf))%nat) as Hlt by (unfold zlen in Hn; lia).
  rewrite (proj2 (index_Ret (<[Z.to_nat i := aer_XIndex reply]> (nextIndex rf)) i (aer_XIndex reply))).
  2: { split; [lia|]. by rewrite list_lookup_insert_eq. }
  rewrite bind_Ret, (proj2 (index_Ret (matchIndex rf) i m)), bind_Ret by (split; [lia|done]).
  case_test.
  - rewrite set_index_Ret, bind_Ret by zlen_lia. eexists. split; [done|]. split; [zlen_lia|].
    rewrite list_lookup_insert_eq; [done|]. by rewrite length_insert.
  - eexists. split; [done|]. split; [zlen_lia|]. by rewrite list_lookup_insert_eq.
Qed.

(** ** Rounds *)

(** What a round consists of. *)
Inductive exchange :=
| XEntries (args : AppendEntriesArgs C) (reply : AppendEntriesReply)
| XSnapshot (args : InstallSnapshotArgs)
| XNothing.

(** The service installs the snapshot its peer hands to it. *)
Definition install_offer f (o : option (ApplyMsg C)) : Go (Raft C) :=
  match o with
  | Some m =>
      '(f1, _) ← CondInstallSnapshot f (SnapshotTerm m) (SnapshotIndex m) (RaftApi.Snapshot m); mret f1
  | None => mret f
  end.

(** One round of [leaderAppendEntries] for peer [i]: the message, its handler, and
    the reply. *)
Definition replication_round L f (i now : Z) : Go (Raft C * Raft C * exchange) :=
  '(L1, out) ← leader_prepare L i;
  match out with
  | SendEntries args =>
      '(f1, reply) ← AppendEntries f args now;
      L2 ← handle_append_reply L1 i args reply;
      mret (L2, f1, XEntries args reply)
  | SendSnapshot args =>
      let '(f1, reply, o) := InstallSnapshot f args now in
      L2 ← handle_install_reply L1 i args true reply;
      f2 ← install_offer f1 o;
      mret (L2, f2, XSnapshot args)
  | SendNothing => mret (L1, f, XNothing)
  end.

Fixpoint replication_rounds (k : nat) L f (i now : Z) : Go (Raft C * Raft C * list exchange) :=
  match k with
  | O => mret (L, f, [])
  | S k =>
      '(L1, f1, x) ← replication_round L f i now;
      '(L2, f2, xs) ← replication_rounds k L1 f1 i now;
      mret (L2, f2, x :: xs)
  end.

(** The follower refused entries. *)
Definition rejected (x : exchange) : Prop :=
  match x with XEntries _ reply => aer_Success reply = false | _ => False end.

(** A leader [L'] that differs from [L] in what it knows of peers other than [i],
    and of [i] in the next index only. *)
Record same_leader L L' (i : Z) : Prop := {
  sl_wf : raft_wf L';
  sl_log : Log L' = Log L;
  sl_lii : lastIncludedIndex L' = lastIncludedIndex L;
  sl_lit : lastIncludedTerm L' = lastIncludedTerm L;
  sl_state : state L' = state L;
  sl_term : currentTerm L' = currentTerm L;
  sl_me : me L' = me L;
  sl_peers : peers L' = peers L;
  sl_match : matchIndex L' !! Z.to_nat i = matchIndex L !! Z.to_nat i
}.

(** The entries the leader sends from [next] on. *)
Definition entries_from L (next pt : Z) : AppendEntriesArgs C :=
  mkAppendEntriesArgs (currentTerm L) (me L) (next - 1) pt
    (drop (Z.to_nat (next - lastIncludedIndex L)) (Log L)) (commitIndex L).

Lemma prepare_view L i next :
  raft_wf L → state L = LEADER → 0 ≤ i < peers L → i ≠ me L →
  nextIndex L !! Z.to_nat i = Some next → lastIncludedIndex L < next →
  ∃ L1 pt, leader_prepare L i = Ret (L1, SendEntries (entries_from L next pt)) ∧
    same_leader L L1 i ∧ nextIndex L1 !! Z.to_nat i = Some next ∧
    ((next - 1 ≤ last_index L ∧ pt = term_at L (Z.to_nat (next - 1 - lastIncludedIndex L))) ∨
     (last_index L < next - 1 ∧ pt = -1)).
Proof.
  intros Hw Hst Hi Hne Hnx Hlt. pose proof Hw as [Hl Hn Hm Hme Hii Hap Hc].
  destruct (leader_prepare_cases L i Hw Hi) as (L1 & out & next' & E & Hw1 & _ & Hx & Hcase).
  assert (next' = next) as -> by congruence. destruct Hcase as [[? _]|[(_ & ? & _)|(_ & _ & pt & -> & Hpt)]]; [done|lia|].
  exists L1, pt. split; [done|]. revert E. unfold leader_prepare, prepare_entries.
  rewrite (proj2 (index_Ret _ i next)), bind_Ret by (split; [lia|done]). case_test; [lia|].
  intros E. inv_bind E. destruct x as [[? ?] ?]. do 2 inv_bind E. rewrite !set_index_Ret, !bind_Ret in E by lia.
  rewrite bool_decide_eq_true_2 in E by done. injection E as <- _.
  split; [|by split; [simpl; rewrite list_lookup_insert_ne by lia|]].
  split; try done. simpl. by rewrite list_lookup_insert_ne by lia.
Qed.

(** The next index after a message that did not match: where the follower's log
    ends, but after what it acknowledged; or where the conflicting term begins on
    the follower, or ends on the leader. *)
Definition next_after L (m : Z) (reply : AppendEntriesReply) (next : Z) : Prop :=
  if aer_XTerm reply =? -1 then next = if aer_XIndex reply <=? m then m + 1 else aer_XIndex reply
  else next = aer_XIndex reply ∨
    ∃ j : nat, (0 < j < length (Log L))%nat ∧ term_at L j = aer_XTerm reply ∧
      next = lastIncludedIndex L + Z.of_nat j + 1.

Lemma inconsistency_view L i reply m :
  raft_wf L → 0 ≤ i < peers L → matchIndex L !! Z.to_nat i = Some m →
  ∃ ni next, handleLogInconsistency L i reply = Ret (set_nextIndex ni L) ∧
    zlen ni = zlen (nextIndex L) ∧ ni !! Z.to_nat i = Some next ∧ next_after L m reply next.
Proof.
  intros Hw Hi Hm. pose proof Hw as [Hl Hn Hmt _ _ _ _]. unfold next_after. case_test.
  - destruct (handleLogInconsistency_missing L i reply m Hw Hi Htest Hm) as (ni & -> & ? & ?). eauto 10.
  - unfold handleLogInconsistency. rewrite (proj2 (Z.eqb_neq _ _)) by done.
    destruct (handleLogInconsistency_scan_spec L (aer_XTerm reply) (aer_XIndex reply)
                (length (Log L)) ltac:(lia)) as (t & -> & Hscan).
    rewrite bind_Ret, set_index_Ret, bind_Ret by lia. eexists _, t. split; [done|].
    split; [zlen_lia|]. by rewrite list_lookup_insert_eq by (unfold zlen in *; lia).
Qed.

(** A message that does not match. *)
Lemma round_rejected L f i now next m pt L1 :
  state L = LEADER → 0 ≤ i < peers L → matchIndex L !! Z.to_nat i = Some m →
  raft_wf f → currentTerm f ≤ currentTerm L →
  leader_prepare L i = Ret (L1, SendEntries (entries_from L next pt)) → same_leader L L1 i →
  ¬ prev_matches f (entries_from L next pt) →
  ∃ L' reply next', replication_round L f i now =
      Ret (L', append_enter f (entries_from L next pt) now, XEntries (entries_from L next pt) reply) ∧
    mismatch_reply f (entries_from L next pt) reply ∧ same_leader L L' i ∧
    nextIndex L' !! Z.to_nat i = Some next' ∧ next_after L m reply next'.
Proof.
  intros Hst Hi Hm Hfw Ht E [Hw1 EL EI ET ES ECt EM EP EX] Hno. set (args := entries_from L next pt) in *.
  unfold replication_round. rewrite E, bind_Ret.
  destruct (AppendEntries_cases f args now (rw_log _ Hfw)) as (f' & reply & -> & Hcase). rewrite bind_Ret.
  assert (aea_Term args = currentTerm L) as Hat by done.
  destruct Hcase as [(? & _)|[(_ & _ & -> & Hrep)|(_ & ? & _)]]; [lia| |done].
  pose proof Hrep as (Hrt & Hrs & Hri & _). unfold handle_append_reply.
  rewrite Hrt, Hat, ECt, Z.ltb_irrefl, ES, Hst, Z.eqb_refl, Hrs, Hri. cbn [bool_decide negb orb].
  rewrite bool_decide_eq_true_2 by done. cbn [negb orb].
  destruct (inconsistency_view L1 i reply m) as (ni & next' & -> & Hlen & Hnext & Hafter); [done|by rewrite EP|by rewrite EX|].
  rewrite bind_Ret. destruct (commit_counted_wf (set_nextIndex ni L1)) as (n & -> & Hw2).
  { pose proof Hw1 as [? ? ? ? ? ? ?]. apply (raft_wf_frame L1); simpl; done || lia. }
  rewrite bind_Ret. eexists _, reply, next'. split; [done|]. split; [done|]. split; [by split|].
  split; [done|]. revert Hafter. unfold next_after. rewrite EL, EI. case_test; [done|].
  intros [?|(j & ? & Hj & ?)]; [by left|right]. exists j. split; [done|]. split; [|done]. rewrite <- Hj.
  symmetry. by apply term_at_ext.
Qed.

Lemma append_enter_keeps f args now :
  raft_wf f → currentTerm f ≤ aea_Term args →
  let f' := append_enter f args now in
  raft_wf f' ∧ currentTerm f' = aea_Term args ∧ Log f' = Log f ∧ lastIncludedIndex f' = lastIncludedIndex f ∧
  lastIncludedTerm f' = lastIncludedTerm f ∧ last_index f' = last_index f.
Proof.
  intros Hw Ht. destruct (append_enter_fields f args now) as (? & ? & ? & _).
  split_and!; [by apply append_enter_wf|by apply append_enter_term|done..|by apply last_index_frame].
Qed.

(** ** A follower that lost a snapshot it acknowledged *)




(** ** The search *)
Notation hist := (hist (C:=C)).
Implicit Types (hs : hist) (vL vf : list (LogEntry C)).

(** A leader and a follower with their whole logs [vL] and [vf], as they are in a
    group; the follower has not lost what it acknowledged. *)
Record searching hs L f (i : Z) vL vf : Prop := {
  se_wf : raft_wf L;
  se_leader : state L = LEADER;
  se_peer : 0 ≤ i < peers L;
  se_other : i ≠ me L;
  se_fwf : raft_wf f;
  se_term : currentTerm f ≤ currentTerm L;
  se_rep : rep L vL;
  se_good : good hs vL;
  se_frep : rep f vf;
  se_fgood : good hs vf;
  se_snap : take (Z.to_nat (lastIncludedIndex f)) vf `prefix_of` vL;
  se_match : ∃ m, matchIndex L !! Z.to_nat i = Some m ∧ m ≤ last_index f ∧
    (lastIncludedIndex f < m → lastIncludedIndex L ≤ m →
       m ≤ last_index L ∧ vterm vL (Z.to_nat m) = vterm vf (Z.to_nat m))
}.

(** If a log has an entry of a term, another one that has a later entry of that
    term has it too. *)
Lemma good_order hs l l' (k j : nat) e e' :
  good hs l → good hs l' → l !! k = Some e → l' !! j = Some e' → le_Term e = le_Term e' → (k ≤ j)%nat →
  take (S k) l = take (S k) l'.
Proof.
  intros Hg Hg' He He' Ht Hkj. destruct (Hg k e He) as (T & HT & Hp). destruct (Hg' j e' He') as (T' & HT' & Hp').
  rewrite <- Ht in HT'. simplify_eq. apply lookup_lt_Some in He, He'. apply (prefix_eq _ _ T); [done| |].
  - etrans; [|exact Hp']. apply take_prefix_mono. lia.
  - rewrite !length_take. lia.
Qed.

(** The places where leader and follower are known to agree. *)
Lemma search_matched hs L f i vL vf m p pt :
  searching hs L f i vL vf → matchIndex L !! Z.to_nat i = Some m → lastIncludedIndex L ≤ p →
  p = lastIncludedIndex f ∨ p = m ∧ lastIncludedIndex f < m →
  (p ≤ last_index L ∧ pt = term_at L (Z.to_nat (p - lastIncludedIndex L)) ∨ last_index L < p ∧ pt = -1) →
  prev_matches f (entries_from L (p + 1) pt).
Proof.
  intros [Hw _ _ _ Hfw _ HrL HgL Hrf Hgf Hsn (m' & Hm' & Hmf & Hmt)] Hm Hp Hcase Hpt.
  assert (m' = m) as -> by congruence. pose proof (rw_log _ Hw) as Hl. pose proof (rw_log _ Hfw) as Hfl.
  pose proof (rep_last f vf Hfl Hrf) as Hlf. pose proof (rep_last L vL Hl HrL) as HlL.
  pose proof (rp_lii _ _ Hrf) as Hlii. pose proof (last_index_ge f Hfl).
  assert (p ≤ last_index L ∧ vterm vL (Z.to_nat p) = vterm vf (Z.to_nat p) ∧
    lastIncludedIndex f ≤ p ≤ last_index f) as (HpL & Hv & Hpf).
  { destruct Hcase as [->|[-> Hlt]]; [|destruct (Hmt Hlt Hp); split_and!; done || lia].
    pose proof (prefix_length _ _ Hsn) as Hlen. rewrite length_take in Hlen. unfold zlen in *.
    split_and!; [lia| |lia|lia]. rewrite (prefix_vterm _ _ _ Hsn) by (rewrite length_take; lia).
    symmetry. apply prefix_vterm; [apply prefix_take|rewrite length_take; lia]. }
  destruct Hpt as [[_ ->]|[? _]]; [|lia]. split; simpl; rewrite Z.add_simpl_r; [lia|].
  rewrite (rep_term_index f vf), (rep_term_index L vL) by (done || lia). done.
Qed.

(** A rejection moves the next index back, or forward to a place where the logs
    agree. *)
Lemma search_progress hs L f i vL vf m next pt reply next' :
  searching hs L f i vL vf → matchIndex L !! Z.to_nat i = Some m → lastIncludedIndex L < next →
  (next - 1 ≤ last_index L ∧ pt = term_at L (Z.to_nat (next - 1 - lastIncludedIndex L)) ∨
   last_index L < next - 1 ∧ pt = -1) →
  ¬ prev_matches f (entries_from L next pt) → mismatch_reply f (entries_from L next pt) reply →
  next_after L m reply next' →
  (next - 1 < lastIncludedIndex f ∧ (next' - 1 = lastIncludedIndex f ∨ next' - 1 = m ∧ lastIncludedIndex f < m)) ∨
  (lastIncludedIndex f < next - 1 ∧ next' < next).
Proof.
  intros Hse Hm Hnl Hpt Hno (_ & _ & _ & Hx1 & Hx2) Hafter.
  assert (next - 1 ≠ lastIncludedIndex f) as Hne.
  { intros Heq. apply Hno. replace next with (next - 1 + 1) by lia.
    eapply search_matched; [done..|lia|by left|]. by replace (next - 1 + 1 - 1) with (next - 1) by lia. }
  pose proof Hse as [Hw _ _ _ Hfw _ HrL HgL Hrf Hgf Hsn (m' & Hm' & Hmf & Hmt)].
  assert (m' = m) as -> by congruence. pose proof (rw_log _ Hw) as Hl. pose proof (rw_log _ Hfw) as Hfl.
  pose proof (last_index_ge f Hfl). pose proof (rp_lii _ _ Hrf) as Hlii. pose proof (rp_lii _ _ HrL) as HliL.
  unfold next_after in Hafter. simpl in Hx1, Hx2. destruct (Z.eqb_spec (aer_XTerm reply) (-1)) as [Hxt|Hxt].
  - destruct (Hx1 Hxt) as [[? Hxi]|[? Hxi]]; rewrite Hxi in Hafter.
    + left. split; [lia|]. revert Hafter. case_test; intros ->; [right|left]; lia.
    + right. revert Hafter. case_test; lia.
  - destruct (Hx2 Hxt) as (Hxf & Hxn & Hxi). right. split; [lia|].
    destruct Hafter as [->|(j & Hj & Htj & ->)]; [lia|].
    destruct (decide (lastIncludedIndex L + Z.of_nat j < next - 1)) as [|Hge]; [lia|exfalso].
    rewrite (rep_term L vL) in Htj by (done || lia). rewrite (rep_term_index f vf) in Hxf by (done || lia).
    pose proof (rep_length L vL Hl HrL) as HlenL. pose proof (rep_last f vf Hfl Hrf) as Hlf. unfold zlen in *.
    set (J := (Z.to_nat (lastIncludedIndex L) + j)%nat) in *.
    destruct (Z.to_nat (next - 1)) as [|k] eqn:Hk; [lia|]. destruct J as [|J'] eqn:HJ; [lia|].
    destruct (lookup_lt_is_Some_2 vf k ltac:(lia)) as [e He]. destruct (lookup_lt_is_Some_2 vL J' ltac:(lia)) as [e' He'].
    simpl in Htj, Hxf. rewrite He' in Htj. rewrite He in Hxf.
    pose proof (good_order hs vf vL k J' e e' Hgf HgL He He' ltac:(congruence) ltac:(lia)) as Heq.
    apply (f_equal (λ l, l !! k)) in Heq. rewrite !lookup_take_lt, He in Heq by lia.
    destruct Hpt as [[Hb ->]|[Hb _]]; [|rewrite (rep_last L vL) in Hb by done; unfold zlen in Hb; lia].
    apply Hxn. rewrite (rep_term_index L vL) by (done || lia). rewrite Hk. simpl. by rewrite <- Heq.
Qed.

(** A message that matches leaves the follower with the whole log of the leader. *)
Lemma matched_index hs L f i vL vf next pt :
  searching hs L f i vL vf → lastIncludedIndex L < next →
  (next - 1 ≤ last_index L ∧ pt = term_at L (Z.to_nat (next - 1 - lastIncludedIndex L)) ∨
   last_index L < next - 1 ∧ pt = -1) →
  prev_matches f (entries_from L next pt) →
  next - 1 ≤ last_index L ∧ vterm vf (Z.to_nat (next - 1)) = vterm vL (Z.to_nat (next - 1)).
Proof.
  intros [Hw _ _ _ Hfw _ HrL _ Hrf _ _ _] Hnl Hpt [Hpb Hpe]. simpl in Hpb, Hpe.
  pose proof (rw_log _ Hw) as Hl. pose proof (rw_log _ Hfw) as Hfl.
  destruct Hpt as [[? ->]|[? ->]].
  - by rewrite (rep_term_index f vf), (rep_term_index L vL) in Hpe by (done || lia).
  - exfalso. pose proof (term_at_nonneg f (Z.to_nat (next - 1 - lastIncludedIndex f)) Hfl) as Hnn.
    unfold last_index, zlen in *. lia.
Qed.

Lemma accepted_log hs L f i vL vf next pt now np k :
  searching hs L f i vL vf → lastIncludedIndex L < next →
  (next - 1 ≤ last_index L ∧ pt = term_at L (Z.to_nat (next - 1 - lastIncludedIndex L)) ∨
   last_index L < next - 1 ∧ pt = -1) →
  prev_matches f (entries_from L next pt) →
  let f' := append_accept f (entries_from L next pt) now np in
  lastIncludedIndex f' < k → lastIncludedIndex L < k ≤ last_index L → entry_at f' k = entry_at L k.
Proof.
  intros Hse Hnl Hpt Hpm f' Hkf HkL. destruct (matched_index _ _ _ _ _ _ _ _ Hse Hnl Hpt Hpm) as [Hnb Hv].
  pose proof Hse as [Hw _ _ _ Hfw _ HrL HgL Hrf Hgf _ _]. set (args := entries_from L next pt) in *.
  pose proof (rw_log _ Hw) as Hl. pose proof (rw_log _ Hfw) as Hfl.
  pose proof (rep_last f vf Hfl Hrf) as Hlf. pose proof (rep_last L vL Hl HrL) as HlL.
  pose proof (rp_lii _ _ Hrf) as Hlii. pose proof (rp_lii _ _ HrL) as HliL. destruct Hpm as [Hpb Hpe] eqn:Hpm'.
  simpl in Hpb. assert (rep f' (take (Z.to_nat (next - 1)) vf ++ merge (drop (Z.to_nat (next - 1)) vf) (aea_Entries args))) as Hrep.
  { destruct (append_enter_fields f args now) as (_ & ? & ? & _).
    apply (rep_merged f f' args vf Hfl Hrf Hpm); unfold f', append_accept; by destruct np. }
  assert (aea_Entries args = drop (Z.to_nat (next - 1)) vL) as Hes.
  { simpl. replace (Z.to_nat (next - lastIncludedIndex L)) with (1 + Z.to_nat (next - 1 - lastIncludedIndex L))%nat by lia.
    rewrite <- drop_drop, (rp_log _ _ HrL), drop_drop. f_equal. lia. }
  rewrite Hes in Hrep. assert (∃ vf', rep f' vf' ∧ vL `prefix_of` vf') as (vf' & Hrf' & Hpre).
  { unfold zlen in *. destruct (merge_good hs vf vL (Z.to_nat (next - 1)) Hgf HgL) as [[? Heq]|[_ Heq]]; try lia.
    - apply (good_agree_at hs); done || lia.
    - rewrite Heq in Hrep. by exists vf.
    - rewrite Heq in Hrep. by exists vL. }
  rewrite (rep_entry f' vf'), (rep_entry L vL) by (done || lia).
  destruct (lookup_lt_is_Some_2 vL (Z.to_nat (k - 1))) as [e He]; [unfold zlen in *; lia|].
  rewrite He. by eapply prefix_lookup_Some.
Qed.

Lemma round_accepted hs L f i now vL vf next pt L1 :
  searching hs L f i vL vf → lastIncludedIndex L < next →
  leader_prepare L i = Ret (L1, SendEntries (entries_from L next pt)) → same_leader L L1 i →
  (next - 1 ≤ last_index L ∧ pt = term_at L (Z.to_nat (next - 1 - lastIncludedIndex L)) ∨
   last_index L < next - 1 ∧ pt = -1) →
  prev_matches f (entries_from L next pt) →
  ∃ L' f' reply, replication_round L f i now = Ret (L', f', XEntries (entries_from L next pt) reply) ∧
    aer_Success reply = true ∧ matchIndex L' !! Z.to_nat i = Some (last_index L) ∧
    ∀ k, lastIncludedIndex f' < k → lastIncludedIndex L < k ≤ last_index L → entry_at f' k = entry_at L k.
Proof.
  intros Hse Hnl E [Hw1 EL EI ET ES ECt EM EP EX] Hpt Hpm.
  destruct (matched_index _ _ _ _ _ _ _ _ Hse Hnl Hpt Hpm) as [Hnb _].
  pose proof Hse as [Hw Hst Hi _ Hfw Ht _ _ _ _ _ _]. pose proof (rw_lii _ Hw) as Hlii. set (args := entries_from L next pt) in *.
  unfold replication_round. rewrite E, bind_Ret.
  destruct (AppendEntries_cases f args now (rw_log _ Hfw)) as (f' & reply & -> & Hcase). rewrite bind_Ret.
  assert (aea_Term args = currentTerm L) as Hat by done.
  destruct Hcase as [(? & _)|[(_ & ? & _)|(_ & _ & -> & np & -> & _)]]; [lia|done|].
  pose proof (rw_match _ Hw1) as Hmz. pose proof (rw_next _ Hw1) as Hnz. unfold handle_append_reply. simpl aer_Term.
  rewrite Hat, ECt, Z.ltb_irrefl, ES, Hst, Z.eqb_refl, bool_decide_eq_true_2 by done. cbn [negb orb aer_Success].
  rewrite set_index_Ret, bind_Ret by (rewrite Hmz, EP; lia).
  set (mi := <[_ := _]> (matchIndex L1)).
  assert (mi !! Z.to_nat i = Some (last_index L)) as Hmi.
  { unfold mi. rewrite list_lookup_insert_eq by (unfold zlen in Hmz; lia). f_equal. simpl. unfold zlen at 1.
    rewrite length_drop. unfold last_index, zlen in *. lia. }
  rewrite (proj2 (index_Ret mi i (last_index L))), bind_Ret by (split; [lia|done]).
  rewrite set_index_Ret, !bind_Ret by lia.
  match goal with |- context [countReplica ?r] => destruct (commit_counted_wf r) as (n & -> & _) end.
  { pose proof Hw1 as [? ? ? ? ? ? ?]. apply (raft_wf_frame L1); simpl; unfold mi; rewrite ?zlen_insert; done || lia. }
  rewrite bind_Ret. eexists _, _, _. split; [done|]. split; [done|]. split; [done|].
  intros k Hkf HkL. by eapply accepted_log.
Qed.

(** A snapshot: the follower has installed it or has committed as much. *)
Lemma round_snapshot L f i now next :
  raft_wf L → state L = LEADER → 0 ≤ i < peers L → raft_wf f → currentTerm f ≤ currentTerm L →
  nextIndex L !! Z.to_nat i = Some next → next ≤ lastIncludedIndex L →
  ∃ L' f' args, replication_round L f i now = Ret (L', f', XSnapshot args) ∧
    lastIncludedIndex L ≤ commitIndex f'.
Proof.
  intros Hw Hst Hi Hfw Ht Hnx Hle.
  destruct (leader_prepare_cases L i Hw Hi) as (L1 & out & next' & E & Hw1 & _ & Hx & Hcase).
  assert (next' = next) as -> by congruence. destruct Hcase as [[? _]|[(_ & _ & ->)|(_ & ? & _)]]; [done| |lia].
  assert (peers L1 = peers L) as HP.
  { revert E. unfold leader_prepare. rewrite (proj2 (index_Ret _ i next)), bind_Ret by (pose proof (rw_next _ Hw); split; [lia|done]).
    case_test; [|lia]. rewrite bool_decide_eq_true_2 by done. by intros [= <-]. }
  unfold replication_round. rewrite E, bind_Ret. set (args := mkInstallSnapshotArgs _ _ _ _ _).
  pose proof (InstallSnapshot_wf f args now Hfw) as Hf1. pose proof (rw_log _ Hw) as Hl.
  assert (0 ≤ lastIncludedTerm L ≤ currentTerm L) as Hlit.
  { pose proof (term_at_bound L 0 Hl (log_length L Hl)). pose proof (term_at_nonneg L 0 Hl (log_length L Hl)). done. }
  assert (currentTerm (InstallSnapshot f args now).1.1 = currentTerm L ∧
    match (InstallSnapshot f args now).2 with
    | Some m => SnapshotTerm m = lastIncludedTerm L ∧ SnapshotIndex m = lastIncludedIndex L
    | None => lastIncludedIndex L ≤ commitIndex (InstallSnapshot f args now).1.1
    end) as [Hct Hm].
  { unfold InstallSnapshot. simpl. rewrite (proj2 (Z.ltb_ge _ _)) by lia.
    destruct (Z.ltb_spec (currentTerm f) (currentTerm L)); case_test; simpl; split; done || lia. }
  destruct (InstallSnapshot f args now) as [[f1 reply] o]. simpl in *.
  destruct (handle_install_reply_wf L1 i args true reply Hw1) as (L2 & -> & _); [lia|]. rewrite bind_Ret.
  destruct o as [m|]; [|by eexists _, _, _].
  destruct Hm as [EmT EmI]. unfold install_offer. rewrite EmT, EmI.
  destruct (CondInstallSnapshot_cases f1 (lastIncludedTerm L) (lastIncludedIndex L) (RaftApi.Snapshot m) Hf1)
    as (f2 & b & -> & _ & Hcase); [lia|]. rewrite !bind_Ret. eexists _, _, _. split; [done|].
  destruct Hcase as [(? & _ & ->)|(_ & _ & _ & _ & _ & ? & _)]; lia.
Qed.

(** How the search ends. *)
Definition caught_up L L' f' (i : Z) (x : exchange) : Prop :=
  match x with
  | XEntries args reply =>
      aer_Success reply = true ∧ matchIndex L' !! Z.to_nat i = Some (last_index L) ∧
      ∀ k, lastIncludedIndex f' < k → lastIncludedIndex L < k ≤ last_index L → entry_at f' k = entry_at L k
  | XSnapshot args => lastIncludedIndex L ≤ commitIndex f'
  | XNothing => False
  end.

(** One round of the search. *)
Lemma search_round hs L f i now vL vf next m :
  searching hs L f i vL vf → nextIndex L !! Z.to_nat i = Some next → matchIndex L !! Z.to_nat i = Some m →
  ∃ L' f' x, replication_round L f i now = Ret (L', f', x) ∧
    (caught_up L L' f' i x ∨
     (rejected x ∧ searching hs L' f' i vL vf ∧ same_leader L L' i ∧
      lastIncludedIndex f' = lastIncludedIndex f ∧
      next - 1 ≠ lastIncludedIndex f ∧ ¬ (next - 1 = m ∧ lastIncludedIndex f < m) ∧
      ∃ next', nextIndex L' !! Z.to_nat i = Some next' ∧
        ((next - 1 < lastIncludedIndex f ∧ (next' - 1 = lastIncludedIndex f ∨ next' - 1 = m ∧ lastIncludedIndex f < m)) ∨
         (lastIncludedIndex f < next - 1 ∧ next' < next)))).
Proof.
  intros Hse Hnx Hm. pose proof Hse as [Hw Hst Hi Hne Hfw Ht HrL HgL Hrf Hgf Hsn Hmm].
  destruct (decide (next ≤ lastIncludedIndex L)) as [Hle|Hgt].
  { destruct (round_snapshot L f i now next Hw Hst Hi Hfw Ht Hnx Hle) as (L' & f' & args & E & ?).
    exists L', f', (XSnapshot args). split; [done|]. by left. }
  destruct (prepare_view L i next Hw Hst Hi Hne Hnx ltac:(lia)) as (L1 & pt & E & Hsl & _ & Hpt).
  destruct (decide (prev_matches f (entries_from L next pt))) as [Hpm|Hno].
  { destruct (round_accepted hs L f i now vL vf next pt L1 Hse ltac:(lia) E Hsl Hpt Hpm) as (L' & f' & reply & Er & ?).
    exists L', f'. eexists. split; [done|]. by left. }
  destruct (round_rejected L f i now next m pt L1 Hst Hi Hm Hfw Ht E Hsl Hno)
    as (L' & reply & next' & Er & Hrep & Hsl' & Hnext & Hafter).
  destruct (append_enter_keeps f (entries_from L next pt) now) as (Hfw' & Hft & HfL & HfI & HfT & Hfi); [done|simpl; lia|].
  eexists _, _, _. split; [exact Er|]. right. split; [apply Hrep|]. pose proof Hsl' as [HwL' HL HI HT HS HC HM HP HX].
  assert (last_index L' = last_index L) as HLi by (by apply last_index_frame).
  split_and!; try done.
  - split; rewrite ?HS, ?HP, ?HM, ?HC, ?HfI; try done; [rewrite Hft; simpl; lia|by eapply rep_frame..|].
    rewrite HX, Hfi, HI, HLi. done.
  - intros Heq. apply Hno. replace next with (next - 1 + 1) by lia.
    apply (search_matched hs L f i vL vf m); [done|done|lia|by left|done].
  - intros Heq. apply Hno. replace next with (next - 1 + 1) by lia.
    apply (search_matched hs L f i vL vf m); [done|done|lia|right; exact Heq|done].
  - exists next'. split; [done|]. apply (search_progress hs L f i vL vf m next pt reply next'); done || lia.
Qed.

(** How many rounds the search takes at most. *)
Definition search_bound f (next : Z) : nat := (Z.to_nat (next - 1 - lastIncludedIndex f) + 2)%nat.

Lemma caught_up_same L1 L L' f' i x : same_leader L L1 i → caught_up L1 L' f' i x → caught_up L L' f' i x.
Proof.
  intros [_ HL HI HT _ _ _ _ _]. assert (∀ k, entry_at L1 k = entry_at L k) as He.
  { intros k. unfold entry_at. by rewrite HL, HI. }
  assert (last_index L1 = last_index L) as Hli by (by apply last_index_frame).
  destruct x as [args reply|args|]; simpl; [|by rewrite HI|done]. rewrite HI, Hli.
  intros (? & ? & Hk). split_and!; [done..|]. intros k ? ?. rewrite <- He. by apply Hk.
Qed.

Lemma same_leader_trans L L1 L2 i : same_leader L L1 i → same_leader L1 L2 i → same_leader L L2 i.
Proof. intros [] []. split; congruence || done. Qed.

(** The end of a search: some rejections, then agreement. *)
Definition search_ends (k : nat) L f (i now : Z) : Prop :=
  ∃ r L' f' xs x, replication_rounds r L f i now = Ret (L', f', xs ++ [x]) ∧ (r ≤ k)%nat ∧
    Forall rejected xs ∧ caught_up L L' f' i x.

Lemma search_one L f i now L' f' x k :
  replication_round L f i now = Ret (L', f', x) → caught_up L L' f' i x → (1 ≤ k)%nat → search_ends k L f i now.
Proof.
  intros E Hc Hk. exists 1%nat, L', f', [], x. cbn [replication_rounds]. rewrite E, !bind_Ret. by split_and!; [..|constructor|].
Qed.

Lemma search_more L f i now L1 f1 x k :
  replication_round L f i now = Ret (L1, f1, x) → rejected x → same_leader L L1 i →
  search_ends k L1 f1 i now → search_ends (S k) L f i now.
Proof.
  intros E Hx Hsl (r & L' & f' & xs & y & Er & Hr & Hxs & Hc). exists (S r), L', f', (x :: xs), y.
  cbn [replication_rounds]. rewrite E, bind_Ret, Er, bind_Ret. split_and!; [done|lia|by constructor|].
  by eapply caught_up_same.
Qed.

Lemma search_terminates hs L f i now vL vf next m :
  searching hs L f i vL vf → nextIndex L !! Z.to_nat i = Some next → matchIndex L !! Z.to_nat i = Some m →
  search_ends (search_bound f next) L f i now.
Proof.
  remember (Z.to_nat (next - 1 - lastIncludedIndex f)) as d eqn:Hd.
  revert L f next Hd. induction (lt_wf d) as [d _ IH]. intros L f next Hd Hse Hnx Hm.
  destruct (search_round hs L f i now vL vf next m Hse Hnx Hm)
    as (L1 & f1 & x & E & [Hc|(Hx & Hse1 & Hsl & HI & Hn1 & Hn2 & next1 & Hnx1 & Hcase)]).
  { eapply search_one; [done..|]. unfold search_bound. lia. }
  assert (matchIndex L1 !! Z.to_nat i = Some m) as Hm1 by (by rewrite (sl_match _ _ _ Hsl)).
  destruct Hcase as [[Hlt Hnext]|[Hgt Hnext]].
  - assert (search_bound f next = 2%nat) as -> by (unfold search_bound; lia).
    eapply search_more; [done..|].
    destruct (search_round hs L1 f1 i now vL vf next1 m Hse1 Hnx1 Hm1)
      as (L2 & f2 & y & E2 & [Hc|(_ & _ & _ & _ & Hn3 & Hn4 & _)]); [by eapply search_one|].
    rewrite HI in Hn3, Hn4. destruct Hnext; lia.
  - assert (search_ends (search_bound f1 next1) L1 f1 i now) as He.
    { eapply IH; [|done..]. rewrite HI. lia. }
    assert (search_bound f next = S (pred (search_bound f next))) as -> by (unfold search_bound; lia).
    eapply search_more; [done..|]. destruct He as (r & L' & f' & xs & y & ? & ? & ?).
    exists r, L', f', xs, y. split; [done|]. split; [|done]. unfold search_bound in *. lia.
Qed.
End backup.

(** ** In a group *)
Lemma index_term_vterm {C} `{Codec (Z * Z * list (LogEntry C) * Z * Z)} (rf : Raft C) vl k :
  log_wf rf → rep rf vl → lastIncludedIndex rf ≤ k →
  index_term rf k = if decide (k ≤ last_index rf) then Some (vterm vl (Z.to_nat k)) else None.
Proof.
  intros Hw Hr Hk. case_decide as Hle.
  - rewrite index_term_at, (rep_term_index rf vl) by (done || lia). done.
  - pose proof (last_index_ge rf Hw). unfold index_term, entry_at. case_test; [lia|]. case_test; [|done].
    rewrite lookup_ge_None_2; [done|]. unfold last_index, zlen in *. lia.
Qed.

Lemma group_searching {C} `{Codec (Z * Z * list (LogEntry C) * Z * Z)} n (G : group (C:=C)) hs V c i (L f : Raft C) m :
  0 ≤ n → ginv n G hs V → g_peer G !! c = Some L → g_peer G !! i = Some f → state L = LEADER → i ≠ c →
  currentTerm f ≤ currentTerm L → matchIndex L !! Z.to_nat i = Some m → m ≤ last_index f →
  (lastIncludedIndex f < m → lastIncludedIndex L ≤ m → index_term L m = index_term f m) →
  searching hs L f i (V c) (V i).
Proof.
  intros Hn Hinv HL Hf Hst Hne Ht Hm Hheld Hsame.
  destruct (ginv_peer _ _ _ _ _ _ Hinv HL) as (Hw & Hme & Hp & _ & HpL).
  destruct (ginv_peer _ _ _ _ _ _ Hinv Hf) as (Hfw & _ & _ & Hir & Hpf).
  split; try apply HpL; try apply Hpf; try done; try lia.
  - destruct (pi_leader _ _ _ _ _ _ HpL Hst) as [Hlead _].
    apply (safe_in_leader n Hn (term_of (g_net G)) hs (currentTerm f) (currentTerm L)); [apply Hinv| |done|done].
    eapply safe_prefix; [|apply Hpf]. apply take_prefix_mono.
    pose proof (rw_lii _ Hfw). pose proof (rw_applied _ Hfw). lia.
  - exists m. split_and!; [done..|]. intros H1 H2. specialize (Hsame H1 H2). pose proof (rw_log _ Hw). pose proof (rw_log _ Hfw).
    rewrite (index_term_vterm L (V c)), (index_term_vterm f (V i)) in Hsame by (apply HpL || apply Hpf || done || lia).
    rewrite (decide_True (P:=m ≤ last_index f)) in Hsame by done. case_decide; [|done]. split; [done|congruence].
Qed.

(** ** Theorems *)

(** C33: the search for the point where a follower's log diverges from the
    leader's ends.  Take a leader and a follower of any state a group can reach,
    the follower not in a later term, and suppose the follower still holds the
    leader's entry at the index it last acknowledged (a follower that lost an
    acknowledged snapshot does not).  If the two exchange messages undisturbed, then after
    at most [search_bound] rounds, of which all but the last are rejections, either
    the follower accepts and its log agrees with the leader's on every entry up to
    its end, which the leader records as matched, or the leader sends its snapshot
    and the follower has committed all that covers. *)
Theorem backup_terminates {C} `{Codec (Z * Z * list (LogEntry C) * Z * Z)} (n : Z) (G0 G : group (C:=C))
    (c i next m now : Z) (L f : Raft C) (Hn : 0 ≤ n) (H0 : group_init n G0) (H1 : rtc (gstep n) G0 G)
    (HL : g_peer G !! c = Some L) (Hf : g_peer G !! i = Some f) (Hlead : state L = LEADER) (Hne : i ≠ c)
    (Ht : currentTerm f ≤ currentTerm L) (Hnext : nextIndex L !! Z.to_nat i = Some next)
    (Hm : matchIndex L !! Z.to_nat i = Some m) (Hheld : m ≤ last_index f)
    (Hsame : lastIncludedIndex f < m → lastIncludedIndex L ≤ m → index_term L m = index_term f m) :
  ∃ r L' f' xs x, replication_rounds r L f i now = Ret (L', f', xs ++ [x]) ∧ (r ≤ search_bound f next)%nat ∧
    Forall rejected xs ∧ caught_up L L' f' i x.
Proof.
  destruct (greach_ginv n Hn _ _ _ _ H1 (init_ginv n _ H0)) as (hs & V & Hinv & _).
  eapply (search_terminates hs L f i now (V c) (V i) next m); [|done..].
  by eapply group_searching.
Qed.

(** Peer 1 has just been elected; peer 2 lacks both its entries. *)
Definition group_lagging : group (C:=Z) :=
  after [ATick 1 5000 300; AVote 1 5001; AVoteReply 0; AStart 1 20] group_committed.

Lemma backup_terminates_witness :
  ∃ r L' f' xs x, replication_rounds r (peer_of group_lagging 1) (peer_of group_lagging 2) 2 6000 =
      Ret (L', f', xs ++ [x]) ∧ (r ≤ 3)%nat ∧ Forall rejected xs ∧
    caught_up (peer_of group_lagging 1) L' f' 2 x.
Proof.
  assert (rtc (gstep 3) group3 group_lagging) as Hr by (etrans; apply after_sound).
  apply (backup_terminates 3 group3 group_lagging 1 2 2 (-1) 6000 (peer_of group_lagging 1) (peer_of group_lagging 2)
    ltac:(lia) group3_init Hr); vm_compute; try reflexivity; discriminate.
Defined.






