(* ===== verification/Rsm.v ===== *)
(** * Replicated state machines over a Raft group

    A service on every peer of a group ([Replica]): the applier of a peer hands it
    committed commands in batches, snapshots received from other peers arrive in
    between, and the service asks its peer to take snapshots of its own.  In
    every run, every server is in the state the committed log leads to at some index
    ([rinv_follows]); this rests on nothing but the safety of the peers and on
    what [Replica] says of the code of the service. *)

From S2P Require Import Prelude Persister RaftApi Raft RaftLog RaftAppend RaftSteps RaftSpec RaftOps.
From S2P Require Import RaftElection RaftHistory RaftRep RaftGroup RaftGroupSteps RaftGroupLog RaftGroupElect RaftSafety.
Import Raft.

(** ** What the protocol leaves to the service *)
Section frame.
Context {C : Type} `{HC : Codec (Z * Z * list (LogEntry C) * Z * Z)}.
Implicit Types (rf : Raft C) (G : group (C:=C)).

(** Only the service moves the applied index and the snapshot. *)
Record service_frame rf rf' : Prop := {
  sf_applied : lastApplied rf' = lastApplied rf;
  sf_lii : lastIncludedIndex rf' = lastIncludedIndex rf;
  sf_snapshot : ReadSnapshot (persister rf') = ReadSnapshot (persister rf);
  sf_commit : commitIndex rf ≤ commitIndex rf'
}.

Lemma service_frame_refl rf : service_frame rf rf.
Proof. by split. Qed.

Lemma frame_follower t rf : service_frame rf (FollowerState t rf).
Proof. by split. Qed.

Lemma frame_append_enter rf args now : service_frame rf (append_enter rf args now).
Proof. unfold append_enter. case_test; by split. Qed.

Lemma frame_RequestVote rf args now rf' reply :
  RequestVote rf args now = Ret (rf', reply) → service_frame rf rf'.
Proof.
  unfold RequestVote. set (rf1 := if currentTerm rf <? rva_Term args then _ else _).
  assert (service_frame rf rf1) as [? ? ? ?] by (unfold rf1; case_test; by split). clearbody rf1.
  case_test; [intros [= <- _]; by split|]. intros Hr. do 2 inv_bind Hr.
  case_test_in Hr; injection Hr as <- _; by split.
Qed.

Lemma frame_AppendEntries rf args now rf' reply :
  raft_wf rf → event_ok rf (EvAppend args now) →
  AppendEntries rf args now = Ret (rf', reply) → service_frame rf rf'.
Proof.
  intros Hw Hok Hr. pose proof (AppendEntries_advances rf args now rf' reply Hw Hok Hr) as Hadv.
  destruct (AppendEntries_cases rf args now (rw_log _ Hw)) as (rf1 & reply1 & E & Hcase).
  rewrite Hr in E. injection E as <- <-. pose proof (frame_append_enter rf args now) as [? ? ? ?].
  destruct Hcase as [(_ & -> & _)|[(_ & _ & -> & _)|(_ & _ & _ & np & -> & _)]];
    [by split|by split|split; [by destruct np..|apply Hadv]].
Qed.

Lemma frame_InstallSnapshot rf args now rf' reply o :
  InstallSnapshot rf args now = (rf', reply, o) → service_frame rf rf'.
Proof.
  unfold InstallSnapshot. intros Hr. case_test_in Hr; [injection Hr as <- _ _; by split|].
  destruct (currentTerm rf <? isa_Term args); case_test_in Hr; injection Hr as <- _ _; by split.
Qed.

Lemma frame_prepare rf j rf' out : leader_prepare rf j = Ret (rf', out) → service_frame rf rf'.
Proof. intros (ni & mi & -> & _)%leader_prepare_frame. by split. Qed.

Lemma frame_counted rf ni mi m :
  raft_wf (set_nextIndex ni (set_matchIndex mi rf)) →
  countReplica (set_nextIndex ni (set_matchIndex mi rf)) = Ret m →
  service_frame rf (set_commitIndex m (set_nextIndex ni (set_matchIndex mi rf))).
Proof.
  intros Hw Hm. destruct (countReplica_spec _ Hw) as (m' & E & Hr & _).
  assert (m' = m) as -> by congruence. split; try done. apply Hr.
Qed.

Lemma frame_append_reply rf j args reply rf' :
  raft_wf rf → 0 ≤ j < peers rf → handle_append_reply rf j args reply = Ret rf' → service_frame rf rf'.
Proof.
  intros Hw Hj Hr. destruct (handle_append_reply_inv rf j args reply rf' Hw Hj Hr)
    as [[_ ->]|[->|(_ & _ & ni & mi & m & Hw1 & Hc & -> & _)]];
    [apply frame_follower|apply service_frame_refl|by apply frame_counted].
Qed.

Lemma frame_install_reply rf j args ok reply rf' :
  raft_wf rf → 0 ≤ j < peers rf → handle_install_reply rf j args ok reply = Ret rf' → service_frame rf rf'.
Proof.
  intros Hw Hj Hr. destruct (handle_install_reply_inv rf j args ok reply rf' Hw Hj Hr)
    as [[_ ->]|[->|(_ & ni & mi & m & Hw1 & Hc & -> & _)]];
    [apply frame_follower|apply service_frame_refl|by apply frame_counted].
Qed.

Lemma frame_ticker rf now randTime rf' o :
  raft_wf rf → ticker rf now randTime = Ret (rf', o) → service_frame rf rf'.
Proof.
  intros Hw Hr. destruct (ticker_cases rf now randTime rf' o Hw Hr) as [[-> _]|[-> _]]; by split.
Qed.

Lemma frame_vote_reply rf args reply rf' :
  raft_wf rf → handle_vote_reply rf args reply = Ret rf' → service_frame rf rf'.
Proof.
  intros Hw Hr. destruct (handle_vote_reply_cases rf args reply rf' Hw Hr)
    as [[_ ->]|[[x ->]|(_ & _ & ni & mi & x & -> & _)]]; by split.
Qed.

(** A step of the peers: what the services see, and the snapshots that travel. *)
Record peers_frame G G' : Prop := {
  pf_peer : ∀ i rf', g_peer G' !! i = Some rf' → ∃ rf, g_peer G !! i = Some rf ∧ service_frame rf rf';
  pf_installs : ∀ j args, (j, args) ∈ g_installs G' → (j, args) ∈ g_installs G ∨
    ∃ i rf, g_peer G !! i = Some rf ∧ isa_LastIncludedIndex args = lastIncludedIndex rf ∧
      isa_Data args = ReadSnapshot (persister rf);
  pf_offers : ∀ i lit lii data, (i, (lit, lii, data)) ∈ g_offers G' → (i, (lit, lii, data)) ∈ g_offers G ∨
    ∃ j args, (j, args) ∈ g_installs G ∧ isa_LastIncludedIndex args = lii ∧ isa_Data args = data
}.

Lemma peers_frame_set G G' i rf rf' :
  g_peer G !! i = Some rf → service_frame rf rf' → g_peer G' = <[i := rf']> (g_peer G) →
  g_installs G' = g_installs G → g_offers G' = g_offers G → peers_frame G G'.
Proof.
  intros Hi Hf HG' Hin Hof. split.
  - intros j rj. rewrite HG'. intros [[<- <-]|[_ Hj]]%lookup_insert_Some; [by exists rf|].
    exists rj. split; [done|apply service_frame_refl].
  - rewrite Hin. by left.
  - rewrite Hof. by left.
Qed.

Lemma send_installs G j out args k :
  (k, args) ∈ g_installs (send j out G) →
  (k, args) ∈ g_installs G ∨ k = j ∧ out = SendSnapshot args.
Proof.
  destruct out; simpl; [|by left|by left]. intros [[= -> ->]|?]%elem_of_cons; [by right|by left].
Qed.

Lemma install_frame G d rf args now rf' reply o :
  g_peer G !! d = Some rf → (d, args) ∈ g_installs G → InstallSnapshot rf args now = (rf', reply, o) →
  peers_frame G (offer d o (add_ireply (d, args, reply) (set_peer G d rf'))).
Proof.
  intros Hi Hin Hr. destruct (InstallSnapshot_frame _ _ _ _ _ _ Hr) as (_ & _ & _ & _ & _ & _ & _ & Ho).
  destruct (peers_frame_set G (set_peer G d rf') d rf rf') as [Hp _ _]; try done;
    [by eapply frame_InstallSnapshot|].
  split; [by destruct o|by destruct o; left|]. intros i lit lii data. destruct o as [m|]; simpl; [|by left].
  intros [[= -> -> -> ->]|?]%elem_of_cons; [right|by left]. exists d, args.
  destruct (Ho m eq_refl) as (_ & _ & ->). split_and!; [done..|].
  unfold InstallSnapshot in Hr. case_test_in Hr; [done|].
  destruct (currentTerm rf <? isa_Term args); case_test_in Hr; try done; by injection Hr as _ _ <-.
Qed.

Lemma prepare_frame n G i j rf rf' out :
  g_peer G !! i = Some rf → raft_wf rf → peers rf = n → 0 ≤ j < n →
  leader_prepare rf j = Ret (rf', out) → peers_frame G (send j out (set_peer G i rf')).
Proof.
  intros Hi Hw Hpe Hj Hr. destruct (peers_frame_set G (set_peer G i rf') i rf rf') as [Hp _ _]; try done;
    [by eapply frame_prepare|].
  split; [by destruct out| |by destruct out; left].
  intros k args [?|[-> ->]]%send_installs; [by left|right].
  destruct (leader_prepare_cases rf j Hw ltac:(lia)) as (rf1 & out1 & next & E & _ & _ & _ & Hcase).
  rewrite Hr in E. injection E as <- <-. exists i, rf.
  by destruct Hcase as [[_ ?]|[(_ & _ & [= ->])|(_ & _ & pt & ? & _)]].
Qed.

Lemma pstep_frame n G G' H V : 0 ≤ n → ginv n G H V → pstep n G G' → peers_frame G G'.
Proof.
  intros Hn Hinv Hstep.
  assert (∀ i rf, g_peer G !! i = Some rf → raft_wf rf ∧ peers rf = n) as Hwf.
  { intros i rf Hi. by destruct (ginv_peer _ _ _ _ _ _ Hinv Hi) as (? & _ & ? & _). }
  destruct Hstep as [G i rf now rt rf' o Hi Hr|G v rf args now rf' reply Hc Hi Hr|G key retry Ho|
    G v rf args reply retry rf' Hc Ho Hi Hr|G i j rf rf' out Hi Hj Hne Hr|G d rf args now rf' reply Hin Hi Hr|
    G j args reply rf rf' Hin Hi Hr|G d rf args now rf' reply o Hin Hi Hr|G j args reply rf rf' Hin Hi Hr|
    G j args rf rf' Hin Hi Hr]; try destruct (Hwf _ _ Hi) as [Hw Hpe].
  - eapply peers_frame_set; [done|by eapply frame_ticker|done..].
  - eapply peers_frame_set; [done|by eapply frame_RequestVote|done..].
  - split; [|by left|by left]. intros i rf Hi. exists rf. split; [done|apply service_frame_refl].
  - eapply peers_frame_set; [done|by eapply frame_vote_reply|done..].
  - by eapply prepare_frame.
  - eapply peers_frame_set; [done| |done..]. eapply frame_AppendEntries; [done| |done].
    by eapply (append_event n Hn G H V d).
  - eapply peers_frame_set; [done| |done..]. eapply frame_append_reply; [done| |done].
    apply (gi_areply _ _ _ _ Hinv) in Hin as [Hj _]. simpl in Hj. lia.
  - by eapply install_frame.
  - eapply peers_frame_set; [done| |done..]. eapply frame_install_reply; [done| |done].
    apply (gi_ireply _ _ _ _ Hinv) in Hin as [Hj _]. lia.
  - eapply peers_frame_set; [done| |done..]. eapply frame_install_reply; [done| |done].
    apply (gi_install _ _ _ _ Hinv) in Hin as [Hj _]. lia.
Qed.
End frame.

(** ** The service *)

(** What the group relies on of the code of a service: [rp_handler] handles one
    message of the applier and may call its peer; [rp_ok] says which servers belong to the group, [rp_view] is the
    replicated part of its state, on which a command acts by [rp_exec]; commands up to [rp_skip]
    are covered by an installed snapshot and have no effect, if the log is one the
    service can have ([rp_log_ok]); [rp_read] reads a snapshot, and [rp_made] says
    which servers are made from one.  A service installs the snapshots its peer
    accepts or ignores them. *)
Class Replica (C S W : Type) `{HC : Codec (Z * Z * list (LogEntry C) * Z * Z)} := {
  rp_handler : Raft C → S → ApplyMsg C → Go (Raft C * S);
  rp_ok : S → Prop;
  rp_view : S → W;
  rp_skip : S → Z;
  rp_init : W;
  rp_exec : W → option C → W;
  rp_log_ok : list (option C) → Prop;
  rp_read : bytes → option W;
  rp_made : bytes → S → Prop;
  rp_command rf s c i rf' s' :
    rp_ok s → 1 ≤ i → rp_skip s < i → rp_handler rf s (command_msg c i) = Ret (rf', s') →
    rp_ok s' ∧ rp_skip s' = rp_skip s ∧ rp_view s' = rp_exec (rp_view s) c ∧
    (rf' = rf ∨ ∃ data, Raft.Snapshot rf i data = Ret rf' ∧ rp_read data = Some (rp_view s'));
  rp_stale rf s c i rf' s' p :
    rp_ok s → rp_log_ok p → rp_view s = foldl rp_exec rp_init p → 1 ≤ i ≤ zlen p → i ≤ rp_skip s →
    p !! Z.to_nat (i - 1) = Some c → rp_handler rf s (command_msg c i) = Ret (rf', s') →
    rp_ok s' ∧ rp_skip s' = rp_skip s ∧ rp_view s' = rp_view s ∧
    (rf' = rf ∨ ∃ data, Raft.Snapshot rf i data = Ret rf');
  rp_snapshot rf s data t i rf' s' :
    rp_ok s → rp_handler rf s (snapshot_msg data t i) = Ret (rf', s') →
    rp_ok s' ∧ ((rf' = rf ∧ s' = s) ∨ ∃ b, CondInstallSnapshot rf t i data = Ret (rf', b) ∧
      if b : bool then rp_skip s' = i ∧ ∀ w, rp_read data = Some w → rp_view s' = w else s' = s);
  rp_made_view data s : rp_made data s →
    rp_ok s ∧ rp_skip s = 0 ∧ rp_view s = default rp_init (rp_read data);
  rp_read_nil : rp_read [] = None
}.

Section rsm.
Context {C S W : Type} `{HC : Codec (Z * Z * list (LogEntry C) * Z * Z)} `{!Replica C S W}.
Context (n : Z) (Hn : 0 ≤ n).
Implicit Types (rf : Raft C) (G : group (C:=C)) (s : S) (w : W).
Notation hist := (hist (C:=C)).
Implicit Types (H : hist).

(** The peers; the servers; and what each applier still has to deliver, with the
    commit index it will record. *)
Record rworld := mkRWorld {
  r_group : group (C:=C);
  r_server : gmap Z S;
  r_batch : gmap Z (list (ApplyMsg C) * Z)
}.
Implicit Types (R : rworld).

(** The steps of the peers and of the appliers.  Requests of clients change a
    server and start commands ([rinv_local], [rinv_start]), crashes replace it
    ([rinv_crash]). *)
Inductive rstep : rworld → rworld → Prop :=
| rs_peers R G' : pstep n (r_group R) G' → rstep R (mkRWorld G' (r_server R) (r_batch R))
| rs_take R i rf msgs c :                  (* the applier starts a batch *)
    g_peer (r_group R) !! i = Some rf → r_batch R !! i = None →
    applyChecker_take rf = Ret (Some (msgs, c)) →
    rstep R (mkRWorld (r_group R) (r_server R) (<[i := (msgs, c)]> (r_batch R)))
| rs_deliver R i rf s m ms c rf' s' :
    g_peer (r_group R) !! i = Some rf → r_server R !! i = Some s → r_batch R !! i = Some (m :: ms, c) →
    rp_handler rf s m = Ret (rf', s') →
    rstep R (mkRWorld (set_peer (r_group R) i rf') (<[i := s']> (r_server R)) (<[i := (ms, c)]> (r_batch R)))
| rs_done R i rf c :                       (* the batch is through *)
    g_peer (r_group R) !! i = Some rf → r_batch R !! i = Some ([], c) →
    rstep R (mkRWorld (set_peer (r_group R) i (applyChecker_done rf c)) (r_server R) (delete i (r_batch R)))
| rs_offer R i rf s lit lii data rf' s' :  (* a snapshot from the leader *)
    (i, (lit, lii, data)) ∈ g_offers (r_group R) →
    g_peer (r_group R) !! i = Some rf → r_server R !! i = Some s →
    rp_handler rf s (snapshot_msg data lit lii) = Ret (rf', s') →
    rstep R (mkRWorld (set_peer (r_group R) i rf') (<[i := s']> (r_server R)) (r_batch R))
| rs_kill R i rf :
    g_peer (r_group R) !! i = Some rf →
    rstep R (mkRWorld (set_peer (r_group R) i (Kill rf)) (r_server R) (r_batch R)).

Definition rworld_init R : Prop :=
  group_init n (r_group R) ∧ r_batch R = ∅ ∧
  ∀ i rf, g_peer (r_group R) !! i = Some rf → ∃ s, r_server R !! i = Some s ∧ rp_made [] s.

(** ** Positions in the log *)
Definition rsm_run (p : list (LogEntry C)) : W := foldl rp_exec rp_init (le_Command <$> p).

(** The state the committed log leads to at an index, and the entry there. *)
Definition at_index H (k : Z) w : Prop := ∃ p T, safe_log n H T p ∧ zlen p = k ∧ w = rsm_run p.
Definition entry_of H (k : Z) (e : LogEntry C) : Prop :=
  ∃ p T, safe_log n H T p ∧ 1 ≤ k ∧ p !! Z.to_nat (k - 1) = Some e.

Lemma at_index_grows tm H H' k w : grows tm H H' → at_index H k w → at_index H' k w.
Proof using Type. intros Hg (p & T & Hs & ? & ?). exists p, T. split; [by eapply safe_grows|done]. Qed.

Lemma entry_of_grows tm H H' k e : grows tm H H' → entry_of H k e → entry_of H' k e.
Proof using Type. intros Hg (p & T & Hs & ? & ?). exists p, T. split; [by eapply safe_grows|done]. Qed.

Lemma at_index_init H : at_index H 0 rp_init.
Proof using Type. exists [], 0. split; [by left|done]. Qed.

Lemma at_index_step tm H k w e :
  history_ok n tm H → at_index H k w → entry_of H (k + 1) e → at_index H (k + 1) (rp_exec w (le_Command e)).
Proof using Hn.
  intros Ho (p & T & Hs & Hk & ->) (p' & T' & Hs' & _ & He). unfold zlen in Hk.
  replace (Z.to_nat (k + 1 - 1)) with (length p) in He by lia.
  assert (p `prefix_of` p') as Hp.
  { destruct (safe_comparable n Hn tm H _ _ _ _ Ho Hs Hs') as [?|Hp]; [done|].
    apply lookup_lt_Some in He. apply prefix_length in Hp. lia. }
  exists (p ++ [e]), T'. split_and!.
  - eapply safe_prefix; [|exact Hs']. destruct Hp as [r ->]. apply prefix_app.
    rewrite lookup_app_r, Nat.sub_diag in He by lia. destruct r as [|x r]; [done|]. injection He as ->.
    apply prefix_cons, prefix_nil.
  - unfold zlen. rewrite length_app. simpl. lia.
  - unfold rsm_run. by rewrite fmap_app, foldl_app.
Qed.

(** An entry of a log that is long enough. *)
Lemma entry_of_log tm H T p k e :
  history_ok n tm H → safe_log n H T p → k ≤ zlen p → entry_of H k e → 1 ≤ k ∧ p !! Z.to_nat (k - 1) = Some e.
Proof using Hn.
  intros Ho Hp Hk (p' & T' & Hp' & Hk1 & He). split; [done|]. unfold zlen in Hk.
  destruct (safe_comparable n Hn tm H _ _ _ _ Ho Hp Hp') as [[r ->]|Hpp].
  - by rewrite lookup_app_l in He by lia.
  - by eapply prefix_lookup_Some.
Qed.

(** The commands of a log the group committed. *)
Lemma safe_commands H T l P : safe_log n H T l → commands_in P H → ∀ e, e ∈ l → P (le_Command e).
Proof using Type.
  intros [->|(T0 & k & L & _ & _ & HL & Hp)] HP e He; [by apply elem_of_nil in He|].
  apply (HP T0 L e HL). destruct Hp as [r Hr].
  assert (e ∈ take k L) as (j & [Hj _]%lookup_take_Some)%list_elem_of_lookup by (rewrite Hr; apply elem_of_app; by left).
  by eapply list_elem_of_lookup_2.
Qed.

(** All logs the group may have committed are logs of the service. *)
Definition logs_ok H : Prop := ∀ p T, safe_log n H T p → rp_log_ok (le_Command <$> p).

(** ** The invariant *)

(** What the applier still has to deliver follows the state of the server, or was
    overtaken by a snapshot and will be skipped. *)
Definition batch_inv H rf s (k : Z) (b : option (list (ApplyMsg C) * Z)) : Prop :=
  match b with
  | None => k = lastApplied rf
  | Some (ms, c) =>
      c ≤ commitIndex rf ∧
      (∀ j m, ms !! j = Some m → ∃ e, entry_of H (c - zlen ms + 1 + Z.of_nat j) e ∧
         m = command_msg (le_Command e) (c - zlen ms + 1 + Z.of_nat j)) ∧
      (k = c - zlen ms ∨ c ≤ k ∧ rp_skip s = k ∧ lastApplied rf = k)
  end.

Definition server_inv H rf s (b : option (list (ApplyMsg C) * Z)) : Prop :=
  rp_ok s ∧ ∃ k, at_index H k (rp_view s) ∧ rp_skip s ≤ lastIncludedIndex rf ∧ lastApplied rf ≤ k ≤ commitIndex rf ∧
    batch_inv H rf s k b.

(** A snapshot is the state at its index; there is none at index zero. *)
Definition snap_inv H (lii : Z) (data : bytes) : Prop :=
  (lii = 0 ∧ data = []) ∨ ∃ w, rp_read data = Some w ∧ at_index H lii w.

Record rinv R H (V : Z → list (LogEntry C)) : Prop := {
  ri_group : ginv n (r_group R) H V;
  ri_server : ∀ i rf, g_peer (r_group R) !! i = Some rf →
    ∃ s, r_server R !! i = Some s ∧ server_inv H rf s (r_batch R !! i);
  ri_snap : ∀ i rf, g_peer (r_group R) !! i = Some rf →
    snap_inv H (lastIncludedIndex rf) (ReadSnapshot (persister rf));
  ri_install : ∀ j args, (j, args) ∈ g_installs (r_group R) →
    snap_inv H (isa_LastIncludedIndex args) (isa_Data args);
  ri_offer : ∀ i lit lii data, (i, (lit, lii, data)) ∈ g_offers (r_group R) → snap_inv H lii data
}.

Lemma snap_inv_grows tm H H' lii data : grows tm H H' → snap_inv H lii data → snap_inv H' lii data.
Proof using Type.
  intros Hg [?|(w & ? & ?)]; [by left|right]. exists w. split; [done|]. by eapply at_index_grows.
Qed.

Lemma server_inv_frame tm H H' rf rf' s b :
  grows tm H H' → service_frame rf rf' → server_inv H rf s b → server_inv H' rf' s b.
Proof using Type.
  intros Hg [Ha Hl Hs Hc] (Hsok & k & Hk & Hsk & Hr & Hb). split; [done|]. exists k. rewrite Ha.
  split_and!; [by eapply at_index_grows|lia|lia|lia|]. destruct b as [[ms c]|]; simpl in *; rewrite Ha; [|done].
  destruct Hb as (Hcc & Hms & Hpos). split_and!; [lia| |done].
  intros j m (e & He & ->)%Hms. exists e. split; [by eapply entry_of_grows|done].
Qed.

(** A step of the peers. *)
Lemma rinv_peers R G' H V H' V' tm :
  rinv R H V → ginv n G' H' V' → grows tm H H' → peers_frame (r_group R) G' →
  rinv (mkRWorld G' (r_server R) (r_batch R)) H' V'.
Proof using Type.
  intros [Hg Hs Hsn Hin Hof] Hg' Hgr [Fp Fi Fo]. split; simpl; [done|..].
  - intros i rf' (rf & Hi & Hf)%Fp. destruct (Hs i rf Hi) as (s & Hsi & Hsv). exists s. split; [done|].
    by eapply server_inv_frame.
  - intros i rf' (rf & Hi & [_ -> -> _])%Fp. eapply snap_inv_grows; [done|]. by apply (Hsn i).
  - intros j args [Hj|(i & rf & Hi & -> & ->)]%Fi; (eapply snap_inv_grows; [done|]); [by apply (Hin j)|by apply (Hsn i)].
  - intros i lit lii data [Hj|(j & args & Hj & <- & <-)]%Fo; (eapply snap_inv_grows; [done|]);
      [by apply (Hof i lit)|by apply (Hin j)].
Qed.

(** A step of one machine. *)
Lemma rinv_machine R R' H V H' V' tm i rf rf' s' :
  rinv R H V → ginv n (r_group R') H' V' → grows tm H H' → g_peer (r_group R) !! i = Some rf →
  g_peer (r_group R') = <[i := rf']> (g_peer (r_group R)) →
  g_installs (r_group R') = g_installs (r_group R) → g_offers (r_group R') = g_offers (r_group R) →
  (∀ j, j ≠ i → r_server R' !! j = r_server R !! j) → (∀ j, j ≠ i → r_batch R' !! j = r_batch R !! j) →
  r_server R' !! i = Some s' → server_inv H' rf' s' (r_batch R' !! i) →
  snap_inv H' (lastIncludedIndex rf') (ReadSnapshot (persister rf')) →
  rinv R' H' V'.
Proof using Type.
  intros [Hg Hs Hsn Hin Hof] Hg' Hgr Hi Hp HI HO Hss Hbb Hs' Hsi Hsnap.
  split; [done|..]; rewrite ?Hp, ?HI, ?HO.
  - intros j rj [[<- <-]|[Hne Hj]]%lookup_insert_Some; [by exists s'|].
    destruct (Hs j rj Hj) as (sj & Hsj & Hsv). exists sj. rewrite Hss, Hbb by done. split; [done|].
    eapply server_inv_frame; [done|apply service_frame_refl|done].
  - intros j rj [[<- <-]|[Hne Hj]]%lookup_insert_Some; [done|].
    eapply snap_inv_grows; [done|]. by apply (Hsn j).
  - intros j args Hj. eapply snap_inv_grows; [done|]. by apply (Hin j).
  - intros j lit lii data Hj. eapply snap_inv_grows; [done|]. by apply (Hof j lit).
Qed.

(** ** The steps *)
Lemma set_peer_same G i rf : g_peer G !! i = Some rf → set_peer G i rf = G.
Proof using Type.
  intros Hi. destruct G as [[P ? ? ? ? ?] ? ? ? ? ?]. unfold set_peer, with_net, net_set. simpl in *.
  by rewrite insert_id.
Qed.

Lemma server_inv_view H rf s s' b :
  rp_ok s' → rp_view s' = rp_view s → rp_skip s' = rp_skip s → server_inv H rf s b → server_inv H rf s' b.
Proof using Type.
  intros Hsok Hv Hk (_ & k & ? & ? & ? & Hb). split; [done|]. exists k. rewrite Hv, Hk. split_and!; [done|done|lia|lia|].
  destruct b as [[ms c]|]; simpl in *; by rewrite ?Hk.
Qed.

Lemma rinv_start R H V i rf c rf' r :
  rinv R H V → g_peer (r_group R) !! i = Some rf → Start rf c = Ret (rf', r) →
  ∃ H' V', rinv (mkRWorld (set_peer (r_group R) i rf') (r_server R) (r_batch R)) H' V' ∧
    extends (term_of (g_net (r_group R))) (λ x, x = Some c) H H'.
Proof using Hn.
  intros Hinv Hi Hr. pose proof (ri_group _ _ _ Hinv) as Hg.
  destruct (ginv_peer _ _ _ _ _ _ Hg Hi) as (Hw & _).
  destruct (step_start n _ _ _ _ _ _ _ _ Hg Hi Hr) as (H' & V' & Hg' & Hex). exists H', V'. split; [|done].
  eapply rinv_peers; [done|done|apply Hex|]. eapply peers_frame_set; [done| |done..].
  destruct (Start_cases rf c Hw) as (rf1 & x & t & lead & E & _ & Hl). rewrite Hr in E. injection E as <- _.
  destruct lead.
  - destruct Hl as (_ & _ & _ & _ & _ & ->). by split.
  - destruct Hl as (_ & -> & _). apply service_frame_refl.
Qed.

Lemma rinv_local R H V i s s' :
  rinv R H V → r_server R !! i = Some s → rp_ok s' → rp_view s' = rp_view s → rp_skip s' = rp_skip s →
  rinv (mkRWorld (r_group R) (<[i := s']> (r_server R)) (r_batch R)) H V.
Proof using Type.
  intros [Hg Hs Hsn Hin Hof] Hi Hsok Hv Hk. split; simpl; try done. intros j rj Hj.
  destruct (Hs j rj Hj) as (sj & Hsj & Hsv). destruct (decide (j = i)) as [->|Hne].
  - rewrite lookup_insert_eq. exists s'. split; [done|]. assert (sj = s) as -> by congruence.
    by eapply server_inv_view.
  - rewrite lookup_insert_ne by done. by exists sj.
Qed.

Lemma rinv_take R H V i rf msgs c :
  rinv R H V → g_peer (r_group R) !! i = Some rf → r_batch R !! i = None →
  applyChecker_take rf = Ret (Some (msgs, c)) →
  rinv (mkRWorld (r_group R) (r_server R) (<[i := (msgs, c)]> (r_batch R))) H V.
Proof using Type.
  intros Hinv Hi Hb Ht. pose proof (ri_group _ _ _ Hinv) as Hg.
  destruct (ginv_peer _ _ _ _ _ _ Hg Hi) as (Hw & _ & _ & _ & Hpi).
  destruct (ri_server _ _ _ Hinv i rf Hi) as (s & Hs & Hsok & k & Hk & Hsk & Hr & Hbi). rewrite Hb in Hbi. simpl in Hbi.
  destruct (applyChecker_take_cases rf Hw) as (o & E & Ho). rewrite Ht in E. injection E as <-.
  destruct Ho as (-> & Hlt & Hlen & Hmsg).
  eapply (rinv_machine R _ H V H V (λ _, 0) i rf rf s); try done.
  - apply grows_refl.
  - simpl. by rewrite insert_id.
  - intros j Hj. simpl. by rewrite lookup_insert_ne.
  - simpl. rewrite lookup_insert_eq. split; [done|]. exists k. split_and!; [done|lia|lia|lia|]. split_and!; [lia| |left; lia].
    intros j m Hj. destruct (Hmsg j m Hj) as (e & He & ->). apply lookup_lt_Some in Hj. unfold zlen in Hlen.
    exists e. split; [|f_equal; unfold zlen; lia]. pose proof (rw_lii _ Hw).
    exists (take (Z.to_nat (commitIndex rf)) (V i)), (currentTerm rf). split_and!; [apply Hpi|unfold zlen; lia|].
    rewrite (rep_entry rf (V i)) in He by (apply Hpi || lia). unfold zlen.
    rewrite lookup_take_lt by lia. rewrite <- He. f_equal. lia.
  - by eapply ri_snap.
Qed.

(** The message the applier delivers next: a committed entry, at the index after
    the state of the server unless it is skipped. *)
Lemma next_message R H V i rf s m ms c :
  rinv R H V → g_peer (r_group R) !! i = Some rf → r_server R !! i = Some s →
  r_batch R !! i = Some (m :: ms, c) →
  ∃ e k, m = command_msg (le_Command e) k ∧ entry_of H k e ∧ k ≤ commitIndex rf ∧
    k = c - zlen (m :: ms) + 1 ∧
    (rp_skip s < k → at_index H (k - 1) (rp_view s) ∧ lastApplied rf ≤ k - 1) ∧
    (k ≤ rp_skip s → c ≤ rp_skip s ∧ lastApplied rf = rp_skip s ∧ at_index H (rp_skip s) (rp_view s) ∧
       rp_skip s ≤ commitIndex rf ∧ rp_skip s ≤ lastIncludedIndex rf).
Proof using Type.
  intros Hinv Hi Hs Hb. destruct (ginv_peer _ _ _ _ _ _ (ri_group _ _ _ Hinv) Hi) as (Hw & _).
  pose proof (rw_lii _ Hw). destruct (ri_server _ _ _ Hinv i rf Hi) as (s0 & Hs0 & Hsok & k & Hk & Hsk & Hr & Hbi).
  assert (s0 = s) as -> by congruence. rewrite Hb in Hbi. destruct Hbi as (Hc & Hms & Hpos).
  destruct (Hms 0%nat m eq_refl) as (e & He & Hm). rewrite Z.add_0_r in *.
  assert (1 ≤ zlen (m :: ms)) by (rewrite zlen_cons; pose proof (zlen_nonneg ms); lia).
  exists e, (c - zlen (m :: ms) + 1). split_and!; [done|done|lia|done| |].
  - intros Hlt. destruct Hpos as [->|(? & ? & ?)]; [|lia]. rewrite Z.add_simpl_r. split; [done|lia].
  - intros Hle. destruct Hpos as [->|(? & Hks & ?)]; [lia|]. rewrite Hks in *. split_and!; done || lia.
Qed.

Lemma batch_tail R H V i rf m ms c :
  rinv R H V → g_peer (r_group R) !! i = Some rf → r_batch R !! i = Some (m :: ms, c) →
  c ≤ commitIndex rf ∧ ∀ j x, ms !! j = Some x → ∃ e, entry_of H (c - zlen ms + 1 + Z.of_nat j) e ∧
    x = command_msg (le_Command e) (c - zlen ms + 1 + Z.of_nat j).
Proof using Type.
  intros Hinv Hi Hb. destruct (ri_server _ _ _ Hinv i rf Hi) as (s & _ & _ & k & _ & _ & _ & Hbi).
  rewrite Hb in Hbi. destruct Hbi as (Hc & Hms & _). split; [done|]. intros j x Hj.
  destruct (Hms (Datatypes.S j) x Hj) as (e & He & ->). exists e. rewrite zlen_cons in *.
  replace (c - zlen ms + 1 + Z.of_nat j) with (c - (1 + zlen ms) + 1 + Z.of_nat (Datatypes.S j)) by lia.
  done.
Qed.

(** What the peer is after the service handled a command. *)
Lemma command_peer rf k data rf' :
  raft_wf rf → k ≤ commitIndex rf → lastApplied rf ≤ k - 1 →
  rf' = rf ∨ Raft.Snapshot rf k data = Ret rf' →
  lastApplied rf' ≤ k ∧ commitIndex rf' = commitIndex rf ∧
  ((lastIncludedIndex rf' = lastIncludedIndex rf ∧
    ReadSnapshot (persister rf') = ReadSnapshot (persister rf)) ∨
   (lastIncludedIndex rf' = k ∧ ReadSnapshot (persister rf') = data)).
Proof using Type.
  intros Hw Hk Hl [->|Hr]; [split_and!; [lia|done|by left]|].
  destruct (Snapshot_cases rf k data Hw Hk) as (rf1 & E & _ & Hcase). rewrite Hr in E. injection E as <-.
  destruct Hcase as [[_ ->]|(_ & HI & HCI & HA & _ & _ & _ & HP & _)]; [split_and!; [lia|done|by left]|].
  split_and!; [lia|done|right]. split; [done|]. rewrite HP. by autorewrite with shardkv.
Qed.

Lemma server_ok R H V i rf s :
  rinv R H V → g_peer (r_group R) !! i = Some rf → r_server R !! i = Some s → rp_ok s.
Proof using Type.
  intros Hinv Hi Hs. destruct (ri_server _ _ _ Hinv i rf Hi) as (s0 & Hs0 & Hok & _). congruence.
Qed.

Lemma skip_included R H V i rf s :
  rinv R H V → g_peer (r_group R) !! i = Some rf → r_server R !! i = Some s →
  rp_skip s ≤ lastIncludedIndex rf.
Proof using Type.
  intros Hinv Hi Hs. destruct (ri_server _ _ _ Hinv i rf Hi) as (s0 & Hs0 & _ & k & _ & Hsk & _). congruence.
Qed.

Lemma rinv_deliver R H V i rf s m ms c rf' s' :
  rinv R H V → logs_ok H → g_peer (r_group R) !! i = Some rf → r_server R !! i = Some s →
  r_batch R !! i = Some (m :: ms, c) → rp_handler rf s m = Ret (rf', s') →
  ∃ V', rinv (mkRWorld (set_peer (r_group R) i rf') (<[i := s']> (r_server R))
    (<[i := (ms, c)]> (r_batch R))) H V'.
Proof using Hn.
  intros Hinv Hok Hi Hs Hb Hr. pose proof (ri_group _ _ _ Hinv) as Hg.
  destruct (ginv_peer _ _ _ _ _ _ Hg Hi) as (Hw & _).
  destruct (next_message _ _ _ _ _ _ _ _ _ Hinv Hi Hs Hb) as (e & k & -> & He & Hkc & Hk & Hex & Hskip).
  destruct (batch_tail _ _ _ _ _ _ _ _ Hinv Hi Hb) as [Hc Htail]. rewrite zlen_cons in Hk.
  pose proof (server_ok _ _ _ _ _ _ Hinv Hi Hs) as Hsok.
  destruct (Z.le_gt_cases k (rp_skip s)) as [Hle|Hlt].
  - destruct (Hskip Hle) as (H1 & H2 & H3 & H4 & H5). exists V. pose proof H3 as (p & T & Hp & Hlen & Hrun).
    destruct (entry_of_log _ H T p k e (gi_hist _ _ _ _ Hg) Hp ltac:(lia) He) as [Hk1 Hpk].
    destruct (rp_stale rf s (le_Command e) k rf' s' (le_Command <$> p) Hsok (Hok p T Hp) Hrun) as (Hsok' & Hsk & Hv & Hrf);
      [unfold zlen in *; rewrite length_fmap; lia|done|by rewrite list_lookup_fmap, Hpk|done|].
    assert (rf' = rf) as ->.
    { destruct Hrf as [|(data & Hsnap)]; [done|].
      destruct (Snapshot_cases rf k data Hw Hkc) as (rf1 & E & _ & [[_ ->]|[? _]]); [congruence|lia]. }
    eapply (rinv_machine R _ H V H V (λ _, 0) i rf rf s'); try done.
    + simpl. by rewrite set_peer_same.
    + apply grows_refl.
    + intros j Hj. simpl. by rewrite lookup_insert_ne.
    + intros j Hj. simpl. by rewrite lookup_insert_ne.
    + simpl. apply lookup_insert_eq.
    + simpl. rewrite lookup_insert_eq. split; [done|]. exists (rp_skip s). rewrite Hv, Hsk. split_and!; [done|lia|lia|done|].
      split_and!; [done|done|right; lia].
    + by eapply ri_snap.
  - destruct (Hex Hlt) as [Hat Hla]. clear Hskip Hex. assert (1 ≤ k) as Hk1 by (by destruct He as (? & ? & _ & ? & _)).
    destruct (rp_command rf s (le_Command e) k rf' s' Hsok ltac:(lia) Hlt Hr) as (Hsok' & Hsk & Hv & Hrf).
    assert (at_index H k (rp_view s')) as Hat'.
    { rewrite Hv. replace k with (k - 1 + 1) in He |- * by lia.
      eapply at_index_step; [apply Hg|done|done]. }
    assert (∃ data, (rf' = rf ∨ Raft.Snapshot rf k data = Ret rf' ∧ rp_read data = Some (rp_view s'))) as (data & Hrf').
    { destruct Hrf as [->|(data & ? & ?)]; [by exists []; left|by exists data; right]. }
    destruct (command_peer rf k data rf' Hw Hkc Hla) as (HA & HCI & Hsn); [tauto|].
    assert (∃ V', ginv n (set_peer (r_group R) i rf') H V') as [V' Hg'].
    { destruct Hrf' as [->|[Hsnap _]]; [exists V; by rewrite set_peer_same|].
      eexists. eapply (step_snapshot n _ _ _ _ _ _ _ _ Hg Hi Hkc Hsnap). }
    exists V'. eapply (rinv_machine R _ H V H V' (λ _, 0) i rf rf' s'); try done.
    + apply grows_refl.
    + intros j Hj. simpl. by rewrite lookup_insert_ne.
    + intros j Hj. simpl. by rewrite lookup_insert_ne.
    + simpl. apply lookup_insert_eq.
    + simpl. rewrite lookup_insert_eq. split; [done|]. exists k. pose proof (skip_included _ _ _ _ _ _ Hinv Hi Hs).
      split_and!; [done|destruct Hsn as [[-> _]|[-> _]]; lia|lia|lia|]. split_and!; [lia|done|left; lia].
    + pose proof (ri_snap _ _ _ Hinv i rf Hi) as Hold.
      destruct Hrf' as [->|[_ Hread]]; [done|]. destruct Hsn as [[-> ->]|[-> ->]]; [done|].
      right. by exists (rp_view s').
Qed.

Lemma rinv_done R H V i rf c :
  rinv R H V → g_peer (r_group R) !! i = Some rf → r_batch R !! i = Some ([], c) →
  ∃ V', rinv (mkRWorld (set_peer (r_group R) i (applyChecker_done rf c)) (r_server R) (delete i (r_batch R))) H V'.
Proof using Type.
  intros Hinv Hi Hb. pose proof (ri_group _ _ _ Hinv) as Hg.
  destruct (ri_server _ _ _ Hinv i rf Hi) as (s & Hs & Hsok & k & Hk & Hsk & Hr & Hbi). rewrite Hb in Hbi.
  destruct Hbi as (Hc & _ & Hpos). rewrite zlen_nil in Hpos.
  eexists. eapply (rinv_machine R _ H V H _ (λ _, 0) i rf (applyChecker_done rf c) s); try done.
  - by apply step_done.
  - apply grows_refl.
  - intros j Hj. simpl. by rewrite lookup_delete_ne.
  - simpl. rewrite lookup_delete_eq. split; [done|]. exists k. split_and!; [done|..]; unfold applyChecker_done; case_test; simpl; lia.
  - unfold applyChecker_done. case_test; by eapply (ri_snap _ _ _ Hinv i rf).
Qed.

Lemma rinv_offer R H V i rf s lit lii data rf' s' :
  rinv R H V → (i, (lit, lii, data)) ∈ g_offers (r_group R) →
  g_peer (r_group R) !! i = Some rf → r_server R !! i = Some s →
  rp_handler rf s (snapshot_msg data lit lii) = Ret (rf', s') →
  ∃ V', rinv (mkRWorld (set_peer (r_group R) i rf') (<[i := s']> (r_server R)) (r_batch R)) H V'.
Proof using Hn.
  intros Hinv Hin Hi Hs Hr. pose proof (ri_group _ _ _ Hinv) as Hg.
  destruct (ginv_peer _ _ _ _ _ _ Hg Hi) as (Hw & _).
  destruct (rp_snapshot _ _ _ _ _ _ _ (server_ok _ _ _ _ _ _ Hinv Hi Hs) Hr) as (Hsok & [[-> ->]|(b & Hcond & Hb)]).
  { exists V. rewrite set_peer_same, insert_id by done. by destruct R. }
  destruct (step_cond_install n Hn _ _ _ _ _ _ _ _ _ _ Hg Hin Hi Hcond) as [V' Hg'].
  pose proof (group_event_ok n Hn _ _ _ _ _ (EvCondInstall lit lii data) Hg Hi Hin) as Hok.
  destruct (CondInstallSnapshot_cases rf lit lii data Hw Hok) as (rf1 & b1 & E & _ & Hcase).
  rewrite Hcond in E. injection E as <- <-. pose proof (rw_lii _ Hw). pose proof (rw_applied _ Hw).
  destruct (ri_server _ _ _ Hinv i rf Hi) as (s0 & Hs0 & _ & k & Hk & Hsk & Hrr & Hbi).
  assert (s0 = s) as -> by congruence. exists V'.
  eapply (rinv_machine R _ H V H V' (λ _, 0) i rf rf' s'); try done.
  - apply grows_refl.
  - intros j Hj. simpl. by rewrite lookup_insert_ne.
  - simpl. apply lookup_insert_eq.
  - simpl. destruct Hcase as [(_ & -> & ->)|(Hlt & -> & HI & _ & HA & HCI & _)]; [split; [done|]; rewrite Hb; by exists k|split; [done|]].
    destruct Hb as [Hsk' Hread].
    destruct (ri_offer _ _ _ Hinv _ _ _ _ Hin) as [[? _]|(w & Hw' & Hat)]; [lia|].
    exists lii. rewrite (Hread w Hw'). split_and!; [done|lia|lia|lia|].
    destruct (r_batch R !! i) as [[ms c]|]; simpl in *; [|lia].
    destruct Hbi as (Hc & Hms & _). split_and!; [lia|done|right; lia].
  - destruct Hcase as [(_ & -> & ->)|(Hlt & -> & -> & _ & _ & _ & _ & _ & _ & HP & _)]; [by eapply ri_snap|].
    rewrite HP. autorewrite with shardkv. by eapply (ri_offer _ _ _ Hinv).
Qed.

(** A server made from the snapshot on storage is in the state of its index. *)
Lemma made_at H lii data s :
  snap_inv H lii data → rp_made data s → rp_ok s ∧ at_index H lii (rp_view s) ∧ rp_skip s = 0.
Proof using Type.
  intros Hsn Hm. destruct (rp_made_view _ _ Hm) as (Hsok & Hk & ->). split; [done|]. split; [|done].
  destruct Hsn as [[-> ->]|(w & -> & Hat)]; [|done]. rewrite rp_read_nil. apply at_index_init.
Qed.

Lemma rinv_crash R H V i rf s now :
  rinv R H V → g_peer (r_group R) !! i = Some rf → rp_made (ReadSnapshot (persister rf)) s →
  ∃ V', rinv (mkRWorld (set_peer (r_group R) i (Make n i (persister rf) now))
    (<[i := s]> (r_server R)) (delete i (r_batch R))) H V'.
Proof using Type.
  intros Hinv Hi Hm. pose proof (ri_group _ _ _ Hinv) as Hg.
  destruct (ginv_peer _ _ _ _ _ _ Hg Hi) as (Hw & _).
  destruct (ni_state _ _ _ _ (gi_net _ _ _ _ Hg) Hi) as (_ & Hrec & _).
  destruct (Hrec n i now) as (Hs & _ & Ha & Hc). unfold saved in Hs.
  assert (lastIncludedIndex (Make n i (persister rf) now) = lastIncludedIndex rf) as HI by congruence.
  assert (persister (Make n i (persister rf) now) = persister rf) as HP by apply Make_static.
  pose proof (ri_snap _ _ _ Hinv i rf Hi) as Hsn. destruct (made_at _ _ _ _ Hsn Hm) as (Hsok & Hat & Hsk).
  pose proof (rw_lii _ Hw).
  eexists. eapply (rinv_machine R _ H V H _ (λ _, 0) i rf (Make n i (persister rf) now) s); try done.
  - by apply step_crash.
  - apply grows_refl.
  - intros j Hj. simpl. by rewrite lookup_insert_ne.
  - intros j Hj. simpl. by rewrite lookup_delete_ne.
  - simpl. apply lookup_insert_eq.
  - simpl r_batch. rewrite lookup_delete_eq. split; [done|]. exists (lastIncludedIndex rf). rewrite Hsk.
    split_and!; [done|lia|lia|lia|]. simpl. lia.
  - by rewrite HI, HP.
Qed.

(** The steps of the peers and of the appliers keep the invariant. *)
Lemma rstep_inv R R' H V :
  rinv R H V → logs_ok H → rstep R R' →
  ∃ H' V', rinv R' H' V' ∧ extends (term_of (g_net (r_group R))) (λ _, False) H H'.
Proof using Hn.
  intros Hinv Hok Hstep. pose proof (ri_group _ _ _ Hinv) as Hg.
  assert (∀ R', (∃ V', rinv R' H V') → ∃ H' V', rinv R' H' V' ∧
    extends (term_of (g_net (r_group R))) (λ _, False) H H') as Hsame.
  { intros R1 [V1 ?]. exists H, V1. split; [done|apply extends_refl]. }
  destruct Hstep as [R G' Hp|R i rf msgs c Hi Hb Ht|R i rf s m ms c rf' s' Hi Hs Hb Hr|R i rf c Hi Hb|
    R i rf s lit lii data rf' s' Hin Hi Hs Hr|R i rf Hi].
  - destruct (pstep_ginv n Hn _ _ _ _ Hg Hp) as (H' & V' & Hg' & Hex). exists H', V'. split; [|done].
    apply (rinv_peers R G' H V H' V' _ Hinv Hg' (ex_grows _ _ _ _ Hex)). by eapply (pstep_frame n _ _ H V).
  - apply Hsame. eexists. by eapply rinv_take.
  - by eapply Hsame, rinv_deliver.
  - by eapply Hsame, rinv_done.
  - by eapply Hsame, rinv_offer.
  - apply Hsame. eexists. eapply (rinv_peers R _ H V H _ (λ _, 0) Hinv);
      [by apply step_kill|apply grows_refl|].
    by apply (peers_frame_set _ _ i rf (Kill rf)); [|split|..].
Qed.

Lemma rworld_init_inv R : rworld_init R → rinv R (mkHist ∅ ∅) (λ _, []).
Proof using Type.
  intros (Hg & Hb & Hs). pose proof (init_ginv n _ Hg) as Hgi. destruct Hg as (Hnet & _ & _ & Hin & _ & Hof).
  destruct Hnet as (Hp & _). split; [done|..].
  - intros i rf Hi. destruct (Hs i rf Hi) as (s & Hsi & Hm). exists s. split; [done|].
    destruct (made_at (mkHist ∅ ∅) 0 [] s) as (Hsok & Hat & Hk); [by left|done|].
    apply Hp in Hi as [_ [now ->]]. rewrite Hb, lookup_empty. split; [done|]. exists 0. rewrite Hk. done.
  - intros i rf [_ [now ->]]%Hp. by left.
  - rewrite Hin. by intros j args ?%elem_of_nil.
  - rewrite Hof. by intros i lit lii data ?%elem_of_nil.
Qed.

(** ** One log *)

(** Every server is in the state the committed log leads to at an index between
    what its peer has applied and what it has committed. *)
Definition follows R (l : list (LogEntry C)) : Prop :=
  group_log (r_group R) l ∧ ∀ i rf s, g_peer (r_group R) !! i = Some rf → r_server R !! i = Some s →
    ∃ k, lastApplied rf ≤ Z.of_nat k ≤ commitIndex rf ∧ (k ≤ length l)%nat ∧ rp_view s = rsm_run (take k l).

Lemma at_index_log tm H T l k w :
  history_ok n tm H → safe_log n H T l → k ≤ zlen l → at_index H k w → w = rsm_run (take (Z.to_nat k) l).
Proof using Hn.
  intros Ho Hl Hk (p & T' & Hp & <- & ->). f_equal. unfold zlen in *. rewrite Nat2Z.id.
  destruct (safe_comparable n Hn tm H _ _ _ _ Ho Hp Hl) as [Hpl|Hlp].
  - by rewrite <- (prefix_take_le p l), take_ge by (done || lia).
  - rewrite take_ge by (apply prefix_length in Hlp; lia). symmetry. apply prefix_length_eq; [done|lia].
Qed.

Lemma rinv_follows R H V l0 T0 :
  rinv R H V → safe_log n H T0 l0 →
  ∃ l T, safe_log n H T l ∧ l0 `prefix_of` l ∧ follows R l.
Proof using Hn.
  intros Hinv Hl0. pose proof (ri_group _ _ _ Hinv) as Hg.
  destruct (group_log_extends n Hn _ _ _ _ _ Hg Hl0) as (l & [T Hl] & Hp & Hlog).
  exists l, T. split; [done|]. split; [done|]. split; [done|]. intros i rf s Hi Hs.
  destruct (ri_server _ _ _ Hinv i rf Hi) as (s0 & Hs0 & _ & k & Hk & _ & Hr & _).
  assert (s0 = s) as -> by congruence. destruct (ginv_peer _ _ _ _ _ _ Hg Hi) as (Hw & _).
  pose proof (rw_lii _ Hw). destruct (Hlog i rf Hi) as [Hc _ _ _]. exists (Z.to_nat k).
  split_and!; [lia|lia|unfold zlen in Hc; lia|]. eapply at_index_log; [apply Hg|done|lia|done].
Qed.
End rsm.
