(* ===== verification/RsmRun.v ===== *)
(** * Running a replicated service

    [rexec] executes one chosen step of [Rsm.rstep], for any service; [rworld3] is a
    group of three servers at the start. *)

From S2P Require Import Prelude Persister RaftApi Raft RaftLog RaftAppend RaftSteps RaftSpec.
From S2P Require Import RaftElection RaftGroup RaftGroupRun Rsm.
Import Raft.

Section exec.
Context {C S W : Type} `{HC : Codec (Z * Z * list (LogEntry C) * Z * Z)} `{!Replica C S W}.
Context (n : Z).

(** Three peers that were never started, and the servers [f] on them. *)
Definition peers3 : group (C:=C) :=
  mkGroup (mkNet (<[0 := Make 3 0 MakePersister 0]> (<[1 := Make 3 1 MakePersister 0]>
    (<[2 := Make 3 2 MakePersister 0]> ∅))) [] [] ∅ ∅ ∅ ∅) [] [] [] [] [].

Definition rworld3 (f : Z → S) : rworld (C:=C) (S:=S) :=
  mkRWorld peers3 (<[0 := f 0]> (<[1 := f 1]> (<[2 := f 2]> ∅))) ∅.

Lemma rworld3_server f i s : r_server (rworld3 f) !! i = Some s → s = f i.
Proof.
  simpl. by intros [[<- <-]|[_ [[<- <-]|[_ [[<- <-]|[_ ?]]%lookup_insert_Some]]%lookup_insert_Some]]%lookup_insert_Some.
Qed.

Lemma rworld3_init f : (∀ i, rp_made [] (f i)) → rworld_init 3 (rworld3 f).
Proof.
  intros Hf. split_and!; [..|done|].
  - split_and!; try done. split; [|done]. intros i rf. simpl.
    intros [[<- <-]|[_ [[<- <-]|[_ [[<- <-]|[_ ?]]%lookup_insert_Some]]%lookup_insert_Some]]%lookup_insert_Some;
      [split; [lia|by exists 0]..|done].
  - intros i rf. unfold g_peer. simpl.
    intros [[<- <-]|[? [[<- <-]|[? [[<- <-]|[_ ?]]%lookup_insert_Some]]%lookup_insert_Some]]%lookup_insert_Some;
      [eexists; (split; [reflexivity|]); apply Hf..|done].
Qed.

(** An element of a list of requests or messages is taken out by its position. *)
Definition remove {A} (p : nat) (l : list A) : list A := take p l ++ drop (Datatypes.S p) l.

Lemma remove_middle {A} p (l : list A) x : l !! p = Some x → l = take p l ++ x :: drop (Datatypes.S p) l.
Proof. intros Hp. symmetry. by apply take_drop_middle. Qed.

Implicit Types (R : rworld (C:=C) (S:=S)).

Inductive raction :=
| RPeers (a : action (C:=C))
| RTake (i : Z)
| RDeliver (i : Z)
| RDone (i : Z)
| ROffer (p : nat)
| RKill (i : Z).

Definition rexec (a : raction) R : option (rworld (C:=C) (S:=S)) :=
  match a with
  | RPeers a =>
      guard (peer_action a = true);; G' ← gexec n a (r_group R); Some (mkRWorld G' (r_server R) (r_batch R))
  | RTake i =>
      rf ← g_peer (r_group R) !! i; guard (r_batch R !! i = None);;
      o ← returned (applyChecker_take rf); b ← o;
      Some (mkRWorld (r_group R) (r_server R) (<[i := b]> (r_batch R)))
  | RDeliver i =>
      rf ← g_peer (r_group R) !! i; s ← r_server R !! i; '(ms, c) ← r_batch R !! i;
      match ms with
      | [] => None
      | m :: ms => '(rf', s') ← returned (rp_handler rf s m);
          Some (mkRWorld (set_peer (r_group R) i rf') (<[i := s']> (r_server R)) (<[i := (ms, c)]> (r_batch R)))
      end
  | RDone i =>
      rf ← g_peer (r_group R) !! i; '(ms, c) ← r_batch R !! i;
      match ms with
      | [] => Some (mkRWorld (set_peer (r_group R) i (applyChecker_done rf c)) (r_server R) (delete i (r_batch R)))
      | _ => None
      end
  | ROffer p =>
      '(i, (lit, lii, data)) ← g_offers (r_group R) !! p; rf ← g_peer (r_group R) !! i; s ← r_server R !! i;
      '(rf', s') ← returned (rp_handler rf s (snapshot_msg data lit lii));
      Some (mkRWorld (set_peer (r_group R) i rf') (<[i := s']> (r_server R)) (r_batch R))
  | RKill i =>
      rf ← g_peer (r_group R) !! i; Some (mkRWorld (set_peer (r_group R) i (Kill rf)) (r_server R) (r_batch R))
  end.

Lemma rexec_sound a R R' : rexec a R = Some R' → rstep n R R'.
Proof.
  destruct a; simpl; try done; intros HR; exec_inv.
  - by eapply rs_peers, gexec_peers.
  - match goal with b : (list (ApplyMsg C) * Z)%type |- _ => destruct b as [ms c] end. by eapply rs_take.
  - destruct l as [|m ms]; [done|]. exec_inv. by eapply rs_deliver.
  - destruct l as [|m ms]; [|done]. exec_inv. by eapply rs_done.
  - eapply rs_offer; [by eapply list_elem_of_lookup_2|done..].
  - by eapply rs_kill.
Qed.
End exec.
