(* ===== verification/RaftTester.v ===== *)
(** * The Raft tester: raft/config.go

    The harness of the Raft tests: it starts, crashes, connects and disconnects the
    peers over the simulated network, reads what they apply into one log per
    server, and compares these logs.  A failed check ends the program or the test
    ([PFatal]).  Functions that look at the servers one after the other take
    what they see as an argument, one entry per server, since the servers go on in
    between; random names and the time are arguments. *)

From S2P Require Import Prelude Persister RaftApi Raft Labrpc.
Import Raft.

(** [for j := 0; j < n; j++]. *)
Definition for_range {S} (n : Z) (body : Z → S → Go S) (s : S) : Go S :=
  foldl (λ acc j, s ← acc; body j s) (Ret s) (seqZ 0 n).

(** A loop keeps what each of its rounds keeps, and returns when each does. *)
Lemma for_range_inv {S} (P : S → Prop) n body s s' :
  P s → (∀ j s s', 0 ≤ j < n → P s → body j s = Ret s' → P s') → for_range n body s = Ret s' → P s'.
Proof.
  unfold for_range. intros Hs Hbody.
  assert (∀ l, (∀ j, j ∈ l → 0 ≤ j < n) → ∀ s', foldl (λ acc j, s ← acc; body j s) (Ret s) l = Ret s' → P s') as Hl.
  { induction l as [|j l IH] using rev_ind; intros Hl s1; [by intros [= <-]|]. rewrite foldl_app. simpl. intros Hr.
    inv_bind Hr. apply (Hbody j x); [apply Hl; set_solver| |done]. apply IH; [set_solver|done]. }
  apply Hl. intros j. by rewrite elem_of_seqZ.
Qed.

Lemma for_range_safe {S} (P : Z → S → Prop) n body s :
  0 ≤ n → P 0 s → (∀ j s, 0 ≤ j < n → P j s → ∃ s', body j s = Ret s' ∧ P (j + 1) s') →
  ∃ s', for_range n body s = Ret s' ∧ P n s'.
Proof.
  intros Hn Hs Hbody. unfold for_range.
  assert (∀ k : nat, Z.of_nat k ≤ n →
    ∃ s', foldl (λ acc j, s ← acc; body j s) (Ret s) (seqZ 0 (Z.of_nat k)) = Ret s' ∧ P (Z.of_nat k) s') as Hk.
  { induction k as [|k IH]; intros Hle; [by exists s|]. destruct IH as (s1 & E1 & H1); [lia|].
    destruct (Hbody (Z.of_nat k) s1 ltac:(lia) H1) as (s2 & E2 & H2). exists s2.
    rewrite seqZ_S, foldl_app, E1. simpl foldl. rewrite Z.add_0_l.
    split; [exact E2|]. by replace (Z.of_nat (Datatypes.S k)) with (Z.of_nat k + 1) by lia. }
  destruct (Hk (Z.to_nat n)) as (s' & E & Hp); [lia|]. rewrite Z2Nat.id in * by lia. by exists s'.
Qed.

(** What an applier complains about. *)
Inductive apply_error :=
| EDiffer (index i j : Z)      (* servers [i] and [j] committed different values *)
| EOrder (i index : Z).        (* server [i] applied out of order *)

Definition SnapShotInterval : Z := 10.

Section tester.
Context {C : Type} `{EqDecision C}.

(** The fields of the harness; its peers are those of the group, and each has the
    [Persister] that [saved] points to.  Of [rafts] only whether a pointer is not
    nil is kept here.  A slice of end names is nil until its server is started. *)
Record config := mkConfig {
  cfg_n : Z;
  cfg_net : Network;
  rafts : list bool;
  applyErr : list (option apply_error);
  connected : list bool;
  endnames : list (option (list name));
  logs : list (gmap Z (option C));
  cfg_rpcs0 : Z;
  cfg_bytes0 : Z;
  cfg_maxIndex : Z;
  cfg_maxIndex0 : Z
}.
Implicit Types (cfg : config).

Definition with_net cfg (net : Network) : config :=
  mkConfig (cfg_n cfg) net (rafts cfg) (applyErr cfg) (connected cfg) (endnames cfg) (logs cfg) (cfg_rpcs0 cfg)
    (cfg_bytes0 cfg) (cfg_maxIndex cfg) (cfg_maxIndex0 cfg).
Definition with_connected cfg (c : list bool) : config :=
  mkConfig (cfg_n cfg) (cfg_net cfg) (rafts cfg) (applyErr cfg) c (endnames cfg) (logs cfg) (cfg_rpcs0 cfg)
    (cfg_bytes0 cfg) (cfg_maxIndex cfg) (cfg_maxIndex0 cfg).
Definition with_endnames cfg (e : list (option (list name))) : config :=
  mkConfig (cfg_n cfg) (cfg_net cfg) (rafts cfg) (applyErr cfg) (connected cfg) e (logs cfg) (cfg_rpcs0 cfg)
    (cfg_bytes0 cfg) (cfg_maxIndex cfg) (cfg_maxIndex0 cfg).
Definition with_logs cfg (l : list (gmap Z (option C))) : config :=
  mkConfig (cfg_n cfg) (cfg_net cfg) (rafts cfg) (applyErr cfg) (connected cfg) (endnames cfg) l (cfg_rpcs0 cfg)
    (cfg_bytes0 cfg) (cfg_maxIndex cfg) (cfg_maxIndex0 cfg).
Definition with_rafts cfg (r : list bool) : config :=
  mkConfig (cfg_n cfg) (cfg_net cfg) r (applyErr cfg) (connected cfg) (endnames cfg) (logs cfg) (cfg_rpcs0 cfg)
    (cfg_bytes0 cfg) (cfg_maxIndex cfg) (cfg_maxIndex0 cfg).
Definition with_maxIndex cfg (m : Z) : config :=
  mkConfig (cfg_n cfg) (cfg_net cfg) (rafts cfg) (applyErr cfg) (connected cfg) (endnames cfg) (logs cfg) (cfg_rpcs0 cfg)
    (cfg_bytes0 cfg) m (cfg_maxIndex0 cfg).

(** ** The network of the servers *)

(** [cfg.endnames[i][j]]. *)
Definition endname_at cfg (i j : Z) : Go name :=
  l ← index (endnames cfg) i;
  match l with None => Panic PIndex | Some l => index l j end.

Definition enable_at cfg (i j : Z) (yes : bool) : Go config :=
  e ← endname_at cfg i j; mret (with_net cfg (Enable e yes (cfg_net cfg))).

Definition connect (i : Z) cfg : Go config :=
  c ← set_index (connected cfg) i true;
  cfg1 ← for_range (cfg_n cfg) (λ (j : Z) (cfg : config), b ← index (connected cfg) j;
           if b : bool then enable_at cfg i j true else mret cfg) (with_connected cfg c);
  for_range (cfg_n cfg) (λ (j : Z) (cfg : config), b ← index (connected cfg) j;
    if b : bool then enable_at cfg j i true else mret cfg) cfg1.

Definition disconnect (i : Z) cfg : Go config :=
  c ← set_index (connected cfg) i false;
  cfg1 ← for_range (cfg_n cfg) (λ (j : Z) (cfg : config), l ← index (endnames cfg) i;
           match l with Some _ => enable_at cfg i j false | None => mret cfg end) (with_connected cfg c);
  for_range (cfg_n cfg) (λ (j : Z) (cfg : config), l ← index (endnames cfg) j;
    match l with Some _ => enable_at cfg j i false | None => mret cfg end) cfg1.

(** What [crash1] leaves of the storage of a server: a new object with a copy of
    the old content. *)
Definition crash1_saved (ps : Persister) : Persister :=
  let saved := Copy ps in
  SaveStateAndSnapshot (mkPersister [] []) (ReadRaftState saved) (ReadSnapshot saved).

(** The rest of [crash1]; [Kill] is a step of the peer. *)
Definition crash1 (i : Z) cfg : Go config :=
  cfg1 ← disconnect i cfg;
  let cfg2 := with_net cfg1 (DeleteServer (NInt i) (cfg_net cfg1)) in
  rf ← index (rafts cfg2) i;
  if rf : bool then r ← set_index (rafts cfg2) i false; mret (with_rafts cfg2 r) else mret cfg2.

(** The storage [start1] makes the new peer from. *)
Definition start1_saved (saved : option Persister) : Persister :=
  match crash1_saved <$> saved with Some ps => Copy ps | None => MakePersister end.

(** The rest of [start1]: [names] are the random names of the new ends, [srv] the
    new server object, [Make] a step of the peer. *)
Definition start1 (i : Z) (names : list name) (srv : Z) cfg : Go config :=
  cfg1 ← crash1 i cfg;
  e ← set_index (endnames cfg1) i (Some names);
  cfg2 ← for_range (cfg_n cfg) (λ (j : Z) (cfg : config), x ← index names j; net ← MakeEnd x (cfg_net cfg);
           mret (with_net cfg (Connect x (NInt j) net))) (with_endnames cfg1 e);
  r ← set_index (rafts cfg2) i true;
  mret (with_net (with_rafts cfg2 r) (AddServer (NInt i) srv (cfg_net cfg2))).

Definition setunreliable (unrel : bool) cfg : config := with_net cfg (Reliable (negb unrel) (cfg_net cfg)).

Definition setlongreordering (longrel : bool) cfg : config :=
  with_net cfg (LongReordering longrel (cfg_net cfg)).

Definition rpcTotal cfg : Z := GetTotalCount (cfg_net cfg).
Definition bytesTotal cfg : Z := GetTotalBytes (cfg_net cfg).

(** [names i] are the random names for server [i], [srv i] its server object. *)
Definition make_config (n : Z) (unreliable : bool) (names : Z → list name) (srv : Z → Z) : Go config :=
  let k := Z.to_nat n in
  let cfg0 := mkConfig n MakeNetwork (replicate k false) (replicate k None) (replicate k false) (replicate k None) (replicate k ∅) 0 0 0 0 in
  let cfg1 := setunreliable unreliable cfg0 in
  cfg2 ← for_range n (λ i cfg, start1 i (names i) (srv i) cfg)
           (with_net cfg1 (LongDelays true (cfg_net cfg1)));
  for_range n connect cfg2.

(** ** The appliers *)

Fixpoint checkLogs_scan (i j : Z) (m : ApplyMsg C) (ls : list (gmap Z (option C))) (err_msg : option apply_error)
  : option apply_error :=
  match ls with
  | [] => err_msg
  | l :: ls' => checkLogs_scan i (j + 1) m ls'
      (match l !! CommandIndex m with
       | Some old => if bool_decide (old = Command m) then err_msg else Some (EDiffer (CommandIndex m) i j)
       | None => err_msg
       end)
  end.

Definition checkLogs (i : Z) (m : ApplyMsg C) cfg : Go (config * (option apply_error * bool)) :=
  let err_msg := checkLogs_scan i 0 m (logs cfg) None in
  li ← index (logs cfg) i;
  let prevok := bool_decide (is_Some (li !! (CommandIndex m - 1))) in
  l ← set_index (logs cfg) i (<[CommandIndex m := Command m]> li);
  let cfg1 := with_logs cfg l in
  mret (if cfg_maxIndex cfg1 <? CommandIndex m then with_maxIndex cfg1 (CommandIndex m) else cfg1, (err_msg, prevok)).

(** [checkLogs] and what both appliers make of it: [log.Fatalf] ends the program. *)
Definition check_command (i : Z) (m : ApplyMsg C) cfg : Go config :=
  '(cfg', (err_msg, prevok)) ← checkLogs i m cfg;
  let err_msg := if (1 <? CommandIndex m) && negb prevok then Some (EOrder i (CommandIndex m)) else err_msg in
  match err_msg with Some _ => Panic PFatal | None => mret cfg' end.

(** One message of [applier]. *)
Definition applier (i : Z) (m : ApplyMsg C) cfg : Go config :=
  if negb (CommandValid m) then mret cfg else check_command i m cfg.

Context `{Codec C} `{Codec (Z * Z * list (LogEntry C) * Z * Z)}.

(** A call on [cfg.rafts[i]], which is [rf] unless it is nil. *)
Definition the_raft (i : Z) (rf : Raft C) cfg : Go (Raft C) :=
  b ← index (rafts cfg) i; if b : bool then mret rf else Panic PNil.

(** One message of [applierSnap]; the last argument is its variable
    [lastApplied].  Encoding nil panics. *)
Definition applierSnap (i : Z) (m : ApplyMsg C) (rf : Raft C) cfg (lastApplied : Z) : Go (Raft C * config * Z) :=
  if SnapshotValid m then
    rf ← the_raft i rf cfg;
    '(rf', ok) ← CondInstallSnapshot rf (SnapshotTerm m) (SnapshotIndex m) (RaftApi.Snapshot m);
    if ok : bool then
      match gob_decode (RaftApi.Snapshot m) with
      | None => Panic PFatal
      | Some v =>
          l ← set_index (logs cfg) i {[SnapshotIndex m := Some v]};
          mret (rf', with_logs cfg l, SnapshotIndex m)
      end
    else mret (rf', cfg, lastApplied)
  else if CommandValid m && (lastApplied <? CommandIndex m) then
    cfg' ← check_command i m cfg;
    if Z.rem (CommandIndex m + 1) SnapShotInterval =? 0 then
      match Command m with
      | None => Panic PNil
      | Some v =>
          rf ← the_raft i rf cfg';
          rf' ← Raft.Snapshot rf (CommandIndex m) (gob_encode v); mret (rf', cfg', CommandIndex m)
      end
    else mret (rf, cfg', CommandIndex m)
  else mret (rf, cfg, lastApplied).

(** ** Starting a command *)

(** The search of [one] for a server that accepts the command: the next [k] servers
    after [starts], with the peers that are running. *)
Fixpoint one_find (k : nat) (starts : Z) (cmd : C) (rafts : gmap Z (Raft C)) cfg
  : Go (gmap Z (Raft C) * Z * Z) :=
  match k with
  | O => mret (rafts, starts, -1)
  | S k =>
      let starts := Z.rem (starts + 1) (cfg_n cfg) in
      b ← index (connected cfg) starts;
      match (if b : bool then rafts !! starts else None) with
      | None => one_find k starts cmd rafts cfg
      | Some rf =>
          '(rf', (index1, _, ok)) ← Start rf cmd;
          if ok : bool then mret (<[starts := rf']> rafts, starts, index1)
          else one_find k starts cmd (<[starts := rf']> rafts) cfg
      end
  end.
End tester.
Arguments config : clear implicits.

(** ** Looking at the servers *)

(** What [GetState] said of each server, [None] for those that are not connected. *)
Notation states := (list (option (Z * bool))).

(** [checkOneLeader]: the leaders seen in one pass, by term. *)
Fixpoint seen_leaders (i : Z) (obs : states) (leaders : gmap Z (list Z)) : gmap Z (list Z) :=
  match obs with
  | [] => leaders
  | Some (term, true) :: obs' =>
      seen_leaders (i + 1) obs' (<[term := map_get [] leaders term ++ [i]]> leaders)
  | _ :: obs' => seen_leaders (i + 1) obs' leaders
  end.

Definition last_term `{KeyOrder} (leaders : gmap Z (list Z)) : Go Z :=
  foldl (λ acc term, last ← acc;
    if 1 <? zlen (map_get [] leaders term) then Panic PFatal
    else mret (if last <? term then term else last)) (Ret (-1)) (key_order leaders).

Definition leader_pass `{KeyOrder} (obs : states) : Go (option Z) :=
  let leaders := seen_leaders 0 obs ∅ in
  lastTermWithLeader ← last_term leaders;
  if bool_decide (leaders = ∅) then mret None
  else l ← index (map_get [] leaders lastTermWithLeader) 0; mret (Some l).

(** The source makes ten passes. *)
Fixpoint checkOneLeader `{KeyOrder} (passes : list states) : Go Z :=
  match passes with
  | [] => Panic PFatal
  | obs :: passes' =>
      o ← leader_pass obs;
      match o with Some l => mret l | None => checkOneLeader passes' end
  end.

Fixpoint checkTerms (obs : states) (term : Z) : Go Z :=
  match obs with
  | [] => mret term
  | None :: obs' => checkTerms obs' term
  | Some (xterm, _) :: obs' =>
      if term =? -1 then checkTerms obs' xterm
      else if negb (term =? xterm) then Panic PFatal else checkTerms obs' term
  end.

Fixpoint checkNoLeader (obs : states) : Go unit :=
  match obs with
  | [] => mret tt
  | Some (_, true) :: _ => Panic PFatal
  | _ :: obs' => checkNoLeader obs'
  end.

Section committed.
Context {C : Type} `{EqDecision C}.

(** [nCommitted]: what the log of each server has at the index, and the error of
    its applier. *)
Fixpoint nCommitted (errs : list (option apply_error)) (seen : list (option (option C))) (count : Z) (cmd : option C)
  : Go (Z * option C) :=
  match errs, seen with
  | Some _ :: _, _ => Panic PFatal
  | None :: errs', Some cmd1 :: seen' =>
      if (0 <? count) && negb (bool_decide (cmd = cmd1)) then Panic PFatal
      else nCommitted errs' seen' (count + 1) cmd1
  | None :: errs', None :: seen' => nCommitted errs' seen' count cmd
  | _, _ => mret (count, cmd)
  end.

(** What [wait] and [one] see in one round: [nCommitted], and for [wait] the terms
    of the servers, [None] for one that is down. *)
Record round := mkRound {
  rd_errs : list (option apply_error);
  rd_seen : list (option (option C));
  rd_terms : list (option Z)
}.

Definition nCommitted_at (r : round) : Go (Z * option C) := nCommitted (rd_errs r) (rd_seen r) 0 None.

(** Some server is in a later term. *)
Fixpoint moved_on (startTerm : Z) (terms : list (option Z)) : Go bool :=
  match terms with
  | [] => mret false
  | None :: _ => Panic PNil
  | Some t :: terms' => if startTerm <? t then mret true else moved_on startTerm terms'
  end.

(** [wait]: the source makes up to thirty rounds and looks a last time; [None] is
    its result -1. *)
Fixpoint wait_rounds (rounds : list round) (n startTerm : Z) : Go bool :=
  match rounds with
  | [] => mret false
  | r :: rounds' =>
      '(nd, _) ← nCommitted_at r;
      if n <=? nd then mret false
      else
        late ← (if -1 <? startTerm then moved_on startTerm (rd_terms r) else mret false);
        if late : bool then mret true else wait_rounds rounds' n startTerm
  end.

Definition wait (rounds : list round) (final : round) (n startTerm : Z) : Go (option (option C)) :=
  late ← wait_rounds rounds n startTerm;
  if late : bool then mret None
  else
    '(nd, cmd) ← nCommitted_at final;
    if nd <? n then Panic PFatal else mret (Some cmd).

(** The inner loop of [one]: has the command been committed at the index? *)
Fixpoint one_agreed (rounds : list round) (expectedServers : Z) (cmd : C) : Go bool :=
  match rounds with
  | [] => mret false
  | r :: rounds' =>
      '(nd, cmd1) ← nCommitted_at r;
      if (0 <? nd) && (expectedServers <=? nd) && bool_decide (cmd1 = Some cmd) then mret true
      else one_agreed rounds' expectedServers cmd
  end.

(** [one] after a server accepted the command at [index]: [Some index] when it
    returns, [None] when it tries again. *)
Definition one_wait (index : Z) (rounds : list round) (expectedServers : Z) (cmd : C) (retry : bool)
  : Go (option Z) :=
  if index =? -1 then mret None
  else
    b ← one_agreed rounds expectedServers cmd;
    if b : bool then mret (Some index)
    else if negb retry then Panic PFatal else mret None.
End committed.
Arguments round : clear implicits.

(** The largest Raft state on storage. *)
Definition LogSize (saved : list Persister) : Z :=
  foldl (λ logsize ps, if logsize <? RaftStateSize ps then RaftStateSize ps else logsize) 0 saved.

(** The counters of a test: RPCs, bytes and agreements since [begin]. *)
Definition begin {C} (cfg : config C) : config C :=
  mkConfig (cfg_n cfg) (cfg_net cfg) (rafts cfg) (applyErr cfg) (connected cfg) (endnames cfg) (logs cfg) (rpcTotal cfg)
    (bytesTotal cfg) (cfg_maxIndex cfg) (cfg_maxIndex cfg).

Definition end_stats {C} (cfg : config C) : Z * Z * Z * Z :=
  (cfg_n cfg, rpcTotal cfg - cfg_rpcs0 cfg, bytesTotal cfg - cfg_bytes0 cfg, cfg_maxIndex cfg - cfg_maxIndex0 cfg).

(** Names for the sample runs. *)
Definition names3 (base i : Z) : list name := (λ j, NInt (base + 10 * i + j)) <$> [0; 1; 2].
