(* ===== verification/RaftTesterNet.v ===== *)
(** * The partitions the Raft tests make

    The tester of raft/config.go gives every server one client end per server, with
    fresh names at every start, and enables and disables ends to connect and cut
    off servers.  At every moment exactly the ends between connected servers are
    enabled, each leads to its server, and the ends of instances that were
    replaced stay disabled. *)

From S2P Require Import Prelude Persister RaftApi Raft Labrpc RaftTester.

(** Changing a field of a record the harness is threaded through. *)
Definition set_enabled (rn : Network) (en : gmap name bool) : Network :=
  mkNetwork (reliable rn) (longDelays rn) (longReordering rn) (ends rn) en (servers rn) (connections rn)
    (net_done rn) (net_count rn) (net_bytes rn).

Definition on (en : gmap name bool) (e : name) : Prop := map_get false en e = true.

Lemma on_insert en e x b : on (<[x := b]> en) e ↔ (e = x ∧ b = true) ∨ (e ≠ x ∧ on en e).
Proof.
  unfold on. destruct (decide (e = x)) as [->|Hne].
  - rewrite map_get_insert_eq. naive_solver.
  - rewrite map_get_insert_ne by done. naive_solver.
Qed.

Section net.
Context {C : Type}.
Implicit Types (cfg : config C) (e : name) (i j : Z).

(** [e] is the end from server [i] to server [j]; server [i] is connected. *)
Definition cur cfg i j e : Prop := ∃ l, 0 ≤ i ∧ 0 ≤ j ∧
  endnames cfg !! Z.to_nat i = Some (Some l) ∧ l !! Z.to_nat j = Some e.
Definition conn cfg i : Prop := 0 ≤ i ∧ connected cfg !! Z.to_nat i = Some true.
Definition started cfg i : Prop := ∃ l, endnames cfg !! Z.to_nat i = Some (Some l).

Record net_ok (n : Z) cfg : Prop := {
  no_n : cfg_n cfg = n;
  no_pos : 0 ≤ n;
  no_rafts : zlen (rafts cfg) = n;
  no_connected : zlen (connected cfg) = n;
  no_endnames : zlen (endnames cfg) = n;
  no_row : ∀ (k : nat) l, endnames cfg !! k = Some (Some l) → zlen l = n;
  no_started : ∀ i, conn cfg i → started cfg i;
  no_inj : ∀ e i j i' j', cur cfg i j e → cur cfg i' j' e → i = i' ∧ j = j';
  no_end : ∀ e i j, cur cfg i j e → e ∈ ends (cfg_net cfg) ∧ connections (cfg_net cfg) !! e = Some (Some (NInt j));
  no_enabled : ∀ e, on (enabled (cfg_net cfg)) e ↔ ∃ i j, cur cfg i j e ∧ conn cfg i ∧ conn cfg j
}.

Lemma endname_at_Ret n cfg i j :
  net_ok n cfg → 0 ≤ i → started cfg i → 0 ≤ j < n → ∃ e, endname_at cfg i j = Ret e ∧ cur cfg i j e.
Proof.
  intros Hok Hi [l Hl] Hj. pose proof (no_row _ _ Hok _ _ Hl). destruct (index_safe l j) as [e He]; [lia|].
  exists e. unfold endname_at. assert (index (endnames cfg) i = Ret (Some l)) as -> by by apply index_Ret.
  split; [done|]. apply index_Ret in He as [_ ?]. exists l. split_and!; [done|lia|done|done].
Qed.

Lemma endname_at_cur cfg i j e : endname_at cfg i j = Ret e → cur cfg i j e.
Proof.
  unfold endname_at. intros Hr. inv_bind Hr. apply index_Ret in Hb as [? ?]. destruct x as [l|]; [|done].
  apply index_Ret in Hr as [? ?]. by exists l.
Qed.

Lemma cur_unique cfg i j e e' : cur cfg i j e → cur cfg i j e' → e = e'.
Proof. intros (l & _ & _ & Hl & He) (l' & _ & _ & Hl' & He'). congruence. Qed.

(** ** Loops that enable or disable ends *)
Section loops.
Context (n : Z) (cfg : config C) (Hok : net_ok n cfg) (c : list bool) (Hc : zlen c = n).
Context (src dst : Z → Z) (Hsrc : ∀ j, 0 ≤ j < n → 0 ≤ src j < n) (Hdst : ∀ j, 0 ≤ j < n → 0 ≤ dst j < n).

(** The harness with other connections and other enabled ends. *)
Definition variant (en : gmap name bool) : config C :=
  RaftTester.with_net (with_connected cfg c) (set_enabled (cfg_net cfg) en).

Lemma enable_variant en i j b :
  0 ≤ i → started cfg i → 0 ≤ j < n →
  ∃ e, cur cfg i j e ∧ enable_at (variant en) i j b = Ret (variant (<[e := b]> en)).
Proof using Hok.
  intros Hi Hs Hj. destruct (endname_at_Ret n cfg i j Hok Hi Hs Hj) as (e & He & Hcur). exists e. split; [done|].
  unfold enable_at. change (endname_at (variant en) i j) with (endname_at cfg i j). by rewrite He.
Qed.

Lemma enable_loop en0 :
  (∀ j, 0 ≤ j < n → c !! Z.to_nat j = Some true → started cfg (src j)) →
  ∃ en, for_range n (λ j s, b ← index (connected s) j; if b : bool then enable_at s (src j) (dst j) true else mret s)
          (variant en0) = Ret (variant en) ∧
    ∀ e, on en e ↔ on en0 e ∨ ∃ j, 0 ≤ j < n ∧ c !! Z.to_nat j = Some true ∧ cur cfg (src j) (dst j) e.
Proof using Hok Hc Hsrc Hdst.
  intros Hst. destruct (for_range_safe (λ k s, ∃ en, s = variant en ∧
    ∀ e, on en e ↔ on en0 e ∨ ∃ j, 0 ≤ j < k ∧ c !! Z.to_nat j = Some true ∧ cur cfg (src j) (dst j) e) n
    (λ j s, b ← index (connected s) j; if b : bool then enable_at s (src j) (dst j) true else mret s) (variant en0))
    as (s & Hs & en & -> & Hen); [apply Hok| | |by exists en].
  - exists en0. split; [done|]. intros e. split; [by left|]. intros [?|(j & ? & _)]; [done|lia].
  - intros j s Hj (en & -> & Hen). destruct (index_safe c j) as [b Hb]; [lia|].
    change (connected (variant en)) with c. rewrite Hb. apply index_Ret in Hb as [_ Hb].
    assert (∀ e, (∃ j', 0 ≤ j' < j + 1 ∧ c !! Z.to_nat j' = Some true ∧ cur cfg (src j') (dst j') e) ↔
      (∃ j', 0 ≤ j' < j ∧ c !! Z.to_nat j' = Some true ∧ cur cfg (src j') (dst j') e) ∨
      (b = true ∧ cur cfg (src j) (dst j) e)) as Hsucc.
    { intros e. split.
      - intros (j' & ? & ? & ?). destruct (decide (j' = j)) as [->|]; [right; split; [congruence|done]|left].
        exists j'. split; [lia|done].
      - intros [(j' & ? & ? & ?)|[-> ?]]; [exists j'; split; [lia|done]|exists j; split; [lia|done]]. }
    destruct b.
    + destruct (enable_variant en (src j) (dst j) true) as (e & Hcur & He); [by apply Hsrc|by apply Hst|by apply Hdst|]. rewrite bind_Ret, He.
      eexists. split; [done|]. eexists. split; [done|]. intros e'. rewrite on_insert, Hsucc, Hen.
      split.
      * intros [[-> _]|[_ ?]]; naive_solver.
      * intros [?|[?|[_ Hcur']]]; [destruct (decide (e' = e)); naive_solver..|].
        left. split; [by eapply cur_unique|done].
    + eexists. split; [done|]. exists en. split; [done|]. intros e. rewrite Hsucc, Hen. naive_solver.
Qed.

Lemma disable_loop en0 :
  ∃ en, for_range n (λ j s, l ← index (endnames s) (src j);
            match l with Some _ => enable_at s (src j) (dst j) false | None => mret s end)
          (variant en0) = Ret (variant en) ∧
    ∀ e, on en e ↔ on en0 e ∧ ¬ ∃ j, 0 ≤ j < n ∧ cur cfg (src j) (dst j) e.
Proof using Hok Hc Hsrc Hdst.
  destruct (for_range_safe (λ k s, ∃ en, s = variant en ∧
    ∀ e, on en e ↔ on en0 e ∧ ¬ ∃ j, 0 ≤ j < k ∧ cur cfg (src j) (dst j) e) n
    (λ j s, l ← index (endnames s) (src j);
       match l with Some _ => enable_at s (src j) (dst j) false | None => mret s end) (variant en0))
    as (s & Hs & en & -> & Hen); [apply Hok| | |by exists en].
  - exists en0. split; [done|]. intros e. split; [|by intros [? _]]. intros ?. split; [done|]. intros (j & ? & _). lia.
  - intros j s Hj (en & -> & Hen). destruct (Hsrc j Hj). pose proof (no_endnames _ _ Hok).
    destruct (index_safe (endnames cfg) (src j)) as [ol Hol]; [lia|].
    change (endnames (variant en)) with (endnames cfg). rewrite Hol. apply index_Ret in Hol as [_ Hol].
    assert (∀ e, (∃ j', 0 ≤ j' < j + 1 ∧ cur cfg (src j') (dst j') e) ↔
      (∃ j', 0 ≤ j' < j ∧ cur cfg (src j') (dst j') e) ∨ cur cfg (src j) (dst j) e) as Hsucc.
    { intros e. split.
      - intros (j' & ? & ?). destruct (decide (j' = j)) as [->|]; [by right|left]. exists j'. split; [lia|done].
      - intros [(j' & ? & ?)|?]; [exists j'; split; [lia|done]|exists j; split; [lia|done]]. }
    destruct ol as [l|].
    + destruct (enable_variant en (src j) (dst j) false) as (e & Hcur & He); [done|by exists l|by apply Hdst|].
      rewrite bind_Ret, He. eexists. split; [done|]. eexists. split; [done|]. intros e'. rewrite on_insert, Hsucc, Hen.
      split.
      * intros [[_ ?]|(Hne & ? & Hno)]; [done|]. split; [done|]. intros [?|?]; [done|].
        apply Hne. by eapply cur_unique.
      * intros [? Hno]. right. split_and!; [|done|by auto]. intros ->. by apply Hno; right.
    + eexists. split; [done|]. exists en. split; [done|]. intros e. rewrite Hsucc, Hen.
      assert (¬ cur cfg (src j) (dst j) e) by (intros (l & _ & _ & ? & _); congruence). naive_solver.
Qed.
End loops.

(** ** The operations of the harness *)

(** The harness when other servers are connected and other ends enabled. *)
Lemma net_ok_variant n cfg c en :
  net_ok n cfg → zlen c = n → (∀ i, 0 ≤ i → c !! Z.to_nat i = Some true → started cfg i) →
  (∀ e, on en e ↔ ∃ i j, cur cfg i j e ∧ c !! Z.to_nat i = Some true ∧ c !! Z.to_nat j = Some true) →
  net_ok n (variant cfg c en).
Proof.
  intros [Hn Hp Hl He Hr Hs Hi Hend Hen] Hc Hst Hon. split; try done.
  - intros i [? ?]. by apply Hst.
  - intros e. simpl. rewrite Hon. split.
    + intros (i & j & Hcur & ? & ?). exists i, j. destruct Hcur as (l & ? & ? & ?). by split_and!; [exists l|split|split].
    + intros (i & j & Hcur & [_ ?] & [_ ?]). by exists i, j.
Qed.

Lemma cur_range n cfg i j e : net_ok n cfg → cur cfg i j e → 0 ≤ i < n ∧ 0 ≤ j < n.
Proof.
  intros Hok (l & ? & ? & Hl & He). pose proof (no_row _ _ Hok _ _ Hl). pose proof (no_endnames _ _ Hok).
  apply lookup_lt_Some in Hl, He. unfold zlen in *. lia.
Qed.

Lemma with_connected_variant cfg c : with_connected cfg c = variant cfg c (enabled (cfg_net cfg)).
Proof. unfold variant, set_enabled, with_connected, RaftTester.with_net. by destruct cfg as [? []]. Qed.

Lemma connect_ok n cfg i :
  net_ok n cfg → 0 ≤ i < n → started cfg i →
  ∃ en, connect i cfg = Ret (variant cfg (<[Z.to_nat i := true]> (connected cfg)) en) ∧
    net_ok n (variant cfg (<[Z.to_nat i := true]> (connected cfg)) en).
Proof.
  intros Hok Hi Hst. pose proof (no_connected _ _ Hok) as Hlen. set (c := <[Z.to_nat i := true]> (connected cfg)).
  assert (zlen c = n) as Hc by (unfold c; by rewrite zlen_insert).
  assert (c !! Z.to_nat i = Some true) as Hci by (unfold c; rewrite list_lookup_insert_eq; [done|unfold zlen in *; lia]).
  assert (∀ j, 0 ≤ j → c !! Z.to_nat j = Some true → started cfg j) as Hcs.
  { intros j Hj. unfold c. intros [(Heq & _)|[_ Hjc]]%list_lookup_insert_Some; [by replace j with i by lia|].
    by apply (no_started _ _ Hok). }
  destruct (enable_loop n cfg Hok c Hc (λ _, i) (λ j, j) ltac:(by intros; lia) ltac:(by intros; lia) (enabled (cfg_net cfg)))
    as (en1 & E1 & H1); [done|].
  destruct (enable_loop n cfg Hok c Hc (λ j, j) (λ _, i) ltac:(by intros; lia) ltac:(by intros; lia) en1)
    as (en2 & E2 & H2); [intros j Hj; apply Hcs; lia|].
  exists en2. split.
  - unfold connect. rewrite set_index_Ret by lia. rewrite bind_Ret. fold c. rewrite (no_n _ _ Hok), with_connected_variant.
    rewrite E1, bind_Ret. exact E2.
  - apply net_ok_variant; try done. intros e. rewrite H2, H1, (no_enabled _ _ Hok).
    assert (∀ j, conn cfg j → c !! Z.to_nat j = Some true) as Hmono.
    { intros j [? Hj]. unfold c. destruct (decide (j = i)) as [->|Hne]; [done|].
      by rewrite list_lookup_insert_ne by lia. }
    split.
    + intros [[(a & b & ? & ? & ?)|(j & ? & ? & ?)]|(j & ? & ? & ?)]; [exists a, b; auto|by exists i, j|by exists j, i].
    + intros (a & b & Hcur & Ha & Hb). destruct (cur_range _ _ _ _ _ Hok Hcur).
      destruct (decide (a = i)) as [->|Hai]; [left; right; by exists b|].
      destruct (decide (b = i)) as [->|Hbi]; [right; by exists a|]. left; left. exists a, b.
      unfold c in Ha, Hb. rewrite list_lookup_insert_ne in Ha, Hb by lia. by split_and!; [|split; [lia|]..].
Qed.

Lemma disconnect_ok n cfg i :
  net_ok n cfg → 0 ≤ i < n →
  ∃ en, disconnect i cfg = Ret (variant cfg (<[Z.to_nat i := false]> (connected cfg)) en) ∧
    net_ok n (variant cfg (<[Z.to_nat i := false]> (connected cfg)) en).
Proof.
  intros Hok Hi. pose proof (no_connected _ _ Hok) as Hlen. set (c := <[Z.to_nat i := false]> (connected cfg)).
  assert (zlen c = n) as Hc by (unfold c; by rewrite zlen_insert).
  assert (∀ j, 0 ≤ j → c !! Z.to_nat j = Some true ↔ j ≠ i ∧ conn cfg j) as Hcj.
  { intros j Hj. unfold c. rewrite list_lookup_insert_Some. unfold conn. split.
    - intros [(_ & ? & _)|[Hne ?]]; [done|]. split; [intros ->; done|done].
    - intros [Hne [_ ?]]. right. split; [lia|done]. }
  destruct (disable_loop n cfg Hok c Hc (λ _, i) (λ j, j) ltac:(by intros; lia) ltac:(by intros; lia) (enabled (cfg_net cfg)))
    as (en1 & E1 & H1).
  destruct (disable_loop n cfg Hok c Hc (λ j, j) (λ _, i) ltac:(by intros; lia) ltac:(by intros; lia) en1) as (en2 & E2 & H2).
  exists en2. split.
  - unfold disconnect. rewrite set_index_Ret by lia. rewrite bind_Ret. fold c. rewrite (no_n _ _ Hok), with_connected_variant.
    rewrite E1, bind_Ret. exact E2.
  - apply net_ok_variant; try done; [intros j Hj [_ ?]%Hcj; [by apply (no_started _ _ Hok)|done]|].
    intros e. rewrite H2, H1, (no_enabled _ _ Hok). split.
    + intros [[(a & b & Hcur & Ha & Hb) Hno1] Hno2]. destruct (cur_range _ _ _ _ _ Hok Hcur). exists a, b.
      split; [done|]. rewrite !Hcj by lia. split; (split; [|done]); intros ->; [apply Hno1; by exists b|apply Hno2; by exists a].
    + intros (a & b & Hcur & Ha & Hb). destruct (cur_range _ _ _ _ _ Hok Hcur). rewrite Hcj in Ha, Hb by lia.
      destruct Ha as [Hai Ha], Hb as [Hbi Hb]. split; [split; [by exists a, b|]|]; intros (j & _ & Hj);
        destruct (no_inj _ _ Hok _ _ _ _ _ Hcur Hj); done.
Qed.

Lemma net_ok_same n cfg net :
  net_ok n cfg → enabled net = enabled (cfg_net cfg) → ends net = ends (cfg_net cfg) →
  connections net = connections (cfg_net cfg) → net_ok n (RaftTester.with_net cfg net).
Proof.
  intros [Hn Hp Hra Hl He Hr Hs Hi Hend Hen] E1 E2 E3. split; try done; simpl; rewrite ?E1, ?E2, ?E3; done.
Qed.

Lemma net_ok_rafts n cfg r : net_ok n cfg → zlen r = n → net_ok n (with_rafts cfg r).
Proof. intros [Hn Hp Hra Hl He Hr Hs Hi Hend Hen] Hlen. by split. Qed.

Lemma crash1_ok n cfg i :
  net_ok n cfg → 0 ≤ i < n →
  ∃ cfg', crash1 i cfg = Ret cfg' ∧ net_ok n cfg' ∧ endnames cfg' = endnames cfg ∧
    connected cfg' = <[Z.to_nat i := false]> (connected cfg) ∧ ends (cfg_net cfg') = ends (cfg_net cfg).
Proof.
  intros Hok Hi. destruct (disconnect_ok n cfg i Hok Hi) as (en & E & Hok'). unfold crash1. rewrite E, bind_Ret.
  pose proof (no_rafts _ _ Hok') as Hra. simpl rafts in *.
  destruct (index_safe (rafts cfg) i) as [b Hb]; [simpl in Hra; lia|]. rewrite Hb, bind_Ret. destruct b.
  - rewrite set_index_Ret, bind_Ret by (simpl in Hra; lia). eexists. split; [done|]. split; [|done].
    apply net_ok_rafts; [by apply net_ok_same|]. by rewrite zlen_insert.
  - eexists. split; [done|]. split; [by apply net_ok_same|done].
Qed.

(** New names for the ends of a server. *)
Definition fresh_names (n : Z) (rn : Network) (names : list name) : Prop :=
  zlen names = n ∧ NoDup names ∧ ∀ x, x ∈ names → x ∉ ends rn.

(** The network after the first [k] ends were made. *)
Record made (rn : Network) (names : list name) (k : Z) (net : Network) : Prop := {
  md_ends : ∀ e, e ∈ ends net ↔ e ∈ ends rn ∨ ∃ j : nat, Z.of_nat j < k ∧ names !! j = Some e;
  md_enabled : ∀ e, on (enabled net) e ↔ on (enabled rn) e ∧ ¬ ∃ j : nat, Z.of_nat j < k ∧ names !! j = Some e;
  md_new : ∀ (j : nat) x, names !! j = Some x → Z.of_nat j < k → connections net !! x = Some (Some (NInt (Z.of_nat j)));
  md_old : ∀ e, e ∉ names → connections net !! e = connections rn !! e
}.

Lemma make_ends_loop n cfg names :
  0 ≤ n → fresh_names n (cfg_net cfg) names →
  ∃ net, for_range n (λ (j : Z) (cfg : config C), x ← index names j; net ← MakeEnd x (cfg_net cfg);
           mret (RaftTester.with_net cfg (Connect x (NInt j) net))) cfg = Ret (RaftTester.with_net cfg net) ∧
    made (cfg_net cfg) names n net.
Proof.
  intros Hn (Hlen & Hnd & Hfresh).
  destruct (for_range_safe (λ k s, ∃ net, s = RaftTester.with_net cfg net ∧ made (cfg_net cfg) names k net) n
    (λ (j : Z) (cfg : config C), x ← index names j; net ← MakeEnd x (cfg_net cfg);
       mret (RaftTester.with_net cfg (Connect x (NInt j) net))) cfg)
    as (s & Hs & net & -> & Hnet); [done| | |by exists net].
  - exists (cfg_net cfg). split; [by destruct cfg|]. split; try done.
    + intros e. split; [by left|]. intros [?|(j & ? & _)]; [done|lia].
    + intros e. split; [|by intros [? _]]. intros ?. split; [done|]. intros (j & ? & _). lia.
    + intros j x _ ?. lia.
  - intros j s Hj (net & -> & [Hends Hen Hnew Hold]). destruct (index_safe names j) as [x Hx]; [lia|].
    rewrite Hx, bind_Ret. apply index_Ret in Hx as [_ Hx].
    assert (∀ e, (∃ j' : nat, Z.of_nat j' < j + 1 ∧ names !! j' = Some e) ↔
      (∃ j' : nat, Z.of_nat j' < j ∧ names !! j' = Some e) ∨ e = x) as Hsucc.
    { intros e. split.
      - intros (j' & ? & He). destruct (decide (j' = Z.to_nat j)) as [->|]; [right; congruence|left].
        exists j'. split; [lia|done].
      - intros [(j' & ? & ?)| ->]; [exists j'; split; [lia|done]|exists (Z.to_nat j); split; [lia|done]]. }
    assert (¬ ∃ j' : nat, Z.of_nat j' < j ∧ names !! j' = Some x) as Hlater.
    { intros (j' & ? & He). pose proof (NoDup_lookup _ _ _ _ Hnd He Hx). lia. }
    unfold MakeEnd. rewrite bool_decide_eq_false_2; [|simpl; rewrite Hends; intros [Hin|?]; [|done];
      eapply Hfresh; [by eapply list_elem_of_lookup_2|done]].
    eexists. split; [done|]. eexists. split; [done|]. split; simpl.
    + intros e. rewrite elem_of_union, elem_of_singleton, Hends, Hsucc. naive_solver.
    + intros e. rewrite on_insert, Hen, Hsucc. destruct (decide (e = x)); naive_solver.
    + intros j' x' Hx' Hj'. destruct (decide (x' = x)) as [->|Hne].
      * rewrite lookup_insert_eq. pose proof (NoDup_lookup _ _ _ _ Hnd Hx' Hx). do 3 f_equal. lia.
      * rewrite !lookup_insert_ne by done. apply Hnew; [done|].
        destruct (decide (j' = Z.to_nat j)) as [->|]; [congruence|lia].
    + intros e He. assert (x ≠ e) by (intros ->; apply He; by eapply list_elem_of_lookup_2).
      rewrite !lookup_insert_ne by done. by apply Hold.
Qed.

Lemma start1_ok n cfg i names srv :
  net_ok n cfg → 0 ≤ i < n → fresh_names n (cfg_net cfg) names →
  ∃ cfg', start1 i names srv cfg = Ret cfg' ∧ net_ok n cfg' ∧
    endnames cfg' = <[Z.to_nat i := Some names]> (endnames cfg) ∧
    ∀ e, e ∈ ends (cfg_net cfg') ↔ e ∈ ends (cfg_net cfg) ∨ e ∈ names.
Proof.
  intros Hok Hi Hfresh. destruct (crash1_ok n cfg i Hok Hi) as (cfg1 & E1 & Hok1 & Hnames & Hconn & Hends).
  pose proof (no_endnames _ _ Hok1) as Hlen. unfold start1. rewrite E1, bind_Ret, set_index_Ret, bind_Ret by lia.
  rewrite (no_n _ _ Hok). set (cfgA := with_endnames cfg1 _).
  destruct (make_ends_loop n cfgA names) as (net & -> & [Hen Hon Hnew Hold]); [lia|unfold fresh_names, cfgA in *; simpl; by rewrite Hends|].
  rewrite bind_Ret. pose proof (no_rafts _ _ Hok1) as Hra. rewrite set_index_Ret, bind_Ret by (simpl; lia).
  eexists. split; [done|]. destruct Hfresh as (Hnl & Hnd & Hf). rewrite <- Hends in Hf.
  assert (∀ a b e, cur cfgA a b e ↔ (a = i ∧ 0 ≤ b ∧ names !! Z.to_nat b = Some e) ∨ (a ≠ i ∧ cur cfg1 a b e)) as Hcur.
  { intros a b e. unfold cur, cfgA. simpl. split.
    - intros (l & ? & ? & [(Heq & [= <-] & _)|[Hne Hl]]%list_lookup_insert_Some & He).
      + left. split_and!; [lia|done|done].
      + right. split; [intros ->; done|by exists l].
    - intros [(-> & ? & ?)|(Hne & l & ? & ? & ? & ?)].
      + exists names. rewrite list_lookup_insert_eq by (unfold zlen in Hlen; lia). split_and!; [lia|done..].
      + exists l. rewrite list_lookup_insert_ne by lia. done. }
  assert (∀ a b e, cur cfg1 a b e → e ∉ names) as Hdisj.
  { intros a b e Hc Hin. eapply Hf; [done|]. by apply (no_end _ _ Hok1 _ _ _ Hc). }
  assert (∀ a, conn cfg1 a → a ≠ i) as Hci.
  { intros a [? Ha] ->. rewrite Hconn, list_lookup_insert_eq in Ha; [done|]. pose proof (no_connected _ _ Hok). unfold zlen in *. lia. }
  split_and!.
  - split; try apply Hok1; simpl.
    + by rewrite zlen_insert.
    + by rewrite zlen_insert.
    + intros k l [(_ & [= <-] & _)|[_ Hl]]%list_lookup_insert_Some; [done|by apply (no_row _ _ Hok1 k)].
    + intros a Ha. destruct (no_started _ _ Hok1 a Ha) as [l Hl]. exists l. simpl. pose proof (Hci a Ha). destruct Ha as [? _].
      by rewrite list_lookup_insert_ne by lia.
    + intros e a b a' b' Ha Ha'. change (cur cfgA a b e) in Ha. change (cur cfgA a' b' e) in Ha'.
      rewrite Hcur in Ha, Ha'. destruct Ha as [(-> & ? & Hb)|[Hne Hb]], Ha' as [(-> & ? & Hb')|[Hne' Hb']].
      * pose proof (NoDup_lookup _ _ _ _ Hnd Hb Hb'). lia.
      * destruct (Hdisj _ _ _ Hb'). by eapply list_elem_of_lookup_2.
      * destruct (Hdisj _ _ _ Hb). by eapply list_elem_of_lookup_2.
      * by eapply (no_inj _ _ Hok1).
    + intros e a b Ha. change (cur cfgA a b e) in Ha. rewrite Hen. rewrite Hcur in Ha.
      destruct Ha as [(-> & ? & Hb)|[Hne Hb]].
      * pose proof (lookup_lt_Some _ _ _ Hb) as Hlt. unfold zlen in Hnl.
        split; [right; exists (Z.to_nat b); split; [lia|done]|]. rewrite (Hnew _ _ Hb) by lia. by rewrite Z2Nat.id by lia.
      * rewrite Hold by by eapply Hdisj. destruct (no_end _ _ Hok1 _ _ _ Hb). split; [by left|done].
    + intros e. rewrite Hon. change (on (enabled (cfg_net cfgA)) e) with (on (enabled (cfg_net cfg1)) e).
      rewrite (no_enabled _ _ Hok1). split.
      * intros [(a & b & Hc & Ha & Hb) _]. exists a, b. split; [|done]. apply Hcur. right. split; [by apply Hci|done].
      * intros (a & b & Hc & Ha & Hb). change (cur cfgA a b e) in Hc. rewrite Hcur in Hc.
        destruct Hc as [(-> & _)|[Hne Hc]]; [by destruct (Hci i Ha)|]. split; [by exists a, b|].
        intros (j & _ & Hj). destruct (Hdisj _ _ _ Hc). by eapply list_elem_of_lookup_2.
  - simpl. by rewrite Hnames.
  - intros e. simpl. rewrite Hen. simpl. rewrite Hends. unfold zlen in Hnl. split.
    + intros [?|(j & _ & Hj)]; [by left|right; by eapply list_elem_of_lookup_2].
    + intros [?|[j Hj]%list_elem_of_lookup]; [by left|right]. exists j. split; [|done]. apply lookup_lt_Some in Hj. lia.
Qed.

(** All names a test starts with are different. *)
Definition distinct_names (n : Z) (names : Z → list name) : Prop :=
  (∀ i, 0 ≤ i < n → zlen (names i) = n ∧ NoDup (names i)) ∧
  ∀ i j x, 0 ≤ i < n → 0 ≤ j < n → x ∈ names i → x ∈ names j → i = j.

Lemma make_config_ok n unrel names srv :
  0 ≤ n → distinct_names n names →
  ∃ cfg, make_config n unrel names srv = Ret cfg ∧ net_ok n cfg ∧ ∀ i, 0 ≤ i < n → started cfg i.
Proof.
  intros Hn [Hnames Hdist]. unfold make_config. set (cfg0 := RaftTester.with_net _ _).
  assert (net_ok n cfg0) as Hok0.
  { split; try done; simpl; unfold zlen; rewrite ?length_replicate; try lia.
    - intros k l [Hk _]%lookup_replicate_1. done.
    - intros i [_ [Hk _]%lookup_replicate_1]. done.
    - intros e i j i' j' (l & _ & _ & [Hk _]%lookup_replicate_1 & _). done.
    - intros e i j (l & _ & _ & [Hk _]%lookup_replicate_1 & _). done.
    - intros e. split; [by unfold on, map_get; rewrite lookup_empty|].
      intros (i & j & (l & _ & _ & [Hk _]%lookup_replicate_1 & _) & _). done. }
  destruct (for_range_safe (λ k s, net_ok n s ∧ (∀ i, 0 ≤ i < k → started s i) ∧
    ∀ e, e ∈ ends (cfg_net s) ↔ ∃ i, 0 ≤ i < k ∧ e ∈ names i) n (λ i cfg, start1 i (names i) (srv i) cfg) cfg0)
    as (cfg1 & -> & Hok1 & Hst1 & _); [done| | |].
  - split; [done|]. split; [intros; lia|]. intros e. split; [set_solver|]. intros (i & ? & _). lia.
  - intros j s Hj (Hok & Hst & Hends).
    destruct (start1_ok n s j (names j) (srv j) Hok Hj) as (s' & E & Hok' & He & Hends').
    { destruct (Hnames j Hj). split_and!; [done..|]. intros x Hx (i & Hi & Hx')%Hends.
      assert (i = j) by (apply (Hdist i j x); [lia|done..]). lia. }
    exists s'. split; [done|]. split; [done|]. split.
    + intros i Hi. unfold started. rewrite He. destruct (decide (i = j)) as [->|Hne].
      * exists (names j). apply list_lookup_insert_eq. pose proof (no_endnames _ _ Hok). unfold zlen in *. lia.
      * rewrite list_lookup_insert_ne by lia. apply Hst. lia.
    + intros e. rewrite Hends', Hends. split.
      * intros [(i & ? & ?)|?]; [exists i; split; [lia|done]|exists j; split; [lia|done]].
      * intros (i & ? & ?). destruct (decide (i = j)) as [->|]; [by right|left]. exists i. split; [lia|done].
  - rewrite bind_Ret.
    destruct (for_range_safe (λ k s, net_ok n s ∧ ∀ i, 0 ≤ i < n → started s i) n connect cfg1) as (cfg & -> & ? & ?);
      [done|done| |by exists cfg].
    intros j s Hj [Hok Hst]. destruct (connect_ok n s j Hok Hj (Hst j Hj)) as (en & E & Hok').
    eexists. split; [exact E|]. split; [exact Hok'|exact Hst].
Qed.

(** What a test does with its servers. *)
Inductive testop := TopStart (i : Z) (names : list name) (srv : Z) | TopConnect (i : Z) | TopDisconnect (i : Z) | TopCrash (i : Z).

Definition test_do (o : testop) cfg : Go (config C) :=
  match o with
  | TopStart i names srv => start1 i names srv cfg
  | TopConnect i => connect i cfg
  | TopDisconnect i => disconnect i cfg
  | TopCrash i => crash1 i cfg
  end.

Definition test_ok (n : Z) (o : testop) cfg : Prop :=
  match o with
  | TopStart i names _ => 0 ≤ i < n ∧ fresh_names n (cfg_net cfg) names
  | TopConnect i | TopDisconnect i | TopCrash i => 0 ≤ i < n
  end.

(** The states of the harness in a test. *)
Inductive test_reach (n : Z) : config C → Prop :=
| tr_make unrel names srv cfg :
    distinct_names n names → make_config n unrel names srv = Ret cfg → test_reach n cfg
| tr_do o cfg cfg' : test_reach n cfg → test_ok n o cfg → test_do o cfg = Ret cfg' → test_reach n cfg'.

Lemma test_do_ok n o cfg :
  net_ok n cfg → (∀ i, 0 ≤ i < n → started cfg i) → test_ok n o cfg →
  ∃ cfg', test_do o cfg = Ret cfg' ∧ net_ok n cfg' ∧ ∀ i, 0 ≤ i < n → started cfg' i.
Proof.
  intros Hok Hst Ho. destruct o as [i names srv|i|i|i]; simpl in *.
  - destruct Ho as [Hi Hf]. destruct (start1_ok n cfg i names srv Hok Hi Hf) as (cfg' & -> & Hok' & He & _).
    exists cfg'. split_and!; [done..|]. intros j Hj. unfold started. rewrite He. destruct (decide (j = i)) as [->|Hne].
    + exists names. apply list_lookup_insert_eq. pose proof (no_endnames _ _ Hok). unfold zlen in *. lia.
    + rewrite list_lookup_insert_ne by lia. by apply Hst.
  - destruct (connect_ok n cfg i Hok Ho (Hst i Ho)) as (en & E & Hok'). eexists. split; [exact E|]. split; [exact Hok'|exact Hst].
  - destruct (disconnect_ok n cfg i Hok Ho) as (en & E & Hok'). eexists. split; [exact E|]. split; [exact Hok'|exact Hst].
  - destruct (crash1_ok n cfg i Hok Ho) as (cfg' & -> & Hok' & He & _). exists cfg'. split_and!; [done..|].
    intros j Hj. unfold started. rewrite He. by apply Hst.
Qed.

Lemma test_reach_ok n cfg :
  0 ≤ n → test_reach n cfg → net_ok n cfg ∧ ∀ i, 0 ≤ i < n → started cfg i.
Proof.
  intros Hn. induction 1 as [unrel names srv cfg Hd Hm|o cfg cfg' _ [Hok Hst] Ho Hdo].
  - destruct (make_config_ok n unrel names srv Hn Hd) as (cfg1 & E & ?). rewrite Hm in E. by injection E as ->.
  - destruct (test_do_ok n o cfg Hok Hst Ho) as (cfg1 & E & ?). rewrite Hdo in E. by injection E as ->.
Qed.
End net.

(** ** A sample *)
Definition sample_config : config Z :=
  match make_config 3 false (names3 100) (λ i, i) with
  | Ret cfg => match disconnect 1 cfg with Ret cfg' => cfg' | _ => cfg end
  | _ => mkConfig 3 MakeNetwork [] [] [] [] [] 0 0 0 0
  end.

Lemma names3_distinct : distinct_names 3 (names3 100).
Proof.
  split.
  - intros i Hi. split; [done|]. unfold names3. apply NoDup_fmap_2; [|by apply (bool_decide_unpack _); vm_compute].
    intros x y [= ?]. lia.
  - intros i j x Hi Hj. unfold names3. intros (a & -> & Ha)%list_elem_of_fmap (b & Hb & Hb')%list_elem_of_fmap.
    injection Hb as Hb. rewrite !elem_of_cons, elem_of_nil in Ha, Hb'. lia.
Qed.

Lemma sample_config_reach : test_reach 3 sample_config.
Proof.
  destruct (make_config_ok (C:=Z) 3 false (names3 100) (λ i, i) ltac:(lia) names3_distinct) as (cfg & E & Hok & _).
  unfold sample_config. rewrite E. pose proof (tr_make 3 false _ _ _ names3_distinct E) as Hr.
  destruct (disconnect_ok 3 cfg 1 Hok ltac:(lia)) as (en & E' & _). rewrite E'.
  apply (tr_do 3 (TopDisconnect 1) cfg); [done|simpl; lia|done].
Qed.

(** ** Theorem *)

(** C26: partitions are what the tests ask for.  Whatever servers a test starts,
    connects, disconnects and crashes, the harness does not panic, and the end from
    server [i] to server [j] leads to [j] and is enabled exactly when both are
    connected; a request that the network passes on was sent on such an end, so no
    server that is cut off, and no instance that was replaced, reaches anyone. *)
Theorem partition_correct {C} (n : Z) (cfg : config C) (Hn : 0 ≤ n) (Hreach : test_reach n cfg) :
  (∀ o, test_ok n o cfg → ∃ cfg', test_do o cfg = Ret cfg') ∧
  (∀ i j, 0 ≤ i < n → 0 ≤ j < n → ∃ e, endname_at cfg i j = Ret e ∧
     map_get None (connections (cfg_net cfg)) e = Some (NInt j) ∧
     (map_get false (enabled (cfg_net cfg)) e = true ↔ conn cfg i ∧ conn cfg j)) ∧
  (∀ req draw servername server rel lr,
     processReq_begin (cfg_net cfg) req draw = CWaiting servername server rel lr →
     ∃ i j, endname_at cfg i j = Ret (endname req) ∧ conn cfg i ∧ conn cfg j ∧ servername = NInt j).
Proof.
  destruct (test_reach_ok n cfg Hn Hreach) as [Hok Hst]. split_and!.
  - intros o Ho. destruct (test_do_ok n o cfg Hok Hst Ho) as (cfg' & ? & _). by exists cfg'.
  - intros i j Hi Hj. destruct (endname_at_Ret n cfg i j Hok ltac:(lia) (Hst i Hi) Hj) as (e & He & Hcur). exists e.
    destruct (no_end _ _ Hok _ _ _ Hcur) as [_ Hcon]. split_and!; [done|by unfold map_get; rewrite Hcon|].
    rewrite (no_enabled _ _ Hok e). split; [|by exists i, j].
    intros (i' & j' & Hcur' & ? & ?). by destruct (no_inj _ _ Hok _ _ _ _ _ Hcur Hcur') as [-> ->].
  - intros req draw servername server rel lr. unfold processReq_begin. simpl.
    destruct (map_get false (enabled (cfg_net cfg)) (endname req)) eqn:Hen; [|done].
    apply (no_enabled _ _ Hok) in Hen as (i & j & Hcur & Hi & Hj). destruct (no_end _ _ Hok _ _ _ Hcur) as [_ Hcon].
    unfold map_get at 1 2. rewrite Hcon. simpl. destruct (server_of _ _); [|done]. case_test; [done|].
    intros [= <- _ _ _]. exists i, j. destruct (cur_range _ _ _ _ _ Hok Hcur).
    destruct (endname_at_Ret n cfg i j Hok ltac:(lia) (Hst i ltac:(lia)) ltac:(lia)) as (e & He & Hcur').
    split_and!; [|done..]. by rewrite He, (cur_unique _ _ _ _ _ Hcur Hcur').
Qed.

(** Server 1 is cut off. *)
Lemma partition_correct_witness :
  ∃ e, endname_at sample_config 0 1 = Ret e ∧ map_get None (connections (cfg_net sample_config)) e = Some (NInt 1) ∧
    (map_get false (enabled (cfg_net sample_config)) e = true ↔ conn sample_config 0 ∧ conn sample_config 1).
Proof.
  exact (proj1 (proj2 (partition_correct 3 sample_config ltac:(lia) sample_config_reach)) 0 1 ltac:(lia) ltac:(lia)).
Defined.
