(* ===== verification/RaftTesterSpec.v ===== *)
(** * The checks of the Raft tests

    The peers of a group with the appliers of raft/config.go: what the appliers
    read into the logs of the harness is the committed log, so in no run does a
    check of them fail; and what [nCommitted] and [checkOneLeader] see of the
    servers, one after the other and while these go on, never contradicts itself. *)

From S2P Require Import Prelude Persister RaftApi Raft RaftLog RaftAppend RaftSteps RaftSpec RaftOps Labrpc RaftTester.
From S2P Require Import RaftElection RaftHistory RaftRep RaftGroup RaftGroupSteps RaftGroupLog RaftGroupElect RaftGroupRun RaftSafety Rsm.
Import Raft.

Section world.
Context {C : Type} `{EqDecision C} `{HCC : Codec C} `{HC : Codec (Z * Z * list (LogEntry C) * Z * Z)}.
Context (n : Z) (snapshot : bool).
Implicit Types (rf : Raft C) (cfg : config C) (L : gmap Z (option C)).
Notation hist := (hist (C:=C)).
Implicit Types (H : hist).

(** The peers; the harness; the variable [lastApplied] of each applier; what the
    peers' goroutines still have to deliver; and what those of instances that were
    replaced have, with the number of their server. *)
Record tworld := mkTWorld {
  t_group : group (C:=C);
  t_cfg : config C;
  t_last : gmap Z Z;
  t_batch : gmap Z (list (ApplyMsg C) * Z);
  t_old : list (Z * list (ApplyMsg C))
}.
Implicit Types (W : tworld).

(** The applier the harness was made with handles a message. *)
Definition apply_message (i : Z) (m : ApplyMsg C) rf cfg (la : Z) : Go (Raft C * config C * Z) :=
  if snapshot then applierSnap i m rf cfg la
  else cfg' ← applier i m cfg; mret (rf, cfg', la).

(** The applier of a server that is down calls [cfg.rafts[i]], which is nil. *)
Definition nil_call (i : Z) (m : ApplyMsg C) rf cfg (la : Z) : Prop :=
  snapshot = true ∧ rafts cfg !! Z.to_nat i = Some false ∧ apply_message i m rf cfg la = Panic PNil.

(** What a test does to the network. *)
Inductive harness_step cfg : config C → Prop :=
| hs_connect i cfg' : connect i cfg = Ret cfg' → harness_step cfg cfg'
| hs_disconnect i cfg' : disconnect i cfg = Ret cfg' → harness_step cfg cfg'
| hs_unreliable b : harness_step cfg (setunreliable b cfg)
| hs_longreordering b : harness_step cfg (setlongreordering b cfg)
| hs_begin : harness_step cfg (begin cfg).

(** An instance that is replaced cannot be stopped: the goroutine that delivers its
    messages and the applier that reads them go on until the batch is delivered.
    With snapshots they are left out: their applier would work on the new peer, with
    a [lastApplied] of its own. *)
Definition survivors (i : Z) W : list (Z * list (ApplyMsg C)) :=
  match t_batch W !! i with
  | Some (ms, _) => if snapshot then t_old W else (i, ms) :: t_old W
  | None => t_old W
  end.

(** [crash1] kills the peer and sets [cfg.rafts[i]] to nil, but the goroutines of the
    instance go on; [start1] makes a new instance from what the old one has saved. *)
Inductive tstep : tworld → tworld → Prop :=
| tt_peers W G' : pstep n (t_group W) G' → tstep W (mkTWorld G' (t_cfg W) (t_last W) (t_batch W) (t_old W))
| tt_take W i rf msgs c :
    g_peer (t_group W) !! i = Some rf → t_batch W !! i = None → applyChecker_take rf = Ret (Some (msgs, c)) →
    tstep W (mkTWorld (t_group W) (t_cfg W) (t_last W) (<[i := (msgs, c)]> (t_batch W)) (t_old W))
| tt_deliver W i rf la m ms c rf' cfg' la' :
    g_peer (t_group W) !! i = Some rf → t_last W !! i = Some la → t_batch W !! i = Some (m :: ms, c) →
    apply_message i m rf (t_cfg W) la = Ret (rf', cfg', la') →
    tstep W (mkTWorld (set_peer (t_group W) i rf') cfg' (<[i := la']> (t_last W)) (<[i := (ms, c)]> (t_batch W)) (t_old W))
| tt_done W i rf c :
    g_peer (t_group W) !! i = Some rf → t_batch W !! i = Some ([], c) →
    tstep W (mkTWorld (set_peer (t_group W) i (applyChecker_done rf c)) (t_cfg W) (t_last W) (delete i (t_batch W)) (t_old W))
| tt_offer W i rf la lit lii data rf' cfg' la' :
    (i, (lit, lii, data)) ∈ g_offers (t_group W) →
    g_peer (t_group W) !! i = Some rf → t_last W !! i = Some la →
    apply_message i (snapshot_msg data lit lii) rf (t_cfg W) la = Ret (rf', cfg', la') →
    tstep W (mkTWorld (set_peer (t_group W) i rf') cfg' (<[i := la']> (t_last W)) (t_batch W) (t_old W))
| tt_survivor W o1 i m ms o2 cfg' :
    t_old W = o1 ++ (i, m :: ms) :: o2 → applier i m (t_cfg W) = Ret cfg' →
    tstep W (mkTWorld (t_group W) cfg' (t_last W) (t_batch W) (o1 ++ (i, ms) :: o2))
| tt_kill W i rf :
    g_peer (t_group W) !! i = Some rf →
    tstep W (mkTWorld (set_peer (t_group W) i (Kill rf)) (t_cfg W) (t_last W) (t_batch W) (t_old W))
| tt_crash W i rf cfg' :
    g_peer (t_group W) !! i = Some rf → crash1 i (t_cfg W) = Ret cfg' →
    tstep W (mkTWorld (set_peer (t_group W) i (Kill rf)) cfg' (t_last W) (t_batch W) (t_old W))
| tt_restart W i rf names srv now cfg' :
    g_peer (t_group W) !! i = Some rf → start1 i names srv (t_cfg W) = Ret cfg' →
    tstep W (mkTWorld (set_peer (t_group W) i (Make n i (start1_saved (Some (persister rf))) now)) cfg'
      (<[i := 0]> (t_last W)) (delete i (t_batch W)) (survivors i W))
| tt_start W i rf c rf' r :
    g_peer (t_group W) !! i = Some rf → Start rf c = Ret (rf', r) →
    tstep W (mkTWorld (set_peer (t_group W) i rf') (t_cfg W) (t_last W) (t_batch W) (t_old W))
| tt_harness W cfg' :
    harness_step (t_cfg W) cfg' → tstep W (mkTWorld (t_group W) cfg' (t_last W) (t_batch W) (t_old W)).

(** All servers have just been started. *)
Definition tworld_init W : Prop :=
  group_init n (t_group W) ∧ t_batch W = ∅ ∧ t_old W = [] ∧
  (∃ unreliable names srv, make_config n unreliable names srv = Ret (t_cfg W)) ∧
  ∀ i rf, g_peer (t_group W) !! i = Some rf → t_last W !! i = Some 0.

Definition treach W : Prop := ∃ W0, tworld_init W0 ∧ rtc tstep W0 W.

(** ** What the harness knows *)
Local Notation entry_of := (entry_of n).

Lemma entry_of_unique tm H k (e e' : LogEntry C) :
  0 ≤ n → history_ok n tm H → entry_of H k e → entry_of H k e' → e = e'.
Proof.
  intros Hn Ho (p & T & Hp & Hk & He) (p' & T' & Hp' & _ & He').
  destruct (safe_comparable n Hn tm H _ _ _ _ Ho Hp Hp') as [Hpp|Hpp].
  - rewrite (prefix_lookup_Some _ _ _ _ He Hpp) in He'. congruence.
  - rewrite (prefix_lookup_Some _ _ _ _ He' Hpp) in He. congruence.
Qed.

(** The logs hold committed entries. *)
Definition logs_committed H (ls : list (gmap Z (option C))) : Prop :=
  ∀ j L k v, ls !! j = Some L → L !! k = Some v → ∃ e, entry_of H k e ∧ v = le_Command e.

Definition has_entry L (k : Z) : Prop := k = 0 ∨ is_Some (L !! k).

(** A server has in its log what precedes the next message, or skips the rest of
    the batch, which a snapshot has overtaken. *)
Definition batch_ok H rf L (la : Z) (b : option (list (ApplyMsg C) * Z)) : Prop :=
  match b with
  | None => has_entry L (lastApplied rf) ∧ la ≤ lastApplied rf
  | Some (ms, c) =>
      c ≤ commitIndex rf ∧
      (∀ j m, ms !! j = Some m → ∃ e, entry_of H (c - zlen ms + 1 + Z.of_nat j) e ∧
         m = command_msg (le_Command e) (c - zlen ms + 1 + Z.of_nat j)) ∧
      ((has_entry L (c - zlen ms) ∧ la ≤ c - zlen ms ∧ lastApplied rf ≤ c - zlen ms) ∨
       (c ≤ la ∧ has_entry L la ∧ lastApplied rf = la))
  end.

Definition server_ok H rf L (la : Z) (b : option (list (ApplyMsg C) * Z)) : Prop :=
  has_entry L (lastIncludedIndex rf) ∧ (snapshot = false → la = 0) ∧ batch_ok H rf L la b.

(** An instance that was replaced has in the log of its server what precedes its
    next message. *)
Definition old_ok H L (ms : list (ApplyMsg C)) : Prop :=
  ∃ k, has_entry L k ∧ ∀ j m, ms !! j = Some m → ∃ e, entry_of H (k + 1 + Z.of_nat j) e ∧
    m = command_msg (le_Command e) (k + 1 + Z.of_nat j).

(** A snapshot is the command at its index. *)
Definition snap_ok H (lii : Z) (data : bytes) : Prop :=
  (lii = 0 ∧ data = []) ∨ ∃ e v, entry_of H lii e ∧ le_Command e = Some v ∧ gob_decode data = Some v.

Record tinv W H (V : Z → list (LogEntry C)) : Prop := {
  ti_group : ginv n (t_group W) H V;
  ti_commands : commands_in is_Some H;
  ti_errs : Forall (λ e, e = None) (applyErr (t_cfg W));
  ti_rafts : length (rafts (t_cfg W)) = Z.to_nat n;
  ti_old : ∀ i ms, (i, ms) ∈ t_old W → snapshot = false ∧ 0 ≤ i ∧ ∃ L,
    logs (t_cfg W) !! Z.to_nat i = Some L ∧ old_ok H L ms;
  ti_logs : logs_committed H (logs (t_cfg W));
  ti_server : ∀ i rf, g_peer (t_group W) !! i = Some rf → ∃ L la,
    logs (t_cfg W) !! Z.to_nat i = Some L ∧ t_last W !! i = Some la ∧ server_ok H rf L la (t_batch W !! i);
  ti_snap : ∀ i rf, g_peer (t_group W) !! i = Some rf →
    snap_ok H (lastIncludedIndex rf) (ReadSnapshot (persister rf));
  ti_install : ∀ j args, (j, args) ∈ g_installs (t_group W) →
    snap_ok H (isa_LastIncludedIndex args) (isa_Data args);
  ti_offer : ∀ i lit lii data, (i, (lit, lii, data)) ∈ g_offers (t_group W) → snap_ok H lii data
}.

Lemma snap_ok_grows tm H H' lii data : grows tm H H' → snap_ok H lii data → snap_ok H' lii data.
Proof.
  intros Hg [?|(e & v & ? & ? & ?)]; [by left|right]. exists e, v. split_and!; [by eapply entry_of_grows|done..].
Qed.

Lemma logs_committed_grows tm H H' ls : grows tm H H' → logs_committed H ls → logs_committed H' ls.
Proof.
  intros Hg Hls j L k v Hj Hk. destruct (Hls j L k v Hj Hk) as (e & ? & ->). exists e.
  split; [by eapply entry_of_grows|done].
Qed.

Lemma server_ok_frame tm H H' rf rf' L la b :
  grows tm H H' → service_frame rf rf' → server_ok H rf L la b → server_ok H' rf' L la b.
Proof.
  intros Hg [Ha Hl Hs Hc] (Hli & Hpl & Hb). split_and!; [by rewrite Hl|done|].
  destruct b as [[ms c]|]; simpl in *; rewrite Ha; [|done].
  destruct Hb as (Hcc & Hms & Hpos). split_and!; [lia| |done].
  intros j m (e & He & ->)%Hms. exists e. split; [by eapply entry_of_grows|done].
Qed.

Lemma old_ok_grows tm H H' L ms : grows tm H H' → old_ok H L ms → old_ok H' L ms.
Proof.
  intros Hg (k & Hk & Hms). exists k. split; [done|]. intros j m (e & ? & ->)%Hms. exists e.
  split; [by eapply entry_of_grows|done].
Qed.

(** Without snapshots the logs only grow. *)
Definition keeps L L' : Prop := snapshot = false → ∀ k, has_entry L k → has_entry L' k.

Lemma old_ok_keeps H L L' ms : snapshot = false → keeps L L' → old_ok H L ms → old_ok H L' ms.
Proof. intros Hs Hk (k & Hent & Hms). exists k. split; [by apply Hk|done]. Qed.

(** A step of the peers. *)
Lemma tinv_peers W G' H V H' V' tm Q :
  tinv W H V → ginv n G' H' V' → extends tm Q H H' → (∀ c, Q c → is_Some c) → peers_frame (t_group W) G' →
  tinv (mkTWorld G' (t_cfg W) (t_last W) (t_batch W) (t_old W)) H' V'.
Proof.
  intros [Hg Hc He Hra Hold Hlg Hs Hsn Hin Hof] Hg' [Hgr Hcom] HQ [Fp Fi Fo]. split; simpl; [done|by apply Hcom|done|done|..].
  - intros i ms (? & ? & L & ? & ?)%Hold. split_and!; [done..|]. exists L. split; [done|]. by eapply old_ok_grows.
  - by eapply logs_committed_grows.
  - intros i rf' (rf & Hi & Hf)%Fp. destruct (Hs i rf Hi) as (L & la & HL & Hla & Hsv). exists L, la.
    split_and!; [done..|by eapply server_ok_frame].
  - intros i rf' (rf & Hi & [_ -> -> _])%Fp. eapply snap_ok_grows; [done|]. by apply (Hsn i).
  - intros j args [Hj|(i & rf & Hi & -> & ->)]%Fi; (eapply snap_ok_grows; [done|]); [by apply (Hin j)|by apply (Hsn i)].
  - intros i lit lii data [Hj|(j & args & Hj & <- & <-)]%Fo; (eapply snap_ok_grows; [done|]);
      [by apply (Hof i lit)|by apply (Hin j)].
Qed.

(** The harness changed, but none of its logs. *)
Definition same_logs cfg cfg' : Prop :=
  logs cfg' = logs cfg ∧ applyErr cfg' = applyErr cfg ∧ length (rafts cfg') = length (rafts cfg).

Lemma tinv_cfg W cfg' H V :
  tinv W H V → same_logs (t_cfg W) cfg' →
  tinv (mkTWorld (t_group W) cfg' (t_last W) (t_batch W) (t_old W)) H V.
Proof.
  intros [Hg Hc He Hra Hold Hlg Hs Hsn Hin Hof] (Hl & Ha & Hr). split; simpl; try done; rewrite ?Hl, ?Ha, ?Hr; done.
Qed.

(** A step of one machine and its applier. *)
Lemma tinv_machine W W' H V V' i rf rf' L' la' :
  tinv W H V → ginv n (t_group W') H V' → g_peer (t_group W) !! i = Some rf →
  g_peer (t_group W') = <[i := rf']> (g_peer (t_group W)) →
  g_installs (t_group W') = g_installs (t_group W) → g_offers (t_group W') = g_offers (t_group W) →
  applyErr (t_cfg W') = applyErr (t_cfg W) → logs (t_cfg W') = <[Z.to_nat i := L']> (logs (t_cfg W)) →
  t_last W' = <[i := la']> (t_last W) → (∀ j, j ≠ i → t_batch W' !! j = t_batch W !! j) →
  length (rafts (t_cfg W')) = length (rafts (t_cfg W)) →
  (∀ L, logs (t_cfg W) !! Z.to_nat i = Some L → keeps L L') →
  (∀ j ms, (j, ms) ∈ t_old W' → (j, ms) ∈ t_old W ∨ (j = i ∧ snapshot = false ∧ old_ok H L' ms)) →
  (∀ k v, L' !! k = Some v → ∃ e, entry_of H k e ∧ v = le_Command e) →
  server_ok H rf' L' la' (t_batch W' !! i) →
  snap_ok H (lastIncludedIndex rf') (ReadSnapshot (persister rf')) →
  tinv W' H V'.
Proof.
  intros [Hg Hc He Hra Hold Hlg Hs Hsn Hin Hof] Hg' Hi Hp HI HO HE HL Hla Hbb Hra' Hkeep Hold' Hlog Hsv Hsnap.
  assert (0 ≤ i) as Hi0 by (destruct (ni_reach _ _ (gi_net _ _ _ _ Hg) _ _ Hi) as [? _]; lia).
  destruct (Hs i rf Hi) as (L & la & HLi & Hlai & _). pose proof (lookup_lt_Some _ _ _ HLi) as Hlt.
  split; [done|done|by rewrite HE|by rewrite Hra'|..]; rewrite ?Hp, ?HI, ?HO, ?HL, ?Hla; [|..|done|done].
  - intros j ms [(? & ? & Lj & HLj & Hok)%Hold|(-> & ? & Hok)]%Hold'.
    + split_and!; [done..|]. destruct (decide (Z.to_nat j = Z.to_nat i)) as [Heq|Hne].
      * exists L'. rewrite Heq in *. rewrite list_lookup_insert_eq by done. split; [done|].
        assert (Lj = L) as -> by congruence. eapply old_ok_keeps; [done|by apply Hkeep|done].
      * exists Lj. rewrite list_lookup_insert_ne by done. done.
    + split_and!; [done|lia|]. exists L'. rewrite list_lookup_insert_eq by done. done.
  - intros j Lj k v [(<- & <- & _)|[_ Hj]]%list_lookup_insert_Some; [by apply Hlog|by eapply Hlg].
  - intros j rj [[<- <-]|[Hne Hj]]%lookup_insert_Some.
    + exists L', la'. rewrite list_lookup_insert_eq, lookup_insert_eq by done. done.
    + destruct (ni_reach _ _ (gi_net _ _ _ _ Hg) _ _ Hj) as [? _].
      destruct (Hs j rj Hj) as (Lj & laj & ? & ? & ?). exists Lj, laj.
      rewrite list_lookup_insert_ne, lookup_insert_ne, Hbb by (done || lia). done.
  - intros j rj [[<- <-]|[Hne Hj]]%lookup_insert_Some; [done|by apply (Hsn j)].
Qed.

(** ** What the harness does to the network leaves its logs alone *)

Lemma enable_at_logs cfg i j b cfg' : enable_at cfg i j b = Ret cfg' → same_logs cfg cfg'.
Proof. unfold enable_at. intros Hr. inv_bind Hr. injection Hr as <-. done. Qed.

Lemma same_logs_trans cfg1 cfg2 cfg3 : same_logs cfg1 cfg2 → same_logs cfg2 cfg3 → same_logs cfg1 cfg3.
Proof. unfold same_logs. intros (-> & -> & ->) (-> & -> & ->). done. Qed.

Lemma for_range_logs k body cfg cfg' :
  (∀ j s s', body j s = Ret s' → same_logs s s') → for_range k body cfg = Ret cfg' → same_logs cfg cfg'.
Proof.
  intros Hbody. apply (for_range_inv (same_logs cfg)); [done|]. intros j s s' _ Hs Hr%Hbody.
  by eapply same_logs_trans.
Qed.

Lemma connect_logs i cfg cfg' : connect i cfg = Ret cfg' → same_logs cfg cfg'.
Proof.
  unfold connect. intros Hr. do 2 inv_bind Hr. apply for_range_logs in Hb0, Hr; [by eapply same_logs_trans|..];
    (intros j s s' Hs; inv_bind Hs; destruct x1; [by eapply enable_at_logs|by injection Hs as <-]).
Qed.

Lemma disconnect_logs i cfg cfg' : disconnect i cfg = Ret cfg' → same_logs cfg cfg'.
Proof.
  unfold disconnect. intros Hr. do 2 inv_bind Hr. apply for_range_logs in Hb0, Hr; [by eapply same_logs_trans|..];
    (intros j s s' Hs; inv_bind Hs; destruct x1; [by eapply enable_at_logs|by injection Hs as <-]).
Qed.

Lemma crash1_logs i cfg cfg' : crash1 i cfg = Ret cfg' → same_logs cfg cfg'.
Proof.
  unfold crash1. intros Hr. inv_bind Hr. apply disconnect_logs in Hb as (Hl & He & Hra).
  inv_bind Hr. destruct x0; [|by injection Hr as <-]. inv_bind Hr. injection Hr as <-.
  apply set_index_inv in Hb0 as [_ ->]. split_and!; [done..|]. simpl. by rewrite length_insert.
Qed.

Lemma start1_logs i names srv cfg cfg' : start1 i names srv cfg = Ret cfg' → same_logs cfg cfg'.
Proof.
  unfold start1. intros Hr. do 4 inv_bind Hr. injection Hr as <-. apply crash1_logs in Hb.
  apply set_index_inv in Hb2 as [_ ->]. eapply (same_logs_trans _ x1); [|split_and!; [done..|apply length_insert]].
  eapply same_logs_trans; [exact Hb|]. change (same_logs (with_endnames x x0) x1).
  eapply for_range_logs; [|exact Hb1]. intros j s s' Hs. do 2 inv_bind Hs. by injection Hs as <-.
Qed.

Lemma harness_logs cfg cfg' : harness_step cfg cfg' → same_logs cfg cfg'.
Proof.
  destruct 1; [by eapply connect_logs|by eapply disconnect_logs|done..].
Qed.

Lemma make_config_logs unrel names srv cfg :
  make_config n unrel names srv = Ret cfg →
  logs cfg = replicate (Z.to_nat n) ∅ ∧ applyErr cfg = replicate (Z.to_nat n) None ∧
  length (rafts cfg) = Z.to_nat n.
Proof.
  unfold make_config. intros Hr. inv_bind Hr. apply for_range_logs in Hb, Hr.
  - destruct Hr as (-> & -> & ->), Hb as (-> & -> & ->). split_and!; [done..|]. apply length_replicate.
  - intros j s s'. apply connect_logs.
  - intros j s s'. apply start1_logs.
Qed.

(** What a server is restarted from is what its peer had saved. *)
Lemma start1_saved_id ps : start1_saved (Some ps) = ps.
Proof.
  unfold start1_saved, crash1_saved, Copy, SaveStateAndSnapshot, ReadRaftState, ReadSnapshot. simpl.
  rewrite !clone_id. by destruct ps.
Qed.

(** ** The appliers *)
Lemma scan_agrees i j (m : ApplyMsg C) ls err :
  (∀ L v, L ∈ ls → L !! CommandIndex m = Some v → v = Command m) → checkLogs_scan i j m ls err = err.
Proof.
  revert j err. induction ls as [|L ls IH]; intros j err Hls; [done|]. simpl.
  rewrite IH by (intros L' v Hin; apply Hls; by right).
  destruct (L !! CommandIndex m) as [old|] eqn:E; [|done].
  rewrite bool_decide_eq_true_2; [done|]. apply (Hls L); [by left|done].
Qed.

(** A committed command after those the log has passes the check. *)
Lemma check_command_ok tm H cfg i L k e :
  0 ≤ n → history_ok n tm H → logs_committed H (logs cfg) → entry_of H k e → 0 ≤ i →
  logs cfg !! Z.to_nat i = Some L → has_entry L (k - 1) →
  ∃ cfg', check_command i (command_msg (le_Command e) k) cfg = Ret cfg' ∧
    logs cfg' = <[Z.to_nat i := <[k := le_Command e]> L]> (logs cfg) ∧ applyErr cfg' = applyErr cfg ∧
    rafts cfg' = rafts cfg.
Proof.
  intros Hn Ho Hls He Hi HL Hprev. unfold check_command, checkLogs.
  rewrite scan_agrees; [|simpl; intros L' v [j Hj]%list_elem_of_lookup Hv;
    destruct (Hls j L' k v Hj Hv) as (e' & He' & ->); by rewrite (entry_of_unique tm H k e' e)].
  assert (index (logs cfg) i = Ret L) as -> by by apply index_Ret. simpl. pose proof (lookup_lt_Some _ _ _ HL).
  rewrite set_index_Ret by (unfold zlen; lia). simpl.
  assert ((1 <? k) && negb (bool_decide (is_Some (L !! (k - 1)))) = false) as ->.
  { destruct Hprev as [?|?]; [|by rewrite bool_decide_eq_true_2, andb_false_r].
    replace (1 <? k) with false by (symmetry; apply Z.ltb_ge; lia). done. }
  eexists. split; [reflexivity|]. case_test; done.
Qed.

(** A pointer of [cfg.rafts] is nil or not. *)
Lemma the_raft_cases i rf cfg b : 0 ≤ i → rafts cfg !! Z.to_nat i = Some b →
  the_raft i rf cfg = if b : bool then Ret rf else Panic PNil.
Proof. intros Hi Hb. unfold the_raft. assert (index (rafts cfg) i = Ret b) as -> by by apply index_Ret. done. Qed.

(** What the applier makes of the next command of a batch. *)
Lemma apply_command_ok tm H cfg i L k e rf la b :
  0 ≤ n → history_ok n tm H → commands_in is_Some H → logs_committed H (logs cfg) → entry_of H k e → 0 ≤ i →
  rafts cfg !! Z.to_nat i = Some b →
  logs cfg !! Z.to_nat i = Some L → has_entry L (k - 1) → la < k → raft_wf rf → k ≤ commitIndex rf →
  (∃ rf' cfg' la', apply_message i (command_msg (le_Command e) k) rf cfg la = Ret (rf', cfg', la') ∧
    logs cfg' = <[Z.to_nat i := <[k := le_Command e]> L]> (logs cfg) ∧ applyErr cfg' = applyErr cfg ∧
    rafts cfg' = rafts cfg ∧ la' = (if snapshot then k else la) ∧
    (rf' = rf ∨ ∃ v, le_Command e = Some v ∧ Raft.Snapshot rf k (gob_encode v) = Ret rf')) ∨
  nil_call i (command_msg (le_Command e) k) rf cfg la.
Proof.
  intros Hn Ho Hsome Hls He Hi Hra HL Hprev Hla Hw Hk. unfold nil_call, apply_message, applierSnap, applier. simpl.
  destruct (check_command_ok tm H cfg i L k e) as (cfg' & -> & Hl' & He' & Hra'); [done..|]. simpl.
  destruct snapshot; [|left; by exists rf, cfg', la; split_and!; [..|left]].
  replace (la <? k) with true by (symmetry; by apply Z.ltb_lt).
  assert (is_Some (le_Command e)) as [v Hv].
  { destruct He as (p & T & Hp & _ & Hpe). eapply (safe_commands n H T p); [done|done|by eapply list_elem_of_lookup_2]. }
  case_test; [|left; by exists rf, cfg', k; split_and!; [..|left]]. rewrite Hv.
  rewrite (the_raft_cases i rf cfg' b) by (done || by rewrite Hra'). destruct b; [left|by right].
  destruct (Snapshot_cases rf k (gob_encode v) Hw Hk) as (rf' & Hr & _). rewrite bind_Ret, Hr. simpl.
  exists rf', cfg', k. split_and!; [done..|by rewrite Hl', Hv|done|done|done|]. right. by exists v.
Qed.

(** And of one that a snapshot has overtaken. *)
Lemma apply_skipped i k (c : option C) rf cfg la :
  snapshot = true → k ≤ la → apply_message i (command_msg c k) rf cfg la = Ret (rf, cfg, la).
Proof.
  intros Hs Hk. unfold apply_message, applierSnap. rewrite Hs. simpl.
  replace (la <? k) with false by (symmetry; by apply Z.ltb_ge). done.
Qed.

(** And of a snapshot. *)
Lemma apply_snapshot_ok H cfg i L lit lii data rf la b :
  snap_ok H lii data → raft_wf rf → 0 ≤ lit ≤ currentTerm rf → 0 ≤ i → rafts cfg !! Z.to_nat i = Some b →
  logs cfg !! Z.to_nat i = Some L →
  (∃ rf' cfg' la', apply_message i (snapshot_msg data lit lii) rf cfg la = Ret (rf', cfg', la') ∧
    applyErr cfg' = applyErr cfg ∧ rafts cfg' = rafts cfg ∧
    ((rf' = rf ∧ cfg' = cfg ∧ la' = la) ∨
     (snapshot = true ∧ CondInstallSnapshot rf lit lii data = Ret (rf', true) ∧ la' = lii ∧
      ∃ e, entry_of H lii e ∧ logs cfg' = <[Z.to_nat i := {[lii := le_Command e]}]> (logs cfg)))) ∨
  nil_call i (snapshot_msg data lit lii) rf cfg la.
Proof.
  intros Hsn Hw Hlit Hi Hra HL. unfold nil_call, apply_message, applierSnap, applier. simpl.
  destruct snapshot; [|left; by exists rf, cfg, la; split_and!; [..|left]].
  rewrite (the_raft_cases i rf cfg b) by done. destruct b; [left|by right]. rewrite bind_Ret.
  destruct (CondInstallSnapshot_cases rf lit lii data Hw Hlit) as (rf' & b & Hr & _ & Hcase). rewrite Hr. simpl.
  destruct Hcase as [(_ & -> & ->)|(Hlt & -> & _)]; [by exists rf, cfg, la; split_and!; [..|left]|].
  pose proof (rw_lii _ Hw). pose proof (rw_applied _ Hw). destruct Hsn as [[? _]|(e & v & He & Hv & ->)]; [lia|].
  pose proof (lookup_lt_Some _ _ _ HL). rewrite set_index_Ret by (unfold zlen; lia). simpl.
  eexists rf', _, lii. split; [reflexivity|]. split; [done|]. split; [done|]. right. split_and!; [done..|]. exists e.
  split; [done|]. by rewrite Hv.
Qed.

(** ** The steps *)
Context (Hn : 0 ≤ n).

Lemma log_entries W H V i L :
  tinv W H V → logs (t_cfg W) !! Z.to_nat i = Some L →
  ∀ k v, L !! k = Some v → ∃ e, entry_of H k e ∧ v = le_Command e.
Proof using Type. intros Hinv HL k v. by apply (ti_logs _ _ _ Hinv (Z.to_nat i)). Qed.

(** [cfg.rafts] has a place for every server. *)
Lemma server_raft W H V i : tinv W H V → 0 ≤ i < n → ∃ b, rafts (t_cfg W) !! Z.to_nat i = Some b.
Proof using Type. intros Hinv Hi. apply lookup_lt_is_Some_2. rewrite (ti_rafts _ _ _ Hinv). lia. Qed.

Lemma log_kept cfg i L : logs cfg !! Z.to_nat i = Some L → ∀ L0, logs cfg !! Z.to_nat i = Some L0 → keeps L0 L.
Proof using Type. intros HL L0 HL0. assert (L0 = L) as -> by congruence. by intros _ k. Qed.

Lemma has_entry_insert L k k' v : has_entry L k → has_entry (<[k' := v]> L) k.
Proof using Type. intros [?|?]; [by left|right]. destruct (decide (k = k')) as [->|]; by rewrite ?lookup_insert_eq, ?lookup_insert_ne. Qed.

Lemma has_entry_at L k v : has_entry (<[k := v]> L) k.
Proof using Type. right. by rewrite lookup_insert_eq. Qed.

(** The next command of a batch: the applier accepts it, and the invariant holds
    afterwards. *)
Lemma deliver_ok W H V i rf la m ms c :
  tinv W H V → g_peer (t_group W) !! i = Some rf → t_last W !! i = Some la → t_batch W !! i = Some (m :: ms, c) →
  (∃ rf' cfg' la', apply_message i m rf (t_cfg W) la = Ret (rf', cfg', la') ∧
    ∃ V', tinv (mkTWorld (set_peer (t_group W) i rf') cfg' (<[i := la']> (t_last W)) (<[i := (ms, c)]> (t_batch W)) (t_old W)) H V') ∨
  nil_call i m rf (t_cfg W) la.
Proof using Hn.
  intros Hinv Hi Hla Hb. pose proof (ti_group _ _ _ Hinv) as Hg.
  destruct (ginv_peer _ _ _ _ _ _ Hg Hi) as (Hw & _).
  destruct (ni_reach _ _ (gi_net _ _ _ _ Hg) _ _ Hi) as [Hir _].
  destruct (ti_server _ _ _ Hinv i rf Hi) as (L & la0 & HL & Hla0 & Hli & Hpl & Hbi).
  assert (la0 = la) as -> by congruence. rewrite Hb in Hbi. destruct Hbi as (Hc & Hms & Hpos).
  destruct (Hms 0%nat m eq_refl) as (e & He & Hm). rewrite Z.add_0_r in *. rewrite zlen_cons in *.
  set (k := c - (1 + zlen ms) + 1) in *. pose proof (zlen_nonneg ms).
  assert (1 ≤ k) as Hk1 by (by destruct He as (? & ? & _ & ? & _)).
  assert (∀ j x, ms !! j = Some x → ∃ e, entry_of H (c - zlen ms + 1 + Z.of_nat j) e ∧
    x = command_msg (le_Command e) (c - zlen ms + 1 + Z.of_nat j)) as Htail.
  { intros j x Hj. destruct (Hms (Datatypes.S j) x Hj) as (e' & He' & ->). exists e'.
    replace (c - zlen ms + 1 + Z.of_nat j) with (k + Z.of_nat (Datatypes.S j)) by lia. done. }
  destruct (server_raft W H V i Hinv Hir) as [b Hrab].
  destruct Hpos as [(Hent & Hlak & Hlak')|(Hcla & Hent & Hlast)].
  - destruct (apply_command_ok (term_of (g_net (t_group W))) H (t_cfg W) i L k e rf la b)
      as [(rf' & cfg' & la' & Hr & Hl' & He' & Hra' & Hla' & Hrf)|Hnil]; try done; try lia;
      [apply Hg|apply Hinv|apply Hinv|replace (k - 1) with (c - (1 + zlen ms)) by lia; done| |right; by rewrite Hm].
    left. exists rf', cfg', la'. split; [by rewrite Hm|].
    assert (∃ data, (rf' = rf ∨ Raft.Snapshot rf k data = Ret rf') ∧
      (rf' = rf ∨ ∃ v, le_Command e = Some v ∧ gob_decode data = Some v)) as (data & Hrf1 & Hrf2).
    { destruct Hrf as [->|(v & Hv & Hs)]; [exists []; auto|]. exists (gob_encode v). split; [by right|right].
      exists v. split; [done|apply gob_decode_encode]. }
    destruct (command_peer rf k data rf' Hw ltac:(lia) ltac:(lia) Hrf1) as (HA & HCI & Hsn).
    assert (k ≤ commitIndex rf) as Hkc by lia.
    assert (∃ V', ginv n (set_peer (t_group W) i rf') H V') as [V' Hg'].
    { destruct Hrf1 as [->|Hs]; [exists V; by rewrite set_peer_same|].
      eexists. exact (step_snapshot n _ _ _ _ _ _ _ _ Hg Hi Hkc Hs). }
    exists V'. eapply (tinv_machine W _ H V V' i rf rf' (<[k := le_Command e]> L) la'); try done.
    + intros j Hj. simpl. by rewrite lookup_insert_ne.
    + simpl. by rewrite Hra'.
    + intros L0 HL0 _ x Hx. assert (L0 = L) as -> by congruence. by apply has_entry_insert.
    + by left.
    + intros k' v [[<- <-]|[_ Hv]]%lookup_insert_Some; [by exists e|by eapply log_entries].
    + simpl. rewrite lookup_insert_eq. split_and!.
      * destruct Hsn as [[-> _]|[-> _]]; [by apply has_entry_insert|apply has_entry_at].
      * intros Hs0. rewrite Hla', Hs0. auto.
      * split_and!; [lia|done|left]. replace (c - zlen ms) with k by lia.
        split_and!; [apply has_entry_at| |lia]. rewrite Hla'. case_match; lia.
    + pose proof (ti_snap _ _ _ Hinv _ _ Hi) as Hold. destruct Hrf2 as [->|(v & Hv & Hdec)]; [done|].
      destruct Hsn as [[-> ->]|[-> ->]]; [done|]. right. by exists e, v.
  - destruct snapshot eqn:Hs; [|specialize (Hpl eq_refl); lia].
    left. exists rf, (t_cfg W), la. split; [rewrite Hm; apply apply_skipped; [done|lia]|]. exists V.
    eapply (tinv_machine W _ H V V i rf rf L la); try done; simpl.
    + by rewrite set_peer_same.
    + by rewrite list_insert_id.
    + intros j Hj. by rewrite lookup_insert_ne.
    + exact (log_kept _ _ _ HL).
    + by left.
    + by eapply log_entries.
    + rewrite lookup_insert_eq. split_and!; [done|by rewrite Hs|]. split_and!; [done|done|by right].
    + by eapply ti_snap.
Qed.

(** A snapshot the leader sent. *)
Lemma offer_ok W H V i rf la lit lii data :
  tinv W H V → (i, (lit, lii, data)) ∈ g_offers (t_group W) → g_peer (t_group W) !! i = Some rf →
  t_last W !! i = Some la →
  (∃ rf' cfg' la', apply_message i (snapshot_msg data lit lii) rf (t_cfg W) la = Ret (rf', cfg', la') ∧
    ∃ V', tinv (mkTWorld (set_peer (t_group W) i rf') cfg' (<[i := la']> (t_last W)) (t_batch W) (t_old W)) H V') ∨
  nil_call i (snapshot_msg data lit lii) rf (t_cfg W) la.
Proof using Hn.
  intros Hinv Hin Hi Hla. pose proof (ti_group _ _ _ Hinv) as Hg.
  destruct (ginv_peer _ _ _ _ _ _ Hg Hi) as (Hw & _).
  destruct (ni_reach _ _ (gi_net _ _ _ _ Hg) _ _ Hi) as [Hir _].
  pose proof (group_event_ok n Hn _ _ _ _ _ (EvCondInstall lit lii data) Hg Hi Hin) as Hok.
  destruct (ti_server _ _ _ Hinv i rf Hi) as (L & la0 & HL & Hla0 & Hli & Hpl & Hbi).
  assert (la0 = la) as -> by congruence.
  pose proof (ti_offer _ _ _ Hinv _ _ _ _ Hin) as Hsn.
  destruct (server_raft W H V i Hinv Hir) as [b Hrab].
  destruct (apply_snapshot_ok H (t_cfg W) i L lit lii data rf la b Hsn Hw Hok ltac:(lia) Hrab HL)
    as [(rf' & cfg' & la' & Hr & He' & Hra' & Hcase)|Hnil]; [left|by right].
  exists rf', cfg', la'. split; [done|]. destruct Hcase as [(-> & -> & ->)|(Hs & Hcond & -> & e & He & Hl')].
  - exists V. eapply (tinv_machine W _ H V V i rf rf L la); try done; simpl.
    + by rewrite set_peer_same.
    + by rewrite list_insert_id.
    + exact (log_kept _ _ _ HL).
    + by left.
    + by eapply log_entries.
    + by eapply ti_snap.
  - destruct (step_cond_install n Hn _ _ _ _ _ _ _ _ _ _ Hg Hin Hi Hcond) as [V' Hg']. exists V'.
    destruct (CondInstallSnapshot_cases rf lit lii data Hw Hok) as (rf1 & b1 & E & _ & Hc1).
    rewrite Hcond in E. injection E as <- <-. destruct Hc1 as [(_ & ? & _)|(Hlt & _ & HI & _ & HA & HC' & _ & _ & _ & HP & _)]; [done|].
    eapply (tinv_machine W _ H V V' i rf rf' {[lii := le_Command e]} lii); try done; simpl.
    + by rewrite Hra'.
    + intros L0 _ Hs0. congruence.
    + by left.
    + intros k v [<- <-]%lookup_singleton_Some. by exists e.
    + assert (has_entry {[lii := le_Command e]} lii) as Hent by (right; by rewrite lookup_singleton_eq).
      split_and!; [by rewrite HI|by rewrite Hs|]. destruct (t_batch W !! i) as [[ms c]|]; simpl in *; rewrite HA.
      * destruct Hbi as (Hc & Hms & _). split_and!; [lia|done|right]. split_and!; [lia|done|done].
      * split; [done|lia].
    + rewrite HI, HP. by autorewrite with shardkv.
Qed.

Lemma take_ok W H V i rf msgs c :
  tinv W H V → g_peer (t_group W) !! i = Some rf → t_batch W !! i = None →
  applyChecker_take rf = Ret (Some (msgs, c)) →
  tinv (mkTWorld (t_group W) (t_cfg W) (t_last W) (<[i := (msgs, c)]> (t_batch W)) (t_old W)) H V.
Proof using Type.
  intros Hinv Hi Hb Ht. pose proof (ti_group _ _ _ Hinv) as Hg.
  destruct (ginv_peer _ _ _ _ _ _ Hg Hi) as (Hw & _ & _ & _ & Hpi).
  destruct (ti_server _ _ _ Hinv i rf Hi) as (L & la & HL & Hla & Hli & Hpl & Hbi). rewrite Hb in Hbi.
  destruct (applyChecker_take_cases rf Hw) as (o & E & Ho). rewrite Ht in E. injection E as <-.
  destruct Ho as (-> & Hlt & Hlen & Hmsg). pose proof (rw_lii _ Hw).
  eapply (tinv_machine W _ H V V i rf rf L la); try done; simpl.
  - by rewrite insert_id.
  - by rewrite list_insert_id.
  - by rewrite insert_id.
  - intros j Hj. by rewrite lookup_insert_ne.
  - exact (log_kept _ _ _ HL).
  - by left.
  - by eapply log_entries.
  - rewrite lookup_insert_eq. destruct Hbi as [Hent Hlal]. split_and!; [done|done|]. split_and!; [lia| |left].
    + intros j m Hj. destruct (Hmsg j m Hj) as (e & He & ->). apply lookup_lt_Some in Hj. unfold zlen in Hlen.
      exists e. split; [|f_equal; unfold zlen; lia].
      exists (take (Z.to_nat (commitIndex rf)) (V i)), (currentTerm rf). split_and!; [apply Hpi|unfold zlen; lia|].
      rewrite (rep_entry rf (V i)) in He by (apply Hpi || lia). unfold zlen.
      rewrite lookup_take_lt by lia. rewrite <- He. f_equal. lia.
    + replace (commitIndex rf - zlen msgs) with (lastApplied rf) by lia. done.
  - by eapply ti_snap.
Qed.

Lemma done_ok W H V i rf c :
  tinv W H V → g_peer (t_group W) !! i = Some rf → t_batch W !! i = Some ([], c) →
  ∃ V', tinv (mkTWorld (set_peer (t_group W) i (applyChecker_done rf c)) (t_cfg W) (t_last W) (delete i (t_batch W)) (t_old W)) H V'.
Proof using Type.
  intros Hinv Hi Hb. pose proof (ti_group _ _ _ Hinv) as Hg.
  destruct (ti_server _ _ _ Hinv i rf Hi) as (L & la & HL & Hla & Hli & Hpl & Hbi). rewrite Hb in Hbi.
  destruct Hbi as (Hc & _ & Hpos). rewrite zlen_nil, Z.sub_0_r in Hpos.
  eexists. eapply (tinv_machine W _ H V _ i rf (applyChecker_done rf c) L la); try done; simpl.
  - by apply step_done.
  - by rewrite list_insert_id.
  - by rewrite insert_id.
  - intros j Hj. by rewrite lookup_delete_ne.
  - exact (log_kept _ _ _ HL).
  - by left.
  - by eapply log_entries.
  - rewrite lookup_delete_eq. split_and!; [by unfold applyChecker_done; case_test|done|].
    unfold applyChecker_done. destruct Hpos as [(? & ? & ?)|(? & ? & ?)]; case_test; simpl.
    + done.
    + by replace (lastApplied rf) with c by lia.
    + lia.
    + by replace (lastApplied rf) with la by lia.
  - unfold applyChecker_done. case_test; by eapply (ti_snap _ _ _ Hinv i rf).
Qed.

Lemma restart_ok W H V i rf now cfg' :
  tinv W H V → g_peer (t_group W) !! i = Some rf → same_logs (t_cfg W) cfg' →
  ∃ V', tinv (mkTWorld (set_peer (t_group W) i (Make n i (start1_saved (Some (persister rf))) now)) cfg'
    (<[i := 0]> (t_last W)) (delete i (t_batch W)) (survivors i W)) H V'.
Proof using Type.
  intros Hinv Hi (Hl & He & Hra'). rewrite start1_saved_id. pose proof (ti_group _ _ _ Hinv) as Hg.
  destruct (ginv_peer _ _ _ _ _ _ Hg Hi) as (Hw & _). pose proof (rw_lii _ Hw).
  destruct (ni_state _ _ _ _ (gi_net _ _ _ _ Hg) Hi) as (_ & Hrec & _).
  destruct (Hrec n i now) as (Hs & _ & Ha & Hc). unfold saved in Hs.
  assert (lastIncludedIndex (Make n i (persister rf) now) = lastIncludedIndex rf) as HI by congruence.
  assert (persister (Make n i (persister rf) now) = persister rf) as HP by apply Make_static.
  destruct (ti_server _ _ _ Hinv i rf Hi) as (L & la & HL & Hla & Hli & Hpl & Hbi).
  eexists. eapply (tinv_machine W _ H V _ i rf (Make n i (persister rf) now) L 0); try done; simpl.
  - by apply step_crash.
  - by rewrite Hl, list_insert_id.
  - intros j Hj. by rewrite lookup_delete_ne.
  - exact (log_kept _ _ _ HL).
  - intros j ms' Hin. unfold survivors in Hin. destruct (t_batch W !! i) as [[ms c]|] eqn:Hb; [|by left].
    destruct snapshot eqn:Hsn; [by left|]. apply elem_of_cons in Hin as [[= -> ->]|?]; [|by left].
    right. split_and!; [done..|]. destruct Hbi as (_ & Hms & [(? & _)|(Hcla & _)]); [by exists (c - zlen ms)|].
    exists 0. split; [by left|]. intros j m Hj. exfalso. apply Hms in Hj as Hm. apply lookup_lt_Some in Hj.
    destruct Hm as (e & (? & ? & _ & Hk & _) & _). specialize (Hpl eq_refl). unfold zlen in Hk. lia.
  - by eapply log_entries.
  - rewrite lookup_delete_eq. split_and!; [by rewrite HI|done|]. simpl. rewrite Ha. split; [done|lia].
  - rewrite HI, HP. by eapply ti_snap.
Qed.

Lemma server_ok_keeps H rf L L' la b :
  (∀ k, has_entry L k → has_entry L' k) → server_ok H rf L la b → server_ok H rf L' la b.
Proof using Type.
  intros Hk (Hli & Hpl & Hb). split_and!; [by apply Hk|done|]. destruct b as [[ms c]|]; simpl in *.
  - destruct Hb as (? & ? & [(? & ? & ?)|(? & ? & ?)]); split_and!; try done; [left|right]; auto.
  - destruct Hb. auto.
Qed.

(** The applier of an instance that was replaced accepts its next command, which its
    server may have applied again in the meantime. *)
Lemma survivor_ok W H V o1 i m ms o2 :
  tinv W H V → t_old W = o1 ++ (i, m :: ms) :: o2 →
  ∃ cfg', applier i m (t_cfg W) = Ret cfg' ∧
    tinv (mkTWorld (t_group W) cfg' (t_last W) (t_batch W) (o1 ++ (i, ms) :: o2)) H V.
Proof using Hn.
  intros Hinv Ho. pose proof Hinv as [Hg Hc He Hra Hold Hlg Hs Hsn Hin Hof].
  destruct (Hold i (m :: ms)) as (Hs0 & Hi & L & HL & k & Hent & Hms); [rewrite Ho; set_solver|].
  destruct (Hms 0%nat m eq_refl) as (e & Hk & ->). rewrite Z.add_0_r in *. pose proof (lookup_lt_Some _ _ _ HL) as Hlt.
  destruct (check_command_ok (term_of (g_net (t_group W))) H (t_cfg W) i L (k + 1) e)
    as (cfg' & Hr & Hl' & He' & Hra'); try done; [apply Hg|by replace (k + 1 - 1) with k by lia|].
  exists cfg'. split; [exact Hr|].
  assert (∀ x, has_entry L x → has_entry (<[k + 1 := le_Command e]> L) x) as Hkeep by (intros; by apply has_entry_insert).
  split; simpl; try done; rewrite ?Hl'.
  - by rewrite He'.
  - by rewrite Hra'.
  - assert (old_ok H (<[k + 1 := le_Command e]> L) ms) as Htail.
    { exists (k + 1). split; [apply has_entry_at|]. intros j m Hj. destruct (Hms (Datatypes.S j) m Hj) as (e' & ? & ->).
      exists e'. by replace (k + 1 + 1 + Z.of_nat j) with (k + 1 + Z.of_nat (Datatypes.S j)) by lia. }
    intros j ms' Hj. assert ((j, ms') = (i, ms) ∨ (j, ms') ∈ t_old W) as [[= -> ->]|Hj'] by (rewrite Ho; set_solver).
    + split_and!; [done..|]. exists (<[k + 1 := le_Command e]> L). by rewrite list_lookup_insert_eq.
    + destruct (Hold j ms' Hj') as (_ & ? & Lj & HLj & Hok). split_and!; [done..|].
      destruct (decide (Z.to_nat i = Z.to_nat j)) as [Heq|Hne].
      * exists (<[k + 1 := le_Command e]> L). rewrite Heq, list_lookup_insert_eq by congruence. split; [done|].
        assert (Lj = L) as -> by congruence. eapply old_ok_keeps; [done|by intros _|done].
      * exists Lj. by rewrite list_lookup_insert_ne.
  - intros j Lj x v [(<- & <- & _)|[_ Hj]]%list_lookup_insert_Some; [|by eapply Hlg].
    intros [[<- <-]|[_ Hv]]%lookup_insert_Some; [by exists e|by eapply Hlg].
  - intros j rj Hj. destruct (Hs j rj Hj) as (Lj & laj & HLj & Hlaj & Hok).
    destruct (decide (Z.to_nat i = Z.to_nat j)) as [Heq|Hne].
    + exists (<[k + 1 := le_Command e]> L), laj. rewrite Heq, list_lookup_insert_eq by congruence. split_and!; [done..|].
      assert (Lj = L) as -> by congruence. by eapply server_ok_keeps.
    + exists Lj, laj. by rewrite list_lookup_insert_ne.
Qed.

Lemma kill_ok W H V i rf :
  tinv W H V → g_peer (t_group W) !! i = Some rf →
  ∃ V', tinv (mkTWorld (set_peer (t_group W) i (Kill rf)) (t_cfg W) (t_last W) (t_batch W) (t_old W)) H V'.
Proof using Type.
  intros Hinv Hi. pose proof (ti_group _ _ _ Hinv) as Hg. eexists.
  eapply (tinv_peers W _ H V H _ (λ _, 0) (λ _, False) Hinv);
    [by apply step_kill|apply extends_refl|done|]. by apply (peers_frame_set _ _ i rf (Kill rf)); [|split|..].
Qed.

(** Who was elected stays so. *)
Lemma pstep_elected G G' : pstep n G G' → n_elected (g_net G) ⊆ n_elected (g_net G').
Proof using Type.
  destruct 1; simpl; try done; try (by destruct out); try (by destruct o). case_match; [|done]. apply union_subseteq_r.
Qed.

Record later W H W' H' : Prop := {
  lt_entry : ∀ k e, entry_of H k e → entry_of H' k e;
  lt_elected : n_elected (g_net (t_group W)) ⊆ n_elected (g_net (t_group W'))
}.

Lemma tstep_inv W W' H V :
  tinv W H V → tstep W W' → ∃ H' V', tinv W' H' V' ∧ later W H W' H'.
Proof using Hn.
  intros Hinv Hstep. pose proof (ti_group _ _ _ Hinv) as Hg.
  assert (∀ W', n_elected (g_net (t_group W')) = n_elected (g_net (t_group W)) → (∃ V', tinv W' H V') →
    ∃ H' V', tinv W' H' V' ∧ later W H W' H') as Hsame.
  { intros W1 Hel [V1 ?]. exists H, V1. split; [done|]. split; [done|by rewrite Hel]. }
  destruct Hstep as [W G' Hp|W i rf msgs c Hi Hb Ht|W i rf la m ms c rf' cfg' la' Hi Hla Hb Hr|W i rf c Hi Hb|
    W i rf la lit lii data rf' cfg' la' Hin Hi Hla Hr|W o1 i m ms o2 cfg' Ho Hr|W i rf Hi|W i rf cfg' Hi Hc|
    W i rf names srv now cfg' Hi Hs|
    W i rf c rf' r Hi Hr|W cfg' Hh].
  - destruct (pstep_ginv n Hn _ _ _ _ Hg Hp) as (H' & V' & Hg' & Hex). exists H', V'. split.
    + eapply tinv_peers; [done|done|done|done|]. by eapply (pstep_frame n _ _ H V).
    + split; [|by apply pstep_elected]. intros k e. eapply entry_of_grows, (ex_grows _ _ _ _ Hex).
  - apply Hsame; [done|]. eexists. by eapply take_ok.
  - destruct (deliver_ok W H V i rf la m ms c Hinv Hi Hla Hb) as [(rf1 & cfg1 & la1 & E & HV)|(_ & _ & E)];
      [|by rewrite Hr in E]. rewrite Hr in E. injection E as <- <- <-. by apply Hsame.
  - apply Hsame; [done|]. by eapply done_ok.
  - destruct (offer_ok W H V i rf la lit lii data Hinv Hin Hi Hla) as [(rf1 & cfg1 & la1 & E & HV)|(_ & _ & E)];
      [|by rewrite Hr in E]. rewrite Hr in E. injection E as <- <- <-. by apply Hsame.
  - destruct (survivor_ok W H V o1 i m ms o2 Hinv Ho) as (cfg1 & E & HV). rewrite Hr in E. injection E as <-.
    apply Hsame; [done|]. by exists V.
  - apply Hsame; [done|]. by apply (kill_ok W H V).
  - apply Hsame; [done|]. destruct (kill_ok W H V i rf Hinv Hi) as [V' HV]. exists V'.
    apply (tinv_cfg _ cfg' H V' HV). by eapply crash1_logs.
  - apply Hsame; [done|]. eapply restart_ok; [done|done|]. by eapply start1_logs.
  - destruct (ginv_peer _ _ _ _ _ _ Hg Hi) as (Hw & _).
    destruct (step_start n _ _ _ _ _ _ _ _ Hg Hi Hr) as (H' & V' & Hg' & Hex). exists H', V'. split.
    + eapply tinv_peers; [done|done|done|by intros ? ->|]. eapply peers_frame_set; [done| |done..].
      destruct (Start_cases rf c Hw) as (rf1 & x & t & lead & E & _ & Hl). rewrite Hr in E. injection E as <- _.
      destruct lead; [destruct Hl as (_ & _ & _ & _ & _ & ->); by split|].
      destruct Hl as (_ & -> & _). apply service_frame_refl.
    + split; [|done]. intros k e. eapply entry_of_grows, (ex_grows _ _ _ _ Hex).
  - apply Hsame; [done|]. exists V. apply tinv_cfg; [done|]. by apply harness_logs.
Qed.

Lemma tester_reach_inv W W' H V :
  tinv W H V → rtc tstep W W' → ∃ H' V', tinv W' H' V' ∧ later W H W' H'.
Proof using Hn.
  intros Hinv Hrun. revert H V Hinv. induction Hrun as [W|W W1 W2 Hs _ IH]; intros H V Hinv.
  - exists H, V. split; [done|]. by split.
  - destruct (tstep_inv _ _ _ _ Hinv Hs) as (H1 & V1 & Hinv1 & [He1 Hel1]).
    destruct (IH H1 V1 Hinv1) as (H2 & V2 & Hinv2 & [He2 Hel2]). exists H2, V2. split; [done|].
    split; [by auto|by etrans].
Qed.

Lemma tworld_init_inv W : tworld_init W → tinv W (mkHist ∅ ∅) (λ _, []).
Proof using Type.
  intros (Hg & Hb & Hold & (unrel & names & srv & Hcfg) & Hla). pose proof (init_ginv n _ Hg) as Hgi.
  destruct (make_config_logs _ _ _ _ Hcfg) as (Hl & He & Hra).
  destruct Hg as (Hnet & _ & _ & Hin & _ & Hof). destruct Hnet as (Hp & _). split; [done|..].
  - done.
  - rewrite He. by apply Forall_replicate.
  - done.
  - rewrite Hold. by intros i ms ?%elem_of_nil.
  - rewrite Hl. intros j L k v [-> _]%lookup_replicate_1 [=].
  - intros i rf Hi. exists ∅, 0. rewrite Hl, Hb, lookup_empty. pose proof (Hla i rf Hi).
    apply Hp in Hi as [? [now ->]]. rewrite lookup_replicate_2 by lia.
    split_and!; [done|done|]. split_and!; [by left|done|]. split; [by left|done].
  - intros i rf [_ [now ->]]%Hp. by left.
  - rewrite Hin. by intros j args ?%elem_of_nil.
  - rewrite Hof. by intros i lit lii data ?%elem_of_nil.
Qed.

(** ** Moments of a run *)
Fixpoint on_run W (Ws : list tworld) : Prop :=
  match Ws with
  | [] => True
  | W' :: Ws' => rtc tstep W W' ∧ on_run W' Ws'
  end.

(** All moments, seen from the last. *)
Lemma on_run_inv W H V Ws :
  tinv W H V → on_run W Ws →
  ∃ Wl Hl Vl, tinv Wl Hl Vl ∧ later W H Wl Hl ∧ Forall (λ W', ∃ H' V', tinv W' H' V' ∧ later W' H' Wl Hl) Ws.
Proof using Hn.
  revert W H V. induction Ws as [|W1 Ws IH]; intros W H V Hinv Hrun.
  - exists W, H, V. split; [done|]. split; [by split|by apply Forall_nil].
  - destruct Hrun as [H01 H1s]. destruct (tester_reach_inv _ _ _ _ Hinv H01) as (H1 & V1 & Hinv1 & [E1 L1]).
    destruct (IH W1 H1 V1 Hinv1 H1s) as (Wl & Hl & Vl & Hinvl & [E2 L2] & Hall). exists Wl, Hl, Vl.
    split; [done|]. split; [split; [by auto|by etrans]|]. apply Forall_cons. split; [|done].
    exists H1, V1. split; [done|]. by split.
Qed.

(** Server [i] as a test sees it at the [i]-th moment: the value its log has at an
    index, the error of its applier, and its state if it is connected. *)
Definition seen_at (idx : Z) (Ws : list tworld) : list (option (option C)) :=
  imap (λ i W, L ← logs (t_cfg W) !! i; L !! idx) Ws.

Definition errs_at (Ws : list tworld) : list (option apply_error) :=
  imap (λ i W, default None (applyErr (t_cfg W) !! i)) Ws.

Definition states_at (Ws : list tworld) : list (option (Z * bool)) :=
  imap (λ i W, match connected (t_cfg W) !! i with
               | Some true => GetState <$> g_peer (t_group W) !! Z.of_nat i
               | _ => None
               end) Ws.

Definition round_at (idx : Z) (Ws : list tworld) (terms : list (option Z)) : round C :=
  mkRound (errs_at Ws) (seen_at idx Ws) terms.

(** The values agree. *)
Lemma seen_agree W H V Ws idx :
  tinv W H V → on_run W Ws → ∃ cmd, ∀ i v, seen_at idx Ws !! i = Some (Some v) → v = cmd.
Proof using Hn.
  intros Hinv Hrun. destruct (on_run_inv _ _ _ _ Hinv Hrun) as (Wl & Hl & Vl & Hinvl & _ & Hall).
  assert (∀ i v, seen_at idx Ws !! i = Some (Some v) → ∃ e, entry_of Hl idx e ∧ v = le_Command e) as Hv.
  { intros i v. unfold seen_at. rewrite list_lookup_imap. intros (Wi & Hi & Hs)%fmap_Some. symmetry in Hs.
    rewrite Forall_lookup in Hall. destruct (Hall i Wi Hi) as (H' & V' & Hinv' & [He _]).
    apply bind_Some in Hs as (L & HL & Hk). destruct (ti_logs _ _ _ Hinv' i L idx v HL Hk) as (e & ? & ->).
    exists e. split; [by apply He|done]. }
  destruct (decide (Exists (λ o, is_Some o) (seen_at idx Ws))) as [Hex|Hno].
  - apply Exists_exists in Hex as (o & Hin & [v ->]). apply list_elem_of_lookup in Hin as [i Hi].
    exists v. intros j v' Hj. destruct (Hv i v Hi) as (e & He & ->). destruct (Hv j v' Hj) as (e' & He' & ->).
    f_equal. eapply entry_of_unique; [done|apply (ti_group _ _ _ Hinvl)|done|done].
  - exists None. intros i v Hi. destruct Hno. apply Exists_exists. exists (Some v).
    split; [by eapply list_elem_of_lookup_2|done].
Qed.

Lemma errs_none W H V Ws : tinv W H V → on_run W Ws → Forall (λ e, e = None) (errs_at Ws).
Proof using Hn.
  intros Hinv Hrun. destruct (on_run_inv _ _ _ _ Hinv Hrun) as (Wl & Hl & Vl & _ & _ & Hall).
  apply Forall_lookup. intros i e. unfold errs_at. rewrite list_lookup_imap. intros (Wi & Hi & ->)%fmap_Some.
  rewrite Forall_lookup in Hall. destruct (Hall i Wi Hi) as (H' & V' & Hinv' & _).
  destruct (applyErr (t_cfg Wi) !! i) as [x|] eqn:E; [|done]. simpl.
  pose proof (ti_errs _ _ _ Hinv') as He. rewrite Forall_lookup in He. by apply (He i).
Qed.

(** Seen leaders were elected, so there is one per term. *)
Lemma states_leader W H V Ws :
  tinv W H V → on_run W Ws →
  ∃ Wl Hl Vl, tinv Wl Hl Vl ∧ ∀ (j : nat) t, states_at Ws !! j = Some (Some (t, true)) →
    (Z.of_nat j, t) ∈ n_elected (g_net (t_group Wl)) ∧ 0 ≤ t.
Proof using Hn.
  intros Hinv Hrun. destruct (on_run_inv _ _ _ _ Hinv Hrun) as (Wl & Hl & Vl & Hinvl & _ & Hall).
  exists Wl, Hl, Vl. split; [done|]. intros j t. unfold states_at. rewrite list_lookup_imap.
  intros (Wj & Hj & Hs)%fmap_Some. symmetry in Hs. rewrite Forall_lookup in Hall.
  destruct (Hall j Wj Hj) as (H' & V' & Hinv' & [_ Hel]).
  destruct (connected (t_cfg Wj) !! j) as [[]|]; try done. apply fmap_Some in Hs as (rf & Hrf & Hst).
  unfold GetState in Hst. injection Hst as -> Hlead. symmetry in Hlead. apply bool_decide_eq_true in Hlead.
  pose proof (ti_group _ _ _ Hinv') as Hg. destruct (ginv_peer _ _ _ _ _ _ Hg Hrf) as (Hw & _).
  split; [|by apply raft_term_nonneg]. apply Hel. by apply (ni_leader _ _ (gi_net _ _ _ _ Hg)).
Qed.

Lemma on_run_app W Ws Ws' : on_run W (Ws ++ Ws') → on_run W Ws ∧ on_run W Ws'.
Proof using Type.
  revert W. induction Ws as [|W1 Ws IH]; intros W; simpl; [done|]. intros [H1 [H2 H3]%IH]. split; [done|].
  destruct Ws' as [|W2 Ws']; [done|]. destruct H3 as [H3 H4]. split; [by etrans|done].
Qed.

Lemma on_run_concat W (passes : list (list tworld)) : on_run W (concat passes) → Forall (on_run W) passes.
Proof using Type.
  induction passes as [|Ws passes IH]; simpl; [by intros; apply Forall_nil|]. intros [H1 H2]%on_run_app.
  apply Forall_cons. auto.
Qed.
End world.

(** ** The checks as functions of what they see *)
Section checks.
Context {C : Type} `{EqDecision C}.

(** How many servers have a value. *)
Definition present (seen : list (option (option C))) : Z := zlen (omap id seen).

Lemma present_Some x (seen : list (option (option C))) : present (Some x :: seen) = 1 + present seen.
Proof. unfold present. simpl. apply zlen_cons. Qed.

Lemma present_pos (seen : list (option (option C))) :
  (∃ i x, seen !! i = Some (Some x)) → 0 < 0 + present seen.
Proof.
  intros (i & x & Hi). assert (x ∈ omap id seen) as Hx.
  { apply list_elem_of_omap. exists (Some x). split; [by eapply list_elem_of_lookup_2|done]. }
  unfold present. destruct (omap id seen) as [|y l]; [by apply elem_of_nil in Hx|]. rewrite zlen_cons.
  pose proof (zlen_nonneg l). lia.
Qed.

Lemma nCommitted_agree (errs : list (option apply_error)) (seen : list (option (option C))) count cmd v :
  length errs = length seen → Forall (λ e, e = None) errs → 0 ≤ count →
  (∀ i x, seen !! i = Some (Some x) → x = v) → (0 < count → cmd = v) →
  ∃ cmd', nCommitted errs seen count cmd = Ret (count + present seen, cmd') ∧
    (0 < count + present seen → cmd' = v).
Proof.
  revert seen count cmd. induction errs as [|e errs IH]; intros [|o seen] count cmd Hlen He Hc Hv Hcmd; try done.
  - exists cmd. unfold present. simpl. rewrite zlen_nil, Z.add_0_r. done.
  - apply Forall_cons in He as [-> He]. simpl in Hlen. simpl nCommitted. destruct o as [x|].
    + assert (x = v) as -> by (by apply (Hv 0%nat)). rewrite present_Some.
      destruct ((0 <? count) && negb (bool_decide (cmd = v))) eqn:E.
      { bool_to_prop. tauto. }
      destruct (IH seen (count + 1) v) as (cmd' & -> & Hcmd'); [lia|done|lia|by intros i; apply (Hv (S i))|done|].
      exists cmd'. rewrite Z.add_assoc. done.
    + destruct (IH seen count cmd) as (cmd' & -> & Hcmd'); [lia|done|lia|by intros i; apply (Hv (S i))|done|].
      by exists cmd'.
Qed.

(** The servers seen to lead a term. *)
Fixpoint leaders_of (t i : Z) (obs : list (option (Z * bool))) : list Z :=
  match obs with
  | [] => []
  | Some (term, true) :: obs' => if term =? t then i :: leaders_of t (i + 1) obs' else leaders_of t (i + 1) obs'
  | _ :: obs' => leaders_of t (i + 1) obs'
  end.

Lemma elem_of_leaders t i obs k :
  k ∈ leaders_of t i obs ↔ ∃ j : nat, k = i + Z.of_nat j ∧ obs !! j = Some (Some (t, true)).
Proof.
  revert i. induction obs as [|o obs IH]; intros i; simpl.
  - split; [by intros ?%elem_of_nil|]. by intros (j & _ & ?).
  - assert (k ∈ leaders_of t (i + 1) obs ↔ ∃ j : nat, k = i + Z.of_nat (S j) ∧ obs !! j = Some (Some (t, true))) as IH'.
    { rewrite IH. split; intros (j & -> & ?); exists j; (split; [lia|done]). }
    assert (o ≠ Some (t, true) → (∃ j : nat, k = i + Z.of_nat j ∧ (o :: obs) !! j = Some (Some (t, true))) ↔
      k ∈ leaders_of t (i + 1) obs) as Hskip.
    { intros Ho. rewrite IH'. split.
      - intros ([|j] & ? & Hj); [simpl in Hj; congruence|]. by exists j.
      - intros (j & ? & Hj). by exists (S j). }
    destruct o as [[term []]|]; [|by rewrite Hskip..]. destruct (Z.eqb_spec term t) as [->|Hne].
    + rewrite elem_of_cons, IH'. split.
      * intros [->|(j & ? & Hj)]; [exists 0%nat; split; [lia|done]|by exists (S j)].
      * intros ([|j] & -> & Hj); [left; lia|right; by exists j].
    + rewrite Hskip; [done|congruence].
Qed.

Lemma seen_leaders_get obs i m t :
  map_get [] (seen_leaders i obs m) t = map_get [] m t ++ leaders_of t i obs ∧
  (is_Some (seen_leaders i obs m !! t) ↔ is_Some (m !! t) ∨ leaders_of t i obs ≠ []).
Proof.
  revert i m. induction obs as [|o obs IH]; intros i m; simpl.
  { rewrite app_nil_r. split; [done|]. split; [by left|by intros [?|?]]. }
  destruct o as [[term []]|]; try apply IH. destruct (IH (i + 1) (<[term := map_get [] m term ++ [i]]> m)) as [-> ->].
  destruct (Z.eqb_spec term t) as [->|Hne].
  - rewrite map_get_insert_eq, <- app_assoc, lookup_insert_eq. split; [done|]. split; [by right|by left].
  - rewrite map_get_insert_ne, lookup_insert_ne by done. done.
Qed.

Lemma leaders_of_NoDup t i obs : NoDup (leaders_of t i obs).
Proof.
  revert i. induction obs as [|o obs IH]; intros i; simpl; [apply NoDup_nil_2|].
  destruct o as [[term []]|]; try apply IH. case_test; [|apply IH]. apply NoDup_cons. split; [|apply IH].
  intros (j & ? & _)%elem_of_leaders. lia.
Qed.

(** At most one leader per term is seen. *)
Definition one_leader (obs : list (option (Z * bool))) : Prop :=
  ∀ t (j k : nat), obs !! j = Some (Some (t, true)) → obs !! k = Some (Some (t, true)) → j = k.

Lemma one_leader_length obs t : one_leader obs → zlen (leaders_of t 0 obs) ≤ 1.
Proof.
  intros Ho. pose proof (leaders_of_NoDup t 0 obs) as Hnd. pose proof (elem_of_leaders t 0 obs) as Hel.
  destruct (leaders_of t 0 obs) as [|x [|y l]]; [done|done|]. exfalso.
  destruct (proj1 (Hel x)) as (j & -> & Hj); [by left|].
  destruct (proj1 (Hel y)) as (k & -> & Hk); [by right; left|].
  rewrite (Ho t j k Hj Hk) in Hnd. apply NoDup_cons in Hnd as [Hnd _]. apply Hnd. by left.
Qed.

Lemma last_term_ok `{KeyOrder} (leaders : gmap Z (list Z)) :
  (∀ t, zlen (map_get [] leaders t) ≤ 1) →
  ∃ last, last_term leaders = Ret last ∧ (∀ t, is_Some (leaders !! t) → t ≤ last) ∧
    (last = -1 ∨ is_Some (leaders !! last)).
Proof.
  intros Hone. unfold last_term.
  assert (∀ l a, ∃ last, foldl (λ acc term, last ← acc;
      if 1 <? zlen (map_get [] leaders term) then Panic PFatal else mret (if last <? term then term else last)) (Ret a) l
      = Ret last ∧ a ≤ last ∧ (∀ t, t ∈ l → t ≤ last) ∧ (last = a ∨ last ∈ l)) as Hfold.
  { induction l as [|t l IH]; intros a; simpl.
    - exists a. split_and!; [done|lia|by intros t ?%elem_of_nil|by left].
    - assert ((1 <? zlen (map_get [] leaders t)) = false) as -> by (apply Z.ltb_ge, Hone).
      change (mret (if a <? t then t else a)) with (Ret (if a <? t then t else a)).
      destruct (IH (if a <? t then t else a)) as (last & -> & Hle & Hall & Hin). exists last.
      destruct (Z.ltb_spec a t); split_and!; try done; try lia.
      + intros t' [->|?]%elem_of_cons; [lia|by apply Hall].
      + right. rewrite elem_of_cons. destruct Hin as [->|?]; [by left|by right].
      + intros t' [->|?]%elem_of_cons; [lia|by apply Hall].
      + destruct Hin as [->|?]; [by left|right; by right]. }
  destruct (Hfold (key_order leaders) (-1)) as (last & E & _ & Hall & Hin). exists last. split_and!; [done|..].
  - intros t Ht. apply Hall. by apply elem_of_key_order.
  - destruct Hin as [->|Hin]; [by left|right]. by apply elem_of_key_order in Hin.
Qed.

(** What a pass returns. *)
Definition pass_result (obs : list (option (Z * bool))) (o : option Z) : Prop :=
  match o with
  | Some l => 0 ≤ l ∧ ∃ t, obs !! Z.to_nat l = Some (Some (t, true)) ∧
      ∀ (j : nat) t', obs !! j = Some (Some (t', true)) → t' ≤ t
  | None => ∀ (j : nat) t, obs !! j ≠ Some (Some (t, true))
  end.

Lemma leader_pass_ok `{KeyOrder} obs :
  one_leader obs → (∀ (j : nat) t, obs !! j = Some (Some (t, true)) → 0 ≤ t) →
  ∃ o, leader_pass obs = Ret o ∧ pass_result obs o.
Proof.
  intros Ho Ht. unfold leader_pass. set (m := seen_leaders 0 obs ∅).
  assert (∀ t, map_get [] m t = leaders_of t 0 obs) as Hget by (intros t; exact (proj1 (seen_leaders_get obs 0 ∅ t))).
  assert (∀ t, is_Some (m !! t) ↔ ∃ j : nat, obs !! j = Some (Some (t, true))) as Hdom.
  { intros t. unfold m. destruct (seen_leaders_get obs 0 ∅ t) as [_ ->]. rewrite lookup_empty. split.
    - intros [[? [=]]|Hne]. destruct (leaders_of t 0 obs) as [|x l] eqn:E; [done|].
      destruct (proj1 (elem_of_leaders t 0 obs x)) as (j & _ & Hj); [rewrite E; by left|]. by exists j.
    - intros [j Hj]. right. intros E. apply (not_elem_of_nil (Z.of_nat j)). rewrite <- E.
      apply elem_of_leaders. exists j. done. }
  destruct (last_term_ok m) as (last & -> & Hmax & Hlast).
  { intros t. rewrite Hget. by apply one_leader_length. }
  rewrite bind_Ret. case_test.
  - exists None. split; [done|]. intros j t Hj. destruct (proj2 (Hdom t)) as [x Hx]; [by exists j|].
    by rewrite Htest, lookup_empty in Hx.
  - assert (∃ t, is_Some (m !! t)) as [t Hts] by (apply map_choose in Htest as (t & x & Hx); by exists t).
    assert (is_Some (m !! last)) as Hl.
    { destruct Hlast as [->|?]; [|done]. apply Hmax in Hts as ?. apply Hdom in Hts as [j Hj]. apply Ht in Hj. lia. }
    apply Hdom in Hl as [j Hj]. rewrite Hget.
    assert (Z.of_nat j ∈ leaders_of last 0 obs) as Hin by (apply elem_of_leaders; by exists j).
    destruct (leaders_of last 0 obs) as [|x l] eqn:E; [by apply elem_of_nil in Hin|]. exists (Some x). split; [done|].
    destruct (proj1 (elem_of_leaders last 0 obs x)) as (k & Hk & Hok); [rewrite E; by left|].
    split; [lia|]. exists last. replace (Z.to_nat x) with k by lia. split; [done|].
    intros j' t' Hj'. apply Hmax, Hdom. by exists j'.
Qed.

(** [checkOneLeader] returns the leader of the latest term of the first pass that
    saw one, and fails only when none did. *)
Lemma checkOneLeader_ok `{KeyOrder} passes :
  Forall (λ obs, one_leader obs ∧ ∀ (j : nat) t, obs !! j = Some (Some (t, true)) → 0 ≤ t) passes →
  match checkOneLeader passes with
  | Ret l => ∃ obs, obs ∈ passes ∧ pass_result obs (Some l)
  | _ => Forall (λ obs, pass_result obs None) passes
  end.
Proof.
  induction 1 as [|obs passes [Ho Ht] _ IH]; [by apply Forall_nil|]. simpl.
  destruct (leader_pass_ok obs Ho Ht) as ([l|] & -> & Hres); simpl.
  - exists obs. split; [by left|done].
  - destruct (checkOneLeader passes); [|by apply Forall_cons..].
    destruct IH as (obs' & ? & ?). exists obs'. split; [by right|done].
Qed.
End checks.

(** ** A sample run *)
Section exec.
Context {C : Type} `{EqDecision C} `{HCC : Codec C} `{HC : Codec (Z * Z * list (LogEntry C) * Z * Z)}.
Context (n : Z) (snapshot : bool).

Inductive taction :=
| TPeers (a : action (C:=C))
| TTake (i : Z)
| TDeliver (i : Z)
| TDone (i : Z)
| TOffer (p : nat)
| TSurvivor (p : nat)
| TCrash (i : Z)
| TRestart (i : Z) (names : list name) (srv now : Z)
| TStart (i : Z) (c : C)
| TConnect (i : Z)
| TDisconnect (i : Z).

Definition texec (a : taction) (W : tworld (C:=C)) : option (tworld (C:=C)) :=
  match a with
  | TPeers a =>
      guard (peer_action a = true);; G' ← gexec n a (t_group W);
      Some (mkTWorld G' (t_cfg W) (t_last W) (t_batch W) (t_old W))
  | TTake i =>
      rf ← g_peer (t_group W) !! i; guard (t_batch W !! i = None);;
      o ← returned (applyChecker_take rf); b ← o;
      Some (mkTWorld (t_group W) (t_cfg W) (t_last W) (<[i := b]> (t_batch W)) (t_old W))
  | TDeliver i =>
      rf ← g_peer (t_group W) !! i; la ← t_last W !! i; '(ms, c) ← t_batch W !! i;
      match ms with
      | [] => None
      | m :: ms => '(rf', cfg', la') ← returned (apply_message snapshot i m rf (t_cfg W) la);
          Some (mkTWorld (set_peer (t_group W) i rf') cfg' (<[i := la']> (t_last W)) (<[i := (ms, c)]> (t_batch W)) (t_old W))
      end
  | TDone i =>
      rf ← g_peer (t_group W) !! i; '(ms, c) ← t_batch W !! i;
      match ms with
      | [] => Some (mkTWorld (set_peer (t_group W) i (applyChecker_done rf c)) (t_cfg W) (t_last W) (delete i (t_batch W)) (t_old W))
      | _ => None
      end
  | TOffer p =>
      '(i, (lit, lii, data)) ← g_offers (t_group W) !! p; rf ← g_peer (t_group W) !! i; la ← t_last W !! i;
      '(rf', cfg', la') ← returned (apply_message snapshot i (snapshot_msg data lit lii) rf (t_cfg W) la);
      Some (mkTWorld (set_peer (t_group W) i rf') cfg' (<[i := la']> (t_last W)) (t_batch W) (t_old W))
  | TSurvivor p =>
      '(i, ms) ← t_old W !! p;
      match ms with
      | [] => None
      | m :: ms => cfg' ← returned (applier i m (t_cfg W));
          Some (mkTWorld (t_group W) cfg' (t_last W) (t_batch W) (take p (t_old W) ++ (i, ms) :: drop (S p) (t_old W)))
      end
  | TCrash i =>
      rf ← g_peer (t_group W) !! i; cfg' ← returned (crash1 i (t_cfg W));
      Some (mkTWorld (set_peer (t_group W) i (Kill rf)) cfg' (t_last W) (t_batch W) (t_old W))
  | TRestart i names srv now =>
      rf ← g_peer (t_group W) !! i; cfg' ← returned (start1 i names srv (t_cfg W));
      Some (mkTWorld (set_peer (t_group W) i (Make n i (start1_saved (Some (persister rf))) now)) cfg'
        (<[i := 0]> (t_last W)) (delete i (t_batch W)) (survivors snapshot i W))
  | TStart i c =>
      rf ← g_peer (t_group W) !! i; '(rf', _) ← returned (Start rf c);
      Some (mkTWorld (set_peer (t_group W) i rf') (t_cfg W) (t_last W) (t_batch W) (t_old W))
  | TConnect i => cfg' ← returned (connect i (t_cfg W)); Some (mkTWorld (t_group W) cfg' (t_last W) (t_batch W) (t_old W))
  | TDisconnect i => cfg' ← returned (disconnect i (t_cfg W)); Some (mkTWorld (t_group W) cfg' (t_last W) (t_batch W) (t_old W))
  end.

Lemma texec_sound a W W' : texec a W = Some W' → tstep n snapshot W W'.
Proof.
  destruct a; cbn [texec]; intros HW; exec_inv.
  - by eapply tt_peers, gexec_peers.
  - match goal with b : (list (ApplyMsg C) * Z)%type |- _ => destruct b as [ms c] end. by eapply tt_take.
  - destruct l as [|m ms]; [done|]. exec_inv. by eapply tt_deliver.
  - destruct l as [|m ms]; [|done]. exec_inv. by eapply tt_done.
  - eapply tt_offer; [by eapply list_elem_of_lookup_2|done..].
  - destruct l as [|m ms]; [done|]. exec_inv. eapply tt_survivor; [symmetry; by apply take_drop_middle|done].
  - by eapply tt_crash.
  - by eapply tt_restart.
  - by eapply tt_start.
  - by eapply tt_harness, hs_connect.
  - by eapply tt_harness, hs_disconnect.
Qed.

Fixpoint texecs (l : list taction) (W : tworld (C:=C)) : option (tworld (C:=C)) :=
  match l with
  | [] => Some W
  | a :: l' => W' ← texec a W; texecs l' W'
  end.

Lemma texecs_sound l W W' : texecs l W = Some W' → rtc (tstep n snapshot) W W'.
Proof.
  revert W. induction l as [|a l IH]; intros W; simpl; [by intros [= ->]|].
  intros (W1 & H1%texec_sound & H2%IH)%bind_Some. by eapply rtc_l.
Qed.
End exec.

Definition tconfig3 : config Z :=
  match make_config 3 false (names3 100) (λ i, i) with
  | Ret cfg => cfg
  | _ => mkConfig 3 MakeNetwork [] [] [] [] [] 0 0 0 0
  end.

Definition tworld3 : tworld := mkTWorld group3 tconfig3 {[0 := 0; 1 := 0; 2 := 0]} ∅ [].

Lemma tworld3_init : tworld_init 3 tworld3.
Proof.
  split_and!; [apply group3_init|done|done| |].
  - exists false, (names3 100), (λ i, i). unfold tworld3, tconfig3. simpl t_cfg.
    assert (bool_decide (returned (make_config (C:=Z) 3 false (names3 100) (λ i, i)) ≠ None) = true) as Hret
      by (vm_compute; reflexivity).
    apply bool_decide_eq_true in Hret. by destruct (make_config 3 false (names3 100) (λ i, i)).
  - intros i rf. unfold tworld3, group3, g_peer. simpl.
    intros [[<- _]|[_ [[<- _]|[_ [[<- _]|[_ ?]]%lookup_insert_Some]]%lookup_insert_Some]]%lookup_insert_Some; done.
Qed.

(** Peer 0 leads; a command is committed on peers 0 and 1 and applied there; server
    0 is restarted from its storage and reconnected, and peer 1 leads the next
    term. *)
Definition trun_commit : list (taction (C:=Z)) :=
  (TPeers <$> [ATick 0 1000 300; AVote 0 1001; AVoteReply 0]) ++ [TStart 0 10] ++
  (TPeers <$> [APrepare 0 1; AAppend 0 1002; AAppendReply 0; APrepare 0 1; AAppend 0 1003]) ++
  [TTake 0; TDeliver 0; TDone 0; TTake 1].
Definition trun_replace : list (taction (C:=Z)) :=
  [TDeliver 1; TDone 1; TRestart 0 (names3 200 0) 7 2000; TConnect 0] ++
  (TPeers <$> [ATick 1 5000 300; AVote 1 5001; AVoteReply 0]).

Definition tafter (l : list (taction (C:=Z))) (W : tworld) : tworld := default W (texecs 3 true l W).
Definition tworld_committed : tworld := tafter trun_commit tworld3.
Definition tworld_replaced : tworld := tafter trun_replace tworld_committed.

Lemma tafter_sound l W : rtc (tstep 3 true) W (tafter l W).
Proof.
  unfold tafter. destruct (texecs 3 true l W) as [W'|] eqn:E; [by eapply texecs_sound|apply rtc_refl].
Qed.

Lemma tworld_committed_reach : treach 3 true tworld_committed.
Proof. exists tworld3. split; [apply tworld3_init|apply tafter_sound]. Qed.

(** The same without snapshots; server 1 is restarted before it has applied the
    command. *)
Definition tworld_survived : tworld :=
  default tworld3 (texecs 3 false (trun_commit ++ [TRestart 1 (names3 200 1) 8 2000]) tworld3).

Lemma tworld_survived_reach : treach 3 false tworld_survived.
Proof.
  exists tworld3. split; [apply tworld3_init|]. unfold tworld_survived.
  destruct (texecs 3 false _ tworld3) as [W'|] eqn:E; [by eapply texecs_sound|apply rtc_refl].
Qed.

(** Nine commands are committed; server 1 is crashed while the ninth is on its way to
    its applier, which then takes a snapshot of nil. *)
Definition trun_nine : list (taction (C:=Z)) :=
  (TPeers <$> [ATick 0 1000 300; AVote 0 1001; AVoteReply 0]) ++ (TStart 0 <$> [1; 2; 3; 4; 5; 6; 7; 8; 9]) ++
  (TPeers <$> [APrepare 0 1; AAppend 0 1002; AAppendReply 0; APrepare 0 1; AAppend 0 1003]) ++
  [TTake 1] ++ replicate 8 (TDeliver 1) ++ [TCrash 1].
Definition tworld_down : tworld := tafter trun_nine tworld3.

Lemma applier_nil :
  treach 3 true tworld_down ∧ t_batch tworld_down !! 1 = Some ([command_msg (Some 9) 9], 9) ∧
  t_last tworld_down !! 1 = Some 8 ∧
  apply_message true 1 (command_msg (Some 9) 9) (peer_of (t_group tworld_down) 1) (t_cfg tworld_down) 8 = Panic PNil.
Proof.
  split; [exists tworld3; split; [apply tworld3_init|apply tafter_sound]|]. split_and!; vm_compute; reflexivity.
Qed.

(** ** Theorems *)

(** C23: the checks of the appliers of the Raft tests do not fail.  Take any run of
    the peers and the harness, whatever is lost, delayed, repeated or reordered and
    whichever servers are cut off, crashed and restarted.
    The applier of a server, with or without snapshots, handles the next message of
    its instance: it never finds that servers applied different commands at an
    index, nor that one applied out of order, nor a snapshot it cannot decode, and
    its calls of the peer do not panic.  The one way it can fail is that a test
    with snapshots has crashed the server and not restarted it, and the
    goroutines of the instance go on: then it calls nil ([applier_nil]).
    Without snapshots the goroutines of every instance that was replaced go on, too,
    and no check of theirs fails either.  (With snapshots an instance is taken to
    have nothing to deliver any more when it is replaced; of one that goes on
    nothing is said.) *)
Theorem raft_appliers_pass {C} `{EqDecision C} `{Codec C} `{Codec (Z * Z * list (LogEntry C) * Z * Z)}
    (n : Z) (snapshot : bool) (W : tworld (C:=C)) (Hn : 0 ≤ n) (Hreach : treach n snapshot W) :
  (∀ i rf m, g_peer (t_group W) !! i = Some rf →
     (∃ ms c, t_batch W !! i = Some (m :: ms, c)) ∨
     (∃ lit lii data, (i, (lit, lii, data)) ∈ g_offers (t_group W) ∧ m = snapshot_msg data lit lii) →
     ∃ la, t_last W !! i = Some la ∧
       ((∃ rf' cfg' la', apply_message snapshot i m rf (t_cfg W) la = Ret (rf', cfg', la')) ∨
        snapshot = true ∧ rafts (t_cfg W) !! Z.to_nat i = Some false ∧
        apply_message snapshot i m rf (t_cfg W) la = Panic PNil)) ∧
  (∀ i m ms, (i, m :: ms) ∈ t_old W → ∃ cfg', applier i m (t_cfg W) = Ret cfg').
Proof.
  destruct Hreach as (W0 & Hinit & Hrun).
  destruct (tester_reach_inv n snapshot Hn _ _ _ _ (tworld_init_inv n snapshot _ Hinit) Hrun) as (H' & V' & Hinv & _).
  split.
  - intros i rf m Hi Hm. destruct (ti_server _ _ _ _ _ Hinv i rf Hi) as (L & la & _ & Hla & _). exists la.
    split; [done|]. destruct Hm as [(ms & c & Hb)|(lit & lii & data & Hin & ->)].
    + destruct (deliver_ok n snapshot Hn _ _ _ _ _ _ _ _ _ Hinv Hi Hla Hb) as [(rf' & cfg' & la' & ? & _)|?];
        [left; by exists rf', cfg', la'|by right].
    + destruct (offer_ok n snapshot Hn _ _ _ _ _ _ _ _ _ Hinv Hin Hi Hla) as [(rf' & cfg' & la' & ? & _)|?];
        [left; by exists rf', cfg', la'|by right].
  - intros i m ms (o1 & o2 & Ho)%list_elem_of_split.
    destruct (survivor_ok n snapshot Hn W H' V' o1 i m ms o2 Hinv Ho) as (cfg' & ? & _). by exists cfg'.
Qed.

(** Server 1 is about to apply the command that server 0 has applied; and without
    snapshots an instance of it that was replaced meanwhile is. *)
Lemma raft_appliers_pass_witness :
  (∃ rf' cfg' la',
     apply_message true 1 (command_msg (Some 10) 1) (peer_of (t_group tworld_committed) 1) (t_cfg tworld_committed) 0
     = Ret (rf', cfg', la')) ∧
  t_old tworld_survived = [(1, [command_msg (Some 10) 1])] ∧
  ∃ cfg', applier 1 (command_msg (Some 10) 1) (t_cfg tworld_survived) = Ret cfg'.
Proof.
  split; [|split; [vm_compute; reflexivity|]].
  - destruct (raft_appliers_pass 3 true tworld_committed ltac:(lia) tworld_committed_reach) as [Hnext _].
    destruct (Hnext 1 (peer_of (t_group tworld_committed) 1) (command_msg (Some 10) 1)) as (la & Hla & Hcase).
    + vm_compute. reflexivity.
    + left. exists [], 1. vm_compute. reflexivity.
    + assert (la = 0) as -> by (vm_compute in Hla; by injection Hla as <-).
      destruct Hcase as [Hret|(_ & Hdown & _)]; [exact Hret|]. vm_compute in Hdown. discriminate Hdown.
  - destruct (raft_appliers_pass 3 false tworld_survived ltac:(lia) tworld_survived_reach) as [_ Hold].
    apply (Hold 1 (command_msg (Some 10) 1) []). apply (list_elem_of_lookup_2 _ 0). vm_compute. reflexivity.
Defined.

(** C24: what the Raft tests look at never contradicts itself.  Servers are looked at
    one after the other in several passes, at any moments of a run.  In each pass
    [nCommitted] counts the servers that applied an entry at an index and finds the
    same command on all; [checkOneLeader] never finds two leaders of a term: it
    returns the leader of the latest term of a pass, and fails only when no
    pass saw a leader. *)
Theorem raft_checks_pass {C} `{EqDecision C} `{Codec C} `{Codec (Z * Z * list (LogEntry C) * Z * Z)} `{KO : KeyOrder}
    (n : Z) (snapshot : bool) (W : tworld) (passes : list (list tworld))
    (Hn : 0 ≤ n) (Hreach : treach n snapshot W) (Hrun : on_run n snapshot W (concat passes)) :
  (∀ Ws idx, Ws ∈ passes → ∃ cmd,
     nCommitted (errs_at Ws) (seen_at idx Ws) 0 None = Ret (present (seen_at idx Ws), cmd) ∧
     ∀ i v, seen_at idx Ws !! i = Some (Some v) → v = cmd) ∧
  match checkOneLeader (states_at <$> passes) with
  | Ret l => ∃ Ws, Ws ∈ passes ∧ pass_result (states_at Ws) (Some l)
  | _ => ∀ Ws, Ws ∈ passes → pass_result (states_at Ws) None
  end.
Proof.
  destruct Hreach as (W0 & Hinit & Hrun0).
  destruct (tester_reach_inv n snapshot Hn _ _ _ _ (tworld_init_inv n snapshot _ Hinit) Hrun0) as (H' & V' & Hinv & _).
  apply on_run_concat in Hrun as Hall. rewrite Forall_forall in Hall. split.
  - intros Ws idx Hin. destruct (seen_agree n snapshot Hn W H' V' Ws idx Hinv (Hall _ Hin)) as [v Hv].
    pose proof (errs_none n snapshot Hn W H' V' Ws Hinv (Hall _ Hin)) as He.
    destruct (nCommitted_agree (errs_at Ws) (seen_at idx Ws) 0 None v) as (cmd & -> & Hcmd);
      [by unfold errs_at, seen_at; rewrite !length_imap|done|done|done|lia|].
    exists cmd. split; [done|]. intros i x Hx. rewrite (Hv i x Hx). symmetry. apply Hcmd.
    apply present_pos. by exists i, x.
  - assert (Forall (λ obs, one_leader obs ∧ ∀ (j : nat) t, obs !! j = Some (Some (t, true)) → 0 ≤ t)
      (states_at (C:=C) <$> passes)) as Hok.
    { apply Forall_fmap, Forall_forall. intros Ws Hin. simpl.
      destruct (states_leader n snapshot Hn W H' V' Ws Hinv (Hall _ Hin)) as (Wl & Hl & Vl & Hinvl & Hlead).
      split; [|by intros j t [_ ?]%Hlead]. intros t j k [Hj _]%Hlead [Hk _]%Hlead.
      assert (Z.of_nat j = Z.of_nat k); [|lia].
      eapply (elected_unique n); [apply (ti_group _ _ _ _ _ Hinvl)|done|done]. }
    pose proof (checkOneLeader_ok _ Hok) as Hc. destruct (checkOneLeader _).
    + destruct Hc as (obs & (Ws & -> & Hin)%list_elem_of_fmap & Hres). by exists Ws.
    + rewrite Forall_fmap, Forall_forall in Hc. done.
    + rewrite Forall_fmap, Forall_forall in Hc. done.
Qed.

(** Two passes, before and after the change of leader. *)
Definition sample_passes : list (list tworld) := [[tworld3; tworld_committed]; [tworld_replaced; tworld_replaced]].

Lemma sample_passes_run : on_run 3 true tworld3 (concat sample_passes).
Proof.
  split; [apply rtc_refl|]. split; [apply tafter_sound|]. split; [apply tafter_sound|]. by split; [apply rtc_refl|].
Qed.

Lemma tworld3_reach : treach 3 true tworld3.
Proof. exists tworld3. split; [apply tworld3_init|apply rtc_refl]. Qed.

Lemma raft_checks_pass_witness :
  nCommitted (errs_at [tworld_replaced; tworld_replaced]) (seen_at 1 [tworld_replaced; tworld_replaced]) 0 None
    = Ret (2, Some 10) ∧
  returned (checkOneLeader (H:=key_order_std) (states_at <$> sample_passes)) = Some 1 ∧
  ∃ Ws, Ws ∈ sample_passes ∧ pass_result (states_at Ws) (Some 1).
Proof.
  split; [vm_compute; reflexivity|].
  assert (returned (checkOneLeader (H:=key_order_std) (states_at <$> sample_passes)) = Some 1) as E
    by (vm_compute; reflexivity).
  split; [exact E|]. apply returned_Some in E.
  pose proof (raft_checks_pass (KO:=key_order_std) 3 true tworld3 sample_passes ltac:(lia) tworld3_reach
    sample_passes_run) as [_ Hc].
  rewrite E in Hc. exact Hc.
Defined.
