(* ===== verification/KVTesterSpec.v ===== *)
(** * Partitions of the key/value tests

    [make_partition] splits an odd number of servers into a majority and a minority
    with the leader; [partition] then enables exactly the ends within each part. *)

From S2P Require Import Prelude Persister Labrpc RaftTester KVTester.
Implicit Types (cfg : kconfig) (i j a b : Z) (L : Z → Z → Prop).

(** All servers are started, on ends with different names. *)
Record wired (n : Z) cfg : Prop := {
  wd_n : kc_n cfg = n;
  wd_len : zlen (kc_endnames cfg) = n;
  wd_row : ∀ i, 0 ≤ i < n → ∃ l, index (kc_endnames cfg) i = Ret (Some l) ∧ zlen l = n;
  wd_inj : ∀ i j a b e, kc_endname cfg i j = Ret e → kc_endname cfg a b = Ret e → i = a ∧ j = b
}.

Definition link cfg i j : Prop := ∃ e, kc_endname cfg i j = Ret e ∧ map_get false (enabled (kc_net cfg)) e = true.

(** The enabled ends are those of [L]. *)
Definition links (n : Z) cfg L : Prop :=
  wired n cfg ∧ ∀ a b, 0 ≤ a < n → 0 ≤ b < n → link cfg a b ↔ L a b.

Lemma links_iff n cfg L L' :
  (∀ a b, 0 ≤ a < n → 0 ≤ b < n → L a b ↔ L' a b) → links n cfg L → links n cfg L'.
Proof. intros HL [Hw Hl]. split; [done|]. intros a b Ha Hb. by rewrite Hl, HL. Qed.

Lemma endname_wired n cfg i j : wired n cfg → 0 ≤ i < n → 0 ≤ j < n → ∃ e, kc_endname cfg i j = Ret e.
Proof.
  intros Hw Hi Hj. destruct (wd_row _ _ Hw i Hi) as (l & Hl & Hlen). unfold kc_endname. rewrite Hl.
  destruct (index_safe l j) as [e He]; [lia|]. by exists e.
Qed.

Lemma enable_links n cfg L i j y :
  links n cfg L → 0 ≤ i < n → 0 ≤ j < n →
  ∃ cfg', kc_enable i j y cfg = Ret cfg' ∧
    links n cfg' (λ a b, (a = i ∧ b = j ∧ y = true) ∨ (¬ (a = i ∧ b = j) ∧ L a b)).
Proof.
  intros [Hw Hl] Hi Hj. destruct (endname_wired n cfg i j Hw Hi Hj) as [e He]. unfold kc_enable. rewrite He.
  eexists. split; [done|]. split; [by destruct Hw|]. intros a b Ha Hb. rewrite <- Hl by done. unfold link. simpl.
  change (kc_endname (kc_with_net cfg (Enable e y (kc_net cfg))) a b) with (kc_endname cfg a b).
  destruct (endname_wired n cfg a b Hw Ha Hb) as [x Hx]. rewrite Hx.
  destruct (decide (x = e)) as [->|Hne].
  - destruct (wd_inj _ _ Hw _ _ _ _ _ He Hx) as [-> ->]. split.
    + intros (x & [= <-] & Hen). rewrite map_get_insert_eq in Hen. auto.
    + intros [(_ & _ & ->)|[Hno _]]; [|tauto]. exists e. by rewrite map_get_insert_eq.
  - assert (¬ (a = i ∧ b = j)) as Hno by (intros [-> ->]; congruence). split.
    + intros (y' & [= <-] & Hen). right. split; [done|]. exists x. rewrite map_get_insert_ne in Hen by done. done.
    + intros [(-> & -> & _)|[_ (y' & [= <-] & Hen)]]; [tauto|]. exists x. by rewrite map_get_insert_ne.
Qed.

(** ** Loops *)
Lemma enable_list {A} n (l : list A) (f g : A → Z) cfg L :
  (∀ t, t ∈ l → 0 ≤ f t < n ∧ 0 ≤ g t < n) → links n cfg L →
  ∃ cfg', for_list l (λ t, kc_enable (f t) (g t) true) cfg = Ret cfg' ∧
    links n cfg' (λ a b, L a b ∨ ∃ t, t ∈ l ∧ a = f t ∧ b = g t).
Proof.
  revert cfg L. induction l as [|t l IH]; intros cfg L Hr Hl; simpl.
  { exists cfg. split; [done|]. eapply links_iff; [|done]. intros a b _ _. split; [by left|].
    intros [?|(t & ?%elem_of_nil & _)]; done. }
  destruct (Hr t) as [Hf Hg]; [by left|]. destruct (enable_links n cfg L (f t) (g t) true Hl Hf Hg) as (cfg1 & -> & H1).
  destruct (IH cfg1 _ ltac:(intros t' ?; apply Hr; by right) H1) as (cfg2 & E2 & H2). exists cfg2. split; [done|].
  eapply links_iff; [|exact H2]. intros a b _ _. setoid_rewrite elem_of_cons. simpl.
  destruct (decide (a = f t ∧ b = g t)); naive_solver.
Qed.

Lemma disable_list {A} n (l : list A) (row f g : A → Z) cfg L :
  (∀ t, t ∈ l → 0 ≤ row t < n ∧ 0 ≤ f t < n ∧ 0 ≤ g t < n) → links n cfg L →
  ∃ cfg', for_list l (λ t cfg, r ← index (kc_endnames cfg) (row t);
      match r with Some _ => kc_enable (f t) (g t) false cfg | None => mret cfg end) cfg = Ret cfg' ∧
    links n cfg' (λ a b, L a b ∧ ¬ ∃ t, t ∈ l ∧ a = f t ∧ b = g t).
Proof.
  revert cfg L. induction l as [|t l IH]; intros cfg L Hr Hl; simpl.
  { exists cfg. split; [done|]. eapply links_iff; [|done]. intros a b _ _. split; [|by intros [? _]].
    intros ?. split; [done|]. by intros (t & ?%elem_of_nil & _). }
  destruct (Hr t) as (Hrow & Hf & Hg); [by left|]. destruct (wd_row _ _ (proj1 Hl) _ Hrow) as (r & -> & _). simpl.
  destruct (enable_links n cfg L (f t) (g t) false Hl Hf Hg) as (cfg1 & -> & H1).
  destruct (IH cfg1 _ ltac:(intros t' ?; apply Hr; by right) H1) as (cfg2 & E2 & H2). exists cfg2. split; [exact E2|].
  eapply links_iff; [|exact H2]. intros a b _ _. setoid_rewrite elem_of_cons. simpl.
  destruct (decide (a = f t ∧ b = g t)); naive_solver.
Qed.

Definition in_range (n : Z) (l : list Z) : Prop := ∀ x, x ∈ l → 0 ≤ x < n.

Lemma connect_links n cfg L i to :
  links n cfg L → 0 ≤ i < n → in_range n to →
  ∃ cfg', connectUnlocked i to cfg = Ret cfg' ∧
    links n cfg' (λ a b, L a b ∨ (a = i ∧ b ∈ to) ∨ (b = i ∧ a ∈ to)).
Proof.
  intros Hl Hi Hto. unfold connectUnlocked.
  destruct (enable_list n to (λ _, i) (λ t, t) cfg L) as (cfg1 & -> & H1); [by auto|done|].
  destruct (λ Hr, enable_list n to (λ t, t) (λ _, i) cfg1 _ Hr H1) as (cfg2 & E2 & H2); [by auto|].
  exists cfg2. split; [exact E2|]. eapply links_iff; [|exact H2]. naive_solver.
Qed.

Lemma elem_of_indexed {A} (l : list A) k x : (k, x) ∈ enumerate l → 0 ≤ k < zlen l ∧ x ∈ l.
Proof.
  unfold enumerate. intros (j & Hj)%list_elem_of_lookup. rewrite list_lookup_imap in Hj.
  apply fmap_Some in Hj as (y & Hy & [= -> ->]). split; [|by eapply list_elem_of_lookup_2].
  apply lookup_lt_Some in Hy. unfold zlen. lia.
Qed.

Lemma enumerate_elem {A} (l : list A) x : x ∈ l → ∃ k, (k, x) ∈ enumerate l.
Proof.
  intros (j & Hj)%list_elem_of_lookup. exists (Z.of_nat j). apply list_elem_of_lookup. exists j.
  unfold enumerate. by rewrite list_lookup_imap, Hj.
Qed.

Lemma for_list_ext {A S} (l : list A) (f g : A → S → Go S) s :
  (∀ (x : A) s, f x s = g x s) → for_list l f s = for_list l g s.
Proof.
  intros Hfg. revert s. induction l as [|x l IH]; intros s; simpl; [done|]. rewrite Hfg.
  destruct (g x s); [apply IH|done..].
Qed.

Lemma disconnect_links n cfg L i from :
  links n cfg L → 0 ≤ i < n → in_range n from → zlen from ≤ n →
  ∃ cfg', disconnectUnlocked i from cfg = Ret cfg' ∧
    links n cfg' (λ a b, L a b ∧ ¬ (a = i ∧ b ∈ from) ∧ ¬ (b = i ∧ a ∈ from)).
Proof.
  intros Hl Hi Hfrom Hlen. unfold disconnectUnlocked.
  destruct (disable_list n from (λ _, i) (λ _, i) (λ t, t) cfg L) as (cfg1 & -> & H1); [by auto|done|].
  destruct (λ Hr, disable_list n (enumerate from) fst snd (λ _, i) cfg1 _ Hr H1) as (cfg2 & E2 & H2).
  { intros [k x] [? ?%Hfrom]%elem_of_indexed. simpl. lia. }
  exists cfg2. split.
  - rewrite bind_Ret. rewrite <- E2. apply for_list_ext. by intros [].
  - eapply links_iff; [|exact H2]. intros a b _ _. split.
    + intros [[? H3] H4]. split_and!; [done| |].
      * intros [-> ?]. apply H3. by exists b.
      * intros [-> (k & ?)%enumerate_elem]. apply H4. by exists (k, a).
    + intros (? & H3 & H4). split; [split; [done|]|].
      * intros (t & ? & -> & ->). by apply H3.
      * intros ([k x] & [_ ?]%elem_of_indexed & -> & ->). by apply H4.
Qed.

(** ** A partition *)
Lemma part_links n cfg L p q :
  links n cfg L → in_range n p → in_range n q → zlen q ≤ n → (∀ x, x ∈ p → x ∉ q) →
  ∃ cfg', for_list p (λ i cfg, cfg' ← disconnectUnlocked i q cfg; connectUnlocked i p cfg') cfg = Ret cfg' ∧
    links n cfg' (λ a b, (a ∈ p ∧ b ∈ p) ∨ (L a b ∧ ¬ (a ∈ p ∧ b ∈ q) ∧ ¬ (b ∈ p ∧ a ∈ q))).
Proof.
  intros Hl Hp Hq Hlen Hdisj.
  assert (∀ r done cfg, done ++ r = p →
    links n cfg (λ a b, (a ∈ p ∧ b ∈ p ∧ (a ∈ done ∨ b ∈ done)) ∨
      (L a b ∧ ¬ (a ∈ done ∧ b ∈ q) ∧ ¬ (b ∈ done ∧ a ∈ q))) →
    ∃ cfg', for_list r (λ i cfg, cfg' ← disconnectUnlocked i q cfg; connectUnlocked i p cfg') cfg = Ret cfg' ∧
      links n cfg' (λ a b, (a ∈ p ∧ b ∈ p) ∨ (L a b ∧ ¬ (a ∈ p ∧ b ∈ q) ∧ ¬ (b ∈ p ∧ a ∈ q)))) as Hgo.
  { induction r as [|i r IH]; intros dn cfg0 Hd H0; simpl.
    - exists cfg0. split; [done|]. rewrite app_nil_r in Hd. subst dn. eapply links_iff; [|exact H0]. naive_solver.
    - assert (i ∈ p) as Hip by (subst p; set_solver).
      destruct (disconnect_links n cfg0 _ i q H0 (Hp i Hip) Hq Hlen) as (cfg1 & -> & H1).
      destruct (connect_links n cfg1 _ i p H1 (Hp i Hip) Hp) as (cfg2 & E2 & H2). simpl. rewrite E2.
      apply (IH (dn ++ [i])); [by rewrite <- app_assoc|]. eapply links_iff; [|exact H2]. intros a b _ _.
      pose proof (Hdisj a). pose proof (Hdisj b). pose proof (Hdisj i Hip). setoid_rewrite elem_of_app.
      setoid_rewrite list_elem_of_singleton. destruct (decide (a = i)) as [->|], (decide (b = i)) as [->|]; tauto. }
  apply (Hgo p []); [done|]. eapply links_iff; [|exact Hl]. intros a b _ _. setoid_rewrite elem_of_nil. tauto.
Qed.

Lemma partition_links n cfg L p1 p2 :
  links n cfg L → p1 ++ p2 ≡ₚ seqZ 0 n →
  ∃ cfg', partition p1 p2 cfg = Ret cfg' ∧
    links n cfg' (λ a b, (a ∈ p1 ∧ b ∈ p1) ∨ (a ∈ p2 ∧ b ∈ p2)).
Proof.
  intros Hl Hperm.
  assert (∀ x, x ∈ p1 ∨ x ∈ p2 ↔ 0 ≤ x < n) as Hin.
  { intros x. rewrite <- elem_of_app, Hperm, elem_of_seqZ. lia. }
  assert (NoDup (p1 ++ p2)) as Hnd by (rewrite Hperm; apply NoDup_seqZ).
  apply NoDup_app in Hnd as (_ & Hdisj & _).
  assert (zlen p1 + zlen p2 ≤ Z.max 0 n) as Hlen.
  { unfold zlen. apply Permutation_length in Hperm. rewrite length_app, length_seqZ in Hperm. lia. }
  pose proof (zlen_nonneg p1). pose proof (zlen_nonneg p2).
  assert (0 ≤ n) as Hn by (rewrite <- (wd_len _ _ (proj1 Hl)); apply zlen_nonneg).
  unfold partition.
  destruct (part_links n cfg L p1 p2 Hl) as (cfg1 & -> & H1); [intros x ?; apply Hin; tauto..|lia|done|].
  destruct (part_links n cfg1 _ p2 p1 H1) as (cfg2 & E2 & H2);
    [intros x ?; apply Hin; tauto..|lia|intros x Hx Hx'; by apply (Hdisj x)|].
  exists cfg2. split; [exact E2|]. eapply links_iff; [|exact H2]. intros a b Ha%Hin Hb%Hin.
  pose proof (Hdisj a). pose proof (Hdisj b). tauto.
Qed.

(** ** The choice of the parts *)
Lemma Leader_ok i (obs : list (option bool)) :
  Forall is_Some obs → ∃ led l, Leader i obs = Ret (led, l) ∧
    ((led = false ∧ l = 0) ∨
     (led = true ∧ i ≤ l < i + zlen obs ∧ obs !! Z.to_nat (l - i) = Some (Some true))).
Proof.
  revert i. induction obs as [|o obs IH]; intros i Hs; [exists false, 0; split; [done|by left]|].
  apply Forall_cons in Hs as [[b ->] Hs]. pose proof (zlen_nonneg obs). rewrite zlen_cons. destruct b; simpl.
  - exists true, i. split; [done|right]. split_and!; [done|lia|lia|]. by rewrite Z.sub_diag.
  - destruct (IH (i + 1) Hs) as (led & l & -> & [?|(? & ? & Hl)]); exists led, l; (split; [done|]); [by left|right].
    split_and!; [done|lia|lia|]. by replace (Z.to_nat (l - i)) with (S (Z.to_nat (l - (i + 1)))) by lia.
Qed.

(** The servers below [k] other than [l], in order. *)
Definition others (l k : Z) : list Z := filter (λ x, x ≠ l) (seqZ 0 k).

Lemma others_succ l k : 0 ≤ k → others l (k + 1) = others l k ++ (if k =? l then [] else [k]).
Proof.
  intros Hk. unfold others. replace (k + 1) with (Z.of_nat (S (Z.to_nat k))) by lia.
  rewrite seqZ_S, filter_app, Z2Nat.id, Z.add_0_l by lia. f_equal. destruct (Z.eqb_spec k l) as [->|Hne].
  - by rewrite filter_cons_False, filter_nil by tauto.
  - by rewrite filter_cons_True, filter_nil.
Qed.

Lemma others_length l k : 0 ≤ k → zlen (others l k) ≤ k.
Proof.
  intros Hk. unfold others, zlen. pose proof (length_filter (λ x, x ≠ l) (seqZ 0 k)) as Hf.
  rewrite length_seqZ in Hf. lia.
Qed.

Lemma others_all l n : 0 ≤ l < n → others l n ++ [l] ≡ₚ seqZ 0 n.
Proof.
  intros Hl. apply NoDup_Permutation.
  - apply NoDup_app. split_and!; [by apply NoDup_filter, NoDup_seqZ| |apply NoDup_singleton].
    intros x [Hx _]%list_elem_of_filter Hs%list_elem_of_singleton. done.
  - apply NoDup_seqZ.
  - intros x. unfold others. rewrite elem_of_app, list_elem_of_singleton, list_elem_of_filter, elem_of_seqZ.
    destruct (decide (x = l)) as [->|]; [split; [lia|by right]|]. split; [intros [[_ ?]|?]; [done|lia]|]. intros ?. left. done.
Qed.

Lemma take_insert_last {A} (l : list A) (k : nat) x :
  (k < length l)%nat → take (S k) (<[k := x]> l) = take k l ++ [x].
Proof.
  intros Hk. rewrite (take_S_r _ _ x) by by apply list_lookup_insert_eq. by rewrite take_insert_ge.
Qed.

(** What the loop has filled in after [k] servers. *)
Definition filled (h l k : Z) (s : list Z * list Z * Z) : Prop :=
  let '(p1, p2, j) := s in
  zlen p1 = h + 1 ∧ zlen p2 = h ∧ j = zlen (others l k) ∧ take (Z.to_nat j) (p1 ++ p2) = others l k.

Lemma partition_step_ok h l k s :
  0 ≤ k < 2 * h + 1 → filled h l k s → ∃ s', partition_step l k s = Ret s' ∧ filled h l (k + 1) s'.
Proof.
  intros Hk. destruct s as [[p1 p2] j]. intros (H1 & H2 & Hj & Ht). unfold partition_step.
  pose proof (others_length l k ltac:(lia)) as Hle. pose proof (zlen_nonneg (others l k)).
  unfold filled. rewrite (others_succ l k) by lia. case_test.
  - exists (p1, p2, j). rewrite app_nil_r. done.
  - assert (take (Z.to_nat (j + 1)) (<[Z.to_nat j := k]> (p1 ++ p2)) = others l k ++ [k]) as Hnew.
    { replace (Z.to_nat (j + 1)) with (S (Z.to_nat j)) by lia. rewrite take_insert_last, Ht; [done|].
      rewrite length_app. unfold zlen in *. lia. }
    assert (j + 1 = zlen (others l k ++ [k])) by (rewrite zlen_app, zlen_cons, zlen_nil; lia).
    case_test.
    + rewrite set_index_Ret by lia. eexists. split; [done|]. cbn beta iota. rewrite zlen_insert. split_and!; [done..|].
      rewrite <- Hnew. by rewrite insert_app_l by (unfold zlen in *; lia).
    + rewrite set_index_Ret by lia. eexists. split; [done|]. cbn beta iota. rewrite zlen_insert. split_and!; [done..|].
      rewrite <- Hnew. rewrite insert_app_r_alt by (unfold zlen in *; lia).
      do 3 f_equal. unfold zlen in *. lia.
Qed.

Lemma make_partition_ok n obs :
  Z.odd n = true → 3 ≤ n → zlen obs = n → Forall is_Some obs →
  ∃ p1 p2 led l, Leader 0 obs = Ret (led, l) ∧ make_partition n obs = Ret (p1, p2) ∧
    p1 ++ p2 ≡ₚ seqZ 0 n ∧ n < 2 * zlen p1 ∧ l ∈ p2 ∧ (led = true → obs !! Z.to_nat l = Some (Some true)).
Proof.
  intros Hodd Hn Hlen Hs. destruct (Leader_ok 0 obs Hs) as (led & l & Hlead & Hl).
  assert (0 ≤ l < n) as Hlr by (destruct Hl as [[_ ->]|(_ & ? & _)]; lia).
  set (h := Z.quot n 2). assert (n = 2 * h + 1) as Hh.
  { unfold h. rewrite Z.quot_div_nonneg by lia. rewrite Zodd_mod in Hodd. apply Zeq_bool_eq in Hodd.
    pose proof (Z.div_mod n 2). lia. }
  unfold make_partition. rewrite Hlead. simpl. fold h.
  destruct (for_range_safe (filled h l) n (partition_step l)
    (replicate (Z.to_nat (h + 1)) 0, replicate (Z.to_nat h) 0, 0)) as ([[p1 p2] j] & -> & H1 & H2 & Hj & Ht); [lia|..].
  - unfold filled, zlen. rewrite !length_replicate. split_and!; [lia|lia|done|done].
  - intros k s Hk. apply partition_step_ok. lia.
  - simpl. pose proof (others_all l n Hlr) as Hall.
    assert (j = n - 1) as ->.
    { apply Permutation_length in Hall. rewrite length_app, length_seqZ in Hall. simpl in Hall. unfold zlen in *. lia. }
    rewrite set_index_Ret by lia. exists p1, (<[Z.to_nat (zlen p2 - 1) := l]> p2), led, l.
    assert (p1 ++ <[Z.to_nat (zlen p2 - 1) := l]> p2 = others l n ++ [l]) as Heq.
    { rewrite <- Ht. rewrite <- (take_insert_last (p1 ++ p2) (Z.to_nat (n - 1)) l)
        by (rewrite length_app; unfold zlen in *; lia).
      rewrite insert_app_r_alt by (unfold zlen in *; lia).
      replace (Z.to_nat (n - 1) - length p1)%nat with (Z.to_nat (zlen p2 - 1)) by (unfold zlen in *; lia).
      rewrite take_ge; [done|]. rewrite length_app, length_insert. unfold zlen in *. lia. }
    split_and!; [done|done|by rewrite Heq|lia| |].
    + apply list_elem_of_lookup. exists (Z.to_nat (zlen p2 - 1)). apply list_lookup_insert_eq. unfold zlen in *. lia.
    + intros ->. destruct Hl as [[? _]|(_ & _ & Hl)]; [done|]. by rewrite Z.sub_0_r in Hl.
Qed.

(** ** A sample *)
Definition sample_kconfig : kconfig :=
  match make_kconfig 3 false (names3 100) (λ i, i) with
  | Ret cfg => cfg
  | _ => mkKConfig 3 MakeNetwork [] ∅ 0 0 0
  end.

Lemma sample_kconfig_wired : wired 3 sample_kconfig.
Proof.
  assert (kc_endnames sample_kconfig = [Some (names3 100 0); Some (names3 100 1); Some (names3 100 2)]) as Hn
    by (vm_compute; reflexivity).
  assert (∀ i, 0 ≤ i < 3 → i = 0 ∨ i = 1 ∨ i = 2) as Hr by (intros; lia).
  assert (∀ i j e, kc_endname sample_kconfig i j = Ret e → e = NInt (100 + 10 * i + j) ∧ 0 ≤ i < 3 ∧ 0 ≤ j < 3) as He.
  { intros i j e. unfold kc_endname. rewrite Hn. intros Hx. inv_bind Hx.
    pose proof (index_bounds _ _ _ Hb) as Hi. change (0 ≤ i < 3) in Hi.
    assert (Ret x = Ret (Some (names3 100 i))) as [= ->]
      by (rewrite <- Hb; destruct (Hr i Hi) as [->|[->| ->]]; reflexivity).
    pose proof (index_bounds _ _ _ Hx) as Hj. change (0 ≤ j < 3) in Hj. split; [|exact (conj Hi Hj)].
    assert (Ret e = Ret (NInt (100 + 10 * i + j))) as [= ->]; [|reflexivity].
    rewrite <- Hx. destruct (Hr j Hj) as [->|[->| ->]]; reflexivity. }
  split.
  - vm_compute. reflexivity.
  - rewrite Hn. reflexivity.
  - intros i Hi. exists (names3 100 i). rewrite Hn. split; [|reflexivity].
    destruct (Hr i Hi) as [->|[->| ->]]; reflexivity.
  - intros i j a b e (-> & ? & ?)%He ([= Heq] & ? & ?)%He. lia.
Qed.

(** ** Theorem *)

(** C35: the partitions of the tests.  For an odd number of servers, all of them up,
    [make_partition] puts every server into exactly one of two parts, more
    than half of them into the first and the leader into the second, and
    [partition] then enables the end from one server to another exactly when both
    are in the same part, whatever was enabled before. *)
Theorem kv_partition_correct (n : Z) (obs : list (option bool)) (cfg : kconfig)
    (Hodd : Z.odd n = true) (Hn : 3 ≤ n) (Hlen : zlen obs = n) (Hup : Forall is_Some obs) (Hw : wired n cfg) :
  ∃ p1 p2 led l cfg', Leader 0 obs = Ret (led, l) ∧ make_partition n obs = Ret (p1, p2) ∧
    partition p1 p2 cfg = Ret cfg' ∧
    p1 ++ p2 ≡ₚ seqZ 0 n ∧ n < 2 * zlen p1 ∧ l ∈ p2 ∧ (led = true → obs !! Z.to_nat l = Some (Some true)) ∧
    ∀ a b, 0 ≤ a < n → 0 ≤ b < n → link cfg' a b ↔ (a ∈ p1 ∧ b ∈ p1) ∨ (a ∈ p2 ∧ b ∈ p2).
Proof.
  destruct (make_partition_ok n obs Hodd Hn Hlen Hup) as (p1 & p2 & led & l & H1 & H2 & Hperm & H4 & H5 & H6).
  destruct (partition_links n cfg (link cfg) p1 p2) as (cfg' & H7 & [_ H8]); [by split|done|].
  exists p1, p2, led, l, cfg'. done.
Qed.

(** Server 1 leads: it is cut off from the other two. *)
Lemma kv_partition_correct_witness :
  make_partition 3 [Some false; Some true; Some false] = Ret ([0; 2], [1]) ∧
  ∃ cfg', partition [0; 2] [1] sample_kconfig = Ret cfg' ∧ link cfg' 0 2 ∧ ¬ link cfg' 0 1.
Proof.
  assert (make_partition 3 [Some false; Some true; Some false] = Ret ([0; 2], [1])) as E by (vm_compute; reflexivity).
  split; [exact E|].
  destruct (kv_partition_correct 3 [Some false; Some true; Some false] sample_kconfig eq_refl ltac:(lia) eq_refl
    ltac:(repeat constructor; eauto) sample_kconfig_wired) as (p1 & p2 & led & l & cfg' & _ & E' & Hp & _ & _ & _ & _ & Hl).
  rewrite E in E'. injection E' as <- <-. exists cfg'. split; [exact Hp|]. rewrite !Hl by lia.
  rewrite !elem_of_cons, !elem_of_nil. lia.
Defined.
