(* ===== verification/RaftInstance.v ===== *)
(** * The model of raft/raft.go provides the interface of the services *)

From S2P Require Import Prelude Persister RaftApi Raft RaftLog RaftAppend RaftSteps RaftSpec.
Import Raft.

Section instance.
Context {C : Type} `{Codec (Z * Z * list (LogEntry C) * Z * Z)}.
Implicit Types (rf : Raft C).

Definition logged_command rf (i : Z) : option C := entry_at rf i ≫= le_Command.

Lemma Start_service rf c :
  raft_wf rf → ∃ rf' i t lead,
    Start rf c = Ret (rf', (i, t, lead)) ∧ raft_wf rf' ∧
    if lead : bool
    then GetState rf = (t, true) ∧ logged_command rf' i = Some c
    else rf' = rf ∧ i = -1 ∧ t = -1.
Proof.
  intros Hw. destruct (Start_cases rf c Hw) as (rf' & i & t & lead & E & Hw' & Hl).
  exists rf', i, t, lead. split; [done|]. split; [done|]. destruct lead.
  - destruct Hl as (_ & Hs & -> & Hi & HL & Hrf). split.
    + unfold GetState. by rewrite bool_decide_eq_true_2.
    + unfold logged_command, entry_at. rewrite Hrf, HL. simpl.
      pose proof (log_zlen rf (rw_log _ Hw)). case_test; [|unfold last_index in Hi; lia].
      rewrite lookup_app_r by (unfold last_index, zlen in *; lia).
      replace (Z.to_nat (i - lastIncludedIndex rf) - length (Log rf))%nat with 0%nat
        by (unfold last_index, zlen in *; lia). done.
  - by destruct Hl as (_ & ? & ? & ?).
Qed.

Lemma Start_follower rf c :
  raft_wf rf → (GetState rf).2 = false → Start rf c = Ret (rf, (-1, -1, false)).
Proof.
  intros Hw Hs. unfold GetState in Hs. simpl in Hs. bool_to_prop. unfold Start.
  destruct (dead rf); [done|]. rewrite getLastLogIndex_eq, bind_Ret by apply Hw.
  by rewrite bool_decide_eq_false_2.
Qed.

#[global] Instance raft_service : RaftService (Raft C) C := {|
  rs_wf := raft_wf;
  rs_command := logged_command;
  rs_GetState := GetState;
  rs_Start := Start;
  rs_CondInstallSnapshot := CondInstallSnapshot;
  rs_Snapshot := Raft.Snapshot;
  rs_GetStateSize := GetStateSize;
  rs_GetSnapshot := GetSnapshot;
  rs_Start_spec := Start_service;
  rs_Start_follower := Start_follower
|}.
End instance.
