(* ===== verification/Codecs.v ===== *)
(** * A codec whose size is linear in the value

    [Codec] (Persister.v) is all the theorems use of labgob.  The instance for
    countable types there is too large to run on logs that hold configurations
    and shards; this one writes the fields of a value one after the other, with
    the length before a list, a string or a map, which is how the sample runs of
    the services store their state. *)

From S2P Require Import Prelude Persister Raft.
Import Raft.

(** A writer of [A] and a reader that returns what it has not consumed. *)
Class Tok (A : Type) := {
  to_tok : A → bytes;
  of_tok : bytes → option (A * bytes);
  of_to_tok : ∀ a rest, of_tok (to_tok a ++ rest) = Some (a, rest)
}.

Lemma tok_codec_roundtrip {A} `{Tok A} (a : A) :
  match 0 :: to_tok a with [] => None | _ :: l => fst <$> of_tok l end = Some a.
Proof. simpl. rewrite <- (app_nil_r (to_tok a)). by rewrite of_to_tok. Qed.

Lemma tok_codec_nonempty {A} `{Tok A} (a : A) : 0 :: to_tok a ≠ [].
Proof. done. Qed.

(** Preferred to [countable_codec] where both apply. *)
#[export] Instance tok_codec {A} `{Tok A} : Codec A | 0 := {|
  gob_encode := λ a, 0 :: to_tok a;
  gob_decode := λ l, match l with [] => None | _ :: l => fst <$> of_tok l end;
  gob_decode_encode := tok_codec_roundtrip;
  gob_encode_nonempty := tok_codec_nonempty
|}.

(** ** Instances *)
#[export] Instance Z_tok : Tok Z.
Proof.
  refine {| to_tok := λ z, [z]; of_tok := λ l, match l with [] => None | z :: l => Some (z, l) end |}.
  done.
Defined.

(** The image of a type that has a reader: records and variants. *)
Definition iso_tok {A B} `{Tok B} (f : A → B) (g : B → A) (Hgf : ∀ a, g (f a) = a) : Tok A.
Proof.
  refine {| to_tok := λ a, to_tok (f a); of_tok := λ l, '(b, l) ← of_tok l; Some (g b, l) |}.
  intros a rest. rewrite of_to_tok. simpl. by rewrite Hgf.
Defined.

#[export] Instance prod_tok {A B} `{Tok A, Tok B} : Tok (A * B).
Proof.
  refine {| to_tok := λ p, to_tok p.1 ++ to_tok p.2;
            of_tok := λ l, '(a, l) ← of_tok l; '(b, l) ← of_tok l; Some ((a, b), l) |}.
  intros [a b] rest. simpl. rewrite <- app_assoc, of_to_tok. simpl. by rewrite of_to_tok.
Defined.

#[export] Instance sum_tok {A B} `{Tok A, Tok B} : Tok (A + B).
Proof.
  refine {| to_tok := λ s, match s with inl a => 0 :: to_tok a | inr b => 1 :: to_tok b end;
            of_tok := λ l, match l with
                           | 0 :: l => '(a, l) ← of_tok l; Some (inl a, l)
                           | 1 :: l => '(b, l) ← of_tok l; Some (inr b, l)
                           | _ => None
                           end |}.
  intros [a|b] rest; simpl; by rewrite of_to_tok.
Defined.

#[export] Instance unit_tok : Tok unit.
Proof. refine {| to_tok := λ _, []; of_tok := λ l, Some (tt, l) |}. by intros []. Defined.

#[export] Instance option_tok {A} `{Tok A} : Tok (option A).
Proof.
  refine (iso_tok (λ o, match o with None => inl tt | Some a => inr a end)
                  (λ s, match s with inl _ => None | inr a => Some a end) _).
  by intros [].
Defined.

Fixpoint of_toks {A} `{Tok A} (n : nat) (l : bytes) : option (list A * bytes) :=
  match n with
  | O => Some ([], l)
  | S n => '(a, l) ← of_tok l; '(r, l) ← of_toks n l; Some (a :: r, l)
  end.

Lemma of_toks_app {A} `{Tok A} (r : list A) rest :
  of_toks (length r) (concat (to_tok <$> r) ++ rest) = Some (r, rest).
Proof.
  induction r as [|a r IH]; [done|]. cbn [length of_toks fmap list_fmap concat].
  rewrite <- app_assoc, of_to_tok. cbn [mbind option_bind]. by rewrite IH.
Qed.

#[export] Instance list_tok {A} `{Tok A} : Tok (list A).
Proof.
  refine {| to_tok := λ r, zlen r :: concat (to_tok <$> r);
            of_tok := λ l, match l with [] => None | n :: l => of_toks (Z.to_nat n) l end |}.
  intros r rest. simpl. unfold zlen. rewrite Nat2Z.id. apply of_toks_app.
Defined.

#[export] Instance ascii_tok : Tok Ascii.ascii.
Proof.
  refine (iso_tok (λ c, Z.of_N (Ascii.N_of_ascii c)) (λ z, Ascii.ascii_of_N (Z.to_N z)) _).
  intros c. by rewrite N2Z.id, Ascii.ascii_N_embedding.
Defined.

#[export] Instance string_tok : Tok string.
Proof.
  refine (iso_tok String.list_ascii_of_string String.string_of_list_ascii _).
  apply String.string_of_list_ascii_of_string.
Defined.

#[export] Instance gmap_tok {K V} `{Countable K} `{Tok K, Tok V} : Tok (gmap K V).
Proof. refine (iso_tok (B:=list (K * V)) (λ m : gmap K V, map_to_list m) (λ l, list_to_map l) _). intros m. apply list_to_map_to_list. Defined.

#[export] Instance LogEntry_tok {C} `{Tok C} : Tok (LogEntry C).
Proof.
  refine (iso_tok (λ e, (le_Term e, le_Command e, le_Index e)) (λ '(t, c, i), mkLogEntry t c i) _).
  by intros [].
Defined.
