(* ===== verification/KVRaft.v ===== *)
(** * The replicated key/value server (kvraft/server.go, common.go, client.go)

    A server applies the committed operations to a map from strings to strings
    and remembers, per client, the last sequence number it has executed.
    [applyHandler] is one pass of the applier loop, with the calls it makes on
    its Raft peer; [Get] and [PutAppend] are split where they release the lock
    or wait; [Clerk] is the client's side of one attempt. *)

From S2P Require Import Prelude Persister Chan RaftApi Raft.

Module KVRaft.

Definition OK : string := "OK".
Definition ErrNoKey : string := "ErrNoKey".
Definition ErrWrongLeader : string := "ErrWrongLeader".

Record Op := mkOp {
  ClientID : Z;
  SeqNum : Z;
  Key : string;
  Value : string;
  Optype : string
}.

#[export] Instance Op_eq_dec : EqDecision Op.
Proof. solve_decision. Defined.

(** [Op{}], what a failed type assertion yields. *)
Definition zeroOp : Op := mkOp 0 0 "" "" "".

Record PutAppendArgs := mkPutAppendArgs {
  pa_Key : string;
  pa_Value : string;
  pa_Op : string;   (* "Put" or "Append" *)
  pa_ClientID : Z;
  pa_SeqNum : Z
}.

Record GetArgs := mkGetArgs { ga_Key : string; ga_ClientID : Z; ga_SeqNum : Z }.

Record GetReply := mkGetReply { gr_Err : string; gr_Value : string }.

Record KVServer := mkKVServer {
  maxraftstate : Z;   (* snapshot if log grows this big *)
  currentState : gmap string string;
  waitChan : waitroom Op;
  clientSeq : gmap Z Z;
  lastIncludedIndex : Z   (* for snapshot *)
}.

(** Assignments to the fields of [*kv]. *)
Definition set_currentState (m : gmap string string) (kv : KVServer) : KVServer :=
  mkKVServer (maxraftstate kv) m (waitChan kv) (clientSeq kv) (lastIncludedIndex kv).
Definition set_waitChan (w : waitroom Op) (kv : KVServer) : KVServer :=
  mkKVServer (maxraftstate kv) (currentState kv) w (clientSeq kv) (lastIncludedIndex kv).
Definition set_clientSeq (m : gmap Z Z) (kv : KVServer) : KVServer :=
  mkKVServer (maxraftstate kv) (currentState kv) (waitChan kv) m (lastIncludedIndex kv).
Definition set_lastIncludedIndex (i : Z) (kv : KVServer) : KVServer :=
  mkKVServer (maxraftstate kv) (currentState kv) (waitChan kv) (clientSeq kv) i.

(** ** The state machine *)
Definition applyToStateMachine (kv : KVServer) (appliedOp : Op) : KVServer :=
  let kv := set_clientSeq (<[ClientID appliedOp := SeqNum appliedOp]> (clientSeq kv)) kv in
  if bool_decide (Optype appliedOp = "Put") then
    set_currentState (<[Key appliedOp := Value appliedOp]> (currentState kv)) kv
  else if bool_decide (Optype appliedOp = "Append") then
    let currValue := map_get "" (currentState kv) (Key appliedOp) in
    set_currentState (<[Key appliedOp := (currValue ++ Value appliedOp)%string]> (currentState kv)) kv
  else kv.

(** [appliedOp.Value = kv.currentState[appliedOp.Key]] for a Get. *)
Definition fill_value (kv : KVServer) (op : Op) : Op :=
  if bool_decide (Optype op = "Get") then
    mkOp (ClientID op) (SeqNum op) (Key op) (map_get "" (currentState kv) (Key op)) (Optype op)
  else op.

(** The client's session is created at its first operation. *)
Definition open_session (kv : KVServer) (client : Z) : KVServer :=
  match clientSeq kv !! client with
  | Some _ => kv
  | None => set_clientSeq (<[client := 0]> (clientSeq kv)) kv
  end.

(** From the session check to the execution; the operation comes back with the
    value read. *)
Definition execute (kv : KVServer) (op : Op) : KVServer * Op :=
  let kv1 := open_session kv (ClientID op) in
  if SeqNum op <=? map_get 0 (clientSeq kv1) (ClientID op) then (kv1, fill_value kv1 op)
  else let op1 := fill_value kv1 op in (applyToStateMachine kv1 op1, op1).

(** ** Persistence *)
Section persist.
Context `{Codec (gmap string string * gmap Z Z)}.

Definition getServerPersistData (kv : KVServer) : bytes :=
  gob_encode (currentState kv, clientSeq kv).

Definition readServerPersistData (kv : KVServer) (data : bytes) : KVServer :=
  if zlen data <? 1 then kv
  else match gob_decode data with
       | None => kv
       | Some (st, seq) => set_clientSeq seq (set_currentState st kv)
       end.

Section server.
Context {R : Type} `{RaftService R Op}.

(** One pass of the [applyHandler] loop. *)
Definition applyHandler (rf : R) (kv : KVServer) (applyMsg : ApplyMsg Op) : Go (R * KVServer) :=
  if negb (CommandValid applyMsg) && SnapshotValid applyMsg then
    '(rf1, installed) ← rs_CondInstallSnapshot rf (SnapshotTerm applyMsg) (SnapshotIndex applyMsg)
                          (Snapshot applyMsg);
    if negb installed then mret (rf1, kv)
    else mret (rf1, set_lastIncludedIndex (SnapshotIndex applyMsg)
                      (readServerPersistData kv (Snapshot applyMsg)))
  else
    let op := default zeroOp (Command applyMsg) in
    if CommandIndex applyMsg <=? lastIncludedIndex kv then mret (rf, kv)
    else
      let '(kv1, appliedOp) := execute kv op in
      rf1 ← (if negb (maxraftstate kv1 =? -1) && (maxraftstate kv1 <? rs_GetStateSize rf)
             then rs_Snapshot rf (CommandIndex applyMsg) (getServerPersistData kv1) else mret rf);
      w ← wait_notify (waitChan kv1) (CommandIndex applyMsg) appliedOp;
      mret (rf1, set_waitChan w kv1).

Definition getWaitCh (kv : KVServer) (i : Z) : KVServer * Z :=
  let '(w, c) := wait_get (waitChan kv) i in (set_waitChan w kv, c).

(** ** The request handlers *)

(** The part [Get] and [PutAppend] share: up to the wait, either the request
    is refused or it waits on a channel for the entry at a log index. *)
Definition request_begin (rf : R) (kv : KVServer) (op : Op) : Go (R * KVServer * option (Z * Z)) :=
  let '(_, isLeader) := rs_GetState rf in
  if negb isLeader then mret (rf, kv, None)
  else
    '(rf', (i, _, isLeader')) ← rs_Start rf op;
    if negb isLeader' then mret (rf', kv, None)
    else let '(kv', waitCh) := getWaitCh kv i in mret (rf', kv', Some (i, waitCh)).

Definition Get_begin (rf : R) (kv : KVServer) (args : GetArgs) :=
  request_begin rf kv (mkOp (ga_ClientID args) (ga_SeqNum args) (ga_Key args) "" "Get").

Definition PutAppend_begin (rf : R) (kv : KVServer) (args : PutAppendArgs) :=
  request_begin rf kv (mkOp (pa_ClientID args) (pa_SeqNum args) (pa_Key args) (pa_Value args) (pa_Op args)).
End server.
End persist.

(** What ends the wait. *)
Inductive wake := WTimeout | WReceived (r : received Op).

Definition Get_end (args : GetArgs) (ev : wake) : GetReply :=
  match ev with
  | WReceived (RValue applyOp) =>
      if (SeqNum applyOp =? ga_SeqNum args) && (ClientID applyOp =? ga_ClientID args)
      then mkGetReply OK (Value applyOp) else mkGetReply ErrWrongLeader ""
  | _ => mkGetReply ErrWrongLeader ""
  end.

Definition PutAppend_end (args : PutAppendArgs) (ev : wake) : string :=
  match ev with
  | WReceived (RValue applyOp) =>
      if (SeqNum applyOp =? pa_SeqNum args) && (ClientID applyOp =? pa_ClientID args)
      then OK else ErrWrongLeader
  | _ => ErrWrongLeader
  end.

(** The goroutine that closes the channel and drops it from the map. *)
Definition request_cleanup (kv : KVServer) (i waitCh : Z) : Go KVServer :=
  w ← wait_release (waitChan kv) i waitCh; mret (set_waitChan w kv).

(** ** Starting a server *)
Section start.
Context `{Codec (gmap string string * gmap Z Z)} `{Codec (Z * Z * list (Raft.LogEntry Op) * Z * Z)}.

Definition StartKVServer (npeers id : Z) (persister : Persister) (maxraftstate now : Z)
  : Raft.Raft Op * KVServer :=
  let rf := Raft.Make npeers id persister now in
  let kv := mkKVServer maxraftstate ∅ empty_waitroom ∅ 0 in
  let snapshot := Raft.GetSnapshot rf in
  (rf, if 0 <? zlen snapshot then readServerPersistData kv snapshot else kv).
End start.

(** ** The client *)
Record Clerk := mkClerk {
  servers : Z;   (* len(ck.servers) *)
  clientID : Z;
  seqNum : Z;
  leaderID : Z
}.

Definition MakeClerk (nservers id : Z) : Clerk := mkClerk nservers id 1 (-1).

(** The server an attempt is sent to; [rand] is what [nrand] returns. *)
Definition pick_server (ck : Clerk) (lastReplyErrLeader : bool) (rand : Z) : Z :=
  if lastReplyErrLeader || (leaderID ck =? -1) then rand mod servers ck else leaderID ck.

(** The arguments are fixed before the first attempt. *)
Definition Clerk_getArgs (ck : Clerk) (key : string) : GetArgs :=
  mkGetArgs key (clientID ck) (seqNum ck).
Definition Clerk_putAppendArgs (ck : Clerk) (key value op : string) : PutAppendArgs :=
  mkPutAppendArgs key value op (clientID ck) (seqNum ck).

Definition clerk_done (ck : Clerk) (server : Z) : Clerk :=
  mkClerk (servers ck) (clientID ck) (seqNum ck + 1) server.

(** One attempt of [Get]: [reply] is [None] when the call failed; the result is
    the value returned, or [None] to try again (and then whether the next
    attempt goes to a random server). *)
Definition Clerk_Get_attempt (ck : Clerk) (lastErr : bool) (server : Z) (reply : option GetReply)
  : Clerk * (string + bool) :=
  match reply with
  | None => (ck, inr true)
  | Some r =>
      if bool_decide (gr_Err r = ErrWrongLeader) then (ck, inr true)
      else if bool_decide (gr_Err r = OK) then (clerk_done ck server, inl (gr_Value r))
      else if bool_decide (gr_Err r = ErrNoKey) then (clerk_done ck server, inl ""%string)
      else (ck, inr lastErr)
  end.

(** One attempt of [PutAppend]. *)
Definition Clerk_PutAppend_attempt (ck : Clerk) (lastErr : bool) (server : Z) (reply : option string)
  : Clerk * (unit + bool) :=
  match reply with
  | None => (ck, inr true)
  | Some err =>
      if bool_decide (err = ErrWrongLeader) then (ck, inr true)
      else if bool_decide (err = OK) then (clerk_done ck server, inl ())
      else (ck, inr lastErr)
  end.

End KVRaft.
