(* ===== verification/KVRaftSpec.v ===== *)
(** * What the key/value service guarantees

    The reference is a plain map updated by the first occurrence of each
    client operation in the log.  The servers, which see retried operations
    several times, crash, and restart from or install snapshots, compute the
    same map. *)

From S2P Require Import Prelude Persister Chan RaftApi Raft RaftLog RaftAppend RaftSteps RaftSpec RaftOps RaftInstance KVRaft.
Import KVRaft.

(** ** The reference *)

(** One operation on the map, executed unconditionally. *)
Definition kv_exec (m : gmap string string) (op : Op) : gmap string string :=
  if bool_decide (Optype op = "Put") then <[Key op := Value op]> m
  else if bool_decide (Optype op = "Append")
       then <[Key op := (map_get "" m (Key op) ++ Value op)%string]> m
  else m.

Definition op_id (op : Op) : Z * Z := (ClientID op, SeqNum op).
Definition op_ids (l : list Op) : gset (Z * Z) := list_to_set (map op_id l).

(** The operations of a log without the repetitions. *)
Fixpoint first_ops (seen : gset (Z * Z)) (l : list Op) : list Op :=
  match l with
  | [] => []
  | op :: l => if bool_decide (op_id op ∈ seen) then first_ops seen l
               else op :: first_ops ({[op_id op]} ∪ seen) l
  end.

Definition kv_spec (l : list Op) : gmap string string := foldl kv_exec ∅ (first_ops ∅ l).

(** Clients number their operations from 1 and start one after the other: an
    operation that has not occurred yet is later than those that have. *)
Definition client_ordered (l : list Op) : Prop :=
  ∀ l1 op l2, l = l1 ++ op :: l2 → 1 ≤ SeqNum op ∧
    (op_id op ∈ op_ids l1 ∨ ∀ op', op' ∈ l1 → ClientID op' = ClientID op → SeqNum op' < SeqNum op).

(** ** The server on a log *)
Definition apply_ops (kv : KVServer) (l : list Op) : KVServer :=
  foldl (λ kv op, (execute kv op).1) kv l.

(** The server [StartKVServer] makes on empty storage. *)
Definition kv_start : KVServer := mkKVServer (-1) ∅ empty_waitroom ∅ 0.

(** The replicated part of a server. *)
Definition kv_view (kv : KVServer) : gmap string string * gmap Z Z := (currentState kv, clientSeq kv).

Lemma elem_of_op_ids l i : i ∈ op_ids l ↔ ∃ op, op ∈ l ∧ op_id op = i.
Proof. unfold op_ids. rewrite elem_of_list_to_set, list_elem_of_fmap. naive_solver. Qed.

Lemma op_ids_app l1 l2 : op_ids (l1 ++ l2) = op_ids l1 ∪ op_ids l2.
Proof. unfold op_ids. rewrite map_app. apply list_to_set_app_L. Qed.

Lemma first_ops_snoc seen l op :
  first_ops seen (l ++ [op]) =
  first_ops seen l ++ (if bool_decide (op_id op ∈ seen ∪ op_ids l) then [] else [op]).
Proof.
  revert seen. induction l as [|x l IH]; intros seen; cbn [first_ops app].
  - unfold op_ids. simpl. rewrite union_empty_r_L. case_bool_decide; done.
  - change (op_ids (x :: l)) with ({[op_id x]} ∪ op_ids l). case_bool_decide as Hx.
    + rewrite IH. f_equal. replace (seen ∪ ({[op_id x]} ∪ op_ids l)) with (seen ∪ op_ids l) by set_solver.
      done.
    + rewrite IH. simpl. do 2 f_equal.
      by replace ({[op_id x]} ∪ seen ∪ op_ids l) with (seen ∪ ({[op_id x]} ∪ op_ids l)) by set_solver.
Qed.

Lemma client_ordered_snoc l op :
  client_ordered (l ++ [op]) ↔ client_ordered l ∧ 1 ≤ SeqNum op ∧
    (op_id op ∈ op_ids l ∨ ∀ op', op' ∈ l → ClientID op' = ClientID op → SeqNum op' < SeqNum op).
Proof.
  split.
  - intros Ho. split; [|by apply (Ho l op [])]. intros l1 o l2 ->.
    apply (Ho l1 o (l2 ++ [op])). by rewrite <- app_assoc.
  - intros [Ho Hop] l1 o l2 E. destruct l2 as [|x l2 _] using rev_ind.
    + apply app_inj_tail in E as [-> ->]. done.
    + rewrite app_comm_cons, app_assoc in E. apply app_inj_tail in E as [-> _]. by apply (Ho l1 o l2).
Qed.

(** ** The session table *)
Lemma open_session_get kv c c' : map_get 0 (clientSeq (open_session kv c)) c' = map_get 0 (clientSeq kv) c'.
Proof.
  unfold open_session. destruct (clientSeq kv !! c) eqn:E; [done|]. simpl. unfold map_get.
  destruct (decide (c = c')) as [->|]; [by rewrite lookup_insert_eq, E|by rewrite lookup_insert_ne].
Qed.

Lemma open_session_state kv c : currentState (open_session kv c) = currentState kv.
Proof. unfold open_session. by destruct (clientSeq kv !! c). Qed.

Lemma execute_stale kv op :
  SeqNum op ≤ map_get 0 (clientSeq kv) (ClientID op) →
  currentState (execute kv op).1 = currentState kv ∧
  ∀ c, map_get 0 (clientSeq (execute kv op).1) c = map_get 0 (clientSeq kv) c.
Proof.
  intros Hle. unfold execute. rewrite open_session_get. case_test; [|lia]. simpl.
  split; [apply open_session_state|]. intros c. apply open_session_get.
Qed.

Lemma fill_value_id kv op : op_id (fill_value kv op) = op_id op ∧ Key (fill_value kv op) = Key op ∧
  Optype (fill_value kv op) = Optype op ∧ (Optype op ≠ "Get" → fill_value kv op = op).
Proof. unfold fill_value. case_bool_decide; simpl; by split_and!. Qed.

Lemma execute_fresh kv op :
  map_get 0 (clientSeq kv) (ClientID op) < SeqNum op →
  currentState (execute kv op).1 = kv_exec (currentState kv) op ∧
  ∀ c, map_get 0 (clientSeq (execute kv op).1) c =
         if bool_decide (c = ClientID op) then SeqNum op else map_get 0 (clientSeq kv) c.
Proof.
  intros Hlt. unfold execute. rewrite open_session_get. case_test; [lia|]. simpl.
  set (kv1 := open_session kv (ClientID op)).
  destruct (fill_value_id kv1 op) as ([= Hc Hs] & Hk & Ho & Hsame). split.
  - unfold applyToStateMachine, kv_exec. rewrite Ho, Hk. simpl.
    change (currentState kv1) with (currentState (open_session kv (ClientID op))).
    case_bool_decide as HP; simpl.
    { rewrite Hsame by congruence. by rewrite open_session_state. }
    case_bool_decide; simpl; [|apply open_session_state].
    rewrite Hsame by congruence. by rewrite open_session_state.
  - intros c. transitivity (map_get 0 (<[ClientID op := SeqNum op]> (clientSeq kv1)) c).
    + unfold applyToStateMachine. rewrite Hc, Hs. repeat case_bool_decide; done.
    + case_bool_decide as Hcc.
      * subst. apply map_get_insert_eq.
      * rewrite map_get_insert_ne by done. apply open_session_get.
Qed.

(** The session table holds the greatest sequence number executed. *)
Definition sessions_of (kv : KVServer) (l : list Op) : Prop := ∀ c,
  (∀ op, op ∈ l → ClientID op = c → SeqNum op ≤ map_get 0 (clientSeq kv) c) ∧
  (map_get 0 (clientSeq kv) c = 0 ∨ ∃ op, op ∈ l ∧ op_id op = (c, map_get 0 (clientSeq kv) c)).

Lemma execute_sessions kv l op :
  0 ≤ SeqNum op → sessions_of kv l → sessions_of (execute kv op).1 (l ++ [op]).
Proof.
  intros Hpos Hs c. destruct (Hs c) as [Hle Hwit].
  destruct (decide (SeqNum op ≤ map_get 0 (clientSeq kv) (ClientID op))) as [Hst|Hfr].
  - destruct (execute_stale kv op Hst) as [_ Hget]. rewrite Hget. split.
    + intros o [Ho|Ho%list_elem_of_singleton]%elem_of_app Hc; [by apply Hle|]. subst o.
      destruct (Hs (ClientID op)) as [_ _]. by subst c.
    + destruct Hwit as [?|(o & ? & ?)]; [by left|]. right. exists o. split; [set_solver|done].
  - destruct (execute_fresh kv op) as [_ Hget]; [lia|]. rewrite Hget. case_bool_decide as Hc; [subst c|].
    + split.
      * intros o [Ho|Ho%list_elem_of_singleton]%elem_of_app Hc; [|by subst].
        specialize (Hle o Ho Hc). lia.
      * right. exists op. split; [set_solver|done].
    + split.
      * intros o [Ho|Ho%list_elem_of_singleton]%elem_of_app Hco; [by apply Hle|congruence].
      * destruct Hwit as [?|(o & ? & ?)]; [by left|]. right. exists o. split; [set_solver|done].
Qed.

(** The state after a log that respects the clients' order. *)
Lemma apply_ops_spec l :
  client_ordered l →
  currentState (apply_ops kv_start l) = kv_spec l ∧ sessions_of (apply_ops kv_start l) l.
Proof.
  induction l as [|op l IH] using rev_ind; intros Ho.
  { split; [done|]. intros c. split; [|by left]. intros o Hin. by apply not_elem_of_nil in Hin. }
  apply client_ordered_snoc in Ho as (Ho & Hpos & Hop). destruct (IH Ho) as [Hst Hse].
  unfold apply_ops in *. rewrite foldl_app. cbn [foldl]. set (kv := foldl _ kv_start l) in *.
  split; [|apply execute_sessions; [lia|done]].
  unfold kv_spec. rewrite first_ops_snoc, foldl_app. fold (kv_spec l). rewrite union_empty_l_L.
  destruct (Hse (ClientID op)) as [Hle Hwit]. case_bool_decide as Hin.
  - apply elem_of_op_ids in Hin as (o & Hin & [= Hc Hs]). simpl. rewrite <- Hst.
    apply execute_stale. rewrite <- Hs. by apply Hle.
  - destruct Hop as [?|Hlater]; [done|]. simpl. rewrite <- Hst. apply execute_fresh.
    destruct Hwit as [->|(o & Ho' & [= Hc Hs])]; [lia|]. rewrite <- Hs. by apply Hlater.
Qed.

(** ** Clerks and the log they produce *)

(** The operation a clerk asks for. *)
Inductive request := RGet (key : string) | RPut (key value : string) | RAppend (key value : string).

(** The operation the servers log for the call a clerk makes. *)
Definition op_of_put (args : PutAppendArgs) : Op :=
  mkOp (pa_ClientID args) (pa_SeqNum args) (pa_Key args) (pa_Value args) (pa_Op args).
Definition op_of_get (args : GetArgs) : Op :=
  mkOp (ga_ClientID args) (ga_SeqNum args) (ga_Key args) "" "Get".
Definition clerk_op (ck : Clerk) (r : request) : Op :=
  match r with
  | RGet k => op_of_get (Clerk_getArgs ck k)
  | RPut k v => op_of_put (Clerk_putAppendArgs ck k v "Put")
  | RAppend k v => op_of_put (Clerk_putAppendArgs ck k v "Append")
  end.

(** The clerk after its operation was answered with [OK] by a server. *)
Definition clerk_answered (ck : Clerk) (r : request) (server : Z) (value : string) : Clerk :=
  match r with
  | RGet _ => (Clerk_Get_attempt ck false server (Some (mkGetReply OK value))).1
  | _ => (Clerk_PutAppend_attempt ck false server (Some OK)).1
  end.

(** Clerks with distinct client numbers, each at most at one operation; the
    calls they ever made, any of which may still reach a leader; the log. *)
Record history := mkHistory {
  h_clerks : gmap Z (Clerk * option request);
  h_calls : list Op;
  h_log : list Op
}.

Inductive hstep : history → history → Prop :=
| hs_call H c ck r :                       (* a clerk starts an operation *)
    h_clerks H !! c = Some (ck, None) →
    hstep H (mkHistory (<[c := (ck, Some r)]> (h_clerks H)) (clerk_op ck r :: h_calls H) (h_log H))
| hs_log H op :                            (* a call, old or repeated, is logged *)
    op ∈ h_calls H → hstep H (mkHistory (h_clerks H) (h_calls H) (h_log H ++ [op]))
| hs_ok H c ck r server value :            (* the logged operation is answered *)
    h_clerks H !! c = Some (ck, Some r) → op_id (clerk_op ck r) ∈ op_ids (h_log H) →
    hstep H (mkHistory (<[c := (clerk_answered ck r server value, None)]> (h_clerks H))
               (h_calls H) (h_log H)).

Inductive hreach : history → Prop :=
| hr_init H : (∀ c ck o, h_clerks H !! c = Some (ck, o) → o = None ∧ ∃ n, ck = MakeClerk n c) →
    h_calls H = [] → h_log H = [] → hreach H
| hr_step H H' : hreach H → hstep H H' → hreach H'.

Lemma clerk_op_id ck r : op_id (clerk_op ck r) = (clientID ck, seqNum ck).
Proof. by destruct r. Qed.

Lemma clerk_answered_fields ck r s v :
  clientID (clerk_answered ck r s v) = clientID ck ∧ seqNum (clerk_answered ck r s v) = seqNum ck + 1.
Proof. by destruct r. Qed.

(** A call's number never exceeds its clerk's, earlier ones are in the log, and
    the current one is that of the operation in progress. *)
Record hinv (H : history) : Prop := {
  hi_id : ∀ c ck o, h_clerks H !! c = Some (ck, o) → clientID ck = c ∧ 1 ≤ seqNum ck;
  hi_calls : ∀ op, op ∈ h_calls H → ∃ ck o, h_clerks H !! ClientID op = Some (ck, o) ∧
    1 ≤ SeqNum op ≤ seqNum ck ∧ (SeqNum op < seqNum ck → op_id op ∈ op_ids (h_log H)) ∧
    (SeqNum op = seqNum ck → o ≠ None);
  hi_log : ∀ op, op ∈ h_log H → op ∈ h_calls H;
  hi_ordered : client_ordered (h_log H)
}.

Lemma hstep_inv H H' : hinv H → hstep H H' → hinv H'.
Proof.
  intros [Hid Hca Hlo Hor] Hst. destruct Hst as [H c ck r Hc|H op Hop|H c ck r server value Hc Hin].
  - destruct (Hid _ _ _ Hc) as [Hcc Hpos]. split; simpl; try done.
    + intros c' ck' o [[<- [= <- <-]]|[_ Hc']]%lookup_insert_Some; by eapply Hid.
    + intros op [->|Hop]%elem_of_cons.
      * pose proof (clerk_op_id ck r) as [= Hci Hsn]. rewrite Hci, Hsn, Hcc, lookup_insert_eq.
        eexists _, _. split; [done|]. split; [lia|]. split; [lia|done].
      * destruct (Hca op Hop) as (ck' & o & Hck & Hr & Hl & Hn).
        destruct (decide (ClientID op = c)) as [<-|Hne].
        -- rewrite lookup_insert_eq. assert (ck' = ck ∧ o = None) as [-> ->] by (split; congruence).
           eexists _, _. split; [done|]. split; [done|]. split; done.
        -- rewrite lookup_insert_ne by done. eauto.
    + intros op Hop. apply elem_of_cons. right. by apply Hlo.
  - destruct (Hca op Hop) as (ck & o & Hck & Hr & Hl & Hn). split; simpl; try done.
    + intros x Hx. destruct (Hca x Hx) as (ck' & o' & Hck' & Hr' & Hl' & Hn'). eexists _, _.
      split; [done|]. split; [done|]. split; [|done]. rewrite op_ids_app. set_solver.
    + intros x [Hx|Hx%list_elem_of_singleton]%elem_of_app; [by apply Hlo|by subst].
    + apply client_ordered_snoc. split; [done|]. split; [lia|].
      destruct (decide (op_id op ∈ op_ids (h_log H))) as [|Hnot]; [by left|right].
      intros x Hx Hxc. destruct (Hca x (Hlo x Hx)) as (ck' & o' & Hck' & Hr' & _).
      rewrite Hxc in Hck'. assert (ck' = ck) as -> by congruence.
      destruct (decide (SeqNum op < seqNum ck)) as [Hlt|]; [by apply Hl in Hlt|].
      destruct (decide (SeqNum x = SeqNum op)) as [Heq|]; [|lia]. exfalso. apply Hnot.
      apply elem_of_op_ids. exists x. split; [done|]. unfold op_id. congruence.
  - destruct (Hid _ _ _ Hc) as [Hcc Hpos]. destruct (clerk_answered_fields ck r server value) as [Hf1 Hf2].
    split; simpl; try done.
    + intros c' ck' o [[<- [= <- <-]]|[_ Hc']]%lookup_insert_Some; [|by eapply Hid]. split; [congruence|lia].
    + intros op Hop. destruct (Hca op Hop) as (ck' & o & Hck & Hr & Hl & Hn).
      destruct (decide (ClientID op = c)) as [<-|Hne].
      * rewrite lookup_insert_eq. assert (ck' = ck) as -> by congruence.
        eexists _, _. split; [done|]. rewrite Hf2. split; [lia|]. split; [|lia]. intros _.
        destruct (decide (SeqNum op = seqNum ck)) as [Heq|]; [|apply Hl; lia].
        rewrite clerk_op_id in Hin. unfold op_id. by rewrite Heq, <- Hcc.
      * rewrite lookup_insert_ne by done. eauto.
Qed.

Lemma hreach_inv H : hreach H → hinv H.
Proof.
  induction 1 as [H Hcl Hca Hlo|H H' _ IH Hst]; [|by eapply hstep_inv]. split.
  - intros c ck o (_ & n & ->)%Hcl. done.
  - rewrite Hca. intros op Hop. by apply not_elem_of_nil in Hop.
  - rewrite Hlo. intros op Hop. by apply not_elem_of_nil in Hop.
  - rewrite Hlo. intros l1 op l2 E. by destruct l1.
Qed.

(** ** The applier *)
Section applier.
Context `{Codec (gmap string string * gmap Z Z)} {R : Type} `{RaftService R Op}.

(** Delivering messages one after the other. *)
Fixpoint deliver (rf : R) (kv : KVServer) (ms : list (ApplyMsg Op)) : Go (R * KVServer) :=
  match ms with
  | [] => mret (rf, kv)
  | m :: ms => '(rf', kv') ← applyHandler rf kv m; deliver rf' kv' ms
  end.

Lemma execute_view kv1 kv2 op :
  kv_view kv1 = kv_view kv2 →
  kv_view (execute kv1 op).1 = kv_view (execute kv2 op).1 ∧ (execute kv1 op).2 = (execute kv2 op).2.
Proof.
  intros [= Hs Hc]. unfold execute, open_session. rewrite Hc.
  assert (∀ k1 k2 : KVServer, currentState k1 = currentState k2 → fill_value k1 op = fill_value k2 op) as Hf.
  { intros k1 k2 E. unfold fill_value. by rewrite E. }
  assert (∀ k1 k2 o, currentState k1 = currentState k2 → clientSeq k1 = clientSeq k2 →
    kv_view (applyToStateMachine k1 o) = kv_view (applyToStateMachine k2 o)) as Ha.
  { intros k1 k2 o E1 E2. unfold applyToStateMachine, kv_view.
    repeat case_bool_decide; simpl; by rewrite E1, E2. }
  destruct (clientSeq kv2 !! ClientID op); simpl; rewrite ?Hc; case_test; simpl;
    (split; [|by apply Hf]); unfold kv_view; simpl; rewrite ?Hs, ?Hc; try done.
  - rewrite (Hf kv1 kv2) by done. by apply Ha.
  - erewrite Hf; [by apply Ha|]. done.
Qed.

Lemma applyHandler_command rf kv c i rf' kv' :
  lastIncludedIndex kv < i → applyHandler rf kv (command_msg c i) = Ret (rf', kv') →
  kv_view kv' = kv_view (execute kv (default zeroOp c)).1 ∧ lastIncludedIndex kv' = lastIncludedIndex kv.
Proof.
  intros Hi. unfold applyHandler. simpl. case_test; [lia|].
  assert (lastIncludedIndex (execute kv (default zeroOp c)).1 = lastIncludedIndex kv) as HI.
  { unfold execute, open_session, applyToStateMachine.
    destruct (clientSeq kv !! _); case_test; simpl; repeat case_bool_decide; done. }
  destruct (execute kv (default zeroOp c)) as [kv1 op1]. intros Hrun. do 2 inv_bind Hrun.
  by injection Hrun as <- <-.
Qed.

(** Commands delivered after a snapshot, with stale ones among them. *)
Lemma deliver_commands rf kv ms l rf' kv' :
  (∀ m, m ∈ ms → ∃ c i, m = command_msg c i) →
  map (λ m, default zeroOp (Command m)) (filter (λ m, lastIncludedIndex kv < CommandIndex m) ms) = l →
  deliver rf kv ms = Ret (rf', kv') → kv_view kv' = kv_view (apply_ops kv l).
Proof.
  revert rf kv l. induction ms as [|m ms IH]; intros rf kv l Hm <- Hd; cbn [deliver] in Hd.
  { by injection Hd as <- <-. }
  inv_bind Hd. destruct x as [rf1 kv1]. destruct (Hm m) as (c & i & ->); [by left|].
  assert (∀ m, m ∈ ms → ∃ c i, m = command_msg c i) as Hms by (intros; apply Hm; by right).
  rewrite filter_cons. case_decide as Hi; cbn [CommandIndex command_msg] in Hi.
  - destruct (applyHandler_command _ _ _ _ _ _ Hi Hb) as [Hv HI].
    specialize (IH rf1 kv1 _ Hms eq_refl Hd). rewrite HI in IH. cbn [map]. rewrite IH.
    unfold apply_ops. cbn [foldl Command command_msg].
    assert (∀ l k1 k2, kv_view k1 = kv_view k2 →
      kv_view (foldl (λ kv op, (execute kv op).1) k1 l) = kv_view (foldl (λ kv op, (execute kv op).1) k2 l))
      as Hfold.
    { induction l as [|o l IHl]; intros k1 k2 Hk; simpl; [done|]. apply IHl. by apply execute_view. }
    by apply Hfold.
  - unfold applyHandler in Hb. simpl in Hb. rewrite (proj2 (Z.leb_le _ _)) in Hb by lia.
    injection Hb as <- <-. by apply (IH rf kv).
Qed.
End applier.

Lemma execute_static kv op :
  maxraftstate (execute kv op).1 = maxraftstate kv ∧ waitChan (execute kv op).1 = waitChan kv ∧
  lastIncludedIndex (execute kv op).1 = lastIncludedIndex kv.
Proof.
  unfold execute, open_session, applyToStateMachine.
  destruct (clientSeq kv !! _); case_test; simpl; repeat case_bool_decide; done.
Qed.

Lemma read_persist_view `{Codec (gmap string string * gmap Z Z)} (kv src : KVServer) :
  kv_view (readServerPersistData kv (getServerPersistData src)) = kv_view src ∧
  0 < zlen (getServerPersistData src).
Proof.
  unfold readServerPersistData, getServerPersistData. rewrite gob_decode_encode.
  assert (0 < zlen (gob_encode (kv_view src))) as Hpos.
  { destruct (gob_encode _) eqn:E; [by apply gob_encode_nonempty in E|zlen_lia]. }
  split; [|done]. case_test; [unfold kv_view in Hpos; lia|done].
Qed.

(** ** Theorems *)

(** every operation takes effect exactly once.  Whatever calls the clerks
    repeat and however late a repeated call reaches a leader, after any prefix
    of the log a server holds the map of the reference, in which each
    operation is executed at its first occurrence only, and a Get that comes
    next is answered with the value of that map. *)
Theorem kv_exactly_once (H : history) (l : list Op) (Hreach : hreach H) (Hl : l `prefix_of` h_log H) :
  currentState (apply_ops kv_start l) = kv_spec l ∧
  ∀ op, Optype op = "Get" →
    Value (execute (apply_ops kv_start l) op).2 = map_get "" (kv_spec l) (Key op).
Proof.
  apply hreach_inv in Hreach as [_ _ _ Ho]. destruct Hl as [l' Hl].
  assert (client_ordered l) as Hol.
  { intros l1 op l2 ->. apply (Ho l1 op (l2 ++ l')). by rewrite Hl, <- app_assoc. }
  destruct (apply_ops_spec l Hol) as [Hst _]. split; [done|]. intros op Hop. rewrite <- Hst.
  unfold execute, fill_value. rewrite bool_decide_eq_true_2 by done. case_test; simpl;
    by rewrite open_session_state.
Qed.

(** Client 7 appends once, and the call is logged twice. *)
Definition sample_ck : Clerk := MakeClerk 3 7.
Definition sample_kop : Op := mkOp 7 1 "k" "v" "Append".
Definition sample_history : history :=
  mkHistory (<[7 := (sample_ck, Some (RAppend "k" "v"))]> (<[7 := (sample_ck, None)]> ∅))
    [sample_kop] (([] ++ [sample_kop]) ++ [sample_kop]).

Lemma sample_history_reach : hreach sample_history.
Proof.
  pose (H0 := mkHistory (<[7 := (sample_ck, None)]> ∅) [] []).
  assert (hreach H0) as R0.
  { apply hr_init; [|done..]. simpl.
    intros c ck o [[<- [= <- <-]]|[_ ?]]%lookup_insert_Some; [|done]. split; [done|by exists 3]. }
  pose proof (hr_step _ _ R0 (hs_call H0 7 sample_ck (RAppend "k" "v") eq_refl)) as R1. simpl in R1.
  epose proof (hr_step _ _ R1 (hs_log _ sample_kop _)) as R2. simpl in R2.
  refine (hr_step _ _ R2 (hs_log _ sample_kop _)). by left.
  Unshelve. by left.
Qed.

Lemma kv_exactly_once_witness :
  currentState (apply_ops kv_start (h_log sample_history)) = kv_spec (h_log sample_history) ∧
  map_get "" (kv_spec (h_log sample_history)) "k" = "v"%string.
Proof.
  split; [|vm_compute; reflexivity].
  exact (proj1 (kv_exactly_once sample_history (h_log sample_history) sample_history_reach
                  (reflexivity _))).
Defined.

(** installing a snapshot is as good as executing the log it covers.  A
    server that installs the snapshot another took at index [k], and then
    receives the commands from [k+1] on, with commands the snapshot already
    covers delivered late among them, ends with the state of a server that
    executed everything. *)
Theorem kv_snapshot_equivalent `{Codec (gmap string string * gmap Z Z)} {R} `{RaftService R Op}
    (src kv kv' : KVServer) (rf rf1 rf' : R) (t k : Z) (ms : list (ApplyMsg Op)) (l : list Op)
    (Hinst : rs_CondInstallSnapshot rf t k (getServerPersistData src) = Ret (rf1, true))
    (Hms : ∀ m, m ∈ ms → ∃ c i, m = command_msg c i)
    (Hl : map (λ m, default zeroOp (Command m)) (filter (λ m, k < CommandIndex m) ms) = l)
    (Hd : deliver rf kv (snapshot_msg (getServerPersistData src) t k :: ms) = Ret (rf', kv')) :
  kv_view kv' = kv_view (apply_ops src l).
Proof.
  cbn [deliver] in Hd. unfold applyHandler in Hd. simpl in Hd. rewrite Hinst, !bind_Ret in Hd.
  cbn [negb] in Hd. unfold mret, Go_ret in Hd. rewrite bind_Ret in Hd.
  unfold readServerPersistData, getServerPersistData in Hd. rewrite gob_decode_encode in Hd.
  case_test_in Hd.
  { destruct (gob_encode _) eqn:E; [by apply gob_encode_nonempty in E|zlen_lia]. }
  eapply deliver_commands in Hd; [|done|exact Hl]. rewrite Hd.
  assert (∀ k1 k2, kv_view k1 = kv_view k2 → kv_view (apply_ops k1 l) = kv_view (apply_ops k2 l)) as Hf;
    [|by apply Hf].
  unfold apply_ops. clear. induction l as [|o l IHl]; intros k1 k2 Hk; simpl; [done|].
  apply IHl. by apply execute_view.
Qed.

(** A server with one key, and a follower that installs its snapshot. *)
Definition sample_kv : KVServer := apply_ops kv_start [sample_kop].

#[export] Instance KVOp_countable : Countable Op.
Proof.
  refine (inj_countable' (λ o, (ClientID o, SeqNum o, Key o, Value o, Optype o))
            (λ '(c, s, k, v, t), mkOp c s k v t) _). by intros [].
Defined.

Definition sample_peer : Raft.Raft Op := Raft.Make 3 1 MakePersister 0.

Lemma kv_snapshot_equivalent_witness :
  match deliver sample_peer kv_start
          (snapshot_msg (getServerPersistData sample_kv) 0 4 ::
           [command_msg (Some sample_kop) 3; command_msg (Some (mkOp 7 2 "k" "w" "Append")) 5]) with
  | Ret (_, kv') => kv_view kv' = kv_view (apply_ops sample_kv [mkOp 7 2 "k" "w" "Append"])
  | _ => False
  end.
Proof.
  destruct (deliver _ _ _) as [[rf' kv']| |] eqn:E; [|vm_compute in E; discriminate..].
  destruct (rs_CondInstallSnapshot sample_peer 0 4 (getServerPersistData sample_kv)) as [[rf1 b]| |] eqn:Ei;
    [|vm_compute in Ei; discriminate..].
  assert (b = true) as -> by (vm_compute in Ei; congruence).
  refine (kv_snapshot_equivalent sample_kv kv_start kv' sample_peer rf1 rf' 0 4 _ _ Ei _ _ E).
  - intros m [->|[->|[]%not_elem_of_nil]%elem_of_cons]%elem_of_cons; eauto.
  - reflexivity.
Defined.

(** a server survives a crash.  When the applier has executed the command
    at index [i] and taken a snapshot, a server started from the storage of
    its Raft peer holds the same map and sessions, and its peer goes on
    delivering from the entry after [i]. *)
Theorem kv_crash_restart `{Codec (gmap string string * gmap Z Z)}
    `{Codec (Z * Z * list (Raft.LogEntry Op) * Z * Z)} (rf : Raft.Raft Op) (kv : KVServer)
    (c : option Op) (i n id now : Z)
    (Hw : raft_wf rf) (Hrec : recovers rf) (Hww : wait_wf (waitChan kv))
    (Hi : Raft.lastIncludedIndex rf < i ≤ Raft.commitIndex rf) (Hk : lastIncludedIndex kv < i)
    (Hmax : maxraftstate kv ≠ -1) (Hbig : maxraftstate kv < Raft.GetStateSize rf) :
  ∃ rf' kv', applyHandler rf kv (command_msg c i) = Ret (rf', kv') ∧
    let '(rf2, kv2) := StartKVServer n id (Raft.persister rf') (maxraftstate kv) now in
    kv_view kv2 = kv_view kv' ∧ kv_view kv' = kv_view (execute kv (default zeroOp c)).1 ∧
    Raft.lastApplied rf2 = i ∧ saved rf2 = saved rf'.
Proof.
  unfold applyHandler. simpl. rewrite (proj2 (Z.leb_gt _ _)) by lia.
  destruct (execute_static kv (default zeroOp c)) as (Hm & Hwc & _).
  destruct (execute kv (default zeroOp c)) as [kv1 op1]. simpl in *.
  rewrite Hm, (proj2 (Z.eqb_neq _ _)), (proj2 (Z.ltb_lt _ _)) by done. cbn [negb andb].
  destruct (Snapshot_cases rf i (getServerPersistData kv1) Hw) as (rf' & E & _ & Hcase); [lia|].
  rewrite E, bind_Ret, Hwc.
  destruct (wait_notify_wf (waitChan kv) i op1 Hww) as (w & -> & _). rewrite bind_Ret.
  eexists _, _. split; [done|]. unfold StartKVServer, Raft.GetSnapshot.
  assert (recovers rf') as Hrec'.
  { eapply (run_durable rf (EvSnapshot i (getServerPersistData kv1))); [done|simpl; lia|done..]. }
  destruct Hcase as [[? _]|(_ & HI & _ & _ & _ & _ & _ & Hp & _)]; [lia|].
  destruct (Make_static n id (Raft.persister rf') now) as (_ & _ & _ & _ & ->).
  destruct (Hrec' n id now) as (Hs & _ & Ha & _).
  rewrite Hp. autorewrite with shardkv.
  destruct (read_persist_view (mkKVServer (maxraftstate kv) ∅ empty_waitroom ∅ 0) kv1) as [Hv Hpos].
  rewrite (proj2 (Z.ltb_lt _ _)) by done. rewrite Hp in Hs, Ha. by rewrite Hv, Hs, Ha, HI.
Qed.

(** A peer with two committed commands, and its server. *)
Definition sample_kpeer : Raft.Raft Op :=
  Raft.persist (Raft.mkRaft 3 0 false MakePersister 0 Raft.LEADER
    [Raft.zeroEntry; Raft.mkLogEntry 1 (Some sample_kop) 1] 1 0 1 0 2 [2; 2; 1] [1; 1; -1] 0 0 []).

Lemma sample_kpeer_wf : raft_wf sample_kpeer.
Proof.
  split; try done. split; simpl; try done.
  - intros [|[|i]] e Hi; [lia|by intros [= <-]|done].
  - intros i j Hij. destruct i as [|[|i]], j as [|[|j]]; simpl in *; lia.
Qed.

Lemma kv_crash_restart_witness :
  ∃ rf' kv', applyHandler sample_kpeer (mkKVServer 0 ∅ empty_waitroom ∅ 0)
      (command_msg (Some sample_kop) 1) = Ret (rf', kv') ∧
    let '(rf2, kv2) := StartKVServer 3 0 (Raft.persister rf') 0 9 in kv_view kv2 = kv_view kv'.
Proof.
  destruct (kv_crash_restart sample_kpeer (mkKVServer 0 ∅ empty_waitroom ∅ 0) (Some sample_kop) 1 3 0 9)
    as (rf' & kv' & E & Hst).
  - apply sample_kpeer_wf.
  - apply recovers_persist.
  - apply wait_wf_empty.
  - simpl. lia.
  - simpl. lia.
  - simpl. lia.
  - vm_compute. reflexivity.
  - exists rf', kv'. split; [exact E|]. simpl in Hst |- *.
    destruct (StartKVServer 3 0 (Raft.persister rf') 0 9) as [rf2 kv2]. apply Hst.
Defined.

(** a server never panics in its applier, and keeps its Raft peer and its
    wait channels well formed, for every message Raft can deliver. *)
Theorem kv_applier_safe `{Codec (gmap string string * gmap Z Z)}
    `{Codec (Z * Z * list (Raft.LogEntry Op) * Z * Z)} (rf : Raft.Raft Op) (kv : KVServer) (m : ApplyMsg Op)
    (Hw : raft_wf rf) (Hww : wait_wf (waitChan kv))
    (Hm : (∃ c i, m = command_msg c i ∧ i ≤ Raft.commitIndex rf) ∨
          (∃ d t i, m = snapshot_msg d t i ∧ 0 ≤ t ≤ Raft.currentTerm rf)) :
  ∃ rf' kv', applyHandler rf kv m = Ret (rf', kv') ∧ raft_wf rf' ∧ wait_wf (waitChan kv').
Proof.
  destruct Hm as [(c & i & -> & Hi)|(d & t & i & -> & Ht)]; unfold applyHandler; simpl.
  - case_test; [by eexists _, _|]. destruct (execute_static kv (default zeroOp c)) as (Hm & Hwc & _).
    destruct (execute kv (default zeroOp c)) as [kv1 op1]. simpl in *.
    assert (∃ rf', (if negb (maxraftstate kv1 =? -1) && (maxraftstate kv1 <? Raft.GetStateSize rf)
      then Raft.Snapshot rf i (getServerPersistData kv1) else mret rf) = Ret rf' ∧ raft_wf rf')
      as (rf' & -> & Hw').
    { case_test; [|by eexists]. destruct (Snapshot_cases rf i (getServerPersistData kv1) Hw) as (rf' & -> & ? & _);
        [lia|by eexists]. }
    rewrite bind_Ret, Hwc. destruct (wait_notify_wf (waitChan kv) i op1 Hww) as (w & -> & ? & _).
    rewrite bind_Ret. by eexists _, _.
  - destruct (CondInstallSnapshot_cases rf t i d Hw Ht) as (rf' & b & -> & Hw' & _). rewrite bind_Ret.
    destruct b; simpl; eexists _, _; (split; [done|]); split; try done.
    unfold readServerPersistData. case_test; [done|]. by destruct (gob_decode d) as [[? ?]|].
Qed.

Lemma kv_applier_safe_witness :
  ∃ rf' kv', applyHandler sample_kpeer kv_start (command_msg (Some sample_kop) 1) = Ret (rf', kv') ∧
    raft_wf rf' ∧ wait_wf (waitChan kv').
Proof.
  apply (kv_applier_safe sample_kpeer kv_start (command_msg (Some sample_kop) 1) sample_kpeer_wf wait_wf_empty).
  left. exists (Some sample_kop), 1. split; [reflexivity|simpl; lia].
Defined.

(** a reply is for the client's own operation.  A Get that is accepted
    has logged its operation at the index it waits for; when the entry
    committed at that index is applied, the client is answered with [OK] and
    the value read exactly when the entry carries its client and sequence
    number, and is told to look for another leader otherwise. *)
Theorem kv_get_reply `{Codec (gmap string string * gmap Z Z)} {R} `{RaftService R Op}
    (rf rf1 rf2 rf3 : R) (kv kv1 kv2 kv3 : KVServer) (args : GetArgs) (i ch : Z) (x : Op)
    (Hw : rs_wf rf) (Hww : wait_wf (waitChan kv))
    (Hbegin : Get_begin rf kv args = Ret (rf1, kv1, Some (i, ch)))
    (Hmap : wr_map (waitChan kv2) !! i = Some ch)
    (Hopen : wr_heap (waitChan kv2) !! ch = Some (mkChan None false))
    (Hi : lastIncludedIndex kv2 < i)
    (Happly : applyHandler rf2 kv2 (command_msg (Some x) i) = Ret (rf3, kv3)) :
  rs_command rf1 i = Some (op_of_get args) ∧ wr_map (waitChan kv1) !! i = Some ch ∧
  Get_end args (WReceived (chan_recv (waitChan kv3) ch).2) =
    if bool_decide (op_id x = (ga_ClientID args, ga_SeqNum args))
    then mkGetReply OK (Value (fill_value kv2 x)) else mkGetReply ErrWrongLeader "".
Proof.
  unfold Get_begin, request_begin in Hbegin. destruct (rs_GetState rf) as [t lead] eqn:Hgs.
  destruct lead; [|done]. cbn [negb] in Hbegin.
  destruct (rs_Start_spec rf (op_of_get args) Hw) as (rf' & j & t' & l & E & _ & Hl).
  unfold op_of_get in E. rewrite E, bind_Ret in Hbegin. destruct l; [|done]. cbn [negb] in Hbegin.
  destruct Hl as [_ Hcmd]. destruct (wait_get_wf (waitChan kv) j Hww) as [_ Hreg].
  unfold getWaitCh in Hbegin. destruct (wait_get (waitChan kv) j) as [w c]. injection Hbegin as <- <- <- <-.
  split; [done|]. split; [done|]. revert Happly. unfold applyHandler. simpl.
  rewrite (proj2 (Z.leb_gt _ _)) by lia. destruct (execute_static kv2 x) as (_ & Hwc & _).
  assert ((execute kv2 x).2 = fill_value kv2 x) as Hfill.
  { unfold execute, fill_value. rewrite open_session_state. case_test; done. }
  destruct (execute kv2 x) as [kv4 op4]. simpl in *. subst op4. intros Hrun. inv_bind Hrun. rewrite Hwc in Hrun.
  unfold wait_notify, chan_offer in Hrun. rewrite Hmap, Hopen in Hrun. simpl in Hrun.
  injection Hrun as <- <-. simpl. unfold chan_recv. simpl. rewrite lookup_insert_eq. simpl.
  destruct (fill_value_id kv2 x) as ([= -> ->] & _). unfold op_id.
  destruct (Z.eqb_spec (SeqNum x) (ga_SeqNum args)) as [->|Hs]; simpl;
    [destruct (Z.eqb_spec (ClientID x) (ga_ClientID args)) as [->|Hc]|]; simpl.
  - by rewrite bool_decide_eq_true_2.
  - rewrite bool_decide_eq_false_2; [done|congruence].
  - rewrite bool_decide_eq_false_2; [done|congruence].
Qed.

Definition sample_get : GetArgs := mkGetArgs "k" 9 1.

(** The peer, the server waiting on the channel, and the server after the
    entry was applied. *)
Definition sample_started : Raft.Raft Op :=
  match Get_begin sample_kpeer kv_start sample_get with Ret (rf, _, _) => rf | _ => sample_kpeer end.
Definition sample_waiting : KVServer :=
  mkKVServer (-1) ∅ (mkWaitroom {[0 := mkChan None false]} 1 {[2 := 0]}) ∅ 0.
Definition sample_served : KVServer :=
  match applyHandler sample_started sample_waiting (command_msg (Some (op_of_get sample_get)) 2) with
  | Ret (_, kv) => kv | _ => sample_waiting end.

Lemma kv_get_reply_witness :
  Get_end sample_get (WReceived (chan_recv (waitChan sample_served) 0).2) = mkGetReply OK "".
Proof.
  refine (proj2 (proj2 (kv_get_reply sample_kpeer sample_started sample_started sample_started kv_start
    sample_waiting sample_waiting sample_served sample_get 2 0 (op_of_get sample_get)
    sample_kpeer_wf wait_wf_empty _ eq_refl eq_refl eq_refl _))); vm_compute; reflexivity.
Defined.
