(* ===== verification/ShardKV.v ===== *)
(** * A server of a replica group (shardkv/server.go, common.go)

    The server holds the key/value pairs of the shards its group owns, the
    state of every shard, and the current and previous configuration.
    [apply_command] is the part of the applier between taking and releasing
    the lock, with its five kinds of commands; [applyHandler] adds the snapshot
    and the lookup of the wait channel, and [notify] the send that follows
    outside the lock.  The background loops ([ShardsRequester],
    [ShardsConfirm], [getLastConfig], [RaftLogChecker]) are split where they
    release the lock to make a call. *)

From S2P Require Import Prelude Persister Chan RaftApi Raft ShardConfig.

Module ShardKV.

Definition OK : string := "OK".
Definition ErrNoKey : string := "ErrNoKey".
Definition ErrWrongGroup : string := "ErrWrongGroup".
Definition ErrWrongLeader : string := "ErrWrongLeader".
Definition ErrConfig : string := "ErrConfig".

Definition KVOperation : Z := 1.
Definition ConfigOperation : Z := 2.
Definition ShardRequestOperation : Z := 3.
Definition ShardConfirmOperation : Z := 4.
Definition NoOperation : Z := 5.

Definition SERVING : Z := 1.      (* the shard is served in this config *)
Definition NO_SERVING : Z := 2.   (* the shard is not served in this config *)
Definition PULLING : Z := 3.      (* to be pulled from the group of prevConfig *)
Definition BEPULLED : Z := 4.     (* to be pulled by the group of config *)

Record Op := mkOp {
  ClientID : Z;
  SeqNum : Z;
  Key : string;
  Value : string;
  Optype : string
}.

(** [Op{}], what a failed type assertion yields. *)
Definition zeroOp : Op := mkOp 0 0 "" "" "".

(** [ConfigMsg] has the fields of [shardctrler.Config]. *)
Record ShardRequestMsg := mkShardRequestMsg {
  srm_ConfigNum : Z;
  srm_ShardIndex : Z;
  srm_GID : Z;
  srm_ShardData : gmap string string;
  srm_ClientSeqNum : gmap Z Z
}.

Record ShardConfirmMsg := mkShardConfirmMsg {
  scm_ConfigNum : Z;
  scm_ShardIndex : Z;
  scm_ShardState : Z
}.

(** The dynamic type of [CommandMsg.Data]. *)
Inductive data :=
| DNil
| DOp (op : Op)
| DConfig (cfg : Config)
| DShardRequest (m : ShardRequestMsg)
| DShardConfirm (m : ShardConfirmMsg).

Record CommandMsg := mkCommandMsg { CommandType : Z; Data : data }.

(** [CommandMsg{}]. *)
Definition zeroMsg : CommandMsg := mkCommandMsg 0 DNil.

Record ShardRequestArgs := mkShardRequestArgs { sra_ConfigNum : Z; sra_ShardIndex : Z; sra_GID : Z }.

Record ShardRequestReply := mkShardRequestReply {
  srr_Err : string;
  srr_ConfigNum : Z;
  srr_ShardIndex : Z;
  srr_ShardData : gmap string string;
  srr_ClientSeqNum : gmap Z Z
}.

Record ShardConfirmArgs := mkShardConfirmArgs { sca_ConfigNum : Z; sca_ShardIndex : Z }.

Record ShardConfirmReply := mkShardConfirmReply {
  scr_Err : string;
  scr_ConfigNum : Z;
  scr_ShardIndex : Z;
  scr_ShardState : Z
}.

Record PutAppendArgs := mkPutAppendArgs {
  pa_Key : string; pa_Value : string; pa_Op : string; pa_ClientID : Z; pa_SeqNum : Z
}.

Record GetArgs := mkGetArgs { ga_Key : string; ga_ClientID : Z; ga_SeqNum : Z }.

Record GetReply := mkGetReply { gr_Err : string; gr_Value : string }.

Record ShardKV := mkShardKV {
  maxraftstate : Z;
  gid : Z;
  currentState : gmap string string;
  waitChan : waitroom CommandMsg;
  clientSeq : gmap Z Z;
  lastIncludedIndex : Z;
  config : Config;
  prevConfig : Config;
  shardsState : list Z
}.

(** Assignments to the fields of [*kv]. *)
Definition set_currentState (m : gmap string string) (kv : ShardKV) : ShardKV :=
  mkShardKV (maxraftstate kv) (gid kv) m (waitChan kv) (clientSeq kv) (lastIncludedIndex kv)
    (config kv) (prevConfig kv) (shardsState kv).
Definition set_waitChan (w : waitroom CommandMsg) (kv : ShardKV) : ShardKV :=
  mkShardKV (maxraftstate kv) (gid kv) (currentState kv) w (clientSeq kv) (lastIncludedIndex kv)
    (config kv) (prevConfig kv) (shardsState kv).
Definition set_clientSeq (m : gmap Z Z) (kv : ShardKV) : ShardKV :=
  mkShardKV (maxraftstate kv) (gid kv) (currentState kv) (waitChan kv) m (lastIncludedIndex kv)
    (config kv) (prevConfig kv) (shardsState kv).
Definition set_lastIncludedIndex (i : Z) (kv : ShardKV) : ShardKV :=
  mkShardKV (maxraftstate kv) (gid kv) (currentState kv) (waitChan kv) (clientSeq kv) i
    (config kv) (prevConfig kv) (shardsState kv).
Definition set_configs (cur prev : Config) (kv : ShardKV) : ShardKV :=
  mkShardKV (maxraftstate kv) (gid kv) (currentState kv) (waitChan kv) (clientSeq kv)
    (lastIncludedIndex kv) cur prev (shardsState kv).
Definition set_shardsState (l : list Z) (kv : ShardKV) : ShardKV :=
  mkShardKV (maxraftstate kv) (gid kv) (currentState kv) (waitChan kv) (clientSeq kv)
    (lastIncludedIndex kv) (config kv) (prevConfig kv) l.

(** The shard of a key: its first byte modulo the number of shards. *)
Definition key2shard (key : string) : Z :=
  match key with
  | EmptyString => 0
  | String a _ => Z.of_N (Ascii.N_of_ascii a) mod NShards
  end.

(** ** Shard states *)
Definition shardsStateReady (kv : ShardKV) : bool :=
  forallb (λ st, (st =? NO_SERVING) || (st =? SERVING)) (shardsState kv).

Definition isWrongGroup (kv : ShardKV) (shardIndex : Z) : Go bool :=
  g ← index (Shards (config kv)) shardIndex; mret (negb (g =? gid kv)).

(** The new state of shard [i], [None] to keep the one it has. *)
Definition newShardState (kv : ShardKV) (i : Z) : Go (option Z) :=
  cur ← index (Shards (config kv)) i;
  if Num (prevConfig kv) =? 0 then mret (if cur =? gid kv then Some SERVING else None)
  else
    prev ← index (Shards (prevConfig kv)) i;
    mret (Some (if (prev =? gid kv) && (cur =? gid kv) then SERVING
                else if negb (prev =? gid kv) && (cur =? gid kv) then PULLING
                else if (prev =? gid kv) && negb (cur =? gid kv) then BEPULLED
                else NO_SERVING)).

Definition updateShardsState (kv : ShardKV) : Go ShardKV :=
  foldl (λ acc i, kv ← acc;
           o ← newShardState kv i;
           match o with
           | None => mret kv
           | Some st => l ← set_index (shardsState kv) i st; mret (set_shardsState l kv)
           end)
        (Ret kv) (seqZ 0 NShards).

(** ** Moving shards *)
Definition mergeShardData (kv : ShardKV) (shardIndex : Z) (shardData : gmap string string) : Go ShardKV :=
  let m := map_fold (λ key value m, <[key := value]> m) (currentState kv) shardData in
  l ← set_index (shardsState kv) shardIndex SERVING;
  mret (set_shardsState l (set_currentState m kv)).

Definition mergeClientSeqNum (kv : ShardKV) (clientSeqNum : gmap Z Z) : ShardKV :=
  set_clientSeq (map_fold (λ key value m, if map_get 0 m key <? value then <[key := value]> m else m)
                   (clientSeq kv) clientSeqNum) kv.

(** The pairs of one shard. *)
Definition shard_data (m : gmap string string) (shardIndex : Z) : gmap string string :=
  map_fold (λ key value data, if key2shard key =? shardIndex then <[key := value]> data else data) ∅ m.

(** Deleting the pairs of one shard. *)
Definition drop_shard (m : gmap string string) (shardIndex : Z) : gmap string string :=
  map_fold (λ key _ rest, if key2shard key =? shardIndex then delete key rest else rest) m m.

(** ** The state machine *)
Definition applyToStateMachine (kv : ShardKV) (appliedOp : Op) : ShardKV :=
  let kv := set_clientSeq (<[ClientID appliedOp := SeqNum appliedOp]> (clientSeq kv)) kv in
  if bool_decide (Optype appliedOp = "Put") then
    set_currentState (<[Key appliedOp := Value appliedOp]> (currentState kv)) kv
  else if bool_decide (Optype appliedOp = "Append") then
    let currValue := map_get "" (currentState kv) (Key appliedOp) in
    set_currentState (<[Key appliedOp := (currValue ++ Value appliedOp)%string]> (currentState kv)) kv
  else kv.

(** [appliedOp.Value = kv.currentState[appliedOp.Key]] for a Get. *)
Definition fill_value (kv : ShardKV) (op : Op) : Op :=
  if bool_decide (Optype op = "Get") then
    mkOp (ClientID op) (SeqNum op) (Key op) (map_get "" (currentState kv) (Key op)) (Optype op)
  else op.

Definition open_session (kv : ShardKV) (client : Z) : ShardKV :=
  match clientSeq kv !! client with
  | Some _ => kv
  | None => set_clientSeq (<[client := 0]> (clientSeq kv)) kv
  end.

(** A client operation, once the shard is known to be served. *)
Definition execute (kv : ShardKV) (op : Op) : ShardKV * Op :=
  let kv1 := open_session kv (ClientID op) in
  let appliedOp := fill_value kv1 op in
  if SeqNum op <=? map_get 0 (clientSeq kv1) (ClientID op) then (kv1, appliedOp)
  else (applyToStateMachine kv1 appliedOp, appliedOp).

Definition apply_op (kv : ShardKV) (commandIndex : Z) (op : Op) : Go (ShardKV * option CommandMsg) :=
  if commandIndex <=? lastIncludedIndex kv then mret (kv, None)
  else
    st ← index (shardsState kv) (key2shard (Key op));
    if negb (st =? SERVING) then mret (kv, None)
    else let '(kv', appliedOp) := execute kv op in
         mret (kv', Some (mkCommandMsg KVOperation (DOp appliedOp))).

Definition apply_config (kv : ShardKV) (commandIndex : Z) (cfg : Config)
  : Go (ShardKV * option CommandMsg) :=
  if commandIndex <=? lastIncludedIndex kv then mret (kv, None)
  else
    kv' ← (if (Num (config kv) =? 0) || (Num cfg =? Num (config kv) + 1)
           then updateShardsState (set_configs cfg (config kv) kv) else mret kv);
    mret (kv', Some (mkCommandMsg ConfigOperation (DConfig cfg))).

Definition apply_shard_request (kv : ShardKV) (m : ShardRequestMsg) : Go (ShardKV * option CommandMsg) :=
  if negb (srm_ConfigNum m =? Num (config kv)) then mret (kv, None)
  else
    st ← index (shardsState kv) (srm_ShardIndex m);
    kv' ← (if st =? PULLING then
             kv1 ← mergeShardData kv (srm_ShardIndex m) (srm_ShardData m);
             mret (mergeClientSeqNum kv1 (srm_ClientSeqNum m))
           else mret kv);
    mret (kv', Some (mkCommandMsg ShardRequestOperation (DShardRequest m))).

Definition apply_shard_confirm (kv : ShardKV) (m : ShardConfirmMsg) : Go (ShardKV * option CommandMsg) :=
  if negb (scm_ConfigNum m =? Num (config kv)) then mret (kv, None)
  else
    st ← index (shardsState kv) (scm_ShardIndex m);
    kv' ← (if st =? BEPULLED then
             l ← set_index (shardsState kv) (scm_ShardIndex m) NO_SERVING;
             mret (set_currentState (drop_shard (currentState kv) (scm_ShardIndex m))
                     (set_shardsState l kv))
           else mret kv);
    mret (kv', Some (mkCommandMsg ShardConfirmOperation (DShardConfirm m))).

(** The switch on the kind of command.  [None]: the loop continues at once;
    [Some msg]: it goes on to the snapshot and the wait channel. *)
Definition apply_command (kv : ShardKV) (commandIndex : Z) (c : CommandMsg)
  : Go (ShardKV * option CommandMsg) :=
  if CommandType c =? KVOperation then
    apply_op kv commandIndex (match Data c with DOp op => op | _ => zeroOp end)
  else if CommandType c =? ConfigOperation then
    match Data c with DConfig cfg => apply_config kv commandIndex cfg | _ => Panic PType end
  else if CommandType c =? ShardRequestOperation then
    match Data c with DShardRequest m => apply_shard_request kv m | _ => Panic PType end
  else if CommandType c =? ShardConfirmOperation then
    match Data c with DShardConfirm m => apply_shard_confirm kv m | _ => Panic PType end
  else if CommandType c =? NoOperation then mret (kv, None)
  else mret (kv, Some zeroMsg).

(** ** Persistence *)
Section server.
Context `{Codec (gmap string string * gmap Z Z * list Z * Config * Config)}.

Definition getServerPersistData (kv : ShardKV) : bytes :=
  gob_encode (currentState kv, clientSeq kv, shardsState kv, config kv, prevConfig kv).

Definition readServerPersistData (kv : ShardKV) (bs : bytes) : ShardKV :=
  if zlen bs <? 1 then kv
  else match gob_decode bs with
       | None => kv
       | Some (st, seq, states, cur, prev) =>
           set_configs cur prev (set_shardsState states (set_clientSeq seq (set_currentState st kv)))
       end.

Section raft.
Context {R : Type} `{RaftService R CommandMsg}.

(** One pass of the [applyHandler] loop, up to the release of the lock; the
    message for the wait channel filed under the index, if there is one. *)
Definition applyHandler (rf : R) (kv : ShardKV) (applyMsg : ApplyMsg CommandMsg)
  : Go (R * ShardKV * option (Z * CommandMsg)) :=
  if SnapshotValid applyMsg then
    '(rf1, installed) ← rs_CondInstallSnapshot rf (SnapshotTerm applyMsg) (SnapshotIndex applyMsg)
                          (Snapshot applyMsg);
    if negb installed then mret (rf1, kv, None)
    else mret (rf1, set_lastIncludedIndex (SnapshotIndex applyMsg)
                      (readServerPersistData kv (Snapshot applyMsg)), None)
  else
    match Command applyMsg with
    | None => Panic PType
    | Some commandMsg =>
        '(kv1, o) ← apply_command kv (CommandIndex applyMsg) commandMsg;
        match o with
        | None => mret (rf, kv1, None)
        | Some msg =>
            rf1 ← (if negb (maxraftstate kv1 =? -1) && (maxraftstate kv1 <? rs_GetStateSize rf)
                   then rs_Snapshot rf (CommandIndex applyMsg) (getServerPersistData kv1) else mret rf);
            mret (rf1, kv1, (λ ch, (ch, msg)) <$> wr_map (waitChan kv1) !! CommandIndex applyMsg)
        end
    end.

(** The send on the wait channel. *)
Definition notify (kv : ShardKV) (o : option (Z * CommandMsg)) : Go ShardKV :=
  match o with
  | None => mret kv
  | Some (ch, msg) => w ← chan_offer (waitChan kv) ch msg; mret (set_waitChan w kv)
  end.

Definition getWaitCh (kv : ShardKV) (i : Z) : ShardKV * Z :=
  let '(w, c) := wait_get (waitChan kv) i in (set_waitChan w kv, c).

(** The part [Get] and [PutAppend] share, up to the wait: an error, or the
    index and the channel the request waits on.  [kv'] is the server when the
    lock is taken again after [Start]. *)
Definition request_begin (rf : R) (kv kv' : ShardKV) (key : string) (op : Op)
  : Go (R * ShardKV * (string + Z * Z)) :=
  let '(_, isLeader) := rs_GetState rf in
  if negb isLeader then mret (rf, kv', inl ErrWrongLeader)
  else
    wrong ← isWrongGroup kv (key2shard key);
    if (wrong : bool) then mret (rf, kv', inl ErrWrongGroup)
    else
      '(rf', (i, _, isLeader')) ← rs_Start rf (mkCommandMsg KVOperation (DOp op));
      if negb isLeader' then mret (rf', kv', inl ErrWrongLeader)
      else
        wrong' ← isWrongGroup kv' (key2shard key);
        if (wrong' : bool) then mret (rf', kv', inl ErrWrongGroup)
        else let '(kv2, waitCh) := getWaitCh kv' i in mret (rf', kv2, inr (i, waitCh)).

Definition Get_begin (rf : R) (kv kv' : ShardKV) (args : GetArgs) :=
  request_begin rf kv kv' (ga_Key args)
    (mkOp (ga_ClientID args) (ga_SeqNum args) (ga_Key args) "" "Get").

Definition PutAppend_begin (rf : R) (kv kv' : ShardKV) (args : PutAppendArgs) :=
  request_begin rf kv kv' (pa_Key args)
    (mkOp (pa_ClientID args) (pa_SeqNum args) (pa_Key args) (pa_Value args) (pa_Op args)).

(** ** Calls from other groups *)

Definition set_srr_Err (e : string) (r : ShardRequestReply) : ShardRequestReply :=
  mkShardRequestReply e (srr_ConfigNum r) (srr_ShardIndex r) (srr_ShardData r) (srr_ClientSeqNum r).

(** A server that is not leader notes [ErrWrongLeader] and goes on. *)
Definition ShardsRequestHandler (rf : R) (kv : ShardKV) (args : ShardRequestArgs) : Go ShardRequestReply :=
  let '(_, isLeader) := rs_GetState rf in
  let reply := mkShardRequestReply "" 0 0 ∅ ∅ in
  let reply := if negb isLeader then set_srr_Err ErrWrongLeader reply else reply in
  if negb (sra_ConfigNum args =? Num (config kv)) then mret (set_srr_Err ErrConfig reply)
  else
    st ← index (shardsState kv) (sra_ShardIndex args);
    if st =? BEPULLED then
      mret (mkShardRequestReply OK (sra_ConfigNum args) (sra_ShardIndex args)
              (shard_data (currentState kv) (sra_ShardIndex args))
              (map_fold (λ key value m, <[key := value]> m) ∅ (clientSeq kv)))
    else mret (set_srr_Err ErrWrongGroup reply).

Definition ShardsConfirmHandler (rf : R) (kv : ShardKV) (args : ShardConfirmArgs) : Go ShardConfirmReply :=
  let '(_, isLeader) := rs_GetState rf in
  if negb isLeader then mret (mkShardConfirmReply ErrWrongLeader 0 0 0)
  else if Num (config kv) <? sca_ConfigNum args then mret (mkShardConfirmReply ErrConfig 0 0 0)
  else
    served ← (if Num (config kv) =? sca_ConfigNum args then
                st ← index (shardsState kv) (sca_ShardIndex args); mret (st =? SERVING)
              else mret false);
    if (served : bool) || (sca_ConfigNum args <? Num (config kv)) then
      mret (mkShardConfirmReply OK (Num (config kv)) (sca_ShardIndex args) SERVING)
    else mret (mkShardConfirmReply ErrWrongLeader 0 0 0).
End raft.
End server.

(** What ends the wait. *)
Inductive wake := WTimeout | WReceived (r : received CommandMsg).

Definition Get_end (args : GetArgs) (ev : wake) : Go GetReply :=
  match ev with
  | WReceived (RValue commandMsg) =>
      if negb (CommandType commandMsg =? KVOperation) then mret (mkGetReply ErrWrongLeader "")
      else match Data commandMsg with
           | DOp applyOp =>
               if (SeqNum applyOp =? ga_SeqNum args) && (ClientID applyOp =? ga_ClientID args)
               then mret (mkGetReply OK (Value applyOp)) else mret (mkGetReply ErrWrongLeader "")
           | _ => Panic PType
           end
  | _ => mret (mkGetReply ErrWrongLeader "")
  end.

(** A receive from a closed channel yields [CommandMsg{}]. *)
Definition PutAppend_end (args : PutAppendArgs) (ev : wake) : Go string :=
  match ev with
  | WReceived (RValue commandMsg) =>
      if negb (CommandType commandMsg =? KVOperation) then mret ErrWrongLeader
      else match Data commandMsg with
           | DOp applyOp =>
               if (SeqNum applyOp =? pa_SeqNum args) && (ClientID applyOp =? pa_ClientID args)
               then mret OK else mret ErrWrongLeader
           | _ => Panic PType
           end
  | _ => mret ErrWrongLeader
  end.

(** The goroutine deferred by a receive: it closes the channel and drops it
    from the map. *)
Definition request_cleanup (kv : ShardKV) (i waitCh : Z) : Go ShardKV :=
  w ← wait_release (waitChan kv) i waitCh; mret (set_waitChan w kv).

(** ** The background loops *)

(** The shards in a given state, in order. *)
Definition shards_in_state (kv : ShardKV) (st : Z) : Go (list Z) :=
  foldl (λ acc i, l ← acc; x ← index (shardsState kv) i; mret (if x =? st then l ++ [i] else l))
        (Ret []) (seqZ 0 NShards).

(** One pass of [ShardsRequester]: the calls a leader makes, with the group
    they are addressed to and the group's servers.  A group the previous
    configuration does not know is skipped.  [num] is [kv.config.Num], which
    is read for the arguments after the lock was released. *)
Definition ShardsRequester (kv : ShardKV) (num : Z) : Go (list (Z * list string * ShardRequestArgs)) :=
  pullingShards ← shards_in_state kv PULLING;
  let serversCopy := GetGroupMapCopy (Groups (prevConfig kv)) in
  shardsCopy ← GetShardsCopy (Shards (prevConfig kv));
  foldl (λ acc i, l ← acc;
           targetGID ← index shardsCopy i;
           mret (match serversCopy !! targetGID with
                 | Some servers =>
                     l ++ [(targetGID, servers, mkShardRequestArgs num i (gid kv))]
                 | None => l
                 end))
        (Ret []) pullingShards.

(** What the requester does with a reply: propose the data, try the next
    server, or return without releasing the lock. *)
Inductive requester_step := RqStart (c : CommandMsg) | RqNext | RqLockHeld.

Definition ShardsRequester_reply (kv : ShardKV) (shardIndex : Z) (args : ShardRequestArgs)
    (reply : option ShardRequestReply) : requester_step :=
  match reply with
  | None => RqNext
  | Some reply =>
      if bool_decide (srr_Err reply = OK) && (srr_ConfigNum reply =? Num (config kv)) then
        if negb (srr_ShardIndex reply =? shardIndex) then RqLockHeld
        else RqStart (mkCommandMsg ShardRequestOperation
               (DShardRequest (mkShardRequestMsg (sra_ConfigNum args) (sra_ShardIndex args)
                  (sra_GID args) (srr_ShardData reply) (srr_ClientSeqNum reply))))
      else RqNext
  end.

(** One pass of [ShardsConfirm]: the groups asked are those of the current
    configuration; [num] as for [ShardsRequester]. *)
Definition ShardsConfirm (kv : ShardKV) (num : Z) : Go (list (Z * list string * ShardConfirmArgs)) :=
  bePulledShards ← shards_in_state kv BEPULLED;
  let serversCopy := GetGroupMapCopy (Groups (config kv)) in
  shardsCopy ← GetShardsCopy (Shards (config kv));
  foldl (λ acc i, l ← acc;
           targetGID ← index shardsCopy i;
           mret (match serversCopy !! targetGID with
                 | Some servers => l ++ [(targetGID, servers, mkShardConfirmArgs num i)]
                 | None => l
                 end))
        (Ret []) bePulledShards.

Definition ShardsConfirm_reply (kv : ShardKV) (args : ShardConfirmArgs) (reply : option ShardConfirmReply)
  : option CommandMsg :=
  match reply with
  | None => None
  | Some reply =>
      if bool_decide (scr_Err reply = OK) && (Num (config kv) <=? scr_ConfigNum reply) then
        Some (mkCommandMsg ShardConfirmOperation
          (DShardConfirm (mkShardConfirmMsg (sca_ConfigNum args) (sca_ShardIndex args) (scr_ShardState reply))))
      else None
  end.

(** [getLastConfig] under the lock: the number of the configuration to ask
    for, given the latest one, or [None] to wait. *)
Definition getLastConfig_target (kv : ShardKV) (newConfig : Config) : option Z :=
  let allShardsReady := if Num (config kv) =? 0 then true else shardsStateReady kv in
  let needToUpdate := Num (config kv) <? Num newConfig in
  if negb needToUpdate || negb allShardsReady then None else Some (Num (config kv) + 1).

(** The proposal for the configuration the controller returned. *)
Definition getLastConfig_msg (newConfig : Config) : CommandMsg :=
  mkCommandMsg ConfigOperation (DConfig newConfig).

Section start.
Context `{Codec (gmap string string * gmap Z Z * list Z * Config * Config)}.
Context `{Codec (Z * Z * list (Raft.LogEntry CommandMsg) * Z * Z)}.

(** The one check [RaftLogChecker] makes. *)
Definition RaftLogChecker (rf : Raft.Raft CommandMsg) : Go (Raft.Raft CommandMsg) :=
  needEmptyLog ← Raft.NeedEmptyLogEntry rf;
  if (needEmptyLog : bool) then r ← Raft.Start rf (mkCommandMsg NoOperation DNil); mret r.1 else mret rf.

(** The server before a snapshot is read. *)
Definition newServer (maxraftstate gid : Z) : ShardKV :=
  mkShardKV maxraftstate gid ∅ empty_waitroom ∅ 0 emptyConfig emptyConfig
    (replicate (Z.to_nat NShards) NO_SERVING).

Definition StartServer (npeers id : Z) (persister : Persister) (maxraftstate gid now : Z)
  : Raft.Raft CommandMsg * ShardKV :=
  let rf := Raft.Make npeers id persister now in
  let kv := newServer maxraftstate gid in
  let snapshot := Raft.GetSnapshot rf in
  (rf, if 0 <? zlen snapshot then readServerPersistData kv snapshot else kv).
End start.

End ShardKV.
