(* ===== verification/ShardKVSpec.v ===== *)
(** * What a server of a replica group guarantees on its own

    The invariant [shard_wf] relates the state of each shard to the two
    configurations and to the keys the server holds; every command keeps it.
    The messages that move shards are idempotent, readiness for the next
    configuration is stable, and a transfer is exact. *)

From S2P Require Import Prelude Persister Chan RaftApi Raft ShardConfig Rebalance ShardCtrlerSpec ShardKV.
Import ShardKV.

(** ** Maps *)
Lemma shard_data_lookup m i k :
  shard_data m i !! k = if key2shard k =? i then m !! k else None.
Proof.
  unfold shard_data. revert k.
  apply (map_fold_weak_ind (λ r m, ∀ k, r !! k = if key2shard k =? i then m !! k else None)).
  - intros k. rewrite !lookup_empty. by case_test.
  - intros j x m' r Hj IH k. destruct (decide (j = k)) as [->|Hne].
    + rewrite lookup_insert_eq. destruct (key2shard k =? i) eqn:E; [by rewrite lookup_insert_eq|].
      by rewrite IH, E.
    + rewrite (lookup_insert_ne m') by done. destruct (key2shard j =? i);
        [rewrite lookup_insert_ne by done|]; apply IH.
Qed.

Lemma drop_shard_lookup m i k :
  drop_shard m i !! k = if key2shard k =? i then None else m !! k.
Proof.
  assert (∀ k, drop_shard m i !! k =
    match m !! k with Some _ => if key2shard k =? i then None else m !! k | None => m !! k end) as Hd.
  { unfold drop_shard.
    apply (map_fold_weak_ind (λ r m', ∀ k, r !! k =
      match m' !! k with Some _ => if key2shard k =? i then None else m !! k | None => m !! k end)).
    - intros j. by rewrite lookup_empty.
    - intros j x m' r Hj IH l. destruct (decide (j = l)) as [->|Hne].
      + rewrite lookup_insert_eq. destruct (key2shard l =? i) eqn:E; [by rewrite lookup_delete_eq|].
        by rewrite IH, Hj.
      + rewrite (lookup_insert_ne m') by done. destruct (key2shard j =? i);
          [rewrite lookup_delete_ne by done|]; apply IH. }
  rewrite Hd. destruct (m !! k); [done|]. by case_test.
Qed.

Lemma map_fold_insert_lookup {K} `{Countable K} {V} (base m : gmap K V) k :
  map_fold (λ key value r, <[key := value]> r) base m !! k =
  match m !! k with Some v => Some v | None => base !! k end.
Proof.
  revert k. apply (map_fold_weak_ind (λ r m, ∀ k, r !! k =
    match m !! k with Some v => Some v | None => base !! k end)).
  - intros k. by rewrite lookup_empty.
  - intros j x m' r Hj IH k. destruct (decide (j = k)) as [->|Hne].
    + by rewrite !lookup_insert_eq.
    + rewrite !lookup_insert_ne by done. apply IH.
Qed.

Lemma map_fold_insert_copy {K} `{Countable K} {V} (m : gmap K V) :
  map_fold (λ key value r, <[key := value]> r) ∅ m = m.
Proof. apply map_eq. intros k. rewrite map_fold_insert_lookup, lookup_empty. by destruct (m !! k). Qed.

Lemma mergeClientSeqNum_get kv m k :
  map_get 0 (clientSeq (mergeClientSeqNum kv m)) k =
  match m !! k with
  | Some v => Z.max (map_get 0 (clientSeq kv) k) v
  | None => map_get 0 (clientSeq kv) k
  end.
Proof.
  unfold mergeClientSeqNum. simpl. revert k.
  apply (map_fold_weak_ind (λ r m, ∀ k, map_get 0 r k =
    match m !! k with
    | Some v => Z.max (map_get 0 (clientSeq kv) k) v | None => map_get 0 (clientSeq kv) k end)).
  - intros k. by rewrite lookup_empty.
  - intros j x m' r Hj IH k. pose proof (IH j) as IHj. rewrite Hj in IHj.
    destruct (decide (j = k)) as [<-|Hne].
    + rewrite lookup_insert_eq. case_test; [rewrite map_get_insert_eq; lia|lia].
    + rewrite lookup_insert_ne by done. rewrite <- IH. case_test; [|done]. by rewrite map_get_insert_ne.
Qed.

Lemma key2shard_range k : 0 ≤ key2shard k < NShards.
Proof. destruct k; simpl; [done|]. by apply Z.mod_pos_bound. Qed.

(** ** The invariant *)

(** The owner of a shard in a configuration. *)
Definition owner (c : Config) (s : Z) : Z := nth (Z.to_nat s) (Shards c) 0.

(** The state of a shard. *)
Definition sstate (kv : ShardKV) (s : Z) : Z := nth (Z.to_nat s) (shardsState kv) 0.

(** The server holds no key of the shard. *)
Definition no_keys (kv : ShardKV) (s : Z) : Prop :=
  ∀ k, key2shard k = s → currentState kv !! k = None.

Inductive shard_ok (kv : ShardKV) (s : Z) : Prop :=
| so_serving : sstate kv s = SERVING → owner (config kv) s = gid kv → Num (config kv) ≠ 0 →
    shard_ok kv s
| so_idle : sstate kv s = NO_SERVING → (Num (config kv) ≠ 0 → owner (config kv) s ≠ gid kv) →
    no_keys kv s → shard_ok kv s
| so_pulling : sstate kv s = PULLING → owner (config kv) s = gid kv → owner (prevConfig kv) s ≠ gid kv →
    Num (prevConfig kv) ≠ 0 → Num (config kv) ≠ 0 → no_keys kv s → shard_ok kv s
| so_leaving : sstate kv s = BEPULLED → owner (config kv) s ≠ gid kv → owner (prevConfig kv) s = gid kv →
    Num (prevConfig kv) ≠ 0 → Num (config kv) ≠ 0 → shard_ok kv s.

Record shard_wf (kv : ShardKV) : Prop := {
  sw_states : length (shardsState kv) = Z.to_nat NShards;
  sw_cur : length (Shards (config kv)) = Z.to_nat NShards;
  sw_prev : length (Shards (prevConfig kv)) = Z.to_nat NShards;
  sw_num : Num (config kv) = 0 ∨ Num (config kv) = Num (prevConfig kv) + 1;
  sw_pos : 0 ≤ Num (config kv) ∧ (Num (config kv) ≠ 0 → 0 ≤ Num (prevConfig kv));
  sw_shard : ∀ s, 0 ≤ s < NShards → shard_ok kv s
}.

(** The commands the groups log: of the type they say, about an existing shard,
    with data of that shard only; a configuration is complete and numbered,
    and is the first one or follows one whose moves are finished. *)
Definition command_ok (kv : ShardKV) (c : CommandMsg) : Prop :=
  if CommandType c =? KVOperation then True
  else if CommandType c =? ConfigOperation then
    ∃ cfg, Data c = DConfig cfg ∧ length (Shards cfg) = Z.to_nat NShards ∧
      (Num (config kv) = 0 → Num cfg = 1) ∧
      (Num cfg = Num (config kv) + 1 → shardsStateReady kv = true)
  else if CommandType c =? ShardRequestOperation then
    ∃ m, Data c = DShardRequest m ∧ 0 ≤ srm_ShardIndex m < NShards ∧
      ∀ k, is_Some (srm_ShardData m !! k) → key2shard k = srm_ShardIndex m
  else if CommandType c =? ShardConfirmOperation then
    ∃ m, Data c = DShardConfirm m ∧ 0 ≤ scm_ShardIndex m < NShards
  else True.

(** ** The replicated state *)
Definition skv_view (kv : ShardKV) :=
  (gid kv, currentState kv, clientSeq kv, config kv, prevConfig kv, shardsState kv).

Lemma index_nth (l : list Z) i : 0 ≤ i < zlen l → index l i = Ret (nth (Z.to_nat i) l 0).
Proof.
  intros Hi. destruct (index_safe l i Hi) as [x Hx]. rewrite Hx. apply index_Ret in Hx as [_ Hx].
  by rewrite (nth_lookup_Some _ _ _ _ Hx).
Qed.

Lemma nth_insert (l : list Z) (i j : nat) x :
  (i < length l)%nat → nth j (<[i := x]> l) 0 = if bool_decide (j = i) then x else nth j l 0.
Proof.
  intros Hi. rewrite !nth_lookup. case_bool_decide as E.
  - subst. by rewrite list_lookup_insert_eq.
  - by rewrite list_lookup_insert_ne.
Qed.

Section wf.
Context (kv : ShardKV) (Hw : shard_wf kv).

Lemma wf_zlen_states : zlen (shardsState kv) = NShards.
Proof. unfold zlen. by rewrite (sw_states _ Hw). Qed.

Lemma sstate_index s : 0 ≤ s < NShards → index (shardsState kv) s = Ret (sstate kv s).
Proof. intros Hs. apply index_nth. by rewrite wf_zlen_states. Qed.

Lemma owner_index s : 0 ≤ s < NShards → index (Shards (config kv)) s = Ret (owner (config kv) s).
Proof. intros Hs. apply index_nth. unfold zlen. by rewrite (sw_cur _ Hw). Qed.

Lemma prev_index s : 0 ≤ s < NShards → index (Shards (prevConfig kv)) s = Ret (owner (prevConfig kv) s).
Proof. intros Hs. apply index_nth. unfold zlen. by rewrite (sw_prev _ Hw). Qed.

Lemma ready_iff :
  shardsStateReady kv = true ↔
  ∀ s, 0 ≤ s < NShards → sstate kv s = SERVING ∨ sstate kv s = NO_SERVING.
Proof.
  unfold shardsStateReady. rewrite forallb_forall. split.
  - intros Hall s Hs. assert (In (sstate kv s) (shardsState kv)) as Hin.
    { apply nth_In. rewrite (sw_states _ Hw). lia. }
    apply Hall in Hin. apply orb_true_iff in Hin as [?|?]; bool_to_prop; auto.
  - intros Hall x Hin. apply (In_nth _ _ 0) in Hin as (j & Hj & <-).
    rewrite (sw_states _ Hw) in Hj. destruct (Hall (Z.of_nat j)) as [E|E]; [lia| |];
      unfold sstate in E; rewrite Nat2Z.id in E; rewrite E; done.
Qed.

Lemma set_sstate s x : 0 ≤ s < NShards →
  ∃ l, set_index (shardsState kv) s x = Ret l ∧ length l = Z.to_nat NShards ∧
    ∀ s', 0 ≤ s' < NShards → nth (Z.to_nat s') l 0 = if s' =? s then x else sstate kv s'.
Proof.
  intros Hs. pose proof wf_zlen_states as Hz. eexists. split; [apply set_index_Ret; lia|].
  rewrite length_insert. split; [apply (sw_states _ Hw)|]. intros s' Hs'. rewrite nth_insert.
  - destruct (Z.eqb_spec s' s) as [->|Hne]; [by rewrite bool_decide_eq_true_2|].
    rewrite bool_decide_eq_false_2; [done|lia].
  - rewrite (sw_states _ Hw). lia.
Qed.
End wf.

(** ** The effect of a command *)

(** The state of a shard after a change of configuration. *)
Definition next_state (g : Z) (prev cur : Config) (s old : Z) : Z :=
  if Num prev =? 0 then if owner cur s =? g then SERVING else old
  else if (owner prev s =? g) && (owner cur s =? g) then SERVING
  else if negb (owner prev s =? g) && (owner cur s =? g) then PULLING
  else if (owner prev s =? g) && negb (owner cur s =? g) then BEPULLED
  else NO_SERVING.

Lemma updateShardsState_spec kv :
  length (shardsState kv) = Z.to_nat NShards → length (Shards (config kv)) = Z.to_nat NShards →
  length (Shards (prevConfig kv)) = Z.to_nat NShards →
  ∃ l, updateShardsState kv = Ret (set_shardsState l kv) ∧ length l = Z.to_nat NShards ∧
    ∀ s, 0 ≤ s < NShards →
      nth (Z.to_nat s) l 0 = next_state (gid kv) (prevConfig kv) (config kv) s (sstate kv s).
Proof.
  intros Hs Hc Hp. unfold updateShardsState.
  assert (∀ n : nat, Z.of_nat n ≤ NShards → ∃ l,
    foldl (λ acc i, kv ← acc; o ← newShardState kv i;
             match o with
             | None => mret kv
             | Some st => l ← set_index (shardsState kv) i st; mret (set_shardsState l kv)
             end) (Ret kv) (seqZ 0 (Z.of_nat n)) = Ret (set_shardsState l kv) ∧
    length l = Z.to_nat NShards ∧
    ∀ s, 0 ≤ s < NShards → nth (Z.to_nat s) l 0 =
      if s <? Z.of_nat n then next_state (gid kv) (prevConfig kv) (config kv) s (sstate kv s)
      else sstate kv s) as Hloop.
  { induction n as [|n IH]; intros Hn.
    - exists (shardsState kv). split_and!; [by destruct kv|done|]. intros s Hr. case_test; [lia|done].
    - destruct IH as (l & Hf & Hlen & Hl); [lia|]. replace (Z.of_nat (S n)) with (Z.of_nat n + 1) by lia.
      rewrite seqZ_app, foldl_app, Hf by lia.
      change (seqZ (0 + Z.of_nat n) 1) with [0 + Z.of_nat n]. cbn [foldl]. rewrite bind_Ret.
      rewrite Z.add_0_l. unfold newShardState. simpl.
      rewrite (index_nth (Shards (config kv))) by (unfold zlen; rewrite Hc; lia).
      rewrite bind_Ret. fold (owner (config kv) (Z.of_nat n)).
      assert (zlen l = NShards) as Hzl by (unfold zlen; by rewrite Hlen).
      assert (∀ x, x = next_state (gid kv) (prevConfig kv) (config kv) (Z.of_nat n) (sstate kv (Z.of_nat n)) →
        ∃ l', (l0 ← set_index l (Z.of_nat n) x; mret (set_shardsState l0 (set_shardsState l kv))) =
          Ret (set_shardsState l' kv) ∧ length l' = Z.to_nat NShards ∧
          ∀ s, 0 ≤ s < NShards → nth (Z.to_nat s) l' 0 =
            if s <? Z.of_nat n + 1 then next_state (gid kv) (prevConfig kv) (config kv) s (sstate kv s)
            else sstate kv s) as Hset.
      { intros x ->. rewrite set_index_Ret, bind_Ret by lia. eexists. split; [done|].
        rewrite length_insert. split; [done|]. intros s Hr. rewrite nth_insert by lia.
        case_bool_decide as E; [assert (s = Z.of_nat n) as -> by lia; case_test; [done|lia]|].
        rewrite Hl by done. destruct (Z.ltb_spec s (Z.of_nat n)), (Z.ltb_spec s (Z.of_nat n + 1)); lia || done. }
      unfold next_state in Hset at 1. case_test.
      + case_test; simpl; [by apply Hset|].
        exists l. split_and!; [done|done|]. intros s Hr. rewrite Hl by done.
        destruct (Z.ltb_spec s (Z.of_nat n)), (Z.ltb_spec s (Z.of_nat n + 1)); try lia; try done.
        assert (s = Z.of_nat n) as -> by lia. unfold next_state.
        rewrite (proj2 (Z.eqb_eq _ _)), (proj2 (Z.eqb_neq _ _)) by done. done.
      + rewrite (index_nth (Shards (prevConfig kv))) by (unfold zlen; rewrite Hp; lia).
        rewrite bind_Ret. fold (owner (prevConfig kv) (Z.of_nat n)). by apply Hset. }
  destruct (Hloop (Z.to_nat NShards)) as (l & Hf & Hlen & Hl); [done|].
  exists l. split; [exact Hf|]. split; [done|]. intros s Hr. rewrite Hl by done.
  case_test; [done|]. change (Z.of_nat (Z.to_nat NShards)) with NShards in *. lia.
Qed.

(** How a command changes the replicated state of a server. *)
Inductive effect (kv : ShardKV) (c : CommandMsg) (kv' : ShardKV) : Prop :=
| ef_none : kv' = kv → effect kv c kv'
| ef_op op : CommandType c = KVOperation ∧ (Data c = DOp op ∨ op = zeroOp) → sstate kv (key2shard (Key op)) = SERVING →
    kv' = (execute kv op).1 → effect kv c kv'
| ef_config cfg l : CommandType c = ConfigOperation → Data c = DConfig cfg → Num (config kv) = 0 ∨ Num cfg = Num (config kv) + 1 →
    kv' = set_shardsState l (set_configs cfg (config kv) kv) → length l = Z.to_nat NShards →
    (∀ s, 0 ≤ s < NShards →
       nth (Z.to_nat s) l 0 = next_state (gid kv) (config kv) cfg s (sstate kv s)) → effect kv c kv'
| ef_request m l : CommandType c = ShardRequestOperation → Data c = DShardRequest m →
    srm_ConfigNum m = Num (config kv) →
    sstate kv (srm_ShardIndex m) = PULLING →
    kv' = mergeClientSeqNum (set_shardsState l (set_currentState
            (map_fold (λ key value r, <[key := value]> r) (currentState kv) (srm_ShardData m)) kv))
            (srm_ClientSeqNum m) → length l = Z.to_nat NShards →
    (∀ s, 0 ≤ s < NShards → nth (Z.to_nat s) l 0 = if s =? srm_ShardIndex m then SERVING else sstate kv s) →
    effect kv c kv'
| ef_confirm m l : CommandType c = ShardConfirmOperation → Data c = DShardConfirm m →
    scm_ConfigNum m = Num (config kv) →
    sstate kv (scm_ShardIndex m) = BEPULLED →
    kv' = set_currentState (drop_shard (currentState kv) (scm_ShardIndex m)) (set_shardsState l kv) →
    length l = Z.to_nat NShards →
    (∀ s, 0 ≤ s < NShards → nth (Z.to_nat s) l 0 = if s =? scm_ShardIndex m then NO_SERVING else sstate kv s) →
    effect kv c kv'.

Lemma apply_command_effect kv i c :
  shard_wf kv → command_ok kv c → ∃ kv' o, apply_command kv i c = Ret (kv', o) ∧ effect kv c kv'.
Proof.
  intros Hw Hok. unfold apply_command, command_ok in *. case_test.
  { set (op := match Data c with DOp op => op | _ => zeroOp end). unfold apply_op.
    case_test; [eexists _, _; split; [done|by apply ef_none]|].
    rewrite sstate_index, bind_Ret by (done || apply key2shard_range).
    case_test; [eexists _, _; split; [done|by apply ef_none]|].
    destruct (execute kv op) as [kv' op'] eqn:E. eexists _, _. split; [done|].
    apply ef_op with op; [split; [done|subst op; destruct (Data c); auto]|done|by rewrite E]. }
  case_test.
  { destruct Hok as (cfg & Hd & Hlen & Hn & Hrdy). rewrite Hd. unfold apply_config.
    case_test; [eexists _, _; split; [done|by apply ef_none]|]. case_test.
    - destruct (updateShardsState_spec (set_configs cfg (config kv) kv)) as (l & -> & Hl & Hs);
        [apply (sw_states _ Hw)|done|apply (sw_cur _ Hw)|].
      rewrite bind_Ret. eexists _, _. split; [done|]. eapply ef_config; [done|done| |done|done|done].
      match goal with H : _ ∨ _ |- _ => destruct H as [?|?] end; bool_to_prop; auto.
    - rewrite bind_Ret. eexists _, _. split; [done|by apply ef_none]. }
  case_test.
  { destruct Hok as (m & Hd & Hr & Hkeys). rewrite Hd. unfold apply_shard_request.
    case_test; [eexists _, _; split; [done|by apply ef_none]|].
    rewrite sstate_index, bind_Ret by done. case_test.
    - unfold mergeShardData. destruct (set_sstate kv Hw _ SERVING Hr) as (l & -> & Hl & Hs).
      rewrite !bind_Ret. eexists _, _. split; [done|]. by eapply ef_request.
    - rewrite bind_Ret. eexists _, _. split; [done|by apply ef_none]. }
  case_test.
  { destruct Hok as (m & Hd & Hr). rewrite Hd. unfold apply_shard_confirm.
    case_test; [eexists _, _; split; [done|by apply ef_none]|].
    rewrite sstate_index, bind_Ret by done. case_test.
    - destruct (set_sstate kv Hw _ NO_SERVING Hr) as (l & -> & Hl & Hs).
      rewrite !bind_Ret. eexists _, _. split; [done|]. by eapply ef_confirm.
    - rewrite bind_Ret. eexists _, _. split; [done|by apply ef_none]. }
  case_test; eexists _, _; (split; [done|by apply ef_none]).
Qed.

(** [execute] touches one key and the client's session. *)
Lemma execute_frame kv op :
  let kv' := (execute kv op).1 in
  gid kv' = gid kv ∧ config kv' = config kv ∧ prevConfig kv' = prevConfig kv ∧
  shardsState kv' = shardsState kv ∧ maxraftstate kv' = maxraftstate kv ∧ waitChan kv' = waitChan kv ∧
  lastIncludedIndex kv' = lastIncludedIndex kv ∧
  (∀ k, k ≠ Key op → currentState kv' !! k = currentState kv !! k).
Proof.
  unfold execute, open_session, applyToStateMachine, fill_value.
  destruct (clientSeq kv !! ClientID op); simpl; case_test; simpl;
    repeat (case_bool_decide; simpl); split_and!; try done; intros k Hk; try done;
    by rewrite lookup_insert_ne.
Qed.

Lemma sstate_set l kv s : sstate (set_shardsState l kv) s = nth (Z.to_nat s) l 0.
Proof. done. Qed.

Lemma shard_ok_frame kv kv' s :
  sstate kv' s = sstate kv s → config kv' = config kv → prevConfig kv' = prevConfig kv → gid kv' = gid kv →
  (no_keys kv s → no_keys kv' s) → shard_ok kv s → shard_ok kv' s.
Proof.
  intros Hs Hc Hp Hg Hk [?|? ?|?|?]; [apply so_serving|apply so_idle|apply so_pulling|apply so_leaving];
    rewrite ?Hs, ?Hc, ?Hp, ?Hg; auto.
Qed.

Lemma command_ok_config kv c cfg :
  CommandType c = ConfigOperation → Data c = DConfig cfg → command_ok kv c →
  length (Shards cfg) = Z.to_nat NShards ∧ (Num (config kv) = 0 → Num cfg = 1) ∧
  (Num cfg = Num (config kv) + 1 → shardsStateReady kv = true).
Proof. intros Ht Hd Hok. unfold command_ok in Hok. rewrite Ht, Hd in Hok. simpl in Hok. naive_solver. Qed.

Lemma command_ok_request kv c m :
  CommandType c = ShardRequestOperation → Data c = DShardRequest m → command_ok kv c →
  0 ≤ srm_ShardIndex m < NShards ∧ ∀ k, is_Some (srm_ShardData m !! k) → key2shard k = srm_ShardIndex m.
Proof. intros Ht Hd Hok. unfold command_ok in Hok. rewrite Ht, Hd in Hok. simpl in Hok. naive_solver. Qed.

Lemma command_ok_confirm kv c m :
  CommandType c = ShardConfirmOperation → Data c = DShardConfirm m → command_ok kv c →
  0 ≤ scm_ShardIndex m < NShards.
Proof. intros Ht Hd Hok. unfold command_ok in Hok. rewrite Ht, Hd in Hok. simpl in Hok. naive_solver. Qed.

(** A new configuration finds every move of the last one finished. *)
Lemma config_accepted_ready kv cfg :
  shard_wf kv → Num (config kv) = 0 ∨ Num cfg = Num (config kv) + 1 →
  (Num cfg = Num (config kv) + 1 → shardsStateReady kv = true) →
  ∀ s, 0 ≤ s < NShards →
    (sstate kv s = SERVING ∧ owner (config kv) s = gid kv ∧ Num (config kv) ≠ 0) ∨
    (sstate kv s = NO_SERVING ∧ (Num (config kv) ≠ 0 → owner (config kv) s ≠ gid kv) ∧ no_keys kv s).
Proof.
  intros Hw Hn Hrdy s Hr. destruct (sw_shard _ Hw s Hr) as [?|?|? ? ? ? Hz|? ? ? ? Hz]; auto.
  - destruct Hn as [?|Hn]; [done|]. apply Hrdy in Hn. rewrite (ready_iff kv Hw) in Hn.
    destruct (Hn s Hr); unfold SERVING, NO_SERVING, PULLING in *; lia.
  - destruct Hn as [?|Hn]; [done|]. apply Hrdy in Hn. rewrite (ready_iff kv Hw) in Hn.
    destruct (Hn s Hr); unfold SERVING, NO_SERVING, BEPULLED in *; lia.
Qed.

Lemma config_shard_ok kv cfg kv' s :
  (sstate kv s = SERVING ∧ owner (config kv) s = gid kv ∧ Num (config kv) ≠ 0) ∨
  (sstate kv s = NO_SERVING ∧ (Num (config kv) ≠ 0 → owner (config kv) s ≠ gid kv) ∧ no_keys kv s) →
  config kv' = cfg → prevConfig kv' = config kv → gid kv' = gid kv → currentState kv' = currentState kv →
  Num cfg ≠ 0 → sstate kv' s = next_state (gid kv) (config kv) cfg s (sstate kv s) → shard_ok kv' s.
Proof.
  intros Hold Hc Hp Hg Hk Hz Hs. unfold next_state in Hs.
  assert (no_keys kv s → no_keys kv' s) as Hnk by (intros Hno k Hks; rewrite Hk; by apply Hno).
  case_test_in Hs.
  - destruct Hold as [(_ & _ & ?)|(Hst & Hnow & Hno)]; [done|]. case_test_in Hs.
    + apply so_serving; congruence.
    + apply so_idle; [congruence|rewrite Hc, Hg; done|auto].
  - destruct (Z.eqb_spec (owner (config kv) s) (gid kv)) as [Ho|Ho],
             (Z.eqb_spec (owner cfg s) (gid kv)) as [Ho'|Ho']; simpl in Hs.
    + apply so_serving; congruence.
    + apply so_leaving; congruence.
    + apply so_pulling; try congruence. destruct Hold as [(_ & ? & _)|(_ & _ & ?)]; [done|auto].
    + apply so_idle; [done|congruence|]. destruct Hold as [(_ & ? & _)|(_ & _ & ?)]; [done|auto].
Qed.

Lemma effect_wf kv c kv' : shard_wf kv → command_ok kv c → effect kv c kv' → shard_wf kv'.
Proof.
  intros Hw Hok Hef. pose proof Hw as [Hst Hcur Hprev Hnum Hpos Hsh].
  destruct Hef as [->|op Hop Hserv ->|cfg l Ht Hd Hn -> Hl Hs|m l Ht Hd Hn Hp -> Hl Hs|m l Ht Hd Hn Hb -> Hl Hs].
  - done.
  - destruct (execute_frame kv op) as (Hg & Hc & Hp & Hss & _ & _ & _ & Hk).
    set (kv' := (execute kv op).1) in *. clearbody kv'.
    split; rewrite ?Hss, ?Hc, ?Hp; try done. intros s Hr.
    assert (sstate kv' s = sstate kv s) as Hss' by (unfold sstate; by rewrite Hss).
    destruct (decide (s = key2shard (Key op))) as [->|Hne].
    + destruct (Hsh _ Hr); unfold SERVING, NO_SERVING, PULLING, BEPULLED in *; try lia.
      apply so_serving; unfold SERVING; congruence.
    + apply (shard_ok_frame kv); [done..| |by apply Hsh].
      intros Hno k Hks. rewrite Hk; [by apply Hno|]. by intros ->.
  - destruct (command_ok_config _ _ _ Ht Hd Hok) as (Hlen & H1 & Hrdy).
    pose proof (config_accepted_ready kv cfg Hw Hn Hrdy) as Hready.
    assert (Num cfg = Num (config kv) + 1) as Hnext by (destruct Hn as [Hz|?]; [rewrite (H1 Hz); lia|done]).
    split; simpl; try done; [by right|split; [lia|intros _; lia]|]. intros s Hr.
    apply (config_shard_ok kv cfg); try done; [by apply Hready|lia|by apply Hs].
  - destruct (command_ok_request _ _ _ Ht Hd Hok) as [Hr Hkeys]. split; simpl; try done. intros s Hrs.
    destruct (Z.eqb_spec s (srm_ShardIndex m)) as [->|Hne].
    + destruct (Hsh _ Hr) as [?|?|? ? ? ? ?|?]; try (unfold SERVING, NO_SERVING, PULLING, BEPULLED in *; lia).
      apply so_serving; simpl; try done. unfold sstate. simpl. rewrite Hs by done. by rewrite Z.eqb_refl.
    + apply (shard_ok_frame kv); try done; [|
        |by apply Hsh].
      * unfold sstate at 1. simpl. rewrite Hs by done. by rewrite (proj2 (Z.eqb_neq _ _)).
      * intros Hno k Hks. simpl. rewrite map_fold_insert_lookup.
        destruct (srm_ShardData m !! k) eqn:E; [|by apply Hno].
        rewrite (Hkeys k) in Hks by (rewrite E; by eexists). congruence.
  - pose proof (command_ok_confirm _ _ _ Ht Hd Hok) as Hr. split; simpl; try done. intros s Hrs.
    destruct (Z.eqb_spec s (scm_ShardIndex m)) as [->|Hne].
    + destruct (Hsh _ Hr) as [?|?|?|? ? ? ? ?]; try (unfold SERVING, NO_SERVING, PULLING, BEPULLED in *; lia).
      apply so_idle; simpl; try done.
      * unfold sstate. simpl. rewrite Hs by done. by rewrite Z.eqb_refl.
      * intros k Hks. simpl. rewrite drop_shard_lookup. by rewrite Hks, Z.eqb_refl.
    + apply (shard_ok_frame kv); try done; [|
        |by apply Hsh].
      * unfold sstate at 1. simpl. rewrite Hs by done. by rewrite (proj2 (Z.eqb_neq _ _)).
      * intros Hno k Hks. simpl. rewrite drop_shard_lookup. case_test; [done|by apply Hno].
Qed.

Lemma effect_static kv c kv' :
  effect kv c kv' → gid kv' = gid kv ∧ lastIncludedIndex kv' = lastIncludedIndex kv.
Proof.
  intros [->|op Hop Hserv ->|cfg l Ht Hd Hn -> Hl Hs|m l Ht Hd Hn Hp -> Hl Hs|m l Ht Hd Hn Hb -> Hl Hs]; try done.
  by destruct (execute_frame kv op) as (? & _ & _ & _ & _ & _ & ? & _).
Qed.

Lemma effect_num kv c kv' :
  command_ok kv c → effect kv c kv' → Num (config kv) ≤ Num (config kv') ≤ Num (config kv) + 1.
Proof.
  intros Hok [->|op Hop Hserv ->|cfg l Ht Hd Hn -> Hl Hs|m l Ht Hd Hn Hp -> Hl Hs|m l Ht Hd Hn Hb -> Hl Hs];
    simpl; try lia.
  - destruct (execute_frame kv op) as (_ & -> & _). lia.
  - destruct (command_ok_config _ _ _ Ht Hd Hok) as (_ & H1 & _).
    destruct Hn as [Hz|?]; [specialize (H1 Hz)|]; lia.
Qed.

Lemma effect_ready kv c kv' :
  shard_wf kv → command_ok kv c → effect kv c kv' → shardsStateReady kv = true →
  Num (config kv') = Num (config kv) → shardsStateReady kv' = true.
Proof.
  intros Hw Hok Hef Hready Hsame. pose proof Hready as Hr. rewrite (ready_iff kv Hw) in Hr.
  destruct Hef as [->|op Hop Hserv ->|cfg l Ht Hd Hn -> Hl Hs|m l Ht Hd Hn Hp -> Hl Hs|m l Ht Hd Hn Hb -> Hl Hs].
  - done.
  - unfold shardsStateReady in *. destruct (execute_frame kv op) as (_ & _ & _ & -> & _). done.
  - destruct (command_ok_config _ _ _ Ht Hd Hok) as (_ & H1 & _). simpl in Hsame.
    destruct Hn as [Hz|?]; [specialize (H1 Hz)|]; lia.
  - destruct (command_ok_request _ _ _ Ht Hd Hok) as [Hrange _].
    destruct (Hr _ Hrange); unfold SERVING, NO_SERVING, PULLING in *; lia.
  - pose proof (command_ok_confirm _ _ _ Ht Hd Hok) as Hrange.
    destruct (Hr _ Hrange); unfold SERVING, NO_SERVING, BEPULLED in *; lia.
Qed.

(** Only a server whose moves are finished goes on to another configuration. *)
Lemma effect_moves_on kv c kv' :
  shard_wf kv → command_ok kv c → effect kv c kv' → Num (config kv') ≠ Num (config kv) →
  shardsStateReady kv = true.
Proof.
  intros Hw Hok [->|op Hop Hserv ->|cfg l Ht Hd Hn -> Hl Hs|m l Ht Hd Hn Hp -> Hl Hs|m l Ht Hd Hn Hb -> Hl Hs] Hne;
    simpl in Hne; try done.
  - by destruct (execute_frame kv op) as (_ & E & _); rewrite E in Hne.
  - destruct (command_ok_config _ _ _ Ht Hd Hok) as (_ & H1 & Hrdy). apply Hrdy.
    destruct Hn as [Hz|?]; [|done]. rewrite (H1 Hz). lia.
Qed.

(** ** Idempotence *)
Lemma execute_twice kv op : (execute (execute kv op).1 op).1 = (execute kv op).1.
Proof.
  assert (∀ kv1 : ShardKV, is_Some (clientSeq kv1 !! ClientID op) →
    SeqNum op ≤ map_get 0 (clientSeq kv1) (ClientID op) → (execute kv1 op).1 = kv1) as Hstale.
  { intros kv1 [x Hx] Hle. unfold execute, open_session. rewrite Hx. by case_test; [|lia]. }
  apply Hstale.
  - unfold execute, open_session, applyToStateMachine, fill_value.
    destruct (clientSeq kv !! ClientID op) eqn:E; case_test; simpl;
      repeat (case_bool_decide; simpl); rewrite ?lookup_insert_eq, ?E; by eexists.
  - unfold execute, open_session, applyToStateMachine, fill_value.
    destruct (clientSeq kv !! ClientID op) eqn:E; case_test; simpl;
      simpl in *; repeat (case_bool_decide; simpl); rewrite ?map_get_insert_eq in *; try done; lia.
Qed.

Lemma apply_op_twice kv i j op kv1 o1 kv2 o2 :
  lastIncludedIndex kv < i →
  apply_op kv i op = Ret (kv1, o1) → apply_op kv1 j op = Ret (kv2, o2) → kv2 = kv1.
Proof.
  intros Hi H1 H2. unfold apply_op in *. case_test_in H1; [lia|]. inv_bind H1. case_test_in H1.
  - injection H1 as <- <-. case_test_in H2; [by injection H2|]. rewrite Hb, bind_Ret in H2.
    case_test_in H2; [by injection H2|]. done.
  - destruct (execute_frame kv op) as (_ & _ & _ & Hss & _ & _ & HI & _).
    pose proof (execute_twice kv op) as Htw. destruct (execute kv op) as [k1 op1]. simpl in *.
    injection H1 as <- <-. case_test_in H2; [by injection H2|]. rewrite Hss, Hb, bind_Ret in H2.
    rewrite (proj2 (Z.eqb_eq _ _)) in H2 by done. cbn [negb] in H2.
    destruct (execute k1 op) as [k2 op2]. simpl in *. injection H2 as <- _. congruence.
Qed.

Lemma updateShardsState_config kv kv' : updateShardsState kv = Ret kv' → config kv' = config kv.
Proof.
  unfold updateShardsState.
  assert (∀ js k0, foldl (λ acc i, kv ← acc; o ← newShardState kv i;
    match o with None => mret kv | Some st => l ← set_index (shardsState kv) i st;
      mret (set_shardsState l kv) end) (Ret k0) js = Ret kv' → config kv' = config k0) as Hf; [|apply Hf].
  induction js as [|j js IH]; intros k0 Hk0; simpl in Hk0; [by injection Hk0 as <-|].
  destruct (newShardState k0 j ≫= _) as [k1| |] eqn:E in Hk0.
  - apply IH in Hk0. rewrite Hk0. inv_bind E. destruct x; [inv_bind E|]; by injection E as <-.
  - exfalso. clear -Hk0. induction js; [done|auto].
  - exfalso. clear -Hk0. induction js; [done|auto].
Qed.

Lemma apply_config_twice kv i j cfg kv1 o1 kv2 o2 :
  lastIncludedIndex kv < i → Num cfg ≠ 0 →
  apply_config kv i cfg = Ret (kv1, o1) → apply_config kv1 j cfg = Ret (kv2, o2) → kv2 = kv1.
Proof.
  intros Hi Hz H1 H2. unfold apply_config in *. case_test_in H1; [lia|].
  inv_bind H1. injection H1 as <- <-. case_test_in H2; [by injection H2|].
  inv_bind H2. injection H2 as <- <-.
  destruct ((Num (config kv) =? 0) || (Num cfg =? Num (config kv) + 1)) eqn:Hacc.
  - apply updateShardsState_config in Hb. rewrite Hb in Hb0. simpl in Hb0.
    case_test_in Hb0; [|by injection Hb0].
    match goal with H : _ ∨ _ |- _ => destruct H as [?|?] end; bool_to_prop; lia.
  - injection Hb as <-. rewrite Hacc in Hb0. by injection Hb0.
Qed.

Lemma apply_request_twice kv m kv1 o1 kv2 o2 :
  apply_shard_request kv m = Ret (kv1, o1) → apply_shard_request kv1 m = Ret (kv2, o2) → kv2 = kv1.
Proof.
  intros H1 H2. unfold apply_shard_request in *. case_test_in H1.
  { injection H1 as <- <-. rewrite (proj2 (Z.eqb_neq _ _)) in H2 by done. by injection H2. }
  inv_bind H1. inv_bind H1. injection H1 as <- <-. case_test_in Hb0.
  - inv_bind Hb0. injection Hb0 as <-. unfold mergeShardData in Hb1. inv_bind Hb1. injection Hb1 as <-.
    simpl in H2. rewrite (proj2 (Z.eqb_eq (srm_ConfigNum m) _)) in H2 by done. cbn [negb] in H2. inv_bind H2.
    inv_bind H2. injection H2 as <- <-. apply set_index_inv in Hb0 as [Hr ->].
    apply index_Ret in Hb1 as [_ Hx]. rewrite list_lookup_insert_eq in Hx by (unfold zlen in Hr; lia).
    injection Hx as <-. by injection Hb2.
  - injection Hb0 as <-. rewrite (proj2 (Z.eqb_eq (srm_ConfigNum m) _)) in H2 by done. cbn [negb] in H2.
    rewrite Hb, bind_Ret, (proj2 (Z.eqb_neq _ _)), bind_Ret in H2 by done. by injection H2.
Qed.

Lemma apply_confirm_twice kv m kv1 o1 kv2 o2 :
  apply_shard_confirm kv m = Ret (kv1, o1) → apply_shard_confirm kv1 m = Ret (kv2, o2) → kv2 = kv1.
Proof.
  intros H1 H2. unfold apply_shard_confirm in *. case_test_in H1.
  { injection H1 as <- <-. rewrite (proj2 (Z.eqb_neq _ _)) in H2 by done. by injection H2. }
  inv_bind H1. inv_bind H1. injection H1 as <- <-. case_test_in Hb0.
  - inv_bind Hb0. injection Hb0 as <-. simpl in H2.
    rewrite (proj2 (Z.eqb_eq (scm_ConfigNum m) _)) in H2 by done. cbn [negb] in H2. inv_bind H2.
    inv_bind H2. injection H2 as <- <-. apply set_index_inv in Hb1 as [Hr ->].
    apply index_Ret in Hb0 as [_ Hx]. rewrite list_lookup_insert_eq in Hx by (unfold zlen in Hr; lia).
    injection Hx as <-. by injection Hb2.
  - injection Hb0 as <-. rewrite (proj2 (Z.eqb_eq (scm_ConfigNum m) _)) in H2 by done. cbn [negb] in H2.
    rewrite Hb, bind_Ret, (proj2 (Z.eqb_neq _ _)), bind_Ret in H2 by done. by injection H2.
Qed.

(** ** The calls of the background loops *)
Lemma shards_in_state_spec kv st :
  shard_wf kv → ∃ l, shards_in_state kv st = Ret l ∧ ∀ s, s ∈ l ↔ 0 ≤ s < NShards ∧ sstate kv s = st.
Proof.
  intros Hw. unfold shards_in_state.
  assert (∀ js a, (∀ j, j ∈ js → 0 ≤ j < NShards) → ∃ l,
    foldl (λ acc i, l ← acc; x ← index (shardsState kv) i; mret (if x =? st then l ++ [i] else l))
      (Ret a) js = Ret l ∧ ∀ s, s ∈ l ↔ s ∈ a ∨ (s ∈ js ∧ sstate kv s = st)) as Hf.
  { induction js as [|j js IH]; intros a Hj; cbn [foldl].
    - eexists. split; [done|]. intros s. split; [by left|]. intros [?|[?%not_elem_of_nil _]]; done.
    - rewrite bind_Ret, sstate_index, bind_Ret by (done || apply Hj; by left).
      destruct (IH (if sstate kv j =? st then a ++ [j] else a)) as (l & Hl & Hin).
      { intros x Hx. apply Hj. by right. }
      exists l. split; [exact Hl|]. intros s. rewrite Hin, elem_of_cons. case_test.
      + rewrite elem_of_app, list_elem_of_singleton. naive_solver.
      + naive_solver. }
  destruct (Hf (seqZ 0 NShards) []) as (l & Hl & Hin).
  { intros j Hj%elem_of_seqZ. lia. }
  exists l. split; [exact Hl|]. intros s. rewrite Hin, elem_of_seqZ, elem_of_nil. naive_solver lia.
Qed.

(** The calls made for a list of shards: those whose group has servers. *)
Lemma collect_calls {A} (f : Z → list string → Z → A) (groups : gmap Z (list string)) (shards js : list Z) :
  (∀ j, j ∈ js → 0 ≤ j < zlen shards) →
  foldl (λ acc i, l ← acc; g ← index shards i;
           mret (match groups !! g with Some servers => l ++ [f g servers i] | None => l end))
        (Ret []) js =
  Ret (omap (λ i, (λ servers, f (nth (Z.to_nat i) shards 0) servers i) <$> groups !! nth (Z.to_nat i) shards 0) js).
Proof.
  intros Hj. assert (∀ a, foldl (λ acc i, l ← acc; g ← index shards i;
    mret (match groups !! g with Some servers => l ++ [f g servers i] | None => l end)) (Ret a) js =
    Ret (a ++ omap (λ i, (λ servers, f (nth (Z.to_nat i) shards 0) servers i) <$>
                           groups !! nth (Z.to_nat i) shards 0) js)) as Hf; [|apply Hf].
  induction js as [|j js IH]; intros a; cbn [foldl omap list_omap]; [by rewrite app_nil_r|].
  rewrite bind_Ret, index_nth, bind_Ret by (apply Hj; by left).
  unfold mret, Go_ret. rewrite IH by (intros; apply Hj; by right). f_equal.
  destruct (groups !! _); simpl; [by rewrite <- app_assoc|done].
Qed.

(** Only shards that are being pulled are asked for, of a group that the
    previous configuration knows and says to hold them. *)
Lemma ShardsRequester_spec kv num :
  shard_wf kv → ∃ calls, ShardsRequester kv num = Ret calls ∧
  ∀ g srv args, (g, srv, args) ∈ calls ↔
    0 ≤ sra_ShardIndex args < NShards ∧ sstate kv (sra_ShardIndex args) = PULLING ∧
    args = mkShardRequestArgs num (sra_ShardIndex args) (gid kv) ∧
    g = owner (prevConfig kv) (sra_ShardIndex args) ∧ Groups (prevConfig kv) !! g = Some srv.
Proof.
  intros Hw. unfold ShardsRequester.
  destruct (shards_in_state_spec kv PULLING Hw) as (l & -> & Hl).
  rewrite GetShardsCopy_id, GetGroupMapCopy_id, !bind_Ret by apply (sw_prev _ Hw).
  rewrite (collect_calls (λ g srv i, (g, srv, mkShardRequestArgs num i (gid kv)))).
  2: { intros j [Hj _]%Hl. unfold zlen. by rewrite (sw_prev _ Hw). }
  eexists. split; [done|]. intros g srv args. rewrite list_elem_of_omap. split.
  - intros (i & [Hi Hs]%Hl & Hf). apply fmap_Some in Hf as (srv' & Hg & [= -> -> ->]). done.
  - intros (Hr & Hs & Ha & -> & Hg). exists (sra_ShardIndex args). split; [by apply Hl|].
    unfold owner in *. rewrite Hg. simpl. by rewrite <- Ha.
Qed.

Lemma ShardsConfirm_spec kv num :
  shard_wf kv → ∃ calls, ShardsConfirm kv num = Ret calls ∧
  ∀ g srv args, (g, srv, args) ∈ calls ↔
    0 ≤ sca_ShardIndex args < NShards ∧ sstate kv (sca_ShardIndex args) = BEPULLED ∧
    args = mkShardConfirmArgs num (sca_ShardIndex args) ∧
    g = owner (config kv) (sca_ShardIndex args) ∧ Groups (config kv) !! g = Some srv.
Proof.
  intros Hw. unfold ShardsConfirm.
  destruct (shards_in_state_spec kv BEPULLED Hw) as (l & -> & Hl).
  rewrite GetShardsCopy_id, GetGroupMapCopy_id, !bind_Ret by apply (sw_cur _ Hw).
  rewrite (collect_calls (λ g srv i, (g, srv, mkShardConfirmArgs num i))).
  2: { intros j [Hj _]%Hl. unfold zlen. by rewrite (sw_cur _ Hw). }
  eexists. split; [done|]. intros g srv args. rewrite list_elem_of_omap. split.
  - intros (i & [Hi Hs]%Hl & Hf). apply fmap_Some in Hf as (srv' & Hg & [= -> -> ->]). done.
  - intros (Hr & Hs & Ha & -> & Hg). exists (sca_ShardIndex args). split; [by apply Hl|].
    unfold owner in *. rewrite Hg. simpl. by rewrite <- Ha.
Qed.

(** What a server answers to a request for a shard it is to give away. *)
Lemma ShardsRequestHandler_ok {R} `{RaftService R CommandMsg} (rf : R) kv args reply :
  shard_wf kv → 0 ≤ sra_ShardIndex args < NShards →
  ShardsRequestHandler rf kv args = Ret reply → srr_Err reply = OK →
  sra_ConfigNum args = Num (config kv) ∧ sstate kv (sra_ShardIndex args) = BEPULLED ∧
  reply = mkShardRequestReply OK (sra_ConfigNum args) (sra_ShardIndex args)
            (shard_data (currentState kv) (sra_ShardIndex args)) (clientSeq kv).
Proof.
  intros Hw Hr Hrun Hok. unfold ShardsRequestHandler in Hrun. destruct (rs_GetState rf) as [t lead].
  set (r0 := if negb lead then _ else _) in *. case_test_in Hrun; [by injection Hrun as <-|].
  rewrite sstate_index, bind_Ret, map_fold_insert_copy in Hrun by done.
  case_test_in Hrun; [|by injection Hrun as <-]. by injection Hrun as <-.
Qed.

(** ** Theorems *)

(** a server never panics on the commands the groups log, and each of them
    keeps the relation between shard states, configurations and keys: a shard
    is served exactly by a group that owns it and has its data, and a group
    holds no key of a shard it neither serves nor still has to give away. *)
Theorem apply_command_preserves (kv : ShardKV) (i : Z) (c : CommandMsg)
    (Hw : shard_wf kv) (Hok : command_ok kv c) :
  ∃ kv' o, apply_command kv i c = Ret (kv', o) ∧ shard_wf kv' ∧ gid kv' = gid kv ∧
    Num (config kv) ≤ Num (config kv') ≤ Num (config kv) + 1.
Proof.
  destruct (apply_command_effect kv i c Hw Hok) as (kv' & o & E & Hef). exists kv', o.
  split; [done|]. split; [by eapply effect_wf|]. split; [by eapply effect_static|by eapply effect_num].
Qed.

(** The first configuration gives everything to group 100. *)
Definition first_config : Config := mkConfig 1 (replicate (Z.to_nat NShards) 100) {[100 := ["a"%string]]}.
Definition config_msg (cfg : Config) : CommandMsg := mkCommandMsg ConfigOperation (DConfig cfg).

Lemma newServer_wf m g : shard_wf (newServer m g).
Proof.
  split; simpl; try done; [by left|]. intros s Hs. apply so_idle; simpl; try done.
  unfold sstate. cbn [shardsState newServer]. rewrite nth_lookup, lookup_replicate_2 by lia. done.
Qed.

Lemma apply_command_preserves_witness :
  ∃ kv' o, apply_command (newServer (-1) 100) 1 (config_msg first_config) = Ret (kv', o) ∧ shard_wf kv'.
Proof.
  destruct (apply_command_preserves (newServer (-1) 100) 1 (config_msg first_config) (newServer_wf _ _))
    as (kv' & o & E & Hw & _).
  - exists first_config. split; [reflexivity|]. split; [reflexivity|]. split; reflexivity.
  - exists kv', o. split; [exact E|exact Hw].
Defined.

(** commands are idempotent.  A command that was applied and is delivered
    a second time, because a retried proposal was logged twice, changes
    nothing: client operations are filtered by their sequence number, the
    others by configuration number and shard state. *)
Theorem apply_command_idempotent (kv kv1 kv2 : ShardKV) (i j : Z) (c : CommandMsg) (o1 o2 : option CommandMsg)
    (Hi : lastIncludedIndex kv < i) (Hz : ∀ cfg, Data c = DConfig cfg → Num cfg ≠ 0)
    (H1 : apply_command kv i c = Ret (kv1, o1)) (H2 : apply_command kv1 j c = Ret (kv2, o2)) :
  kv2 = kv1.
Proof.
  unfold apply_command in *. destruct (CommandType c =? KVOperation); [by eapply apply_op_twice|].
  destruct (CommandType c =? ConfigOperation).
  { destruct (Data c) as [| |cfg| |]; try done. by eapply apply_config_twice; [..|apply H1|apply H2]; auto. }
  destruct (CommandType c =? ShardRequestOperation).
  { destruct (Data c) as [| | |m|]; try done. by eapply apply_request_twice. }
  destruct (CommandType c =? ShardConfirmOperation).
  { destruct (Data c) as [| | | |m]; try done. by eapply apply_confirm_twice. }
  destruct (CommandType c =? NoOperation); by (injection H1 as <- <-; injection H2).
Qed.

Definition sample_group : ShardKV :=
  match apply_command (newServer (-1) 100) 1 (config_msg first_config) with
  | Ret (kv, _) => kv | _ => newServer (-1) 100 end.
Definition sample_sop : CommandMsg := mkCommandMsg KVOperation (DOp (mkOp 7 1 "k" "v" "Append")).
Definition sample_written : ShardKV :=
  match apply_command sample_group 2 sample_sop with Ret (kv, _) => kv | _ => sample_group end.

Definition sample_rewritten : ShardKV :=
  match apply_command sample_written 3 sample_sop with Ret (kv, _) => kv | _ => sample_group end.

Lemma apply_command_idempotent_witness :
  currentState sample_written !! "k"%string = Some "v"%string ∧ sample_rewritten = sample_written.
Proof.
  split; [vm_compute; reflexivity|].
  refine (apply_command_idempotent sample_group sample_written sample_rewritten 2 3 sample_sop
            (Some sample_sop) (Some sample_sop) _ _ _ _).
  - vm_compute. reflexivity.
  - intros cfg [=].
  - vm_compute. reflexivity.
  - vm_compute. reflexivity.
Defined.

(** readiness for the next configuration is stable: once every shard of a
    configuration is settled, nothing but a new configuration unsettles one.
    This is what makes it safe to check readiness before proposing the
    configuration, long before it is applied. *)
Theorem readiness_stable (kv kv' : ShardKV) (i : Z) (c : CommandMsg) (o : option CommandMsg)
    (Hw : shard_wf kv) (Hok : command_ok kv c) (Hready : shardsStateReady kv = true)
    (Hrun : apply_command kv i c = Ret (kv', o)) (Hsame : Num (config kv') = Num (config kv)) :
  shardsStateReady kv' = true.
Proof.
  destruct (apply_command_effect kv i c Hw Hok) as (kv1 & o1 & E & Hef).
  rewrite Hrun in E. injection E as <- <-. by eapply effect_ready.
Qed.

Lemma sample_group_wf : shard_wf sample_group.
Proof.
  destruct (apply_command_effect (newServer (-1) 100) 1 (config_msg first_config) (newServer_wf _ _))
    as (kv' & o & E & Hef).
  - exists first_config. split_and!; done.
  - unfold sample_group. rewrite E. eapply effect_wf; [apply newServer_wf| |done].
    exists first_config. split_and!; done.
Qed.

Lemma readiness_stable_witness : shardsStateReady sample_written = true.
Proof.
  apply (readiness_stable sample_group sample_written 2 sample_sop (Some sample_sop) sample_group_wf).
  - exact I.
  - vm_compute. reflexivity.
  - vm_compute. reflexivity.
  - vm_compute. reflexivity.
Defined.

(** C31: a transfer is exact.  The new owner proposes what the old owner
    answered (and never keeps the lock on the way); once the proposal is
    applied, the new owner has, for that shard, exactly the pairs the old owner
    had, its other keys are untouched, the shard is served, and a client's
    session is as advanced as on the more advanced side. *)
Theorem shard_transfer_exact {R} `{RaftService R CommandMsg} (rf : R) (p h : ShardKV)
    (args : ShardRequestArgs) (reply : ShardRequestReply) (i : Z)
    (Hp : shard_wf p) (Hh : shard_wf h) (Hr : 0 ≤ sra_ShardIndex args < NShards)
    (Hargs : sra_ConfigNum args = Num (config h)) (Hpull : sstate h (sra_ShardIndex args) = PULLING)
    (Hreply : ShardsRequestHandler rf p args = Ret reply) (Hok : srr_Err reply = OK) :
  ∃ c h' o, ShardsRequester_reply h (sra_ShardIndex args) args (Some reply) = RqStart c ∧
    apply_command h i c = Ret (h', o) ∧ sstate h' (sra_ShardIndex args) = SERVING ∧
    shard_data (currentState h') (sra_ShardIndex args) = shard_data (currentState p) (sra_ShardIndex args) ∧
    (∀ k, key2shard k ≠ sra_ShardIndex args → currentState h' !! k = currentState h !! k) ∧
    (∀ cl v, clientSeq p !! cl = Some v → map_get 0 (clientSeq h') cl = Z.max (map_get 0 (clientSeq h) cl) v).
Proof.
  destruct (ShardsRequestHandler_ok rf p args reply Hp Hr Hreply Hok) as (Hn & Hb & ->).
  set (s := sra_ShardIndex args) in *.
  eexists. simpl. rewrite Hargs, !Z.eqb_refl. simpl.
  assert (no_keys h s) as Hno.
  { destruct (sw_shard _ Hh s Hr); try done; unfold SERVING, BEPULLED, PULLING in *; lia. }
  set (m := mkShardRequestMsg _ _ _ _ _).
  assert (command_ok h (mkCommandMsg ShardRequestOperation (DShardRequest m))) as Hcok.
  { exists m. split; [done|]. split; [done|]. intros k [v Hv]. simpl in Hv.
    rewrite shard_data_lookup in Hv. by case_test_in Hv. }
  destruct (apply_command_effect h i _ Hh Hcok) as (h' & o & E & Hef).
  exists h', o. split; [done|]. split; [exact E|].
  assert (apply_command h i (mkCommandMsg ShardRequestOperation (DShardRequest m)) = Ret (h', o) →
    ∃ l, h' = mergeClientSeqNum (set_shardsState l (set_currentState
      (map_fold (λ key value r, <[key := value]> r) (currentState h) (srm_ShardData m)) h)) (clientSeq p) ∧
      nth (Z.to_nat s) l 0 = SERVING) as Hshape.
  { unfold apply_command. simpl. unfold apply_shard_request, mergeShardData. simpl.
    rewrite Z.eqb_refl. cbn [negb]. fold s. rewrite (sstate_index h Hh), bind_Ret, Hpull by done. simpl.
    destruct (set_sstate h Hh s SERVING Hr) as (l & -> & _ & Hl). simpl. intros [= <- <-].
    exists l. split; [done|]. rewrite Hl by done. by rewrite Z.eqb_refl. }
  destruct (Hshape E) as (l & -> & Hl). clear Hshape Hef E. split; [done|]. split; [|split].
  - apply map_eq. intros k. rewrite !shard_data_lookup. case_test; [|done]. simpl.
    rewrite map_fold_insert_lookup, shard_data_lookup. rewrite (proj2 (Z.eqb_eq _ _)) by done.
    destruct (currentState p !! k); [done|]. by apply Hno.
  - intros k Hk. simpl. rewrite map_fold_insert_lookup, shard_data_lookup.
    by rewrite (proj2 (Z.eqb_neq _ _)).
  - intros cl v Hv. rewrite mergeClientSeqNum_get. simpl. by rewrite Hv.
Qed.

(** Group 100 owns everything and has written a key; group 200 gets it all. *)
Definition second_config : Config :=
  mkConfig 2 (replicate (Z.to_nat NShards) 200) {[200 := ["b"%string]]}.
Definition apply_all (kv : ShardKV) (l : list CommandMsg) : ShardKV :=
  foldl (λ kv c, match apply_command kv 1 c with Ret (kv', _) => kv' | _ => kv end) kv l.
Definition sample_giver : ShardKV := apply_all sample_written [config_msg second_config].
Definition sample_taker : ShardKV :=
  apply_all (newServer (-1) 200) [config_msg first_config; config_msg second_config].
Definition sample_rargs : ShardRequestArgs := mkShardRequestArgs 2 (key2shard "k") 200.
Definition sample_rreply : ShardRequestReply :=
  mkShardRequestReply OK 2 (key2shard "k") {["k"%string := "v"%string]} {[7 := 1]}.

Lemma apply_all_wf kv l :
  shard_wf kv → (∀ l1 c l2, l = l1 ++ c :: l2 → command_ok (apply_all kv l1) c) → shard_wf (apply_all kv l).
Proof.
  intros Hw. induction l as [|c l IH] using rev_ind; intros Hok; [done|].
  unfold apply_all. rewrite foldl_app. fold (apply_all kv l). simpl.
  assert (shard_wf (apply_all kv l)) as Hl.
  { apply IH. intros l1 c' l2 ->. apply (Hok l1 c' (l2 ++ [c])). by rewrite <- app_assoc. }
  specialize (Hok l c [] eq_refl).
  destruct (apply_command_effect (apply_all kv l) 1 c Hl Hok) as (kv' & o & -> & Hef).
  by eapply effect_wf.
Qed.

Lemma sample_giver_wf : shard_wf sample_giver.
Proof.
  apply apply_all_wf.
  - destruct (apply_command_effect sample_group 2 sample_sop sample_group_wf I) as (kv' & o & E & Hef).
    unfold sample_written. rewrite E. by apply (effect_wf sample_group sample_sop); [apply sample_group_wf| |].
  - intros l1 c l2 El. destruct l1 as [|? [|]]; [|discriminate..]. injection El as <- <-.
    exists second_config. split_and!; vm_compute; done.
Qed.

Lemma sample_taker_wf : shard_wf sample_taker.
Proof.
  apply apply_all_wf; [apply newServer_wf|].
  intros l1 c l2 El. destruct l1 as [|? [|? [|]]]; [| |discriminate..].
  - injection El as <- <-. exists first_config. split_and!; done.
  - injection El as <- <- <-. exists second_config. split_and!; vm_compute; done.
Qed.

(** A peer that never leads. *)
Definition null_service : RaftService unit CommandMsg.
Proof.
  refine {| rs_wf := λ _, True; rs_command := λ _ _, None; rs_GetState := λ _, (0, false);
            rs_Start := λ r _, Ret (r, (-1, -1, false));
            rs_CondInstallSnapshot := λ r _ _ _, Ret (r, false); rs_Snapshot := λ r _ _, Ret r;
            rs_GetStateSize := λ _, 0; rs_GetSnapshot := λ _, [] |}.
  - intros r c _. by eexists _, _, _, _.
  - done.
Defined.

Lemma shard_transfer_exact_witness :
  ∃ c h' o, ShardsRequester_reply sample_taker (key2shard "k") sample_rargs (Some sample_rreply) = RqStart c ∧
    apply_command sample_taker 3 c = Ret (h', o) ∧ sstate h' (key2shard "k") = SERVING ∧
    shard_data (currentState h') (key2shard "k") = shard_data (currentState sample_giver) (key2shard "k").
Proof.
  destruct (shard_transfer_exact (H := null_service) tt sample_giver sample_taker sample_rargs sample_rreply 3
              sample_giver_wf sample_taker_wf) as (c & h' & o & E1 & E2 & Hs & Hd & _).
  - apply key2shard_range.
  - vm_compute. reflexivity.
  - vm_compute. reflexivity.
  - vm_compute. reflexivity.
  - reflexivity.
  - exists c, h', o. split; [exact E1|]. split; [exact E2|]. split; [exact Hs|exact Hd].
Defined.

(** A shard that is to be pulled keeps the server from being ready. *)
Lemma pulling_not_ready kv s :
  shard_wf kv → 0 ≤ s < NShards → sstate kv s = PULLING → shardsStateReady kv = false.
Proof.
  intros Hw Hs Hpull. destruct (shardsStateReady kv) eqn:Hr; [|done].
  rewrite (ready_iff kv Hw) in Hr. destruct (Hr s Hs); unfold SERVING, NO_SERVING, PULLING in *; lia.
Qed.

(** If nobody runs the group it would be pulled from, nobody is asked for it,
    no configuration is adopted, and operations on it are dropped unanswered. *)
Lemma orphan_waits kv s num latest i op :
  shard_wf kv → 0 ≤ s < NShards → sstate kv s = PULLING →
  Groups (prevConfig kv) !! owner (prevConfig kv) s = None →
  (∃ calls, ShardsRequester kv num = Ret calls ∧
     ∀ t srv args, (t, srv, args) ∈ calls → sra_ShardIndex args ≠ s) ∧
  getLastConfig_target kv latest = None ∧
  (key2shard (Key op) = s → apply_op kv i op = Ret (kv, None)).
Proof.
  intros Hw Hs Hpull Horphan. split_and!.
  - destruct (ShardsRequester_spec kv num Hw) as (calls & -> & Hc). eexists. split; [done|].
    intros g srv args (_ & _ & _ & Hg1 & Hg2)%Hc <-. congruence.
  - unfold getLastConfig_target. assert (Num (config kv) ≠ 0) as Hn.
    { destruct (sw_shard _ Hw s Hs); try done; unfold NO_SERVING, PULLING in *; lia. }
    rewrite (proj2 (Z.eqb_neq _ _)), (pulling_not_ready kv s) by done. by rewrite orb_true_r.
  - intros <-. unfold apply_op. case_test; [done|].
    rewrite (sstate_index kv Hw _ Hs), bind_Ret, Hpull. done.
Qed.

(** A configuration without groups. *)
Definition empty_config (n : Z) : Config := mkConfig n zeroShards ∅.
