(* ===== verification/Clerks.v ===== *)
(** * The clients of the controller and of the groups
    (shardctrler/client.go, shardkv/client.go)

    A clerk repeats a call until it succeeds.  What the network and the
    servers answer is an argument of the loops: for the controller's clerk a
    function of the attempt, for the groups' clerk the answers of each round
    and the configuration queried after it. *)

From S2P Require Import Prelude ShardConfig ShardCtrler ShardKV ShardKVSpec.

(** ** The controller's clerk *)
Module CtrlClerk.
Import ShardCtrler.

Record Clerk := mkClerk {
  servers : nat;     (* len(ck.servers) *)
  clientID : Z;
  seqNum : Z;
  leaderID : Z
}.

(** [id] is what [nrand] returns. *)
Definition MakeClerk (nservers : nat) (id : Z) : Clerk := mkClerk nservers id 1 (-1).

Definition incr_seq (ck : Clerk) : Clerk := mkClerk (servers ck) (clientID ck) (seqNum ck + 1) (leaderID ck).

(** The loop of [Request]: the servers are tried in turn; [net k] is what the
    [k]-th call yields, [None] when it fails; [fuel] bounds the calls.  The
    result has the servers called. *)
Fixpoint Request_from (fuel k : nat) (ck : Clerk) (net : nat → option CommandReply)
  : list nat * option (Clerk * CommandReply) :=
  match fuel with
  | O => ([], None)
  | S fuel =>
      let srv := (k mod servers ck)%nat in
      match net k with
      | Some reply =>
          if negb (WrongLeader reply) then ([srv], Some (incr_seq ck, reply))
          else let '(l, r) := Request_from fuel (S k) ck net in (srv :: l, r)
      | None => let '(l, r) := Request_from fuel (S k) ck net in (srv :: l, r)
      end
  end.

Definition Request (fuel : nat) (ck : Clerk) (net : CommandArgs → nat → option CommandReply)
    (args : CommandArgs) : list nat * option (Clerk * CommandReply) :=
  Request_from fuel 0 ck (net args).

Definition Query_args (ck : Clerk) (num : Z) : CommandArgs :=
  mkCommandArgs QueryArgsType ∅ [] 0 0 num (seqNum ck) (clientID ck).
Definition Join_args (ck : Clerk) (groups : gmap Z (list string)) : CommandArgs :=
  mkCommandArgs JoinArgsType groups [] 0 0 0 (seqNum ck) (clientID ck).
Definition Leave_args (ck : Clerk) (gids : list Z) : CommandArgs :=
  mkCommandArgs LeaveArgsType ∅ gids 0 0 0 (seqNum ck) (clientID ck).
Definition Move_args (ck : Clerk) (shard gid : Z) : CommandArgs :=
  mkCommandArgs MoveArgsType ∅ [] shard gid 0 (seqNum ck) (clientID ck).

(** [Query] returns the configuration of the reply. *)
Definition Query (fuel : nat) (ck : Clerk) (net : CommandArgs → nat → option CommandReply) (num : Z)
  : option (Clerk * Config) :=
  (λ r, (r.1, rConfig r.2)) <$> (Request fuel ck net (Query_args ck num)).2.

(** A call that would be answered is reached, and what is returned was answered. *)
Lemma Request_from_sound fuel k ck net l ck' reply :
  Request_from fuel k ck net = (l, Some (ck', reply)) →
  ck' = incr_seq ck ∧ WrongLeader reply = false ∧
  ∃ j, (k ≤ j < k + fuel)%nat ∧ net j = Some reply ∧
    (∀ i r, (k ≤ i < j)%nat → net i = Some r → WrongLeader r = true) ∧
    l = (λ i, (i mod servers ck)%nat) <$> seq k (S j - k).
Proof.
  revert k l. induction fuel as [|fuel IH]; intros k l; simpl; [done|].
  assert ((∀ r, net k = Some r → WrongLeader r = true) →
    (let '(l, r) := Request_from fuel (S k) ck net in ((k mod servers ck)%nat :: l, r)) =
    (l, Some (ck', reply)) → ck' = incr_seq ck ∧ WrongLeader reply = false ∧
    ∃ j, (k ≤ j < k + S fuel)%nat ∧ net j = Some reply ∧
      (∀ i r, (k ≤ i < j)%nat → net i = Some r → WrongLeader r = true) ∧
      l = (λ i, (i mod servers ck)%nat) <$> seq k (S j - k)) as Hnext.
  { intros Hk. destruct (Request_from fuel (S k) ck net) as [l1 r] eqn:E. intros [= <- ->].
    destruct (IH _ _ E) as (? & ? & j & Hj & ? & Hfirst & ->). split; [done|]. split; [done|]. exists j.
    split; [lia|]. split; [done|]. split.
    - intros i r Hi. destruct (decide (i = k)) as [->|]; [apply Hk|apply Hfirst; lia].
    - replace (S j - k)%nat with (S (S j - S k)) by lia. done. }
  destruct (net k) as [r0|] eqn:En; [|by apply Hnext].
  destruct (WrongLeader r0) eqn:Ew; simpl; [apply Hnext; by intros r [= <-]|].
  intros [= <- <- <-]. split; [done|]. split; [done|]. exists k. split; [lia|]. split; [done|].
  split; [lia|]. by replace (S k - k)%nat with 1%nat by lia.
Qed.

Lemma Request_from_complete fuel k ck net j reply :
  (k ≤ j < k + fuel)%nat → net j = Some reply → WrongLeader reply = false →
  ∃ l r, Request_from fuel k ck net = (l, Some r).
Proof.
  revert k. induction fuel as [|fuel IH]; intros k Hj Hn Hw; simpl; [lia|].
  destruct (decide (j = k)) as [->|Hne].
  - rewrite Hn, Hw. eexists _, _. done.
  - destruct (IH (S k)) as (l & r & E); [lia|done|done|]. rewrite E.
    destruct (net k) as [r0|]; [destruct (WrongLeader r0)|]; eexists _, _; done.
Qed.
End CtrlClerk.

(** ** The groups' clerk *)
Module ShardClerk.
Import ShardKV.

Record Clerk := mkClerk {
  config : Config;
  clientID : Z;
  seqNum : Z
}.

(** [id] is what [nrand] returns, [cfg] the answer to [Query(-1)]. *)
Definition MakeClerk (id : Z) (cfg : Config) : Clerk := mkClerk cfg id 1.

Definition set_config (cfg : Config) (ck : Clerk) : Clerk := mkClerk cfg (clientID ck) (seqNum ck).
Definition incr_seq (ck : Clerk) : Clerk := mkClerk (config ck) (clientID ck) (seqNum ck + 1).

(** What a reply means to the loop: return a value, ask for a new
    configuration, or try the next server. *)
Inductive verdict := VDone (value : string) | VBreak | VNext.

Definition Get_verdict (reply : option GetReply) : verdict :=
  match reply with
  | None => VNext
  | Some r =>
      if bool_decide (gr_Err r = OK) || bool_decide (gr_Err r = ErrNoKey) then VDone (gr_Value r)
      else if bool_decide (gr_Err r = ErrWrongGroup) then VBreak else VNext
  end.

Definition PutAppend_verdict (reply : option string) : verdict :=
  match reply with
  | None => VNext
  | Some err =>
      if bool_decide (err = OK) then VDone ""
      else if bool_decide (err = ErrWrongGroup) then VBreak else VNext
  end.

(** The servers of the group, in order, until one settles the round: those
    called, and the value if there is one. *)
Fixpoint try_servers (servers : list string) (answers : list verdict) : list string * option string :=
  match servers, answers with
  | srv :: servers, v :: answers =>
      match v with
      | VDone value => ([srv], Some value)
      | VBreak => ([srv], None)
      | VNext => let '(l, r) := try_servers servers answers in (srv :: l, r)
      end
  | srv :: servers, [] => let '(l, r) := try_servers servers [] in (srv :: l, r)
  | [], _ => ([], None)
  end.

(** The loop shared by [Get] and [PutAppend]: each round has the answers of
    the servers and the configuration the controller returns afterwards. *)
Fixpoint ck_loop (ck : Clerk) (key : string) (rounds : list (list verdict * Config))
  : Go (Clerk * list string * option string) :=
  match rounds with
  | [] => mret (ck, [], None)
  | (answers, cfg) :: rounds =>
      gid ← index (Shards (config ck)) (key2shard key);
      let '(called, r) := match Groups (config ck) !! gid with
                          | Some servers => try_servers servers answers
                          | None => ([], None)
                          end in
      match r with
      | Some value => mret (incr_seq ck, called, Some value)
      | None =>
          '(ck', more, r') ← ck_loop (set_config cfg ck) key rounds;
          mret (ck', called ++ more, r')
      end
  end.

(** The arguments are fixed before the first round. *)
Definition Get_args (ck : Clerk) (key : string) : GetArgs := mkGetArgs key (clientID ck) (seqNum ck).
Definition PutAppend_args (ck : Clerk) (key value op : string) : PutAppendArgs :=
  mkPutAppendArgs key value op (clientID ck) (seqNum ck).

Definition get_rounds : list (list (option GetReply) * Config) → list (list verdict * Config) :=
  map (λ r, (map Get_verdict r.1, r.2)).
Definition put_rounds : list (list (option string) * Config) → list (list verdict * Config) :=
  map (λ r, (map PutAppend_verdict r.1, r.2)).

Definition Get (ck : Clerk) (key : string) (rounds : list (list (option GetReply) * Config)) :=
  ck_loop ck key (get_rounds rounds).

Definition PutAppend (ck : Clerk) (key value op : string) (rounds : list (list (option string) * Config)) :=
  ck_loop ck key (put_rounds rounds).

Definition Put (ck : Clerk) (key value : string) := PutAppend ck key value "Put".
Definition Append (ck : Clerk) (key value : string) := PutAppend ck key value "Append".

(** ** Sessions of a clerk *)
Inductive request := RGet (args : GetArgs) | RPutAppend (args : PutAppendArgs).
Definition request_seq (r : request) : Z :=
  match r with RGet args => ga_SeqNum args | RPutAppend args => pa_SeqNum args end.
Definition request_client (r : request) : Z :=
  match r with RGet args => ga_ClientID args | RPutAppend args => pa_ClientID args end.

Inductive command :=
| CGet (key : string) (rounds : list (list (option GetReply) * Config))
| CPutAppend (key value op : string) (rounds : list (list (option string) * Config)).

(** One call of the clerk: the request every server called is sent. *)
Definition perform (ck : Clerk) (c : command) : Go (Clerk * request * list string * option string) :=
  match c with
  | CGet key rounds =>
      '(ck', called, r) ← Get ck key rounds; mret (ck', RGet (Get_args ck key), called, r)
  | CPutAppend key value op rounds =>
      '(ck', called, r) ← PutAppend ck key value op rounds;
      mret (ck', RPutAppend (PutAppend_args ck key value op), called, r)
  end.

(** Calls one after the other; a call that has not returned keeps the clerk.
    The messages sent, in order. *)
Fixpoint session (ck : Clerk) (cs : list command) : Go (Clerk * list (string * request)) :=
  match cs with
  | [] => mret (ck, [])
  | c :: cs =>
      '(ck', req, called, r) ← perform ck c;
      match r with
      | None => mret (ck', (λ srv, (srv, req)) <$> called)
      | Some _ =>
          '(ck'', sent) ← session ck' cs;
          mret (ck'', ((λ srv, (srv, req)) <$> called) ++ sent)
      end
  end.

(** The configurations the controller returns are complete. *)
Definition full (cfg : Config) : Prop := length (Shards cfg) = Z.to_nat NShards.

Definition command_full (c : command) : Prop :=
  match c with
  | CGet _ rounds => Forall (λ r, full r.2) rounds
  | CPutAppend _ _ _ rounds => Forall (λ r, full r.2) rounds
  end.

Lemma ck_loop_spec ck key rounds :
  full (config ck) → Forall (λ r, full r.2) rounds →
  ∃ ck' called r, ck_loop ck key rounds = Ret (ck', called, r) ∧ full (config ck') ∧
    clientID ck' = clientID ck ∧ seqNum ck' = match r with Some _ => seqNum ck + 1 | None => seqNum ck end.
Proof.
  revert ck. induction rounds as [|[answers cfg] rounds IH]; intros ck Hck Hr; simpl.
  - eexists _, _, _. done.
  - apply Forall_cons in Hr as [Hcfg Hr].
    rewrite index_nth, bind_Ret by (unfold zlen; rewrite Hck; apply key2shard_range).
    destruct (match Groups (config ck) !! _ with Some _ => _ | None => _ end) as [called [value|]].
    + eexists _, _, _. done.
    + destruct (IH (set_config cfg ck) Hcfg Hr) as (ck' & more & r & -> & ? & ? & ?).
      rewrite bind_Ret. eexists _, _, _. done.
Qed.

Lemma perform_spec ck c :
  full (config ck) → command_full c →
  ∃ ck' req called r, perform ck c = Ret (ck', req, called, r) ∧ full (config ck') ∧
    clientID ck' = clientID ck ∧ seqNum ck' = (match r with Some _ => seqNum ck + 1 | None => seqNum ck end) ∧
    request_seq req = seqNum ck ∧ request_client req = clientID ck.
Proof.
  intros Hck Hc. destruct c as [key rounds|key value op rounds]; simpl in *.
  - destruct (ck_loop_spec ck key (get_rounds rounds)) as (ck' & called & r & E & ? & ? & ?);
      [done|by apply Forall_map|].
    unfold Get. rewrite E. simpl. eexists _, _, _, _. split_and!; done.
  - destruct (ck_loop_spec ck key (put_rounds rounds)) as (ck' & called & r & E & ? & ? & ?);
      [done|by apply Forall_map|].
    unfold PutAppend. rewrite E. simpl. eexists _, _, _, _. split_and!; done.
Qed.

Lemma session_spec ck cs :
  full (config ck) → Forall command_full cs →
  ∃ ck' sent, session ck cs = Ret (ck', sent) ∧ seqNum ck ≤ seqNum ck' ∧
    (∀ srv req, (srv, req) ∈ sent → seqNum ck ≤ request_seq req ∧ request_client req = clientID ck) ∧
    (∀ m1 m2, m1 ∈ sent → m2 ∈ sent → request_seq m1.2 = request_seq m2.2 → m1.2 = m2.2).
Proof.
  revert ck. induction cs as [|c cs IH]; intros ck Hck Hcs; simpl.
  - eexists _, _. split; [done|]. split; [lia|]. split; intros; set_solver.
  - apply Forall_cons in Hcs as [Hc Hcs].
    destruct (perform_spec ck c Hck Hc) as (ck1 & req & called & r & -> & Hf & Hid & Hs & Hq & Hcl). rewrite bind_Ret.
    assert (∀ m, m ∈ (λ srv : string, (srv, req)) <$> called → m.2 = req) as Hm.
    { intros m (srv & -> & _)%list_elem_of_fmap. done. }
    destruct r as [value|].
    + destruct (IH ck1 Hf Hcs) as (ck2 & sent & -> & Hle & Hin & Huniq). rewrite bind_Ret.
      eexists _, _. split; [done|]. split; [lia|]. split.
      * intros srv rq [Hx|Hx]%elem_of_app; [apply Hm in Hx; simpl in Hx; subst rq; split; [lia|done]|].
        destruct (Hin _ _ Hx). split; [lia|congruence].
      * intros [s1 m1] [s2 m2] [H1|H1]%elem_of_app [H2|H2]%elem_of_app Heq; simpl in *.
        -- apply Hm in H1, H2. simpl in *. congruence.
        -- apply Hm in H1. simpl in H1. subst m1. destruct (Hin _ _ H2). lia.
        -- apply Hm in H2. simpl in H2. subst m2. destruct (Hin _ _ H1). lia.
        -- by apply (Huniq (s1, m1) (s2, m2)).
    + eexists _, _. split; [done|]. split; [lia|]. split.
      * intros srv rq Hx%Hm. simpl in Hx. subst rq. split; [lia|done].
      * intros m1 m2 H1%Hm H2%Hm _. congruence.
Qed.
End ShardClerk.

(** ** Theorems *)

(** the controller's clerk finds the leader.  The calls go to the servers
    in turn; if from some call on one of them answers as leader whenever it is
    called, [Request] returns within one more round of all servers, with a
    reply that a leader gave to the very arguments of the request. *)
Theorem Request_finds_leader (ck : CtrlClerk.Clerk) (args : ShardCtrler.CommandArgs)
    (net : ShardCtrler.CommandArgs → nat → option ShardCtrler.CommandReply) (t leader fuel : nat)
    (Hl : (leader < CtrlClerk.servers ck)%nat) (Hfuel : (t + CtrlClerk.servers ck ≤ fuel)%nat)
    (Hnet : ∀ k, (t ≤ k)%nat → (k mod CtrlClerk.servers ck)%nat = leader →
       ∃ reply, net args k = Some reply ∧ ShardCtrler.WrongLeader reply = false) :
  ∃ l reply, CtrlClerk.Request fuel ck net args = (l, Some (CtrlClerk.incr_seq ck, reply)) ∧
    ShardCtrler.WrongLeader reply = false ∧ (length l ≤ t + CtrlClerk.servers ck)%nat ∧
    net args (length l - 1)%nat = Some reply ∧
    ∀ i, (i < length l)%nat → l !! i = Some (i mod CtrlClerk.servers ck)%nat.
Proof.
  set (n := CtrlClerk.servers ck) in *.
  assert (∃ j, (t ≤ j < t + n)%nat ∧ (j mod n)%nat = leader) as (j & Hj & Hmod).
  { destruct (Nat.le_gt_cases (t mod n) leader) as [Hle|Hgt].
    - exists (t + (leader - t mod n))%nat. split; [lia|].
      rewrite (Nat.div_mod_eq t n) at 1. replace (n * (t / n) + t mod n + (leader - t mod n))%nat
        with (leader + (t / n) * n)%nat by lia.
      rewrite Nat.Div0.mod_add. by apply Nat.mod_small.
    - pose proof (Nat.mod_upper_bound t n ltac:(lia)).
      exists (t + (n - t mod n) + leader)%nat. split; [lia|].
      rewrite (Nat.div_mod_eq t n) at 1. replace (n * (t / n) + t mod n + (n - t mod n) + leader)%nat
        with (leader + (t / n + 1) * n)%nat by lia.
      rewrite Nat.Div0.mod_add. by apply Nat.mod_small. }
  destruct (Hnet j) as (r0 & Hr0 & Hw0); [lia|done|].
  assert (∃ l r, CtrlClerk.Request fuel ck net args = (l, Some r)) as (l & [ck' reply] & E).
  { eapply CtrlClerk.Request_from_complete; [|done|done]. lia. }
  destruct (CtrlClerk.Request_from_sound _ _ _ _ _ _ _ E) as (-> & Hw & i & Hi & Hn & Hfirst & ->).
  exists ((λ i, (i mod n)%nat) <$> seq 0 (S i - 0)), reply.
  assert (i ≤ j)%nat as Hij.
  { destruct (Nat.le_gt_cases i j) as [|Hgt]; [done|]. exfalso. rewrite (Hfirst j r0) in Hw0; [done|lia|done]. }
  rewrite length_fmap, length_seq. split; [exact E|]. split; [done|]. split; [lia|].
  split; [by replace (S i - 0 - 1)%nat with i by lia|].
  intros k Hk. rewrite list_lookup_fmap, lookup_seq_lt by lia. done.
Qed.

(** Server 2 of three leads; the first call to it is lost. *)
Definition sample_net (args : ShardCtrler.CommandArgs) (k : nat) : option ShardCtrler.CommandReply :=
  if bool_decide (k < 3)%nat then None
  else if bool_decide (k mod 3 = 2)%nat then Some (ShardCtrler.mkCommandReply 0 false "OK" (empty_config 4))
  else Some (ShardCtrler.mkCommandReply 0 true "ErrWrongLeader" emptyConfig).

Lemma Request_finds_leader_witness :
  ∃ l reply, CtrlClerk.Request 6 (CtrlClerk.MakeClerk 3 77) sample_net
      (CtrlClerk.Query_args (CtrlClerk.MakeClerk 3 77) (-1)) =
    (l, Some (CtrlClerk.incr_seq (CtrlClerk.MakeClerk 3 77), reply)) ∧ (length l ≤ 3 + 3)%nat.
Proof.
  destruct (Request_finds_leader (CtrlClerk.MakeClerk 3 77) (CtrlClerk.Query_args (CtrlClerk.MakeClerk 3 77) (-1))
              sample_net 3 2 6) as (l & reply & E & _ & Hlen & _).
  - simpl. lia.
  - simpl. lia.
  - intros k Hk Hmod. eexists. unfold sample_net. rewrite bool_decide_eq_false_2 by lia.
    rewrite bool_decide_eq_true_2 by exact Hmod. split; reflexivity.
  - exists l, reply. split; [exact E|exact Hlen].
Defined.

(** a sequence number names one operation.  Whatever the servers and the
    controller answer, a clerk never panics, and of all messages it sends in
    its life, to whichever groups, two with the same number are the same
    operation: retries repeat the request, and a new request gets a new
    number.  This is what deduplication by number relies on. *)
Theorem clerk_seq_identifies (id : Z) (cfg : Config) (cs : list ShardClerk.command)
    (Hcfg : ShardClerk.full cfg) (Hcs : Forall ShardClerk.command_full cs) :
  ∃ ck sent, ShardClerk.session (ShardClerk.MakeClerk id cfg) cs = Ret (ck, sent) ∧
    (∀ srv req, (srv, req) ∈ sent → 1 ≤ ShardClerk.request_seq req ∧ ShardClerk.request_client req = id) ∧
    (∀ m1 m2, m1 ∈ sent → m2 ∈ sent → ShardClerk.request_seq m1.2 = ShardClerk.request_seq m2.2 → m1.2 = m2.2).
Proof.
  destruct (ShardClerk.session_spec (ShardClerk.MakeClerk id cfg) cs Hcfg Hcs) as (ck & sent & E & _ & H1 & H2).
  exists ck, sent. split; [exact E|]. split; [exact H1|exact H2].
Qed.

(** An append that is answered wrong-group, then succeeds at the other group. *)
Definition sample_commands : list ShardClerk.command :=
  [ShardClerk.CPutAppend "k" "v" "Append" [([None; Some "ErrWrongGroup"%string], second_config);
                                           ([Some "OK"%string], second_config)];
   ShardClerk.CGet "k" [([Some (ShardKV.mkGetReply "OK" "v")], second_config)]].

Lemma clerk_seq_identifies_witness :
  ∃ ck sent, ShardClerk.session (ShardClerk.MakeClerk 7 first_config) sample_commands = Ret (ck, sent) ∧
    ∀ m1 m2, m1 ∈ sent → m2 ∈ sent → ShardClerk.request_seq m1.2 = ShardClerk.request_seq m2.2 → m1.2 = m2.2.
Proof.
  destruct (clerk_seq_identifies 7 first_config sample_commands) as (ck & sent & E & _ & H2).
  - reflexivity.
  - repeat constructor.
  - exists ck, sent. split; [exact E|exact H2].
Defined.
