(* ===== verification/ShardSystem.v ===== *)
(** * Replica groups together: moving shards between them

    Each group has one committed log, and the state of each of its servers is
    that of some prefix of the log.  The background loops of any server,
    lagging or not, may at any time read its state, call other groups and
    propose commands; calls, replies and proposals are delivered late, in any
    order, repeatedly or never.  The controller's configurations are given by
    their numbers, as [ShardCtrlerSpec.query_stable] justifies. *)

From S2P Require Import Prelude Persister Chan RaftApi Raft ShardConfig Rebalance ShardCtrler ShardCtrlerSpec ShardKV ShardKVSpec.
Import ShardKV.

(** ** What the groups rely on of the controller *)
Class Controller := {
  cfg_at : Z → option Config;
  cfg_num : ∀ n c, cfg_at n = Some c → Num c = n;
  cfg_len : ∀ n c, cfg_at n = Some c → length (Shards c) = Z.to_nat NShards
}.

(** A controller server provides it. *)
Definition server_cfg_at (sc : ShardCtrler.server) (n : Z) : option Config :=
  if n <? 0 then None else ShardCtrler.configs sc !! Z.to_nat n.

Lemma server_cfg_num sc n c : ctrl_wf sc → server_cfg_at sc n = Some c → Num c = n.
Proof.
  intros Hw. unfold server_cfg_at. case_test; [done|]. intros Hc.
  destruct (cw_configs _ Hw _ _ Hc) as [Hn _ _]. lia.
Qed.

Lemma server_cfg_len sc n c :
  ctrl_wf sc → server_cfg_at sc n = Some c → length (Shards c) = Z.to_nat NShards.
Proof.
  intros Hw. unfold server_cfg_at. case_test; [done|]. intros Hc.
  by destruct (cw_configs _ Hw _ _ Hc).
Qed.

(** ** Logs *)

(** A server executing a log, whose first entry has index [i]. *)
Fixpoint run_log (kv : ShardKV) (i : Z) (l : list CommandMsg) : Go ShardKV :=
  match l with
  | [] => mret kv
  | c :: l => '(kv', _) ← apply_command kv i c; run_log kv' (i + 1) l
  end.

Definition start (g : Z) : ShardKV := newServer (-1) g.

Lemma run_log_snoc kv i l c :
  run_log kv i (l ++ [c]) =
  (kv' ← run_log kv i l; '(kv'', _) ← apply_command kv' (i + zlen l) c; mret kv'').
Proof.
  revert kv i. induction l as [|x l IH]; intros kv i; simpl.
  - rewrite zlen_nil, Z.add_0_r. by destruct (apply_command kv i c) as [[? ?]| |].
  - destruct (apply_command kv i x) as [[kv' o]| |]; simpl; [|done..]. rewrite IH, zlen_cons.
    by replace (i + (1 + zlen l)) with (i + 1 + zlen l) by lia.
Qed.

(** Every entry was acceptable where it stands. *)
Definition log_ok (g : Z) (l : list CommandMsg) : Prop :=
  ∀ l1 c l2, l = l1 ++ c :: l2 → ∃ kv, run_log (start g) 1 l1 = Ret kv ∧ command_ok kv c.

Lemma log_ok_snoc g l c :
  log_ok g (l ++ [c]) ↔ log_ok g l ∧ ∃ kv, run_log (start g) 1 l = Ret kv ∧ command_ok kv c.
Proof.
  split.
  - intros Ho. split; [|by apply (Ho l c [])]. intros l1 x l2 ->. apply (Ho l1 x (l2 ++ [c])).
    by rewrite <- app_assoc.
  - intros [Ho Hc] l1 x l2 E. destruct l2 as [|y l2 _] using rev_ind.
    + apply app_inj_tail in E as [-> ->]. done.
    + rewrite app_comm_cons, app_assoc in E. apply app_inj_tail in E as [-> _]. by apply (Ho l1 x l2).
Qed.

Lemma log_ok_prefix g l l' : l' `prefix_of` l → log_ok g l → log_ok g l'.
Proof.
  intros [k ->] Ho l1 c l2 ->. apply (Ho l1 c (l2 ++ k)). by rewrite <- app_assoc.
Qed.

(** One more entry. *)
Lemma run_log_step g l c kv :
  run_log (start g) 1 l = Ret kv → shard_wf kv → command_ok kv c →
  ∃ kv', run_log (start g) 1 (l ++ [c]) = Ret kv' ∧ effect kv c kv' ∧ shard_wf kv'.
Proof.
  intros Hrun Hw Hok. rewrite run_log_snoc, Hrun, bind_Ret.
  destruct (apply_command_effect kv (1 + zlen l) c Hw Hok) as (kv' & o & -> & Hef). rewrite bind_Ret.
  exists kv'. split; [done|]. split; [done|]. by eapply effect_wf.
Qed.

Lemma log_ok_run g l :
  log_ok g l → ∃ kv, run_log (start g) 1 l = Ret kv ∧ shard_wf kv ∧ gid kv = g ∧ lastIncludedIndex kv = 0.
Proof.
  induction l as [|c l IH] using rev_ind; intros Ho.
  - exists (start g). split_and!; try done. apply newServer_wf.
  - apply log_ok_snoc in Ho as [Ho (kv & Hrun & Hok)]. destruct (IH Ho) as (kv1 & Hrun1 & Hw & Hg & Hi).
    assert (kv1 = kv) as -> by congruence.
    destruct (run_log_step g l c kv Hrun Hw Hok) as (kv' & Hrun' & Hef & Hw').
    destruct (effect_static _ _ _ Hef) as [? ?]. exists kv'. split_and!; try done; congruence.
Qed.

(** Along a log configuration numbers grow, and readiness is lost only with
    the configuration. *)
Lemma log_ok_mono g l k kv1 kv2 :
  log_ok g (l ++ k) → run_log (start g) 1 l = Ret kv1 → run_log (start g) 1 (l ++ k) = Ret kv2 →
  Num (config kv1) ≤ Num (config kv2) ∧
  (Num (config kv1) = Num (config kv2) → shardsStateReady kv1 = true → shardsStateReady kv2 = true).
Proof.
  revert kv2. induction k as [|c k IH] using rev_ind; intros kv2 Ho H1 H2.
  - rewrite app_nil_r in H2. assert (kv1 = kv2) as -> by congruence. done.
  - rewrite app_assoc in Ho, H2. apply log_ok_snoc in Ho as [Ho (kv & Hrun & Hok)].
    destruct (IH kv Ho H1 Hrun) as [Hle Hrdy]. destruct (log_ok_run _ _ Ho) as (kv' & E & Hw & _).
    assert (kv' = kv) as -> by congruence.
    destruct (run_log_step g _ c kv Hrun Hw Hok) as (kv'' & E'' & Hef & _).
    assert (kv'' = kv2) as -> by congruence. pose proof (effect_num _ _ _ Hok Hef). split; [lia|].
    intros Heq Hr. eapply effect_ready; [done..| |lia]. apply Hrdy; [lia|done].
Qed.


(** ** The world *)

(** An operation a group executed, and the configuration it was in. *)
Record event := mkEvent { ev_group : Z; ev_config : Z; ev_op : Op }.

(** The operations a server executes (and does not merely answer) on a
    command: those on a shard it serves that are new for the client. *)
Definition executed (kv : ShardKV) (c : CommandMsg) : list Op :=
  match Data c with
  | DOp op =>
      if (CommandType c =? KVOperation) && (sstate kv (key2shard (Key op)) =? SERVING) &&
         (map_get 0 (clientSeq kv) (ClientID op) <? SeqNum op)
      then [op] else []
  | _ => []
  end.

Section world.
Context {K : Controller} {R : Type} `{RaftService R CommandMsg}.

(** Whether a pass of [ShardsConfirm] sees one configuration only: the code
    reads the number it sends after it released the lock, when the
    configuration may have changed. *)
Context (atomic : bool).

(** The committed logs; the proposals made (group, command); the requests for
    shards (addressee, arguments) and the answers; the requests for
    confirmation (sender, addressee, arguments) and the answers; and, to state
    what the groups do together, the operations executed so far, in order. *)
Record world := mkWorld {
  w_logs : gmap Z (list CommandMsg);
  w_props : list (Z * CommandMsg);
  w_asks : list (Z * ShardRequestArgs);
  w_answers : list (ShardRequestArgs * ShardRequestReply);
  w_casks : list (Z * Z * ShardConfirmArgs);
  w_canswers : list (Z * ShardConfirmArgs * ShardConfirmReply);
  w_hist : list event
}.
Implicit Types (W : world).

Definition log W (g : Z) : list CommandMsg := default [] (w_logs W !! g).

Definition propose W (g : Z) (c : CommandMsg) : world :=
  mkWorld (w_logs W) ((g, c) :: w_props W) (w_asks W) (w_answers W) (w_casks W) (w_canswers W)
    (w_hist W).

(** Messages on their way. *)
Definition ask W (t : Z) (args : ShardRequestArgs) : world :=
  mkWorld (w_logs W) (w_props W) ((t, args) :: w_asks W) (w_answers W) (w_casks W) (w_canswers W) (w_hist W).
Definition answer W (args : ShardRequestArgs) (reply : ShardRequestReply) : world :=
  mkWorld (w_logs W) (w_props W) (w_asks W) ((args, reply) :: w_answers W) (w_casks W) (w_canswers W) (w_hist W).
Definition cask W (g t : Z) (args : ShardConfirmArgs) : world :=
  mkWorld (w_logs W) (w_props W) (w_asks W) (w_answers W) ((g, t, args) :: w_casks W) (w_canswers W) (w_hist W).
Definition canswer W (g : Z) (args : ShardConfirmArgs) (reply : ShardConfirmReply) : world :=
  mkWorld (w_logs W) (w_props W) (w_asks W) (w_answers W) (w_casks W) ((g, args, reply) :: w_canswers W) (w_hist W).

(** A server of group [g] has executed some prefix of the group's log. *)
Definition replica W (g : Z) (kv : ShardKV) : Prop :=
  ∃ l, l `prefix_of` log W g ∧ run_log (start g) 1 l = Ret kv.

Definition world_init : world := mkWorld ∅ [] [] [] [] [] [].

(** Group [g] commits [c]. *)
Definition commit W (g : Z) (c : CommandMsg) : world :=
  mkWorld (<[g := log W g ++ [c]]> (w_logs W)) (w_props W) (w_asks W) (w_answers W) (w_casks W)
    (w_canswers W)
    (w_hist W ++ match run_log (start g) 1 (log W g) with
                 | Ret kv => mkEvent g (Num (config kv)) <$> executed kv c
                 | _ => []
                 end).

Inductive wstep : world → world → Prop :=
| ws_client W g op :                          (* Get, PutAppend: a leader logs an operation *)
    wstep W (propose W g (mkCommandMsg KVOperation (DOp op)))
| ws_noop W g :                               (* RaftLogChecker *)
    wstep W (propose W g (mkCommandMsg NoOperation DNil))
| ws_config W g kv latest n cfg :             (* getLastConfig *)
    replica W g kv → getLastConfig_target kv latest = Some n → cfg_at n = Some cfg →
    wstep W (propose W g (getLastConfig_msg cfg))
| ws_commit W g c :                           (* Raft commits a proposal *)
    (g, c) ∈ w_props W →
    wstep W (commit W g c)
| ws_ask W g kv kv' calls t srv args :        (* ShardsRequester *)
    replica W g kv → replica W g kv' →
    ShardsRequester kv (Num (config kv')) = Ret calls → (t, srv, args) ∈ calls →
    wstep W (ask W t args)
| ws_answer W t args kv rf reply :            (* ShardsRequestHandler *)
    (t, args) ∈ w_asks W → replica W t kv → ShardsRequestHandler rf kv args = Ret reply →
    wstep W (answer W args reply)
| ws_take W args reply kv c :                 (* ShardsRequester, on the reply *)
    (args, reply) ∈ w_answers W → replica W (sra_GID args) kv →
    ShardsRequester_reply kv (sra_ShardIndex args) args (Some reply) = RqStart c →
    wstep W (propose W (sra_GID args) c)
| ws_cask W g kv kv' calls t srv args :       (* ShardsConfirm *)
    replica W g kv → replica W g kv' → (atomic = true → Num (config kv') = Num (config kv)) →
    ShardsConfirm kv (Num (config kv')) = Ret calls → (t, srv, args) ∈ calls →
    wstep W (cask W g t args)
| ws_canswer W g t args kv rf reply :         (* ShardsConfirmHandler *)
    (g, t, args) ∈ w_casks W → replica W t kv → ShardsConfirmHandler rf kv args = Ret reply →
    wstep W (canswer W g args reply)
| ws_ctake W g args reply kv c :              (* ShardsConfirm, on the reply *)
    (g, args, reply) ∈ w_canswers W → replica W g kv →
    ShardsConfirm_reply kv args (Some reply) = Some c →
    wstep W (propose W g c).

Inductive wreach : world → Prop :=
| wr_init : wreach world_init
| wr_step W W' : wreach W → wstep W W' → wreach W'.

(** ** The invariant *)

(** Group [g] has reached configuration [n]. *)
Definition reached W (g n : Z) : Prop :=
  ∃ kv, run_log (start g) 1 (log W g) = Ret kv ∧ n ≤ Num (config kv).

(** Shard [s] has been handed on in every configuration up to [n]: whoever
    owned it before a configuration has reached that configuration. *)
Definition handed W (s n : Z) : Prop :=
  ∀ e cfg, 2 ≤ e ≤ n → cfg_at (e - 1) = Some cfg → reached W (owner cfg s) e.

(** The configurations a server holds are the controller's. *)
Definition config_from (c : Config) : Prop := Num c = 0 ∨ cfg_at (Num c) = Some c.

(** What is known of a proposal. *)
Definition prop_ok W (g : Z) (c : CommandMsg) : Prop :=
  match Data c with
  | DConfig cfg => CommandType c = ConfigOperation ∧ cfg_at (Num cfg) = Some cfg ∧ 1 ≤ Num cfg ∧
      ∃ kv, replica W g kv ∧ Num cfg = Num (config kv) + 1 ∧ shardsStateReady kv = true
  | DShardRequest m => CommandType c = ShardRequestOperation ∧ 0 ≤ srm_ShardIndex m < NShards ∧
      (∀ k, is_Some (srm_ShardData m !! k) → key2shard k = srm_ShardIndex m) ∧
      handed W (srm_ShardIndex m) (srm_ConfigNum m)
  | DShardConfirm m => CommandType c = ShardConfirmOperation ∧ 0 ≤ scm_ShardIndex m < NShards
  | DOp _ => CommandType c = KVOperation
  | DNil => CommandType c = NoOperation
  end.

Record winv W : Prop := {
  wi_logs : ∀ g, log_ok g (log W g);
  wi_configs : ∀ g kv, replica W g kv → config_from (config kv) ∧ config_from (prevConfig kv);
  wi_holds : ∀ g kv s, replica W g kv → 0 ≤ s < NShards →
    sstate kv s = SERVING ∨ sstate kv s = BEPULLED → handed W s (Num (config kv));
  wi_props : ∀ g c, (g, c) ∈ w_props W → prop_ok W g c;
  wi_asks : ∀ t args, (t, args) ∈ w_asks W → 0 ≤ sra_ShardIndex args < NShards;
  wi_answers : ∀ args reply, (args, reply) ∈ w_answers W → 0 ≤ sra_ShardIndex args < NShards ∧
    (srr_Err reply = OK →
       (∀ k, is_Some (srr_ShardData reply !! k) → key2shard k = sra_ShardIndex args) ∧
       srr_ConfigNum reply = sra_ConfigNum args ∧ handed W (sra_ShardIndex args) (sra_ConfigNum args));
  wi_casks : ∀ g t args, (g, t, args) ∈ w_casks W → 0 ≤ sca_ShardIndex args < NShards;
  wi_canswers : ∀ g args reply, (g, args, reply) ∈ w_canswers W → 0 ≤ sca_ShardIndex args < NShards
}.

(** The states of replicas. *)
Lemma replica_wf W g kv : winv W → replica W g kv → shard_wf kv ∧ gid kv = g.
Proof.
  intros Hinv (l & Hp & Hrun). destruct (log_ok_run g l) as (kv' & E & ? & ? & _).
  { eapply log_ok_prefix; [done|apply (wi_logs _ Hinv)]. }
  assert (kv' = kv) as -> by congruence. done.
Qed.

Lemma group_state W g : winv W →
  ∃ kv, run_log (start g) 1 (log W g) = Ret kv ∧ shard_wf kv ∧ gid kv = g ∧ replica W g kv.
Proof.
  intros Hinv. destruct (log_ok_run g (log W g) (wi_logs _ Hinv g)) as (kv & E & ? & ? & _).
  exists kv. split_and!; try done. by exists (log W g).
Qed.

(** ** Growth *)

(** [W'] has the logs of [W], possibly longer. *)
Definition grows W W' : Prop := ∀ g, log W g `prefix_of` log W' g ∧ log_ok g (log W' g).

Lemma replica_grows W W' g kv : grows W W' → replica W g kv → replica W' g kv.
Proof. intros Hg (l & Hp & Hrun). exists l. split; [|done]. etrans; [done|apply Hg]. Qed.

Lemma reached_grows W W' g n : grows W W' → reached W g n → reached W' g n.
Proof.
  intros Hg (kv & Hrun & Hn). destruct (Hg g) as [[k Hk] Hok].
  destruct (log_ok_run g (log W' g) Hok) as (kv' & E & _). exists kv'. split; [done|].
  rewrite Hk in E, Hok. destruct (log_ok_mono g _ _ _ _ Hok Hrun E). lia.
Qed.

Lemma handed_grows W W' s n : grows W W' → handed W s n → handed W' s n.
Proof. intros Hg Hh e cfg He Hc. eapply reached_grows; [done|]. by apply Hh. Qed.

Lemma prop_ok_grows W W' g c : grows W W' → prop_ok W g c → prop_ok W' g c.
Proof.
  intros Hg. unfold prop_ok. destruct (Data c); try done.
  - intros (? & ? & ? & kv & Hr & ?). split_and!; try done. exists kv. split; [by eapply replica_grows|done].
  - intros (? & ? & ? & ?). split_and!; try done; try lia. by eapply handed_grows.
Qed.

(** A world with the same logs. *)
Lemma grows_same W W' : winv W → (∀ g, log W' g = log W g) → grows W W'.
Proof. intros Hinv Hl g. rewrite Hl. split; [done|apply (wi_logs _ Hinv)]. Qed.

Lemma replica_same W W' g kv : (∀ g, log W' g = log W g) → replica W' g kv → replica W g kv.
Proof. intros Hl (l & Hp & Hr). exists l. by rewrite <- Hl. Qed.

(** Steps that add no log entry: only the new message has to be looked at. *)
Lemma winv_message W W' :
  winv W → (∀ g, log W' g = log W g) →
  (∀ g c, (g, c) ∈ w_props W' → (g, c) ∈ w_props W ∨ prop_ok W g c) →
  (∀ t args, (t, args) ∈ w_asks W' → (t, args) ∈ w_asks W ∨ 0 ≤ sra_ShardIndex args < NShards) →
  (∀ args reply, (args, reply) ∈ w_answers W' → (args, reply) ∈ w_answers W ∨
     0 ≤ sra_ShardIndex args < NShards ∧ (srr_Err reply = OK →
       (∀ k, is_Some (srr_ShardData reply !! k) → key2shard k = sra_ShardIndex args) ∧
       srr_ConfigNum reply = sra_ConfigNum args ∧ handed W (sra_ShardIndex args) (sra_ConfigNum args))) →
  (∀ g t args, (g, t, args) ∈ w_casks W' → (g, t, args) ∈ w_casks W ∨ 0 ≤ sca_ShardIndex args < NShards) →
  (∀ g args reply, (g, args, reply) ∈ w_canswers W' →
     (g, args, reply) ∈ w_canswers W ∨ 0 ≤ sca_ShardIndex args < NShards) →
  winv W'.
Proof.
  intros Hinv Hl Hp Ha Hn Hc Hcn. pose proof (grows_same W W' Hinv Hl) as Hg.
  pose proof Hinv as [Il Ic Ih Ip Ia In_ Ica Icn]. split.
  - intros g. rewrite Hl. apply Il.
  - intros g kv Hr. eapply Ic. by eapply replica_same.
  - intros g kv s Hr Hs Hst. eapply handed_grows; [done|]. eapply Ih; [by eapply replica_same|done..].
  - intros g c [Hin|Hok]%Hp; (eapply prop_ok_grows; [done|]); auto.
  - intros t args [Hin|Hok]%Ha; eauto.
  - intros args reply [Hin|[Hr Hok]]%Hn.
    + destruct (In_ _ _ Hin) as [? Hrest]. split; [done|]. intros (? & ? & ?)%Hrest.
      split_and!; try done. by eapply handed_grows.
    + split; [done|]. intros (? & ? & ?)%Hok. split_and!; try done. by eapply handed_grows.
  - intros g t args [Hin|Hok]%Hc; eauto.
  - intros g args reply [Hin|Hok]%Hcn; eauto.
Qed.

(** ** Committing a command *)
Lemma prop_command_ok W g c kv :
  winv W → prop_ok W g c → run_log (start g) 1 (log W g) = Ret kv → command_ok kv c.
Proof.
  intros Hinv Hp Hrun. unfold prop_ok in Hp. unfold command_ok.
  destruct (Data c) as [|op|cfg|m|m] eqn:Hd.
  - by rewrite Hp.
  - by rewrite Hp.
  - destruct Hp as (Ht & Hcfg & Hpos & kv0 & (l & Hpre & Hrun0) & Hn & Hrdy). rewrite Ht. simpl.
    exists cfg. split; [done|]. split; [by eapply cfg_len|]. destruct Hpre as [k Hk].
    pose proof (wi_logs _ Hinv g) as Hok. rewrite Hk in Hok, Hrun.
    destruct (log_ok_mono g _ _ _ _ Hok Hrun0 Hrun) as [Hle Hstab].
    destruct (replica_wf W g kv0 Hinv) as [Hw0 _]; [exists l; split; [by exists k|done]|].
    pose proof (sw_pos _ Hw0) as [? _]. split; [lia|]. intros Heq. apply Hstab; [lia|done].
  - destruct Hp as (Ht & Hr & Hk & _). rewrite Ht. simpl. eauto.
  - destruct Hp as (Ht & Hr). rewrite Ht. simpl. eauto.
Qed.

Lemma handed_extend W s n cfg g :
  handed W s n → cfg_at n = Some cfg → owner cfg s = g → reached W g (n + 1) → handed W s (n + 1).
Proof.
  intros Hh Hc Ho Hr e cfg' He Hc'. destruct (decide (e = n + 1)) as [->|].
  - replace (n + 1 - 1) with n in Hc' by lia. assert (cfg' = cfg) as -> by congruence. by rewrite Ho.
  - apply Hh; [lia|done].
Qed.

(** The shards a server holds after a command were handed to its group. *)
Lemma effect_holds W W' g c kv kv' :
  winv W → grows W W' → prop_ok W g c → replica W g kv → reached W' g (Num (config kv')) →
  command_ok kv c → effect kv c kv' →
  ∀ s, 0 ≤ s < NShards → sstate kv' s = SERVING ∨ sstate kv' s = BEPULLED →
    handed W' s (Num (config kv')).
Proof.
  intros Hinv Hg Hp Hrep Hreach Hok Hef s Hs Hst. destruct (replica_wf W g kv Hinv Hrep) as [Hw Hgid].
  assert (∀ s, 0 ≤ s < NShards → sstate kv s = SERVING ∨ sstate kv s = BEPULLED →
    handed W' s (Num (config kv))) as Hold.
  { intros s' Hs' Hst'. eapply handed_grows; [done|]. by eapply (wi_holds _ Hinv). }
  destruct Hef as [->|op Hop Hserv ->|cfg l Ht Hd Hn -> Hl Hss|m l Ht Hd Hn Hpl -> Hl Hss|m l Ht Hd Hn Hb -> Hl Hss].
  - by apply Hold.
  - destruct (execute_frame kv op) as (_ & Hc & _ & Hsh & _). rewrite Hc.
    apply Hold; [done|]. unfold sstate in *. by rewrite Hsh in Hst.
  - destruct (command_ok_config _ _ _ Ht Hd Hok) as (_ & H1 & Hrdy). simpl in *.
    pose proof (config_accepted_ready kv cfg Hw Hn Hrdy s Hs) as Hready.
    assert (Num cfg = Num (config kv) + 1) as Hnext by (destruct Hn as [Hz|?]; [rewrite (H1 Hz); lia|done]).
    unfold sstate in Hst. simpl in Hst. rewrite Hss in Hst by done. unfold next_state in Hst.
    destruct (Z.eqb_spec (Num (config kv)) 0) as [Hz|Hz].
    + rewrite Hnext, Hz. intros e cfg' He. lia.
    + destruct (Z.eqb_spec (owner (config kv) s) (gid kv)) as [Ho|Ho]; cycle 1.
      { exfalso. simpl in Hst. unfold SERVING, BEPULLED, PULLING, NO_SERVING in Hst. case_test_in Hst; lia. }
      rewrite Hnext. eapply handed_extend.
      * apply Hold; [done|]. destruct Hready as [[? _]|(_ & Hno & _)]; [by left|by apply Hno in Hz].
      * destruct (wi_configs _ Hinv g kv Hrep) as [[?|?] _]; [done|done].
      * exact Ho.
      * rewrite Hgid, <- Hnext. done.
  - unfold prop_ok in Hp. rewrite Hd in Hp. destruct Hp as (_ & _ & _ & Hh). simpl.
    unfold sstate in Hst. simpl in Hst. rewrite Hss in Hst by done.
    destruct (Z.eqb_spec s (srm_ShardIndex m)) as [->|Hne]; [|by apply Hold].
    rewrite <- Hn. by eapply handed_grows.
  - simpl. unfold sstate in Hst. simpl in Hst. rewrite Hss in Hst by done.
    destruct (Z.eqb_spec s (scm_ShardIndex m)) as [->|Hne]; [|by apply Hold].
    unfold SERVING, BEPULLED, NO_SERVING in Hst. lia.
Qed.

Lemma effect_configs W g c kv kv' :
  winv W → prop_ok W g c → replica W g kv → effect kv c kv' →
  config_from (config kv') ∧ config_from (prevConfig kv').
Proof.
  intros Hinv Hp Hrep Hef. destruct (wi_configs _ Hinv g kv Hrep) as [Hc Hpc].
  destruct Hef as [->|op Hop Hserv ->|cfg l Ht Hd Hn -> Hl Hss|m l Ht Hd Hn Hpl -> Hl Hss|m l Ht Hd Hn Hb -> Hl Hss];
    try done.
  - by destruct (execute_frame kv op) as (_ & -> & -> & _).
  - unfold prop_ok in Hp. rewrite Hd in Hp. destruct Hp as (_ & Hcfg & _). simpl. split; [by right|done].
Qed.

Lemma commit_log W g c g' : log (commit W g c) g' = if bool_decide (g' = g) then log W g ++ [c] else log W g'.
Proof.
  unfold log at 1. simpl. case_bool_decide as E.
  - subst. by rewrite lookup_insert_eq.
  - by rewrite lookup_insert_ne.
Qed.

(** The replicas after a commit are those before, and the one that executed it. *)
Lemma commit_replica W g c kv' g' r :
  run_log (start g) 1 (log W g ++ [c]) = Ret kv' →
  replica (commit W g c) g' r → replica W g' r ∨ (g' = g ∧ r = kv').
Proof.
  intros Hrun (l & Hp & Hr). rewrite commit_log in Hp. case_bool_decide as E; [subst g'|].
  - apply prefix_snoc_inv in Hp as [Hp| ->].
    + left. by exists l.
    + right. split; [done|congruence].
  - left. by exists l.
Qed.

Lemma commit_inv W g c : winv W → (g, c) ∈ w_props W → winv (commit W g c).
Proof.
  intros Hinv Hin. destruct (group_state W g Hinv) as (kv & Hrun & Hw & Hg & Hrep).
  pose proof (wi_props _ Hinv g c Hin) as Hp. pose proof (prop_command_ok W g c kv Hinv Hp Hrun) as Hok.
  destruct (run_log_step g (log W g) c kv Hrun Hw Hok) as (kv' & Hrun' & Hef & Hw').
  set (W' := commit W g c).
  assert (∀ g', log_ok g' (log W' g')) as Hlogs.
  { intros g'. unfold W'. rewrite commit_log. case_bool_decide as E; [|apply (wi_logs _ Hinv)]. subst g'.
    apply log_ok_snoc. split; [apply (wi_logs _ Hinv)|by exists kv]. }
  assert (grows W W') as Hgr.
  { intros g'. split; [|apply Hlogs]. unfold W'. rewrite commit_log. case_bool_decide as E; [|done].
    subst g'. by apply prefix_app_r. }
  assert (reached W' g (Num (config kv'))) as Hreach.
  { exists kv'. split; [|done]. unfold W'. rewrite commit_log, bool_decide_eq_true_2 by done. done. }
  pose proof Hinv as [Il Ic Ih Ip Ia In_ Ica Icn]. split; try done.
  - intros g' r Hr. destruct (commit_replica W g c kv' g' r Hrun' Hr) as [Hr'|[-> ->]]; [by eapply Ic|].
    by eapply effect_configs.
  - intros g' r s Hr Hs Hst. destruct (commit_replica W g c kv' g' r Hrun' Hr) as [Hr'|[-> ->]].
    + eapply handed_grows; [done|]. by eapply Ih.
    + by eapply (effect_holds W W' g c kv kv').
  - intros g' c' Hin'. eapply prop_ok_grows; [done|]. by apply Ip.
  - intros args reply Hin'. destruct (In_ _ _ Hin') as [? Hrest]. split; [done|]. intros (? & ? & ?)%Hrest.
    split_and!; try done. by eapply handed_grows.
Qed.

(** ** The other steps *)

(** A proposal that is justified keeps the invariant. *)
Lemma propose_inv W g c : winv W → prop_ok W g c → winv (propose W g c).
Proof.
  intros Hinv Hp. apply (winv_message W); simpl; try done; try (intros; by left).
  intros g' c' [[= -> ->]|?]%elem_of_cons; [by right|by left].
Qed.

Lemma config_prop_ok W g kv latest n cfg :
  winv W → replica W g kv → getLastConfig_target kv latest = Some n → cfg_at n = Some cfg →
  prop_ok W g (getLastConfig_msg cfg).
Proof.
  intros Hinv Hr Ht Hc. destruct (replica_wf W g kv Hinv Hr) as [Hw _].
  pose proof (cfg_num _ _ Hc) as Hnum. unfold getLastConfig_target in Ht. cbv zeta in Ht.
  destruct (negb (Num (config kv) <? Num latest) || _) eqn:Hrdy in Ht; [done|]. injection Ht as <-.
  apply orb_false_iff in Hrdy as [_ Hrdy%negb_false_iff]. pose proof (sw_pos _ Hw) as [? _]. simpl.
  split; [done|]. split; [by rewrite Hnum|]. split; [lia|]. exists kv. split; [done|]. split; [lia|].
  destruct (Z.eqb_spec (Num (config kv)) 0) as [Hz|]; [|done].
  apply (ready_iff kv Hw). intros s Hs. destruct (sw_shard _ Hw s Hs); auto; congruence.
Qed.

Lemma answer_handed W t args kv rf reply :
  winv W → 0 ≤ sra_ShardIndex args < NShards → replica W t kv →
  ShardsRequestHandler rf kv args = Ret reply → srr_Err reply = OK →
  (∀ k, is_Some (srr_ShardData reply !! k) → key2shard k = sra_ShardIndex args) ∧
  srr_ConfigNum reply = sra_ConfigNum args ∧ handed W (sra_ShardIndex args) (sra_ConfigNum args).
Proof.
  intros Hinv Hr Hrep Hrun Hok. destruct (replica_wf W t kv Hinv Hrep) as [Hw _].
  destruct (ShardsRequestHandler_ok rf kv args reply Hw Hr Hrun Hok) as (Hn & Hb & ->). simpl.
  split_and!; [|done|].
  - intros k [v Hv]. rewrite shard_data_lookup in Hv. by case_test_in Hv.
  - rewrite Hn. eapply (wi_holds _ Hinv); [done|done|by right].
Qed.

Lemma wstep_inv W W' : winv W → wstep W W' → winv W'.
Proof.
  intros Hinv Hstep. destruct Hstep as [W g op|W g|W g kv latest n cfg Hr Ht Hc|W g c Hin|
    W g kv k2 calls t srv args Hr Hr2 Hcalls Hin|W t args kv rf reply Hin Hr Hrun|W args reply kv c Hin Hr Hrun|
    W g kv k2 calls t srv args Hr Hr2 Hat Hcalls Hin|W g t args kv rf reply Hin Hr Hrun|W g args reply kv c Hin Hr Hrun].
  - by apply propose_inv.
  - by apply propose_inv.
  - apply propose_inv; [done|]. by eapply config_prop_ok.
  - by apply commit_inv.
  - apply (winv_message W); simpl; try done; try (intros; by left).
    intros t' args' [[= -> ->]|?]%elem_of_cons; [right|by left].
    destruct (replica_wf W g kv Hinv Hr) as [Hw _]. destruct (ShardsRequester_spec kv (Num (config k2)) Hw) as (calls' & E & Hspec).
    assert (calls' = calls) as -> by congruence. by apply Hspec in Hin as (? & _).
  - pose proof (wi_asks _ Hinv _ _ Hin) as Hrange. apply (winv_message W); simpl; try done; try (intros; by left).
    intros args' reply' [[= -> ->]|?]%elem_of_cons; [right|by left]. split; [done|]. intros Hok.
    by eapply answer_handed.
  - destruct (wi_answers _ Hinv _ _ Hin) as [Hrange Hans]. apply propose_inv; [done|].
    unfold ShardsRequester_reply in Hrun. case_test_in Hrun; [|done]. case_test_in Hrun; [done|].
    injection Hrun as <-. destruct Hans as (Hk & _ & Hh); [done|]. simpl. split; [done|]. split; [done|]. split; [exact Hk|exact Hh].
  - apply (winv_message W); simpl; try done; try (intros; by left).
    intros g' t' args' [[= -> -> ->]|?]%elem_of_cons; [right|by left].
    destruct (replica_wf W g kv Hinv Hr) as [Hw _]. destruct (ShardsConfirm_spec kv (Num (config k2)) Hw) as (calls' & E & Hspec).
    assert (calls' = calls) as -> by congruence. by apply Hspec in Hin as (? & _).
  - pose proof (wi_casks _ Hinv _ _ _ Hin) as Hrange. apply (winv_message W); simpl; try done; try (intros; by left).
    intros g' args' reply' [[= -> -> ->]|?]%elem_of_cons; [by right|by left].
  - pose proof (wi_canswers _ Hinv _ _ _ Hin) as Hrange. apply propose_inv; [done|].
    unfold ShardsConfirm_reply in Hrun. case_test_in Hrun; [|done]. injection Hrun as <-. done.
Qed.

Lemma winv_init : winv world_init.
Proof.
  split; try (intros; set_solver).
  - intros g l1 c l2 E. by destruct l1.
  - intros g kv (l & Hp & Hr). apply prefix_nil_inv in Hp as ->. injection Hr as <-. split; by left.
  - intros g kv s (l & Hp & Hr) Hs Hst. apply prefix_nil_inv in Hp as ->. injection Hr as <-.
    intros e cfg He. simpl in He. lia.
Qed.

Lemma wreach_inv W : wreach W → winv W.
Proof. induction 1; [apply winv_init|by eapply wstep_inv]. Qed.

(** Two groups that serve the same shard are the same group. *)
Lemma serving_unique W g h kg kh s :
  winv W → run_log (start g) 1 (log W g) = Ret kg → run_log (start h) 1 (log W h) = Ret kh →
  0 ≤ s < NShards → sstate kg s = SERVING → sstate kh s = SERVING →
  Num (config kg) ≤ Num (config kh) → g = h.
Proof.
  intros Hinv Hkg Hkh Hs Sg Sh Hle.
  assert (replica W g kg) as Rg by (by exists (log W g)). assert (replica W h kh) as Rh by (by exists (log W h)).
  destruct (replica_wf W g kg Hinv Rg) as [Wg Gg]. destruct (replica_wf W h kh Hinv Rh) as [Wh Gh].
  assert (owner (config kg) s = g ∧ Num (config kg) ≠ 0) as [Og Ng].
  { destruct (sw_shard _ Wg s Hs); unfold SERVING, NO_SERVING, PULLING, BEPULLED in *; first [lia|split; congruence]. }
  assert (owner (config kh) s = h) as Oh.
  { destruct (sw_shard _ Wh s Hs); unfold SERVING, NO_SERVING, PULLING, BEPULLED in *; first [lia|congruence]. }
  destruct (wi_configs _ Hinv g kg Rg) as [[?|Cg] _]; [done|].
  destruct (decide (Num (config kg) = Num (config kh))) as [Heq|Hne].
  - destruct (wi_configs _ Hinv h kh Rh) as [[?|Ch] _]; [lia|]. rewrite <- Heq in Ch. congruence.
  - exfalso. pose proof (wi_holds _ Hinv h kh s Rh Hs (or_introl Sh)) as Hh.
    pose proof (sw_pos _ Wg) as [? _].
    destruct (Hh (Num (config kg) + 1) (config kg)) as (k & Hk & Hn); [lia| |].
    { by replace (Num (config kg) + 1 - 1) with (Num (config kg)) by lia. }
    rewrite Og in Hk. assert (k = kg) as -> by congruence. lia.
Qed.

End world.

(** ** Running the groups

    Executable drivers for the loops, each from the newest state of a group:
    every world they produce is reachable. *)

(** A peer that says it leads (and is killed, so that it starts nothing). *)
Definition leader_service : RaftService unit CommandMsg.
Proof.
  refine {| rs_wf := λ _, True; rs_command := λ _ _, None; rs_GetState := λ _, (0, true);
            rs_Start := λ r _, Ret (r, (-1, -1, false));
            rs_CondInstallSnapshot := λ r _ _ _, Ret (r, false); rs_Snapshot := λ r _ _, Ret r;
            rs_GetStateSize := λ _, 0; rs_GetSnapshot := λ _, [] |}.
  - intros r c _. by eexists _, _, _, _.
  - done.
Defined.

(** The shard of key "k" moves between three groups, then has no owner, then
    goes to a fourth; the others have no owner. *)
Definition moving_config (n g : Z) : Config :=
  mkConfig n (<[Z.to_nat (key2shard "k") := g]> zeroShards)
    {[100 := ["a"%string]; 200 := ["b"%string]; 300 := ["c"%string]; 400 := ["d"%string]]}.
Definition moving_owners : list Z := [100; 200; 100; 300; 300; 0; 400].

Definition sample_controller : Controller.
Proof.
  refine {| cfg_at := λ n, if n <? 1 then None
                          else moving_config n <$> moving_owners !! Z.to_nat (n - 1) |}.
  - intros n c. case_test; [done|]. intros (g & _ & ->)%fmap_Some. done.
  - intros n c. case_test; [done|]. intros (g & _ & ->)%fmap_Some. done.
Defined.

Definition state_of (W : world) (g : Z) : ShardKV :=
  match run_log (start g) 1 (log W g) with Ret kv => kv | _ => start g end.

Section run.
Let K := sample_controller.
Let RS := leader_service.
#[local] Existing Instances K RS.

Definition do_commit (W : world) (g : Z) (c : CommandMsg) : world := commit (propose W g c) g c.

Definition client_op (W : world) (g : Z) (op : Op) : world := do_commit W g (mkCommandMsg KVOperation (DOp op)).

(** [getLastConfig], when the controller has many more configurations. *)
Definition adopt (W : world) (g : Z) : world :=
  match getLastConfig_target (state_of W g) (mkConfig 99 [] ∅) with
  | Some n => match cfg_at n with Some cfg => do_commit W g (getLastConfig_msg cfg) | None => W end
  | None => W
  end.

(** [ShardsRequester] for the first shard it is about, to the end. *)
Definition pull (W : world) (g : Z) : world :=
  let kv := state_of W g in
  match ShardsRequester kv (Num (config kv)) with
  | Ret ((t, srv, args) :: _) =>
      match ShardsRequestHandler tt (state_of W t) args with
      | Ret reply =>
          match ShardsRequester_reply (state_of W (sra_GID args)) (sra_ShardIndex args) args (Some reply) with
          | RqStart c => do_commit (answer (ask W t args) args reply) (sra_GID args) c
          | _ => W
          end
      | _ => W
      end
  | _ => W
  end.

(** [ShardsConfirm] for the first shard it is about, by a pass that began in state [kv]. *)
Definition confirm (W : world) (g : Z) (kv : ShardKV) : world :=
  match ShardsConfirm kv (Num (config (state_of W g))) with
  | Ret ((t, srv, args) :: _) =>
      match ShardsConfirmHandler tt (state_of W t) args with
      | Ret reply =>
          match ShardsConfirm_reply (state_of W g) args (Some reply) with
          | Some c => do_commit (canswer (cask W g t args) g args reply) g c
          | None => W
          end
      | _ => W
      end
  | _ => W
  end.

Context (b : bool).

Lemma do_commit_reach W g c : wreach b W → wstep b W (propose W g c) → wreach b (do_commit W g c).
Proof. intros HW Hp. eapply wr_step; [by eapply wr_step|]. apply ws_commit. by left. Qed.

Lemma state_replica W g : replica W g (state_of W g).
Proof.
  unfold state_of. destruct (run_log (start g) 1 (log W g)) eqn:E.
  - by exists (log W g).
  - exists []. split; [apply prefix_nil|done].
  - exists []. split; [apply prefix_nil|done].
Qed.

(** Messages on their way change no server. *)
Lemma replica_messages W g kv t args reply g' cargs creply :
  replica W g kv → replica (ask W t args) g kv ∧ replica (answer (ask W t args) args reply) g kv ∧
    replica (cask W g' t cargs) g kv ∧ replica (canswer (cask W g' t cargs) g' cargs creply) g kv.
Proof. done. Qed.

Lemma client_op_reach W g op : wreach b W → wreach b (client_op W g op).
Proof. intros HW. apply do_commit_reach; [done|]. apply ws_client. Qed.

Lemma adopt_reach W g : wreach b W → wreach b (adopt W g).
Proof.
  intros HW. unfold adopt. destruct (getLastConfig_target _ _) eqn:Et; [|done].
  destruct (cfg_at z) eqn:Ec; [|done]. apply do_commit_reach; [done|].
  eapply ws_config; [apply state_replica|done|done].
Qed.

Lemma pull_reach W g : wreach b W → wreach b (pull W g).
Proof.
  intros HW. unfold pull. destruct (ShardsRequester _ _) as [[|[[t srv] args] calls]| |] eqn:Er; try done.
  destruct (ShardsRequestHandler _ _ _) as [reply| |] eqn:Eh; try done.
  destruct (ShardsRequester_reply _ _ _ _) as [c| |] eqn:Ep; try done.
  apply do_commit_reach.
  - eapply wr_step; [eapply wr_step; [exact HW|]|].
    + eapply ws_ask; [apply state_replica|apply state_replica|exact Er|by left].
    + eapply (ws_answer b (ask W t args) t args (state_of W t) tt); [by left| |exact Eh].
      apply (replica_messages W t _ t args reply 0 (mkShardConfirmArgs 0 0) (mkShardConfirmReply "" 0 0 0)).
      apply state_replica.
  - eapply (ws_take b _ args reply (state_of W (sra_GID args))); [by left| |exact Ep].
    apply (replica_messages W _ _ t args reply 0 (mkShardConfirmArgs 0 0) (mkShardConfirmReply "" 0 0 0)).
    apply state_replica.
Qed.

Lemma confirm_reach W g kv :
  wreach b W → replica W g kv → (b = true → Num (config (state_of W g)) = Num (config kv)) →
  wreach b (confirm W g kv).
Proof.
  intros HW Hr Hat. unfold confirm. destruct (ShardsConfirm _ _) as [[|[[t srv] args] calls]| |] eqn:Er; try done.
  destruct (ShardsConfirmHandler _ _ _) as [reply| |] eqn:Eh; try done.
  destruct (ShardsConfirm_reply _ _ _) as [c|] eqn:Ep; [|done]. apply do_commit_reach.
  - eapply wr_step; [eapply wr_step; [exact HW|]|].
    + eapply ws_cask; [exact Hr|apply state_replica|exact Hat|exact Er|by left].
    + eapply (ws_canswer b (cask W g t args) g t args (state_of W t) tt); [by left| |exact Eh].
      apply (replica_messages W _ _ t (mkShardRequestArgs 0 0 0) (mkShardRequestReply "" 0 0 ∅ ∅) g args reply).
      apply state_replica.
  - eapply (ws_ctake b _ g args reply (state_of W g)); [by left| |exact Ep].
    apply (replica_messages W _ _ t (mkShardRequestArgs 0 0 0) (mkShardRequestReply "" 0 0 ∅ ∅) g args reply).
    apply state_replica.
Qed.
End run.

(** Group 100 executes a write before it learns of the second configuration;
    then group 200 has to obtain the shard ([run_pulling]), and has it
    ([run_moved]). *)
Definition sample_write : Op := mkOp 7 1 "k" "v" "Put".
Definition run_left : world := adopt (client_op (adopt world_init 100) 100 sample_write) 100.
Definition run_pulling : world := adopt (adopt run_left 200) 200.
Definition run_moved : world := pull run_pulling 200.

Lemma run_left_reach b : wreach (K := sample_controller) (H := leader_service) b run_left.
Proof. apply adopt_reach, client_op_reach, adopt_reach, wr_init. Qed.

Lemma run_pulling_reach b : wreach (K := sample_controller) (H := leader_service) b run_pulling.
Proof. apply adopt_reach, adopt_reach, run_left_reach. Qed.

Lemma run_moved_reach b : wreach (K := sample_controller) (H := leader_service) b run_moved.
Proof. apply pull_reach, run_pulling_reach. Qed.

(** ** Theorems *)

(** C11: a shard has at most one server group.  In every state the groups can
    reach, through any interleaving of configuration changes, transfers,
    confirmations and client operations, with stale servers answering and
    messages lost, repeated and reordered, no two groups serve the same
    shard. *)
Theorem single_owner {K : Controller} {R} `{RaftService R CommandMsg} (atomic : bool) (W : world)
    (g h s : Z) (kg kh : ShardKV) (HW : wreach atomic W) (Hs : 0 ≤ s < NShards)
    (Hg : run_log (start g) 1 (log W g) = Ret kg) (Hh : run_log (start h) 1 (log W h) = Ret kh)
    (Sg : sstate kg s = SERVING) (Sh : sstate kh s = SERVING) :
  g = h.
Proof.
  apply wreach_inv in HW. destruct (Z.le_ge_cases (Num (config kg)) (Num (config kh))).
  - by eapply (serving_unique W g h).
  - symmetry. by eapply (serving_unique W h g).
Qed.

Lemma single_owner_witness :
  sstate (state_of run_moved 200) (key2shard "k") = SERVING ∧
  sstate (state_of run_moved 100) (key2shard "k") = BEPULLED ∧ 200 = 200.
Proof.
  split; [vm_compute; reflexivity|]. split; [vm_compute; reflexivity|].
  refine (single_owner (K := sample_controller) (H := leader_service) false run_moved 200 200 (key2shard "k")
            (state_of run_moved 200) (state_of run_moved 200) (run_moved_reach false) (key2shard_range _) _ _ _ _);
    vm_compute; reflexivity.
Defined.




