(* ===== verification/ShardHistory.v ===== *)
(** * The groups together: no operation is lost, repeated or reordered

    Every operation a group executes is an event of the world's history.  The
    group that serves a shard holds exactly the result of the shard's events,
    whichever groups executed them, and a client's operations occur in it once
    and in order.  While a shard is between two groups, the one that gives it
    away keeps it complete. *)

From S2P Require Import Prelude Persister Chan RaftApi Raft ShardConfig Rebalance ShardCtrler ShardCtrlerSpec ShardKV ShardKVSpec ShardSystem.
Import ShardKV.

(** ** The specification: one map, changed by one operation at a time *)
Definition op_effect (m : gmap string string) (op : Op) : gmap string string :=
  if bool_decide (Optype op = "Put") then <[Key op := Value op]> m
  else if bool_decide (Optype op = "Append") then
    <[Key op := (map_get "" m (Key op) ++ Value op)%string]> m
  else m.

Definition replay (l : list event) : gmap string string := foldl (λ m e, op_effect m (ev_op e)) ∅ l.

Definition shard_of (e : event) : Z := key2shard (Key (ev_op e)).

(** The events of a shard, and those up to a configuration. *)
Definition history (W : world) (s : Z) : list event := filter (λ e, shard_of e = s) (w_hist W).
Definition events (W : world) (s n : Z) : list event :=
  filter (λ e, shard_of e = s ∧ ev_config e ≤ n) (w_hist W).

Lemma replay_snoc l e : replay (l ++ [e]) = op_effect (replay l) (ev_op e).
Proof. unfold replay. by rewrite foldl_app. Qed.

Lemma op_effect_other m op k : k ≠ Key op → op_effect m op !! k = m !! k.
Proof. intros Hk. unfold op_effect. repeat case_bool_decide; try done; by rewrite lookup_insert_ne. Qed.

Lemma op_effect_agree m1 m2 op k :
  m1 !! Key op = m2 !! Key op → m1 !! k = m2 !! k → op_effect m1 op !! k = op_effect m2 op !! k.
Proof.
  intros Hop Hk. destruct (decide (k = Key op)) as [->|Hne]; [|by rewrite !op_effect_other].
  unfold op_effect, map_get. rewrite Hop. repeat case_bool_decide; rewrite ?lookup_insert_eq; done.
Qed.

(** ** Sessions *)
Definition seq_le (kv kv' : ShardKV) : Prop :=
  ∀ cl, map_get 0 (clientSeq kv) cl ≤ map_get 0 (clientSeq kv') cl.

Lemma execute_seen kv op :
  SeqNum op ≤ map_get 0 (clientSeq kv) (ClientID op) →
  currentState (execute kv op).1 = currentState kv ∧
  ∀ cl, map_get 0 (clientSeq (execute kv op).1) cl = map_get 0 (clientSeq kv) cl.
Proof.
  intros Hle. unfold execute, open_session. destruct (clientSeq kv !! ClientID op) eqn:E.
  - case_test; [done|lia].
  - case_test.
    + simpl. split; [done|]. intros cl. destruct (decide (cl = ClientID op)) as [->|].
      * rewrite map_get_insert_eq. unfold map_get. by rewrite E.
      * by rewrite map_get_insert_ne.
    + simpl in *. rewrite map_get_insert_eq in *. unfold map_get in Hle. rewrite E in Hle. simpl in Hle. lia.
Qed.

Lemma execute_unseen kv op :
  map_get 0 (clientSeq kv) (ClientID op) < SeqNum op →
  currentState (execute kv op).1 = op_effect (currentState kv) op ∧
  ∀ cl, map_get 0 (clientSeq (execute kv op).1) cl =
        if cl =? ClientID op then SeqNum op else map_get 0 (clientSeq kv) cl.
Proof.
  intros Hlt. unfold execute.
  assert (currentState (open_session kv (ClientID op)) = currentState kv ∧
    ∀ cl, map_get 0 (clientSeq (open_session kv (ClientID op))) cl = map_get 0 (clientSeq kv) cl) as [Hc Hs].
  { unfold open_session. destruct (clientSeq kv !! ClientID op) eqn:E; [done|]. simpl. split; [done|].
    intros cl. destruct (decide (cl = ClientID op)) as [->|].
    - rewrite map_get_insert_eq. unfold map_get. by rewrite E.
    - by rewrite map_get_insert_ne. }
  rewrite Hs. case_test; [lia|]. unfold applyToStateMachine, fill_value, op_effect. simpl.
  split.
  - destruct (bool_decide_reflect (Optype op = "Get")) as [Hget|];
      [|repeat (case_bool_decide; simpl); by rewrite ?Hc]. simpl. rewrite Hget. simpl. done.
  - intros cl. destruct (Z.eqb_spec cl (ClientID op)) as [->|];
      repeat (case_bool_decide; simpl); by rewrite ?map_get_insert_eq, ?map_get_insert_ne.
Qed.

Lemma execute_seq_le kv op : seq_le kv (execute kv op).1.
Proof.
  intros cl. destruct (Z.le_gt_cases (SeqNum op) (map_get 0 (clientSeq kv) (ClientID op))) as [Hle|Hlt].
  - destruct (execute_seen kv op Hle) as [_ ->]. done.
  - destruct (execute_unseen kv op Hlt) as [_ ->]. destruct (Z.eqb_spec cl (ClientID op)) as [->|]; lia.
Qed.

Lemma merge_seq_le kv m : seq_le kv (mergeClientSeqNum kv m).
Proof. intros cl. rewrite mergeClientSeqNum_get. destruct (m !! cl); lia. Qed.

Lemma effect_seq_le kv c kv' : effect kv c kv' → seq_le kv kv'.
Proof.
  intros [->|op Hop Hserv ->|cfg l Ht Hd Hn -> Hl Hs|m l Ht Hd Hn Hp -> Hl Hs|m l Ht Hd Hn Hb -> Hl Hs];
    try (intros cl; simpl; lia).
  - apply execute_seq_le.
  - intros cl. etrans; [|apply merge_seq_le]. simpl. lia.
Qed.

Lemma log_ok_sessions g l kv :
  log_ok g l → run_log (start g) 1 l = Ret kv → ∀ cl, 0 ≤ map_get 0 (clientSeq kv) cl.
Proof.
  revert kv. induction l as [|c l IH] using rev_ind; intros kv Ho Hrun cl.
  - injection Hrun as <-. done.
  - apply log_ok_snoc in Ho as [Ho (kv0 & Hrun0 & Hok)].
    destruct (log_ok_run g l Ho) as (kv1 & E & Hw & _). assert (kv1 = kv0) as -> by congruence.
    destruct (run_log_step g l c kv0 Hrun0 Hw Hok) as (kv' & E' & Hef & _).
    assert (kv' = kv) as -> by congruence. etrans; [by apply (IH kv0)|]. by apply (effect_seq_le _ _ _ Hef).
Qed.

(** A client operation in a log is executed if its shard is served. *)
Lemma run_log_op g l op kv kv' :
  run_log (start g) 1 l = Ret kv → shard_wf kv → lastIncludedIndex kv = 0 →
  run_log (start g) 1 (l ++ [mkCommandMsg KVOperation (DOp op)]) = Ret kv' →
  kv' = if sstate kv (key2shard (Key op)) =? SERVING then (execute kv op).1 else kv.
Proof.
  intros Hrun Hw Hi. rewrite run_log_snoc, Hrun, bind_Ret. unfold apply_command. simpl. unfold apply_op.
  rewrite Hi. case_test; [pose proof (zlen_nonneg l); lia|].
  rewrite sstate_index, bind_Ret by (done || apply key2shard_range).
  destruct (sstate kv _ =? SERVING); simpl; [|by intros [= <-]].
  destruct (execute kv op). simpl. by intros [= <-].
Qed.

(** ** What one command does to one shard *)
Section history.
Context {K : Controller} {R : Type} `{RaftService R CommandMsg}.
Implicit Types (W : world).

Inductive shard_move (kv : ShardKV) (c : CommandMsg) (kv' : ShardKV) (s : Z) : Prop :=
| sm_same : config kv' = config kv → sstate kv' s = sstate kv s →
    (∀ k, key2shard k = s → currentState kv' !! k = currentState kv !! k) →
    (∀ op, op ∈ executed kv c → key2shard (Key op) ≠ s) → shard_move kv c kv' s
| sm_exec op : executed kv c = [op] → key2shard (Key op) = s → sstate kv s = SERVING →
    config kv' = config kv → sstate kv' s = SERVING →
    map_get 0 (clientSeq kv) (ClientID op) < SeqNum op →
    currentState kv' = op_effect (currentState kv) op →
    (∀ cl, map_get 0 (clientSeq kv') cl =
           if cl =? ClientID op then SeqNum op else map_get 0 (clientSeq kv) cl) → shard_move kv c kv' s
| sm_config cfg : executed kv c = [] → config kv' = cfg → Num cfg = Num (config kv) + 1 →
    cfg_at (Num cfg) = Some cfg →
    sstate kv' s = next_state (gid kv) (config kv) cfg s (sstate kv s) →
    (sstate kv s = SERVING ∧ owner (config kv) s = gid kv ∧ Num (config kv) ≠ 0) ∨
    (sstate kv s = NO_SERVING ∧ (Num (config kv) ≠ 0 → owner (config kv) s ≠ gid kv) ∧ no_keys kv s) →
    currentState kv' = currentState kv → shard_move kv c kv' s
| sm_gain m : executed kv c = [] → Data c = DShardRequest m → srm_ShardIndex m = s →
    srm_ConfigNum m = Num (config kv) → sstate kv s = PULLING → sstate kv' s = SERVING →
    config kv' = config kv →
    (∀ k, key2shard k = s → currentState kv' !! k = srm_ShardData m !! k) →
    (∀ cl, map_get 0 (clientSeq kv) cl ≤ map_get 0 (clientSeq kv') cl ∧
           (0 ≤ map_get 0 (clientSeq kv) cl →
            map_get 0 (srm_ClientSeqNum m) cl ≤ map_get 0 (clientSeq kv') cl)) → shard_move kv c kv' s
| sm_drop m : executed kv c = [] → Data c = DShardConfirm m → scm_ShardIndex m = s →
    scm_ConfigNum m = Num (config kv) → sstate kv s = BEPULLED → sstate kv' s = NO_SERVING →
    config kv' = config kv → shard_move kv c kv' s.

Lemma op_move g l op kv kv' s :
  run_log (start g) 1 l = Ret kv → shard_wf kv → lastIncludedIndex kv = 0 →
  run_log (start g) 1 (l ++ [mkCommandMsg KVOperation (DOp op)]) = Ret kv' →
  shard_move kv (mkCommandMsg KVOperation (DOp op)) kv' s.
Proof.
  intros Hrun Hw Hi Hrun'. rewrite (run_log_op g l op kv kv' Hrun Hw Hi Hrun').
  set (c := mkCommandMsg _ _). assert (executed kv c = if (sstate kv (key2shard (Key op)) =? SERVING) &&
    (map_get 0 (clientSeq kv) (ClientID op) <? SeqNum op) then [op] else []) as Hex by done.
  destruct (Z.eqb_spec (sstate kv (key2shard (Key op))) SERVING) as [Hs|Hs]; simpl in Hex.
  2: { apply sm_same; [done..|]. rewrite Hex. by intros ? ?%not_elem_of_nil. }
  destruct (execute_frame kv op) as (_ & Hc & _ & Hss & _ & _ & _ & Hk).
  assert (∀ s, sstate (execute kv op).1 s = sstate kv s) as Hst by (intros s'; unfold sstate; by rewrite Hss).
  destruct (Z.ltb_spec (map_get 0 (clientSeq kv) (ClientID op)) (SeqNum op)) as [Hlt|Hge].
  - destruct (decide (key2shard (Key op) = s)) as [<-|Hne].
    + destruct (execute_unseen kv op Hlt) as [He Hq]. eapply sm_exec; try done. by rewrite Hst.
    + apply sm_same; [done|done| |].
      * intros k Hks. apply Hk. by intros ->.
      * rewrite Hex. by intros ? ->%list_elem_of_singleton.
  - destruct (execute_seen kv op Hge) as [He _]. apply sm_same; [done|done|by rewrite He|].
    rewrite Hex. by intros ? ?%not_elem_of_nil.
Qed.

Lemma command_move W g c kv kv' s :
  winv W → prop_ok W g c → run_log (start g) 1 (log W g) = Ret kv →
  run_log (start g) 1 (log W g ++ [c]) = Ret kv' → 0 ≤ s < NShards → shard_move kv c kv' s.
Proof.
  intros Hinv Hp Hrun Hrun' Hs.
  destruct (log_ok_run g (log W g) (wi_logs _ Hinv g)) as (kv0 & E & Hw & _ & Hi).
  assert (kv0 = kv) as -> by congruence. pose proof (prop_command_ok W g c kv Hinv Hp Hrun) as Hok.
  destruct (run_log_step g (log W g) c kv Hrun Hw Hok) as (kv0 & E' & Hef & _).
  assert (kv0 = kv') as -> by congruence. unfold prop_ok in Hp.
  destruct (Data c) as [|op|cfg|m|m] eqn:Hd.
  2: { destruct c as [ct d]. simpl in *. subst. by eapply op_move. }
  all: assert (executed kv c = []) as Hex by (unfold executed; by rewrite Hd).
  all: destruct Hef as [->|op [Ht Hop] Hserv ->|cfg' l Ht Hd' Hn -> Hl Hss|m' l Ht Hd' Hn Hpl -> Hl Hss|
                        m' l Ht Hd' Hn Hb -> Hl Hss]; try congruence.
  all: try (exfalso; rewrite Ht in Hp; by destruct_and? Hp).
  all: try (apply sm_same; [done..|rewrite Hex; by intros ? ?%not_elem_of_nil]).
  - assert (cfg' = cfg) as -> by congruence. destruct Hp as (_ & Hcfg & _).
    destruct (command_ok_config _ _ _ Ht Hd Hok) as (_ & H1 & Hrdy).
    apply (sm_config _ _ _ _ cfg); try done; [|by apply Hss|by eapply config_accepted_ready].
    destruct Hn as [Hz|?]; [rewrite (H1 Hz); lia|done].
  - assert (m' = m) as -> by congruence. destruct (command_ok_request _ _ _ Ht Hd Hok) as [Hr Hkeys].
    destruct (Z.eqb_spec s (srm_ShardIndex m)) as [->|Hne].
    + eapply sm_gain; try done.
      * unfold sstate. simpl. rewrite Hss by done. by rewrite Z.eqb_refl.
      * intros k Hk. simpl. rewrite map_fold_insert_lookup. destruct (srm_ShardData m !! k) eqn:Ek; [done|].
        destruct (sw_shard _ Hw _ Hr) as [?|?|? ? ? ? ? Hno|?];
          try (unfold SERVING, NO_SERVING, PULLING, BEPULLED in *; lia). by apply Hno.
      * intros cl. rewrite mergeClientSeqNum_get. unfold map_get. simpl.
        destruct (srm_ClientSeqNum m !! cl); simpl; lia.
    + apply sm_same; [done| | |rewrite Hex; by intros ? ?%not_elem_of_nil].
      * unfold sstate at 1. simpl. rewrite Hss by done. by rewrite (proj2 (Z.eqb_neq _ _)).
      * intros k Hk. simpl. rewrite map_fold_insert_lookup. destruct (srm_ShardData m !! k) eqn:Ek; [|done].
        exfalso. apply Hne. rewrite <- Hk. apply Hkeys. by rewrite Ek.
  - assert (m' = m) as -> by congruence. pose proof (command_ok_confirm _ _ _ Ht Hd Hok) as Hr.
    destruct (Z.eqb_spec s (scm_ShardIndex m)) as [->|Hne].
    + eapply sm_drop; try done. unfold sstate. simpl. rewrite Hss by done. by rewrite Z.eqb_refl.
    + apply sm_same; [done| | |rewrite Hex; by intros ? ?%not_elem_of_nil].
      * unfold sstate at 1. simpl. rewrite Hss by done. by rewrite (proj2 (Z.eqb_neq _ _)).
      * intros k Hk. simpl. rewrite drop_shard_lookup. case_test; [congruence|done].
Qed.
(** ** The invariant *)

(** Shard [s] has arrived at its owner in configuration [n]: the owner serves
    it there, or has gone on to a later configuration. *)
Definition settled W (s n : Z) : Prop :=
  ∃ cfg kv, cfg_at n = Some cfg ∧ run_log (start (owner cfg s)) 1 (log W (owner cfg s)) = Ret kv ∧
    (n < Num (config kv) ∨ n = Num (config kv) ∧ sstate kv s = SERVING).

(** The pairs and sessions are those of shard [s] after the events up to
    configuration [n]. *)
Definition agrees W (s n : Z) (data : gmap string string) (seq : gmap Z Z) : Prop :=
  (∀ k, key2shard k = s → data !! k = replay (events W s n) !! k) ∧
  ∀ e, e ∈ events W s n → SeqNum (ev_op e) ≤ map_get 0 seq (ClientID (ev_op e)).

(** Of two events of a shard from one client, the later has the higher number. *)
Definition in_sessions (l : list event) : Prop :=
  ∀ l1 e1 l2 e2 l3, l = l1 ++ e1 :: l2 ++ e2 :: l3 → shard_of e1 = shard_of e2 →
    ClientID (ev_op e1) = ClientID (ev_op e2) → SeqNum (ev_op e1) < SeqNum (ev_op e2).

Record hinv W : Prop := {
  hi_event : ∀ e, e ∈ w_hist W →
    1 ≤ ev_config e ∧ handed W (shard_of e) (ev_config e) ∧ settled W (shard_of e) (ev_config e);
  hi_sessions : in_sessions (w_hist W);
  hi_serving : ∀ g kv s, run_log (start g) 1 (log W g) = Ret kv → 0 ≤ s < NShards →
    sstate kv s = SERVING → agrees W s (Num (config kv)) (currentState kv) (clientSeq kv);
  hi_leaving : ∀ g kv s, replica W g kv → 0 ≤ s < NShards → sstate kv s = BEPULLED →
    agrees W s (Num (config kv) - 1) (currentState kv) (clientSeq kv);
  hi_answers : ∀ args reply, (args, reply) ∈ w_answers W → srr_Err reply = OK →
    agrees W (sra_ShardIndex args) (sra_ConfigNum args - 1) (srr_ShardData reply) (srr_ClientSeqNum reply);
  hi_requests : ∀ g c m, (g, c) ∈ w_props W → Data c = DShardRequest m →
    agrees W (srm_ShardIndex m) (srm_ConfigNum m - 1) (srm_ShardData m) (srm_ClientSeqNum m)
}.

(** Shards are given up only once they have arrived. *)
Record linv W : Prop := {
  li_released : ∀ g kv s n prev cur, run_log (start g) 1 (log W g) = Ret kv → 0 ≤ s < NShards →
    2 ≤ n ≤ Num (config kv) → cfg_at (n - 1) = Some prev → cfg_at n = Some cur → owner prev s = g →
    owner cur s ≠ g → (n = Num (config kv) → sstate kv s ≠ BEPULLED) → settled W s n;
  li_confirms : ∀ g c m, (g, c) ∈ w_props W → Data c = DShardConfirm m →
    settled W (scm_ShardIndex m) (scm_ConfigNum m);
  li_casks : ∀ g t args, (g, t, args) ∈ w_casks W →
    ∃ cfg, cfg_at (sca_ConfigNum args) = Some cfg ∧ owner cfg (sca_ShardIndex args) = t;
  li_canswers : ∀ g args reply, (g, args, reply) ∈ w_canswers W → scr_Err reply = OK →
    settled W (sca_ShardIndex args) (sca_ConfigNum args)
}.

(** ** Stability *)

(** How a configuration change can have led to a state. *)
Lemma next_state_serving g prev cur s old :
  next_state g prev cur s old = SERVING →
  Num prev = 0 ∧ (owner cur s = g ∨ old = SERVING) ∨ Num prev ≠ 0 ∧ owner cur s = g ∧ owner prev s = g.
Proof.
  unfold next_state. destruct (Z.eqb_spec (Num prev) 0), (Z.eqb_spec (owner cur s) g),
    (Z.eqb_spec (owner prev s) g); simpl; auto; intros; try done; tauto.
Qed.

Lemma next_state_leaving g prev cur s old :
  next_state g prev cur s old = BEPULLED → Num prev = 0 ∧ old = BEPULLED ∨ Num prev ≠ 0 ∧ owner prev s = g.
Proof.
  unfold next_state. destruct (Z.eqb_spec (Num prev) 0), (Z.eqb_spec (owner cur s) g),
    (Z.eqb_spec (owner prev s) g); simpl; auto; intros; try done; tauto.
Qed.

(** Within a configuration, a shard that is served stays served. *)
Lemma effect_serving kv c kv' s :
  command_ok kv c → effect kv c kv' → 0 ≤ s < NShards → sstate kv s = SERVING →
  Num (config kv') = Num (config kv) → sstate kv' s = SERVING.
Proof.
  intros Hok [->|op Hop Hserv ->|cfg l Ht Hd Hn -> Hl Hs|m l Ht Hd Hn Hp -> Hl Hs|m l Ht Hd Hn Hb -> Hl Hs] Hr Hsv Hsame.
  - done.
  - destruct (execute_frame kv op) as (_ & _ & _ & E & _). unfold sstate. by rewrite E.
  - destruct (command_ok_config _ _ _ Ht Hd Hok) as (_ & H1 & _). simpl in Hsame.
    destruct Hn as [Hz|?]; [specialize (H1 Hz)|]; lia.
  - unfold sstate. simpl. rewrite Hs by done. by case_test.
  - unfold sstate. simpl. rewrite Hs by done. case_test; [|done]. subst.
    unfold SERVING, BEPULLED in *. lia.
Qed.

Lemma log_ok_serving g l k kv1 kv2 s :
  log_ok g (l ++ k) → run_log (start g) 1 l = Ret kv1 → run_log (start g) 1 (l ++ k) = Ret kv2 →
  0 ≤ s < NShards → sstate kv1 s = SERVING → Num (config kv1) = Num (config kv2) → sstate kv2 s = SERVING.
Proof.
  revert kv2. induction k as [|c k IH] using rev_ind; intros kv2 Ho H1 H2 Hs Hsv Hn.
  - rewrite app_nil_r in H2. by assert (kv1 = kv2) as <- by congruence.
  - rewrite app_assoc in Ho, H2. apply log_ok_snoc in Ho as [Ho (kv & Hrun & Hok)].
    destruct (log_ok_run _ _ Ho) as (kv' & E & Hw & _). assert (kv' = kv) as -> by congruence.
    destruct (run_log_step g _ c kv Hrun Hw Hok) as (kv'' & E'' & Hef & _).
    assert (kv'' = kv2) as -> by congruence. pose proof (effect_num _ _ _ Hok Hef).
    destruct (log_ok_mono g l k kv1 kv Ho H1 Hrun) as [Hle _].
    eapply effect_serving; [done..| |lia]. apply IH; try done. lia.
Qed.

Lemma settled_grows W W' s n : 0 ≤ s < NShards → grows W W' → settled W s n → settled W' s n.
Proof.
  intros Hs Hg (cfg & kv & Hc & Hrun & Hset). set (g := owner cfg s) in *. destruct (Hg g) as [[k Hk] Hok].
  destruct (log_ok_run g (log W' g) Hok) as (kv' & E & _). exists cfg, kv'. split; [done|]. split; [done|].
  rewrite Hk in E, Hok. destruct (log_ok_mono g _ _ _ _ Hok Hrun E) as [Hle _].
  destruct Hset as [?|[-> Hsv]]; [left; lia|].
  destruct (decide (Num (config kv) = Num (config kv'))) as [Heq|]; [|left; lia].
  right. split; [done|]. by eapply log_ok_serving.
Qed.

Lemma agrees_same W W' s n n' data seq :
  events W' s n' = events W s n → agrees W s n data seq → agrees W' s n' data seq.
Proof. intros E. unfold agrees. by rewrite E. Qed.

Lemma agrees_move W W' s n n' data seq data' seq' :
  events W' s n' = events W s n → agrees W s n data seq →
  (∀ k, key2shard k = s → data' !! k = data !! k) → (∀ cl, map_get 0 seq cl ≤ map_get 0 seq' cl) →
  agrees W' s n' data' seq'.
Proof.
  intros E [Hd Hq] Hdata Hseq. split.
  - intros k Hk. rewrite Hdata, E by done. by apply Hd.
  - intros e He. rewrite E in He. etrans; [by apply Hq|apply Hseq].
Qed.

Lemma filter_agree (P Q : event → Prop) `{!∀ e, Decision (P e), !∀ e, Decision (Q e)} (l : list event) :
  (∀ e, e ∈ l → P e ↔ Q e) → filter P l = filter Q l.
Proof.
  induction l as [|e l IH]; intros Heq; [done|]. rewrite !filter_cons.
  rewrite IH by (intros; apply Heq; by right). assert (P e ↔ Q e) by (apply Heq; by left).
  repeat case_decide; tauto.
Qed.

Lemma list_filter_nil (P : event → Prop) `{!∀ e, Decision (P e)} (l : list event) :
  (∀ e, e ∈ l → ¬ P e) → filter P l = [].
Proof.
  induction l as [|e l IH]; intros Hl; [done|]. rewrite filter_cons_False by (apply Hl; by left).
  apply IH. intros; apply Hl; by right.
Qed.

(** Steps that log nothing. *)
Lemma hinv_message W W' :
  winv W → hinv W → (∀ g, log W' g = log W g) → w_hist W' = w_hist W →
  (∀ args reply, (args, reply) ∈ w_answers W' → (args, reply) ∈ w_answers W ∨ (srr_Err reply = OK →
     agrees W (sra_ShardIndex args) (sra_ConfigNum args - 1) (srr_ShardData reply) (srr_ClientSeqNum reply))) →
  (∀ g c, (g, c) ∈ w_props W' → (g, c) ∈ w_props W ∨
     (∀ m, Data c = DShardRequest m →
        agrees W (srm_ShardIndex m) (srm_ConfigNum m - 1) (srm_ShardData m) (srm_ClientSeqNum m))) →
  hinv W'.
Proof.
  intros Hinv Hh Hl Hhist Ha Hp. pose proof (grows_same W W' Hinv Hl) as Hg.
  assert (∀ s n data seq, agrees W s n data seq → agrees W' s n data seq) as Hag.
  { intros s n data seq. apply agrees_same. unfold events. by rewrite Hhist. }
  destruct Hh as [Ie Is Iv Ib Ian Irq]. split.
  - intros e He. rewrite Hhist in He. destruct (Ie e He) as (? & ? & cfg & kv & ? & Hrun & ?). split_and!; auto.
    + by eapply handed_grows.
    + exists cfg, kv. by rewrite Hl.
  - by rewrite Hhist.
  - intros g kv s. rewrite Hl. eauto.
  - intros g kv s Hr%(replica_same W); eauto.
  - intros args reply [?|?]%Ha ?; eauto.
  - intros g c m [?|Hm]%Hp Hd; eauto.
Qed.

Lemma linv_message W W' :
  linv W → (∀ g, log W' g = log W g) →
  (∀ g c, (g, c) ∈ w_props W' → (g, c) ∈ w_props W ∨
     (∀ m, Data c = DShardConfirm m → settled W (scm_ShardIndex m) (scm_ConfigNum m))) →
  (∀ g t args, (g, t, args) ∈ w_casks W' → (g, t, args) ∈ w_casks W ∨
     ∃ cfg, cfg_at (sca_ConfigNum args) = Some cfg ∧ owner cfg (sca_ShardIndex args) = t) →
  (∀ g args reply, (g, args, reply) ∈ w_canswers W' → (g, args, reply) ∈ w_canswers W ∨
     (scr_Err reply = OK → settled W (sca_ShardIndex args) (sca_ConfigNum args))) →
  linv W'.
Proof.
  intros Hh Hl Hp Hc Hcn.
  assert (∀ s n, settled W s n → settled W' s n) as Hset.
  { intros s n (cfg & kv & ? & Hrun & ?). exists cfg, kv. by rewrite Hl. }
  destruct Hh as [Ir Icf Ica Icn]. split.
  - intros g kv s n prev cur. rewrite Hl. eauto 10.
  - intros g c m [?|Hm]%Hp Hd; eauto.
  - intros g t0 args [?|?]%Hc; eauto.
  - intros g args reply [?|?]%Hcn ?; eauto.
Qed.

(** ** Committing a command *)
Section commit.
Context (W : world) (g : Z) (c : CommandMsg) (kv kv' : ShardKV).
Context (Hinv : winv W) (Hh : hinv W) (Hin : (g, c) ∈ w_props W).
Context (Hrun : run_log (start g) 1 (log W g) = Ret kv).
Context (Hrun' : run_log (start g) 1 (log W g ++ [c]) = Ret kv').

Lemma commit_kv_wf : shard_wf kv ∧ gid kv = g ∧ replica W g kv.
Proof.
  assert (replica W g kv) as Hr by (by exists (log W g)).
  by destruct (replica_wf W g kv Hinv Hr).
Qed.

Lemma commit_grows : grows W (commit W g c).
Proof.
  pose proof (commit_inv W g c Hinv Hin) as Hinv'. intros g'. split; [|apply (wi_logs _ Hinv')].
  rewrite commit_log. case_bool_decide as E; [|done]. subst. by apply prefix_app_r.
Qed.

Lemma commit_end : run_log (start g) 1 (log (commit W g c) g) = Ret kv'.
Proof. by rewrite commit_log, bool_decide_eq_true_2. Qed.

Lemma commit_other g' k : g' ≠ g → run_log (start g') 1 (log (commit W g c) g') = Ret k →
  run_log (start g') 1 (log W g') = Ret k.
Proof. intros Hne. by rewrite commit_log, bool_decide_eq_false_2. Qed.

Lemma commit_hist : w_hist (commit W g c) = w_hist W ++ (mkEvent g (Num (config kv)) <$> executed kv c).
Proof. simpl. by rewrite Hrun. Qed.

Lemma commit_move s : 0 ≤ s < NShards → shard_move kv c kv' s.
Proof. intros Hs. eapply command_move; [done|by apply (wi_props _ Hinv)|done..]. Qed.

Lemma commit_seq_le : seq_le kv kv'.
Proof.
  destruct commit_kv_wf as (Hw & _ & _).
  pose proof (prop_command_ok W g c kv Hinv (wi_props _ Hinv _ _ Hin) Hrun) as Hok.
  destruct (run_log_step g (log W g) c kv Hrun Hw Hok) as (k & E & Hef & _).
  assert (k = kv') as -> by congruence. by eapply effect_seq_le.
Qed.

(** What is executed is executed by the owner of the shard. *)
Lemma executed_owner op :
  op ∈ executed kv c → sstate kv (key2shard (Key op)) = SERVING ∧
    map_get 0 (clientSeq kv) (ClientID op) < SeqNum op ∧ 1 ≤ Num (config kv) ∧
    cfg_at (Num (config kv)) = Some (config kv) ∧ owner (config kv) (key2shard (Key op)) = g.
Proof.
  intros Hop. destruct commit_kv_wf as (Hw & Hg & Hr). unfold executed in Hop.
  destruct (Data c) as [|op'|?|?|?]; try by apply not_elem_of_nil in Hop.
  destruct (_ && _) eqn:E in Hop; [|by apply not_elem_of_nil in Hop].
  apply list_elem_of_singleton in Hop as ->. apply andb_true_iff in E as [[_ Hs]%andb_true_iff Hq].
  bool_to_prop. split; [done|]. split; [done|]. pose proof (sw_pos _ Hw) as [? _].
  destruct (sw_shard _ Hw (key2shard (Key op')) (key2shard_range _)) as [_ Ho Hz|?|?|?];
    try (unfold SERVING, NO_SERVING, PULLING, BEPULLED in *; lia).
  split; [lia|]. split; [|congruence]. by destruct (wi_configs _ Hinv g kv Hr) as [[?|?] _].
Qed.

Lemma commit_events s n :
  (∀ op, op ∈ executed kv c → key2shard (Key op) = s → n < Num (config kv)) →
  events (commit W g c) s n = events W s n.
Proof.
  intros Hlt. unfold events. rewrite commit_hist, filter_app.
  assert (filter (λ e, shard_of e = s ∧ ev_config e ≤ n)
            (mkEvent g (Num (config kv)) <$> executed kv c) = []) as ->; [|by rewrite app_nil_r].
  revert Hlt. generalize (executed kv c). intros l Hlt. apply list_filter_nil. intros e He [Hs Hn].
  apply list_elem_of_fmap in He as (op & -> & Hop). specialize (Hlt op Hop Hs). simpl in Hn. lia.
Qed.

(** Nothing is executed any more in a configuration that was left. *)
Lemma commit_events_handed s n : handed W s n → events (commit W g c) s (n - 1) = events W s (n - 1).
Proof.
  intros Hhd. apply commit_events. intros op Hop Hs.
  destruct (executed_owner op Hop) as (_ & _ & Hpos & Hcfg & Ho).
  destruct (Z.lt_ge_cases (n - 1) (Num (config kv))) as [|Hge]; [done|]. exfalso.
  destruct (Hhd (Num (config kv) + 1) (config kv)) as (k & Hk & Hn); [lia| |].
  { by replace (Num (config kv) + 1 - 1) with (Num (config kv)) by lia. }
  rewrite <- Hs, Ho in Hk. assert (k = kv) as -> by congruence. lia.
Qed.

(** The events of a shard at configurations the group owns it in. *)
Lemma event_seen e cfg :
  e ∈ w_hist W → cfg_at (ev_config e) = Some cfg → owner cfg (shard_of e) = g →
  ev_config e < Num (config kv) ∨ ev_config e = Num (config kv) ∧ sstate kv (shard_of e) = SERVING.
Proof.
  intros He Hc Ho. destruct (hi_event _ Hh e He) as (_ & _ & cfg' & k & Hc' & Hk & Hor).
  assert (cfg' = cfg) as -> by congruence. rewrite Ho in Hk. by assert (k = kv) as -> by congruence.
Qed.

Lemma no_new_events s n cfg :
  cfg_at n = Some cfg → owner cfg s = g → Num (config kv) ≤ n →
  (Num (config kv) = n → sstate kv s ≠ SERVING) → events W s n = events W s (n - 1).
Proof.
  intros Hc Ho Hle Hns. apply filter_agree. intros e He. split; [|naive_solver lia].
  intros [Hs Hn]. split; [done|]. destruct (decide (ev_config e = n)) as [Heq|]; [exfalso|lia].
  subst s. destruct (event_seen e cfg He) as [?|[? ?]]; [congruence|done|lia|]. apply Hns; [lia|done].
Qed.

Lemma events_snoc s op :
  executed kv c = [op] → key2shard (Key op) = s →
  events (commit W g c) s (Num (config kv)) =
  events W s (Num (config kv)) ++ [mkEvent g (Num (config kv)) op].
Proof.
  intros Hex Hs. unfold events. rewrite commit_hist, Hex, filter_app. f_equal. simpl.
  by rewrite filter_cons_True.
Qed.

(** The group that serves a shard has executed all its events so far. *)
Lemma served_current s e :
  0 ≤ s < NShards → sstate kv s = SERVING → e ∈ w_hist W → shard_of e = s → e ∈ events W s (Num (config kv)).
Proof.
  intros Hs Hsv He Hes. apply list_elem_of_filter. split; [|done]. split; [done|].
  destruct (Z.le_gt_cases (ev_config e) (Num (config kv))) as [|Hgt]; [done|]. exfalso.
  destruct commit_kv_wf as (Hw & Hg & Hr). destruct (hi_event _ Hh e He) as (_ & Hhd & _).
  destruct (sw_shard _ Hw s Hs) as [_ Ho Hz|?|?|?];
    try (unfold SERVING, NO_SERVING, PULLING, BEPULLED in *; lia).
  pose proof (sw_pos _ Hw) as [? _]. destruct (Hhd (Num (config kv) + 1) (config kv)) as (k & Hk & Hn); [lia| |].
  { replace (Num (config kv) + 1 - 1) with (Num (config kv)) by lia.
    by destruct (wi_configs _ Hinv g kv Hr) as [[?|?] _]. }
  rewrite Hes, Ho, Hg in Hk. assert (k = kv) as -> by congruence. lia.
Qed.

(** An operation executed: the data and the sessions follow the history. *)
Lemma exec_agrees s op :
  executed kv c = [op] → key2shard (Key op) = s →
  map_get 0 (clientSeq kv) (ClientID op) < SeqNum op →
  currentState kv' = op_effect (currentState kv) op →
  (∀ cl, map_get 0 (clientSeq kv') cl =
         if cl =? ClientID op then SeqNum op else map_get 0 (clientSeq kv) cl) →
  agrees W s (Num (config kv)) (currentState kv) (clientSeq kv) →
  agrees (commit W g c) s (Num (config kv)) (currentState kv') (clientSeq kv').
Proof.
  intros Hex Hs Hlt Hst Hseq [Hd Hq]. unfold agrees. rewrite (events_snoc s op) by done. split.
  - intros k Hk. rewrite replay_snoc, Hst. simpl. apply op_effect_agree; by apply Hd.
  - intros e He. rewrite Hseq. apply elem_of_app in He as [He|He%list_elem_of_singleton].
    + specialize (Hq e He). destruct (Z.eqb_spec (ClientID (ev_op e)) (ClientID op)) as [E|]; [|done].
      rewrite E in Hq. lia.
    + subst e. simpl. by rewrite Z.eqb_refl.
Qed.

Lemma commit_serving s :
  0 ≤ s < NShards → sstate kv' s = SERVING →
  agrees (commit W g c) s (Num (config kv')) (currentState kv') (clientSeq kv').
Proof.
  intros Hs Hsv. destruct commit_kv_wf as (Hw & Hg & Hr). pose proof commit_seq_le as Hsl.
  destruct (commit_move s Hs) as [Hc Hst Hd Hno|op Hex Hop Hst Hc _ Hlt Hd Hq|
      cfg Hex Hc Hn Hcfg Hst Hold Hd|m Hex Hdata Hm Hnum Hpl _ Hc Hd Hq|m Hex _ Hm _ _ Hst Hc].
  - rewrite Hc. rewrite Hst in Hsv. eapply agrees_move; [|by eapply (hi_serving _ Hh)|done|done].
    apply commit_events. intros op Hop%Hno. done.
  - rewrite Hc. eapply exec_agrees; [done..|]. by apply (hi_serving _ Hh g).
  - rewrite Hc. assert (∀ n, events (commit W g c) s n = events W s n) as Hev.
    { intros n. apply commit_events. rewrite Hex. by intros ? ?%not_elem_of_nil. }
    rewrite Hst in Hsv. apply next_state_serving in Hsv. rewrite Hg in *.
    assert (owner cfg s = g) as Ho by (destruct Hold as [(? & ? & ?)|(Hno & _)]; [|rewrite Hno in Hsv]; naive_solver).
    assert (events W s (Num cfg) = events W s (Num (config kv))) as Hup.
    { rewrite (no_new_events s (Num cfg) cfg) by (done || lia). f_equal. lia. }
    destruct Hold as [(Hsv0 & _ & Hz)|(Hno & Hown & Hk)].
    + eapply agrees_move; [by rewrite Hev|by eapply (hi_serving _ Hh)|by rewrite Hd|done].
    + assert (Num (config kv) = 0) as Hz by naive_solver.
      assert (events W s (Num (config kv)) = []) as Hnil.
      { apply list_filter_nil. intros e He [_ Hle]. destruct (hi_event _ Hh e He) as (? & _). lia. }
      unfold agrees. rewrite Hev, Hup, Hnil. split; [|by intros ? ?%not_elem_of_nil].
      intros k Hks. rewrite Hd. by apply Hk.
  - rewrite Hc. subst s. pose proof (hi_requests _ Hh g c m Hin Hdata) as [Hrd Hrq].
    assert (owner (config kv) (srm_ShardIndex m) = g ∧ Num (config kv) ≠ 0) as [Ho Hz].
    { destruct (sw_shard _ Hw (srm_ShardIndex m) Hs) as [?|?|? ? ? ? ? ?|?];
        unfold SERVING, NO_SERVING, PULLING, BEPULLED in *; first [lia|split; congruence]. }
    assert (events (commit W g c) (srm_ShardIndex m) (Num (config kv)) =
            events W (srm_ShardIndex m) (srm_ConfigNum m - 1)) as Hev.
    { rewrite commit_events by (rewrite Hex; by intros ? ?%not_elem_of_nil). rewrite Hnum.
      apply (no_new_events _ _ (config kv)); [|done|lia|rewrite Hpl; done].
      by destruct (wi_configs _ Hinv g kv Hr) as [[?|?] _]. }
    unfold agrees. rewrite Hev. split; [intros k Hk; rewrite Hd by done; by apply Hrd|].
    intros e He. etrans; [by apply Hrq|]. apply Hq.
    by apply (log_ok_sessions g (log W g)); [apply (wi_logs _ Hinv)|].
  - rewrite Hst in Hsv. done.
Qed.

Lemma commit_leaving s :
  0 ≤ s < NShards → sstate kv' s = BEPULLED →
  agrees (commit W g c) s (Num (config kv') - 1) (currentState kv') (clientSeq kv').
Proof.
  intros Hs Hsv. destruct commit_kv_wf as (Hw & Hg & Hr). pose proof commit_seq_le as Hsl.
  destruct (commit_move s Hs) as [Hc Hst Hd Hno|op Hex Hop _ Hc Hst Hlt Hd Hq|
      cfg Hex Hc Hn Hcfg Hst Hold Hd|m Hex Hdata Hm Hnum Hpl Hst Hc Hd Hq|m Hex _ Hm _ _ Hst Hc].
  - rewrite Hc. rewrite Hst in Hsv. eapply agrees_move; [|by eapply (hi_leaving _ Hh)|done|done].
    apply commit_events. intros op Hop%Hno. done.
  - by rewrite Hst in Hsv.
  - rewrite Hc, Hn, Z.add_simpl_r. destruct Hold as [(Hsv0 & _ & Hz)|(Hno & Hown & Hk)].
    + eapply agrees_move; [|by eapply (hi_serving _ Hh)|by rewrite Hd|done].
      apply commit_events. rewrite Hex. by intros ? ?%not_elem_of_nil.
    + exfalso. rewrite Hst in Hsv. apply next_state_leaving in Hsv. rewrite Hno in Hsv. naive_solver.
  - by rewrite Hst in Hsv.
  - by rewrite Hst in Hsv.
Qed.

Lemma commit_released s n prev cur :
  linv W → 0 ≤ s < NShards → 2 ≤ n ≤ Num (config kv') → cfg_at (n - 1) = Some prev → cfg_at n = Some cur →
  owner prev s = g → owner cur s ≠ g → (n = Num (config kv') → sstate kv' s ≠ BEPULLED) → settled W s n.
Proof.
  intros Hli Hs Hn Hprev Hcur Hop Hoc Hnb. destruct commit_kv_wf as (Hw & Hg & Hr).
  pose proof (λ H1 H2, li_released _ Hli g kv s n prev cur Hrun Hs H1 Hprev Hcur Hop Hoc H2) as Hold.
  destruct (commit_move s Hs) as [Hc Hst _ _|op _ _ Hst Hc _ _ _ _|cfg _ Hc Hnum Hcfg Hst Hrdy _|
      m _ _ _ _ Hst _ Hc _ _|m _ Hdata Hm Hnum _ _ Hc]; rewrite ?Hc in *.
  - apply Hold; [done|]. by rewrite <- Hst.
  - apply Hold; [done|]. by rewrite Hst.
  - destruct (decide (n = Num cfg)) as [->|]; cycle 1.
    { apply Hold; [lia|]. intros _. by destruct Hrdy as [(-> & _)|(-> & _)]. }
    exfalso. assert (cur = cfg) as -> by congruence. apply Hnb; [done|].
    assert (prev = config kv) as ->.
    { replace (Num cfg - 1) with (Num (config kv)) in Hprev by lia.
      destruct (wi_configs _ Hinv g kv Hr) as [[?|?] _]; [lia|congruence]. }
    rewrite Hst, Hg. unfold next_state. rewrite (proj2 (Z.eqb_neq _ _)) by lia.
    by rewrite (proj2 (Z.eqb_eq _ _) Hop), (proj2 (Z.eqb_neq _ _) Hoc).
  - apply Hold; [done|]. by rewrite Hst.
  - destruct (decide (n = Num (config kv))) as [->|]; [|apply Hold; [done|lia]].
    rewrite <- Hm, <- Hnum. by apply (li_confirms _ Hli g c m).
Qed.

Lemma executed_one : executed kv c = [] ∨ ∃ op, executed kv c = [op].
Proof. unfold executed. destruct (Data c); try by left. destruct (_ && _); eauto. Qed.

Lemma commit_event e :
  e ∈ w_hist (commit W g c) → 1 ≤ ev_config e ∧ handed (commit W g c) (shard_of e) (ev_config e) ∧
    settled (commit W g c) (shard_of e) (ev_config e).
Proof.
  rewrite commit_hist. intros [He|He]%elem_of_app.
  - destruct (hi_event _ Hh e He) as (? & ? & ?). split; [done|]. split.
    + eapply handed_grows; [apply commit_grows|done].
    + eapply settled_grows; [apply key2shard_range|apply commit_grows|done].
  - apply list_elem_of_fmap in He as (op & -> & Hop). unfold shard_of. simpl.
    destruct (executed_owner op Hop) as (Hsv & _ & Hpos & Hcfg & Ho).
    destruct commit_kv_wf as (Hw & Hg & Hr). split; [done|]. split.
    + eapply handed_grows; [apply commit_grows|].
      eapply (wi_holds _ Hinv); [done|apply key2shard_range|by left].
    + eapply settled_grows; [apply key2shard_range|apply commit_grows|].
      exists (config kv), kv. rewrite Ho. auto.
Qed.

Lemma commit_sessions : in_sessions (w_hist (commit W g c)).
Proof.
  rewrite commit_hist. destruct executed_one as [->|[op Hex]].
  { simpl. rewrite app_nil_r. apply (hi_sessions _ Hh). }
  destruct (executed_owner op) as (Hsv & Hlt & _); [rewrite Hex; by left|]. rewrite Hex.
  intros l1 e1 l2 e2 l3 E Hs Hcl. destruct l3 as [|x l3 _] using rev_ind.
  - change (l1 ++ e1 :: l2 ++ [e2]) with (l1 ++ (e1 :: l2) ++ [e2]) in E. rewrite app_assoc in E.
    apply app_inj_tail in E as [E <-]. simpl in *. eapply Z.le_lt_trans; [|exact Hlt].
    rewrite <- Hcl. apply (hi_serving _ Hh g kv _ Hrun (key2shard_range _) Hsv).
    apply served_current; [apply key2shard_range|done| |done]. rewrite E. set_solver.
  - assert (w_hist W = l1 ++ e1 :: l2 ++ e2 :: l3) as E'.
    { change (l1 ++ e1 :: l2 ++ e2 :: l3 ++ [x]) with (l1 ++ (e1 :: l2) ++ (e2 :: l3) ++ [x]) in E.
      rewrite !app_assoc in E. apply app_inj_tail in E as [E _]. rewrite E. by rewrite <- !app_assoc. }
    by eapply (hi_sessions _ Hh).
Qed.
End commit.

Lemma commit_hinv W g c : winv W → hinv W → (g, c) ∈ w_props W → hinv (commit W g c).
Proof.
  intros Hinv Hh Hin. destruct (group_state W g Hinv) as (kv & Hrun & Hw & Hg & Hrep).
  pose proof (prop_command_ok W g c kv Hinv (wi_props _ Hinv _ _ Hin) Hrun) as Hok.
  destruct (run_log_step g (log W g) c kv Hrun Hw Hok) as (kv' & Hrun' & _).
  pose proof (commit_grows W g c Hinv Hin) as Hgr.
  assert (∀ s n data seq, handed W s n → agrees W s (n - 1) data seq → agrees (commit W g c) s (n - 1) data seq)
    as Hag by (intros s n data seq Hhd; apply agrees_same; by eapply commit_events_handed).
  split.
  - intros e. by apply (commit_event W g c kv).
  - by eapply commit_sessions.
  - intros g' k s Hk Hs Hsv. destruct (decide (g' = g)) as [->|Hne].
    { rewrite (commit_end W g c kv') in Hk by done. injection Hk as <-. by eapply commit_serving. }
    apply commit_other in Hk; [|done]. eapply agrees_same; [|by eapply (hi_serving _ Hh)].
    eapply commit_events; [done|]. intros op Hop Hks. exfalso. apply Hne.
    destruct (executed_owner W g c kv Hinv Hrun op Hop) as (Hsv' & _). rewrite Hks in Hsv'.
    destruct (Z.le_ge_cases (Num (config k)) (Num (config kv))).
    + by eapply (serving_unique W g' g k kv s).
    + symmetry. by eapply (serving_unique W g g' kv k s).
  - intros g' k s Hk Hs Hsv. destruct (commit_replica W g c kv' g' k Hrun' Hk) as [Hr|[-> ->]].
    + apply Hag; [eapply (wi_holds _ Hinv); [done|done|by right]|by eapply (hi_leaving _ Hh)].
    + by eapply commit_leaving.
  - intros args reply Ha Hok'. destruct (wi_answers _ Hinv _ _ Ha) as [Hr Hrest].
    destruct (Hrest Hok') as (_ & _ & Hhd). apply Hag; [done|]. by apply (hi_answers _ Hh).
  - intros g' c' m Hp Hd. pose proof (wi_props _ Hinv _ _ Hp) as Hpo. unfold prop_ok in Hpo.
    rewrite Hd in Hpo. destruct Hpo as (_ & _ & _ & Hhd). apply Hag; [done|]. by eapply (hi_requests _ Hh).
Qed.

Lemma commit_linv W g c : winv W → linv W → (g, c) ∈ w_props W → linv (commit W g c).
Proof.
  intros Hinv Hh Hin. destruct (group_state W g Hinv) as (kv & Hrun & Hw & Hg & Hrep).
  pose proof (prop_command_ok W g c kv Hinv (wi_props _ Hinv _ _ Hin) Hrun) as Hok.
  destruct (run_log_step g (log W g) c kv Hrun Hw Hok) as (kv' & Hrun' & _).
  pose proof (commit_grows W g c Hinv Hin) as Hgr.
  assert (∀ s n, 0 ≤ s < NShards → settled W s n → settled (commit W g c) s n) as Hset
    by (intros; by eapply settled_grows).
  split.
  - intros g' k s n prev cur Hk Hs Hn Hp Hc Hop Hoc Hnb. apply Hset; [done|].
    destruct (decide (g' = g)) as [->|Hne].
    + rewrite (commit_end W g c kv') in Hk by done. injection Hk as <-. by eapply commit_released.
    + apply commit_other in Hk; [|done]. by eapply (li_released _ Hh g' k s n prev cur).
  - intros g' c' m Hp Hd. pose proof (wi_props _ Hinv _ _ Hp) as Hpo. unfold prop_ok in Hpo.
    rewrite Hd in Hpo. destruct Hpo as [_ Hs]. apply Hset; [done|]. by eapply (li_confirms _ Hh).
  - intros g' t0 args. apply (li_casks _ Hh).
  - intros g' args reply Ha Hok'. apply Hset; [by eapply (wi_canswers _ Hinv)|]. by eapply (li_canswers _ Hh).
Qed.

(** ** The other steps *)
Lemma canswer_settled W g t args kv rf reply :
  winv W → linv W → (g, t, args) ∈ w_casks W → replica W t kv →
  ShardsConfirmHandler rf kv args = Ret reply → scr_Err reply = OK →
  settled W (sca_ShardIndex args) (sca_ConfigNum args).
Proof.
  intros Hinv Hh Hin Hr Hrun Hok. destruct (replica_wf W t kv Hinv Hr) as [Hw _].
  pose proof (wi_casks _ Hinv _ _ _ Hin) as Hs. destruct (li_casks _ Hh _ _ _ Hin) as (cfg & Hcfg & Ho).
  assert (sca_ConfigNum args < Num (config kv) ∨
    sca_ConfigNum args = Num (config kv) ∧ sstate kv (sca_ShardIndex args) = SERVING) as Hor.
  { unfold ShardsConfirmHandler in Hrun. destruct (rs_GetState rf) as [? lead].
    case_test_in Hrun; [by injection Hrun as <-|]. case_test_in Hrun; [by injection Hrun as <-|].
    destruct (Z.ltb_spec (sca_ConfigNum args) (Num (config kv))) as [|Hge]; [by left|right].
    destruct (Z.eqb_spec (Num (config kv)) (sca_ConfigNum args)) as [Heq|]; [|lia]. split; [done|].
    rewrite sstate_index, !bind_Ret in Hrun by done. rewrite orb_false_r in Hrun.
    case_test_in Hrun; [done|by injection Hrun as <-]. }
  destruct Hr as (l & Hp & Hl). destruct (group_state W t Hinv) as (k & Hk & _).
  exists cfg, k. rewrite Ho. split; [done|]. split; [done|]. destruct Hp as [l2 Hl2].
  pose proof (wi_logs _ Hinv t) as Hlo. rewrite Hl2 in Hk, Hlo.
  destruct (log_ok_mono t l l2 kv k Hlo Hl Hk) as [Hle _].
  destruct Hor as [?|[-> Hsv]]; [left; lia|].
  destruct (decide (Num (config kv) = Num (config k))); [right|left; lia]. split; [done|].
  by eapply log_ok_serving.
Qed.

Lemma wstep_hinv atomic W W' : winv W → hinv W → wstep atomic W W' → hinv W'.
Proof.
  intros Hinv Hh Hstep. destruct Hstep as [W g op|W g|W g kv latest n cfg Hr Ht Hc|W g c Hin|
    W g kv k2 calls t srv args Hr Hr2 Hcalls Hin|W t args kv rf reply Hin Hr Hrun|W args reply kv c Hin Hr Hrun|
    W g kv k2 calls t srv args Hr Hr2 Hat Hcalls Hin|W g t args kv rf reply Hin Hr Hrun|
    W g args reply kv c Hin Hr Hrun]; try by apply commit_hinv.
  all: apply (hinv_message W); simpl; try done; try (intros; by left).
  all: try (intros g' c' [[= -> ->]|?]%(@elem_of_cons (Z * CommandMsg)); [right|by left]; try by intros m [=]).
  - intros args' reply' [[= -> ->]|?]%elem_of_cons; [right|by left]. intros Hok.
    destruct (replica_wf W t kv Hinv Hr) as [Hw _]. pose proof (wi_asks _ Hinv _ _ Hin) as Hs.
    destruct (ShardsRequestHandler_ok rf kv args reply Hw Hs Hrun Hok) as (Hn & Hb & ->). simpl.
    rewrite Hn. destruct (hi_leaving _ Hh t kv _ Hr Hs Hb) as [Hd Hq]. split; [|done].
    intros k Hk. rewrite shard_data_lookup, Hk, Z.eqb_refl. by apply Hd.
  - pose proof (hi_answers _ Hh _ _ Hin) as Hag. unfold ShardsRequester_reply in Hrun.
    case_test_in Hrun; [|done]. case_test_in Hrun; [done|]. injection Hrun as <-.
    intros m [= <-]. by apply Hag.
  - unfold ShardsConfirm_reply in Hrun. case_test_in Hrun; [|done]. injection Hrun as <-. by intros m [=].
Qed.

Lemma wstep_linv W W' : winv W → linv W → wstep true W W' → linv W'.
Proof.
  intros Hinv Hh Hstep. destruct Hstep as [W g op|W g|W g kv latest n cfg Hr Ht Hc|W g c Hin|
    W g kv k2 calls t srv args Hr Hr2 Hcalls Hin|W t args kv rf reply Hin Hr Hrun|W args reply kv c Hin Hr Hrun|
    W g kv k2 calls t srv args Hr Hr2 Hat Hcalls Hin|W g t args kv rf reply Hin Hr Hrun|
    W g args reply kv c Hin Hr Hrun]; try by apply commit_linv.
  all: apply (linv_message W); simpl; try done; try (intros; by left).
  all: try (intros g' c' [[= -> ->]|?]%(@elem_of_cons (Z * CommandMsg)); [right|by left]; try by intros m [=]).
  - unfold ShardsRequester_reply in Hrun.
    case_test_in Hrun; [|done]. case_test_in Hrun; [done|]. injection Hrun as <-. by intros m [=].
  - intros g' t' args' [[= -> -> ->]|?]%elem_of_cons; [right|by left].
    destruct (replica_wf W g kv Hinv Hr) as [Hw _].
    destruct (ShardsConfirm_spec kv (Num (config k2)) Hw) as (calls' & E & Hspec).
    assert (calls' = calls) as -> by congruence. apply Hspec in Hin as (Hs & Hb & -> & -> & _).
    exists (config kv). simpl in *. split; [|done]. rewrite Hat by done.
    destruct (wi_configs _ Hinv g kv Hr) as [[Hz|?] _]; [exfalso|done].
    destruct (sw_shard _ Hw (sca_ShardIndex args) Hs);
      unfold SERVING, NO_SERVING, PULLING, BEPULLED in *; first [lia|done].
  - intros g' args' reply' [[= -> -> ->]|?]%elem_of_cons; [right|by left]. intros Hok.
    by eapply canswer_settled.
  - pose proof (li_canswers _ Hh _ _ _ Hin) as Hset. unfold ShardsConfirm_reply in Hrun.
    case_test_in Hrun; [|done]. injection Hrun as <-. intros m [= <-]. by apply Hset.
Qed.

Lemma start_sstate g s : 0 ≤ s < NShards → sstate (start g) s = NO_SERVING.
Proof.
  intros Hs. unfold sstate, start. cbn [shardsState newServer]. by rewrite nth_lookup, lookup_replicate_2 by lia.
Qed.

Lemma hinv_init : hinv world_init.
Proof.
  split; try (intros; set_solver).
  - intros l1 e1 l2 e2 l3 E. by destruct l1.
  - intros g kv s Hr Hs. assert (kv = start g) as -> by (by injection Hr). by rewrite start_sstate.
  - intros g kv s (l & Hp & Hr) Hs. apply prefix_nil_inv in Hp as ->.
    assert (kv = start g) as -> by (by injection Hr). by rewrite start_sstate.
Qed.

Lemma linv_init : linv world_init.
Proof.
  split; try (intros; set_solver).
  intros g kv s n prev cur Hr Hs Hn. assert (kv = start g) as -> by (by injection Hr). simpl in Hn. lia.
Qed.

Lemma wreach_hinv atomic W : wreach atomic W → hinv W.
Proof. induction 1; [apply hinv_init|by eapply wstep_hinv; [by eapply wreach_inv|..]]. Qed.

Lemma wreach_linv W : wreach true W → linv W.
Proof. induction 1; [apply linv_init|by eapply wstep_linv; [by eapply wreach_inv|..]]. Qed.

(** The events up to the configuration of a group that serves are all of them. *)
Lemma serving_history W g kv s :
  winv W → hinv W → run_log (start g) 1 (log W g) = Ret kv → 0 ≤ s < NShards → sstate kv s = SERVING →
  events W s (Num (config kv)) = history W s.
Proof.
  intros Hinv Hh Hrun Hs Hsv. apply filter_agree. intros e He. split; [tauto|]. intros Hes.
  pose proof (served_current W g kv Hinv Hh Hrun s e Hs Hsv He Hes) as Hin.
  by apply list_elem_of_filter in Hin as [? _].
Qed.

(** So are those before a configuration whose owner still has to obtain the shard. *)
Lemma pulling_history W g kv s :
  winv W → hinv W → run_log (start g) 1 (log W g) = Ret kv → 0 ≤ s < NShards → sstate kv s = PULLING →
  events W s (Num (config kv) - 1) = history W s.
Proof.
  intros Hinv Hh Hrun Hs Hpl. apply filter_agree. intros e He. split; [tauto|]. intros Hes. split; [done|].
  assert (replica W g kv) as Hr by (by exists (log W g)).
  destruct (replica_wf W g kv Hinv Hr) as [Hw Hg]. pose proof (sw_pos _ Hw) as [? _].
  destruct (sw_shard _ Hw s Hs) as [?|?|_ Ho _ _ Hz _|?];
    try (unfold SERVING, NO_SERVING, PULLING, BEPULLED in *; lia).
  assert (cfg_at (Num (config kv)) = Some (config kv)) as Hcfg
    by (by destruct (wi_configs _ Hinv g kv Hr) as [[?|?] _]).
  destruct (hi_event _ Hh e He) as (_ & Hhd & _). subst s.
  destruct (Z.le_gt_cases (ev_config e) (Num (config kv))) as [Hle|Hgt].
  - destruct (decide (ev_config e = Num (config kv))) as [Heq|]; [exfalso|lia].
    destruct (event_seen W g kv Hh Hrun e (config kv) He) as [?|[_ Hsv]]; [congruence|congruence|lia|].
    rewrite Hpl in Hsv. done.
  - exfalso. destruct (Hhd (Num (config kv) + 1) (config kv)) as (k & Hk & Hn); [lia| |].
    { by replace (Num (config kv) + 1 - 1) with (Num (config kv)) by lia. }
    rewrite Ho, Hg in Hk. assert (k = kv) as -> by congruence. lia.
Qed.
End history.

(** ** Theorems *)

(** C10: the groups together behave like one map.  The group that serves a
    shard holds, and answers a Get with, exactly the result of executing the
    shard's history on one map, wherever its operations were executed and
    however often the shard has moved; and in that history the operations of a
    client occur with increasing numbers, so that none is executed twice. *)
Theorem sharded_exactly_once {K : Controller} {R} `{RaftService R CommandMsg} (atomic : bool) (W : world)
    (g s : Z) (kv : ShardKV) (HW : wreach atomic W) (Hs : 0 ≤ s < NShards)
    (Hrun : run_log (start g) 1 (log W g) = Ret kv) (Hsv : sstate kv s = SERVING) :
  (∀ k, key2shard k = s → currentState kv !! k = replay (history W s) !! k) ∧
  (∀ op, key2shard (Key op) = s → Optype op = "Get"%string →
     Value (execute kv op).2 = map_get "" (replay (history W s)) (Key op)) ∧
  in_sessions (w_hist W).
Proof.
  pose proof (wreach_inv _ W HW) as Hinv. pose proof (wreach_hinv _ W HW) as Hh.
  destruct (hi_serving _ Hh g kv s Hrun Hs Hsv) as [Hd _].
  rewrite (serving_history W g kv s) in Hd by done. split; [done|]. split; [|apply (hi_sessions _ Hh)].
  intros op Hop Hget. unfold map_get at 1. rewrite <- Hd by done.
  unfold execute, fill_value. rewrite Hget. simpl. unfold open_session, map_get.
  destruct (clientSeq kv !! ClientID op); case_test; done.
Qed.

Lemma sharded_exactly_once_witness :
  sstate (state_of run_moved 200) (key2shard "k") = SERVING ∧
  ev_group <$> history run_moved (key2shard "k") = [100] ∧
  currentState (state_of run_moved 200) !! "k"%string = Some "v"%string ∧
  currentState (state_of run_moved 200) !! "k"%string = replay (history run_moved (key2shard "k")) !! "k"%string.
Proof.
  split; [vm_compute; reflexivity|]. split; [vm_compute; reflexivity|]. split; [vm_compute; reflexivity|].
  refine (proj1 (sharded_exactly_once (K := sample_controller) (H := leader_service) false run_moved 200 (key2shard "k")
            (state_of run_moved 200) (run_moved_reach false) (key2shard_range _) _ _) "k"%string eq_refl);
    vm_compute; reflexivity.
Defined.

(** C18: a shard on its way is never lost, as long as each pass of [ShardsConfirm]
    sees a single configuration ([wreach true]; [late_confirm_loses_shard] shows
    what happens otherwise).  While a group still has to pull a shard, the
    previous owner has not yet adopted the configuration, or keeps
    the shard, with the result of its whole history, ready to hand out: the
    confirmation that lets it delete the shard cannot overtake the transfer. *)
Theorem shard_never_lost {K : Controller} {R} `{RaftService R CommandMsg} (W : world) (g s : Z)
    (kv : ShardKV) (HW : wreach true W) (Hs : 0 ≤ s < NShards)
    (Hrun : run_log (start g) 1 (log W g) = Ret kv) (Hpl : sstate kv s = PULLING) :
  let p := owner (prevConfig kv) s in
  ∃ kp, run_log (start p) 1 (log W p) = Ret kp ∧
    (Num (config kp) < Num (config kv) ∨
     Num (config kp) = Num (config kv) ∧ sstate kp s = BEPULLED ∧
     ∀ k, key2shard k = s → currentState kp !! k = replay (history W s) !! k).
Proof.
  intros p. pose proof (wreach_inv _ W HW) as Hinv. pose proof (wreach_hinv _ W HW) as Hh.
  assert (replica W g kv) as Hr by (by exists (log W g)). destruct (replica_wf W g kv Hinv Hr) as [Hw Hg].
  destruct (group_state W p Hinv) as (kp & Hkp & _ & _ & Hrp). exists kp. split; [done|].
  destruct (Z.lt_ge_cases (Num (config kp)) (Num (config kv))) as [|Hge]; [by left|right].
  destruct (sw_shard _ Hw s Hs) as [?|?|_ Ho Hop Hzp Hz _|?];
    try (unfold SERVING, NO_SERVING, PULLING, BEPULLED in *; lia).
  destruct (wi_configs _ Hinv g kv Hr) as [[?|Hc] [?|Hp]]; try done.
  destruct (sw_num _ Hw) as [?|Hn]; [done|]. pose proof (sw_pos _ Hw) as [_ Hpos]. specialize (Hpos Hz).
  assert (¬ settled W s (Num (config kv))) as Hns.
  { intros (cfg & k & Hcfg & Hk & Hor). assert (cfg = config kv) as -> by congruence.
    rewrite Ho, Hg in Hk. assert (k = kv) as -> by congruence.
    unfold SERVING, PULLING in *. lia. }
  assert (¬ (Num (config kv) = Num (config kp) → sstate kp s ≠ BEPULLED)) as Hrel.
  { intros Hnb. apply Hns.
    apply (li_released _ (wreach_linv W HW) p kp s (Num (config kv)) (prevConfig kv) (config kv)); try done; [lia| |].
    - by replace (Num (config kv) - 1) with (Num (prevConfig kv)) by lia.
    - subst p. congruence. }
  destruct (decide (Num (config kp) = Num (config kv) ∧ sstate kp s = BEPULLED)) as [[Heq Hb]|Hno].
  - split; [done|]. split; [done|]. destruct (hi_leaving _ Hh p kp s Hrp Hs Hb) as [Hd _].
    rewrite Heq, (pulling_history W g kv s) in Hd by done. done.
  - exfalso. apply Hrel. intros Heq Hb. by apply Hno.
Qed.

Lemma shard_never_lost_witness :
  sstate (state_of run_pulling 200) (key2shard "k") = PULLING ∧
  ∃ kp, run_log (start 100) 1 (log run_pulling 100) = Ret kp ∧
    (Num (config kp) < 2 ∨ Num (config kp) = 2 ∧ sstate kp (key2shard "k") = BEPULLED ∧
     ∀ k, key2shard k = key2shard "k" → currentState kp !! k = replay (history run_pulling (key2shard "k")) !! k).
Proof.
  split; [vm_compute; reflexivity|].
  refine (shard_never_lost (K := sample_controller) (H := leader_service) run_pulling 200 (key2shard "k")
            (state_of run_pulling 200) (run_pulling_reach true) (key2shard_range _) _ _); vm_compute; reflexivity.
Defined.

(** The shard returns to group 100 and is given to group 300, group 200
    meanwhile being further ahead; a pass of [ShardsConfirm] that group 100
    began in configuration 2 goes on only now, in configuration 4. *)
Definition run_returned : world :=
  let W := confirm run_moved 100 (state_of run_moved 100) in
  let W := pull (adopt (adopt W 100) 200) 100 in
  confirm W 200 (state_of W 200).
Definition run_ahead : world :=
  let W := adopt (adopt (adopt run_returned 100) 200) 200 in
  adopt (adopt (adopt (adopt W 300) 300) 300) 300.
Definition run_late : world := confirm run_ahead 100 (state_of run_left 100).

Lemma run_late_reach : wreach (K := sample_controller) (H := leader_service) false run_late.
Proof.
  apply confirm_reach; [|exists (log run_left 100)|done].
  - apply adopt_reach, adopt_reach, adopt_reach, adopt_reach, adopt_reach, adopt_reach, adopt_reach.
    apply confirm_reach; [|apply state_replica|done].
    apply pull_reach, adopt_reach, adopt_reach.
    apply confirm_reach; [|apply state_replica|done]. apply run_moved_reach.
  - split; [|vm_compute; reflexivity]. exists (drop 3 (log run_ahead 100)). vm_compute. reflexivity.
Qed.

(** C30: the number sent by [ShardsConfirm] must be read under the lock.  In the
    code it is read after the lock was released; when the configuration
    changes in between, the confirmation of an earlier move can be taken for
    that of a later one: here group 300 still has to obtain a shard with a
    value in it, and group 100, which alone had it, has deleted it. *)
Theorem late_confirm_loses_shard :
  let s := key2shard "k" in
  wreach (K := sample_controller) (H := leader_service) false run_late ∧
  run_log (start 300) 1 (log run_late 300) = Ret (state_of run_late 300) ∧
  sstate (state_of run_late 300) s = PULLING ∧
  owner (prevConfig (state_of run_late 300)) s = 100 ∧
  Num (config (state_of run_late 100)) = Num (config (state_of run_late 300)) ∧
  sstate (state_of run_late 100) s = NO_SERVING ∧
  replay (history run_late s) !! "k"%string = Some "v"%string ∧
  (∀ g, g ∈ [100; 200; 300] → currentState (state_of run_late g) !! "k"%string = None).
Proof.
  intros s. split; [apply run_late_reach|]. do 6 (split; [vm_compute; reflexivity|]).
  intros g Hg. repeat (apply elem_of_cons in Hg as [->|Hg]; [vm_compute; reflexivity|]).
  by apply not_elem_of_nil in Hg.
Qed.
