(* ===== verification/ShardReplica.v ===== *)
(** * Snapshots, restarts and late deliveries in a group

    In [ShardSystem] a server is the result of executing a prefix of its
    group's log.  Here servers start from snapshots, install snapshots while
    running, and then still receive commands the snapshot covers: only client
    operations and configurations are skipped by their index, the commands
    that move shards are executed again.  The state is nevertheless always
    that of a prefix of the log. *)

From S2P Require Import Prelude Persister Chan RaftApi Raft ShardConfig Rebalance ShardCtrler ShardCtrlerSpec ShardKV ShardKVSpec ShardSystem.
Import ShardKV.

(** ** The replicated part of a server *)

(** The fields a server has of its own. *)
Definition retag (m : Z) (w : waitroom CommandMsg) (x : Z) (kv : ShardKV) : ShardKV :=
  mkShardKV m (gid kv) (currentState kv) w (clientSeq kv) x (config kv) (prevConfig kv) (shardsState kv).

Lemma view_retag kv1 kv2 :
  skv_view kv1 = skv_view kv2 →
  kv2 = retag (maxraftstate kv2) (waitChan kv2) (lastIncludedIndex kv2) kv1.
Proof. destruct kv1, kv2. unfold skv_view, retag. simpl. by intros [= -> -> -> -> -> ->]. Qed.

Lemma retag_view m w x kv : skv_view (retag m w x kv) = skv_view kv.
Proof. done. Qed.

Lemma updateShardsState_retag m w x kv :
  updateShardsState (retag m w x kv) = (kv' ← updateShardsState kv; mret (retag m w x kv')).
Proof.
  unfold updateShardsState.
  assert (∀ js k0, foldl (λ acc i, kv ← acc; o ← newShardState kv i;
      match o with None => mret kv | Some st => l ← set_index (shardsState kv) i st;
        mret (set_shardsState l kv) end) (kv' ← k0; mret (retag m w x kv')) js =
    (kv' ← foldl (λ acc i, kv ← acc; o ← newShardState kv i;
      match o with None => mret kv | Some st => l ← set_index (shardsState kv) i st;
        mret (set_shardsState l kv) end) k0 js; mret (retag m w x kv'))) as Hf; [|apply (Hf _ (Ret kv))].
  induction js as [|j js IH]; intros k0; [done|]. cbn [foldl]. rewrite <- IH. f_equal.
  destruct k0 as [k0| |]; [|done..]. cbn [mbind Go_bind mret Go_ret].
  change (newShardState (retag m w x k0) j) with (newShardState k0 j).
  destruct (newShardState k0 j) as [[st|]| |]; [|done..]. simpl.
  by destruct (set_index (shardsState k0) j st).
Qed.

Lemma execute_retag m w x kv op :
  execute (retag m w x kv) op = (retag m w x (execute kv op).1, (execute kv op).2).
Proof.
  unfold execute, open_session. simpl. destruct (clientSeq kv !! ClientID op); simpl;
    case_test; [done| |done|]; unfold applyToStateMachine, fill_value; simpl;
    repeat (case_bool_decide; simpl); done.
Qed.

(** Commands act on the replicated part alone. *)
Lemma apply_command_retag m w x kv i c :
  lastIncludedIndex kv < i → x < i →
  apply_command (retag m w x kv) i c = ('(kv', o) ← apply_command kv i c; mret (retag m w x kv', o)).
Proof.
  intros Hi Hx. unfold apply_command. case_test.
  { unfold apply_op. simpl. rewrite !(proj2 (Z.leb_gt _ _)) by lia.
    destruct (index (shardsState kv) _) as [st| |]; [|done..]. rewrite !bind_Ret.
    case_test; [done|]. rewrite execute_retag. by destruct (execute kv _). }
  case_test.
  { destruct (Data c) as [| |cfg| |]; try done. unfold apply_config. simpl.
    rewrite !(proj2 (Z.leb_gt _ _)) by lia. case_test; [|done].
    change (set_configs cfg (config kv) (retag m w x kv)) with (retag m w x (set_configs cfg (config kv) kv)).
    rewrite updateShardsState_retag. by destruct (updateShardsState _). }
  case_test.
  { destruct (Data c) as [| | |msg|]; try done. unfold apply_shard_request. simpl. case_test; [done|].
    destruct (index (shardsState kv) _) as [st| |]; [|done..]. rewrite !bind_Ret. case_test; [|done].
    unfold mergeShardData. simpl. by destruct (set_index (shardsState kv) _ _). }
  case_test.
  { destruct (Data c) as [| | | |msg]; try done. unfold apply_shard_confirm. simpl. case_test; [done|].
    destruct (index (shardsState kv) _) as [st| |]; [|done..]. rewrite !bind_Ret. case_test; [|done].
    by destruct (set_index (shardsState kv) _ _). }
  by case_test.
Qed.

(** ** Within a configuration *)

(** The state of a shard only goes from being pulled to served, and from
    being given away to given up. *)
Definition advances (st st' : Z) : Prop :=
  st' = st ∨ st = PULLING ∧ st' = SERVING ∨ st = BEPULLED ∧ st' = NO_SERVING.

Lemma advances_trans a b c : advances a b → advances b c → advances a c.
Proof.
  unfold advances, SERVING, NO_SERVING, PULLING, BEPULLED.
  intros [->|[[-> ->]|[-> ->]]] [->|[[? ->]|[? ->]]]; auto; lia.
Qed.

Lemma effect_advances kv c kv' s :
  command_ok kv c → effect kv c kv' → 0 ≤ s < NShards → Num (config kv') = Num (config kv) →
  advances (sstate kv s) (sstate kv' s).
Proof.
  intros Hok [->|op Hop Hserv ->|cfg l Ht Hd Hn -> Hl Hs|m l Ht Hd Hn Hp -> Hl Hs|m l Ht Hd Hn Hb -> Hl Hs] Hr Hsame.
  - by left.
  - destruct (execute_frame kv op) as (_ & _ & _ & E & _). left. unfold sstate. by rewrite E.
  - destruct (command_ok_config _ _ _ Ht Hd Hok) as (_ & H1 & _). simpl in Hsame.
    destruct Hn as [Hz|?]; [specialize (H1 Hz)|]; lia.
  - unfold sstate at 2. simpl. rewrite Hs by done.
    destruct (Z.eqb_spec s (srm_ShardIndex m)) as [->|]; [right; left|left]; done.
  - unfold sstate at 2. simpl. rewrite Hs by done.
    destruct (Z.eqb_spec s (scm_ShardIndex m)) as [->|]; [right; right|left]; done.
Qed.

Lemma log_ok_advances g l k kv1 kv2 s :
  log_ok g (l ++ k) → run_log (start g) 1 l = Ret kv1 → run_log (start g) 1 (l ++ k) = Ret kv2 →
  0 ≤ s < NShards → Num (config kv1) = Num (config kv2) → advances (sstate kv1 s) (sstate kv2 s).
Proof.
  revert kv2. induction k as [|c k IH] using rev_ind; intros kv2 Ho H1 H2 Hs Hn.
  - rewrite app_nil_r in H2. assert (kv1 = kv2) as <- by congruence. by left.
  - rewrite app_assoc in Ho, H2. apply log_ok_snoc in Ho as [Ho (kv & Hrun & Hok)].
    destruct (log_ok_run _ _ Ho) as (kv' & E & Hw & _). assert (kv' = kv) as -> by congruence.
    destruct (run_log_step g _ c kv Hrun Hw Hok) as (kv'' & E'' & Hef & _).
    assert (kv'' = kv2) as -> by congruence. pose proof (effect_num _ _ _ Hok Hef).
    destruct (log_ok_mono g l k kv1 kv Ho H1 Hrun) as [Hle _].
    apply advances_trans with (sstate kv s); [apply IH; try done; lia|].
    eapply effect_advances; [done..|lia].
Qed.

(** ** Commands that move shards are logged after their configuration *)
Definition msg_num (c : CommandMsg) : Z :=
  match Data c with
  | DShardRequest m => srm_ConfigNum m
  | DShardConfirm m => scm_ConfigNum m
  | _ => 0
  end.

(** Every entry stands after the configuration it is for. *)
Definition log_numbered (g : Z) (l : list CommandMsg) : Prop :=
  ∀ l1 c l2, l = l1 ++ c :: l2 → ∃ kv, run_log (start g) 1 l1 = Ret kv ∧ msg_num c ≤ Num (config kv).

Section numbered.
Context {K : Controller} {R : Type} `{RaftService R CommandMsg}.
Implicit Types (W : world).

Record ninv W : Prop := {
  ni_logs : ∀ g, log_numbered g (log W g);
  ni_props : ∀ g c, (g, c) ∈ w_props W → reached W g (msg_num c);
  ni_casks : ∀ g t args, (g, t, args) ∈ w_casks W → reached W g (sca_ConfigNum args);
  ni_canswers : ∀ g args reply, (g, args, reply) ∈ w_canswers W → reached W g (sca_ConfigNum args)
}.

Lemma replica_reached W g kv : winv W → replica W g kv → reached W g (Num (config kv)).
Proof.
  intros Hinv (l & [k Hk] & Hl). destruct (group_state W g Hinv) as (kv' & Hrun & _).
  exists kv'. split; [done|]. pose proof (wi_logs _ Hinv g) as Ho. rewrite Hk in Ho, Hrun.
  by destruct (log_ok_mono g l k kv kv' Ho Hl Hrun).
Qed.

Lemma reached_zero W g : winv W → reached W g 0.
Proof.
  intros Hinv. destruct (group_state W g Hinv) as (kv & Hrun & Hw & _). exists kv. split; [done|].
  apply (sw_pos _ Hw).
Qed.

Lemma ninv_message W W' :
  winv W → ninv W → (∀ g, log W' g = log W g) →
  (∀ g c, (g, c) ∈ w_props W' → (g, c) ∈ w_props W ∨ reached W g (msg_num c)) →
  (∀ g t args, (g, t, args) ∈ w_casks W' → (g, t, args) ∈ w_casks W ∨ reached W g (sca_ConfigNum args)) →
  (∀ g args reply, (g, args, reply) ∈ w_canswers W' →
     (g, args, reply) ∈ w_canswers W ∨ reached W g (sca_ConfigNum args)) → ninv W'.
Proof.
  intros Hinv [Il Ip Ic Ia] Hl Hp Hc Ha. pose proof (grows_same W W' Hinv Hl) as Hg.
  assert (∀ g n, reached W g n → reached W' g n) as Hr by (intros; by eapply reached_grows).
  split.
  - intros g. rewrite Hl. apply Il.
  - intros g c [?|?]%Hp; eauto.
  - intros g t args [?|?]%Hc; eauto.
  - intros g args reply [?|?]%Ha; eauto.
Qed.

Lemma commit_ninv W g c : winv W → ninv W → (g, c) ∈ w_props W → ninv (commit W g c).
Proof.
  intros Hinv Hn Hin. pose proof (commit_inv W g c Hinv Hin) as Hinv'.
  assert (grows W (commit W g c)) as Hg.
  { intros g'. split; [|apply (wi_logs _ Hinv')]. rewrite commit_log. case_bool_decide as E; [|done].
    subst. by apply prefix_app_r. }
  assert (∀ g' n, reached W g' n → reached (commit W g c) g' n) as Hr by (intros; by eapply reached_grows).
  destruct Hn as [Il Ip Ic Ia]. split; [|eauto..].
  intros g' l1 c' l2. rewrite commit_log. case_bool_decide as E; [subst g'|apply Il].
  intros El. destruct l2 as [|x l2 _] using rev_ind.
  - apply app_inj_tail in El as [<- <-]. by apply Ip.
  - rewrite app_comm_cons, app_assoc in El. apply app_inj_tail in El as [El _]. by apply (Il g l1 c' l2).
Qed.

Lemma wstep_ninv atomic W W' : winv W → ninv W → wstep atomic W W' → ninv W'.
Proof.
  intros Hinv Hn Hstep. destruct Hstep as [W g op|W g|W g kv latest n cfg Hr Ht Hc|W g c Hin|
    W g kv k2 calls t srv args Hr Hr2 Hcalls Hin|W t args kv rf reply Hin Hr Hrun|W args reply kv c Hin Hr Hrun|
    W g kv k2 calls t srv args Hr Hr2 Hat Hcalls Hin|W g t args kv rf reply Hin Hr Hrun|
    W g args reply kv c Hin Hr Hrun]; try by apply commit_ninv.
  all: apply (ninv_message W); simpl; try done; try (intros; by left).
  all: try (intros g' c' [[= -> ->]|?]%(@elem_of_cons (Z * CommandMsg)); [right|by left];
            try by apply reached_zero).
  - unfold ShardsRequester_reply in Hrun. case_test_in Hrun; [|done]. case_test_in Hrun; [done|].
    injection Hrun as <-. simpl. destruct (wi_answers _ Hinv _ _ Hin) as [_ (_ & Hnum & _)]; [done|].
    destruct_and?. replace (sra_ConfigNum args) with (Num (config kv)) by lia. by apply replica_reached.
  - intros g' t' args' [[= -> -> ->]|?]%elem_of_cons; [right|by left].
    destruct (replica_wf W g kv Hinv Hr) as [Hw _].
    destruct (ShardsConfirm_spec kv (Num (config k2)) Hw) as (calls' & E & Hspec).
    assert (calls' = calls) as -> by congruence. apply Hspec in Hin as (_ & _ & -> & _). simpl.
    by apply replica_reached.
  - intros g' args' reply' [[= -> -> ->]|?]%elem_of_cons; [right|by left]. by apply (ni_casks _ Hn) in Hin.
  - unfold ShardsConfirm_reply in Hrun. case_test_in Hrun; [|done]. injection Hrun as <-. simpl.
    by apply (ni_canswers _ Hn) in Hin.
Qed.

Lemma ninv_init : ninv world_init.
Proof. split; try (intros; set_solver). intros g l1 c l2 E. by destruct l1. Qed.

Lemma wreach_ninv atomic W : wreach atomic W → ninv W.
Proof. induction 1; [apply ninv_init|by eapply wstep_ninv; [by eapply wreach_inv|..]]. Qed.
End numbered.

(** ** Servers with snapshots *)

(** The state after the first [n] entries. *)
Definition state_at (g : Z) (l : list CommandMsg) (n : nat) (kv : ShardKV) : Prop :=
  (n ≤ length l)%nat ∧ run_log (start g) 1 (take n l) = Ret kv.

(** After a transfer was handled in its configuration the shard is not to be
    pulled any more, and after a confirmation not to be given away. *)
Lemma request_settles kv i c m kv' o :
  shard_wf kv → CommandType c = ShardRequestOperation → Data c = DShardRequest m →
  0 ≤ srm_ShardIndex m < NShards → srm_ConfigNum m = Num (config kv) →
  apply_command kv i c = Ret (kv', o) → sstate kv' (srm_ShardIndex m) ≠ PULLING.
Proof.
  intros Hw Ht Hd Hr Hn. unfold apply_command. rewrite Ht, Hd. simpl. unfold apply_shard_request.
  rewrite Hn, Z.eqb_refl. cbn [negb]. rewrite (sstate_index kv Hw), bind_Ret by done.
  destruct (Z.eqb_spec (sstate kv (srm_ShardIndex m)) PULLING) as [|Hne]; [|by intros [= <- _]].
  unfold mergeShardData. destruct (set_sstate kv Hw _ SERVING Hr) as (l & -> & _ & Hs). simpl.
  intros [= <- _]. unfold sstate. simpl. rewrite Hs by done. by rewrite Z.eqb_refl.
Qed.

Lemma confirm_settles kv i c m kv' o :
  shard_wf kv → CommandType c = ShardConfirmOperation → Data c = DShardConfirm m →
  0 ≤ scm_ShardIndex m < NShards → scm_ConfigNum m = Num (config kv) →
  apply_command kv i c = Ret (kv', o) → sstate kv' (scm_ShardIndex m) ≠ BEPULLED.
Proof.
  intros Hw Ht Hd Hr Hn. unfold apply_command. rewrite Ht, Hd. simpl. unfold apply_shard_confirm.
  rewrite Hn, Z.eqb_refl. cbn [negb]. rewrite (sstate_index kv Hw), bind_Ret by done.
  destruct (Z.eqb_spec (sstate kv (scm_ShardIndex m)) BEPULLED) as [|Hne]; [|by intros [= <- _]].
  destruct (set_sstate kv Hw _ NO_SERVING Hr) as (l & -> & _ & Hs). simpl.
  intros [= <- _]. unfold sstate. simpl. rewrite Hs by done. by rewrite Z.eqb_refl.
Qed.

(** What lies between an entry and a later state: the command was handled
    where it stands, and the configuration and the shards moved on from there. *)
Lemma later_state g l n s c i :
  log_ok g l → log_numbered g l → state_at g l n s → (i < n)%nat → l !! i = Some c →
  shard_wf s ∧ ∃ k0 k1 o, shard_wf k0 ∧ command_ok k0 c ∧ apply_command k0 (1 + Z.of_nat i) c = Ret (k1, o) ∧
    msg_num c ≤ Num (config k0) ≤ Num (config k1) ∧ Num (config k1) ≤ Num (config s) ∧
    (Num (config k1) = Num (config s) → ∀ sh, 0 ≤ sh < NShards → advances (sstate k1 sh) (sstate s sh)).
Proof.
  intros Hok Hnum [Hn Hs] Hin Hc.
  assert (l = take i l ++ c :: drop (S i) l) as El by (by rewrite take_drop_middle).
  destruct (Hok _ _ _ El) as (k0 & Hk0 & Hcok). destruct (Hnum _ _ _ El) as (k0' & Hk0' & Hcn).
  assert (k0' = k0) as -> by congruence.
  assert (log_ok g (take n l)) as Hokn.
  { eapply log_ok_prefix; [|exact Hok]. apply prefix_take. }
  assert (take n l = (take i l ++ [c]) ++ drop (S i) (take n l)) as En.
  { rewrite <- (take_drop (S i) (take n l)) at 1. rewrite take_take, Nat.min_l by lia.
    by rewrite (take_S_r _ _ _ Hc). }
  rewrite En in Hokn, Hs.
  assert (log_ok g (take i l ++ [c])) as Hoki by (eapply log_ok_prefix; [|exact Hokn]; by eexists).
  destruct (log_ok_run g (take i l)) as (k0' & E0 & Hw0 & _); [by apply log_ok_snoc in Hoki as [? _]|].
  assert (k0' = k0) as -> by congruence.
  destruct (run_log_step g (take i l) c k0 Hk0 Hw0 Hcok) as (k1 & Hk1 & Hef & _).
  destruct (log_ok_run g _ Hokn) as (s' & Es & Hws & _). assert (s' = s) as -> by congruence.
  split; [done|]. destruct (log_ok_mono g _ _ k1 s Hokn Hk1 Hs) as [Hle1 _].
  pose proof (effect_num _ _ _ Hcok Hef) as Hle0.
  pose proof Hk1 as Hk1'. rewrite run_log_snoc, Hk0, bind_Ret in Hk1'. apply bind_inv in Hk1' as ([k1' o] & Ha & [= ->]).
  exists k0, k1, o. split; [done|]. split; [done|]. split.
  { rewrite <- Ha. f_equal. unfold zlen. rewrite length_take. lia. }
  split; [lia|]. split; [lia|]. intros Heq sh Hsh.
  by apply (log_ok_advances g (take i l ++ [c]) (drop (S i) (take n l))).
Qed.

(** A late command is one a snapshot already covers; executing it changes
    nothing. *)
Lemma stale_command g l n kv s c j :
  log_ok g l → log_numbered g l → state_at g l n s → skv_view kv = skv_view s →
  1 ≤ j ≤ Z.of_nat n → j ≤ lastIncludedIndex kv → l !! Z.to_nat (j - 1) = Some c →
  ∃ o, apply_command kv j c = Ret (kv, o).
Proof.
  intros Hok Hnum Hat Hv Hj Hli Hc.
  destruct (later_state g l n s c (Z.to_nat (j - 1)) Hok Hnum Hat) as
    (Hws & k0 & k1 & o & Hw0 & Hcok & Ha & Hn0 & Hn1 & Hadv); [lia|done|].
  assert (config kv = config s ∧ shardsState kv = shardsState s) as [Hcfg Hst].
  { unfold skv_view in Hv. split; congruence. }
  unfold command_ok in Hcok. destruct (Z.eqb_spec (CommandType c) KVOperation) as [Ht|Ht1].
  { unfold apply_command. rewrite Ht. simpl. unfold apply_op. rewrite (proj2 (Z.leb_le _ _)) by lia. by eexists. }
  destruct (Z.eqb_spec (CommandType c) ConfigOperation) as [Ht|Ht2].
  { destruct Hcok as (cfg & Hd & _). unfold apply_command. rewrite Ht, Hd. simpl. unfold apply_config.
    rewrite (proj2 (Z.leb_le _ _)) by lia. by eexists. }
  destruct (Z.eqb_spec (CommandType c) ShardRequestOperation) as [Ht|Ht3].
  { destruct Hcok as (m & Hd & Hr & _). unfold msg_num in Hn0. rewrite Hd in Hn0.
    unfold apply_command. rewrite Ht, Hd. simpl. unfold apply_shard_request. rewrite Hcfg, Hst.
    destruct (Z.eqb_spec (srm_ConfigNum m) (Num (config s))) as [Heq|]; [|by eexists]. cbn [negb].
    rewrite (sstate_index s Hws), bind_Ret by done. rewrite (proj2 (Z.eqb_neq _ _)); [by eexists|].
    pose proof (request_settles k0 _ c m k1 o Hw0 Ht Hd Hr ltac:(lia) Ha) as Hnp.
    specialize (Hadv ltac:(lia) _ Hr). unfold advances, SERVING, NO_SERVING, PULLING, BEPULLED in *. lia. }
  destruct (Z.eqb_spec (CommandType c) ShardConfirmOperation) as [Ht|Ht4].
  { destruct Hcok as (m & Hd & Hr). unfold msg_num in Hn0. rewrite Hd in Hn0.
    unfold apply_command. rewrite Ht, Hd. simpl. unfold apply_shard_confirm. rewrite Hcfg, Hst.
    destruct (Z.eqb_spec (scm_ConfigNum m) (Num (config s))) as [Heq|]; [|by eexists]. cbn [negb].
    rewrite (sstate_index s Hws), bind_Ret by done. rewrite (proj2 (Z.eqb_neq _ _)); [by eexists|].
    pose proof (confirm_settles k0 _ c m k1 o Hw0 Ht Hd Hr ltac:(lia) Ha) as Hnp.
    specialize (Hadv ltac:(lia) _ Hr). unfold advances, SERVING, NO_SERVING, PULLING, BEPULLED in *. lia. }
  unfold apply_command. rewrite !(proj2 (Z.eqb_neq _ _)) by done. case_test; by eexists.
Qed.

Section server.
Context `{Codec (gmap string string * gmap Z Z * list Z * Config * Config)}.

Lemma read_persisted kv s :
  gid kv = gid s → skv_view (readServerPersistData kv (getServerPersistData s)) = skv_view s ∧
    lastIncludedIndex (readServerPersistData kv (getServerPersistData s)) = lastIncludedIndex kv.
Proof.
  intros Hg. unfold readServerPersistData, getServerPersistData. rewrite gob_decode_encode. case_test.
  { destruct (gob_encode _) eqn:E; [by apply gob_encode_nonempty in E|zlen_lia]. }
  unfold skv_view. simpl. by rewrite Hg.
Qed.

Context {R : Type} `{RaftService R CommandMsg}.

(** A server of group [g] that has the first [n] entries of log [l]: it is
    started from nothing or from a snapshot, executes the next entry or a late
    one, is offered a snapshot that is ahead of it, and serves requests, which
    change its Raft peer and its wait channels. *)
Inductive server_run (g : Z) (l : list CommandMsg) : nat → R → ShardKV → Prop :=
| sr_new rf m : server_run g l 0 rf (newServer m g)
| sr_restart rf m n s : state_at g l n s →
    server_run g l n rf (readServerPersistData (newServer m g) (getServerPersistData s))
| sr_next n rf kv c rf' kv' o : server_run g l n rf kv → l !! n = Some c →
    applyHandler rf kv (command_msg (Some c) (Z.of_nat n + 1)) = Ret (rf', kv', o) →
    server_run g l (S n) rf' kv'
| sr_late n rf kv j c rf' kv' o : server_run g l n rf kv → 1 ≤ j ≤ Z.of_nat n →
    j ≤ lastIncludedIndex kv → l !! Z.to_nat (j - 1) = Some c →
    applyHandler rf kv (command_msg (Some c) j) = Ret (rf', kv', o) → server_run g l n rf' kv'
| sr_snapshot n rf kv k s t rf1 (b : bool) rf' kv' o : server_run g l n rf kv → state_at g l k s → (n ≤ k)%nat →
    rs_CondInstallSnapshot rf t (Z.of_nat k) (getServerPersistData s) = Ret (rf1, b) →
    applyHandler rf kv (snapshot_msg (getServerPersistData s) t (Z.of_nat k)) = Ret (rf', kv', o) →
    server_run g l (if b then k else n) rf' kv'
| sr_serve n rf kv rf' w : server_run g l n rf kv → server_run g l n rf' (set_waitChan w kv).

(** The applier's command branch acts as [apply_command] on the server. *)
Lemma handler_command rf kv c i rf' kv' o :
  applyHandler rf kv (command_msg (Some c) i) = Ret (rf', kv', o) →
  ∃ o', apply_command kv i c = Ret (kv', o').
Proof.
  unfold applyHandler. simpl. intros Ha. apply bind_inv in Ha as ([kv1 o1] & Hc & Ha).
  exists o1. rewrite Hc. destruct o1; [|by injection Ha as _ <-].
  apply bind_inv in Ha as (rf1 & _ & Ha). by injection Ha as _ <-.
Qed.

Lemma server_run_state g l n rf kv :
  log_ok g l → log_numbered g l → server_run g l n rf kv →
  ∃ s, state_at g l n s ∧ skv_view kv = skv_view s ∧ lastIncludedIndex kv ≤ Z.of_nat n.
Proof.
  intros Hok Hnum. induction 1 as [rf m|rf m n s Hs|n rf kv c rf' kv' o _ IH Hc Ha|n rf kv j c rf' kv' o _ IH Hj Hli Hc Ha|
    n rf kv k s t rf1 b rf' kv' o _ IH Hs Hnk Hci Ha|n rf kv rf' w _ IH].
  - exists (start g). split; [|done]. split; [lia|done].
  - exists s. split; [done|]. destruct Hs as [Hn Hrun].
    destruct (log_ok_run g (take n l)) as (s' & E & _ & Hg & _).
    { eapply log_ok_prefix; [|exact Hok]. apply prefix_take. }
    assert (s' = s) as -> by congruence.
    destruct (read_persisted (newServer m g) s) as [-> ->]; [done|]. split; [done|]. simpl. lia.
  - destruct IH as (s & [Hn Hs] & Hv & Hli). apply handler_command in Ha as [o' Ha].
    assert (log_ok g (take (S n) l)) as Hok1.
    { eapply log_ok_prefix; [|exact Hok]. apply prefix_take. }
    rewrite (take_S_r _ _ _ Hc) in Hok1. destruct (log_ok_run g _ Hok1) as (s' & Hs' & _ & _).
    exists s'. split; [split; [by apply lookup_lt_Some in Hc|by rewrite (take_S_r _ _ _ Hc)]|].
    destruct (log_ok_run g (take n l)) as (s0 & E & _ & _ & Hi0); [by apply log_ok_snoc in Hok1 as [? _]|].
    assert (s0 = s) as -> by congruence. rewrite run_log_snoc, Hs, bind_Ret in Hs'.
    apply bind_inv in Hs' as ([s1 o1] & Hs' & [= ->]). symmetry in Hv. rewrite (view_retag _ _ Hv) in Ha.
    replace (1 + zlen (take n l)) with (Z.of_nat n + 1) in Hs' by (unfold zlen; rewrite length_take; lia).
    rewrite apply_command_retag, Hs', bind_Ret in Ha by lia. injection Ha as <- _. simpl. split; [done|lia].
  - destruct IH as (s & Hs & Hv & Hi). apply handler_command in Ha as [o' Ha].
    destruct (stale_command g l n kv s c j Hok Hnum Hs Hv Hj Hli Hc) as [o2 E].
    rewrite E in Ha. injection Ha as <- _. by exists s.
  - destruct IH as (s0 & Hs0 & Hv0 & Hi). unfold applyHandler in Ha. simpl in Ha. rewrite Hci, bind_Ret in Ha.
    destruct b; simpl in Ha; injection Ha as _ <- _; [|by exists s0]. exists s. split; [done|].
    destruct Hs as [Hn Hrun]. destruct (log_ok_run g (take k l)) as (s' & E & _ & Hg & _).
    { eapply log_ok_prefix; [|exact Hok]. apply prefix_take. }
    assert (s' = s) as -> by congruence. destruct Hs0 as [_ Hrun0].
    destruct (log_ok_run g (take n l)) as (s0' & E0 & _ & Hg0 & _).
    { eapply log_ok_prefix; [|exact Hok]. apply prefix_take. }
    assert (s0' = s0) as -> by congruence. assert (gid kv = g) as Hgk by (unfold skv_view in Hv0; congruence).
    destruct (read_persisted kv s) as [Hv _]; [congruence|]. split; [exact Hv|simpl; lia].
  - destruct IH as (s & Hs & Hv & Hi). exists s. split; [done|]. split; [by rewrite <- Hv|done].
Qed.
End server.

(** ** Theorems *)

(** snapshots are transparent.  However a server of a group was started,
    restarted, overtaken by snapshots and sent commands it already has, its
    map, sessions, configurations and shard states are exactly those of a
    prefix of the group's log. *)
Theorem snapshots_transparent `{Codec (gmap string string * gmap Z Z * list Z * Config * Config)}
    {K : Controller} {R} `{RS : RaftService R CommandMsg} {R'} `{RS' : RaftService R' CommandMsg}
    (atomic : bool) (W : world) (g : Z) (n : nat) (rf : R') (kv : ShardKV)
    (HW : wreach (H := RS) atomic W) (Hrun : server_run (H0 := RS') g (log W g) n rf kv) :
  ∃ s, replica W g s ∧ run_log (start g) 1 (take n (log W g)) = Ret s ∧ skv_view kv = skv_view s.
Proof.
  pose proof (wreach_inv _ W HW) as Hinv. pose proof (wreach_ninv _ W HW) as Hn.
  destruct (server_run_state g (log W g) n rf kv) as (s & [Hle Hs] & Hv & _);
    [apply (wi_logs _ Hinv)|apply (ni_logs _ Hn)|done|].
  exists s. split; [|done]. exists (take n (log W g)). split; [apply prefix_take|done].
Qed.

(** A peer that accepts snapshots. *)
Definition installing_service : RaftService unit CommandMsg.
Proof.
  refine {| rs_wf := λ _, True; rs_command := λ _ _, None; rs_GetState := λ _, (0, false);
            rs_Start := λ r _, Ret (r, (-1, -1, false));
            rs_CondInstallSnapshot := λ r _ _ _, Ret (r, true); rs_Snapshot := λ r _ _, Ret r;
            rs_GetStateSize := λ _, 0; rs_GetSnapshot := λ _, [] |}.
  - intros r c _. by eexists _, _, _, _.
  - done.
Defined.

#[export] Instance Config_countable : Countable Config.
Proof.
  refine (inj_countable' (λ c, (Num c, Shards c, Groups c)) (λ '(n, s, g), mkConfig n s g) _).
  by intros [].
Defined.

(** A server that installs the snapshot of [n] entries, and is then sent one of
    them late. *)
Definition installed `{Codec (gmap string string * gmap Z Z * list Z * Config * Config)}
    (g : Z) (n : nat) (s : ShardKV) : ShardKV :=
  set_lastIncludedIndex (Z.of_nat n) (readServerPersistData (newServer (-1) g) (getServerPersistData s)).

Lemma installed_run `{Codec (gmap string string * gmap Z Z * list Z * Config * Config)} g l n s j c :
  log_ok g l → log_numbered g l → state_at g l n s → 1 ≤ j ≤ Z.of_nat n → l !! Z.to_nat (j - 1) = Some c →
  server_run (H0 := installing_service) g l n tt (installed g n s).
Proof.
  intros Hok Hnum Hs Hj Hc.
  assert (server_run (H0 := installing_service) g l n tt (installed g n s)) as Hrun.
  { apply (sr_snapshot (H0 := installing_service) g l 0 tt (newServer (-1) g) n s 0 tt true tt _ None);
      [apply sr_new|done|lia|done|done]. }
  destruct (server_run_state (H0 := installing_service) g l n tt _ Hok Hnum Hrun) as (s' & Hs' & Hv & _).
  destruct (stale_command g l n (installed g n s) s' c j) as [o Ho]; [done..|simpl; lia|done|].
  assert (∃ o', applyHandler (H0 := installing_service) tt (installed g n s) (command_msg (Some c) j) =
            Ret (tt, installed g n s, o')) as [o' Ha].
  { unfold applyHandler. cbn [SnapshotValid command_msg Command CommandIndex]. rewrite Ho, bind_Ret.
    destruct o; [|by eexists]. set (t0 := installed g n s). clearbody t0.
    destruct (negb _ && _); by eexists. }
  apply (sr_late (H0 := installing_service) g l n tt (installed g n s) j c tt (installed g n s) o');
    [exact Hrun|done|simpl; lia|exact Hc|exact Ha].
Qed.

(** The last entry of group 200's log, the transfer of the shard, arrives late. *)
Lemma snapshots_transparent_witness :
  ∃ kv s, server_run (H0 := installing_service) 200 (log run_moved 200) 3 tt kv ∧ lastIncludedIndex kv = 3 ∧
    skv_view kv = skv_view s.
Proof.
  pose proof (wreach_inv _ _ (run_moved_reach true)) as Hinv.
  pose proof (wreach_ninv _ _ (run_moved_reach true)) as Hn.
  assert (state_at 200 (log run_moved 200) 3 (state_of run_moved 200)) as Hs.
  { split; [vm_compute; lia|vm_compute; reflexivity]. }
  assert (is_Some (log run_moved 200 !! Z.to_nat (3 - 1))) as [c Hc].
  { apply lookup_lt_is_Some_2. vm_compute. lia. }
  pose proof (installed_run 200 _ 3 _ 3 c (wi_logs _ Hinv 200) (ni_logs _ Hn 200) Hs ltac:(lia) Hc) as Hrun.
  destruct (snapshots_transparent (K := sample_controller) (RS := leader_service) (RS' := installing_service)
              true run_moved 200 3 tt _ (run_moved_reach true) Hrun) as (s & _ & _ & Hv).
  eexists _, s. split; [exact Hrun|]. split; [reflexivity|exact Hv].
Defined.
