(* ===== verification/ShardGroup.v ===== *)
(** * The sharded key/value store on its Raft groups

    The servers of shardkv/server.go on the peers of raft/raft.go, for all groups
    at once.  [shard_replica] shows that a server of a group is a replicated
    service in the sense of [Rsm], although it executes the commands that move
    shards again after an installed snapshot.  A [sworld] has the peers and servers
    of every group, their loops and the messages between groups; it simulates
    the worlds of [ShardSystem], in which each group has one log. *)

From S2P Require Import Prelude Persister Chan RaftApi Raft RaftLog RaftAppend RaftSteps RaftSpec RaftOps RaftElection RaftHistory RaftRep RaftGroup RaftGroupSteps RaftSafety Rsm RaftInstance.
From S2P Require Import ShardConfig Rebalance ShardCtrler ShardCtrlerSpec ShardKV ShardKVSpec ShardSystem ShardHistory ShardReplica.
Import ShardKV.

Notation skv_state := (gmap string string * gmap Z Z * list Z * Config * Config)%type.

(** ** The server as a replica *)

(** The server of [ShardSystem] with the replicated state of another. *)
Definition canon (kv : ShardKV) : ShardKV := retag (-1) empty_waitroom 0 kv.

Lemma canon_retag kv : kv = retag (maxraftstate kv) (waitChan kv) (lastIncludedIndex kv) (canon kv).
Proof. by destruct kv. Qed.

Lemma apply_command_index kv i j c :
  lastIncludedIndex kv < i → lastIncludedIndex kv < j → apply_command kv i c = apply_command kv j c.
Proof.
  intros Hi Hj. unfold apply_command, apply_op, apply_config.
  rewrite !(proj2 (Z.leb_gt i _)), !(proj2 (Z.leb_gt j _)) by lia. done.
Qed.

(** A command on the replicated state. *)
Definition shard_exec (w : ShardKV) (c : option CommandMsg) : ShardKV :=
  match c with
  | Some m => match apply_command w 1 m with Ret (w', _) => w' | _ => w end
  | None => w
  end.

(** Commands keep a canonical server canonical, and act on another through it. *)
Lemma apply_command_canon kv i c kv' o :
  1 ≤ i → lastIncludedIndex kv < i → apply_command kv i c = Ret (kv', o) →
  ∃ w', apply_command (canon kv) 1 c = Ret (w', o) ∧ canon w' = w' ∧
    kv' = retag (maxraftstate kv) (waitChan kv) (lastIncludedIndex kv) w'.
Proof.
  intros Hi Hlt Ha. rewrite (canon_retag kv), apply_command_retag in Ha by (simpl; lia).
  apply bind_inv in Ha as ([w' o'] & Ha & [= <- <-]). exists w'.
  rewrite (apply_command_index (canon kv) 1 i) by (simpl; lia). split; [done|]. split; [|done].
  assert (apply_command (canon kv) i c = ('(k, o) ← apply_command (canon kv) i c; mret (canon k, o))) as Hc.
  { change (canon kv) with (retag (-1) empty_waitroom 0 (canon kv)) at 1.
    rewrite apply_command_retag by (simpl; lia). done. }
  rewrite Ha in Hc. by injection Hc as <-.
Qed.

Lemma updateShardsState_gid kv kv' : updateShardsState kv = Ret kv' → gid kv' = gid kv.
Proof.
  unfold updateShardsState. generalize (seqZ 0 NShards) as js. intros js.
  assert (∀ k0, foldl (λ acc i, kv ← acc; o ← newShardState kv i;
      match o with None => mret kv | Some st => l ← set_index (shardsState kv) i st;
        mret (set_shardsState l kv) end) k0 js = Ret kv' → ∃ k1, k0 = Ret k1 ∧ gid kv' = gid k1) as Hf.
  { induction js as [|j js IH]; intros k0; cbn [foldl]; [intros ->; eauto|]. intros (k1 & E & Hg)%IH.
    apply bind_inv in E as (k2 & -> & E). exists k2. split; [done|]. rewrite Hg.
    apply bind_inv in E as (o & _ & E). destruct o as [st|]; [|by injection E as <-].
    apply bind_inv in E as (l & _ & E). by injection E as <-. }
  intros (k1 & [= <-] & Hg)%Hf. done.
Qed.

Lemma apply_command_gid kv i c kv' o : apply_command kv i c = Ret (kv', o) → gid kv' = gid kv.
Proof.
  unfold apply_command. case_test.
  { unfold apply_op. case_test; [by intros [= <- _]|]. intros Ha. apply bind_inv in Ha as (st & _ & Ha).
    case_test_in Ha; [by injection Ha as <- _|].
    destruct (execute_frame kv (match Data c with DOp op => op | _ => zeroOp end)) as (Hg & _).
    destruct (execute kv _) as [kv1 op1]. by injection Ha as <- _. }
  case_test.
  { destruct (Data c) as [| |cfg| |]; try done. unfold apply_config. case_test; [by intros [= <- _]|].
    case_test; [|by intros [= <- _]]. intros Ha. apply bind_inv in Ha as (kv1 & Hu & [= <- _]).
    by apply updateShardsState_gid in Hu. }
  case_test.
  { destruct (Data c) as [| | |msg|]; try done. unfold apply_shard_request. case_test; [by intros [= <- _]|].
    intros Ha. apply bind_inv in Ha as (st & _ & Ha). apply bind_inv in Ha as (kv1 & Hm & [= <- _]).
    case_test_in Hm; [|by injection Hm as <-]. apply bind_inv in Hm as (kv2 & Hm & [= <-]).
    unfold mergeShardData in Hm. apply bind_inv in Hm as (l & _ & [= <-]). done. }
  case_test.
  { destruct (Data c) as [| | | |msg]; try done. unfold apply_shard_confirm. case_test; [by intros [= <- _]|].
    intros Ha. apply bind_inv in Ha as (st & _ & Ha). apply bind_inv in Ha as (kv1 & Hm & [= <- _]).
    case_test_in Hm; [|by injection Hm as <-]. apply bind_inv in Hm as (l & _ & [= <-]). done. }
  case_test; by intros [= <- _].
Qed.

(** A log executed. *)
Lemma run_log_exec g l kv :
  run_log (start g) 1 l = Ret kv → foldl shard_exec (start g) (Some <$> l) = kv ∧ canon kv = kv.
Proof.
  revert kv. induction l as [|c l IH] using rev_ind; intros kv; [by intros [= <-]|].
  rewrite run_log_snoc. intros (k0 & Hk & Ha)%bind_inv. apply bind_inv in Ha as ([k1 o] & Ha & [= ->]).
  destruct (IH k0 Hk) as [Hf Hc]. rewrite fmap_app, foldl_app, Hf. simpl. rewrite <- Hc in Ha.
  destruct (apply_command_canon (canon k0) (1 + zlen l) c kv o) as (w' & Ha' & Hc' & ->);
    [pose proof (zlen_nonneg l); simpl; lia..|done|].
  rewrite <- Hc. change (canon k0) with (canon (canon k0)). rewrite Ha'. split; [|done].
  rewrite <- Hc'. done.
Qed.

Section replica.
Context `{HK : Codec skv_state} `{HC : Codec (Z * Z * list (Raft.LogEntry CommandMsg) * Z * Z)}.
Context (g : Z).

(** One pass of the applier.  The send on the wait channel that follows it only
    concerns the requests. *)
Definition shard_handler (rf : Raft.Raft CommandMsg) (kv : ShardKV) (m : ApplyMsg CommandMsg)
  : Go (Raft.Raft CommandMsg * ShardKV) :=
  '(rf', kv', _) ← applyHandler rf kv m; mret (rf', kv').

Definition shard_read (data : bytes) : option ShardKV :=
  if zlen data <? 1 then None
  else '(st, seq, states, cur, prev) ← gob_decode data;
       Some (mkShardKV (-1) g st empty_waitroom seq 0 cur prev states).

Definition shard_made (data : bytes) (kv : ShardKV) : Prop :=
  ∃ ps npeers id maxraftstate now, ReadSnapshot ps = data ∧
    kv = (StartServer npeers id ps maxraftstate g now).2.

Definition shard_log_ok (p : list (option CommandMsg)) : Prop :=
  ∃ l, p = Some <$> l ∧ log_ok g l ∧ log_numbered g l.

Lemma shard_read_view kv data w :
  gid kv = g → shard_read data = Some w → canon (readServerPersistData kv data) = w.
Proof.
  unfold shard_read, readServerPersistData. intros Hg. case_test; [done|].
  destruct (gob_decode data) as [[[[[st seq] states] cur] prev]|]; simpl; [|done].
  intros [= <-]. unfold canon, retag. simpl. by rewrite Hg.
Qed.

Lemma shard_read_written kv : gid kv = g → shard_read (getServerPersistData kv) = Some (canon kv).
Proof.
  intros Hg. unfold shard_read, getServerPersistData. rewrite gob_decode_encode. case_test.
  { destruct (gob_encode _) eqn:E; [by apply gob_encode_nonempty in E|zlen_lia]. }
  simpl. unfold canon, retag. by rewrite Hg.
Qed.

(** What the applier's command branch does with the peer. *)
Lemma shard_handler_command rf kv c i rf' kv' :
  shard_handler rf kv (command_msg (Some c) i) = Ret (rf', kv') →
  ∃ o, apply_command kv i c = Ret (kv', o) ∧
    (rf' = rf ∨ Raft.Snapshot rf i (getServerPersistData kv') = Ret rf').
Proof.
  unfold shard_handler, applyHandler. simpl. intros Hr. inv_bind Hr. destruct x as [[rf1 kv1] o1].
  injection Hr as <- <-. inv_bind Hb. destruct x as [kv2 o]. exists o.
  destruct o as [msg|]; [|injection Hb as <- <- _; by eauto].
  inv_bind Hb. injection Hb as <- <- _. split; [done|].
  case_test_in Hb1; [by right|left; by injection Hb1].
Qed.

Lemma shard_replica_command rf kv c i rf' kv' :
  gid kv = g → 1 ≤ i → lastIncludedIndex kv < i → shard_handler rf kv (command_msg c i) = Ret (rf', kv') →
  gid kv' = g ∧ lastIncludedIndex kv' = lastIncludedIndex kv ∧ canon kv' = shard_exec (canon kv) c ∧
  (rf' = rf ∨ ∃ data, Raft.Snapshot rf i data = Ret rf' ∧ shard_read data = Some (canon kv')).
Proof.
  intros Hg Hi Hlt Hr. destruct c as [c|]; [|done].
  destruct (shard_handler_command _ _ _ _ _ _ Hr) as (o & Ha & Hrf).
  pose proof (apply_command_gid _ _ _ _ _ Ha) as Hg'. rewrite Hg in Hg'.
  destruct (apply_command_canon kv i c kv' o Hi Hlt Ha) as (w' & Hw & Hc & Hkv').
  split; [done|]. split; [by rewrite Hkv'|]. split.
  - simpl. rewrite Hw, Hkv'. exact Hc.
  - destruct Hrf as [->|Hs]; [by left|right]. eexists. split; [exact Hs|]. by apply shard_read_written.
Qed.

Lemma shard_replica_stale rf kv c i rf' kv' p :
  gid kv = g → shard_log_ok p → canon kv = foldl shard_exec (start g) p → 1 ≤ i ≤ zlen p →
  i ≤ lastIncludedIndex kv → p !! Z.to_nat (i - 1) = Some c →
  shard_handler rf kv (command_msg c i) = Ret (rf', kv') →
  gid kv' = g ∧ lastIncludedIndex kv' = lastIncludedIndex kv ∧ canon kv' = canon kv ∧
  (rf' = rf ∨ ∃ data, Raft.Snapshot rf i data = Ret rf').
Proof.
  intros Hg (l & -> & Hok & Hnum) Hv Hi Hli Hc Hr. unfold zlen in Hi. rewrite length_fmap in Hi.
  rewrite list_lookup_fmap in Hc. destruct (l !! Z.to_nat (i - 1)) as [m|] eqn:Hm; [|done]. injection Hc as <-.
  destruct (shard_handler_command _ _ _ _ _ _ Hr) as (o & Ha & Hrf).
  destruct (log_ok_run g l Hok) as (s & Hs & _). destruct (run_log_exec g l s Hs) as [Hf Hcs].
  destruct (stale_command g l (length l) kv s m i Hok Hnum) as [o' E]; try done; [|..].
  - split; [done|]. by rewrite take_ge.
  - change (skv_view kv) with (skv_view (canon kv)). by rewrite Hv, Hf.
  - rewrite Ha in E. injection E as -> _. split_and!; try done. destruct Hrf; eauto.
Qed.

Lemma shard_replica_snapshot rf kv data t i rf' kv' :
  gid kv = g → shard_handler rf kv (snapshot_msg data t i) = Ret (rf', kv') →
  gid kv' = g ∧ ((rf' = rf ∧ kv' = kv) ∨ ∃ b, Raft.CondInstallSnapshot rf t i data = Ret (rf', b) ∧
    if b : bool then lastIncludedIndex kv' = i ∧ ∀ w, shard_read data = Some w → canon kv' = w
    else kv' = kv).
Proof.
  intros Hg. unfold shard_handler, applyHandler. simpl. intros Hr. inv_bind Hr. destruct x as [[rf1 kv1] o1].
  injection Hr as <- <-. inv_bind Hb. destruct x as [rf2 b].
  assert (gid (readServerPersistData kv data) = g) as Hg'.
  { unfold readServerPersistData. case_test; [done|]. by destruct (gob_decode data) as [[[[[? ?] ?] ?] ?]|]. }
  destruct b; simpl in Hb; injection Hb as <- <- _.
  - split; [done|]. right. exists true. split; [done|]. split; [done|]. intros w Hw. by apply (shard_read_view kv data w).
  - split; [done|]. right. by exists false.
Qed.

Lemma shard_replica_made data kv :
  shard_made data kv → gid kv = g ∧ lastIncludedIndex kv = 0 ∧ canon kv = default (start g) (shard_read data).
Proof.
  intros (ps & np & id & m & now & <- & ->). unfold StartServer, Raft.GetSnapshot. simpl.
  destruct (Make_static (C:=CommandMsg) np id ps now) as (_ & _ & _ & _ & ->).
  unfold shard_read, readServerPersistData.
  destruct (Z.ltb_spec 0 (zlen (ReadSnapshot ps))), (Z.ltb_spec (zlen (ReadSnapshot ps)) 1); try lia; [|done].
  by destruct (gob_decode (ReadSnapshot ps)) as [[[[[? ?] ?] ?] ?]|].
Qed.

Definition shard_replica : Replica CommandMsg ShardKV ShardKV := {|
  rp_handler := shard_handler;
  rp_ok := λ kv, gid kv = g;
  rp_view := canon;
  rp_skip := lastIncludedIndex;
  rp_init := start g;
  rp_exec := shard_exec;
  rp_log_ok := shard_log_ok;
  rp_read := shard_read;
  rp_made := shard_made;
  rp_command := shard_replica_command;
  rp_stale := shard_replica_stale;
  rp_snapshot := shard_replica_snapshot;
  rp_made_view := shard_replica_made;
  rp_read_nil := eq_refl
|}.
End replica.

(** ** All groups *)
Notation srworld := (rworld (C:=CommandMsg) (S:=ShardKV)).

(** The peers and servers of every group; what the loops and handlers read of a
    server of a group under its lock, to go on without it; the commands they
    decided to propose to their peer; and the messages between groups, as in
    [ShardSystem.world]. *)
Record sworld := mkSWorld {
  s_groups : gmap Z srworld;
  s_reads : list (Z * ShardKV);
  s_props : list (Z * CommandMsg);
  s_asks : list (Z * ShardRequestArgs);
  s_answers : list (ShardRequestArgs * ShardRequestReply);
  s_casks : list (Z * Z * ShardConfirmArgs);
  s_canswers : list (Z * ShardConfirmArgs * ShardConfirmReply)
}.

Definition with_group (g : Z) (R : srworld) (s : sworld) : sworld :=
  mkSWorld (<[g := R]> (s_groups s)) (s_reads s) (s_props s) (s_asks s) (s_answers s) (s_casks s) (s_canswers s).
Definition add_read (x : Z * ShardKV) (s : sworld) : sworld :=
  mkSWorld (s_groups s) (x :: s_reads s) (s_props s) (s_asks s) (s_answers s) (s_casks s) (s_canswers s).
Definition add_prop (x : Z * CommandMsg) (s : sworld) : sworld :=
  mkSWorld (s_groups s) (s_reads s) (x :: s_props s) (s_asks s) (s_answers s) (s_casks s) (s_canswers s).
Definition add_ask (x : Z * ShardRequestArgs) (s : sworld) : sworld :=
  mkSWorld (s_groups s) (s_reads s) (s_props s) (x :: s_asks s) (s_answers s) (s_casks s) (s_canswers s).
Definition add_answer (x : ShardRequestArgs * ShardRequestReply) (s : sworld) : sworld :=
  mkSWorld (s_groups s) (s_reads s) (s_props s) (s_asks s) (x :: s_answers s) (s_casks s) (s_canswers s).
Definition add_cask (x : Z * Z * ShardConfirmArgs) (s : sworld) : sworld :=
  mkSWorld (s_groups s) (s_reads s) (s_props s) (s_asks s) (s_answers s) (x :: s_casks s) (s_canswers s).
Definition add_canswer (x : Z * ShardConfirmArgs * ShardConfirmReply) (s : sworld) : sworld :=
  mkSWorld (s_groups s) (s_reads s) (s_props s) (s_asks s) (s_answers s) (s_casks s) (x :: s_canswers s).

Section world.
Context `{HK : Codec skv_state} `{HC : Codec (Z * Z * list (Raft.LogEntry CommandMsg) * Z * Z)}.
Context {K : Controller} (atomic : bool) (n : Z).
Implicit Types (s : sworld) (R : srworld).

Inductive sstep : sworld → sworld → Prop :=
| ss_system s g R R' :                       (* the peers and the appliers of a group *)
    s_groups s !! g = Some R → rstep (Replica0:=shard_replica g) n R R' → sstep s (with_group g R' s)
| ss_crash s g R i rf m now rf' kv' :        (* a machine restarts from its storage *)
    s_groups s !! g = Some R → g_peer (r_group R) !! i = Some rf →
    StartServer n i (Raft.persister rf) m g now = (rf', kv') →
    sstep s (with_group g (mkRWorld (set_peer (r_group R) i rf') (<[i := kv']> (r_server R))
      (delete i (r_batch R))) s)
| ss_serve s g R i kv w :                    (* requests change the wait channels *)
    s_groups s !! g = Some R → r_server R !! i = Some kv → gid kv = g →
    sstep s (with_group g (mkRWorld (r_group R) (<[i := set_waitChan w kv]> (r_server R)) (r_batch R)) s)
| ss_read s g R i rf kv :                    (* a loop or a handler takes the lock *)
    s_groups s !! g = Some R → g_peer (r_group R) !! i = Some rf → r_server R !! i = Some kv →
    sstep s (add_read (g, kv) s)
| ss_start s g R i rf c rf' r :              (* a proposal reaches a peer *)
    s_groups s !! g = Some R → g_peer (r_group R) !! i = Some rf → (g, c) ∈ s_props s →
    Raft.Start rf c = Ret (rf', r) →
    sstep s (with_group g (mkRWorld (set_peer (r_group R) i rf') (r_server R) (r_batch R)) s)
| ss_client s g op :                         (* Get, PutAppend *)
    sstep s (add_prop (g, mkCommandMsg KVOperation (DOp op)) s)
| ss_noop s g :                              (* RaftLogChecker *)
    sstep s (add_prop (g, mkCommandMsg NoOperation DNil) s)
| ss_config s g kv latest k cfg :            (* getLastConfig *)
    (g, kv) ∈ s_reads s → getLastConfig_target kv latest = Some k → cfg_at k = Some cfg →
    sstep s (add_prop (g, getLastConfig_msg cfg) s)
| ss_ask s g kv kv' calls t srv args :       (* ShardsRequester *)
    (g, kv) ∈ s_reads s → (g, kv') ∈ s_reads s →
    ShardsRequester kv (Num (config kv')) = Ret calls → (t, srv, args) ∈ calls →
    sstep s (add_ask (t, args) s)
| ss_answer s t args kv rf reply :           (* ShardsRequestHandler *)
    (t, args) ∈ s_asks s → (t, kv) ∈ s_reads s →
    ShardsRequestHandler (rf : Raft.Raft CommandMsg) kv args = Ret reply →
    sstep s (add_answer (args, reply) s)
| ss_take s args reply kv c :                (* ShardsRequester, on the reply *)
    (args, reply) ∈ s_answers s → (sra_GID args, kv) ∈ s_reads s →
    ShardsRequester_reply kv (sra_ShardIndex args) args (Some reply) = RqStart c →
    sstep s (add_prop (sra_GID args, c) s)
| ss_cask s g kv kv' calls t srv args :      (* ShardsConfirm *)
    (g, kv) ∈ s_reads s → (g, kv') ∈ s_reads s → (atomic = true → Num (config kv') = Num (config kv)) →
    ShardsConfirm kv (Num (config kv')) = Ret calls → (t, srv, args) ∈ calls →
    sstep s (add_cask (g, t, args) s)
| ss_canswer s g t args kv rf reply :        (* ShardsConfirmHandler *)
    (g, t, args) ∈ s_casks s → (t, kv) ∈ s_reads s →
    ShardsConfirmHandler (rf : Raft.Raft CommandMsg) kv args = Ret reply →
    sstep s (add_canswer (g, args, reply) s)
| ss_ctake s g args reply kv c :             (* ShardsConfirm, on the reply *)
    (g, args, reply) ∈ s_canswers s → (g, kv) ∈ s_reads s →
    ShardsConfirm_reply kv args (Some reply) = Some c →
    sstep s (add_prop (g, c) s).

Definition sworld_init s : Prop :=
  (∀ g R, s_groups s !! g = Some R → rworld_init (Replica0:=shard_replica g) n R) ∧
  s_reads s = [] ∧ s_props s = [] ∧ s_asks s = [] ∧ s_answers s = [] ∧ s_casks s = [] ∧ s_canswers s = [].

Definition sreach s : Prop := ∃ s0, sworld_init s0 ∧ rtc sstep s0 s.

(** ** The simulation *)
Context (Hn : 0 ≤ n).
Implicit Types (W : world).
Notation hist := (RaftHistory.hist (C:=CommandMsg)).
Notation sreachable := (wreach (H:=raft_service) atomic).

Definition from_props (g : Z) (props : list (Z * CommandMsg)) (c : option CommandMsg) : Prop :=
  ∃ m, c = Some m ∧ (g, m) ∈ props.

(** The log of a group in [W] is one its peers may have committed. *)
Record group_sim g R W (H : hist) V (l : list (Raft.LogEntry CommandMsg)) : Prop := {
  gs_rsm : rinv (Replica0:=shard_replica g) n R H V;
  gs_safe : ∃ T, safe_log n H T l;
  gs_log : Raft.le_Command <$> l = Some <$> log W g;
  gs_commands : commands_in (from_props g (w_props W)) H
}.

Record sim s W : Prop := {
  sm_reach : sreachable W;
  sm_group : ∀ g R, s_groups s !! g = Some R → ∃ H V l, group_sim g R W H V l;
  sm_reads : ∀ g kv, (g, kv) ∈ s_reads s → replica W g (canon kv);
  sm_props : w_props W = s_props s;
  sm_asks : w_asks W = s_asks s;
  sm_answers : w_answers W = s_answers s;
  sm_casks : w_casks W = s_casks s;
  sm_canswers : w_canswers W = s_canswers s
}.

(** ** Commits *)

(** [W'] is [W] after group [g] committed more. *)
Record commits g W W' : Prop := {
  cm_reach : sreachable W';
  cm_props : w_props W' = w_props W;
  cm_asks : w_asks W' = w_asks W;
  cm_answers : w_answers W' = w_answers W;
  cm_casks : w_casks W' = w_casks W;
  cm_canswers : w_canswers W' = w_canswers W;
  cm_other : ∀ h, h ≠ g → log W' h = log W h;
  cm_log : log W g `prefix_of` log W' g
}.

Lemma commits_refl g W : sreachable W → commits g W W.
Proof using Type. by split. Qed.

Lemma commits_replica g W W' h kv : commits g W W' → replica W h kv → replica W' h kv.
Proof using Type.
  intros Hc (l & Hp & Hrun). exists l. split; [|done]. destruct (decide (h = g)) as [->|Hne].
  - etrans; [exact Hp|apply Hc].
  - by rewrite (cm_other _ _ _ Hc) by done.
Qed.

Lemma group_extend g R W H V l l' T :
  sreachable W → group_sim g R W H V l → safe_log n H T l' → l `prefix_of` l' →
  ∃ W', commits g W W' ∧ group_sim g R W' H V l'.
Proof using Type.
  intros HW Hsim Hs [r ->]. revert Hs. induction r as [|e r IH] using rev_ind; intros Hs.
  { exists W. rewrite app_nil_r. split; [by apply commits_refl|done]. }
  rewrite app_assoc in *. destruct IH as (W1 & Hc1 & Hs1).
  { eapply safe_prefix; [|exact Hs]. by eexists. }
  destruct (safe_commands n H T _ _ Hs (gs_commands _ _ _ _ _ _ Hs1) e) as (m & He & Hm);
    [apply elem_of_app; right; by left|].
  exists (commit W1 g m). destruct Hc1 as [? ? ? ? ? ? Hother Hlog], Hs1 as [? ? Hlog1 ?]. split.
  - split; simpl; try done.
    + eapply wr_step; [done|]. by apply ws_commit.
    + intros h Hne. rewrite commit_log, bool_decide_eq_false_2 by done. auto.
    + rewrite commit_log, bool_decide_eq_true_2 by done. by apply prefix_app_r.
  - split; simpl; try done; [by exists T|].
    rewrite commit_log, bool_decide_eq_true_2 by done. rewrite fmap_app, Hlog1, fmap_app. simpl. by rewrite He.
Qed.

(** Group [g] may have committed any log its peers can commit. *)
Lemma group_at g R W H V l p T :
  sreachable W → group_sim g R W H V l → safe_log n H T p →
  ∃ W' l', commits g W W' ∧ group_sim g R W' H V l' ∧ p `prefix_of` l'.
Proof using Hn.
  intros HW Hsim Hp. destruct (gs_safe _ _ _ _ _ _ Hsim) as [T0 Hl].
  pose proof (gi_hist _ _ _ _ (ri_group _ _ _ _ (gs_rsm _ _ _ _ _ _ Hsim))) as Ho.
  destruct (safe_comparable n Hn _ H _ _ _ _ Ho Hp Hl) as [Hpl|Hlp].
  - exists W, l. split; [by apply commits_refl|done].
  - destruct (group_extend g R W H V l p T HW Hsim Hp Hlp) as (W' & ? & ?). by exists W', p.
Qed.

(** A prefix of a log of entries is one of the log of commands. *)
Lemma prefix_commands (p l : list (Raft.LogEntry CommandMsg)) (cs : list CommandMsg) :
  p `prefix_of` l → Raft.le_Command <$> l = Some <$> cs →
  ∃ q, q `prefix_of` cs ∧ Raft.le_Command <$> p = Some <$> q ∧ length q = length p.
Proof using Type.
  intros [r ->] Hl. exists (take (length p) cs). split; [apply prefix_take|].
  assert (length cs = length (p ++ r)) as Hlen.
  { rewrite <- (length_fmap Some cs), <- Hl. apply length_fmap. }
  rewrite length_app in Hlen. split; [|rewrite length_take; lia].
  rewrite fmap_take, <- Hl, <- fmap_take. by rewrite take_app_length.
Qed.

Lemma log_numbered_prefix g l l' : l' `prefix_of` l → log_numbered g l → log_numbered g l'.
Proof using Type. intros [k ->] Ho l1 c l2 ->. apply (Ho l1 c (l2 ++ k)). by rewrite <- app_assoc. Qed.

Lemma group_logs_ok g R W H V l :
  sreachable W → group_sim g R W H V l → logs_ok (Replica0:=shard_replica g) n H.
Proof using Hn.
  intros HW Hsim p T Hp. destruct (group_at g R W H V l p T HW Hsim Hp) as (W' & l' & Hc & Hsim' & Hpl).
  destruct (prefix_commands p l' _ Hpl (gs_log _ _ _ _ _ _ Hsim')) as (q & Hq & Hpq & _).
  exists q. split; [done|]. pose proof (cm_reach _ _ _ Hc) as HW'. split.
  - eapply log_ok_prefix; [exact Hq|]. apply (wi_logs _ (wreach_inv _ _ HW')).
  - eapply log_numbered_prefix; [exact Hq|]. apply (ni_logs _ (wreach_ninv _ _ HW')).
Qed.

(** The state of a server is that of a replica. *)
Lemma server_replica g R W H V l k kv :
  sreachable W → group_sim g R W H V l → at_index (Replica0:=shard_replica g) n H k (canon kv) →
  ∃ W' l', commits g W W' ∧ group_sim g R W' H V l' ∧ replica W' g (canon kv).
Proof using Hn.
  intros HW Hsim (p & T & Hp & _ & Hv).
  destruct (group_at g R W H V l p T HW Hsim Hp) as (W' & l' & Hc & Hsim' & Hpl).
  exists W', l'. split; [done|]. split; [done|].
  destruct (prefix_commands p l' _ Hpl (gs_log _ _ _ _ _ _ Hsim')) as (q & Hq & Hpq & _).
  destruct (log_ok_run g q) as (x & Hx & _).
  { eapply log_ok_prefix; [exact Hq|]. apply (wi_logs _ (wreach_inv _ _ (cm_reach _ _ _ Hc))). }
  exists q. split; [done|]. destruct (run_log_exec g q x Hx) as [Hf _]. rewrite Hx. f_equal.
  rewrite Hv. unfold rsm_run. by rewrite Hpq.
Qed.

(** ** Every step is simulated *)

(** One group changed. *)
Lemma sim_group s W g R' H V l :
  sim s W → group_sim g R' W H V l → sim (with_group g R' s) W.
Proof using Type.
  intros [Hr Hg Hrd Hp Ha Han Hc Hcn] Hs. split; simpl; try done.
  intros h R [[<- <-]|[_ Hh]]%lookup_insert_Some; [by exists H, V, l|by apply Hg].
Qed.

(** The abstract world caught up with a group. *)
Lemma sim_commits s W W' g R H V l :
  sim s W → s_groups s !! g = Some R → commits g W W' → group_sim g R W' H V l → sim s W'.
Proof using Type.
  intros [Hr Hg Hrd Hp Ha Han Hc Hcn] HR Hcm Hs.
  pose proof (λ h kv, commits_replica g W W' h kv Hcm) as Hrep. destruct Hcm as [? Ep ? ? ? ? Hother _].
  split; try congruence; try done.
  - intros h Rh Hh. destruct (decide (h = g)) as [->|Hne].
    + assert (Rh = R) as -> by congruence. by exists H, V, l.
    + destruct (Hg h Rh Hh) as (Hx & Vx & lx & [? ? ? ?]). exists Hx, Vx, lx.
      split; [done|done|by rewrite Hother|by rewrite Ep].
  - intros h kv Hin. by apply Hrep, Hrd.
Qed.

(** A message or a proposal. *)
Lemma sim_message s s' W W' :
  sim s W → wstep (H:=raft_service) atomic W W' → (∀ g, log W' g = log W g) →
  (∀ x, x ∈ w_props W → x ∈ w_props W') → s_groups s' = s_groups s → s_reads s' = s_reads s →
  w_props W' = s_props s' → w_asks W' = s_asks s' → w_answers W' = s_answers s' →
  w_casks W' = s_casks s' → w_canswers W' = s_canswers s' → sim s' W'.
Proof using Type.
  intros [Hr Hg Hrd Hp Ha Han Hc Hcn] Hstep Hlog Hprops EG ER EP EA EAN EC ECN. split; try done.
  - by eapply wr_step.
  - rewrite EG. intros g R HR. destruct (Hg g R HR) as (H & V & l & [? ? ? Hcmd]). exists H, V, l.
    split; [done|done|by rewrite Hlog|]. intros T L e HL He. destruct (Hcmd T L e HL He) as (m & ? & ?).
    exists m. auto.
  - rewrite ER. intros g kv Hin. destruct (Hrd g kv Hin) as (l & ? & ?). exists l. by rewrite Hlog.
Qed.

Lemma sim_system s W g R R' :
  sim s W → s_groups s !! g = Some R → rstep (Replica0:=shard_replica g) n R R' → sim (with_group g R' s) W.
Proof using Hn.
  intros Hsim HR Hstep. destruct (sm_group _ _ Hsim g R HR) as (H & V & l & Hs).
  pose proof (group_logs_ok g R W H V l (sm_reach _ _ Hsim) Hs) as Hok.
  destruct Hs as [Hr [T Hl] Hlog Hcmd]. destruct (rstep_inv n Hn _ _ _ _ Hr Hok Hstep) as (H' & V' & Hr' & [Hgr Hc]).
  eapply (sim_group s W g R' H' V' l Hsim). split; [done| |done|].
  - exists T. by eapply safe_grows.
  - by apply (Hc (from_props g (w_props W))).
Qed.

Lemma sim_crash s W g R i rf m now rf' kv' :
  sim s W → s_groups s !! g = Some R → g_peer (r_group R) !! i = Some rf →
  StartServer n i (Raft.persister rf) m g now = (rf', kv') →
  sim (with_group g (mkRWorld (set_peer (r_group R) i rf') (<[i := kv']> (r_server R)) (delete i (r_batch R))) s) W.
Proof using Type.
  intros Hsim HR Hi Hs. destruct (sm_group _ _ Hsim g R HR) as (H & V & l & [Hr Hl Hlog Hcmd]).
  assert (shard_made g (ReadSnapshot (Raft.persister rf)) kv') as Hm.
  { exists (Raft.persister rf), n, i, m, now. by rewrite Hs. }
  destruct (rinv_crash (Replica0:=shard_replica g) n _ _ _ _ _ kv' now Hr Hi Hm) as [V' Hr'].
  assert (rf' = Raft.Make n i (Raft.persister rf) now) as -> by (unfold StartServer in Hs; congruence).
  by eapply (sim_group s W g _ H V' l Hsim).
Qed.

Lemma sim_serve s W g R i kv w :
  sim s W → s_groups s !! g = Some R → r_server R !! i = Some kv → gid kv = g →
  sim (with_group g (mkRWorld (r_group R) (<[i := set_waitChan w kv]> (r_server R)) (r_batch R)) s) W.
Proof using Type.
  intros Hsim HR Hi Hg. destruct (sm_group _ _ Hsim g R HR) as (H & V & l & [Hr Hl Hlog Hcmd]).
  eapply (sim_group s W g _ H V l Hsim). split; try done. by eapply rinv_local.
Qed.

Lemma sim_start s W g R i rf c rf' r :
  sim s W → s_groups s !! g = Some R → g_peer (r_group R) !! i = Some rf → (g, c) ∈ s_props s →
  Raft.Start rf c = Ret (rf', r) →
  sim (with_group g (mkRWorld (set_peer (r_group R) i rf') (r_server R) (r_batch R)) s) W.
Proof using Hn.
  intros Hsim HR Hi Hin Hs. destruct (sm_group _ _ Hsim g R HR) as (H & V & l & [Hr [T Hl] Hlog Hcmd]).
  destruct (rinv_start n Hn _ _ _ _ _ _ _ _ Hr Hi Hs) as (H' & V' & Hr' & [Hgr Hc]).
  eapply (sim_group s W g _ H' V' l Hsim). split; [done| |done|].
  - exists T. by eapply safe_grows.
  - apply (Hc (from_props g (w_props W))); [|done]. intros x ->. exists c. by rewrite (sm_props _ _ Hsim).
Qed.

Lemma sim_read s W g R i rf kv :
  sim s W → s_groups s !! g = Some R → g_peer (r_group R) !! i = Some rf → r_server R !! i = Some kv →
  ∃ W', sim (add_read (g, kv) s) W'.
Proof using Hn.
  intros Hsim HR Hi Hkv. destruct (sm_group _ _ Hsim g R HR) as (H & V & l & Hs).
  destruct (ri_server _ _ _ _ (gs_rsm _ _ _ _ _ _ Hs) i rf Hi) as (kv0 & Hkv0 & _ & k & Hat & _).
  assert (kv0 = kv) as -> by congruence.
  destruct (server_replica g R W H V l k kv (sm_reach _ _ Hsim) Hs Hat) as (W' & l' & Hc & Hs' & Hrep).
  exists W'. destruct (sim_commits s W W' g R H V l' Hsim HR Hc Hs') as [? ? Hrd ? ? ? ? ?].
  split; simpl; try done. intros h x [[= -> ->]|Hin]%elem_of_cons; [done|by apply Hrd].
Qed.

Lemma sstep_sim s s' W : sim s W → sstep s s' → ∃ W', sim s' W'.
Proof using Hn.
  intros Hsim Hstep. pose proof Hsim as [Hr Hg Hrd Hp Ha Han Hc Hcn].
  assert (∀ h (x : Z * CommandMsg) W, x ∈ w_props W → x ∈ h :: w_props W) as Hcons by (intros; by right).
  destruct Hstep as [s g R R' HR Hst|s g R i rf m now rf' kv' HR Hi Hs|s g R i kv w HR Hi Hgid|
    s g R i rf kv HR Hi Hkv|s g R i rf c rf' r HR Hi Hin Hs|s g op|s g|s g kv latest k cfg Hin Ht Hcf|
    s g kv kv' calls t srv args Hin Hin' Hcalls Hinc|s t args kv rf reply Hin Hrk Hrun|
    s args reply kv c Hin Hrk Hrun|s g kv kv' calls t srv args Hin Hin' Hat Hcalls Hinc|
    s g t args kv rf reply Hin Hrk Hrun|s g args reply kv c Hin Hrk Hrun].
  - exists W. by eapply sim_system.
  - exists W. by eapply sim_crash.
  - exists W. by eapply sim_serve.
  - by eapply sim_read.
  - exists W. by eapply sim_start.
  - exists (propose W g (mkCommandMsg KVOperation (DOp op))).
    apply (sim_message s _ W _ Hsim); simpl; try congruence; auto. apply ws_client.
  - exists (propose W g (mkCommandMsg NoOperation DNil)).
    apply (sim_message s _ W _ Hsim); simpl; try congruence; auto. apply ws_noop.
  - exists (propose W g (getLastConfig_msg cfg)).
    apply (sim_message s _ W _ Hsim); simpl; try congruence; auto.
    by apply (ws_config atomic W g (canon kv) latest k cfg (Hrd _ _ Hin)).
  - exists (ask W t args). apply (sim_message s _ W _ Hsim); simpl; try congruence; auto.
    by apply (ws_ask atomic W g (canon kv) (canon kv') calls t srv args (Hrd _ _ Hin) (Hrd _ _ Hin')).
  - exists (answer W args reply). apply (sim_message s _ W _ Hsim); simpl; try congruence; auto.
    apply (ws_answer atomic W t args (canon kv) rf reply); [by rewrite Ha|by apply Hrd|done].
  - exists (propose W (sra_GID args) c). apply (sim_message s _ W _ Hsim); simpl; try congruence; auto.
    apply (ws_take atomic W args reply (canon kv) c); [by rewrite Han|by apply Hrd|done].
  - exists (cask W g t args). apply (sim_message s _ W _ Hsim); simpl; try congruence; auto.
    by apply (ws_cask atomic W g (canon kv) (canon kv') calls t srv args (Hrd _ _ Hin) (Hrd _ _ Hin')).
  - exists (canswer W g args reply). apply (sim_message s _ W _ Hsim); simpl; try congruence; auto.
    apply (ws_canswer atomic W g t args (canon kv) rf reply); [by rewrite Hc|by apply Hrd|done].
  - exists (propose W g c). apply (sim_message s _ W _ Hsim); simpl; try congruence; auto.
    apply (ws_ctake atomic W g args reply (canon kv) c); [by rewrite Hcn|by apply Hrd|done].
Qed.

Lemma sreach_sim s : sreach s → ∃ W, sim s W.
Proof using Hn.
  intros (s0 & (Hi & Hrd & Hp & Ha & Han & Hc & Hcn) & Hsteps). apply rtc_nsteps in Hsteps as [m Hsteps].
  assert (∃ W, sim s0 W) as Hsim.
  { exists ShardSystem.world_init. split; try done; [constructor| |].
    - intros g R HR. exists (mkHist ∅ ∅), (λ _, []), []. split; try done.
      + by apply rworld_init_inv, Hi.
      + exists 0. by left.
    - rewrite Hrd. by intros g kv ?%elem_of_nil. }
  clear -Hsim Hsteps Hn. induction Hsteps as [|m s0 s1 s2 Hst _ IH]; [done|].
  apply IH. destruct Hsim as [W Hsim]. by eapply sstep_sim.
Qed.

(** ** Catching up *)

(** The log of a group in [W] covers what its servers have executed. *)
Definition caught_up g R W : Prop :=
  ∃ H V l, group_sim g R W H V l ∧ follows (Replica0:=shard_replica g) R l.

Lemma caught_up_other g h R W W' : commits g W W' → h ≠ g → caught_up h R W → caught_up h R W'.
Proof using Type.
  intros Hc Hne (H & V & l & [? ? ? ?] & Hf). exists H, V, l. split; [|done].
  split; [done|done|by rewrite (cm_other _ _ _ Hc)|by rewrite (cm_props _ _ _ Hc)].
Qed.

Lemma sim_caught_up s W :
  sim s W → ∃ W', sim s W' ∧ ∀ g R, s_groups s !! g = Some R → caught_up g R W'.
Proof using Hn.
  intros Hsim.
  assert (∀ gs : list (Z * srworld), (∀ g R, (g, R) ∈ gs → s_groups s !! g = Some R) →
    ∃ W', sim s W' ∧ ∀ g R, (g, R) ∈ gs → caught_up g R W') as Hall.
  { induction gs as [|[g R] gs IH]; intros Hin.
    { exists W. split; [done|]. by intros g R ?%elem_of_nil. }
    destruct IH as (W1 & Hsim1 & Hcu); [intros; apply Hin; by right|].
    assert (s_groups s !! g = Some R) as HR by (apply Hin; by left).
    destruct (sm_group _ _ Hsim1 g R HR) as (H & V & l & Hs). destruct (gs_safe _ _ _ _ _ _ Hs) as [T Hl].
    destruct (rinv_follows n Hn _ _ _ _ _ (gs_rsm _ _ _ _ _ _ Hs) Hl) as (l' & T' & Hl' & Hp & Hf).
    destruct (group_extend g R W1 H V l l' T' (sm_reach _ _ Hsim1) Hs Hl' Hp) as (W2 & Hc & Hs2).
    exists W2. split; [by eapply (sim_commits s W1 W2 g R)|]. intros h Rh [[= -> ->]|Hh]%elem_of_cons.
    - by exists H, V, l'.
    - destruct (decide (h = g)) as [->|Hne].
      + assert (Rh = R) as -> by (assert (s_groups s !! g = Some Rh) by (apply Hin; by right); congruence).
        by exists H, V, l'.
      + eapply caught_up_other; [done..|by apply Hcu]. }
  destruct (Hall (map_to_list (s_groups s))) as (W' & ? & Hcu); [by intros g R ?%elem_of_map_to_list|].
  exists W'. split; [done|]. intros g R HR. apply Hcu. by apply elem_of_map_to_list.
Qed.

(** The state of a server, as the log of its group in [W] gives it. *)
Lemma caught_up_server g R W :
  caught_up g R W → sreachable W → ∃ L, group_log (r_group R) L ∧ Raft.le_Command <$> L = Some <$> log W g ∧
    ∀ i rf kv, g_peer (r_group R) !! i = Some rf → r_server R !! i = Some kv →
      ∃ k, Raft.lastApplied rf ≤ Z.of_nat k ≤ Raft.commitIndex rf ∧
        run_log (start g) 1 (take k (log W g)) = Ret (canon kv).
Proof using Type.
  intros (H & V & l & Hs & Hlog & Hf) HW. exists l. split; [done|]. split; [apply Hs|].
  intros i rf kv Hi Hkv. destruct (Hf i rf kv Hi Hkv) as (k & Hk & Hlen & Hv). exists k. split; [done|].
  destruct (log_ok_run g (take k (log W g))) as (x & Hx & _).
  { eapply log_ok_prefix; [apply prefix_take|]. apply (wi_logs _ (wreach_inv _ _ HW)). }
  rewrite Hx. f_equal. destruct (run_log_exec g _ x Hx) as [<- _]. simpl in Hv. rewrite Hv. unfold rsm_run.
  by rewrite !fmap_take, (gs_log _ _ _ _ _ _ Hs).
Qed.
End world.
