(* ===== verification/ShardService.v ===== *)
(** * The correctness of the sharded service

    [sexec] executes one chosen step of [ShardGroup.sstep]; in the sample run a group
    of three servers adopts a configuration and executes a write.  The theorems:
    the peers and servers of all groups refine the worlds of [ShardSystem], in
    which each group has one log, so what holds there holds of them. *)

From S2P Require Import Prelude Persister Chan RaftApi Raft RaftLog RaftAppend RaftSteps RaftSpec RaftOps RaftElection RaftHistory RaftRep RaftGroup RaftGroupSteps RaftGroupRun RaftSafety Rsm RsmRun RaftInstance Codecs.
From S2P Require Import ShardConfig Rebalance ShardCtrler ShardCtrlerSpec ShardKV ShardKVSpec ShardSystem ShardHistory ShardReplica ShardGroup.
Import ShardKV.

(** ** Running the groups *)
Section exec.
Context `{HK : Codec skv_state} `{HC : Codec (Z * Z * list (Raft.LogEntry CommandMsg) * Z * Z)}.
Context {K : Controller} (atomic : bool) (n : Z).
Implicit Types (s : sworld).

(** What happens next; states read, proposals and messages are chosen by their
    position. *)
Inductive saction :=
| SSystem (g : Z) (a : raction (C:=CommandMsg))
| SCrash (g i maxraftstate now : Z)
| SServe (g i : Z) (w : waitroom CommandMsg)
| SRead (g i : Z)
| SStart (g i : Z) (p : nat)
| SClient (g : Z) (op : Op)
| SNoop (g : Z)
| SConfig (p : nat) (latest : Config)
| SAsk (p p' q : nat)
| SAnswer (a p : nat) (i : Z)
| STake (a p : nat)
| SCask (p p' q : nat)
| SCanswer (a p : nat) (i : Z)
| SCtake (a p : nat).

Definition peer_at s (g i : Z) : option (Raft.Raft CommandMsg) :=
  R ← s_groups s !! g; g_peer (r_group R) !! i.

Definition sexec (a : saction) s : option sworld :=
  match a with
  | SSystem g a =>
      R ← s_groups s !! g; R' ← rexec (Replica0:=shard_replica g) n a R; Some (with_group g R' s)
  | SCrash g i m now =>
      R ← s_groups s !! g; rf ← g_peer (r_group R) !! i;
      let '(rf', kv') := StartServer n i (Raft.persister rf) m g now in
      Some (with_group g (mkRWorld (set_peer (r_group R) i rf') (<[i := kv']> (r_server R)) (delete i (r_batch R))) s)
  | SServe g i w =>
      R ← s_groups s !! g; kv ← r_server R !! i; guard (gid kv = g);;
      Some (with_group g (mkRWorld (r_group R) (<[i := set_waitChan w kv]> (r_server R)) (r_batch R)) s)
  | SRead g i =>
      R ← s_groups s !! g; _ ← g_peer (r_group R) !! i; kv ← r_server R !! i; Some (add_read (g, kv) s)
  | SStart g i p =>
      R ← s_groups s !! g; rf ← g_peer (r_group R) !! i; '(h, c) ← s_props s !! p; guard (h = g);;
      '(rf', _) ← returned (Raft.Start rf c);
      Some (with_group g (mkRWorld (set_peer (r_group R) i rf') (r_server R) (r_batch R)) s)
  | SClient g op => Some (add_prop (g, mkCommandMsg KVOperation (DOp op)) s)
  | SNoop g => Some (add_prop (g, mkCommandMsg NoOperation DNil) s)
  | SConfig p latest =>
      '(g, kv) ← s_reads s !! p; k ← getLastConfig_target kv latest; cfg ← cfg_at k;
      Some (add_prop (g, getLastConfig_msg cfg) s)
  | SAsk p p' q =>
      '(g, kv) ← s_reads s !! p; '(g', kv') ← s_reads s !! p'; guard (g' = g);;
      calls ← returned (ShardsRequester kv (Num (config kv'))); '(t, srv, args) ← calls !! q;
      Some (add_ask (t, args) s)
  | SAnswer a p i =>
      '(t, args) ← s_asks s !! a; '(t', kv) ← s_reads s !! p; guard (t' = t);; rf ← peer_at s t i;
      reply ← returned (ShardsRequestHandler rf kv args); Some (add_answer (args, reply) s)
  | STake a p =>
      '(args, reply) ← s_answers s !! a; '(g, kv) ← s_reads s !! p; guard (g = sra_GID args);;
      match ShardsRequester_reply kv (sra_ShardIndex args) args (Some reply) with
      | RqStart c => Some (add_prop (g, c) s)
      | _ => None
      end
  | SCask p p' q =>
      '(g, kv) ← s_reads s !! p; '(g', kv') ← s_reads s !! p'; guard (g' = g);;
      guard (atomic = true → Num (config kv') = Num (config kv));;
      calls ← returned (ShardsConfirm kv (Num (config kv'))); '(t, srv, args) ← calls !! q;
      Some (add_cask (g, t, args) s)
  | SCanswer a p i =>
      '(g, t, args) ← s_casks s !! a; '(t', kv) ← s_reads s !! p; guard (t' = t);; rf ← peer_at s t i;
      reply ← returned (ShardsConfirmHandler rf kv args); Some (add_canswer (g, args, reply) s)
  | SCtake a p =>
      '(g, args, reply) ← s_canswers s !! a; '(g', kv) ← s_reads s !! p; guard (g' = g);;
      c ← ShardsConfirm_reply kv args (Some reply); Some (add_prop (g, c) s)
  end.

Lemma sexec_sound a s s' : sexec a s = Some s' → sstep atomic n s s'.
Proof.
  destruct a; cbn [sexec]; intros Hs; exec_inv.
  - by eapply ss_system, rexec_sound.
  - by eapply ss_crash.
  - by eapply ss_serve.
  - by eapply ss_read.
  - eapply ss_start; [done|done|by eapply list_elem_of_lookup_2|done].
  - apply ss_client.
  - apply ss_noop.
  - eapply ss_config; [by eapply list_elem_of_lookup_2|done..].
  - match goal with E : ShardsRequester ?kv (Num (config ?kv')) = _ |- _ => eapply (ss_ask atomic n s _ kv kv') end;
      [by eapply list_elem_of_lookup_2|by eapply list_elem_of_lookup_2|done|by eapply list_elem_of_lookup_2].
  - eapply ss_answer; [by eapply list_elem_of_lookup_2|by eapply list_elem_of_lookup_2|done].
  - destruct (ShardsRequester_reply _ _ _ _) eqn:E; try done. exec_inv.
    eapply ss_take; [by eapply list_elem_of_lookup_2|by eapply list_elem_of_lookup_2|done].
  - match goal with E : ShardsConfirm ?kv (Num (config ?kv')) = _ |- _ => eapply (ss_cask atomic n s _ kv kv') end;
      [by eapply list_elem_of_lookup_2|by eapply list_elem_of_lookup_2|done|done|by eapply list_elem_of_lookup_2].
  - eapply ss_canswer; [by eapply list_elem_of_lookup_2|by eapply list_elem_of_lookup_2|done].
  - eapply ss_ctake; [by eapply list_elem_of_lookup_2|by eapply list_elem_of_lookup_2|done].
Qed.

Fixpoint sexecs (l : list saction) s : option sworld :=
  match l with
  | [] => Some s
  | a :: l' => s' ← sexec a s; sexecs l' s'
  end.

Lemma sexecs_sound l s s' : sexecs l s = Some s' → rtc (sstep atomic n) s s'.
Proof.
  revert s. induction l as [|a l IH]; intros s; simpl; [by intros [= ->]|].
  intros (s1 & H1%sexec_sound & H2%IH)%bind_Some. by eapply rtc_l.
Qed.
End exec.

(** ** A sample run *)
#[export] Instance Config_tok : Tok Config.
Proof. refine (iso_tok (λ c, (Num c, Shards c, Groups c)) (λ '(n, s, g), mkConfig n s g) _). by intros []. Defined.

#[export] Instance SOp_tok : Tok Op.
Proof.
  refine (iso_tok (λ o, (ClientID o, SeqNum o, Key o, Value o, Optype o)) (λ '(c, s, k, v, t), mkOp c s k v t) _).
  by intros [].
Defined.

#[export] Instance ShardRequestMsg_tok : Tok ShardRequestMsg.
Proof.
  refine (iso_tok (λ m, (srm_ConfigNum m, srm_ShardIndex m, srm_GID m, srm_ShardData m, srm_ClientSeqNum m))
            (λ '(c, s, g, d, q), mkShardRequestMsg c s g d q) _). by intros [].
Defined.

#[export] Instance ShardConfirmMsg_tok : Tok ShardConfirmMsg.
Proof.
  refine (iso_tok (λ m, (scm_ConfigNum m, scm_ShardIndex m, scm_ShardState m))
            (λ '(c, s, x), mkShardConfirmMsg c s x) _). by intros [].
Defined.

#[export] Instance data_tok : Tok data.
Proof.
  refine (iso_tok
    (λ d, match d with
          | DNil => inl (inl tt)
          | DOp o => inl (inr o)
          | DConfig c => inr (inl c)
          | DShardRequest m => inr (inr (inl m))
          | DShardConfirm m => inr (inr (inr m))
          end)
    (λ x, match x with
          | inl (inl _) => DNil
          | inl (inr o) => DOp o
          | inr (inl c) => DConfig c
          | inr (inr (inl m)) => DShardRequest m
          | inr (inr (inr m)) => DShardConfirm m
          end) _). by intros [].
Defined.

#[export] Instance CommandMsg_tok : Tok CommandMsg.
Proof. refine (iso_tok (λ c, (CommandType c, Data c)) (λ '(t, d), mkCommandMsg t d) _). by intros []. Defined.

Definition sserver0 (g i : Z) : ShardKV := (StartServer 3 i MakePersister (-1) g 0).2.

Definition sgroup3 (g : Z) : srworld := rworld3 (sserver0 g).

(** Two groups of three servers. *)
Definition sworld3 : sworld := mkSWorld {[100 := sgroup3 100; 200 := sgroup3 200]} [] [] [] [] [] [].

(** Server 0 of a group is elected; it replicates to server 1; a server applies
    what is committed. *)
Definition s_elect (g : Z) : list saction :=
  SSystem g ∘ RPeers <$> [ATick 0 1000 300; AVote 0 1001; AVoteReply 0].
Definition s_commit (g now : Z) : list saction :=
  [SStart g 0 0] ++ (SSystem g ∘ RPeers <$> [APrepare 0 1; AAppend 0 now; AAppendReply 0]) ++
  (SSystem g <$> [RTake 0; RDeliver 0; RDone 0]).
Definition s_adopt (g now : Z) : list saction :=
  [SRead g 0; SConfig 0 (mkConfig 99 [] ∅)] ++ s_commit g now.

(** Group 100 serves the shard of "k" and executes a write; then both groups adopt
    the next configuration, server 2 of group 100 crashes, and group 200 pulls
    the shard. *)
Definition srun_write : list saction :=
  s_elect 100 ++ s_adopt 100 1002 ++ [SClient 100 sample_write] ++ s_commit 100 1003 ++
  (SSystem 100 ∘ RPeers <$> [APrepare 0 1; AAppend 0 1004]) ++
  (SSystem 100 <$> [RTake 1; RDeliver 1; RDeliver 1; RDone 1]).
Definition srun_move : list saction :=
  s_adopt 100 1005 ++ [SCrash 100 2 (-1) 1006] ++ s_elect 200 ++ s_adopt 200 1002 ++ s_adopt 200 1003 ++
  [SRead 200 0; SAsk 0 0 0; SRead 100 0; SAnswer 0 0 0; SRead 200 0; STake 0 0] ++ s_commit 200 1004.

Lemma sserver0_made g i : shard_made g [] (sserver0 g i).
Proof. by exists MakePersister, 3, i, (-1), 0. Qed.

Lemma sgroup3_init g : rworld_init (Replica0:=shard_replica g) 3 (sgroup3 g).
Proof. apply rworld3_init, sserver0_made. Qed.

Lemma sworld3_init : sworld_init 3 sworld3.
Proof.
  split; [|done]. intros g R. simpl.
  intros [[<- <-]|[_ [<- <-]%lookup_singleton_Some]]%lookup_insert_Some; apply sgroup3_init.
Qed.

Definition srun (b : bool) (l : list saction) : sworld :=
  default sworld3 (sexecs (K:=sample_controller) b 3 l sworld3).

Lemma srun_reach b l : sreach (K:=sample_controller) b 3 (srun b l).
Proof.
  exists sworld3. split; [apply sworld3_init|]. unfold srun.
  destruct (sexecs b 3 l sworld3) as [s|] eqn:E; [by eapply sexecs_sound|apply rtc_refl].
Qed.

(** Server [i] of group [g]. *)
Definition server_at (s : sworld) (g i : Z) : option ShardKV := R ← s_groups s !! g; r_server R !! i.

(** ** Theorems *)

(** C4: the peers and servers of all groups implement the groups of one log each.
    Whatever the network does and whichever machines crash, there is a world of
    [ShardSystem], reached by proposing and committing commands and exchanging
    messages, in which the log of every group is one its peers committed,
    and every server has the state that a prefix of its group's log leads to,
    between what its peer has applied and what it has committed.  So the theorems on
    those worlds (one owner per shard, one map, no lost shard) hold of the
    program. *)
Theorem sharded_service_refines `{Codec skv_state} `{Codec (Z * Z * list (Raft.LogEntry CommandMsg) * Z * Z)}
    {K : Controller} (atomic : bool) (n : Z) (s : sworld) (Hn : 0 ≤ n) (Hreach : sreach atomic n s) :
  ∃ W, wreach (H:=raft_service) atomic W ∧
    w_asks W = s_asks s ∧ w_answers W = s_answers s ∧ w_casks W = s_casks s ∧ w_canswers W = s_canswers s ∧
    ∀ g R, s_groups s !! g = Some R →
      ∃ L, group_log (r_group R) L ∧ Raft.le_Command <$> L = Some <$> log W g ∧
        ∀ i rf kv, g_peer (r_group R) !! i = Some rf → r_server R !! i = Some kv →
          ∃ k, Raft.lastApplied rf ≤ Z.of_nat k ≤ Raft.commitIndex rf ∧
            run_log (start g) 1 (take k (log W g)) = Ret (canon kv).
Proof.
  destruct (sreach_sim atomic n Hn s Hreach) as [W0 Hsim0].
  destruct (sim_caught_up atomic n Hn s W0 Hsim0) as (W & Hsim & Hcu). exists W.
  split; [apply Hsim|]. do 4 (split; [apply Hsim|]). intros g R HR.
  apply (caught_up_server atomic n); [by apply Hcu|apply Hsim].
Qed.

(** The shard moved from group 100 to group 200, with the value written to it. *)
Lemma sharded_service_refines_witness :
  (server_at (srun true (srun_write ++ srun_move)) 200 0 ≫= λ kv, currentState kv !! "k"%string) = Some "v"%string ∧
  ∃ W, wreach (K:=sample_controller) (H:=raft_service) true W ∧
    w_asks W = s_asks (srun true (srun_write ++ srun_move)).
Proof.
  split; [vm_compute; reflexivity|].
  destruct (sharded_service_refines (K:=sample_controller) true 3 (srun true (srun_write ++ srun_move))
    ltac:(lia) (srun_reach _ _)) as (W & HW & Ha & _). exact (ex_intro _ W (conj HW Ha)).
Defined.

(** C12: servers of different groups never serve the same shard in the same
    configuration, however far each of them is behind. *)
Theorem servers_one_owner `{Codec skv_state} `{Codec (Z * Z * list (Raft.LogEntry CommandMsg) * Z * Z)}
    {K : Controller} (atomic : bool) (n : Z) (s : sworld) (g h i j sh : Z) (Rg Rh : srworld)
    (rg rh : Raft.Raft CommandMsg) (kg kh : ShardKV)
    (Hn : 0 ≤ n) (Hreach : sreach atomic n s) (Hsh : 0 ≤ sh < NShards)
    (HRg : s_groups s !! g = Some Rg) (Hpg : g_peer (r_group Rg) !! i = Some rg) (Hkg : r_server Rg !! i = Some kg)
    (HRh : s_groups s !! h = Some Rh) (Hph : g_peer (r_group Rh) !! j = Some rh) (Hkh : r_server Rh !! j = Some kh)
    (Hsame : Num (config kg) = Num (config kh)) (Hsg : sstate kg sh = SERVING) (Hsh' : sstate kh sh = SERVING) :
  g = h.
Proof.
  destruct (sreach_sim atomic n Hn s Hreach) as [W0 Hsim0].
  destruct (sim_caught_up atomic n Hn s W0 Hsim0) as (W & Hsim & Hcu).
  pose proof (wreach_inv _ _ (sm_reach _ _ _ _ Hsim)) as Hinv.
  assert (∀ g R i rf kv, s_groups s !! g = Some R → g_peer (r_group R) !! i = Some rf →
    r_server R !! i = Some kv → sstate kv sh = SERVING →
    owner (config kv) sh = g ∧ cfg_at (Num (config kv)) = Some (config kv)) as Hown.
  { intros g' R i' rf kv HR Hp Hk Hs.
    destruct (caught_up_server atomic n g' R W (Hcu _ _ HR) (sm_reach _ _ _ _ Hsim)) as (L & _ & _ & Hsv).
    destruct (Hsv i' rf kv Hp Hk) as (k & _ & Hrun).
    assert (replica W g' (canon kv)) as Hrep by (exists (take k (log W g')); split; [apply prefix_take|done]).
    destruct (replica_wf W g' (canon kv) Hinv Hrep) as [Hw Hg].
    destruct (wi_configs _ Hinv g' (canon kv) Hrep) as [Hc _]. simpl in *.
    destruct (sw_shard _ Hw sh Hsh) as [_ Ho Hz|Hx|Hx|Hx];
      [|exfalso; change (sstate (canon kv) sh) with (sstate kv sh) in Hx; rewrite Hs in Hx; by vm_compute in Hx..].
    simpl in *. destruct Hc as [?|?]; [done|]. split; congruence. }
  destruct (Hown g Rg i rg kg HRg Hpg Hkg Hsg) as [<- Hcg]. destruct (Hown h Rh j rh kh HRh Hph Hkh Hsh') as [<- Hch].
  rewrite Hsame, Hch in Hcg. by injection Hcg as ->.
Qed.

Lemma servers_one_owner_witness :
  let s := srun true srun_write in
  (λ kv, sstate kv (key2shard "k")) <$> server_at s 100 0 = Some SERVING ∧
  (λ kv, sstate kv (key2shard "k")) <$> server_at s 100 1 = Some SERVING ∧ 100 = 100.
Proof.
  intros s. split; [vm_compute; reflexivity|]. split; [vm_compute; reflexivity|].
  assert (∀ A (o : option A), bool_decide (is_Some o) = true → is_Some o) as Hsome
    by (intros A o; apply bool_decide_eq_true).
  destruct (Hsome _ (s_groups s !! 100)) as [R HR]; [vm_compute; reflexivity|].
  destruct (Hsome _ (s_groups s !! 100 ≫= λ R, g_peer (r_group R) !! 0)) as [r0 Hr0]; [vm_compute; reflexivity|].
  destruct (Hsome _ (s_groups s !! 100 ≫= λ R, g_peer (r_group R) !! 1)) as [r1 Hr1]; [vm_compute; reflexivity|].
  destruct (Hsome _ (server_at s 100 0)) as [k0 Hk0]; [vm_compute; reflexivity|].
  destruct (Hsome _ (server_at s 100 1)) as [k1 Hk1]; [vm_compute; reflexivity|].
  assert ((λ kv, (sstate kv (key2shard "k"), Num (config kv))) <$> server_at s 100 0 = Some (SERVING, 1)) as E0
    by (vm_compute; reflexivity).
  assert ((λ kv, (sstate kv (key2shard "k"), Num (config kv))) <$> server_at s 100 1 = Some (SERVING, 1)) as E1
    by (vm_compute; reflexivity).
  rewrite Hk0 in E0. rewrite Hk1 in E1. injection E0 as Hs0 Hn0. injection E1 as Hs1 Hn1.
  assert (Num (config k0) = Num (config k1)) as Hsame by congruence.
  unfold server_at in Hk0, Hk1. rewrite HR in Hr0, Hr1, Hk0, Hk1.
  exact (servers_one_owner (K:=sample_controller) true 3 s 100 100 0 1 (key2shard "k") R R r0 r1 k0 k1
    ltac:(lia) (srun_reach _ _) (key2shard_range _) HR Hr0 Hk0 HR Hr1 Hk1 Hsame Hs0 Hs1).
Defined.
