(* ===== verification/CtrlGroup.v ===== *)
(** * The shard controller as a whole

    The servers of shardctrler/server.go on the peers of raft/raft.go, with the
    clerks of shardctrler/client.go.  A clerk's request may reach any server at any
    time and repeatedly; a server that leads starts it and waits; the applier
    executes what is committed, by [rebalance] among others, and wakes the waiting
    request, which then reads the configurations under the lock again, when more
    may have been committed.  Replies may be lost, and machines crash and restart
    with nothing but the log of their peer: the controller takes no snapshots. *)

From S2P Require Import Prelude Persister Chan RaftApi Raft RaftLog RaftAppend RaftSteps RaftSpec RaftOps RaftElection RaftHistory RaftRep RaftGroup RaftGroupSteps RaftSafety Rsm.
From S2P Require Import ShardConfig Rebalance ShardCtrler ShardCtrlerSpec Clerks.
Import ShardCtrler.

Notation ctrl_state := (list Config * gmap Z Z)%type.
Notation ctrl_entry := (Raft.LogEntry Op).

(** ** The server as a replica *)
Definition ctrl_view (sc : server) : ctrl_state := (configs sc, clientSeq sc).
Definition ctrl_with (w : ctrl_state) : server := mkServer w.1 empty_waitroom w.2.
Definition ctrl_init : ctrl_state := ([emptyConfig], ∅).

Section replica.
Context {KO : KeyOrder} `{HC : Codec (Z * Z * list ctrl_entry * Z * Z)}.
Implicit Types (sc : server) (w : ctrl_state).

Definition ctrl_exec w (c : option Op) : ctrl_state :=
  match applyHandler (ctrl_with w) (command_msg c 0) with Ret sc => ctrl_view sc | _ => w end.

(** The applier of a server leaves its peer alone. *)
Definition ctrl_handler (rf : Raft.Raft Op) sc (m : ApplyMsg Op) : Go (Raft.Raft Op * server) :=
  sc' ← applyHandler sc m; mret (rf, sc').

(** [applyToStateMachine] reads the configurations only. *)
Lemma apply_view sc sc0 op sc' :
  configs sc0 = configs sc → applyToStateMachine sc op = Ret sc' →
  sc' = set_configs sc (configs sc') ∧ applyToStateMachine sc0 op = Ret (set_configs sc0 (configs sc')).
Proof.
  intros Hc Hr. unfold applyToStateMachine in *. rewrite Hc. inv_bind Hr. rewrite Hb, bind_Ret. cbn zeta in *.
  assert (∀ m, append_rebalanced sc (Num x) (Shards x) m = Ret sc' →
    sc' = set_configs sc (configs sc') ∧
    append_rebalanced sc0 (Num x) (Shards x) m = Ret (set_configs sc0 (configs sc'))) as Happ.
  { intros m Hm. unfold append_rebalanced in *. inv_bind Hm. rewrite Hb0, bind_Ret. destruct x0 as [ns mv].
    injection Hm as <-. by rewrite Hc. }
  case_test_in Hr; [by apply Happ|]. case_test_in Hr; [by apply Happ|].
  case_test_in Hr.
  - do 2 inv_bind Hr. rewrite Hb0, bind_Ret, Hb1, bind_Ret. by injection Hr as <-.
  - injection Hr as <-. destruct sc, sc0. simpl in *. by subst.
Qed.

Lemma exec_view sc c i sc' :
  applyHandler sc (command_msg c i) = Ret sc' → ctrl_exec (ctrl_view sc) c = ctrl_view sc'.
Proof.
  unfold ctrl_exec, applyHandler. simpl. set (op := default zeroOp c).
  destruct (clientSeq sc !! ClientID op) as [s|] eqn:Hs; simpl.
  - case_test; intros Hr.
    + rewrite bind_Ret in Hr |- *. simpl. inv_bind Hr. by injection Hr as <-.
    + inv_bind Hr. destruct (apply_view sc (ctrl_with (ctrl_view sc)) op x eq_refl Hb) as [Hx ->].
      rewrite bind_Ret. simpl. inv_bind Hr. injection Hr as <-. by rewrite Hx.
  - case_test; intros Hr.
    + rewrite bind_Ret in Hr |- *. simpl. inv_bind Hr. by injection Hr as <-.
    + inv_bind Hr. destruct (apply_view (set_clientSeq sc (<[ClientID op:=0]> (clientSeq sc)))
        (set_clientSeq (ctrl_with (ctrl_view sc)) (<[ClientID op:=0]> (clientSeq sc))) op x eq_refl Hb) as [Hx ->].
      rewrite bind_Ret. simpl. inv_bind Hr. injection Hr as <-. by rewrite Hx.
Qed.

(** The applier offers the operation to the channel of its index. *)
Lemma applyHandler_notify sc m sc' :
  applyHandler sc m = Ret sc' → (CommandValid m = false ∧ sc' = sc) ∨
    wait_notify (waitChan sc) (CommandIndex m) (default zeroOp (Command m)) = Ret (waitChan sc').
Proof.
  unfold applyHandler. destruct (CommandValid m); simpl; [|intros [= <-]; by left]. set (op := default zeroOp (Command m)).
  set (sc1 := match clientSeq sc !! ClientID op with Some _ => sc | None => _ end).
  assert (waitChan sc1 = waitChan sc) as H1 by (unfold sc1; by destruct (clientSeq sc !! ClientID op)).
  intros Hr. do 2 inv_bind Hr. injection Hr as <-. right. simpl.
  assert (waitChan x = waitChan sc1) as H2.
  { case_test_in Hb; [by injection Hb as <-|]. destruct (apply_view sc1 sc1 op x eq_refl Hb) as [-> _]. done. }
  congruence.
Qed.

Lemma applyHandler_room sc m sc' : applyHandler sc m = Ret sc' → room_step (waitChan sc) (waitChan sc').
Proof.
  intros [[_ ->]|Hn]%applyHandler_notify; [apply room_step_refl|by eapply room_step_notify].
Qed.

Lemma ctrl_replica_command rf sc c i rf' sc' :
  wait_wf (waitChan sc) → 1 ≤ i → 0 < i → ctrl_handler rf sc (command_msg c i) = Ret (rf', sc') →
  wait_wf (waitChan sc') ∧ 0 = 0 ∧ ctrl_view sc' = ctrl_exec (ctrl_view sc) c ∧
  (rf' = rf ∨ ∃ data : bytes, Raft.Snapshot rf i data = Ret rf' ∧ None = Some (ctrl_view sc')).
Proof.
  intros Hw _ _ Hr. unfold ctrl_handler in Hr. inv_bind Hr. injection Hr as <- <-.
  split_and!; [by eapply applyHandler_room|done|symmetry; by eapply exec_view|by left].
Qed.

Lemma ctrl_replica_stale rf sc c i rf' sc' (p : list (option Op)) :
  wait_wf (waitChan sc) → True → ctrl_view sc = foldl ctrl_exec ctrl_init p → 1 ≤ i ≤ zlen p → i ≤ 0 →
  p !! Z.to_nat (i - 1) = Some c → ctrl_handler rf sc (command_msg c i) = Ret (rf', sc') →
  wait_wf (waitChan sc') ∧ 0 = 0 ∧ ctrl_view sc' = ctrl_view sc ∧
  (rf' = rf ∨ ∃ data, Raft.Snapshot rf i data = Ret rf').
Proof. lia. Qed.

Lemma ctrl_replica_snapshot rf sc data t i rf' sc' :
  wait_wf (waitChan sc) → ctrl_handler rf sc (snapshot_msg data t i) = Ret (rf', sc') →
  wait_wf (waitChan sc') ∧ ((rf' = rf ∧ sc' = sc) ∨ ∃ b, Raft.CondInstallSnapshot rf t i data = Ret (rf', b) ∧
    if b : bool then 0 = i ∧ ∀ w, None = Some w → ctrl_view sc' = w else sc' = sc).
Proof. intros Hw [= <- <-]. split; [done|by left]. Qed.

Definition ctrl_made (data : bytes) sc : Prop := sc = StartServer.

Lemma ctrl_replica_made data sc :
  ctrl_made data sc → wait_wf (waitChan sc) ∧ 0 = 0 ∧ ctrl_view sc = default ctrl_init None.
Proof. intros ->. split_and!; [apply wait_wf_empty|done..]. Qed.

#[export] Instance ctrl_replica : Replica Op server ctrl_state := {|
  rp_handler := ctrl_handler;
  rp_ok := λ sc, wait_wf (waitChan sc);
  rp_view := ctrl_view;
  rp_skip := λ _, 0;
  rp_init := ctrl_init;
  rp_exec := ctrl_exec;
  rp_log_ok := λ _, True;
  rp_read := λ _, None;
  rp_made := ctrl_made;
  rp_command := ctrl_replica_command;
  rp_stale := ctrl_replica_stale;
  rp_snapshot := ctrl_replica_snapshot;
  rp_made_view := ctrl_replica_made;
  rp_read_nil := eq_refl
|}.
End replica.

(** ** The configurations of a log *)

(** The log holds valid operations, numbered by their clerks. *)
Definition entry_ok (e : ctrl_entry) : Prop := ∃ op, Raft.le_Command e = Some op ∧ op_valid op ∧ 1 ≤ SeqNum op.

(** What a state of the controller reached by a log looks like: the controller
    never stores a sequence number. *)
Record state_ok (w : ctrl_state) : Prop := {
  so_wf : ctrl_wf (ctrl_with w);
  so_seq : ∀ id, map_get 0 w.2 id = 0
}.

Section logs.
Context {KO : KeyOrder} `{HC : Codec (Z * Z * list ctrl_entry * Z * Z)}.
Implicit Types (l : list ctrl_entry) (w : ctrl_state).

Lemma exec_ok w c :
  state_ok w → op_valid (default zeroOp c) → state_ok (ctrl_exec w c) ∧ w.1 `prefix_of` (ctrl_exec w c).1.
Proof.
  intros [Hwf Hseq] Hop. unfold ctrl_exec.
  destruct (applyHandler_spec (ctrl_with w) (command_msg c 0) Hwf Hop) as (sc & cs & -> & Hwf' & Hc & _ & Hs).
  split; [split|simpl; rewrite Hc; by apply prefix_app_r].
  - destruct Hwf'. split; [done..|apply wait_wf_empty].
  - intros id. specialize (Hseq id). unfold map_get in *. simpl. destruct (clientSeq sc !! id) eqn:E; [|done].
    apply Hs in E as [E|E]; [|done]. simpl in E. by rewrite E in Hseq.
Qed.

(** An operation that changes the configuration is executed whenever it is committed. *)
Lemma exec_changes w op :
  state_ok w → op_valid op → changes_config op = true → 1 ≤ SeqNum op →
  ∃ old new, last w.1 = Some old ∧ (ctrl_exec w (Some op)).1 = w.1 ++ [new] ∧ next_config op old new.
Proof.
  intros [Hwf Hseq] Hop Hch Hs. unfold ctrl_exec, applyHandler. simpl.
  set (sc1 := match w.2 !! ClientID op with Some _ => _ | None => _ end).
  assert (configs sc1 = w.1 ∧ ctrl_wf sc1 ∧ map_get 0 (clientSeq sc1) (ClientID op) = 0) as (Hc1 & Hwf1 & Hz).
  { unfold sc1. specialize (Hseq (ClientID op)). destruct (w.2 !! ClientID op) eqn:E; [done|].
    split_and!; [done|by destruct Hwf; split|]. apply map_get_insert_eq. }
  rewrite Hz, (proj2 (Z.leb_gt _ 0)) by lia.
  destruct (apply_spec sc1 op Hwf1 Hop) as (cs & -> & Hwf2 & Hcs). rewrite bind_Ret, Hch in *.
  destruct Hcs as (old & new & Hl & -> & Hnext). rewrite Hc1 in *. exists old, new. split; [done|].
  destruct (wait_notify_wf _ 0 op (cw_wait _ Hwf2)) as (w' & -> & _). done.
Qed.

(** Any other leaves the configurations as they are. *)
Lemma exec_same w op : state_ok w → op_valid op → changes_config op = false → (ctrl_exec w (Some op)).1 = w.1.
Proof.
  intros [Hwf _] Hop Hch. unfold ctrl_exec. destruct (applyHandler (ctrl_with w) (command_msg (Some op) 0)) as [sc| |] eqn:Hr; [|done..].
  unfold applyHandler in Hr. simpl in Hr. set (sc1 := match w.2 !! ClientID op with Some _ => _ | None => _ end) in Hr.
  assert (configs sc1 = w.1 ∧ ctrl_wf sc1) as (Hc1 & Hwf1).
  { unfold sc1. destruct (w.2 !! ClientID op); [done|]. split; [done|by destruct Hwf; split]. }
  inv_bind Hr. assert (configs x = w.1) as Hx.
  { case_test_in Hb; [by injection Hb as <-|]. destruct (apply_spec sc1 op Hwf1 Hop) as (cs & E & _ & Hcs).
    rewrite Hch in Hcs. subst cs. rewrite Hb in E. injection E as ->. simpl. by rewrite app_nil_r. }
  inv_bind Hr. injection Hr as <-. done.
Qed.

Lemma run_snoc l e : rsm_run (l ++ [e]) = ctrl_exec (rsm_run l) (Raft.le_Command e).
Proof. unfold rsm_run. by rewrite fmap_app, foldl_app. Qed.

Lemma run_ok l : Forall entry_ok l → state_ok (rsm_run l).
Proof.
  induction l as [|e l IH] using rev_ind.
  - split; [|done]. apply ctrl_wf_start.
  - intros [Hl [He _]%Forall_cons]%Forall_app. rewrite run_snoc.
    destruct He as (op & -> & Hop & _). apply exec_ok; [by apply IH|done].
Qed.

Lemma run_prefix l l' : l `prefix_of` l' → Forall entry_ok l' → (rsm_run l).1 `prefix_of` (rsm_run l').1.
Proof.
  intros [r ->]. induction r as [|e r IH] using rev_ind; [by rewrite app_nil_r|]. rewrite app_assoc.
  intros [Hl [He _]%Forall_cons]%Forall_app. etrans; [by apply IH|]. rewrite run_snoc.
  destruct He as (op & -> & Hop & _). apply exec_ok; [by apply run_ok|done].
Qed.

Lemma run_take l j : Forall entry_ok l → (rsm_run (take j l)).1 `prefix_of` (rsm_run l).1.
Proof. apply run_prefix, prefix_take. Qed.

Lemma run_changes l j e op :
  Forall entry_ok l → l !! j = Some e → Raft.le_Command e = Some op → changes_config op = true →
  ∃ old new, last (rsm_run (take j l)).1 = Some old ∧
    (rsm_run (take (S j) l)).1 = (rsm_run (take j l)).1 ++ [new] ∧ next_config op old new.
Proof.
  intros Hl Hj He Hch. rewrite (take_S_r _ _ _ Hj), run_snoc, He.
  destruct (proj1 (Forall_lookup _ _) Hl j e Hj) as (op' & He' & Hop & Hs).
  assert (op' = op) as -> by congruence. apply exec_changes; [by apply run_ok, Forall_take|done..].
Qed.

(** Every configuration but the first was made from the one before it by an
    operation of the log. *)
Lemma run_next l k old new :
  Forall entry_ok l → (rsm_run l).1 !! k = Some old → (rsm_run l).1 !! S k = Some new →
  ∃ e op, e ∈ l ∧ Raft.le_Command e = Some op ∧ next_config op old new.
Proof.
  induction l as [|e l IH] using rev_ind; [done|].
  intros [Hl [He _]%Forall_cons]%Forall_app Hold Hnew. destruct He as (op & Hop & Hv & Hs).
  assert (∀ x y, (rsm_run l).1 !! k = Some x → (rsm_run l).1 !! S k = Some y → x = old → y = new →
    ∃ e0 op0, e0 ∈ l ++ [e] ∧ Raft.le_Command e0 = Some op0 ∧ next_config op0 old new) as Hin.
  { intros x y Hx Hy -> ->. destruct (IH Hl Hx Hy) as (e0 & op0 & ? & ? & ?). exists e0, op0.
    split_and!; [rewrite elem_of_app; by left|done..]. }
  rewrite run_snoc, Hop in Hold, Hnew. pose proof (run_ok l Hl) as Hok.
  destruct (changes_config op) eqn:Hch; [|rewrite exec_same in Hold, Hnew by done; by eapply Hin].
  destruct (exec_changes _ op Hok Hv Hch Hs) as (old' & new' & Hlast & Hex & Hnext). rewrite Hex in Hold, Hnew.
  destruct (decide (S k < length (rsm_run l).1)%nat) as [Hlt|Hge].
  - rewrite lookup_app_l in Hold, Hnew by lia. by eapply Hin.
  - apply lookup_app_Some in Hnew as [?%lookup_lt_Some|[Hle Hnew]]; [lia|].
    apply list_lookup_singleton_Some in Hnew as [Hk ->]. rewrite lookup_app_l in Hold by lia.
    rewrite last_lookup in Hlast. replace (pred (length (rsm_run l).1)) with k in Hlast by lia.
    assert (old' = old) as -> by congruence. exists e, op. split_and!; [|done|done]. rewrite elem_of_app. right. by left.
Qed.
End logs.

(** ** The whole service *)

(** What a client asks of its clerk. *)
Inductive ctrl_call :=
| CQuery (num : Z)
| CJoin (groups : gmap Z (list string))
| CLeave (gids : list Z)
| CMove (shard gid : Z).

Definition call_args (ck : CtrlClerk.Clerk) (r : ctrl_call) : CommandArgs :=
  match r with
  | CQuery num => CtrlClerk.Query_args ck num
  | CJoin groups => CtrlClerk.Join_args ck groups
  | CLeave gids => CtrlClerk.Leave_args ck gids
  | CMove shard gid => CtrlClerk.Move_args ck shard gid
  end.

(** Clients name no group 0 and one of the ten shards. *)
Definition call_ok (r : ctrl_call) : Prop :=
  match r with
  | CJoin groups => groups !! 0 = None
  | CMove shard _ => 0 ≤ shard < NShards
  | _ => True
  end.

(** The requests at the servers: started at an index, waiting on a channel, woken
    but not yet answered, with a channel to close; and the replies, which may
    arrive late or never. *)
Record ctrl_requests := mkCtrlRequests {
  rq_started : list (Z * CommandArgs * Z);
  rq_waiting : list (Z * CommandArgs * Z * Z);
  rq_woken : list (Z * CommandArgs * Z * Z * wake);
  rq_finished : list (Z * Z * Z);
  rq_replies : list (CommandArgs * CommandReply)
}.

Definition ctrl_drop (i : Z) (q : ctrl_requests) : ctrl_requests :=
  mkCtrlRequests (filter (λ x, x.1.1 ≠ i) (rq_started q)) (filter (λ x, x.1.1.1 ≠ i) (rq_waiting q))
    (filter (λ x, x.1.1.1.1 ≠ i) (rq_woken q)) (filter (λ x, x.1.1 ≠ i) (rq_finished q)) (rq_replies q).

Definition ctrl_reply (x : CommandArgs * CommandReply) (q : ctrl_requests) : ctrl_requests :=
  mkCtrlRequests (rq_started q) (rq_waiting q) (rq_woken q) (rq_finished q) (x :: rq_replies q).

(** The servers on their peers; the clerks, with the request each is at; the
    requests ever made; those at the servers. *)
Record cworld := mkCWorld {
  cw_rsm : rworld (C:=Op) (S:=server);
  cw_clerks : gmap Z (CtrlClerk.Clerk * option CommandArgs);
  cw_calls : list CommandArgs;
  cw_requests : ctrl_requests
}.

Definition ctrl_server (R : rworld (C:=Op) (S:=server)) (i : Z) (sc : server) : rworld :=
  mkRWorld (r_group R) (<[i := sc]> (r_server R)) (r_batch R).

Definition ctrl_requests_set (W : cworld) (R : rworld) (q : ctrl_requests) : cworld :=
  mkCWorld R (cw_clerks W) (cw_calls W) q.

Section world.
Context {KO : KeyOrder} `{HC : Codec (Z * Z * list ctrl_entry * Z * Z)}.
Context (n : Z).
Implicit Types (W : cworld).

Inductive cstep : cworld → cworld → Prop :=
| cs_system W R' :                          (* the peers and the appliers *)
    rstep n (cw_rsm W) R' → cstep W (ctrl_requests_set W R' (cw_requests W))
| cs_crash W i rf now :                     (* a machine restarts from its storage *)
    g_peer (r_group (cw_rsm W)) !! i = Some rf →
    cstep W (ctrl_requests_set W
      (mkRWorld (set_peer (r_group (cw_rsm W)) i (Raft.Make n i (Raft.persister rf) now))
         (<[i := StartServer]> (r_server (cw_rsm W))) (delete i (r_batch (cw_rsm W))))
      (ctrl_drop i (cw_requests W)))
| cs_call W c ck r :                        (* a clerk starts a request *)
    cw_clerks W !! c = Some (ck, None) → call_ok r →
    cstep W (mkCWorld (cw_rsm W) (<[c := (ck, Some (call_args ck r))]> (cw_clerks W))
      (call_args ck r :: cw_calls W) (cw_requests W))
| cs_refuse W i rf args :                   (* a call reaches a server that does not lead *)
    args ∈ cw_calls W → g_peer (r_group (cw_rsm W)) !! i = Some rf → (Raft.GetState rf).2 = false →
    cstep W (ctrl_requests_set W (cw_rsm W) (ctrl_reply (args, wrong_leader zeroReply) (cw_requests W)))
| cs_start W i rf args rf' idx t lead :     (* a call reaches a server, which starts it *)
    args ∈ cw_calls W → g_peer (r_group (cw_rsm W)) !! i = Some rf →
    Raft.Start rf (op_of_args args) = Ret (rf', (idx, t, lead)) →
    cstep W (ctrl_requests_set W
      (mkRWorld (set_peer (r_group (cw_rsm W)) i rf') (r_server (cw_rsm W)) (r_batch (cw_rsm W)))
      (if lead : bool
       then mkCtrlRequests ((i, args, idx) :: rq_started (cw_requests W)) (rq_waiting (cw_requests W))
              (rq_woken (cw_requests W)) (rq_finished (cw_requests W)) (rq_replies (cw_requests W))
       else ctrl_reply (args, wrong_leader zeroReply) (cw_requests W)))
| cs_wait W l1 l2 i args idx sc sc' ch :    (* the handler gets its channel *)
    rq_started (cw_requests W) = l1 ++ (i, args, idx) :: l2 → r_server (cw_rsm W) !! i = Some sc →
    getWaitCh sc idx = (sc', ch) →
    cstep W (ctrl_requests_set W (ctrl_server (cw_rsm W) i sc')
      (mkCtrlRequests (l1 ++ l2) ((i, args, idx, ch) :: rq_waiting (cw_requests W)) (rq_woken (cw_requests W))
         (rq_finished (cw_requests W)) (rq_replies (cw_requests W))))
| cs_receive W l1 l2 i args idx ch sc w v : (* its channel is ready *)
    rq_waiting (cw_requests W) = l1 ++ (i, args, idx, ch) :: l2 → r_server (cw_rsm W) !! i = Some sc →
    chan_recv (waitChan sc) ch = (w, v) → v ≠ RBlocked →
    cstep W (ctrl_requests_set W (ctrl_server (cw_rsm W) i (set_waitChan sc w))
      (mkCtrlRequests (rq_started (cw_requests W)) (l1 ++ l2) ((i, args, idx, ch, WReceived v) :: rq_woken (cw_requests W))
         (rq_finished (cw_requests W)) (rq_replies (cw_requests W))))
| cs_timeout W l1 l2 i args idx ch :        (* or its timer fires *)
    rq_waiting (cw_requests W) = l1 ++ (i, args, idx, ch) :: l2 →
    cstep W (ctrl_requests_set W (cw_rsm W)
      (mkCtrlRequests (rq_started (cw_requests W)) (l1 ++ l2) ((i, args, idx, ch, WTimeout) :: rq_woken (cw_requests W))
         (rq_finished (cw_requests W)) (rq_replies (cw_requests W))))
| cs_answer W l1 l2 i args idx ch ev sc reply :   (* the handler ends, reading the state it finds *)
    rq_woken (cw_requests W) = l1 ++ (i, args, idx, ch, ev) :: l2 → r_server (cw_rsm W) !! i = Some sc →
    request_end sc args zeroReply ev = Ret reply →
    cstep W (ctrl_requests_set W (cw_rsm W)
      (mkCtrlRequests (rq_started (cw_requests W)) (rq_waiting (cw_requests W)) (l1 ++ l2)
         ((i, idx, ch) :: rq_finished (cw_requests W)) ((args, reply) :: rq_replies (cw_requests W))))
| cs_cleanup W l1 l2 i idx ch sc sc' :
    rq_finished (cw_requests W) = l1 ++ (i, idx, ch) :: l2 → r_server (cw_rsm W) !! i = Some sc →
    request_cleanup sc idx ch = Ret sc' →
    cstep W (ctrl_requests_set W (ctrl_server (cw_rsm W) i sc')
      (mkCtrlRequests (rq_started (cw_requests W)) (rq_waiting (cw_requests W)) (rq_woken (cw_requests W))
         (l1 ++ l2) (rq_replies (cw_requests W))))
| cs_return W c ck args reply :             (* the clerk takes an answer; other attempts leave it as it is *)
    cw_clerks W !! c = Some (ck, Some args) → (args, reply) ∈ rq_replies (cw_requests W) → WrongLeader reply = false →
    cstep W (mkCWorld (cw_rsm W) (<[c := (CtrlClerk.incr_seq ck, None)]> (cw_clerks W)) (cw_calls W) (cw_requests W)).

Definition cworld_init W : Prop :=
  rworld_init n (cw_rsm W) ∧ (∀ i sc, r_server (cw_rsm W) !! i = Some sc → sc = StartServer) ∧
  (∀ c ck o, cw_clerks W !! c = Some (ck, o) → o = None ∧ ∃ m, ck = CtrlClerk.MakeClerk m c) ∧
  cw_calls W = [] ∧ cw_requests W = mkCtrlRequests [] [] [] [] [].

Definition creach W : Prop := ∃ W0, cworld_init W0 ∧ rtc cstep W0 W.

(** ** The invariant *)
Notation hist := (RaftHistory.hist (C:=Op)).
Implicit Types (H : hist) (l : list ctrl_entry) (sc : server).
Context (Hn : 0 ≤ n).

Definition from_calls (calls : list CommandArgs) (c : option Op) : Prop :=
  ∃ args, c = Some (op_of_args args) ∧ args ∈ calls.

(** A clerk numbers its requests: two requests with the same number of the same
    clerk are one. *)
Record calls_ok (clerks : gmap Z (CtrlClerk.Clerk * option CommandArgs)) (calls : list CommandArgs) : Prop := {
  ck_valid : ∀ args, args ∈ calls → op_valid (op_of_args args) ∧ 1 ≤ ca_SeqNum args;
  ck_clerk : ∀ c ck o, clerks !! c = Some (ck, o) → CtrlClerk.clientID ck = c ∧ 1 ≤ CtrlClerk.seqNum ck ∧
    (∀ args, o = Some args → ca_SeqNum args = CtrlClerk.seqNum ck);
  ck_seq : ∀ args, args ∈ calls → ∃ ck o, clerks !! ca_ClientID args = Some (ck, o) ∧
    (ca_SeqNum args < CtrlClerk.seqNum ck ∨ o = Some args);
  ck_inj : ∀ a b, a ∈ calls → b ∈ calls → ca_SeqNum a = ca_SeqNum b → ca_ClientID a = ca_ClientID b → a = b
}.

(** A server has executed the entry of an operation, as far as its configurations
    tell. *)
Definition seen H sc (v : Op) : Prop :=
  ∃ e k w, entry_of n H k e ∧ Raft.le_Command e = Some v ∧ at_index n H k w ∧ w.1 `prefix_of` configs sc.

Definition in_channel sc (v : Op) : Prop := ∃ ch b, wr_heap (waitChan sc) !! ch = Some (mkChan (Some v) b).

Record server_good H sc : Prop := {
  sg_wait : wait_wf (waitChan sc);
  sg_at : ∃ k, at_index n H k (ctrl_view sc);
  sg_seen : ∀ v, in_channel sc v → seen H sc v
}.

(** What a step does to a server that stays up. *)
Record server_step H sc sc' : Prop := {
  ss_good : server_good H sc → server_good H sc';
  ss_configs : configs sc `prefix_of` configs sc';
  ss_room : room_step (waitChan sc) (waitChan sc')
}.

(** A request was answered from the state of a server that had executed it. *)
Definition answered l (args : CommandArgs) (reply : CommandReply) : Prop :=
  ∃ j e k, l !! j = Some e ∧ Raft.le_Command e = Some (op_of_args args) ∧ (k ≤ length l)%nat ∧
    (rsm_run (take (S j) l)).1 `prefix_of` (rsm_run (take k l)).1 ∧
    (ca_ArgsType args = QueryArgsType →
       getConfig (ctrl_with (rsm_run (take k l))) (ca_Num args) = Ret (rConfig reply)).

Definition reply_ok l (args : CommandArgs) (reply : CommandReply) : Prop :=
  WrongLeader reply = true ∨ (rErr reply = OK ∧ WrongLeader reply = false ∧ answered l args reply).

Definition at_server (R : rworld (C:=Op) (S:=server)) (i : Z) (P : server → Prop) : Prop :=
  ∃ sc, r_server R !! i = Some sc ∧ P sc.

Record requests_good H (R : rworld) (calls : list CommandArgs) l (q : ctrl_requests) : Prop := {
  rg_started : ∀ i args idx, (i, args, idx) ∈ rq_started q → args ∈ calls;
  rg_waiting : ∀ i args idx ch, (i, args, idx, ch) ∈ rq_waiting q → args ∈ calls ∧
    at_server R i (λ sc, filed (waitChan sc) idx ch);
  rg_woken : ∀ i args idx ch ev, (i, args, idx, ch, ev) ∈ rq_woken q → args ∈ calls ∧
    at_server R i (λ sc, filed (waitChan sc) idx ch ∧ ∀ v, ev = WReceived (RValue v) → seen H sc v);
  rg_finished : ∀ i idx ch, (i, idx, ch) ∈ rq_finished q → at_server R i (λ sc, filed (waitChan sc) idx ch);
  rg_replies : ∀ args reply, (args, reply) ∈ rq_replies q → reply_ok l args reply
}.

Record cinv W H (V : Z → list ctrl_entry) l : Prop := {
  ci_rsm : rinv n (cw_rsm W) H V;
  ci_log : ∃ T, safe_log n H T l;
  ci_commands : commands_in (from_calls (cw_calls W)) H;
  ci_calls : calls_ok (cw_clerks W) (cw_calls W);
  ci_servers : ∀ i sc, r_server (cw_rsm W) !! i = Some sc → server_good H sc;
  ci_requests : requests_good H (cw_rsm W) (cw_calls W) l (cw_requests W)
}.

(** *** Growing *)
Lemma seen_grows tm H H' sc v : grows tm H H' → seen H sc v → seen H' sc v.
Proof using Type.
  intros Hg (e & k & w & ? & ? & ? & ?). exists e, k, w.
  split_and!; [by eapply entry_of_grows|done|by eapply at_index_grows|done].
Qed.

Lemma seen_configs H sc sc' v : configs sc `prefix_of` configs sc' → seen H sc v → seen H sc' v.
Proof using Type. intros Hp (e & k & w & ? & ? & ? & ?). exists e, k, w. split_and!; [done..|by etrans]. Qed.

Lemma server_good_grows tm H H' sc : grows tm H H' → server_good H sc → server_good H' sc.
Proof using Type.
  intros Hg [Hw [k Hk] Hs]. split; [done|exists k; by eapply at_index_grows|].
  intros v Hv. eapply seen_grows; [done|by apply Hs].
Qed.

Lemma answered_extend l l' args reply : l `prefix_of` l' → answered l args reply → answered l' args reply.
Proof using Type.
  intros Hp (j & e & k & Hj & He & Hk & Hpre & Hq). exists j, e, k.
  pose proof (lookup_lt_Some _ _ _ Hj). pose proof (prefix_length _ _ Hp).
  rewrite !(prefix_take_le l l') in * by (done || lia).
  split_and!; [by eapply prefix_lookup_Some|done|lia|done|done].
Qed.

Lemma reply_extend l l' args reply : l `prefix_of` l' → reply_ok l args reply → reply_ok l' args reply.
Proof using Type.
  intros Hp [?|(? & ? & ?)]; [by left|right]. split_and!; [done..|]. by eapply answered_extend.
Qed.

(** The requests, as the history, the log and the servers go on. *)
Lemma requests_step tm H H' R R' calls calls' l l' q :
  grows tm H H' → l `prefix_of` l' → calls ⊆ calls' →
  (∀ i sc, r_server R !! i = Some sc → server_good H sc) →
  (∀ i sc, r_server R !! i = Some sc → ∃ sc', r_server R' !! i = Some sc' ∧ server_step H sc sc') →
  requests_good H R calls l q → requests_good H' R' calls' l' q.
Proof using Type.
  intros Hg Hl Hc Hgood Hst [H1 H2 H3 H4 H5].
  assert (∀ i idx ch, at_server R i (λ sc, filed (waitChan sc) idx ch) →
    at_server R' i (λ sc, filed (waitChan sc) idx ch)) as Hfiled.
  { intros i idx ch (sc & Hi & Hf). destruct (Hst i sc Hi) as (sc' & Hi' & [_ _ [_ Hr]]).
    exists sc'. split; [done|]. apply Hr; [|done]. by apply (sg_wait H), (Hgood i). }
  split.
  - intros i args idx Hin. by eapply Hc, H1.
  - intros i args idx ch [? ?]%H2. split; [by apply Hc|by apply Hfiled].
  - intros i args idx ch ev [? (sc & Hi & Hf & Hv)]%H3. split; [by apply Hc|].
    destruct (Hst i sc Hi) as (sc' & Hi' & [_ Hcf [_ Hr]]). exists sc'. split_and!; [done|..].
    + apply Hr; [|done]. by apply (sg_wait H), (Hgood i).
    + intros v ?%Hv. eapply seen_grows; [done|]. by eapply seen_configs.
  - intros i idx ch ?%H4. by apply Hfiled.
  - intros args reply ?%H5. by eapply reply_extend.
Qed.

(** *** Servers *)
Lemma log_ok clerks calls H T p :
  calls_ok clerks calls → commands_in (from_calls calls) H → safe_log n H T p → Forall entry_ok p.
Proof using Type.
  intros Hc Hcmd Hs. apply Forall_forall. intros e He.
  destruct (safe_commands n H T p _ Hs Hcmd e He) as (args & Hop & Hin). exists (op_of_args args). split; [done|].
  by apply (ck_valid _ _ Hc).
Qed.

Lemma state_at clerks calls H k w :
  calls_ok clerks calls → commands_in (from_calls calls) H → at_index n H k w → state_ok w.
Proof using Type. intros Hc Hcmd (p & T & Hp & _ & ->). eapply run_ok, log_ok; [done..|exact Hp]. Qed.

Lemma server_step_refl H sc : server_step H sc sc.
Proof using Type. split; [done|done|apply room_step_refl]. Qed.

(** A handler changes the channels only. *)
Lemma handler_step H sc sc' :
  ctrl_view sc' = ctrl_view sc → (∀ v, in_channel sc' v → in_channel sc v) →
  room_step (waitChan sc) (waitChan sc') → server_step H sc sc'.
Proof using Type.
  intros Hv Hin Hr. assert (configs sc' = configs sc) as Hc by (unfold ctrl_view in Hv; congruence).
  split; [|by rewrite Hc|done]. intros [Hw Ha Hs]. split; [by apply Hr|by rewrite Hv|].
  intros v Hx%Hin%Hs. eapply seen_configs; [|done]. by rewrite Hc.
Qed.

(** The applier executes an entry. *)
Lemma apply_step clerks calls tm H sc e k sc' :
  calls_ok clerks calls → commands_in (from_calls calls) H → history_ok n tm H →
  entry_of n H k e → at_index n H (k - 1) (ctrl_view sc) →
  applyHandler sc (command_msg (Raft.le_Command e) k) = Ret sc' → server_step H sc sc'.
Proof using Hn.
  intros Hc Hcmd Ho He Hat Hr. pose proof (state_at _ _ _ _ _ Hc Hcmd Hat) as Hok.
  assert (∃ args, Raft.le_Command e = Some (op_of_args args) ∧ args ∈ calls) as (args & Hop & Hin).
  { destruct He as (p & T & Hp & _ & Hk). apply (safe_commands n H T p _ Hp Hcmd). by eapply list_elem_of_lookup_2. }
  pose proof (exec_view _ _ _ _ Hr) as Hv.
  assert (configs sc `prefix_of` configs sc') as Hpre.
  { change (configs sc') with (ctrl_view sc').1. rewrite <- Hv, Hop.
    apply (exec_ok (ctrl_view sc) (Some (op_of_args args)) Hok). by apply (ck_valid _ _ Hc). }
  assert (at_index n H k (ctrl_view sc')) as Hat'.
  { rewrite <- Hv. replace k with (k - 1 + 1) in He |- * by lia. exact (at_index_step n Hn tm H (k - 1) (ctrl_view sc) e Ho Hat He). }
  split; [|done|by eapply applyHandler_room]. intros [Hw _ Hs].
  split; [by eapply applyHandler_room|by exists k|]. intros v (ch & b & Hb).
  destruct (applyHandler_notify _ _ _ Hr) as [[[=] _]|Hnot].
  destruct (wait_notify_buffer _ _ _ _ _ _ _ Hnot Hb) as [[b' ?]| ->].
  - eapply seen_configs; [done|]. apply Hs. by exists ch, b'.
  - simpl. rewrite Hop. simpl. by exists e, k, (ctrl_view sc').
Qed.

Lemma rstep_servers clerks calls R R' H V :
  calls_ok clerks calls → commands_in (from_calls calls) H → rinv n R H V → rstep n R R' →
  (∀ i sc, r_server R !! i = Some sc → ∃ sc', r_server R' !! i = Some sc' ∧ server_step H sc sc') ∧
  (∀ i sc', r_server R' !! i = Some sc' → ∃ sc, r_server R !! i = Some sc).
Proof using Hn.
  intros Hc Hcmd Hinv Hstep.
  assert (∀ j s s', r_server R !! j = Some s → server_step H s s' →
    (∀ i sc, r_server R !! i = Some sc → ∃ sc', <[j := s']> (r_server R) !! i = Some sc' ∧ server_step H sc sc') ∧
    (∀ i sc', <[j := s']> (r_server R) !! i = Some sc' → ∃ sc, r_server R !! i = Some sc)) as Hone.
  { intros j s s' Hj Hst. split; intros i sc.
    - intros Hi. destruct (decide (j = i)) as [<-|Hne].
      + rewrite lookup_insert_eq. exists s'. split; [done|]. congruence.
      + rewrite lookup_insert_ne by done. exists sc. split; [done|apply server_step_refl].
    - intros [[<- _]|[_ ?]]%lookup_insert_Some; eauto. }
  destruct Hstep as [R G' Hp|R i rf msgs c Hi Hb Ht|R i rf s m ms c rf' s' Hi Hs Hb Hr|R i rf c Hi Hb|
    R i rf s lit lii data rf' s' Hin Hi Hs Hr|R i rf Hi]; simpl;
    try (split; [intros j sc Hj; exists sc; split; [done|apply server_step_refl]|by eauto]).
  - apply (Hone i s); [done|]. cbn [rp_handler ctrl_replica] in Hr. unfold ctrl_handler in Hr. inv_bind Hr. injection Hr as _ <-.
    destruct (next_message n _ _ _ _ _ _ _ _ _ Hinv Hi Hs Hb) as (e & k & -> & He & _ & _ & Hex & _).
    assert (1 ≤ k) by (by destruct He as (? & ? & _ & ? & _)). destruct Hex as [Hat _]; [simpl; lia|].
    eapply apply_step; [done|done|apply (ri_group _ _ _ _ Hinv)|done..].
  - apply (Hone i s); [done|]. cbn [rp_handler ctrl_replica] in Hr. injection Hr as _ <-. apply server_step_refl.
Qed.

(** *** Steps *)

(** A step that keeps the servers up. *)
Lemma cinv_next W W' H H' V V' l tm :
  cinv W H V l → rinv n (cw_rsm W') H' V' → grows tm H H' →
  commands_in (from_calls (cw_calls W')) H' → calls_ok (cw_clerks W') (cw_calls W') → cw_calls W ⊆ cw_calls W' →
  (∀ i sc, r_server (cw_rsm W) !! i = Some sc →
     ∃ sc', r_server (cw_rsm W') !! i = Some sc' ∧ server_step H sc sc') →
  (∀ i sc', r_server (cw_rsm W') !! i = Some sc' → ∃ sc, r_server (cw_rsm W) !! i = Some sc) →
  (requests_good H' (cw_rsm W') (cw_calls W') l (cw_requests W) →
     requests_good H' (cw_rsm W') (cw_calls W') l (cw_requests W')) →
  cinv W' H' V' l.
Proof using Type.
  intros [Hr [T Hl] Hcm Hc Hs Hq] Hr' Hg Hcm' Hc' Hsub Hst Hdom Hq'. split; try done.
  - exists T. by eapply safe_grows.
  - intros i sc' Hi'. destruct (Hdom i sc' Hi') as [sc Hi]. destruct (Hst i sc Hi) as (sc1 & Hi1 & Hst1).
    assert (sc1 = sc') as -> by congruence. eapply server_good_grows; [done|]. apply Hst1, (Hs i sc Hi).
  - apply Hq'. by eapply requests_step.
Qed.

(** A step of a handler on one server. *)
Lemma cinv_handler W H V l i sc sc' q' :
  cinv W H V l → r_server (cw_rsm W) !! i = Some sc → server_step H sc sc' → ctrl_view sc' = ctrl_view sc →
  (requests_good H (ctrl_server (cw_rsm W) i sc') (cw_calls W) l (cw_requests W) →
     requests_good H (ctrl_server (cw_rsm W) i sc') (cw_calls W) l q') →
  cinv (ctrl_requests_set W (ctrl_server (cw_rsm W) i sc') q') H V l.
Proof using Type.
  intros Hinv Hi Hst Hv Hq. pose proof Hinv as [Hr Hl Hcm Hc Hs Hreq].
  eapply (cinv_next W _ H H V V l (λ _, 0)); try done; simpl.
  - eapply rinv_local; [done|done| |done|done]. simpl. exact (sg_wait _ _ (ss_good _ _ _ Hst (Hs i sc Hi))).
  - apply grows_refl.
  - intros j scj Hj. destruct (decide (i = j)) as [<-|Hne].
    + rewrite lookup_insert_eq. exists sc'. split; [done|]. congruence.
    + rewrite lookup_insert_ne by done. exists scj. split; [done|apply server_step_refl].
  - intros j scj [[<- _]|[_ ?]]%lookup_insert_Some; eauto.
Qed.

(** A step that changes the requests only. *)
Lemma cinv_quiet W H V l q' :
  cinv W H V l → (requests_good H (cw_rsm W) (cw_calls W) l (cw_requests W) →
    requests_good H (cw_rsm W) (cw_calls W) l q') → cinv (ctrl_requests_set W (cw_rsm W) q') H V l.
Proof using Type. intros [Hr Hl Hcm Hc Hs Hreq] Hq. split; try done. by apply Hq. Qed.

Lemma cinv_extend W H V l l' T : cinv W H V l → safe_log n H T l' → l `prefix_of` l' → cinv W H V l'.
Proof using Type.
  intros [Hr Hl Hcm Hc Hs Hreq] Hl' Hp. split; try done; [by exists T|].
  eapply (requests_step (λ _, 0) H H (cw_rsm W)); [apply grows_refl|done|done|done| |done].
  intros i sc Hi. exists sc. split; [done|apply server_step_refl].
Qed.

(** The log goes on to contain any other committed log. *)
Lemma cinv_include W H V l T p :
  cinv W H V l → safe_log n H T p → ∃ l', cinv W H V l' ∧ l `prefix_of` l' ∧ p `prefix_of` l'.
Proof using Hn.
  intros Hinv Hp. destruct (ci_log _ _ _ _ Hinv) as [T0 Hl].
  destruct (safe_comparable n Hn _ H _ _ _ _ (gi_hist _ _ _ _ (ri_group _ _ _ _ (ci_rsm _ _ _ _ Hinv))) Hp Hl) as [?|?].
  - by exists l.
  - exists p. split_and!; [by eapply cinv_extend|done..].
Qed.

Lemma requests_reply H R calls l q args reply :
  reply_ok l args reply → requests_good H R calls l q → requests_good H R calls l (ctrl_reply (args, reply) q).
Proof using Type.
  intros Hr [H1 H2 H3 H4 H5]. split; try done. simpl. intros a r [[= -> ->]|?]%elem_of_cons; [done|by apply H5].
Qed.

Lemma cinv_call W H V l c ck r :
  cinv W H V l → cw_clerks W !! c = Some (ck, None) → call_ok r →
  cinv (mkCWorld (cw_rsm W) (<[c := (ck, Some (call_args ck r))]> (cw_clerks W))
      (call_args ck r :: cw_calls W) (cw_requests W)) H V l.
Proof using Type.
  intros Hinv Hck Hok. pose proof Hinv as [Hr Hl Hcm Hc Hs Hreq].
  destruct Hc as [C1 C2 C3 C4]. destruct (C2 c ck None Hck) as (Hid & Hseq & _).
  assert (ca_SeqNum (call_args ck r) = CtrlClerk.seqNum ck) as Hsn by by destruct r.
  assert (ca_ClientID (call_args ck r) = c) as Hcl by by rewrite <- Hid; destruct r.
  assert (∀ a, a ∈ cw_calls W → ca_ClientID a = c → ca_SeqNum a < CtrlClerk.seqNum ck) as Hold.
  { intros a Ha Hac. destruct (C3 a Ha) as (ck' & o & Hck' & [?|?]); rewrite Hac in Hck'; congruence. }
  eapply (cinv_next W _ H H V V l (λ _, 0)); try done; simpl; [apply grows_refl|..].
  - intros T L e HL He. destruct (Hcm T L e HL He) as (a & ? & ?). exists a. split; [done|by right].
  - split.
    + intros a [->|?]%elem_of_cons; [|by apply C1]. split; [|lia]. by destruct r; split.
    + intros c' ck' o [[<- [= <- <-]]|[_ ?]]%lookup_insert_Some; [|by eapply C2]. split_and!; [done..|]. by intros a [= <-].
    + intros a [->|Ha]%elem_of_cons.
      * rewrite Hcl, lookup_insert_eq. eexists _, _. split; [done|by right].
      * destruct (decide (c = ca_ClientID a)) as [Heq|Hne].
        -- rewrite <- Heq, lookup_insert_eq. eexists _, _. split; [done|]. left. by apply Hold.
        -- rewrite lookup_insert_ne by done. by apply C3.
    + intros a b [->|Ha]%elem_of_cons [->|Hb]%elem_of_cons Heq Hceq; [done|..|by apply C4].
      * specialize (Hold b Hb). rewrite <- Hceq in Hold. specialize (Hold Hcl). lia.
      * specialize (Hold a Ha). rewrite Hceq in Hold. specialize (Hold Hcl). lia.
  - by intros a Ha; right.
  - intros i sc Hi. exists sc. split; [done|apply server_step_refl].
  - eauto.
Qed.

Lemma cinv_return W H V l c ck args :
  cinv W H V l → cw_clerks W !! c = Some (ck, Some args) →
  cinv (mkCWorld (cw_rsm W) (<[c := (CtrlClerk.incr_seq ck, None)]> (cw_clerks W)) (cw_calls W) (cw_requests W)) H V l.
Proof using Type.
  intros [Hr Hl Hcm [C1 C2 C3 C4] Hs Hreq] Hck. split; try done. simpl.
  destruct (C2 c ck (Some args) Hck) as (Hid & Hseq & Hargs). specialize (Hargs args eq_refl). split; [done|..|done].
  - intros c' ck' o [[<- [= <- <-]]|[_ ?]]%lookup_insert_Some; [|by eapply C2]. split_and!; [done|simpl; lia|done].
  - intros a Ha. destruct (C3 a Ha) as (ck' & o & Hck' & Hor). destruct (decide (c = ca_ClientID a)) as [Heq|Hne].
    + rewrite <- Heq in *. rewrite lookup_insert_eq. eexists _, _. split; [done|]. left. simpl.
      rewrite Hck in Hck'. injection Hck' as <- <-. destruct Hor as [?|[= <-]]; lia.
    + rewrite lookup_insert_ne by done. eauto.
Qed.

Lemma cinv_system W R' H V l :
  cinv W H V l → rstep n (cw_rsm W) R' → ∃ H' V', cinv (ctrl_requests_set W R' (cw_requests W)) H' V' l.
Proof using Hn.
  intros Hinv Hstep. pose proof Hinv as [Hr Hl Hcm Hc Hs Hreq].
  destruct (rstep_inv n Hn _ _ _ _ Hr (λ _ _ _, I) Hstep) as (H' & V' & Hr' & [Hg Hcmd]). exists H', V'.
  destruct (rstep_servers _ _ _ _ _ _ Hc Hcm Hr Hstep) as [Hst Hdom].
  eapply (cinv_next W _ H H' V V' l); try done. by apply Hcmd.
Qed.

Lemma requests_drop H R R' calls l i q :
  (∀ j, j ≠ i → r_server R' !! j = r_server R !! j) →
  requests_good H R calls l q → requests_good H R' calls l (ctrl_drop i q).
Proof using Type.
  intros Hsame [H1 H2 H3 H4 H5].
  assert (∀ j P, j ≠ i → at_server R j P → at_server R' j P) as Hat.
  { intros j P Hj (sc & Hsc & ?). exists sc. by rewrite Hsame. }
  split; simpl; [..|done].
  - intros j args idx [_ ?]%list_elem_of_filter. by eapply H1.
  - intros j args idx ch [Hj [? ?]%H2]%list_elem_of_filter. split; [done|by apply Hat].
  - intros j args idx ch ev [Hj [? ?]%H3]%list_elem_of_filter. split; [done|by apply Hat].
  - intros j idx ch [Hj ?%H4]%list_elem_of_filter. by apply Hat.
Qed.

Lemma cinv_crash W H V l i rf now :
  cinv W H V l → g_peer (r_group (cw_rsm W)) !! i = Some rf →
  ∃ V', cinv (ctrl_requests_set W
      (mkRWorld (set_peer (r_group (cw_rsm W)) i (Raft.Make n i (Raft.persister rf) now))
         (<[i := StartServer]> (r_server (cw_rsm W))) (delete i (r_batch (cw_rsm W))))
      (ctrl_drop i (cw_requests W))) H V' l.
Proof using Type.
  intros [Hr Hl Hcm Hc Hs Hreq] Hi.
  destruct (rinv_crash n _ _ _ _ _ StartServer now Hr Hi eq_refl) as [V' Hr']. exists V'. split; try done; simpl.
  - intros j sc [[<- <-]|[_ ?]]%lookup_insert_Some; [|by eapply Hs]. split; [apply wait_wf_empty| |].
    + exists 0. exact (at_index_init n H).
    + by intros v (ch & b & ?).
  - eapply requests_drop; [|done]. intros j Hj. simpl. by rewrite lookup_insert_ne.
Qed.

Lemma cinv_start W H V l i rf args rf' r q' :
  cinv W H V l → args ∈ cw_calls W → g_peer (r_group (cw_rsm W)) !! i = Some rf →
  Raft.Start rf (op_of_args args) = Ret (rf', r) →
  (∀ H' R', requests_good H' R' (cw_calls W) l (cw_requests W) → requests_good H' R' (cw_calls W) l q') →
  ∃ H' V', cinv (ctrl_requests_set W
    (mkRWorld (set_peer (r_group (cw_rsm W)) i rf') (r_server (cw_rsm W)) (r_batch (cw_rsm W))) q') H' V' l.
Proof using Hn.
  intros Hinv Ha Hi Hst Hq. pose proof Hinv as [Hr Hl Hcm Hc Hs Hreq].
  destruct (rinv_start n Hn _ _ _ _ _ _ _ _ Hr Hi Hst) as (H' & V' & Hr' & [Hg Hcmd]). exists H', V'.
  eapply (cinv_next W _ H H' V V' l); try done; simpl.
  - apply (Hcmd (from_calls _)); [|done]. intros c ->. by exists args.
  - intros j sc Hj. exists sc. split; [done|apply server_step_refl].
  - eauto.
  - apply Hq.
Qed.

Lemma cinv_wait W H V l q1 q2 i args idx sc sc' ch :
  cinv W H V l → rq_started (cw_requests W) = q1 ++ (i, args, idx) :: q2 → r_server (cw_rsm W) !! i = Some sc →
  getWaitCh sc idx = (sc', ch) →
  cinv (ctrl_requests_set W (ctrl_server (cw_rsm W) i sc')
    (mkCtrlRequests (q1 ++ q2) ((i, args, idx, ch) :: rq_waiting (cw_requests W)) (rq_woken (cw_requests W))
       (rq_finished (cw_requests W)) (rq_replies (cw_requests W)))) H V l.
Proof using Type.
  intros Hinv Hw Hi Hg. unfold getWaitCh in Hg. pose proof (room_step_get (waitChan sc) idx) as Hroom.
  pose proof (wait_get_filed (waitChan sc) idx (sg_wait _ _ (ci_servers _ _ _ _ Hinv i sc Hi))) as Hf.
  destruct (wait_get (waitChan sc) idx) as [w c] eqn:Hwg. injection Hg as <- <-.
  eapply cinv_handler; [done|done| |done|].
  - apply handler_step; [done| |done]. intros v (ch & b & Hb). exists ch, b. unfold wait_get in Hwg. simpl in Hb.
    destruct (wr_map (waitChan sc) !! idx); injection Hwg as <- <-; [done|]. simpl in Hb.
    by apply lookup_insert_Some in Hb as [[_ [=]]|[_ ?]].
  - intros [H1 H2 H3 H4 H5]. rewrite Hw in H1. split; simpl; try done.
    + intros j a k Hin. by apply (H1 j a k), elem_of_middle.
    + intros j a k d [[= -> -> -> ->]|?]%elem_of_cons; [|by eapply H2]. split; [apply (H1 i args idx), elem_of_here|].
      eexists. split; [apply lookup_insert_eq|done].
Qed.

(** A request that waits is woken. *)
Lemma requests_woken H R calls l q1 q2 i args idx ch ev q :
  rq_waiting q = q1 ++ (i, args, idx, ch) :: q2 →
  at_server R i (λ sc, ∀ v, ev = WReceived (RValue v) → seen H sc v) →
  requests_good H R calls l q →
  requests_good H R calls l (mkCtrlRequests (rq_started q) (q1 ++ q2) ((i, args, idx, ch, ev) :: rq_woken q)
    (rq_finished q) (rq_replies q)).
Proof using Type.
  intros Hw (sc & Hi & Hv) [H1 H2 H3 H4 H5]. rewrite Hw in H2. split; simpl; try done.
  - intros j a k d Hin. by eapply H2, elem_of_middle.
  - intros j a k d e [[= -> -> -> -> ->]|?]%elem_of_cons; [|by eapply H3].
    destruct (H2 i args idx ch (elem_of_here _ _ _)) as [? (sc0 & Hi0 & ?)]. split; [done|].
    assert (sc0 = sc) as -> by congruence. by exists sc.
Qed.

Lemma cinv_receive W H V l q1 q2 i args idx ch sc w v :
  cinv W H V l → rq_waiting (cw_requests W) = q1 ++ (i, args, idx, ch) :: q2 → r_server (cw_rsm W) !! i = Some sc →
  chan_recv (waitChan sc) ch = (w, v) →
  cinv (ctrl_requests_set W (ctrl_server (cw_rsm W) i (set_waitChan sc w))
    (mkCtrlRequests (rq_started (cw_requests W)) (q1 ++ q2) ((i, args, idx, ch, WReceived v) :: rq_woken (cw_requests W))
       (rq_finished (cw_requests W)) (rq_replies (cw_requests W)))) H V l.
Proof using Type.
  intros Hinv Hw Hi Hre. pose proof (room_step_recv _ _ _ _ Hre) as Hroom.
  assert (∀ x, v = RValue x → in_channel sc x) as Hv.
  { intros x ->. unfold chan_recv in Hre. destruct (wr_heap (waitChan sc) !! ch) as [[[y|] b]|] eqn:Hch; simpl in Hre.
    - injection Hre as _ <-. by exists ch, b.
    - by destruct b.
    - done. }
  eapply cinv_handler; [done|done| |done|].
  - apply handler_step; [done| |done]. intros x (ch' & b' & Hb). unfold chan_recv in Hre. simpl in Hb.
    destruct (wr_heap (waitChan sc) !! ch) as [[[y|] b]|] eqn:Hch; simpl in Hre; injection Hre as <- <-;
      [|by exists ch', b'..]. simpl in Hb. apply lookup_insert_Some in Hb as [[_ [=]]|[_ ?]]. by exists ch', b'.
  - apply requests_woken; [done|]. eexists. split; [apply lookup_insert_eq|]. intros x [= ->].
    apply (seen_configs H sc); [done|]. apply (sg_seen H sc); [by apply (ci_servers _ _ _ _ Hinv i)|by apply Hv].
Qed.

Lemma cinv_timeout W H V l q1 q2 i args idx ch :
  cinv W H V l → rq_waiting (cw_requests W) = q1 ++ (i, args, idx, ch) :: q2 →
  cinv (ctrl_requests_set W (cw_rsm W)
    (mkCtrlRequests (rq_started (cw_requests W)) (q1 ++ q2) ((i, args, idx, ch, WTimeout) :: rq_woken (cw_requests W))
       (rq_finished (cw_requests W)) (rq_replies (cw_requests W)))) H V l.
Proof using Type.
  intros Hinv Hw. apply cinv_quiet; [done|]. intros Hq.
  destruct (rg_waiting _ _ _ _ _ Hq i args idx ch) as [_ (sc & Hi & _)]; [rewrite Hw; apply elem_of_here|].
  apply requests_woken; [done| |done]. by exists sc.
Qed.

Lemma cinv_cleanup W H V l q1 q2 i idx ch sc sc' :
  cinv W H V l → rq_finished (cw_requests W) = q1 ++ (i, idx, ch) :: q2 → r_server (cw_rsm W) !! i = Some sc →
  request_cleanup sc idx ch = Ret sc' →
  cinv (ctrl_requests_set W (ctrl_server (cw_rsm W) i sc')
    (mkCtrlRequests (rq_started (cw_requests W)) (rq_waiting (cw_requests W)) (rq_woken (cw_requests W))
       (q1 ++ q2) (rq_replies (cw_requests W)))) H V l.
Proof using Type.
  intros Hinv Hf Hi Hcl. unfold request_cleanup in Hcl. inv_bind Hcl. injection Hcl as <-.
  destruct (rg_finished _ _ _ _ _ (ci_requests _ _ _ _ Hinv) i idx ch) as (sc0 & Hi0 & Hfd);
    [rewrite Hf; apply elem_of_here|]. assert (sc0 = sc) as -> by congruence.
  eapply cinv_handler; [done|done| |done|].
  - apply handler_step; [done| |by eapply room_step_release]. intros v (ch' & b' & Hb'). simpl in Hb'.
    unfold wait_release in Hb. destruct (wr_heap (waitChan sc) !! ch) as [[o cl]|] eqn:Hch.
    + simpl in Hb. destruct cl; [done|]. injection Hb as <-. simpl in Hb'.
      apply lookup_insert_Some in Hb' as [[<- [= -> <-]]|[_ ?]]; [by exists ch, false|by exists ch', b'].
    + injection Hb as <-. by exists ch', b'.
  - intros [H1 H2 H3 H4 H5]. rewrite Hf in H4. split; simpl; try done. intros j k d Hin. by eapply H4, elem_of_middle.
Qed.

Lemma getConfig_elem sc num c : getConfig sc num = Ret c → c ∈ configs sc.
Proof using Type.
  unfold getConfig. intros Hg. inv_bind Hg. apply index_Ret in Hb as [_ Hb%list_elem_of_lookup_2].
  case_test_in Hg; [by injection Hg as <-|]. by apply index_Ret in Hg as [_ ?%list_elem_of_lookup_2].
Qed.

(** What a reply says of the server that gave it. *)
Lemma request_end_cases sc args ev reply :
  (∀ c, c ∈ configs sc → length (Shards c) = Z.to_nat NShards) →
  request_end sc args zeroReply ev = Ret reply →
  WrongLeader reply = true ∨ ∃ v, ev = WReceived (RValue v) ∧ SeqNum v = ca_SeqNum args ∧
    ClientID v = ca_ClientID args ∧ rErr reply = OK ∧ WrongLeader reply = false ∧
    (ArgsType v = QueryArgsType → getConfig sc (ca_Num args) = Ret (rConfig reply)).
Proof using Type.
  intros Hlen Hr. unfold request_end in Hr. destruct ev as [|[|v|]]; try (injection Hr as <-; by left).
  case_test_in Hr; [|injection Hr as <-; by left]. right. exists v.
  case_test_in Hr; [|rewrite bind_Ret in Hr; injection Hr as <-; split_and!; [done|lia|lia|done|done|lia]].
  inv_bind Hr. injection Hr as <-. do 2 inv_bind Hb. injection Hb as <-.
  rewrite GetShardsCopy_id in Hb1 by (by eapply Hlen, getConfig_elem). injection Hb1 as <-.
  simpl. rewrite GetGroupMapCopy_id. split_and!; [done|lia|lia|done|done|]. intros _. rewrite Hb0. by destruct x0.
Qed.

(** The answer to a request follows from a log that contains what the server had
    executed. *)
Lemma answered_at W H V l args reply sc v k :
  cinv W H V l → args ∈ cw_calls W → seen H sc v → SeqNum v = ca_SeqNum args → ClientID v = ca_ClientID args →
  at_index n H k (ctrl_view sc) →
  (ArgsType v = QueryArgsType → getConfig sc (ca_Num args) = Ret (rConfig reply)) →
  ∃ l', cinv W H V l' ∧ l `prefix_of` l' ∧ answered l' args reply.
Proof using Hn.
  intros Hinv Ha (e & k1 & w & (p1 & T1 & Hp1 & Hk1 & He) & Hv & (p2 & T2 & Hp2 & Hlen2 & ->) & Hpre) Hsn Hcl
    (p3 & T3 & Hp3 & Hlen3 & Hview) Hq.
  assert (v = op_of_args args) as ->.
  { destruct (safe_commands n H T1 p1 _ Hp1 (ci_commands _ _ _ _ Hinv) e) as (a & Hop & Hin);
      [by eapply list_elem_of_lookup_2|]. rewrite Hv in Hop. injection Hop as ->.
    f_equal. by apply (ck_inj _ _ (ci_calls _ _ _ _ Hinv)). }
  destruct (cinv_include _ _ _ _ _ _ Hinv Hp1) as (l1 & Hinv1 & Hl1 & P1).
  destruct (cinv_include _ _ _ _ _ _ Hinv1 Hp2) as (l2 & Hinv2 & Hl2 & P2).
  destruct (cinv_include _ _ _ _ _ _ Hinv2 Hp3) as (l3 & Hinv3 & Hl3 & P3).
  exists l3. split; [done|]. split; [by etrans; [|etrans]|].
  assert (∀ p : list ctrl_entry, p `prefix_of` l3 → take (length p) l3 = p) as Htake.
  { intros p [r ->]. by rewrite take_app_length. }
  assert (S (Z.to_nat (k1 - 1)) = length p2) as Hj by (unfold zlen in Hlen2; lia).
  exists (Z.to_nat (k1 - 1)), e, (length p3). rewrite Hj, (Htake p2), (Htake p3) by (done || by etrans).
  split_and!; [|done|by apply prefix_length| |].
  - eapply prefix_lookup_Some; [exact He|]. by etrans; [|etrans].
  - by rewrite <- Hview.
  - intros Hquery. rewrite <- Hview. rewrite <- Hq by done. unfold getConfig. done.
Qed.

Lemma cinv_answer W H V l q1 q2 i args idx ch ev sc reply :
  cinv W H V l → rq_woken (cw_requests W) = q1 ++ (i, args, idx, ch, ev) :: q2 → r_server (cw_rsm W) !! i = Some sc →
  request_end sc args zeroReply ev = Ret reply →
  ∃ l', l `prefix_of` l' ∧ cinv (ctrl_requests_set W (cw_rsm W)
    (mkCtrlRequests (rq_started (cw_requests W)) (rq_waiting (cw_requests W)) (q1 ++ q2)
       ((i, idx, ch) :: rq_finished (cw_requests W)) ((args, reply) :: rq_replies (cw_requests W)))) H V l'.
Proof using Hn.
  intros Hinv Hw Hi Hr. pose proof (ci_servers _ _ _ _ Hinv i sc Hi) as [_ [k Hat] _].
  pose proof (state_at _ _ _ _ _ (ci_calls _ _ _ _ Hinv) (ci_commands _ _ _ _ Hinv) Hat) as [Hwf _].
  destruct (rg_woken _ _ _ _ _ (ci_requests _ _ _ _ Hinv) i args idx ch ev) as [Ha (sc0 & Hi0 & Hf & Hseen)];
    [rewrite Hw; apply elem_of_here|]. assert (sc0 = sc) as -> by congruence.
  assert (∃ l', cinv W H V l' ∧ l `prefix_of` l' ∧ reply_ok l' args reply) as (l' & Hinv' & Hp & Hok).
  { destruct (request_end_cases sc args ev reply) as [?|(v & -> & ? & ? & ? & ? & ?)]; [|done| |].
    - intros c [j Hj]%list_elem_of_lookup. by destruct (cw_configs _ Hwf j c Hj).
    - exists l. split_and!; [done..|by left].
    - destruct (answered_at W H V l args reply sc v k) as (l' & ? & ? & ?); [by auto..|]. exists l'. split_and!; [done..|by right]. }
  exists l'. split; [done|]. apply cinv_quiet; [done|]. intros [H1 H2 H3 H4 H5]. rewrite Hw in H3. split; simpl; try done.
  - intros j a x d e Hin. by eapply H3, elem_of_middle.
  - intros j x d [[= -> -> ->]|?]%elem_of_cons; [|by eapply H4]. by exists sc.
  - intros a r [[= -> ->]|?]%elem_of_cons; [done|by apply H5].
Qed.

Lemma cstep_inv W W' H V l :
  cinv W H V l → cstep W W' → ∃ H' V' l', cinv W' H' V' l' ∧ l `prefix_of` l'.
Proof using Hn.
  intros Hinv Hstep.
  destruct Hstep as [W R' Hst|W i rf now Hi|W c ck r Hc Hok|W i rf args Ha Hi Hf|W i rf args rf' idx t lead Ha Hi Hs|
    W q1 q2 i args idx sc sc' ch Hw Hi Hg|W q1 q2 i args idx ch sc w v Hw Hi Hre Hv|W q1 q2 i args idx ch Hw|
    W q1 q2 i args idx ch ev sc reply Hw Hi Hr|W q1 q2 i idx ch sc sc' Hf Hi Hcl|W c ck args reply Hc Hin Hok].
  - destruct (cinv_system _ _ _ _ _ Hinv Hst) as (H' & V' & ?). by exists H', V', l.
  - destruct (cinv_crash _ _ _ _ _ _ now Hinv Hi) as (V' & ?). by exists H, V', l.
  - exists H, V, l. split; [by apply cinv_call|done].
  - exists H, V, l. split; [|done]. apply cinv_quiet; [done|]. apply requests_reply. by left.
  - edestruct (cinv_start W H V l i rf args rf') as (H' & V' & ?); [done..| |exists H', V', l; split; [done|done]].
    intros H' R' Hq. destruct lead; [|apply requests_reply; [by left|done]]. destruct Hq as [H1 H2 H3 H4 H5].
    split; simpl; try done. intros j a k [[= -> -> ->]|?]%elem_of_cons; [done|by eapply H1].
  - exists H, V, l. split; [by eapply cinv_wait|done].
  - exists H, V, l. split; [by eapply cinv_receive|done].
  - exists H, V, l. split; [by apply cinv_timeout|done].
  - destruct (cinv_answer _ _ _ _ _ _ _ _ _ _ _ _ _ Hinv Hw Hi Hr) as (l' & ? & ?). by exists H, V, l'.
  - exists H, V, l. split; [by eapply cinv_cleanup|done].
  - exists H, V, l. split; [by eapply cinv_return|done].
Qed.

Lemma csteps_inv W W' H V l :
  cinv W H V l → rtc cstep W W' → ∃ H' V' l', cinv W' H' V' l' ∧ l `prefix_of` l'.
Proof using Hn.
  intros Hinv Hsteps. apply rtc_nsteps in Hsteps as [m Hsteps]. revert H V l Hinv.
  induction Hsteps as [W|m W0 W1 W2 Hst _ IH]; intros H V l Hinv; [by exists H, V, l|].
  destruct (cstep_inv _ _ _ _ _ Hinv Hst) as (H1 & V1 & l1 & Hinv1 & Hp).
  destruct (IH _ _ _ Hinv1) as (H2 & V2 & l2 & ? & ?). exists H2, V2, l2. split; [done|by etrans].
Qed.

Lemma cworld_init_inv W : cworld_init W → cinv W (mkHist ∅ ∅) (λ _, []) [].
Proof using Type.
  intros (Hi & Hst & Hcl & Hca & Hq). split.
  - by apply rworld_init_inv.
  - exists 0. by left.
  - by intros T L e HL.
  - rewrite Hca. split; [by intros ? ?%elem_of_nil| |by intros ? ?%elem_of_nil|by intros ? ? ?%elem_of_nil].
    intros c ck o [-> [m ->]]%Hcl. by split_and!.
  - intros i sc ->%Hst. split; [apply wait_wf_empty|exists 0; exact (at_index_init n _)|by intros v (ch & b & ?)].
  - rewrite Hq. split; simpl; [by intros ? ? ? ?%elem_of_nil|by intros ? ? ? ? ?%elem_of_nil|
      by intros ? ? ? ? ? ?%elem_of_nil|by intros ? ? ? ?%elem_of_nil|by intros ? ? ?%elem_of_nil].
Qed.
End world.
