(* ===== verification/CtrlService.v ===== *)
(** * The correctness of the shard controller service

    [cexec] executes one chosen step of [CtrlGroup.cstep]; the sample run elects a
    leader of three servers, on which a clerk joins three groups and another asks for
    the latest configuration.  The theorems: all servers and all answers agree on
    one sequence of configurations, which is what the sharded store relies on
    ([Controller]), and a query sees what was answered before it was made. *)

From S2P Require Import Prelude Persister Chan RaftApi Raft RaftLog RaftAppend RaftSteps RaftSpec RaftOps RaftElection RaftHistory RaftRep RaftGroup RaftGroupSteps RaftGroupRun RaftSafety Rsm RsmRun Codecs.
From S2P Require Import ShardConfig Rebalance ShardCtrler ShardCtrlerSpec ShardSystem Clerks CtrlGroup.
Import ShardCtrler.

(** ** Running the service *)
Section exec.
Context {KO : KeyOrder} `{HC : Codec (Z * Z * list ctrl_entry * Z * Z)}.
Context (n : Z).
Implicit Types (W : cworld).

(** What happens next; requests are chosen by their position. *)
Inductive caction :=
| CSystem (a : raction (C:=Op))
| CCrash (i now : Z)
| CCall (c : Z) (r : ctrl_call)
| CRefuse (i : Z) (p : nat)
| CStart (i : Z) (p : nat)
| CWait (p : nat)
| CReceive (p : nat)
| CTimeout (p : nat)
| CAnswer (p : nat)
| CCleanup (p : nat)
| CReturn (c : Z) (p : nat).

#[global] Instance call_ok_dec r : Decision (call_ok r).
Proof. destruct r; apply _. Defined.

#[global] Instance CommandArgs_eq_dec : EqDecision CommandArgs.
Proof. solve_decision. Defined.

Definition cexec (a : caction) W : option cworld :=
  let '(mkCWorld R clerks calls q) := W in
  match a with
  | CSystem a => R' ← rexec n a R; Some (mkCWorld R' clerks calls q)
  | CCrash i now =>
      rf ← g_peer (r_group R) !! i;
      Some (mkCWorld (mkRWorld (set_peer (r_group R) i (Raft.Make n i (Raft.persister rf) now))
        (<[i := StartServer]> (r_server R)) (delete i (r_batch R))) clerks calls (ctrl_drop i q))
  | CCall c r =>
      '(ck, o) ← clerks !! c; guard (o = None);; guard (call_ok r);;
      Some (mkCWorld R (<[c := (ck, Some (call_args ck r))]> clerks) (call_args ck r :: calls) q)
  | CRefuse i p =>
      args ← calls !! p; rf ← g_peer (r_group R) !! i; guard ((Raft.GetState rf).2 = false);;
      Some (mkCWorld R clerks calls (ctrl_reply (args, wrong_leader zeroReply) q))
  | CStart i p =>
      args ← calls !! p; rf ← g_peer (r_group R) !! i;
      '(rf', (idx, _, lead)) ← returned (Raft.Start rf (op_of_args args));
      Some (mkCWorld (mkRWorld (set_peer (r_group R) i rf') (r_server R) (r_batch R)) clerks calls
        (if lead : bool
         then mkCtrlRequests ((i, args, idx) :: rq_started q) (rq_waiting q) (rq_woken q) (rq_finished q) (rq_replies q)
         else ctrl_reply (args, wrong_leader zeroReply) q))
  | CWait p =>
      '(i, args, idx) ← rq_started q !! p; sc ← r_server R !! i;
      let '(sc', ch) := getWaitCh sc idx in
      Some (mkCWorld (ctrl_server R i sc') clerks calls
        (mkCtrlRequests (remove p (rq_started q)) ((i, args, idx, ch) :: rq_waiting q) (rq_woken q) (rq_finished q) (rq_replies q)))
  | CReceive p =>
      '(i, args, idx, ch) ← rq_waiting q !! p; sc ← r_server R !! i;
      let '(w, v) := chan_recv (waitChan sc) ch in
      match v with
      | RBlocked => None
      | _ => Some (mkCWorld (ctrl_server R i (set_waitChan sc w)) clerks calls
          (mkCtrlRequests (rq_started q) (remove p (rq_waiting q)) ((i, args, idx, ch, WReceived v) :: rq_woken q)
             (rq_finished q) (rq_replies q)))
      end
  | CTimeout p =>
      '(i, args, idx, ch) ← rq_waiting q !! p;
      Some (mkCWorld R clerks calls (mkCtrlRequests (rq_started q) (remove p (rq_waiting q))
        ((i, args, idx, ch, WTimeout) :: rq_woken q) (rq_finished q) (rq_replies q)))
  | CAnswer p =>
      '(i, args, idx, ch, ev) ← rq_woken q !! p; sc ← r_server R !! i;
      reply ← returned (request_end sc args zeroReply ev);
      Some (mkCWorld R clerks calls (mkCtrlRequests (rq_started q) (rq_waiting q) (remove p (rq_woken q))
        ((i, idx, ch) :: rq_finished q) ((args, reply) :: rq_replies q)))
  | CCleanup p =>
      '(i, idx, ch) ← rq_finished q !! p; sc ← r_server R !! i; sc' ← returned (request_cleanup sc idx ch);
      Some (mkCWorld (ctrl_server R i sc') clerks calls
        (mkCtrlRequests (rq_started q) (rq_waiting q) (rq_woken q) (remove p (rq_finished q)) (rq_replies q)))
  | CReturn c p =>
      '(args, reply) ← rq_replies q !! p; '(ck, o) ← clerks !! c;
      guard (o = Some args);; guard (WrongLeader reply = false);;
      Some (mkCWorld R (<[c := (CtrlClerk.incr_seq ck, None)]> clerks) calls q)
  end.

Lemma cexec_sound a W W' : cexec a W = Some W' → cstep n W W'.
Proof.
  destruct W as [R clerks calls q]. destruct a; cbn [cexec]; intros HW; exec_inv.
  - by eapply (cs_system n (mkCWorld R clerks calls q)), rexec_sound.
  - by eapply (cs_crash n (mkCWorld R clerks calls q)).
  - by apply (cs_call n (mkCWorld R clerks calls q)).
  - eapply (cs_refuse n (mkCWorld R clerks calls q)); [by eapply list_elem_of_lookup_2|done..].
  - eapply (cs_start n (mkCWorld R clerks calls q)); [by eapply list_elem_of_lookup_2|done..].
  - eapply (cs_wait n (mkCWorld R clerks calls q)); [by apply remove_middle|done..].
  - destruct r; [done|exec_inv..]; (eapply (cs_receive n (mkCWorld R clerks calls q)); [by apply remove_middle|done..]).
  - eapply (cs_timeout n (mkCWorld R clerks calls q)). by apply remove_middle.
  - eapply (cs_answer n (mkCWorld R clerks calls q)); [by apply remove_middle|done..].
  - eapply (cs_cleanup n (mkCWorld R clerks calls q)); [by apply remove_middle|done..].
  - eapply (cs_return n (mkCWorld R clerks calls q)); [done|by eapply list_elem_of_lookup_2|done].
Qed.

Fixpoint cexecs (l : list caction) W : option cworld :=
  match l with
  | [] => Some W
  | a :: l' => W' ← cexec a W; cexecs l' W'
  end.

Lemma cexecs_sound l W W' : cexecs l W = Some W' → rtc (cstep n) W W'.
Proof.
  revert W. induction l as [|a l IH]; intros W; simpl; [by intros [= ->]|].
  intros (W1 & H1%cexec_sound & H2%IH)%bind_Some. by eapply rtc_l.
Qed.
End exec.

(** ** A sample run *)
#[export] Instance COp_tok : Tok Op.
Proof.
  refine (iso_tok (λ o, (ArgsType o, Servers o, GIDs o, Shard o, GID o, QNum o, SeqNum o, ClientID o))
            (λ '(t, s, g, x, d, q, m, c), mkOp t s g x d q m c) _). by intros [].
Defined.

(** Three servers and two clerks. *)
Definition cservice3 : cworld :=
  mkCWorld (rworld3 (λ _, StartServer))
    {[7 := (CtrlClerk.MakeClerk 3 7, None); 8 := (CtrlClerk.MakeClerk 3 8, None)]} [] (mkCtrlRequests [] [] [] [] []).

#[local] Existing Instance key_order_std.

(** The latest request is started at server 0, committed with server 1, executed
    and answered. *)
Definition c_commit (now : Z) : list caction :=
  [CStart 0 0; CWait 0] ++ (CSystem ∘ RPeers <$> [APrepare 0 1; AAppend 0 now; AAppendReply 0]) ++
  (CSystem <$> [RTake 0; RDeliver 0; RDone 0]) ++ [CReceive 0; CAnswer 0; CCleanup 0].

(** Server 0 is elected; clerk 7 joins three groups. *)
Definition crun_join : list caction :=
  [CCall 7 (CJoin sample_groups); CRefuse 0 0] ++ (CSystem ∘ RPeers <$> [ATick 0 1000 300; AVote 0 1001; AVoteReply 0]) ++
  c_commit 1002 ++ [CReturn 7 0].
(** Server 2 crashes; clerk 8 asks for the latest configuration. *)
Definition crun_query : list caction :=
  [CCrash 2 1003; CCall 8 (CQuery (-1))] ++ c_commit 1004 ++ [CReturn 8 0].

Lemma cservice3_init : cworld_init 3 cservice3.
Proof.
  split_and!; try done.
  - by apply (rworld3_init (λ _, StartServer)).
  - by intros i sc ->%rworld3_server.
  - intros c ck o. simpl.
    intros [[<- [= <- <-]]|[_ [<- [= <- <-]]%lookup_singleton_Some]]%lookup_insert_Some; (split; [done|by exists 3%nat]).
Qed.

Definition crun (W : cworld) (l : list caction) : cworld := default W (cexecs 3 l W).

Lemma crun_steps W l : rtc (cstep 3) W (crun W l).
Proof. unfold crun. destruct (cexecs 3 l W) as [W'|] eqn:E; [by eapply cexecs_sound|apply rtc_refl]. Qed.

Definition cjoined : cworld := crun cservice3 crun_join.
Definition cqueried : cworld := crun cjoined crun_query.

Lemma cjoined_reach : creach 3 cjoined.
Proof. exists cservice3. split; [apply cservice3_init|apply crun_steps]. Qed.

Lemma cqueried_reach : creach 3 cqueried.
Proof. destruct cjoined_reach as (W0 & Hi & Hs). exists W0. split; [done|]. etrans; [done|apply crun_steps]. Qed.

Definition join7 : CommandArgs := call_args (CtrlClerk.MakeClerk 3 7) (CJoin sample_groups).
Definition query8 : CommandArgs := call_args (CtrlClerk.MakeClerk 3 8) (CQuery (-1)).

Definition joined_config : Config := mkConfig 1 [3; 5; 7; 3; 5; 7; 3; 5; 7; 3] sample_groups.

(** Both requests were answered, the query with the configuration of the join. *)
Lemma join7_reply : rq_replies (cw_requests cjoined) !! 0%nat = Some (join7, mkCommandReply 0 false OK emptyConfig).
Proof. vm_compute. reflexivity. Qed.

Lemma query8_reply : rq_replies (cw_requests cqueried) !! 0%nat = Some (query8, mkCommandReply 0 false OK joined_config).
Proof. vm_compute. reflexivity. Qed.

Lemma cjoined_calls : cw_calls cjoined = [join7].
Proof. vm_compute. reflexivity. Qed.

(** ** Theorems *)

(** The configurations the committed log makes, as the sharded store sees them. *)
Definition log_controller {KO : KeyOrder} `{Codec (Z * Z * list ctrl_entry * Z * Z)}
    (l : list ctrl_entry) (Hl : Forall entry_ok l) : Controller :=
  {| cfg_at := server_cfg_at (ctrl_with (rsm_run l));
     cfg_num := λ n c, server_cfg_num _ n c (so_wf _ (run_ok l Hl));
     cfg_len := λ n c, server_cfg_len _ n c (so_wf _ (run_ok l Hl)) |}.

(** What [getConfig] answers, for a number, with so many configurations. *)
Definition getConfig_number (num : Z) (len m : nat) : Prop :=
  (0 ≤ num → Z.of_nat m ≤ num) ∧ (num = -1 → len = S m) ∧ (0 ≤ num < Z.of_nat len → num = Z.of_nat m).

Lemma getConfig_cases sc num c :
  ctrl_wf sc → getConfig sc num = Ret c →
  ∃ m, configs sc !! m = Some c ∧ Num c = Z.of_nat m ∧ getConfig_number num (length (configs sc)) m.
Proof.
  intros Hwf Hg. destruct (last_config sc Hwf) as (x & Hx & Hlast & Hok). unfold getConfig in Hg. rewrite Hx, bind_Ret in Hg.
  apply index_Ret in Hx as [Hr Hx]. unfold zlen, getConfig_number in *. case_test_in Hg.
  - injection Hg as <-. exists (Z.to_nat (Z.of_nat (length (configs sc)) - 1)).
    destruct Hok as [Hnum _ _]. split_and!; [done|lia..].
  - apply index_Ret in Hg as [Hr' Hg]. exists (Z.to_nat num). destruct (cw_configs _ Hwf _ _ Hg) as [Hnum _ _].
    apply lookup_lt_Some in Hg as Hlt. split_and!; [done|lia..].
Qed.

(** What a query is for: of the configurations there are, the one with the number
    asked for, and the last one if there is none with that number. *)
Definition query_result (cs : list Config) (num : Z) (c : Config) : Prop :=
  if bool_decide (0 ≤ num < zlen cs) then cs !! Z.to_nat num = Some c else last cs = Some c.

Lemma getConfig_result sc num c : getConfig sc num = Ret c → -1 ≤ num ∧ query_result (configs sc) num c.
Proof.
  unfold getConfig, query_result. intros Hg. inv_bind Hg. apply index_Ret in Hb as [Hr Hx].
  assert (last (configs sc) = Some x) as Hlast.
  { rewrite last_lookup. rewrite <- Hx. f_equal. unfold zlen. lia. }
  unfold zlen in *. destruct (_ || _) eqn:Ht.
  - injection Hg as <-. rewrite bool_decide_eq_false_2; [|lia]. split; [lia|done].
  - apply index_Ret in Hg as [Hr' Hg]. unfold zlen in Hr'. rewrite bool_decide_eq_true_2 by lia. split; [lia|done].
Qed.

Section theorems.
Context {KO : KeyOrder} `{HC : Codec (Z * Z * list ctrl_entry * Z * Z)}.
Implicit Types (l : list ctrl_entry) (W : cworld).

(** An answered request is in the log; a query has a configuration of the log: the
    one with the number asked for, if the state that answered it has it, else the last. *)
Lemma answered_cases l args reply :
  Forall entry_ok l → answered l args reply →
  ∃ j e k, l !! j = Some e ∧ Raft.le_Command e = Some (op_of_args args) ∧
    (rsm_run (take (S j) l)).1 `prefix_of` (rsm_run (take k l)).1 ∧
    (ca_ArgsType args = QueryArgsType → ∃ m,
       (rsm_run (take k l)).1 !! m = Some (rConfig reply) ∧ Num (rConfig reply) = Z.of_nat m ∧
       getConfig_number (ca_Num args) (length (rsm_run (take k l)).1) m ∧
       -1 ≤ ca_Num args ∧ query_result (rsm_run (take k l)).1 (ca_Num args) (rConfig reply)).
Proof.
  intros Hl (j & e & k & Hj & He & _ & Hp & Hq). exists j, e, k. split_and!; [done..|]. intros Hquery.
  pose proof (so_wf _ (run_ok (take k l) ltac:(by apply Forall_take))) as Hwf.
  destruct (getConfig_cases _ _ _ Hwf (Hq Hquery)) as (m & ? & ? & ?).
  destruct (getConfig_result _ _ _ (Hq Hquery)). by exists m.
Qed.

Lemma answered_query l args reply :
  Forall entry_ok l → answered l args reply → ca_ArgsType args = QueryArgsType →
  ∃ j e k m, l !! j = Some e ∧ Raft.le_Command e = Some (op_of_args args) ∧
    (rsm_run (take (S j) l)).1 `prefix_of` (rsm_run (take k l)).1 ∧
    (rsm_run (take k l)).1 !! m = Some (rConfig reply) ∧ Num (rConfig reply) = Z.of_nat m ∧
    getConfig_number (ca_Num args) (length (rsm_run (take k l)).1) m.
Proof.
  intros Hl Ha Hquery. destruct (answered_cases l args reply Hl Ha) as (j & e & k & ? & ? & ? & Hq).
  destruct (Hq Hquery) as (m & ? & ? & ? & _). by exists j, e, k, m.
Qed.

Lemma op_of_args_inj a b : Some (op_of_args a) = Some (op_of_args b) → a = b.
Proof. destruct a, b. by intros [= -> -> -> -> -> -> -> ->]. Qed.

(** A query whose entry is not in a log is answered from a state that includes what
    that log leads to. *)
Lemma answered_after l1 l args reply :
  Forall entry_ok l → l1 `prefix_of` l → (∀ e, e ∈ l1 → Raft.le_Command e = Some (op_of_args args) → False) →
  answered l args reply → ca_ArgsType args = QueryArgsType →
  ∃ k m, (rsm_run l1).1 `prefix_of` (rsm_run (take k l)).1 ∧
    (rsm_run (take k l)).1 !! m = Some (rConfig reply) ∧ Num (rConfig reply) = Z.of_nat m ∧
    getConfig_number (ca_Num args) (length (rsm_run (take k l)).1) m.
Proof.
  intros Hok Hp Hfresh Ha Hq.
  destruct (answered_query l args reply Hok Ha Hq) as (j & e & k & m & Hj & He & Hpre & Hm & Hnum & Hr).
  exists k, m. split_and!; [|done..].
  assert (length l1 ≤ j)%nat as Hle.
  { destruct (decide (j < length l1)%nat) as [Hlt|]; [|lia]. destruct (lookup_lt_is_Some_2 l1 j Hlt) as [e' He'].
    assert (e' = e) as -> by (pose proof (prefix_lookup_Some _ _ _ _ He' Hp); congruence).
    by destruct (Hfresh e (list_elem_of_lookup_2 _ _ _ He')). }
  etrans; [|exact Hpre]. apply run_prefix; [|by apply Forall_take].
  destruct Hp as [r ->]. rewrite take_app_ge by lia. by apply prefix_app_r.
Qed.

(** So a query for the latest configuration sees all that was answered from that log. *)
Lemma answered_later l1 l args1 args2 reply1 reply2 :
  Forall entry_ok l → l1 `prefix_of` l → answered l1 args1 reply1 →
  (∀ e, e ∈ l1 → Raft.le_Command e = Some (op_of_args args2) → False) → answered l args2 reply2 →
  ca_ArgsType args2 = QueryArgsType → ca_Num args2 = -1 →
  (rsm_run l).1 !! Z.to_nat (Num (rConfig reply2)) = Some (rConfig reply2) ∧
  (ca_ArgsType args1 = QueryArgsType → Num (rConfig reply1) ≤ Num (rConfig reply2)) ∧
  (changes_config (op_of_args args1) = true → ∃ k old new,
     (rsm_run l).1 !! k = Some old ∧ (rsm_run l).1 !! S k = Some new ∧
     next_config (op_of_args args1) old new ∧ Num new ≤ Num (rConfig reply2)).
Proof.
  intros Hok Hp Ha1 Hfresh Ha2 Hq2 Hl2. assert (Forall entry_ok l1) as Hok1 by (destruct Hp as [r ->]; by apply Forall_app in Hok as [? _]).
  destruct (answered_after l1 l args2 reply2 Hok Hp Hfresh Ha2 Hq2) as (k2 & m2 & Hpre & Hm2 & Hn2 & _ & Hlen & _).
  specialize (Hlen Hl2). rewrite Hn2, Nat2Z.id.
  assert ((rsm_run (take k2 l)).1 `prefix_of` (rsm_run l).1) as Hpk by by apply run_take.
  pose proof (prefix_length _ _ Hpre) as Hlen1. split; [by eapply prefix_lookup_Some|]. split.
  - intros Hq1. destruct (answered_query l1 args1 reply1 Hok1 Ha1 Hq1) as (_ & _ & k1 & m1 & _ & _ & _ & Hm1 & -> & _).
    apply lookup_lt_Some in Hm1. pose proof (prefix_length _ _ (run_take l1 k1 Hok1)). lia.
  - intros Hch. destruct Ha1 as (j1 & e1 & k1 & Hj1 & He1 & _ & _).
    destruct (run_changes l1 j1 e1 _ Hok1 Hj1 He1 Hch) as (old & new & Hlast & Hrun & Hnext).
    set (k := pred (length (rsm_run (take j1 l1)).1)). rewrite last_lookup in Hlast. fold k in Hlast.
    pose proof (lookup_lt_Some _ _ _ Hlast) as Hlt.
    assert ((rsm_run (take (S j1) l1)).1 !! k = Some old) as Hk by (rewrite Hrun; by apply lookup_app_l_Some).
    assert ((rsm_run (take (S j1) l1)).1 !! S k = Some new) as HSk.
    { rewrite Hrun, lookup_app_r by lia. by replace (S k - _)%nat with 0%nat by lia. }
    assert ((rsm_run (take (S j1) l1)).1 `prefix_of` (rsm_run (take k2 l)).1) as Hp1 by (etrans; [by apply run_take|done]).
    exists k, old, new. split_and!; [by eapply prefix_lookup_Some; [|etrans]..|done|].
    destruct (cw_configs _ (so_wf _ (run_ok (take (S j1) l1) ltac:(by apply Forall_take))) (S k) new HSk) as [-> _ _].
    apply lookup_lt_Some in HSk. apply prefix_length in Hp1. lia.
Qed.

Lemma server_cfg_lookup w (m : nat) c : w.1 !! m = Some c → server_cfg_at (ctrl_with w) (Z.of_nat m) = Some c.
Proof. intros Hm. unfold server_cfg_at. case_test; [lia|]. by rewrite Nat2Z.id. Qed.

(** The applier of a server can execute what it has to deliver next. *)
Lemma applier_safe n W H V l i rf sc m ms c :
  0 ≤ n → cinv n W H V l → g_peer (r_group (cw_rsm W)) !! i = Some rf → r_server (cw_rsm W) !! i = Some sc →
  r_batch (cw_rsm W) !! i = Some (m :: ms, c) → safe (applyHandler sc m).
Proof.
  intros Hn Hinv Hi Hs Hb. pose proof (ci_servers _ _ _ _ _ Hinv i sc Hs) as [Hw [k Hat] _].
  pose proof (state_at _ _ _ _ _ _ (ci_calls _ _ _ _ _ Hinv) (ci_commands _ _ _ _ _ Hinv) Hat) as [[Hne Hcf _] _].
  destruct (next_message n _ _ _ _ _ _ _ _ _ (ci_rsm _ _ _ _ _ Hinv) Hi Hs Hb) as (e & k1 & -> & He & _).
  assert (entry_ok e) as (op & Hop & Hv & _).
  { destruct He as (p & T & Hp & _ & Hk%list_elem_of_lookup_2).
    pose proof (log_ok n _ _ _ _ _ (ci_calls _ _ _ _ _ Hinv) (ci_commands _ _ _ _ _ Hinv) Hp) as Hok.
    by rewrite Forall_forall in Hok; apply Hok. }
  destruct (applyHandler_spec sc (command_msg (Raft.le_Command e) k1)) as (sc' & cs & ? & _);
    [by split|by rewrite Hop|by exists sc'].
Qed.
End theorems.

(** C5: the servers and their peers provide one sequence of configurations, as the
    sharded store assumes ([Controller]).  It is made by the operations of the log
    the peers committed, each configuration from the one before it; every server
    holds those of a prefix of the log, between what its peer has applied and what
    it has committed, and never panics on what it applies next.  Every request that
    was ever answered, other than by a server that does not lead, is in the log; and
    a query was answered with exactly what is asked for ([query_result]) of the
    configurations of one prefix of the log, all those made up to its own entry
    included: the configuration with the number asked for if there was one, and
    for number -1, or a number not reached yet, the last there was. *)
Theorem ctrl_service_refines {KO : KeyOrder} `{Codec (Z * Z * list ctrl_entry * Z * Z)}
    (n : Z) (W : cworld) (Hn : 0 ≤ n) (Hreach : creach n W) :
  ∃ l (K : Controller), group_log (r_group (cw_rsm W)) l ∧
    (∀ k, cfg_at k = server_cfg_at (ctrl_with (rsm_run l)) k) ∧
    (∀ k old new, cfg_at k = Some old → cfg_at (k + 1) = Some new →
       ∃ e op, e ∈ l ∧ Raft.le_Command e = Some op ∧ next_config op old new) ∧
    (∀ i rf sc, g_peer (r_group (cw_rsm W)) !! i = Some rf → r_server (cw_rsm W) !! i = Some sc →
       (∃ k, Raft.lastApplied rf ≤ Z.of_nat k ≤ Raft.commitIndex rf ∧ configs sc = (rsm_run (take k l)).1) ∧
       (∀ m ms c, r_batch (cw_rsm W) !! i = Some (m :: ms, c) → safe (applyHandler sc m))) ∧
    (∀ args reply, (args, reply) ∈ rq_replies (cw_requests W) → WrongLeader reply = true ∨
       rErr reply = OK ∧ ∃ j e k, l !! j = Some e ∧ Raft.le_Command e = Some (op_of_args args) ∧
         (rsm_run (take (S j) l)).1 `prefix_of` (rsm_run (take k l)).1 ∧
         (ca_ArgsType args = QueryArgsType →
            -1 ≤ ca_Num args ∧ query_result (rsm_run (take k l)).1 (ca_Num args) (rConfig reply) ∧
            cfg_at (Num (rConfig reply)) = Some (rConfig reply) ∧
            (0 ≤ ca_Num args → Num (rConfig reply) ≤ ca_Num args))).
Proof.
  destruct Hreach as (W0 & Hinit & Hsteps).
  destruct (csteps_inv n Hn _ _ _ _ _ (cworld_init_inv n W0 Hinit) Hsteps) as (Hh & V & l0 & Hinv0 & _).
  destruct (ci_log _ _ _ _ _ Hinv0) as [T0 Hl0].
  destruct (rinv_follows n Hn _ _ _ _ _ (ci_rsm _ _ _ _ _ Hinv0) Hl0) as (l & T & Hl & Hp & Hlog & Hfol).
  pose proof (cinv_extend n _ _ _ _ _ _ Hinv0 Hl Hp) as Hinv.
  pose proof (log_ok n _ _ _ _ _ (ci_calls _ _ _ _ _ Hinv) (ci_commands _ _ _ _ _ Hinv) Hl) as Hok.
  exists l, (log_controller l Hok). split; [done|]. split; [done|]. split_and!.
  - intros k old new. simpl. unfold server_cfg_at. case_test; [done|]. intros Hold Hnew. case_test_in Hnew; [done|].
    replace (Z.to_nat (k + 1)) with (S (Z.to_nat k)) in Hnew by lia. by eapply run_next.
  - intros i rf sc Hi Hs. split; [|by intros; eapply applier_safe].
    destruct (Hfol i rf sc Hi Hs) as (k & Hk & _ & Hv). exists k. split; [done|]. by rewrite <- Hv.
  - intros args reply Hin. destruct (rg_replies _ _ _ _ _ _ (ci_requests _ _ _ _ _ Hinv) _ _ Hin) as [?|(Hr & _ & Ha)];
      [by left|right]. split; [done|].
    destruct (answered_cases l args reply Hok Ha) as (j & e & k & Hj & He & Hpre & Hq).
    exists j, e, k. split_and!; [done..|]. intros (m & Hm & Hnum & [Hle _] & Hone & Hres)%Hq.
    split_and!; try done; [|by rewrite Hnum].
    rewrite Hnum. apply server_cfg_lookup. eapply prefix_lookup_Some; [done|]. by apply run_take.
Qed.

Lemma ctrl_service_refines_witness :
  ∃ l (K : Controller) k, group_log (r_group (cw_rsm cqueried)) l ∧ cfg_at 1 = Some joined_config ∧
    last (rsm_run (take k l)).1 = Some joined_config.
Proof.
  destruct (ctrl_service_refines 3 cqueried ltac:(lia) cqueried_reach) as (l & K & Hl & _ & _ & _ & Hr).
  destruct (Hr query8 (mkCommandReply 0 false OK joined_config)) as [Hw|[_ (j & e & k & _ & _ & _ & Hq)]].
  - apply (list_elem_of_lookup_2 _ 0). exact query8_reply.
  - discriminate Hw.
  - destruct (Hq eq_refl) as (_ & Hres & Hc & _). exists l, K, k. split; [exact Hl|]. split; [exact Hc|exact Hres].
Defined.

(** C6: a query sees what was answered before it was made.  If a request has been
    answered, by whatever server, and a clerk then asks for the latest
    configuration, the answer it gets, from whatever server and after whatever
    crashes and elections, is at least as recent: as the configuration an earlier
    query was answered with, and as the one an earlier Join, Leave or Move made,
    which is there, made from the one before it. *)
Theorem ctrl_query_fresh {KO : KeyOrder} `{Codec (Z * Z * list ctrl_entry * Z * Z)}
    (n : Z) (W1 W2 : cworld) (args1 args2 : CommandArgs) (reply1 reply2 : CommandReply)
    (Hn : 0 ≤ n) (Hreach : creach n W1) (Hsteps : rtc (cstep n) W1 W2)
    (Hr1 : (args1, reply1) ∈ rq_replies (cw_requests W1)) (Hok1 : WrongLeader reply1 = false)
    (Hnew : args2 ∉ cw_calls W1) (Hr2 : (args2, reply2) ∈ rq_replies (cw_requests W2))
    (Hok2 : WrongLeader reply2 = false) (Hquery : ca_ArgsType args2 = QueryArgsType) (Hlatest : ca_Num args2 = -1) :
  ∃ l, group_log (r_group (cw_rsm W2)) l ∧
    (rsm_run l).1 !! Z.to_nat (Num (rConfig reply2)) = Some (rConfig reply2) ∧
    (ca_ArgsType args1 = QueryArgsType → Num (rConfig reply1) ≤ Num (rConfig reply2)) ∧
    (changes_config (op_of_args args1) = true → ∃ k old new,
       (rsm_run l).1 !! k = Some old ∧ (rsm_run l).1 !! S k = Some new ∧
       next_config (op_of_args args1) old new ∧ Num new ≤ Num (rConfig reply2)).
Proof.
  destruct Hreach as (W0 & Hinit & Hsteps0).
  destruct (csteps_inv n Hn _ _ _ _ _ (cworld_init_inv n W0 Hinit) Hsteps0) as (H1 & V1 & l1 & Hinv1 & _).
  destruct (csteps_inv n Hn _ _ _ _ _ Hinv1 Hsteps) as (H2 & V2 & l2 & Hinv2 & Hp12).
  destruct (ci_log _ _ _ _ _ Hinv2) as [T2 Hl2].
  destruct (rinv_follows n Hn _ _ _ _ _ (ci_rsm _ _ _ _ _ Hinv2) Hl2) as (l & T & Hl & Hp2 & Hlog & _).
  pose proof (cinv_extend n _ _ _ _ _ _ Hinv2 Hl Hp2) as Hinv.
  pose proof (log_ok n _ _ _ _ _ (ci_calls _ _ _ _ _ Hinv) (ci_commands _ _ _ _ _ Hinv) Hl) as Hok.
  destruct (rg_replies _ _ _ _ _ _ (ci_requests _ _ _ _ _ Hinv1) _ _ Hr1) as [?|(_ & _ & Ha1)]; [congruence|].
  destruct (rg_replies _ _ _ _ _ _ (ci_requests _ _ _ _ _ Hinv) _ _ Hr2) as [?|(_ & _ & Ha2)]; [congruence|].
  destruct (answered_later l1 l args1 args2 reply1 reply2) as (? & ? & ?); [done|by etrans|done| |done..|by exists l].
  intros e [j Hj]%list_elem_of_lookup He. destruct (ci_log _ _ _ _ _ Hinv1) as [T1 Hl1].
  destruct (safe_commands n H1 T1 l1 _ Hl1 (ci_commands _ _ _ _ _ Hinv1) e) as (a & Hop & Hin);
    [by eapply list_elem_of_lookup_2|]. destruct Hnew. rewrite He in Hop. by rewrite (op_of_args_inj _ _ Hop).
Qed.

Lemma ctrl_query_fresh_witness :
  ∃ l k old new, group_log (r_group (cw_rsm cqueried)) l ∧ (rsm_run l).1 !! k = Some old ∧
    (rsm_run l).1 !! S k = Some new ∧ next_config (op_of_args join7) old new ∧ Num new ≤ 1.
Proof.
  destruct (ctrl_query_fresh 3 cjoined cqueried join7 query8 (mkCommandReply 0 false OK emptyConfig)
    (mkCommandReply 0 false OK joined_config)) as (l & Hl & _ & _ & Hc).
  - lia.
  - exact cjoined_reach.
  - exact (crun_steps cjoined crun_query).
  - apply (list_elem_of_lookup_2 _ 0). exact join7_reply.
  - reflexivity.
  - rewrite cjoined_calls. intros [Heq|Hin]%elem_of_cons; [discriminate Heq|by apply elem_of_nil in Hin].
  - apply (list_elem_of_lookup_2 _ 0). exact query8_reply.
  - reflexivity.
  - reflexivity.
  - reflexivity.
  - destruct (Hc eq_refl) as (k & old & new & ? & ? & ? & ?). exists l, k, old, new. split_and!; assumption.
Defined.
