(* ===== verification/System.v ===== *)
(** * The whole system: the sharded store with its controller

    The groups of shardkv/ on their peers (ShardGroup.v) and the controller of
    shardctrler/ on its own (CtrlGroup.v) in one world.  A loop [getLastConfig] asks
    the controller for the latest configuration, compares it with the server's own,
    and then asks for the next one by number; all it learns are replies the
    controller gave.  The theorem: this system refines the groups of one log each
    ([ShardSystem.world]) with the configurations of the controller's log. *)

From S2P Require Import Prelude Persister Chan RaftApi Raft RaftLog RaftAppend RaftSteps RaftSpec RaftOps RaftElection RaftHistory RaftRep RaftGroup RaftGroupSteps RaftGroupRun RaftSafety Rsm RsmRun RaftInstance Codecs.
From S2P Require Import ShardConfig Rebalance ShardCtrler ShardCtrlerSpec ShardKV ShardKVSpec ShardSystem ShardHistory ShardReplica ShardGroup ShardService Clerks CtrlGroup CtrlService.
Import ShardKV.

(** ** Learning more configurations *)

(** [K'] has the configurations of [K]. *)
Definition knows (K K' : Controller) : Prop := ∀ k c, @cfg_at K k = Some c → @cfg_at K' k = Some c.

(** Without configurations a group does everything but [getLastConfig]. *)
Definition no_controller : Controller.
Proof. by refine {| cfg_at := λ _, None |}. Defined.

Section mono.
Context `{HK : Codec skv_state} `{HC : Codec (Z * Z * list (Raft.LogEntry CommandMsg) * Z * Z)}.
Context (atomic : bool) (n : Z).

Lemma sstep_knows (K K' : Controller) s s' :
  knows K K' → sstep (K:=K) atomic n s s' → sstep (K:=K') atomic n s s'.
Proof.
  intros HKK Hst. destruct Hst as [| | | | | | |s g kv latest k cfg|s g kv kv' calls t srv args| | |s g kv kv' calls t srv args| |];
    [eapply ss_system|eapply ss_crash|eapply ss_serve|eapply ss_read|eapply ss_start|
    eapply ss_client|eapply ss_noop|eapply ss_config; [..|apply HKK]|eapply (ss_ask _ _ s g kv kv')|eapply ss_answer|
    eapply ss_take|eapply (ss_cask _ _ s g kv kv')|eapply ss_canswer|eapply ss_ctake]; eassumption.
Qed.

Lemma sreach_knows (K K' : Controller) s : knows K K' → sreach (K:=K) atomic n s → sreach (K:=K') atomic n s.
Proof.
  intros HKK (s0 & Hi & Hs). exists s0. split; [done|]. clear Hi.
  induction Hs as [s|s0 s1 s2 H1 _ IH]; [apply rtc_refl|]. eapply rtc_l; [by apply (sstep_knows K K')|done].
Qed.

Lemma sstep_reads (K : Controller) s s' x : sstep (K:=K) atomic n s s' → x ∈ s_reads s → x ∈ s_reads s'.
Proof. intros Hst Hx. destruct Hst; simpl; try done. by right. Qed.
End mono.

(** ** The world *)

(** The controller; the store; and the fetches of [getLastConfig] under way: the
    group, the number it asks for, and the requests the controller had got before. *)
Record fworld := mkFWorld {
  f_ctrl : cworld;
  f_store : sworld;
  f_fetch : list (Z * Z * list ShardCtrler.CommandArgs)
}.

(** A successful answer to [Query(num)]. *)
Definition query_answer (C : cworld) (num : Z) (args : ShardCtrler.CommandArgs) (cfg : Config) : Prop :=
  ∃ reply, (args, reply) ∈ rq_replies (cw_requests C) ∧ ShardCtrler.WrongLeader reply = false ∧
    ShardCtrler.ca_ArgsType args = ShardCtrler.QueryArgsType ∧ ShardCtrler.ca_Num args = num ∧
    cfg = ShardCtrler.rConfig reply.

Section world.
Context {KO : KeyOrder} `{HK : Codec skv_state} `{HC : Codec (Z * Z * list (Raft.LogEntry CommandMsg) * Z * Z)}.
Context `{HO : Codec (Z * Z * list ctrl_entry * Z * Z)}.
Context (atomic : bool) (nc n : Z).
Implicit Types (F : fworld) (l : list ctrl_entry).

Inductive fstep : fworld → fworld → Prop :=
| fs_ctrl F C' : cstep nc (f_ctrl F) C' → fstep F (mkFWorld C' (f_store F) (f_fetch F))
| fs_store F s' :
    sstep (K:=no_controller) atomic n (f_store F) s' → fstep F (mkFWorld (f_ctrl F) s' (f_fetch F))
| fs_latest F g kv args newConfig target :   (* getLastConfig, on the answer to Query(-1) *)
    query_answer (f_ctrl F) (-1) args newConfig → (g, kv) ∈ s_reads (f_store F) →
    getLastConfig_target kv newConfig = Some target →
    fstep F (mkFWorld (f_ctrl F) (f_store F) ((g, target, cw_calls (f_ctrl F)) :: f_fetch F))
| fs_config F g target calls args newConfig :   (* and on the answer to the query it makes then *)
    (g, target, calls) ∈ f_fetch F → query_answer (f_ctrl F) target args newConfig → args ∉ calls →
    fstep F (mkFWorld (f_ctrl F) (add_prop (g, getLastConfig_msg newConfig) (f_store F)) (f_fetch F)).

Definition fworld_init F : Prop := cworld_init nc (f_ctrl F) ∧ sworld_init n (f_store F) ∧ f_fetch F = [].

Definition freach F : Prop := ∃ F0, fworld_init F0 ∧ rtc fstep F0 F.

(** ** The invariant *)

(** The configuration a fetch asks for was there before the request is made. *)
Definition fetch_ok l (s : sworld) (x : Z * Z * list ShardCtrler.CommandArgs) : Prop :=
  let '(g, target, calls) := x in
  (∃ kv latest, (g, kv) ∈ s_reads s ∧ getLastConfig_target kv latest = Some target) ∧
  ∃ l1, l1 `prefix_of` l ∧ 0 ≤ target < zlen (rsm_run l1).1 ∧
    ∀ e, e ∈ l1 → from_calls calls (Raft.le_Command e).

Record finv F (H : RaftHistory.hist) (V : Z → list ctrl_entry) l : Prop := {
  fi_ctrl : cinv nc (f_ctrl F) H V l;
  fi_store : ∃ Hl : Forall entry_ok l, sreach (K:=log_controller l Hl) atomic n (f_store F);
  fi_fetch : ∀ x, x ∈ f_fetch F → fetch_ok l (f_store F) x
}.
Context (Hnc : 0 ≤ nc) (Hn : 0 ≤ n).

Lemma controller_grows l l' (Hl : Forall entry_ok l) (Hl' : Forall entry_ok l') :
  l `prefix_of` l' → knows (log_controller l Hl) (log_controller l' Hl').
Proof using Type.
  intros Hp k c. simpl. unfold server_cfg_at. case_test; [done|]. intros Hc.
  eapply prefix_lookup_Some; [exact Hc|]. by apply run_prefix.
Qed.

Lemma fetch_grows l l' s s' x :
  l `prefix_of` l' → (∀ r, r ∈ s_reads s → r ∈ s_reads s') → fetch_ok l s x → fetch_ok l' s' x.
Proof using Type.
  destruct x as [[g t] calls]. intros Hp Hs [(kv & latest & ? & ?) (l1 & ? & ? & ?)]. split; [by exists kv, latest; auto|].
  exists l1. split; [by etrans|done].
Qed.

Lemma ctrl_log_ok C H V l : cinv nc C H V l → Forall entry_ok l.
Proof using Type.
  intros Hinv. destruct (ci_log _ _ _ _ _ Hinv) as [T Hl].
  by eapply (log_ok nc); [apply (ci_calls _ _ _ _ _ Hinv)|apply (ci_commands _ _ _ _ _ Hinv)|].
Qed.

Lemma query_answered C H V l num args cfg :
  cinv nc C H V l → query_answer C num args cfg →
  ∃ reply, answered l args reply ∧ ShardCtrler.ca_ArgsType args = ShardCtrler.QueryArgsType ∧
    ShardCtrler.ca_Num args = num ∧ cfg = ShardCtrler.rConfig reply.
Proof using Type.
  intros Hinv (reply & Hin & Hw & ? & ? & ?). exists reply.
  destruct (rg_replies _ _ _ _ _ _ (ci_requests _ _ _ _ _ Hinv) _ _ Hin) as [?|(_ & _ & ?)]; [congruence|done].
Qed.

(** The servers number their configurations from zero. *)
Lemma read_config l (Hl : Forall entry_ok l) s g kv :
  sreach (K:=log_controller l Hl) atomic n s → (g, kv) ∈ s_reads s → 0 ≤ Num (config kv).
Proof using Hn.
  intros Hs Hin. destruct (sreach_sim atomic n Hn s Hs) as [W Hsim].
  pose proof (sm_reads _ _ _ _ Hsim g kv Hin) as Hrep.
  destruct (wi_configs _ (wreach_inv _ _ (sm_reach _ _ _ _ Hsim)) g (canon kv) Hrep) as [[Hc|Hc] _]; simpl in Hc; [lia|].
  unfold server_cfg_at in Hc. by case_test_in Hc.
Qed.

Lemma finv_latest F H V l g kv args newConfig target :
  finv F H V l → query_answer (f_ctrl F) (-1) args newConfig → (g, kv) ∈ s_reads (f_store F) →
  getLastConfig_target kv newConfig = Some target → fetch_ok l (f_store F) (g, target, cw_calls (f_ctrl F)).
Proof using Hn.
  intros [Hc [Hl Hs] _] Hq Hin Ht. split; [by exists kv, newConfig|]. exists l. split; [done|].
  destruct (query_answered _ _ _ _ _ _ _ Hc Hq) as (reply & Ha & Hq1 & Hnum & ->). split.
  - destruct (answered_query l args reply Hl Ha Hq1) as (_ & _ & k & m & _ & _ & _ & Hm & Hm' & _).
    apply lookup_lt_Some in Hm. pose proof (prefix_length _ _ (run_take l k Hl)).
    pose proof (read_config _ _ _ _ _ Hs Hin). unfold getLastConfig_target in Ht.
    destruct (Z.ltb_spec (Num (config kv)) (Num (ShardCtrler.rConfig reply))); [|done].
    destruct (_ || _); [done|]. injection Ht as <-. unfold zlen. lia.
  - destruct (ci_log _ _ _ _ _ Hc) as [T Hsafe]. by eapply safe_commands; [|apply (ci_commands _ _ _ _ _ Hc)].
Qed.

(** The answer has the number asked for. *)
Lemma finv_config F H V l g target calls args newConfig :
  finv F H V l → (g, target, calls) ∈ f_fetch F → query_answer (f_ctrl F) target args newConfig → args ∉ calls →
  ∃ kv latest, (g, kv) ∈ s_reads (f_store F) ∧ getLastConfig_target kv latest = Some target ∧
    server_cfg_at (ctrl_with (rsm_run l)) target = Some newConfig.
Proof using Type.
  intros [Hc [Hl Hs] Hf] Hin Hq Hnew. destruct (Hf _ Hin) as [(kv & latest & ? & ?) (l1 & Hp & Ht & Hcalls)].
  exists kv, latest. split_and!; [done..|].
  destruct (query_answered _ _ _ _ _ _ _ Hc Hq) as (reply & Ha & Hq1 & Hnum & ->).
  destruct (answered_after l1 l args reply Hl Hp) as (k & m & Hpre & Hm & _ & _ & _ & Hr); [|done|done|].
  - intros e He Hop. destruct (Hcalls e He) as (a & Hop' & Hin'). rewrite Hop in Hop'.
    apply op_of_args_inj in Hop'. by subst a.
  - apply prefix_length in Hpre. unfold zlen in Ht. rewrite Hnum in Hr. rewrite Hr by lia.
    apply server_cfg_lookup. eapply prefix_lookup_Some; [exact Hm|]. by apply run_take.
Qed.

Lemma fstep_inv F F' H V l : finv F H V l → fstep F F' → ∃ H' V' l', finv F' H' V' l' ∧ l `prefix_of` l'.
Proof using Hnc Hn.
  intros Hinv Hst. pose proof Hinv as [Hc [Hl Hs] Hf].
  destruct Hst as [F C' Hstep|F s' Hstep|F g kv args newConfig target Hq Hin Ht|F g target calls args newConfig Hin Hq Hnew].
  - destruct (cstep_inv nc Hnc _ _ _ _ _ Hc Hstep) as (H' & V' & l' & Hc' & Hp). exists H', V', l'. split; [|done].
    split; [done| |].
    + exists (ctrl_log_ok _ _ _ _ Hc'). eapply sreach_knows; [by apply controller_grows|exact Hs].
    + intros x Hx. eapply fetch_grows; [done|done|by apply Hf].
  - exists H, V, l. split; [|done]. split; [done| |].
    + exists Hl. destruct Hs as (s0 & Hi & Hsteps). exists s0. split; [done|]. eapply rtc_r; [done|].
      by apply (sstep_knows atomic n no_controller).
    + intros x Hx. eapply fetch_grows; [done| |by apply Hf]. intros r. by eapply sstep_reads.
  - exists H, V, l. split; [|done]. split; [done|by exists Hl|]. intros x [->|Hx]%elem_of_cons; [|by apply Hf].
    exact (finv_latest F H V l g kv args newConfig target Hinv Hq Hin Ht).
  - exists H, V, l. split; [|done]. destruct (finv_config _ _ _ _ _ _ _ _ _ Hinv Hin Hq Hnew) as (kv & latest & Hr & Ht & Hcfg).
    split; [done| |].
    + exists Hl. destruct Hs as (s0 & Hi & Hsteps). exists s0. split; [done|]. eapply rtc_r; [done|].
      by eapply ss_config.
    + intros x Hx. eapply fetch_grows; [done|done|by apply Hf].
Qed.

Lemma freach_inv F : freach F → ∃ H V l, finv F H V l.
Proof using Hnc Hn.
  intros (F0 & (Hc & Hs & Hf) & Hsteps). apply rtc_nsteps in Hsteps as [m Hsteps].
  assert (∃ H V l, finv F0 H V l) as Hinv.
  { exists (mkHist ∅ ∅), (λ _, []), []. split; [by apply cworld_init_inv| |].
    - exists (Forall_nil_2 _). exists (f_store F0). split; [done|apply rtc_refl].
    - rewrite Hf. by intros x ?%elem_of_nil. }
  clear -Hinv Hsteps Hnc Hn. induction Hsteps as [F|m F0 F1 F2 Hst _ IH]; [done|].
  apply IH. destruct Hinv as (H & V & l & Hinv). destruct (fstep_inv _ _ _ _ _ Hinv Hst) as (H' & V' & l' & ? & _). eauto.
Qed.
End world.

(** ** Running the system *)
Section exec.
Context {KO : KeyOrder} `{HK : Codec skv_state} `{HC : Codec (Z * Z * list (Raft.LogEntry CommandMsg) * Z * Z)}.
Context `{HO : Codec (Z * Z * list ctrl_entry * Z * Z)}.
Context (atomic : bool) (nc n : Z).

Inductive faction :=
| FCtrl (a : caction)
| FStore (a : saction)
| FLatest (reply read : nat)
| FConfig (fetch reply : nat).

(** The answer at a position, if it is one to [Query(num)]. *)
Definition nth_answer (C : cworld) (p : nat) (num : Z) : option (ShardCtrler.CommandArgs * Config) :=
  '(args, reply) ← rq_replies (cw_requests C) !! p;
  guard (ShardCtrler.WrongLeader reply = false);; guard (ShardCtrler.ca_ArgsType args = ShardCtrler.QueryArgsType);;
  guard (ShardCtrler.ca_Num args = num);; Some (args, ShardCtrler.rConfig reply).

Definition new_call (args : ShardCtrler.CommandArgs) (calls : list ShardCtrler.CommandArgs) : bool :=
  bool_decide (args ∉ calls).

Definition fexec (a : faction) (F : fworld) : option fworld :=
  match a with
  | FCtrl a => C' ← cexec nc a (f_ctrl F); Some (mkFWorld C' (f_store F) (f_fetch F))
  | FStore a => s' ← sexec (K:=no_controller) atomic n a (f_store F); Some (mkFWorld (f_ctrl F) s' (f_fetch F))
  | FLatest p q =>
      '(_, newConfig) ← nth_answer (f_ctrl F) p (-1); '(g, kv) ← s_reads (f_store F) !! q;
      target ← getLastConfig_target kv newConfig;
      Some (mkFWorld (f_ctrl F) (f_store F) ((g, target, cw_calls (f_ctrl F)) :: f_fetch F))
  | FConfig p q =>
      '(g, target, calls) ← f_fetch F !! p; '(args, newConfig) ← nth_answer (f_ctrl F) q target;
      guard (new_call args calls = true);;
      Some (mkFWorld (f_ctrl F) (add_prop (g, getLastConfig_msg newConfig) (f_store F)) (f_fetch F))
  end.

Lemma nth_answer_sound C p num args cfg : nth_answer C p num = Some (args, cfg) → query_answer C num args cfg.
Proof. unfold nth_answer. intros HA. exec_inv. eexists. split_and!; [by eapply list_elem_of_lookup_2|done..]. Qed.

Lemma fexec_sound a F F' : fexec a F = Some F' → fstep atomic nc n F F'.
Proof.
  destruct a; cbn [fexec]; intros HF; exec_inv.
  - by eapply fs_ctrl, cexec_sound.
  - by eapply fs_store, sexec_sound.
  - eapply fs_latest; [by eapply nth_answer_sound|by eapply list_elem_of_lookup_2|done].
  - eapply fs_config; [by eapply list_elem_of_lookup_2|by eapply nth_answer_sound|].
    by apply (bool_decide_eq_true (c ∉ l)).
Qed.

Fixpoint fexecs (l : list faction) F : option fworld :=
  match l with
  | [] => Some F
  | a :: l' => F' ← fexec a F; fexecs l' F'
  end.

Lemma fexecs_sound l F F' : fexecs l F = Some F' → rtc (fstep atomic nc n) F F'.
Proof.
  revert F. induction l as [|a l IH]; intros F; simpl; [by intros [= ->]|].
  intros (F1 & H1%fexec_sound & H2%IH)%bind_Some. by eapply rtc_l.
Qed.
End exec.

#[local] Existing Instance key_order_std.

(** The controller of the sample run of CtrlService.v, and group 5 of three servers. *)
Definition fsystem : fworld := mkFWorld cservice3 (mkSWorld {[5 := sgroup3 5]} [] [] [] [] [] []) [].

(** The join of three groups; group 5 elects a leader, which asks for the latest
    configuration, then for the first, and serves its shards. *)
Definition frun_list : list faction :=
  (FCtrl <$> crun_join) ++ (FStore <$> s_elect 5) ++ (FCtrl <$> crun_query) ++
  [FStore (SRead 5 0); FLatest 0 0] ++
  (FCtrl <$> [CCall 8 (CQuery 1)] ++ c_commit 1005) ++ [FConfig 0 0] ++ (FStore <$> s_commit 5 1006).

Definition frun : fworld := default fsystem (fexecs true 3 3 frun_list fsystem).

Lemma frun_reach : freach true 3 3 frun.
Proof.
  exists fsystem. split.
  - split; [apply cservice3_init|]. split; [|done]. split; [|done]. intros g R. simpl.
    intros [<- <-]%lookup_singleton_Some. apply sgroup3_init.
  - unfold frun. destruct (fexecs true 3 3 frun_list fsystem) as [F|] eqn:E; [by eapply fexecs_sound|apply rtc_refl].
Qed.

(** The leader of group 5 has the configuration of the join and serves shard 7. *)
Lemma frun_server :
  (λ kv, (Num (config kv), sstate kv 7)) <$> server_at (f_store frun) 5 0 = Some (1, SERVING).
Proof. vm_compute. reflexivity. Qed.

(** ** Theorem *)

(** C2: the whole system, controller and groups with all their peers, clerks, crashes
    and lost, late and repeated messages, implements groups of one log each that
    follow one sequence of configurations.  The configurations are those of the log
    the controller's peers committed; the log of each group is one its peers
    committed, and its servers are in states of that log; the groups and their
    messages are a run of [ShardSystem].  So in it a shard is served by one group at
    most, with the data that executing all operations on the shard gives on one
    map, and no operation of a client was executed twice. *)
Theorem system_refines {KO : KeyOrder} `{Codec skv_state}
    `{Codec (Z * Z * list (Raft.LogEntry CommandMsg) * Z * Z)} `{Codec (Z * Z * list ctrl_entry * Z * Z)}
    (atomic : bool) (nc n : Z) (F : fworld) (Hnc : 0 ≤ nc) (Hn : 0 ≤ n) (Hreach : freach atomic nc n F) :
  ∃ l (K : Controller) W,
    group_log (r_group (cw_rsm (f_ctrl F))) l ∧
    (∀ k, cfg_at k = server_cfg_at (ctrl_with (rsm_run l)) k) ∧
    wreach (H:=raft_service) atomic W ∧
    (∀ g R, s_groups (f_store F) !! g = Some R →
      ∃ L, group_log (r_group R) L ∧ Raft.le_Command <$> L = Some <$> log W g ∧
        ∀ i rf kv, g_peer (r_group R) !! i = Some rf → r_server R !! i = Some kv →
          ∃ k, Raft.lastApplied rf ≤ Z.of_nat k ≤ Raft.commitIndex rf ∧
            run_log (start g) 1 (take k (log W g)) = Ret (canon kv)) ∧
    (∀ g sh kv, run_log (start g) 1 (log W g) = Ret kv → 0 ≤ sh < NShards → sstate kv sh = SERVING →
      (∀ h kh, run_log (start h) 1 (log W h) = Ret kh → sstate kh sh = SERVING → h = g) ∧
      (∀ k, key2shard k = sh → currentState kv !! k = replay (history W sh) !! k)) ∧
    in_sessions (w_hist W).
Proof.
  destruct (freach_inv atomic nc n Hnc Hn F Hreach) as (Hh & V & l0 & [Hc [Hl0 Hs] _]).
  destruct (ci_log _ _ _ _ _ Hc) as [T0 Hsafe].
  destruct (rinv_follows nc Hnc _ _ _ _ _ (ci_rsm _ _ _ _ _ Hc) Hsafe) as (l & T & Hl & Hp & Hlog & _).
  pose proof (ctrl_log_ok nc _ _ _ _ (cinv_extend nc _ _ _ _ _ _ Hc Hl Hp)) as Hok.
  apply (sreach_knows _ _ _ (log_controller l Hok)) in Hs; [|by apply controller_grows].
  destruct (sreach_sim atomic n Hn _ Hs) as [W0 Hsim0].
  destruct (sim_caught_up atomic n Hn _ W0 Hsim0) as (W & Hsim & Hcu).
  exists l, (log_controller l Hok), W. pose proof (sm_reach _ _ _ _ Hsim) as HW.
  pose proof (wreach_inv _ W HW) as Hinv. pose proof (wreach_hinv _ W HW) as Hhi.
  split_and!; [done|done|done| | |apply (hi_sessions _ Hhi)].
  - intros g R HR. exact (caught_up_server atomic n g R W (Hcu g R HR) HW).
  - intros g sh kv Hrun Hsh Hsv. split.
    + intros h kh Hrunh Hsvh. destruct (Z.le_ge_cases (Num (config kh)) (Num (config kv))).
      * by eapply (serving_unique W h g).
      * symmetry. by eapply (serving_unique W g h).
    + destruct (hi_serving _ Hhi g kv sh Hrun Hsh Hsv) as [Hd _].
      by rewrite (serving_history _ _ _ _ Hinv Hhi Hrun Hsh Hsv) in Hd.
Qed.

Lemma system_refines_witness :
  (λ kv, (Num (config kv), sstate kv 7)) <$> server_at (f_store frun) 5 0 = Some (1, SERVING) ∧
  ∃ l (K : Controller) W, group_log (r_group (cw_rsm (f_ctrl frun))) l ∧ wreach (H:=raft_service) true W ∧
    (∀ k, cfg_at k = server_cfg_at (ctrl_with (rsm_run l)) k).
Proof.
  split; [exact frun_server|].
  destruct (system_refines true 3 3 frun ltac:(lia) ltac:(lia) frun_reach) as (l & K & W & Hl & Hcfg & HW & _).
  exists l, K, W. split; [exact Hl|]. split; [exact HW|exact Hcfg].
Defined.
