(* ===== verification/Porcupine.v ===== *)
(** * The linearizability checker

    [porcupine/model.go], [porcupine/checker.go] and [porcupine/porcupine.go]:
    histories of operations or events, the specification a history is checked
    against ([Model]), and the search for a linearization.

    - [V] stands for the values Go keeps in an [interface{}] field (operation
      inputs and outputs); its inhabitant plays [nil].  [St] is the state type
      of the model.  A model's functions may panic (type assertions), so they
      return in [Go].
    - The doubly linked list of [makeLinkedEntries] is a heap of [node]s: a
      pointer is an index into it, [None] is [nil], and dereferencing [nil]
      panics.  [lift] and [unlift] update the [next] and [prev] fields in the
      order of the code and reload a node each time the code does.
    - The loop of [checkSingle] is [check_body] run by [check_loop] with a bound
      on the iterations; [kill k] is what [atomic.LoadInt32(kill)] returns in
      iteration [k].
    - The goroutines of [checkParallel], its channel and its [select] are a
      state machine: [par_step] is one event (a goroutine finishes, a result is
      received, the timer fires, a late result is drained) and a sequence of
      events is one interleaving.
    - [DescribeOperation] and [DescribeState] of a model only serve the
      visualization and are left out. *)

From S2P Require Import Prelude Bitset.

(** ** model.go *)

Inductive EventKind := CallEvent | ReturnEvent.

Inductive CheckResult := Unknown | Ok | Illegal.

#[export] Instance CheckResult_eq_dec : EqDecision CheckResult.
Proof. solve_decision. Defined.

Inductive entryKind := callEntry | returnEntry.

#[export] Instance entryKind_eq_dec : EqDecision entryKind.
Proof. solve_decision. Defined.

Record Operation (V : Type) := mkOperation {
  op_ClientId : Z;
  op_Input : V;
  op_Call : Z;        (* invocation time *)
  op_Output : V;
  op_Return : Z       (* response time *)
}.
Arguments mkOperation {V}.
Arguments op_ClientId {V}.
Arguments op_Input {V}.
Arguments op_Call {V}.
Arguments op_Output {V}.
Arguments op_Return {V}.

Record Event (V : Type) := mkEvent {
  ev_ClientId : Z;
  ev_Kind : EventKind;
  ev_Value : V;
  ev_Id : Z
}.
Arguments mkEvent {V}.
Arguments ev_ClientId {V}.
Arguments ev_Kind {V}.
Arguments ev_Value {V}.
Arguments ev_Id {V}.

(** A [nil] function field is [None]. *)
Record Model (V St : Type) := mkModel {
  Partition : option (list (Operation V) → Go (list (list (Operation V))));
  PartitionEvent : option (list (Event V) → Go (list (list (Event V))));
  Init : St;
  Step : St → V → V → Go (bool * St);
  Equal : option (St → St → bool)
}.
Arguments mkModel {V St}.
Arguments Partition {V St}.
Arguments PartitionEvent {V St}.
Arguments Init {V St}.
Arguments Step {V St}.
Arguments Equal {V St}.

Definition NoPartition {V} (history : list (Operation V)) : Go (list (list (Operation V))) :=
  Ret [history].

Definition NoPartitionEvent {V} (history : list (Event V)) : Go (list (list (Event V))) :=
  Ret [history].

Definition ShallowEqual {St} `{EqDecision St} (state1 state2 : St) : bool :=
  bool_decide (state1 = state2).

(** Calling a function field; a [nil] one panics. *)
Definition call_field {A B} (f : option (A → Go B)) (a : A) : Go B :=
  match f with Some f => f a | None => Panic PNil end.

(** ** checker.go: entries *)

Record entry (V : Type) := mkEntry {
  e_kind : entryKind;
  e_value : V;
  e_id : Z;
  e_time : Z;
  e_clientId : Z
}.
Arguments mkEntry {V}.
Arguments e_kind {V}.
Arguments e_value {V}.
Arguments e_id {V}.
Arguments e_time {V}.
Arguments e_clientId {V}.

(** [byTime.Less]. *)
Definition Less {V} (a b : entry V) : bool :=
  if negb (e_time a =? e_time b) then e_time a <? e_time b
  else bool_decide (e_kind a = callEntry) && bool_decide (e_kind b = returnEntry).

(** [sort.Sort(byTime(entries))]: the standard library promises a rearrangement
    in which no element is [Less] than an earlier one; equal elements come in an
    unspecified order. *)
Definition sorted_by_time {V} (l : list (entry V)) : Prop :=
  ∀ i j a b, (i < j)%nat → l !! i = Some a → l !! j = Some b → Less b a = false.

Class Sorter := {
  sort_byTime : ∀ {V : Type}, list (entry V) → list (entry V);
  sort_perm : ∀ {V : Type} (l : list (entry V)), sort_byTime l ≡ₚ l;
  sort_sorted : ∀ {V : Type} (l : list (entry V)), sorted_by_time (sort_byTime l)
}.

Fixpoint makeEntries_from {V} (id : Z) (history : list (Operation V)) : list (entry V) :=
  match history with
  | [] => []
  | elem :: history' =>
      mkEntry callEntry (op_Input elem) id (op_Call elem) (op_ClientId elem) ::
      mkEntry returnEntry (op_Output elem) id (op_Return elem) (op_ClientId elem) ::
      makeEntries_from (id + 1) history'
  end.

Definition makeEntries `{Sorter} {V} (history : list (Operation V)) : list (entry V) :=
  sort_byTime (makeEntries_from 0 history).

Fixpoint renumber_from {V} (m : gmap Z Z) (id : Z) (events : list (Event V)) : list (Event V) :=
  match events with
  | [] => []
  | v :: events' =>
      match m !! ev_Id v with
      | Some r => mkEvent (ev_ClientId v) (ev_Kind v) (ev_Value v) r :: renumber_from m id events'
      | None => mkEvent (ev_ClientId v) (ev_Kind v) (ev_Value v) id ::
                renumber_from (<[ev_Id v := id]> m) (id + 1) events'
      end
  end.

Definition renumber {V} (events : list (Event V)) : list (Event V) := renumber_from ∅ 0 events.

(** The index of an event serves as its time. *)
Definition convertEntries {V} (events : list (Event V)) : list (entry V) :=
  imap (λ i elem,
    let kind := match ev_Kind elem with ReturnEvent => returnEntry | CallEvent => callEntry end in
    mkEntry kind (ev_Value elem) (ev_Id elem) (Z.of_nat i) (ev_ClientId elem)) events.

(** ** checker.go: the linked list *)

Abbreviation ptr := nat (only parsing).

Record node (V : Type) := mkNode {
  n_value : V;
  n_match : option ptr;   (* call if match is nil, otherwise return (sic) *)
  n_id : Z;
  n_next : option ptr;
  n_prev : option ptr
}.
Arguments mkNode {V}.
Arguments n_value {V}.
Arguments n_match {V}.
Arguments n_id {V}.
Arguments n_next {V}.
Arguments n_prev {V}.

Definition with_next {V} (p : option ptr) (n : node V) : node V :=
  mkNode (n_value n) (n_match n) (n_id n) p (n_prev n).
Definition with_prev {V} (p : option ptr) (n : node V) : node V :=
  mkNode (n_value n) (n_match n) (n_id n) (n_next n) p.

Abbreviation heap V := (list (node V)) (only parsing).

Definition load {V} (h : heap V) (p : option ptr) : Go (node V) :=
  match p with
  | None => Panic PNil
  | Some q => match h !! q with Some n => Ret n | None => Panic PNil end
  end.

(** [p.next = q] and [p.prev = q]. *)
Definition set_next {V} (h : heap V) (p q : option ptr) : Go (heap V) :=
  _ ← load h p; Ret (match p with Some a => alter (with_next q) a h | None => h end).
Definition set_prev {V} (h : heap V) (p q : option ptr) : Go (heap V) :=
  _ ← load h p; Ret (match p with Some a => alter (with_prev q) a h | None => h end).

Definition insertBefore {V} (h : heap V) (n mark : option ptr) : Go (heap V) :=
  match mark with
  | None => Ret h
  | Some _ =>
      mk ← load h mark;
      let beforeMark := n_prev mk in
      h ← set_prev h mark n;
      h ← set_next h n mark;
      match beforeMark with
      | None => Ret h
      | Some _ => h ← set_prev h n beforeMark; set_next h beforeMark n
      end
  end.

(** [length]: follows [next] to the end; at most as many steps as there are
    nodes, since the list has no cycle. *)
Fixpoint length_from {V} (fuel : nat) (h : heap V) (n : option ptr) (l : Z) : Go Z :=
  match n with
  | None => Ret l
  | Some _ =>
      match fuel with
      | O => NoFuel
      | S fuel => nd ← load h n; length_from fuel h (n_next nd) (l + 1)
      end
  end.

Definition length_nodes {V} (h : heap V) (n : option ptr) : Go Z :=
  length_from (length h) h n 0.

(** The loop of [makeLinkedEntries], over the entries from the last to the
    first: the heap, [root] and the map [match]. *)
Fixpoint link_entries {V} (es : list (entry V)) (h : heap V) (root : option ptr)
    (mtch : gmap Z ptr) : Go (heap V * option ptr) :=
  match es with
  | [] => Ret (h, root)
  | elem :: es' =>
      let ptr := length h in
      match e_kind elem with
      | returnEntry =>
          let h := h ++ [mkNode (e_value elem) None (e_id elem) None None] in
          let mtch := <[e_id elem := ptr]> mtch in
          h ← insertBefore h (Some ptr) root;
          link_entries es' h (Some ptr) mtch
      | callEntry =>
          let h := h ++ [mkNode (e_value elem) (mtch !! e_id elem) (e_id elem) None None] in
          h ← insertBefore h (Some ptr) root;
          link_entries es' h (Some ptr) mtch
      end
  end.

Definition makeLinkedEntries {V} (entries : list (entry V)) : Go (heap V * option ptr) :=
  link_entries (reverse entries) [] None ∅.

Definition lift {V} (h : heap V) (entry : option ptr) : Go (heap V) :=
  e ← load h entry;
  h ← set_next h (n_prev e) (n_next e);
  e ← load h entry;
  h ← set_prev h (n_next e) (n_prev e);
  e ← load h entry;
  let mtch := n_match e in
  m ← load h mtch;
  h ← set_next h (n_prev m) (n_next m);
  m ← load h mtch;
  match n_next m with
  | None => Ret h
  | Some _ => set_prev h (n_next m) (n_prev m)
  end.

Definition unlift {V} (h : heap V) (entry : option ptr) : Go (heap V) :=
  e ← load h entry;
  let mtch := n_match e in
  m ← load h mtch;
  h ← set_next h (n_prev m) mtch;
  m ← load h mtch;
  h ← match n_next m with
      | None => Ret h
      | Some _ => set_prev h (n_next m) mtch
      end;
  e ← load h entry;
  h ← set_next h (n_prev e) entry;
  e ← load h entry;
  set_prev h (n_next e) entry.

(** ** checker.go: the search *)

Record cacheEntry (St : Type) := mkCacheEntry { ce_linearized : bitset; ce_state : St }.
Arguments mkCacheEntry {St}.
Arguments ce_linearized {St}.
Arguments ce_state {St}.

Record callsEntry (St : Type) := mkCallsEntry { cl_entry : option ptr; cl_state : St }.
Arguments mkCallsEntry {St}.
Arguments cl_entry {St}.
Arguments cl_state {St}.

(** A call of the [Equal] field. *)
Definition call_Equal {V St} (model : Model V St) (a b : St) : Go bool :=
  match Equal model with Some eq => Ret (eq a b) | None => Panic PNil end.

Fixpoint cache_scan {V St} (model : Model V St) (es : list (cacheEntry St))
    (entry : cacheEntry St) : Go bool :=
  match es with
  | [] => Ret false
  | elem :: es' =>
      if equals (ce_linearized entry) (ce_linearized elem) then
        same ← call_Equal model (ce_state entry) (ce_state elem);
        if (same : bool) then Ret true else cache_scan model es' entry
      else cache_scan model es' entry
  end.

Definition cacheContains {V St} (model : Model V St) (cache : gmap Z (list (cacheEntry St)))
    (entry : cacheEntry St) : Go bool :=
  cache_scan model (map_get [] cache (hash (ce_linearized entry))) entry.

(** The variables of [checkSingle].  [longest] holds pointers to sequences; the
    sequences are [c_seqs], in the order the code makes them. *)
Record search (V St : Type) := mkSearch {
  c_heap : heap V;
  c_entry : option ptr;
  c_state : St;
  c_linearized : bitset;
  c_cache : gmap Z (list (cacheEntry St));
  c_calls : list (callsEntry St);
  c_longest : list (option nat);
  c_seqs : list (list Z)
}.
Arguments mkSearch {V St}.
Arguments c_heap {V St}.
Arguments c_entry {V St}.
Arguments c_state {V St}.
Arguments c_linearized {V St}.
Arguments c_cache {V St}.
Arguments c_calls {V St}.
Arguments c_longest {V St}.
Arguments c_seqs {V St}.

(** [seq[i] = v.entry.id] for every pending call. *)
Fixpoint call_ids {V St} (h : heap V) (calls : list (callsEntry St)) : Go (list Z) :=
  match calls with
  | [] => Ret []
  | v :: calls' =>
      e ← load h (cl_entry v);
      ids ← call_ids h calls';
      Ret (n_id e :: ids)
  end.

(** The loop under [if computePartial]: [seq] is the sequence made lazily. *)
Fixpoint record_longest {V St} (h : heap V) (all calls : list (callsEntry St))
    (seq : option nat) (longest : list (option nat)) (seqs : list (list Z))
  : Go (list (option nat) * list (list Z)) :=
  match calls with
  | [] => Ret (longest, seqs)
  | v :: calls' =>
      e ← load h (cl_entry v);
      old ← index longest (n_id e);
      better ← match old with
               | None => Ret true
               | Some p => s ← index seqs (Z.of_nat p); Ret (zlen s <? zlen all)
               end;
      if (better : bool) then
        match seq with
        | None =>
            ids ← call_ids h all;
            longest ← set_index longest (n_id e) (Some (length seqs));
            record_longest h all calls' (Some (length seqs)) longest (seqs ++ [ids])
        | Some p =>
            longest ← set_index longest (n_id e) (Some p);
            record_longest h all calls' (Some p) longest seqs
        end
      else record_longest h all calls' seq longest seqs
  end.

(** One iteration of the loop after the [kill] test: [inl] the next state, or
    [inr] when the search fails. *)
Definition check_body {V St} (model : Model V St) (computePartial : bool)
    (headEntry : option ptr) (st : search V St) : Go (search V St + search V St) :=
  e ← load (c_heap st) (c_entry st);
  let go_next (st : search V St) : Go (search V St + search V St) :=
    Ret (inl (mkSearch (c_heap st) (n_next e) (c_state st) (c_linearized st)
                (c_cache st) (c_calls st) (c_longest st) (c_seqs st))) in
  match n_match e with
  | Some _ =>
      matching ← load (c_heap st) (n_match e);
      '(ok, newState) ← Step model (c_state st) (n_value e) (n_value matching);
      if (ok : bool) then
        newLinearized ← Bitset.set (clone (c_linearized st)) (n_id e);
        let newCacheEntry := mkCacheEntry newLinearized newState in
        found ← cacheContains model (c_cache st) newCacheEntry;
        if negb found then
          let hsh := hash newLinearized in
          let cache := <[hsh := map_get [] (c_cache st) hsh ++ [newCacheEntry]]> (c_cache st) in
          let calls := c_calls st ++ [mkCallsEntry (c_entry st) (c_state st)] in
          linearized ← Bitset.set (c_linearized st) (n_id e);
          h ← lift (c_heap st) (c_entry st);
          hd ← load h headEntry;
          Ret (inl (mkSearch h (n_next hd) newState linearized cache calls
                      (c_longest st) (c_seqs st)))
        else go_next st
      else go_next st
  | None =>
      if zlen (c_calls st) =? 0 then Ret (inr st)
      else
        '(longest, seqs) ←
          (if computePartial
           then record_longest (c_heap st) (c_calls st) (c_calls st) None (c_longest st) (c_seqs st)
           else Ret (c_longest st, c_seqs st));
        callsTop ← index (c_calls st) (zlen (c_calls st) - 1);
        let entry := cl_entry callsTop in
        e ← load (c_heap st) entry;
        linearized ← Bitset.clear (c_linearized st) (n_id e);
        calls ← slice_to (c_calls st) (zlen (c_calls st) - 1);
        h ← unlift (c_heap st) entry;
        e ← load h entry;
        Ret (inl (mkSearch h (n_next e) (cl_state callsTop) linearized (c_cache st) calls
                    longest seqs))
  end.

(** [for headEntry.next != nil]; the result is the verdict and the final state. *)
Fixpoint check_loop {V St} (fuel : nat) (model : Model V St) (computePartial : bool)
    (headEntry : option ptr) (kill : nat → bool) (k : nat) (st : search V St)
  : Go (bool * search V St) :=
  hd ← load (c_heap st) headEntry;
  match n_next hd with
  | None => Ret (true, st)
  | Some _ =>
      if kill k then Ret (false, st)
      else
        match fuel with
        | O => NoFuel
        | S fuel =>
            r ← check_body model computePartial headEntry st;
            match r with
            | inl st' => check_loop fuel model computePartial headEntry kill (S k) st'
            | inr st' => Ret (false, st')
            end
        end
  end.

(** The verdict, [longest], and the sequences its pointers point to. *)
Definition checkSingle {V St} `{Inhabited V} (fuel : nat) (model : Model V St)
    (history : list (entry V)) (computePartial : bool) (kill : nat → bool)
  : Go (bool * (list (option nat) * list (list Z))) :=
  '(h, entry) ← makeLinkedEntries history;
  len ← length_nodes h entry;
  let n := len / 2 in
  let linearized := newBitset n in
  let longest := replicate (Z.to_nat n) None in
  let headEntry := Some (length h) in
  h ← insertBefore (h ++ [mkNode inhabitant None (-1) None None]) headEntry entry;
  '(ok, st) ← check_loop fuel model computePartial headEntry kill 0
      (mkSearch h entry (Init model) linearized ∅ [] longest []);
  if (ok : bool) then
    seq ← call_ids (c_heap st) (c_calls st);
    Ret (true, (replicate (Z.to_nat n) (Some (length (c_seqs st))), c_seqs st ++ [seq]))
  else Ret (false, (c_longest st, c_seqs st)).

Definition fillDefault {V St} `{EqDecision St} (model : Model V St) : Model V St :=
  mkModel
    (match Partition model with None => Some NoPartition | p => p end)
    (match PartitionEvent model with None => Some NoPartitionEvent | p => p end)
    (Init model) (Step model)
    (match Equal model with None => Some ShallowEqual | e => e end).

(** ** checker.go: partitions in parallel *)

Record linearizationInfo (V : Type) := mkInfo {
  history : list (list (entry V));
  partialLinearizations : list (list (list Z))
}.
Arguments mkInfo {V}.
Arguments history {V}.
Arguments partialLinearizations {V}.

(** The variables the goroutines and the main loop of [checkParallel] share.
    [p_longest] is [None] where the goroutine has not stored its result;
    [p_results] is the buffered channel, which never fills. *)
Record par := mkPar {
  p_kill : bool;
  p_longest : list (option (list (option nat) * list (list Z)));
  p_results : list bool;
  p_ok : bool;
  p_timedOut : bool;
  p_count : Z;
  p_looping : bool
}.

Inductive par_event :=
| PFinish (i : nat) (killed_at : option nat)
    (* goroutine [i] ends; it has read [kill != 0] from that iteration on *)
| PRecv        (* [case result := <-results] *)
| PTimeout     (* [case <-timeoutChan] *)
| PDrain.      (* [<-results] after the loop, when [computeInfo] *)

Definition kill_reads (killed_at : option nat) (k : nat) : bool :=
  match killed_at with None => false | Some t => (t <=? k)%nat end.

(** One event; [None] when it cannot happen in this state. *)
Definition par_step {V St} `{Inhabited V} (fuel : nat) (model : Model V St)
    (hist : list (list (entry V))) (computeInfo : bool) (timeout : Z)
    (ev : par_event) (s : par) : Go (option par) :=
  match ev with
  | PFinish i killed_at =>
      match hist !! i, p_longest s !! i with
      | Some subhistory, Some None =>
          if bool_decide (killed_at = None) || p_kill s then
            '(ok, l) ← checkSingle fuel model subhistory computeInfo (kill_reads killed_at);
            Ret (Some (mkPar (p_kill s) (<[i := Some l]> (p_longest s)) (p_results s ++ [ok])
                         (p_ok s) (p_timedOut s) (p_count s) (p_looping s)))
          else Ret None
      | _, _ => Ret None
      end
  | PRecv =>
      match p_looping s, p_results s with
      | true, result :: results =>
          let count := p_count s + 1 in
          let ok := p_ok s && result in
          if negb ok && negb computeInfo then
            Ret (Some (mkPar true (p_longest s) results ok (p_timedOut s) count false))
          else
            Ret (Some (mkPar (p_kill s) (p_longest s) results ok (p_timedOut s) count
                         (negb (zlen hist <=? count))))
      | _, _ => Ret None
      end
  | PTimeout =>
      if p_looping s && (0 <? timeout) then
        Ret (Some (mkPar true (p_longest s) (p_results s) (p_ok s) true (p_count s) false))
      else Ret None
  | PDrain =>
      match p_results s with
      | _ :: results =>
          if negb (p_looping s) && computeInfo && (p_count s <? zlen hist) then
            Ret (Some (mkPar (p_kill s) (p_longest s) results (p_ok s) (p_timedOut s)
                         (p_count s + 1) false))
          else Ret None
      | [] => Ret None
      end
  end.

Definition par_init {V} (hist : list (list (entry V))) : par :=
  mkPar false (replicate (length hist) None) [] true false 0 true.

Fixpoint par_run {V St} `{Inhabited V} (fuel : nat) (model : Model V St)
    (hist : list (list (entry V))) (computeInfo : bool) (timeout : Z)
    (evs : list par_event) (s : par) : Go (option par) :=
  match evs with
  | [] => Ret (Some s)
  | ev :: evs' =>
      s' ← par_step fuel model hist computeInfo timeout ev s;
      match s' with
      | Some s' => par_run fuel model hist computeInfo timeout evs' s'
      | None => Ret None
      end
  end.

(** The main function has left its loops. *)
Definition par_done {V} (hist : list (list (entry V))) (computeInfo : bool) (s : par) : bool :=
  negb (p_looping s) && (negb computeInfo || negb (p_count s <? zlen hist)).

Definition par_verdict (s : par) : CheckResult :=
  if negb (p_ok s) then Illegal
  else if p_timedOut s then Unknown else Ok.

(** The distinct sequences [longest] points to, in the order the map of pointers
    is enumerated. *)
Definition partials `{KeyOrder} (l : option (list (option nat) * list (list Z)))
  : list (list Z) :=
  match l with
  | None => []
  | Some (longest, seqs) =>
      let set := foldl (λ (m : gmap Z unit) v,
        match v with Some p => <[Z.of_nat p := tt]> m | None => m end) ∅ longest in
      omap (λ k, seqs !! Z.to_nat k) (key_order set)
  end.

Definition par_info `{KeyOrder} {V} (hist : list (list (entry V))) (computeInfo : bool)
    (s : par) : linearizationInfo V :=
  if computeInfo then mkInfo hist (partials <$> p_longest s) else mkInfo [] [].

(** What a call has come to after a sequence of events: the sequence is not
    possible, the call has not returned yet, or it has. *)
Inductive outcome (A : Type) :=
| Impossible
| Running
| Returned (a : A).
Arguments Impossible {A}.
Arguments Running {A}.
Arguments Returned {A}.

Definition outcome_map {A B} (f : A → B) (o : outcome A) : outcome B :=
  match o with Impossible => Impossible | Running => Running | Returned a => Returned (f a) end.

(** [checkParallel] under the interleaving [evs]. *)
Definition checkParallel `{KeyOrder} {V St} `{Inhabited V} (fuel : nat) (model : Model V St)
    (hist : list (list (entry V))) (computeInfo : bool) (timeout : Z)
    (evs : list par_event) : Go (outcome (CheckResult * linearizationInfo V)) :=
  s ← par_run fuel model hist computeInfo timeout evs (par_init hist);
  match s with
  | Some s =>
      if par_done hist computeInfo s then Ret (Returned (par_verdict s, par_info hist computeInfo s))
      else Ret Running
  | None => Ret Impossible
  end.

Definition checkEvents `{KeyOrder} {V St} `{Inhabited V} `{EqDecision St} (fuel : nat)
    (model : Model V St) (hist : list (Event V)) (verbose : bool) (timeout : Z)
    (evs : list par_event) : Go (outcome (CheckResult * linearizationInfo V)) :=
  let model := fillDefault model in
  partitions ← call_field (PartitionEvent model) hist;
  let l := (λ subhistory, convertEntries (renumber subhistory)) <$> partitions in
  checkParallel fuel model l verbose timeout evs.

Definition checkOperations `{Sorter} `{KeyOrder} {V St} `{Inhabited V} `{EqDecision St}
    (fuel : nat) (model : Model V St) (hist : list (Operation V)) (verbose : bool) (timeout : Z)
    (evs : list par_event) : Go (outcome (CheckResult * linearizationInfo V)) :=
  let model := fillDefault model in
  partitions ← call_field (Partition model) hist;
  let l := makeEntries <$> partitions in
  checkParallel fuel model l verbose timeout evs.

(** ** porcupine.go *)
Section porcupine_go.
Context `{Sorter} `{KeyOrder} {V St : Type} `{Inhabited V} `{EqDecision St}.
Context (fuel : nat) (model : Model V St).

Definition CheckOperations (hist : list (Operation V)) (evs : list par_event) : Go (outcome bool) :=
  res ← checkOperations fuel model hist false 0 evs;
  Ret (outcome_map (λ r, bool_decide (r.1 = Ok)) res).

Definition CheckOperationsTimeout (hist : list (Operation V)) (timeout : Z)
    (evs : list par_event) : Go (outcome CheckResult) :=
  res ← checkOperations fuel model hist false timeout evs;
  Ret (outcome_map fst res).

Definition CheckOperationsVerbose (hist : list (Operation V)) (timeout : Z)
    (evs : list par_event) : Go (outcome (CheckResult * linearizationInfo V)) :=
  checkOperations fuel model hist true timeout evs.

Definition CheckEvents (hist : list (Event V)) (evs : list par_event) : Go (outcome bool) :=
  res ← checkEvents fuel model hist false 0 evs;
  Ret (outcome_map (λ r, bool_decide (r.1 = Ok)) res).

Definition CheckEventsTimeout (hist : list (Event V)) (timeout : Z)
    (evs : list par_event) : Go (outcome CheckResult) :=
  res ← checkEvents fuel model hist false timeout evs;
  Ret (outcome_map fst res).

Definition CheckEventsVerbose (hist : list (Event V)) (timeout : Z)
    (evs : list par_event) : Go (outcome (CheckResult * linearizationInfo V)) :=
  checkEvents fuel model hist true timeout evs.
End porcupine_go.
