(* ===== verification/PorcupineList.v ===== *)
(** * The linked list of the linearizability checker

    What [insertBefore], [makeLinkedEntries], [length], [lift] and [unlift] of
    [porcupine/checker.go] do to the heap.  [seg h pv l nx] says that the nodes
    [l] are linked in this order, between the node [pv] before the first and
    [nx] after the last.

    [makeLinkedEntries] allocates the nodes from the last entry to the first, so
    the node of an entry [k] places before the end has pointer [k], and the list
    runs through the pointers downwards ([makeLinkedEntries_spec]).  [lift]
    removes a call and its return and changes nothing else ([lift_spec]);
    [unlift] gives back exactly the heap before ([unlift_lift]). *)

From S2P Require Import Prelude Bitset Porcupine.

Section linked_list.
Context {V : Type}.
Implicit Types (h : list (node V)) (l : list nat) (p q : nat).

(** The first pointer of [l], or [nx] when there is none. *)
Definition hd_or l (nx : option nat) : option nat :=
  match l with [] => nx | q :: _ => Some q end.

Definition last_or l (pv : option nat) : option nat :=
  match last l with Some q => Some q | None => pv end.

Fixpoint seg h (pv : option nat) l (nx : option nat) : Prop :=
  match l with
  | [] => True
  | p :: l' =>
      (∃ nd, h !! p = Some nd ∧ n_prev nd = pv ∧ n_next nd = hd_or l' nx) ∧
      seg h (Some p) l' nx
  end.

Lemma hd_or_app l l' nx : hd_or (l ++ l') nx = hd_or l (hd_or l' nx).
Proof. by destruct l. Qed.

Lemma last_or_cons p l pv : last_or (p :: l) pv = last_or l (Some p).
Proof. unfold last_or. rewrite last_cons. by destruct (last l). Qed.

Lemma last_or_snoc p l pv : last_or (l ++ [p]) pv = Some p.
Proof. unfold last_or. by rewrite last_snoc. Qed.

Lemma seg_app h pv l l' nx :
  seg h pv (l ++ l') nx ↔ seg h pv l (hd_or l' nx) ∧ seg h (last_or l pv) l' nx.
Proof.
  revert pv. induction l as [|p l IH]; intros pv; [by simpl; tauto|].
  simpl. rewrite IH, hd_or_app, last_or_cons. tauto.
Qed.

(** A segment depends on its own nodes only. *)
Lemma seg_frame h h' pv l nx :
  (∀ p, p ∈ l → h' !! p = h !! p) → seg h pv l nx → seg h' pv l nx.
Proof.
  revert pv. induction l as [|p l IH]; intros pv Hh; [done|]. simpl.
  intros [(nd & Hp & ?) Hl]. split; [|by apply IH; set_solver].
  exists nd. rewrite Hh by set_solver. done.
Qed.

Lemma seg_alter_next h pv l p nx :
  p ∉ l → (∃ nx0, seg h pv (l ++ [p]) nx0) →
  seg (alter (with_next nx) p h) pv (l ++ [p]) nx.
Proof.
  intros Hnp [nx0 Hs]. apply seg_app in Hs as [Hl [(nd & Hp & Hpv & Hnx) _]].
  apply seg_app. split.
  - eapply seg_frame; [|done]. intros q Hq. apply list_lookup_alter_ne. set_solver.
  - split; [|done]. exists (with_next nx nd). rewrite list_lookup_alter_eq, Hp. done.
Qed.

Lemma seg_alter_prev h pv pv' l p nx :
  p ∉ l → seg h pv (p :: l) nx → seg (alter (with_prev pv') p h) pv' (p :: l) nx.
Proof.
  intros Hnp [(nd & Hp & Hpv & Hnx) Hl]. split.
  - exists (with_prev pv' nd). rewrite list_lookup_alter_eq, Hp. done.
  - eapply seg_frame; [|done]. intros q Hq. apply list_lookup_alter_ne. set_solver.
Qed.

Lemma set_next_Ret h p (q : option nat) nd :
  h !! p = Some nd → set_next h (Some p) q = Ret (alter (with_next q) p h).
Proof. intros Hp. unfold set_next. simpl. by rewrite Hp. Qed.

Lemma set_prev_Ret h p (q : option nat) nd :
  h !! p = Some nd → set_prev h (Some p) q = Ret (alter (with_prev q) p h).
Proof. intros Hp. unfold set_prev. simpl. by rewrite Hp. Qed.

Lemma load_Ret h p nd : h !! p = Some nd → load h (Some p) = Ret nd.
Proof. intros Hp. simpl. by rewrite Hp. Qed.

(** The fields the list operations never write. *)
Definition same_node (nd nd' : node V) : Prop :=
  n_value nd' = n_value nd ∧ n_match nd' = n_match nd ∧ n_id nd' = n_id nd.

Definition same_nodes h h' : Prop :=
  length h' = length h ∧
  ∀ p nd, h !! p = Some nd → ∃ nd', h' !! p = Some nd' ∧ same_node nd nd'.

#[global] Instance same_nodes_preorder : PreOrder same_nodes.
Proof.
  split.
  - intros h. split; [done|]. intros p nd Hp. by exists nd.
  - intros h1 h2 h3 [L1 H1] [L2 H2]. split; [congruence|]. intros p nd Hp.
    destruct (H1 _ _ Hp) as (nd' & Hp' & ? & ? & ?).
    destruct (H2 _ _ Hp') as (nd'' & Hp'' & ? & ? & ?).
    exists nd''. split; [done|]. split_and!; congruence.
Qed.

Lemma same_nodes_alter h f p :
  (∀ nd, same_node nd (f nd)) → same_nodes h (alter f p h).
Proof.
  intros Hf. split; [apply length_alter|]. intros q nd Hq.
  destruct (decide (p = q)) as [->|Hne].
  - rewrite list_lookup_alter_eq, Hq. simpl. eauto.
  - rewrite list_lookup_alter_ne by done. by exists nd.
Qed.

Lemma same_nodes_next h p (q : option nat) : same_nodes h (alter (with_next q) p h).
Proof. by apply same_nodes_alter. Qed.

Lemma same_nodes_prev h p (q : option nat) : same_nodes h (alter (with_prev q) p h).
Proof. by apply same_nodes_alter. Qed.

Lemma same_nodes_lookup h h' p nd' :
  same_nodes h h' → h' !! p = Some nd' → ∃ nd, h !! p = Some nd ∧ same_node nd nd'.
Proof.
  intros [Hl Hs] Hp. destruct (lookup_lt_is_Some_2 h p) as [nd Hnd].
  { rewrite <- Hl. by eapply lookup_lt_Some. }
  exists nd. split; [done|]. destruct (Hs _ _ Hnd) as (nd'' & ? & ?). by simplify_eq.
Qed.

(** ** Removing one node, and putting it back *)

(** The two assignments that take [p] out of the list. *)
Definition unlink h (nd : node V) : list (node V) :=
  let h1 := match n_prev nd with Some a => alter (with_next (n_next nd)) a h | None => h end in
  match n_next nd with Some c => alter (with_prev (n_prev nd)) c h1 | None => h1 end.

(** The two assignments that put it back. *)
Definition relink h p (nd : node V) : list (node V) :=
  let h1 := match n_prev nd with Some a => alter (with_next (Some p)) a h | None => h end in
  match n_next nd with Some c => alter (with_prev (Some p)) c h1 | None => h1 end.

Lemma unlink_same h nd : same_nodes h (unlink h nd).
Proof.
  unfold unlink. destruct (n_prev nd), (n_next nd);
    repeat (etrans; [|apply same_nodes_prev]); repeat (etrans; [|apply same_nodes_next]); done.
Qed.

Lemma unlink_other h nd q :
  n_prev nd ≠ Some q → n_next nd ≠ Some q → unlink h nd !! q = h !! q.
Proof.
  intros Ha Hc. unfold unlink. destruct (n_prev nd), (n_next nd);
    rewrite ?list_lookup_alter_ne by congruence; done.
Qed.

(** The list without [p]. *)
Lemma unlink_seg h pv l p l' nd :
  NoDup (l ++ p :: l') → l ≠ [] → h !! p = Some nd →
  seg h pv (l ++ p :: l') None → seg (unlink h nd) pv (l ++ l') None.
Proof.
  intros Hnd Hne Hp Hs. destruct (destruct_last l Hne) as (k & a & ->).
  apply seg_app in Hs as [Hl [(nd' & Hp' & Hpv & Hnx) Hl']]. simplify_eq.
  rewrite last_or_snoc in Hpv.
  assert (Ha : ∀ x, seg (alter (with_next x) a h) pv (k ++ [a]) x).
  { intros x. apply seg_alter_next; [|by eexists].
    apply NoDup_app in Hnd as (Hk & _). apply NoDup_app in Hk. set_solver. }
  unfold unlink. rewrite Hpv, Hnx. apply NoDup_app in Hnd as (Hk & Hd & Hpl').
  apply NoDup_cons in Hpl' as [_ Hl'd].
  destruct l' as [|c l']; simpl; [rewrite app_nil_r; apply Ha|].
  apply NoDup_cons in Hl'd as [Hc _].
  apply seg_app. rewrite last_or_snoc. split.
  - eapply seg_frame; [|apply Ha]. intros q Hq. apply list_lookup_alter_ne. set_solver.
  - apply seg_alter_prev with (pv := Some p); [done|].
    eapply seg_frame; [|apply Hl']. intros q Hq. apply list_lookup_alter_ne. set_solver.
Qed.

(** Where the neighbours of [p] point to it, [relink] undoes [unlink]. *)
Definition linked h p (nd : node V) : Prop :=
  (∀ a, n_prev nd = Some a → a ≠ p ∧ ∃ na, h !! a = Some na ∧ n_next na = Some p) ∧
  (∀ c, n_next nd = Some c → c ≠ p ∧ ∃ nc, h !! c = Some nc ∧ n_prev nc = Some p).

Lemma relink_unlink h p nd : linked h p nd → relink (unlink h nd) p nd = h.
Proof.
  intros [Ha Hc]. unfold relink, unlink.
  apply list_eq. intros q.
  destruct (n_prev nd) as [a|]; destruct (n_next nd) as [c|];
    try destruct (Ha _ eq_refl) as (_ & na & Hna & Hnx);
    try destruct (Hc _ eq_refl) as (_ & nc & Hnc & Hpv);
    repeat match goal with
    | |- context [alter _ q _ !! q] => rewrite list_lookup_alter_eq
    | |- context [alter _ ?x _ !! q] =>
        destruct (decide (x = q)) as [->|?];
        [rewrite list_lookup_alter_eq | rewrite list_lookup_alter_ne by done]
    end; simplify_eq; rewrite ?Hna, ?Hnc; simpl;
    unfold with_next, with_prev; repeat f_equal;
    repeat match goal with n : node V |- _ => destruct n end; simpl in *; by simplify_eq.
Qed.

Lemma seg_linked h pv l p l' nd :
  NoDup (l ++ p :: l') → l ≠ [] → h !! p = Some nd →
  seg h pv (l ++ p :: l') None → linked h p nd.
Proof.
  intros Hnd Hne Hp Hs. destruct (destruct_last l Hne) as (k & a & ->).
  apply seg_app in Hs as [Hl [(nd' & Hp' & Hpv & Hnx) Hl']]. simplify_eq.
  rewrite last_or_snoc in Hpv. simpl in Hl.
  apply seg_app in Hl as [_ [(na & Hna & _ & Hnan) _]]. simpl in Hnan.
  split.
  - intros x Hx. rewrite Hpv in Hx. injection Hx as <-. split; [|eauto].
    intros ->. apply NoDup_app in Hnd as (_ & Hd & _). apply (Hd p); set_solver.
  - intros c Hx. destruct l' as [|c' l']; [by rewrite Hnx in Hx|].
    rewrite Hnx in Hx. injection Hx as ->. destruct Hl' as [(nc & Hnc & Hncp & _) _].
    split; [|eauto]. intros ->. apply NoDup_app in Hnd as (_ & _ & Hd).
    apply NoDup_cons in Hd as [Hd _]. set_solver.
Qed.

(** ** [lift] and [unlift] *)

(** [p] is a call in the list whose return [m] comes after it. *)
Definition paired h (pv : option nat) l1 p l2 m l3 : Prop :=
  NoDup (l1 ++ p :: l2 ++ m :: l3) ∧ l1 ≠ [] ∧
  seg h pv (l1 ++ p :: l2 ++ m :: l3) None ∧
  ∃ nd, h !! p = Some nd ∧ n_match nd = Some m.

Lemma seg_lookup h pv l p nx : seg h pv l nx → p ∈ l → ∃ nd, h !! p = Some nd.
Proof.
  revert pv. induction l as [|q l IH]; intros pv; [set_solver|].
  intros [(nd & Hq & _) Hl] [->|Hin]%elem_of_cons; eauto.
Qed.

(** The node of [p] as the list has it. *)
Lemma seg_at h pv l p l' nx :
  seg h pv (l ++ p :: l') nx →
  ∃ nd, h !! p = Some nd ∧ n_prev nd = last_or l pv ∧ n_next nd = hd_or l' nx.
Proof. intros [_ [? _]]%seg_app. done. Qed.

Lemma unlink_self h p nd : linked h p nd → h !! p = Some nd → unlink h nd !! p = Some nd.
Proof.
  intros [Ha Hc] Hp. rewrite unlink_other; [done| |]; intros Hx.
  - by destruct (Ha _ Hx).
  - by destruct (Hc _ Hx).
Qed.

(** The assignments of the code that remove the node of [p]. *)
Lemma unlink_code h p nd a :
  h !! p = Some nd → n_prev nd = Some a → linked h p nd →
  ∃ h1, set_next h (n_prev nd) (n_next nd) = Ret h1 ∧ h1 !! p = Some nd ∧
    match n_next nd with
    | None => Ret h1
    | Some _ => set_prev h1 (n_next nd) (n_prev nd)
    end = Ret (unlink h nd).
Proof.
  intros Hp Ha [Hla Hlc]. destruct (Hla _ Ha) as (Hap & na & Hna & _).
  unfold unlink. rewrite Ha. eexists. split; [by eapply set_next_Ret|].
  split; [by rewrite list_lookup_alter_ne|].
  destruct (n_next nd) as [c|]; [|done]. destruct (Hlc _ eq_refl) as (_ & nc & Hnc & _).
  destruct (same_nodes_next h a (Some c)) as [_ Hs].
  destruct (Hs _ _ Hnc) as (nc' & Hnc' & _). by eapply set_prev_Ret.
Qed.

(** The assignments that put it back. *)
Lemma relink_code h p nd a :
  h !! p = Some nd → n_prev nd = Some a → a ≠ p → is_Some (h !! a) →
  (∀ c, n_next nd = Some c → is_Some (h !! c)) →
  ∃ h1, set_next h (n_prev nd) (Some p) = Ret h1 ∧ h1 !! p = Some nd ∧
    match n_next nd with
    | None => Ret h1
    | Some _ => set_prev h1 (n_next nd) (Some p)
    end = Ret (relink h p nd).
Proof.
  intros Hp Ha Hap [na Hna] Hc. unfold relink. rewrite Ha.
  eexists. split; [by eapply set_next_Ret|]. split; [by rewrite list_lookup_alter_ne|].
  destruct (n_next nd) as [c|]; [|done]. destruct (Hc _ eq_refl) as [nc Hnc].
  destruct (same_nodes_next h a (Some p)) as [_ Hs].
  destruct (Hs _ _ Hnc) as (nc' & Hnc' & _). by eapply set_prev_Ret.
Qed.

(** [lift] is two removals, in the order of the code. *)
Lemma lift_unlink h pv l1 p l2 m l3 :
  paired h pv l1 p l2 m l3 →
  ∃ e m1, h !! p = Some e ∧ n_match e = Some m ∧ unlink h e !! m = Some m1 ∧
    is_Some (n_prev e) ∧ is_Some (n_next e) ∧ is_Some (n_prev m1) ∧
    n_prev m1 ≠ Some p ∧ n_next m1 ≠ Some p ∧
    lift h (Some p) = Ret (unlink (unlink h e) m1) ∧
    seg (unlink (unlink h e) m1) pv (l1 ++ l2 ++ l3) None ∧
    linked h p e ∧ linked (unlink h e) m m1.
Proof.
  intros (Hnd & Hne & Hs & e & He & Hm).
  pose proof (unlink_seg h pv l1 p _ e Hnd Hne He Hs) as Hs1.
  pose proof (seg_linked h pv l1 p _ e Hnd Hne He Hs) as Hl1.
  assert (Hnd1 : NoDup ((l1 ++ l2) ++ m :: l3)).
  { rewrite <- app_assoc. apply NoDup_app in Hnd as (? & Hd & Hc).
    apply NoDup_cons in Hc as [? ?]. apply NoDup_app. set_solver. }
  assert (Hp : p ∉ l1 ++ l2 ++ m :: l3).
  { apply NoDup_app in Hnd as (_ & Hd & Hc). apply NoDup_cons in Hc as [Hc _].
    specialize (Hd p). set_solver. }
  assert (Hne1 : l1 ++ l2 ≠ []) by (by destruct l1).
  rewrite app_assoc in Hs1. destruct (seg_at _ _ _ _ _ _ Hs1) as (m1 & Hm1 & Hm1p & Hm1n).
  pose proof (unlink_seg _ pv _ m _ m1 Hnd1 Hne1 Hm1 Hs1) as Hs2.
  pose proof (seg_linked _ pv _ m _ m1 Hnd1 Hne1 Hm1 Hs1) as Hl2.
  destruct (seg_at _ _ _ _ _ _ Hs) as (e' & He' & Hep & Hen). simplify_eq.
  destruct (destruct_last l1 Hne) as (k & a & ->). rewrite last_or_snoc in Hep.
  destruct (destruct_last _ Hne1) as (k1 & b & Hb). rewrite Hb, last_or_snoc in Hm1p.
  assert (Hbin : b ∈ (k ++ [a]) ++ l2) by (rewrite Hb; set_solver).
  assert (∃ c, n_next e = Some c ∧ c ∈ l2 ++ m :: l3) as (c & Hc & Hcin).
  { rewrite Hen. destruct l2 as [|c l2]; simpl; set_solver. }
  assert (Hnm1 : ∀ d, n_next m1 = Some d → d ∈ l3).
  { rewrite Hm1n. destruct l3 as [|d0 l3]; simpl; [done|]. set_solver. }
  exists e, m1. split_and!; try done.
  - rewrite Hm1p. intros [= ->]. set_solver.
  - intros Hx%Hnm1. set_solver.
  - destruct (unlink_code h p e a He Hep Hl1) as (h1 & Hh1 & Hh1p & Hh1u).
    destruct (unlink_code _ m m1 b Hm1 Hm1p Hl2) as (h2 & Hh2 & Hh2m & Hh2u).
    unfold lift. rewrite (load_Ret _ _ _ He), bind_Ret, Hh1, bind_Ret.
    rewrite (load_Ret _ _ _ Hh1p), bind_Ret. rewrite Hc in Hh1u.
    rewrite Hc at 1. rewrite Hh1u, bind_Ret.
    rewrite (load_Ret _ _ e), bind_Ret, Hm.
    2:{ by eapply unlink_self. }
    rewrite (load_Ret _ _ _ Hm1), bind_Ret, Hh2, bind_Ret, (load_Ret _ _ _ Hh2m), bind_Ret.
    apply Hh2u.
  - by rewrite <- app_assoc in Hs2.
Qed.

(** [unlift] after [lift] restores the heap exactly. *)
Lemma unlift_lift h pv l1 p l2 m l3 h' :
  paired h pv l1 p l2 m l3 → lift h (Some p) = Ret h' → unlift h' (Some p) = Ret h.
Proof.
  intros (e & m1 & He & Hm & Hm1 & [a Hep] & [c Hen] & [b Hmb] & Hmp & Hmn & Hl & Hs & Hl1 & Hl2)
    %lift_unlink.
  rewrite Hl. intros [= <-].
  set (h1 := unlink h e) in *. set (h2 := unlink h1 m1) in *.
  assert (Hh1p : h1 !! p = Some e) by (by apply unlink_self).
  assert (Hh2p : h2 !! p = Some e) by (by unfold h2; rewrite unlink_other).
  assert (Hh2m : h2 !! m = Some m1) by (by apply unlink_self).
  assert (Hsame : ∀ g nd q, is_Some (g !! q) → is_Some (unlink g nd !! q)).
  { intros g nd q [nq Hq]. destruct (unlink_same g nd) as [_ H1].
    destruct (H1 _ _ Hq) as (n1 & Hn1 & _). eauto. }
  pose proof Hl2 as [Hl2a Hl2c]. destruct (Hl2a _ Hmb) as (Hbm & nb & Hnb & _).
  destruct (relink_code h2 m m1 b Hh2m Hmb Hbm) as (g1 & Hg1 & Hg1m & Hg1r).
  { apply Hsame. eauto. }
  { intros d Hd. apply Hsame. destruct (Hl2c _ Hd) as (_ & nd & Hnd & _). eauto. }
  pose proof Hl1 as [Hl1a Hl1c]. destruct (Hl1a _ Hep) as (Hap & na & Hna & _).
  destruct (relink_code h1 p e a Hh1p Hep Hap) as (g2 & Hg2 & Hg2p & Hg2r).
  { apply Hsame. eauto. }
  { intros d Hd. apply Hsame. destruct (Hl1c _ Hd) as (_ & nd & Hnd & _). eauto. }
  unfold h2 in Hg1r. rewrite relink_unlink in Hg1r by done.
  unfold h1 in Hg2r. rewrite relink_unlink in Hg2r by done. rewrite Hen in Hg2r.
  unfold unlift. rewrite (load_Ret _ _ _ Hh2p), bind_Ret, Hm, (load_Ret _ _ _ Hh2m), bind_Ret.
  rewrite Hg1, bind_Ret, (load_Ret _ _ _ Hg1m), bind_Ret, Hg1r, bind_Ret.
  rewrite (load_Ret _ _ _ Hh1p), bind_Ret, Hg2, bind_Ret, (load_Ret _ _ _ Hg2p), bind_Ret, Hen.
  done.
Qed.

(** [lift] takes the call and its return out of the list, and leaves every other
    field of every node. *)
Lemma lift_spec h pv l1 p l2 m l3 :
  paired h pv l1 p l2 m l3 →
  ∃ h', lift h (Some p) = Ret h' ∧ seg h' pv (l1 ++ l2 ++ l3) None ∧ same_nodes h h'.
Proof.
  intros (e & m1 & He & Hm & Hm1 & _ & _ & _ & _ & _ & Hl & Hs & _ & _)%lift_unlink.
  eexists. split; [done|]. split; [done|]. etrans; apply unlink_same.
Qed.

(** ** Building the list *)

(** Inserting before the first node makes the new node the first. *)
Lemma insertBefore_front h p l nd :
  length h = p → NoDup (p :: l) → seg h None l None → n_prev nd = None → n_next nd = None →
  ∃ h', insertBefore (h ++ [nd]) (Some p) (hd_or l None) = Ret h' ∧
    seg h' None (p :: l) None ∧ same_nodes (h ++ [nd]) h'.
Proof.
  intros Hp [Hpl Hndl]%NoDup_cons Hs Hpv Hnx.
  assert (Hnew : (h ++ [nd]) !! p = Some nd) by (by apply list_lookup_middle).
  destruct l as [|c l]; simpl.
  - eexists. split; [done|]. split; [|done]. split; [|done]. eauto.
  - destruct Hs as [(nc & Hc & Hcp & Hcn) Hs]. apply not_elem_of_cons in Hpl as [Hne Hpl].
    apply NoDup_cons in Hndl as [Hcl _].
    assert (Hc' : (h ++ [nd]) !! c = Some nc) by (by apply lookup_app_l_Some).
    simpl. rewrite Hc'. simpl. rewrite Hcp, (set_prev_Ret _ _ _ _ Hc'), bind_Ret.
    rewrite (set_next_Ret _ p _ nd) by (by rewrite list_lookup_alter_ne).
    rewrite bind_Ret. eexists. split; [done|]. split.
    + split; [|split].
      * exists (with_next (Some c) nd).
        rewrite list_lookup_alter_eq, list_lookup_alter_ne, Hnew by done. done.
      * exists (with_prev (Some p) nc).
        rewrite list_lookup_alter_ne, list_lookup_alter_eq, Hc' by done. done.
      * eapply seg_frame; [|done]. intros q Hq.
        destruct (seg_lookup _ _ _ _ _ Hs Hq) as [nq Hnq].
        rewrite !list_lookup_alter_ne by (intros ->; done).
        by rewrite (lookup_app_l_Some _ _ _ _ Hnq).
    + etrans; [apply same_nodes_prev | apply same_nodes_next].
Qed.

(** The pointers below [k], downwards: the order of the list. *)
Fixpoint down (k : nat) : list nat :=
  match k with O => [] | S k => k :: down k end.

Lemma elem_of_down k p : p ∈ down k ↔ (p < k)%nat.
Proof.
  induction k as [|k IH]; simpl; [set_solver by lia|].
  rewrite elem_of_cons, IH. lia.
Qed.

Lemma NoDup_down k : NoDup (down k).
Proof.
  induction k as [|k IH]; simpl; [constructor|]. constructor; [|done].
  rewrite elem_of_down. lia.
Qed.

Lemma length_down k : length (down k) = k.
Proof. induction k; simpl; congruence. Qed.

(** The map [match] after the entries [es] (taken from the last one backwards). *)
Definition match_map (es : list (entry V)) : gmap Z nat :=
  foldl (λ m '(p, e), match e_kind e with returnEntry => <[e_id e := p]> m | callEntry => m end)
    ∅ (imap pair es).

Lemma match_map_snoc es e :
  match_map (es ++ [e]) =
    match e_kind e with
    | returnEntry => <[e_id e := length es]> (match_map es)
    | callEntry => match_map es
    end.
Proof. unfold match_map. rewrite imap_app, foldl_app. simpl. by rewrite Nat.add_0_r. Qed.

Lemma match_map_Some es i p :
  match_map es !! i = Some p → ∃ e, es !! p = Some e ∧ e_kind e = returnEntry ∧ e_id e = i.
Proof.
  induction es as [|e es IH] using rev_ind; [done|].
  rewrite match_map_snoc. destruct (e_kind e) eqn:Hk.
  - intros (e' & He' & ?)%IH. exists e'. by rewrite (lookup_app_l_Some _ _ _ _ He').
  - intros [[<- <-]|[_ (e' & He' & ?)%IH]]%lookup_insert_Some.
    + exists e. split; [by apply list_lookup_middle|done].
    + exists e'. by rewrite (lookup_app_l_Some _ _ _ _ He').
Qed.

Lemma match_map_is_Some es e :
  e ∈ es → e_kind e = returnEntry → is_Some (match_map es !! e_id e).
Proof.
  induction es as [|e' es IH] using rev_ind; [set_solver|].
  rewrite match_map_snoc. intros Hin Hk. apply elem_of_app in Hin as [Hin|Hin].
  - destruct (e_kind e'); [by apply IH|]. apply lookup_insert_is_Some'. auto.
  - apply list_elem_of_singleton in Hin as <-. rewrite Hk. by rewrite lookup_insert_eq.
Qed.

(** The node of the entry at [p] in [R], the entries in reverse. *)
Definition node_ok (R : list (entry V)) p (nd : node V) : Prop :=
  ∃ e, R !! p = Some e ∧ n_value nd = e_value e ∧ n_id nd = e_id e ∧
    n_match nd = match e_kind e with
                 | returnEntry => None
                 | callEntry => match_map (take p R) !! e_id e
                 end.

Definition nodes_ok (R : list (entry V)) h : Prop :=
  ∀ p, (p < length R)%nat → ∃ nd, h !! p = Some nd ∧ node_ok R p nd.

Lemma node_ok_same R p nd nd' : same_node nd nd' → node_ok R p nd → node_ok R p nd'.
Proof.
  intros (Hv & Hm & Hi) (e & He & ? & ? & ?). exists e.
  split_and!; [done | congruence..].
Qed.

Lemma nodes_ok_same R h h' : same_nodes h h' → nodes_ok R h → nodes_ok R h'.
Proof.
  intros [_ Hs] Hok p Hp. destruct (Hok p Hp) as (nd & Hnd & ?).
  destruct (Hs _ _ Hnd) as (nd' & ? & ?). exists nd'. split; [done|]. by eapply node_ok_same.
Qed.

Lemma nodes_ok_snoc R h e v m :
  nodes_ok R h → length h = length R →
  v = e_value e →
  m = match e_kind e with returnEntry => None | callEntry => match_map R !! e_id e end →
  nodes_ok (R ++ [e]) (h ++ [mkNode v m (e_id e) None None]).
Proof.
  intros Hok Hlen -> -> p Hp. rewrite length_app in Hp. simpl in Hp.
  destruct (decide (p < length R)%nat) as [Hlt|Hge].
  - destruct (Hok p Hlt) as (nd & Hnd & e' & He' & ? & ? & ?).
    exists nd. rewrite (lookup_app_l_Some _ _ _ _ Hnd). split; [done|].
    exists e'. rewrite (lookup_app_l_Some _ _ _ _ He'), take_app_le by lia. done.
  - assert (p = length R) as -> by lia. eexists. split; [by apply list_lookup_middle|].
    exists e. rewrite take_app_length, list_lookup_middle by done. done.
Qed.

(** The state of the loop after the entries [R1]. *)
Record linking (R1 : list (entry V)) h (root : option nat) (m : gmap Z nat) : Prop := {
  lk_length : length h = length R1;
  lk_root : root = hd_or (down (length R1)) None;
  lk_seg : seg h None (down (length R1)) None;
  lk_match : m = match_map R1;
  lk_nodes : nodes_ok R1 h
}.

Lemma linking_step R1 e h root m nm :
  linking R1 h root m →
  nm = match e_kind e with returnEntry => None | callEntry => match_map R1 !! e_id e end →
  ∃ h', insertBefore (h ++ [mkNode (e_value e) nm (e_id e) None None]) (Some (length h)) root
      = Ret h' ∧
    linking (R1 ++ [e]) h' (Some (length h)) (match_map (R1 ++ [e])).
Proof.
  intros [Hl Hr Hs Hm Hn] Hnm.
  destruct (insertBefore_front h (length h) (down (length R1))
    (mkNode (e_value e) nm (e_id e) None None)) as (h' & Hi & Hs' & Hsame); [done| |done..|].
  { rewrite Hl. apply (NoDup_down (S (length R1))). }
  exists h'. rewrite Hr. split; [done|].
  assert (Hlen : length (R1 ++ [e]) = S (length R1)) by (rewrite length_app; simpl; lia).
  split; [| | |done|].
  - destruct Hsame as [-> _]. rewrite length_app, Hlen, Hl. simpl. lia.
  - rewrite Hlen. simpl. by rewrite Hl.
  - rewrite Hlen. simpl. by rewrite Hl in Hs'.
  - eapply nodes_ok_same; [done|]. by apply nodes_ok_snoc.
Qed.

Lemma link_entries_spec R1 R2 h root m :
  linking R1 h root m →
  ∃ h' root' m', link_entries R2 h root m = Ret (h', root') ∧ linking (R1 ++ R2) h' root' m'.
Proof.
  revert R1 h root m. induction R2 as [|e R2 IH]; intros R1 h root m Hlk.
  - exists h, root, m. by rewrite app_nil_r.
  - rewrite cons_middle, app_assoc.
    destruct (linking_step R1 e h root m _ Hlk eq_refl) as (h1 & Hi & Hlk').
    destruct (IH _ _ _ _ Hlk') as (h' & root' & m' & He & Hlk2).
    exists h', root', m'. split; [|done].
    pose proof (lk_match _ _ _ _ Hlk) as Hm. simpl.
    rewrite match_map_snoc, <- (lk_length _ _ _ _ Hlk) in He. destruct (e_kind e); rewrite Hm, Hi; apply He.
Qed.

(** [makeLinkedEntries] links the entries in their order; each call points to
    its return. *)
Lemma makeLinkedEntries_spec (E : list (entry V)) :
  ∃ h, makeLinkedEntries E = Ret (h, hd_or (down (length E)) None) ∧
    length h = length E ∧ seg h None (down (length E)) None ∧ nodes_ok (reverse E) h.
Proof.
  destruct (link_entries_spec [] (reverse E) [] None ∅) as (h & root & m & He & Hlk).
  { split; try done. intros p Hp. simpl in Hp. lia. }
  destruct Hlk as [Hl Hr Hs _ Hn]. rewrite app_nil_l in *. rewrite length_reverse in *.
  exists h. split_and!; [|done..]. unfold makeLinkedEntries. by rewrite He, Hr.
Qed.

(** [length] counts the nodes. *)
Lemma length_from_seg fuel h pv l acc :
  seg h pv l None → (length l ≤ fuel)%nat →
  length_from fuel h (hd_or l None) acc = Ret (acc + zlen l).
Proof.
  revert fuel pv acc. induction l as [|p l IH]; intros fuel pv acc Hs Hf.
  - destruct fuel; simpl; f_equal; unfold zlen; simpl; lia.
  - destruct fuel as [|fuel]; simpl in Hf; [lia|].
    destruct Hs as [(nd & Hp & _ & Hnx) Hs]. simpl. rewrite Hp. simpl. rewrite Hnx.
    rewrite (IH _ _ _ Hs) by lia. f_equal. rewrite zlen_cons. lia.
Qed.
End linked_list.
