(* ===== verification/PorcupineSpec.v ===== *)
(** * What the linearizability checker decides

    The specification of [porcupine/checker.go]: when a list of call and return
    entries is a complete history ([wf_history]), when one operation precedes
    another in it ([precedes]), and when the history is linearizable for a model
    ([linearizable]): there is an order of all operations that the model can
    execute and that respects precedence.

    [completes L s] is the same from a point of the search: the operations [L]
    are done, the model is in state [s], and the rest can be completed
    ([linearizable_completes]).  [CheckableModel] is what the checker relies on
    of a model: [Step] does not panic on the values of the history, and
    states that [Equal] identifies have the same futures. *)

From S2P Require Import Prelude Bitset Porcupine PorcupineList.

(** [Step] returns on a call value and a return value that belong together
    ([typed]), and [Equal] is a simulation for [Step]. *)
Class CheckableModel {V St} (M : Model V St) := {
  typed : V → V → Prop;
  model_eq : St → St → bool;
  Equal_is : Equal M = Some model_eq;
  Step_returns : ∀ s v w, typed v w → ∃ ok s', Step M s v w = Ret (ok, s');
  Equal_sound : ∀ s t v w s', model_eq s t = true → typed v w → Step M s v w = Ret (true, s') →
    ∃ t', Step M t v w = Ret (true, t') ∧ model_eq s' t' = true
}.

Lemma lookup_key_inj {A B} (f : A → B) (P : A → Prop) `{!∀ x, Decision (P x)} (l : list A)
    (a b : nat) x y :
  NoDup (f <$> filter P l) → l !! a = Some x → l !! b = Some y → P x → P y → f x = f y → a = b.
Proof.
  revert a b. induction l as [|z l IH]; intros a b Hnd Ha Hb Px Py Hf; [done|].
  assert (Hz : ∀ w, w ∈ l → P w → P z → f z = f w → False).
  { intros w Hw Pw Pz Hzw. rewrite filter_cons_True in Hnd by done.
    apply NoDup_cons in Hnd as [Hn _]. apply Hn, list_elem_of_fmap. exists w.
    by rewrite list_elem_of_filter. }
  destruct a as [|a], b as [|b]; simpl in *; simplify_eq.
  - done.
  - exfalso. eapply Hz; eauto using list_elem_of_lookup_2.
  - exfalso. eapply Hz; eauto using list_elem_of_lookup_2.
  - f_equal. apply IH; try done. destruct (decide (P z)).
    + rewrite filter_cons_True in Hnd by done. by apply NoDup_cons in Hnd as [_ ?].
    + by rewrite filter_cons_False in Hnd.
Qed.

Section spec.
Context {V St : Type} (M : Model V St) (E : list (entry V)).
Implicit Types (i j : Z) (L : gset Z) (s : St) (v w : V).

(** The ids of the entries of one kind. *)
Definition ids_of (k : entryKind) : list Z := e_id <$> filter (λ e, e_kind e = k) E.

(** The ids of the operations. *)
Definition op_ids : list Z := ids_of callEntry.

(** [n] operations with ids below [n], each called once and returned once, the
    call first. *)
Record wf_history (n : nat) : Prop := {
  wf_calls : ids_of callEntry ≡ₚ seqZ 0 (Z.of_nat n);
  wf_returns : ids_of returnEntry ≡ₚ seqZ 0 (Z.of_nat n);
  wf_order : ∀ a b e f, E !! a = Some e → E !! b = Some f →
    e_kind e = callEntry → e_kind f = returnEntry → e_id e = e_id f → (a < b)%nat
}.

Definition called i v : Prop := ∃ e, e ∈ E ∧ e_kind e = callEntry ∧ e_id e = i ∧ e_value e = v.
Definition returned i v : Prop := ∃ e, e ∈ E ∧ e_kind e = returnEntry ∧ e_id e = i ∧ e_value e = v.

(** Operation [i] returned before operation [j] was called. *)
Definition precedes i j : Prop :=
  ∃ a b e f, E !! a = Some e ∧ E !! b = Some f ∧ (a < b)%nat ∧
    e_kind e = returnEntry ∧ e_id e = i ∧ e_kind f = callEntry ∧ e_id f = j.

(** The model executes operation [i], with the result the history has. *)
Definition op_step s i s' : Prop :=
  ∃ v w, called i v ∧ returned i w ∧ Step M s v w = Ret (true, s').

Inductive runs : St → list Z → St → Prop :=
| runs_nil s : runs s [] s
| runs_cons s i s1 σ s2 : op_step s i s1 → runs s1 σ s2 → runs s (i :: σ) s2.

Definition linearizable : Prop :=
  ∃ σ s, σ ≡ₚ op_ids ∧ runs (Init M) σ s ∧
    ∀ a b i j, σ !! a = Some i → σ !! b = Some j → precedes i j → (a < b)%nat.

(** A sequence of operations that starts a linearization: the model executes
    it, and what precedes one of its operations comes earlier in it. *)
Definition partial_linearization (σ : list Z) : Prop :=
  NoDup σ ∧ (∀ i, i ∈ σ → i ∈ op_ids) ∧ (∃ s, runs (Init M) σ s) ∧
  ∀ b j i, σ !! b = Some j → precedes i j → ∃ a, (a < b)%nat ∧ σ !! a = Some i.

(** An operation that may come next when [L] are done. *)
Definition candidate L j : Prop := j ∈ op_ids ∧ j ∉ L ∧ ∀ i, precedes i j → i ∈ L.

Inductive completes : gset Z → St → Prop :=
| completes_done L s : (∀ i, i ∈ op_ids → i ∈ L) → completes L s
| completes_step L s j s' :
    candidate L j → op_step s j s' → completes ({[j]} ∪ L) s' → completes L s.

(** The rest of a linearization, from [L] and [s]. *)
Definition rest_from L s (σ : list Z) : Prop :=
  NoDup σ ∧ (∀ i, i ∈ σ ↔ i ∈ op_ids ∧ i ∉ L) ∧ (∃ s', runs s σ s') ∧
  ∀ a b i j, σ !! a = Some i → σ !! b = Some j → precedes i j → (a < b)%nat.

Lemma completes_rest L s : completes L s → ∃ σ, rest_from L s σ.
Proof.
  induction 1 as [L s Hall | L s j s' (Hj & HjL & Hpre) Hst _ (σ & Hnd & Hin & [s2 Hr] & Hord)].
  - exists []. split_and!; [constructor| |eexists; constructor|done].
    intros i. split; [by intros ?%elem_of_nil|]. intros [Hi Hni]. by destruct Hni; apply Hall.
  - exists (j :: σ). split_and!.
    + constructor; [|done]. rewrite Hin. set_solver.
    + intros i. rewrite elem_of_cons, Hin. destruct (decide (i = j)) as [->|]; set_solver.
    + exists s2. by econstructor.
    + intros [|a] [|b] i k Ha Hb Hp; simpl in *; try lia.
      * simplify_eq. apply Hpre in Hp. done.
      * simplify_eq. apply list_elem_of_lookup_2, Hin in Ha. apply Hpre in Hp. set_solver.
      * apply -> Nat.succ_lt_mono. by eapply Hord.
Qed.

Section wf.
Context (n : nat) (Hwf : wf_history n).

Lemma elem_of_history_ids i : i ∈ op_ids ↔ 0 ≤ i < Z.of_nat n.
Proof. unfold op_ids. rewrite (wf_calls n Hwf), elem_of_seqZ. lia. Qed.

Lemma NoDup_op_ids : NoDup op_ids.
Proof. unfold op_ids. rewrite (wf_calls n Hwf). apply NoDup_seqZ. Qed.

Lemma elem_of_ids_of k i : i ∈ ids_of k ↔ 0 ≤ i < Z.of_nat n.
Proof.
  destruct k; [apply elem_of_history_ids|]. rewrite (wf_returns n Hwf), elem_of_seqZ. lia.
Qed.

Lemma id_range e : e ∈ E → 0 ≤ e_id e < Z.of_nat n.
Proof.
  intros He. apply (elem_of_ids_of (e_kind e)), list_elem_of_fmap.
  exists e. by rewrite list_elem_of_filter.
Qed.

Lemma length_history : length E = (2 * n)%nat.
Proof.
  assert (Hlen : ∀ l : list (entry V), length l =
      (length (filter (λ e, e_kind e = callEntry) l) +
       length (filter (λ e, e_kind e = returnEntry) l))%nat).
  { induction l as [|x l IH]; [done|]. rewrite !filter_cons. destruct (e_kind x); simpl; lia. }
  assert (Hcount : ∀ k, length (filter (λ e, e_kind e = k) E) = n).
  { intros k. rewrite <- (length_fmap e_id). fold (ids_of k).
    assert (ids_of k ≡ₚ seqZ 0 (Z.of_nat n)) as -> by (destruct k; apply Hwf).
    rewrite length_seqZ. lia. }
  rewrite (Hlen E), !Hcount. lia.
Qed.

Lemma precedes_ids i j : precedes i j → i ∈ op_ids ∧ j ∈ op_ids.
Proof.
  intros (a & b & e & f & Ha & Hb & _ & _ & <- & _ & <-).
  by split; apply elem_of_history_ids, id_range; eapply list_elem_of_lookup_2.
Qed.

Lemma rest_completes σ L s : rest_from L s σ → completes L s.
Proof.
  revert L s. induction σ as [|j σ IH]; intros L s (Hnd & Hin & [s2 Hr] & Hord).
  - apply completes_done. intros i Hi. destruct (decide (i ∈ L)) as [|Hni]; [done|].
    pose proof (proj2 (Hin i) (conj Hi Hni)) as Hn. by apply elem_of_nil in Hn.
  - apply NoDup_cons in Hnd as [Hj Hnd]. inversion Hr as [|? ? s1 ? ? Hst Hr1]; subst.
    assert (Hjin : j ∈ op_ids ∧ j ∉ L) by (apply Hin; set_solver).
    apply completes_step with j s1; [|done|].
    + split_and!; [apply Hjin..|]. intros i Hp. destruct (decide (i ∈ L)) as [|Hni]; [done|].
      assert (Hi : i ∈ j :: σ) by (apply Hin; split; [by apply (precedes_ids i j)|done]).
      apply list_elem_of_lookup_1 in Hi as [a Ha].
      by pose proof (Hord a O i j Ha eq_refl Hp) as ?%Nat.nlt_0_r.
    + apply IH. split_and!; [done| |eauto|].
      * intros i. destruct (Hin i) as [H1 H2]. split.
        -- intros Hi. destruct H1 as [? ?]; [set_solver|].
           split; [done|]. rewrite not_elem_of_union, not_elem_of_singleton.
           split; [|done]. by intros ->.
        -- intros [Hi Hni]. assert (i ∈ j :: σ) by (apply Hin; set_solver). set_solver.
      * intros a b i k Ha Hb Hp. apply Nat.succ_lt_mono. by apply (Hord (S a) (S b) i k).
Qed.

(** The search form of linearizability. *)
Lemma linearizable_completes : linearizable ↔ completes ∅ (Init M).
Proof.
  split.
  - intros (σ & s & Hp & Hr & Hord). apply rest_completes with σ.
    split_and!; [|by setoid_rewrite Hp; set_solver|eauto|done].
    rewrite Hp. apply NoDup_op_ids.
  - intros (σ & Hnd & Hin & [s' Hr] & Hord)%completes_rest. exists σ, s'.
    split_and!; [|done..]. apply NoDup_Permutation; [done|apply NoDup_op_ids|].
    set_solver.
Qed.

Lemma called_exists i : i ∈ op_ids → ∃ v, called i v.
Proof.
  intros (e & -> & [Hk He]%list_elem_of_filter)%list_elem_of_fmap. exists (e_value e), e. done.
Qed.

(** ** Entries by pointer

    [R] is the history backwards: the entry whose node has pointer [p] is
    [R !! p], and earlier entries have larger pointers. *)
Abbreviation R := (reverse E).

Lemma lookup_rev a : (a < length E)%nat → R !! a = E !! (length E - S a)%nat.
Proof. apply reverse_lookup. Qed.

Lemma lookup_rev_Some p e :
  R !! p = Some e ↔ (p < length E)%nat ∧ E !! (length E - S p)%nat = Some e.
Proof.
  split.
  - intros Hp. pose proof (lookup_lt_Some _ _ _ Hp) as Hlt. rewrite length_reverse in Hlt.
    by rewrite lookup_rev in Hp.
  - intros [Hlt Hp]. by rewrite lookup_rev.
Qed.

Lemma elem_of_rev_lookup p e : R !! p = Some e → e ∈ E.
Proof. intros [_ Hp]%lookup_rev_Some. by eapply list_elem_of_lookup_2. Qed.

Lemma rev_lookup_of e : e ∈ E → ∃ p, R !! p = Some e.
Proof.
  intros [a Ha]%list_elem_of_lookup_1. exists (length E - S a)%nat.
  pose proof (lookup_lt_Some _ _ _ Ha). apply lookup_rev_Some. split; [lia|].
  by replace (length E - S (length E - S a))%nat with a by lia.
Qed.

Lemma precedes_ptr i j :
  precedes i j ↔ ∃ p q e f, R !! p = Some e ∧ R !! q = Some f ∧ (q < p)%nat ∧
    e_kind e = returnEntry ∧ e_id e = i ∧ e_kind f = callEntry ∧ e_id f = j.
Proof.
  split.
  - intros (a & b & e & f & Ha & Hb & Hlt & ?).
    pose proof (lookup_lt_Some _ _ _ Ha). pose proof (lookup_lt_Some _ _ _ Hb).
    exists (length E - S a)%nat, (length E - S b)%nat, e, f.
    rewrite !lookup_rev_Some.
    replace (length E - S (length E - S a))%nat with a by lia.
    replace (length E - S (length E - S b))%nat with b by lia.
    split_and!; (done || lia || naive_solver).
  - intros (p & q & e & f & [? Hp]%lookup_rev_Some & [? Hq]%lookup_rev_Some & Hlt & ?).
    exists (length E - S p)%nat, (length E - S q)%nat, e, f.
    split_and!; (done || lia || naive_solver).
Qed.

(** One call and one return per operation. *)
Lemma NoDup_ids k : NoDup (ids_of k).
Proof.
  destruct k; [apply NoDup_op_ids|]. rewrite (wf_returns n Hwf). apply NoDup_seqZ.
Qed.

Lemma same_ptr p q e f :
  R !! p = Some e → R !! q = Some f → e_kind e = e_kind f → e_id e = e_id f → p = q.
Proof.
  intros [Hp He]%lookup_rev_Some [Hq Hf]%lookup_rev_Some Hk Hi.
  enough (length E - S p = length E - S q)%nat by lia.
  eapply (lookup_key_inj e_id (λ x, e_kind x = e_kind e) E); eauto. apply NoDup_ids.
Qed.

(** The return of a call comes later in the history. *)
Lemma call_return_ptr p e :
  R !! p = Some e → e_kind e = callEntry →
  ∃ m f, R !! m = Some f ∧ e_kind f = returnEntry ∧ e_id f = e_id e ∧ (m < p)%nat.
Proof.
  intros Hp Hk. pose proof (id_range e (elem_of_rev_lookup _ _ Hp)) as Hr.
  apply (elem_of_ids_of returnEntry) in Hr.
  apply list_elem_of_fmap in Hr as (f & Hid & [Hkf Hf]%list_elem_of_filter).
  destruct (rev_lookup_of f Hf) as [m Hm]. exists m, f. split_and!; try done.
  apply lookup_rev_Some in Hp as [? Hp]. apply lookup_rev_Some in Hm as [? Hm].
  pose proof (wf_order n Hwf _ _ _ _ Hp Hm Hk Hkf Hid). lia.
Qed.

(** The pointer the list stores with a call is that of its return. *)
Lemma match_of_call p e :
  R !! p = Some e → e_kind e = callEntry →
  ∃ m f, match_map (take p R) !! e_id e = Some m ∧ R !! m = Some f ∧
    e_kind f = returnEntry ∧ e_id f = e_id e ∧ (m < p)%nat.
Proof.
  intros Hp Hk. destruct (call_return_ptr p e Hp Hk) as (m & f & Hm & Hkf & Hid & Hlt).
  destruct (match_map_is_Some (take p R) f) as [m' Hm']; [|done|].
  { apply list_elem_of_lookup_2 with m. by rewrite lookup_take_lt. }
  rewrite Hid in Hm'. exists m', f. split; [done|].
  apply match_map_Some in Hm' as (f' & Hf' & Hkf' & Hid').
  apply lookup_take_Some in Hf' as [Hf' Hlt'].
  assert (m' = m) as -> by (eapply same_ptr; eauto; congruence). done.
Qed.
End wf.
End spec.
