(* ===== verification/PorcupineSearch.v ===== *)
(** * The search of the linearizability checker is correct

    [checkSingle] of [porcupine/checker.go] against the specification of
    PorcupineSpec.v.

    - The operations still in the linked list are [live L], [L] being the ids
      linearized so far; the calls before the first return are exactly the
      operations that may come next ([front_candidate], [candidate_in_front]).
    - [stacked] is the invariant of the stack [calls]: each frame knows the
      list, the set and the state it was made in, and that every call before the
      chosen one is exhausted.  The heap and the bit set are functions of the
      stack, so a pop restores them exactly.
    - A cache entry is either a configuration on the stack or one that cannot be
      completed ([cache_ok]); a new configuration is larger than those on the
      stack, so a hit means it cannot be completed.
    - [weight] bounds the iterations: [search_bound n] of them are enough for
      [n] operations, whatever the model does. *)

From S2P Require Import Prelude Bitset Porcupine PorcupineList PorcupineSpec.

Section live.
Context {V : Type} (E : list (entry V)) (n : nat) (Hwf : wf_history E n).
Implicit Types (L : gset Z) (p q m : nat) (e f : entry V).
Abbreviation R := (reverse E).

(** The id of the entry with pointer [p]. *)
Definition pid p : Z := from_option e_id 0 (R !! p).

(** The pointers of the operations not in [L], in the order of the list. *)
Definition live L : list nat := filter (λ p, pid p ∉ L) (down (length E)).

Lemma pid_of p e : R !! p = Some e → pid p = e_id e.
Proof. unfold pid. by intros ->. Qed.

Lemma elem_of_live_ptr L p : p ∈ live L ↔ ∃ e, R !! p = Some e ∧ e_id e ∉ L.
Proof.
  unfold live. rewrite list_elem_of_filter, elem_of_down. split.
  - intros [Hp Hlt]. destruct (lookup_lt_is_Some_2 R p) as [e He];
      [by rewrite length_reverse|]. exists e. by rewrite <- (pid_of _ _ He).
  - intros (e & He & Hn). rewrite (pid_of _ _ He). split; [done|].
    apply lookup_lt_Some in He. by rewrite length_reverse in He.
Qed.

Lemma NoDup_live L : NoDup (live L).
Proof. apply NoDup_filter, NoDup_down. Qed.

Lemma head_not_live L : length E ∉ live L.
Proof.
  rewrite elem_of_live_ptr. intros (e & He & _). apply lookup_lt_Some in He.
  rewrite length_reverse in He. lia.
Qed.

Lemma StronglySorted_live L : StronglySorted (λ p q, (q < p)%nat) (live L).
Proof.
  unfold live. induction (length E) as [|k IH]; [constructor|]. simpl.
  rewrite filter_cons. case_decide; [|done]. constructor; [done|].
  apply Forall_forall. intros q [_ Hq%elem_of_down]%list_elem_of_filter. lia.
Qed.

(** Pointers descend along the list. *)
Lemma live_split_order L l1 p l2 :
  live L = l1 ++ p :: l2 → (∀ q, q ∈ l1 → (p < q)%nat) ∧ (∀ q, q ∈ l2 → (q < p)%nat).
Proof.
  intros Hl. pose proof (StronglySorted_live L) as Hs. rewrite Hl in Hs.
  split; intros q Hq.
  - apply (StronglySorted_app_1_elem_of _ l1 (p :: l2) q p Hs Hq). set_solver.
  - apply StronglySorted_app_1_r, (StronglySorted_app_1_elem_of _ [p] l2 p q) in Hs;
      [done|set_solver|done].
Qed.

Lemma live_before L l1 p l2 q : live L = l1 ++ p :: l2 → q ∈ live L → (p < q)%nat → q ∈ l1.
Proof.
  intros Hl Hq Hlt. pose proof (live_split_order _ _ _ _ Hl) as [_ H2].
  rewrite Hl in Hq. apply elem_of_app in Hq as [|[->|Hq]%elem_of_cons]; [done|lia|].
  apply H2 in Hq. lia.
Qed.

Lemma live_after L l1 p l2 q : live L = l1 ++ p :: l2 → q ∈ live L → (q < p)%nat → q ∈ l2.
Proof.
  intros Hl Hq Hlt. pose proof (live_split_order _ _ _ _ Hl) as [H1 _].
  rewrite Hl in Hq. apply elem_of_app in Hq as [Hq|[->|]%elem_of_cons]; [|lia|done].
  apply H1 in Hq. lia.
Qed.

Lemma live_cover L : live L = [] ↔ ∀ i, i ∈ op_ids E → i ∈ L.
Proof.
  split.
  - intros Hl i (e & -> & [Hk He]%list_elem_of_filter)%list_elem_of_fmap.
    destruct (decide (e_id e ∈ L)) as [|Hni]; [done|].
    destruct (rev_lookup_of E e He) as [p Hp].
    assert (p ∈ live L) as Hin by (apply elem_of_live_ptr; eauto).
    rewrite Hl in Hin. by apply elem_of_nil in Hin.
  - intros Hall. destruct (live L) as [|p l] eqn:Hl; [done|].
    assert (p ∈ live L) as (e & He & Hni)%elem_of_live_ptr by (rewrite Hl; set_solver).
    destruct Hni. apply Hall, (elem_of_history_ids E n Hwf), (id_range E n Hwf).
    by eapply elem_of_rev_lookup.
Qed.

(** Without the operation called at [p], its two entries are gone. *)
Lemma live_lift L l1 p l2 e :
  live L = l1 ++ p :: l2 → R !! p = Some e → e_kind e = callEntry →
  ∃ l2a m l2b f, l2 = l2a ++ m :: l2b ∧ R !! m = Some f ∧ e_kind f = returnEntry ∧
    e_id f = e_id e ∧ match_map (take p R) !! e_id e = Some m ∧
    live ({[e_id e]} ∪ L) = l1 ++ l2a ++ l2b.
Proof.
  intros Hl Hp Hk. destruct (match_of_call E n Hwf p e Hp Hk) as (m & f & Hmm & Hm & Hkf & Hid & Hlt).
  assert (Hni : e_id e ∉ L).
  { assert (p ∈ live L) as (e' & ? & ?)%elem_of_live_ptr by (rewrite Hl; set_solver). by simplify_eq. }
  assert (Hml : m ∈ live L) by (apply elem_of_live_ptr; exists f; by rewrite Hid).
  apply (live_after _ _ _ _ _ Hl) in Hml as (l2a & l2b & ->)%list_elem_of_split; [|done].
  exists l2a, m, l2b, f. split_and!; try done.
  pose proof (NoDup_live L) as Hnd. rewrite Hl in Hnd.
  assert (Hother : ∀ q, q ∈ live L → q ≠ p → q ≠ m → pid q ≠ e_id e).
  { intros q (e' & He' & _)%elem_of_live_ptr Hqp Hqm. rewrite (pid_of _ _ He'). intros Heq.
    destruct (e_kind e') eqn:Hk'.
    - apply Hqp. eapply same_ptr; eauto; congruence.
    - apply Hqm. eapply same_ptr; eauto; congruence. }
  assert (Hlive : live ({[e_id e]} ∪ L) = filter (λ q, pid q ≠ e_id e) (live L)).
  { unfold live. rewrite list_filter_filter. apply list_filter_iff. set_solver. }
  assert (Hkeep : ∀ l : list nat, (∀ q, q ∈ l → q ∈ live L ∧ q ≠ p ∧ q ≠ m) →
    filter (λ q, pid q ≠ e_id e) l = l).
  { intros l Hin. apply list_filter_all. intros q Hq. apply Hother; naive_solver. }
  rewrite Hlive, Hl, filter_app, filter_cons_False, filter_app, filter_cons_False;
    [|rewrite ?(pid_of _ _ Hm), ?(pid_of _ _ Hp); tauto..].
  apply NoDup_app in Hnd as (_ & Hd1 & Hnd). apply NoDup_cons in Hnd as [Hpn Hnd].
  apply NoDup_app in Hnd as (_ & Hd2 & Hnd). apply NoDup_cons in Hnd as [Hmn _].
  rewrite Hl in *.
  rewrite !Hkeep; [done|..]; intros q Hq; (split; [set_solver|]); split; intros ->;
    try (specialize (Hd1 _ Hq)); try (specialize (Hd2 _ Hq)); set_solver.
Qed.

(** A call at the front of the list may come next. *)
Lemma front_candidate L l1 p l2 e :
  live L = l1 ++ p :: l2 → R !! p = Some e → e_kind e = callEntry →
  (∀ q f, q ∈ l1 → R !! q = Some f → e_kind f = callEntry) →
  candidate E L (e_id e).
Proof.
  intros Hl Hp Hk Hfront.
  assert (p ∈ live L) as (e' & He' & Hni)%elem_of_live_ptr by (rewrite Hl; set_solver).
  simplify_eq. split_and!; [|done|].
  - apply (elem_of_history_ids E n Hwf), (id_range E n Hwf). by eapply elem_of_rev_lookup.
  - intros i (p' & q' & f & g & Hp' & Hq' & Hlt & Hkf & Hif & Hkg & Hig)%precedes_ptr.
    assert (q' = p) as -> by (eapply same_ptr; eauto; congruence).
    destruct (decide (i ∈ L)) as [|HiL]; [done|]. exfalso.
    assert (p' ∈ l1).
    { eapply live_before; [done| |done]. apply elem_of_live_ptr. exists f. by rewrite Hif. }
    assert (e_kind f = callEntry) by (by eapply Hfront). congruence.
Qed.

(** What may come next has its call before the first return. *)
Lemma candidate_in_front L l1 p l2 e j :
  live L = l1 ++ p :: l2 → R !! p = Some e → e_kind e = returnEntry → candidate E L j →
  ∃ c f, c ∈ l1 ∧ R !! c = Some f ∧ e_kind f = callEntry ∧ e_id f = j.
Proof.
  intros Hl Hp Hk (Hj & HjL & Hpre).
  apply list_elem_of_fmap in Hj as (f & -> & [Hkf Hf]%list_elem_of_filter).
  destruct (rev_lookup_of E f Hf) as [c Hc]. exists c, f. split_and!; try done.
  assert (c ∈ live L) by (apply elem_of_live_ptr; eauto).
  eapply live_before; [done..|].
  destruct (Nat.lt_trichotomy c p) as [Hlt|[->|]]; [exfalso | congruence | done].
  assert (p ∈ live L) as (e' & He' & Hni)%elem_of_live_ptr by (rewrite Hl; set_solver).
  simplify_eq. apply Hni, Hpre, precedes_ptr. by exists p, c, e, f.
Qed.
End live.

(** ** The stack *)

Section stack.
Context {V St : Type} (M : Model V St) (E : list (entry V)) (n : nat) (Hwf : wf_history E n).
Context (h0 : list (node V)).
Context (Hseg0 : seg h0 None (length E :: live E ∅) None) (Hnodes0 : nodes_ok (reverse E) h0).
Implicit Types (L : gset Z) (p q m : nat) (s : St) (b : bitset) (h : list (node V)).
Abbreviation R := (reverse E).

(** One entry of [calls], with what held when it was pushed: the list was
    [f_before ++ f_ptr :: f_after], the operations [f_pre] were linearized, the
    state was [f_state], and executing the call led to [f_post]. *)
Record frame := mkFrame {
  f_before : list nat;
  f_ptr : nat;
  f_after : list nat;
  f_pre : gset Z;
  f_state : St;
  f_post : St
}.
Implicit Types (f : frame) (cs : list frame).

Definition f_id f : Z := pid E (f_ptr f).
Definition f_set f : gset Z := {[f_id f]} ∪ f_pre f.

(** The entry at [q] is a call, and executing it leads nowhere. *)
Definition exhausted L s q : Prop :=
  ∀ e, R !! q = Some e → e_kind e = callEntry ∧
    ∀ s', op_step M E s (e_id e) s' → ¬ completes M E ({[e_id e]} ∪ L) s'.

(** The stack (the last call first), and the heap, the linearized operations,
    the bit set and the state it determines. *)
Inductive stacked : list frame → list (node V) → gset Z → bitset → St → Prop :=
| stacked_nil : stacked [] h0 ∅ (newBitset (Z.of_nat n)) (Init M)
| stacked_cons cs h L b s f h' b' e :
    stacked cs h L b s →
    f_pre f = L → f_state f = s → live E L = f_before f ++ f_ptr f :: f_after f →
    (∀ q, q ∈ f_before f → exhausted L s q) →
    R !! f_ptr f = Some e → e_kind e = callEntry → op_step M E s (e_id e) (f_post f) →
    lift h (Some (f_ptr f)) = Ret h' → Bitset.set b (e_id e) = Ret b' →
    stacked (f :: cs) h' (f_set f) b' (f_post f).

(** The call at the front of the list and its return, as [lift] needs them. *)
Lemma paired_in_list h L l1 p l2 e :
  seg h None (length E :: live E L) None → nodes_ok R h →
  live E L = l1 ++ p :: l2 → R !! p = Some e → e_kind e = callEntry →
  ∃ l2a m l2b, l2 = l2a ++ m :: l2b ∧ paired h None (length E :: l1) p l2a m l2b ∧
    live E ({[e_id e]} ∪ L) = l1 ++ l2a ++ l2b.
Proof.
  intros Hs Hn Hl Hp Hk.
  destruct (live_lift E n Hwf L l1 p l2 e Hl Hp Hk) as (l2a & m & l2b & f & -> & Hm & Hkf & Hid & Hmm & Hl').
  exists l2a, m, l2b. split; [done|]. split; [|done].
  assert (Hall : length E :: live E L = (length E :: l1) ++ p :: l2a ++ m :: l2b) by (by rewrite Hl).
  split_and!.
  - rewrite <- Hall. constructor; [apply head_not_live|apply NoDup_live].
  - done.
  - by rewrite <- Hall.
  - destruct (Hn p) as (nd & Hnd & e' & He' & _ & _ & Hmt).
    { apply lookup_lt_Some in Hp. done. }
    exists nd. split; [done|]. simplify_eq. by rewrite Hmt, Hk.
Qed.

(** The list and the nodes. *)
Lemma stacked_heap cs h L b s :
  stacked cs h L b s → seg h None (length E :: live E L) None ∧ nodes_ok R h.
Proof.
  induction 1 as [|cs h L b s f h' b' e _ [Hs Hn] Hpre Hst Hl _ He Hk _ Hlift _]; [done|].
  subst. destruct (paired_in_list h (f_pre f) _ _ _ e Hs Hn Hl He Hk) as (l2a & m & l2b & Hl2 & Hp & Hl').
  destruct (lift_spec _ _ _ _ _ _ _ Hp) as (h'' & Hlift' & Hs' & Hsame).
  rewrite Hlift in Hlift'. injection Hlift' as <-.
  split; [|exact (nodes_ok_same _ _ _ Hsame Hn)]. unfold f_set, f_id. rewrite (pid_of _ _ _ He), Hl'. done.
Qed.

Lemma f_id_of f e : R !! f_ptr f = Some e → f_id f = e_id e.
Proof. apply pid_of. Qed.

(** The linearized operations are those on the stack. *)
Lemma stacked_set cs h L b s :
  stacked cs h L b s → L = list_to_set (f_id <$> cs) ∧ NoDup (f_id <$> cs) ∧
    (∀ i, i ∈ f_id <$> cs → i ∈ op_ids E).
Proof.
  induction 1 as [|cs h L b s f h' b' e _ (IHL & IHn & IHi) Hpre Hst Hl _ He Hk _ _ _].
  - split_and!; [done|constructor|]. intros i Hi. by apply elem_of_nil in Hi.
  - rewrite <- Hpre in IHL, Hl. assert (Hin : f_ptr f ∈ live E (f_pre f)) by (rewrite Hl; set_solver).
    apply elem_of_live_ptr in Hin as (e' & He' & Hni). simplify_eq.
    unfold f_set. rewrite fmap_cons, (f_id_of _ _ He). simpl. split_and!.
    + by rewrite <- IHL.
    + constructor; [|done]. rewrite IHL in Hni. set_solver.
    + intros i [->|Hi]%elem_of_cons; [|by apply IHi].
      apply (elem_of_history_ids E n Hwf), (id_range E n Hwf). by eapply elem_of_rev_lookup.
Qed.

Lemma stacked_size cs h L b s : stacked cs h L b s → size L = length cs.
Proof.
  intros (-> & Hnd & _)%stacked_set. by rewrite size_list_to_set, length_fmap.
Qed.

Lemma stacked_le cs h L b s : stacked cs h L b s → (length cs ≤ n)%nat.
Proof.
  intros (_ & Hnd & Hin)%stacked_set. rewrite <- (length_fmap f_id cs).
  assert (Hsub : f_id <$> cs ⊆+ op_ids E) by (by apply NoDup_submseteq).
  apply submseteq_length in Hsub. unfold op_ids in Hsub.
  rewrite (wf_calls E n Hwf), length_seqZ in Hsub. lia.
Qed.

(** Sets of frames are no larger than the stack. *)
Lemma stacked_frames cs h L b s f :
  stacked cs h L b s → f ∈ cs → (size (f_set f) ≤ length cs)%nat.
Proof.
  induction 1 as [|cs h L b s g h' b' e Hst IH Hpre Hs Hl _ He Hk _ Hlift Hset]; [set_solver|].
  intros [->|Hf]%elem_of_cons; simpl; [|by apply IH in Hf; lia].
  unfold f_set. rewrite <- (stacked_size _ _ _ _ _ Hst), <- Hpre.
  destruct (decide (f_id g ∈ f_pre g)).
  - rewrite subseteq_union_1_L by set_solver. lia.
  - rewrite size_union, size_singleton by set_solver. lia.
Qed.

(** The bit set holds the linearized operations. *)
Definition represents b L : Prop := ∀ i, i ∈ op_ids E → bit b i = bool_decide (i ∈ L).

Lemma op_in_range b i :
  length b = length (newBitset (Z.of_nat n)) → i ∈ op_ids E → in_range b i.
Proof.
  intros Hlen Hi%(elem_of_history_ids E n Hwf). eapply in_range_length; [done|].
  apply in_range_new. lia.
Qed.

Lemma represents_set b L i b' :
  length b = length (newBitset (Z.of_nat n)) → represents b L →
  Bitset.set b i = Ret b' → represents b' ({[i]} ∪ L).
Proof.
  intros Hlen Hr Hset j Hj.
  rewrite (set_bit b i b' j), Hr; [|done|by apply op_in_range|done].
  destruct (decide (j = i)) as [->|Hne].
  - rewrite (bool_decide_true (i = i)), (bool_decide_true (i ∈ {[i]} ∪ L)); [done|set_solver|done].
  - rewrite (bool_decide_false (j = i)) by done. simpl. apply bool_decide_ext. set_solver.
Qed.

Lemma stacked_bits cs h L b s :
  stacked cs h L b s → length b = length (newBitset (Z.of_nat n)) ∧ represents b L.
Proof.
  induction 1 as [|cs h L b s f h' b' e _ [IHl IHr] Hpre Hst Hl _ He Hk _ _ Hset].
  - split; [done|]. intros i _. rewrite bit_newBitset.
    rewrite bool_decide_false; [done|]. set_solver.
  - split; [by rewrite (set_length _ _ _ Hset)|]. subst. unfold f_set.
    rewrite (f_id_of _ _ He). exact (represents_set _ _ _ _ IHl IHr Hset).
Qed.

Lemma runs_snoc s σ s1 i s2 : runs M E s σ s1 → op_step M E s1 i s2 → runs M E s (σ ++ [i]) s2.
Proof.
  induction 1; intros Hop; simpl; econstructor; eauto using runs_nil.
Qed.

(** The calls on the stack, oldest first, begin a linearization. *)
Lemma stacked_partial cs h L b s :
  stacked cs h L b s →
  runs M E (Init M) (reverse (f_id <$> cs)) s ∧
  partial_linearization M E (reverse (f_id <$> cs)).
Proof.
  intros Hst. pose proof (stacked_set _ _ _ _ _ Hst) as (HL & Hnd & Hin).
  enough (runs M E (Init M) (reverse (f_id <$> cs)) s ∧
    ∀ c j i, reverse (f_id <$> cs) !! c = Some j → precedes E i j →
      ∃ a, (a < c)%nat ∧ reverse (f_id <$> cs) !! a = Some i) as [Hr Hp].
  { split; [done|]. split_and!; [by rewrite reverse_Permutation | | eauto | done].
    intros i. rewrite elem_of_reverse. apply Hin. }
  clear HL Hnd Hin. induction Hst as [|cs h L b s f h' b' e Hst [IHr IHp] Hpre Hs Hl Hex He Hk Hop _ _].
  - split; [constructor|done].
  - rewrite fmap_cons, reverse_cons, (f_id_of _ _ He). split; [by eapply runs_snoc|].
    intros c j i Hc Hprec. apply lookup_app_Some in Hc as [Hc|[Hge Hc]].
    + destruct (IHp c j i Hc Hprec) as (a & Ha & Hai). exists a.
      by rewrite (lookup_app_l_Some _ _ _ _ Hai).
    + apply list_lookup_singleton_Some in Hc as [Hz <-].
      destruct (front_candidate E n Hwf L _ _ _ e Hl He Hk) as (_ & _ & Hbefore).
      { intros q g Hq Hg. by apply (Hex q Hq g Hg). }
      apply Hbefore in Hprec. destruct (stacked_set _ _ _ _ _ Hst) as (HL & _ & _).
      rewrite HL, elem_of_list_to_set in Hprec. rewrite <- elem_of_reverse in Hprec.
      apply list_elem_of_lookup_1 in Hprec as [a Ha]. exists a.
      rewrite (lookup_app_l_Some _ _ _ _ Ha). apply lookup_lt_Some in Ha. split; [lia|done].
Qed.

Lemma stacked_live cs h L b s :
  stacked cs h L b s → length (live E L) = (2 * (n - length cs))%nat.
Proof.
  induction 1 as [|cs h L b s f h' b' e Hst IH Hpre Hs Hl _ He Hk _ _ _].
  - simpl. unfold live. rewrite list_filter_all by set_solver. rewrite length_down.
    rewrite (length_history E n Hwf). lia.
  - subst. destruct (live_lift E n Hwf _ _ _ _ e Hl He Hk) as (l2a & m & l2b & g & Hl2 & _ & _ & _ & _ & Hl').
    unfold f_set. rewrite (f_id_of _ _ He), Hl'. rewrite Hl, Hl2 in IH.
    rewrite !length_app in *. simpl in *. rewrite length_app in IH. simpl in IH. lia.
Qed.
End stack.
