(* ===== verification/PorcupineCheck.v ===== *)
(** * [checkSingle] decides linearizability

    The loop of [checkSingle] keeps [searching]: the stack invariant of
    PorcupineSearch.v, the position of the scan, the cache and the reported
    prefixes.  Each kind of iteration is one lemma ([body_skip], [body_push],
    [body_pop]); [check_loop_correct] puts them together and bounds the number
    of iterations.  [checkSingle_correct] is the result. *)

From S2P Require Import Prelude Bitset Porcupine PorcupineList PorcupineSpec PorcupineSearch.

(** The iterations that one entry of the list may cost, with [k] operations left. *)
Fixpoint entry_cost (k : nat) : nat :=
  match k with O => 1 | S k => 2 * k * entry_cost k + 1 end.

(** Enough iterations for a history of [n] operations. *)
Definition search_bound (n : nat) : nat := 2 * n * entry_cost n.

Section check.
Context {V St : Type} (M : Model V St) `{!CheckableModel M}.
Context (E : list (entry V)) (n : nat) (Hwf : wf_history E n).
Context (Htyped : ∀ i v w, called E i v → returned E i w → typed v w).
Context (h0 : list (node V)).
Context (Hseg0 : seg h0 None (length E :: live E ∅) None) (Hnodes0 : nodes_ok (reverse E) h0).
Implicit Types (L : gset Z) (p q m : nat) (s : St) (b : bitset) (cs : list (@frame St)).
Abbreviation R := (reverse E).
Abbreviation stacked := (stacked M E n h0).
Abbreviation f_id := (@f_id V St E).
Abbreviation f_set := (@f_set V St E).

(** ** One operation of the model *)

Lemma called_at p e :
  R !! p = Some e → e_kind e = callEntry → ∀ v, called E (e_id e) v ↔ v = e_value e.
Proof.
  intros Hp Hk v. split.
  - intros (e' & [p' Hp']%rev_lookup_of & Hk' & Hid & <-).
    assert (p = p') as <- by (eapply same_ptr; eauto; congruence). congruence.
  - intros ->. exists e. split; [by eapply elem_of_rev_lookup|done].
Qed.

Lemma returned_at p e :
  R !! p = Some e → e_kind e = returnEntry → ∀ v, returned E (e_id e) v ↔ v = e_value e.
Proof.
  intros Hp Hk v. split.
  - intros (e' & [p' Hp']%rev_lookup_of & Hk' & Hid & <-).
    assert (p = p') as <- by (eapply same_ptr; eauto; congruence). congruence.
  - intros ->. exists e. split; [by eapply elem_of_rev_lookup|done].
Qed.

Lemma op_step_at p e m f s s' :
  R !! p = Some e → e_kind e = callEntry → R !! m = Some f → e_kind f = returnEntry →
  e_id f = e_id e →
  op_step M E s (e_id e) s' ↔ Step M s (e_value e) (e_value f) = Ret (true, s').
Proof.
  intros Hp Hk Hm Hkf Hid. unfold op_step. setoid_rewrite (called_at p e Hp Hk).
  rewrite <- Hid. setoid_rewrite (returned_at m f Hm Hkf). naive_solver.
Qed.

Lemma op_step_det p e s s1 s2 :
  R !! p = Some e → e_kind e = callEntry →
  op_step M E s (e_id e) s1 → op_step M E s (e_id e) s2 → s1 = s2.
Proof.
  intros Hp Hk. destruct (call_return_ptr E n Hwf p e Hp Hk) as (m & f & Hm & Hkf & Hid & _).
  rewrite !(op_step_at p e m f) by done. congruence.
Qed.

Lemma step_at p e m f s :
  R !! p = Some e → e_kind e = callEntry → R !! m = Some f → e_kind f = returnEntry →
  e_id f = e_id e → ∃ ok s', Step M s (e_value e) (e_value f) = Ret (ok, s').
Proof.
  intros Hp Hk Hm Hkf Hid. apply Step_returns. apply (Htyped (e_id e)).
  - by apply (called_at p e Hp Hk).
  - rewrite <- Hid. by apply (returned_at m f Hm Hkf).
Qed.

(** States that [Equal] identifies complete alike. *)
Lemma completes_equal L s t :
  completes M E L s → model_eq s t = true → completes M E L t.
Proof.
  intros Hc. revert t. induction Hc as [L s Hall|L s j s' Hcand (v & w & Hv & Hw & Hst) Hc IH];
    intros t Heq; [by apply completes_done|].
  destruct (Equal_sound s t v w s' Heq (Htyped j v w Hv Hw) Hst) as (t' & Ht & Heq').
  apply completes_step with j t'; [done| |by apply IH].
  by exists v, w.
Qed.

(** ** The cache *)

Definition cache_ok (cache : gmap Z (list (cacheEntry St))) cs : Prop :=
  ∀ hsh es ce, cache !! hsh = Some es → ce ∈ es →
    ∃ K : gset Z, (∀ i, i ∈ K → i ∈ op_ids E) ∧ represents E (ce_linearized ce) K ∧
      (¬ completes M E K (ce_state ce) ∨
       ∃ f, f ∈ cs ∧ f_set f = K ∧ f_post f = ce_state ce).

Lemma represents_unique b L K :
  represents E b L → represents E b K → (∀ i, i ∈ L → i ∈ op_ids E) →
  (∀ i, i ∈ K → i ∈ op_ids E) → L = K.
Proof.
  intros HL HK HLi HKi. apply set_eq. intros i. split; intros Hi.
  - specialize (HL i (HLi i Hi)). specialize (HK i (HLi i Hi)).
    rewrite HL, bool_decide_true in HK by done. symmetry in HK. by apply bool_decide_eq_true in HK.
  - specialize (HL i (HKi i Hi)). specialize (HK i (HKi i Hi)).
    rewrite HK, bool_decide_true in HL by done. symmetry in HL. by apply bool_decide_eq_true in HL.
Qed.

Lemma cache_scan_spec es ce :
  ∃ found, cache_scan M es ce = Ret found ∧
    (found = true → ∃ ce', ce' ∈ es ∧ ce_linearized ce' = ce_linearized ce ∧
       model_eq (ce_state ce) (ce_state ce') = true).
Proof.
  induction es as [|x es (found & IH & IHf)]; [by exists false|]. simpl.
  destruct (equals (ce_linearized ce) (ce_linearized x)) eqn:Heq.
  - unfold call_Equal. rewrite Equal_is, bind_Ret.
    destruct (model_eq (ce_state ce) (ce_state x)) eqn:Hst.
    + exists true. split; [done|]. intros _. exists x. apply equals_eq in Heq.
      split_and!; [set_solver|done|done].
    + exists found. split; [done|]. intros Hf. destruct (IHf Hf) as (c & ? & ?).
      exists c. split; [set_solver|done].
  - exists found. split; [done|]. intros Hf. destruct (IHf Hf) as (c & ? & ?).
    exists c. split; [set_solver|done].
Qed.

Lemma cacheContains_spec cache ce :
  ∃ found, cacheContains M cache ce = Ret found ∧
    (found = true → ∃ hsh es ce', cache !! hsh = Some es ∧ ce' ∈ es ∧
       ce_linearized ce' = ce_linearized ce ∧ model_eq (ce_state ce) (ce_state ce') = true).
Proof.
  unfold cacheContains, map_get.
  destruct (cache_scan_spec (default [] (cache !! hash (ce_linearized ce))) ce) as (found & Hs & Hf).
  exists found. split; [done|]. intros (ce' & Hin & ?)%Hf.
  destruct (cache !! _) as [es|] eqn:Hc; simpl in Hin; [|by apply elem_of_nil in Hin].
  by exists (hash (ce_linearized ce)), es, ce'.
Qed.

Lemma cache_ok_insert cache cs f ce :
  cache_ok cache cs → represents E (ce_linearized ce) (f_set f) →
  (∀ i, i ∈ f_set f → i ∈ op_ids E) → f_post f = ce_state ce →
  cache_ok (<[hash (ce_linearized ce) := map_get [] cache (hash (ce_linearized ce)) ++ [ce]]> cache)
    (f :: cs).
Proof.
  intros Hok Hr Hin Hpost hsh es c Hl Hc.
  assert (Hold : ∀ hsh es c, cache !! hsh = Some es → c ∈ es →
    ∃ K : gset Z, (∀ i, i ∈ K → i ∈ op_ids E) ∧ represents E (ce_linearized c) K ∧
      (¬ completes M E K (ce_state c) ∨
       ∃ g, g ∈ f :: cs ∧ f_set g = K ∧ f_post g = ce_state c)).
  { intros h1 es1 c1 H1 H2. destruct (Hok _ _ _ H1 H2) as (K & ? & ? & [?|(g & ? & ?)]);
      exists K; split_and!; try done; [by left|]. right. exists g. split; [set_solver|done]. }
  apply lookup_insert_Some in Hl as [[<- <-]|[_ Hl]]; [|by eapply Hold].
  apply elem_of_app in Hc as [Hc| ->%list_elem_of_singleton].
  - unfold map_get in Hc. destruct (cache !! _) as [es1|] eqn:H1; [by eapply Hold|].
    simpl in Hc. by apply elem_of_nil in Hc.
  - exists (f_set f). split_and!; [done|done|]. right. exists f. split; [set_solver|done].
Qed.

(** A configuration popped from the stack is one that cannot be completed. *)
Lemma cache_ok_pop cache cs f :
  cache_ok cache (f :: cs) → ¬ completes M E (f_set f) (f_post f) → cache_ok cache cs.
Proof.
  intros Hok Hdead hsh es c Hl Hc. destruct (Hok _ _ _ Hl Hc) as (K & ? & ? & [?|(g & Hg & <- & Hp)]).
  - exists K. split_and!; [done..|by left].
  - exists (f_set g). split_and!; [done..|]. apply elem_of_cons in Hg as [->|Hg].
    + left. by rewrite <- Hp.
    + right. by exists g.
Qed.

(** ** The reported prefixes *)

(** The stack as the slice [calls] has it, oldest first. *)
Definition calls_of cs : list (callsEntry St) :=
  (λ f, mkCallsEntry (Some (f_ptr f)) (f_state f)) <$> reverse cs.

(** Every sequence begins a linearization, and the one reported for an
    operation contains it. *)
Record longest_ok (longest : list (option nat)) (seqs : list (list Z)) : Prop := {
  lo_length : length longest = n;
  lo_seqs : Forall (partial_linearization M E) seqs;
  lo_member : ∀ i x, longest !! i = Some (Some x) →
    ∃ σ, seqs !! x = Some σ ∧ Z.of_nat i ∈ σ
}.

(** The node of a call on the stack has its id. *)
Lemma frame_node (h : list (node V)) cs L b s f :
  stacked cs h L b s → f ∈ cs →
  ∃ nd, h !! f_ptr f = Some nd ∧ n_id nd = f_id f.
Proof.
  intros Hst Hf. pose proof (stacked_heap M E n Hwf h0 Hseg0 Hnodes0 _ _ _ _ _ Hst) as [_ Hn].
  assert (Hptr : ∃ e, R !! f_ptr f = Some e).
  { clear Hn. induction Hst as [|? ? ? ? ? g ? ? e _ IH]; [set_solver|].
    apply elem_of_cons in Hf as [->|Hf]; [eauto|by apply IH]. }
  destruct Hptr as [e He]. destruct (Hn (f_ptr f)) as (nd & Hnd & e' & He' & _ & Hid & _).
  { by apply lookup_lt_Some in He. }
  exists nd. split; [done|]. unfold f_id, pid. by rewrite He'.
Qed.

Lemma call_ids_spec (h : list (node V)) (fs : list (@frame St)) :
  (∀ f, f ∈ fs → ∃ nd, h !! f_ptr f = Some nd ∧ n_id nd = f_id f) →
  call_ids h ((λ f, mkCallsEntry (Some (f_ptr f)) (f_state f)) <$> fs) = Ret (f_id <$> fs).
Proof.
  clear -E. induction fs as [|f fs IH]; intros Hf; [done|].
  destruct (Hf f) as (nd & Hnd & Hid); [set_solver|]. rewrite !fmap_cons. simpl.
  rewrite Hnd, bind_Ret, IH by (intros; apply Hf; set_solver). simpl. by rewrite Hid.
Qed.

Lemma record_longest_spec (h : list (node V)) cs fs seq longest seqs :
  (∀ f, f ∈ cs → ∃ nd, h !! f_ptr f = Some nd ∧ n_id nd = f_id f) →
  (∀ f, f ∈ fs → f ∈ cs) → (∀ f, f ∈ cs → f_id f ∈ op_ids E) →
  partial_linearization M E (f_id <$> reverse cs) →
  longest_ok longest seqs →
  match seq with Some x => seqs !! x = Some (f_id <$> reverse cs) | None => True end →
  ∃ longest' seqs', record_longest h (calls_of cs)
      ((λ f, mkCallsEntry (Some (f_ptr f)) (f_state f)) <$> fs) seq longest seqs
      = Ret (longest', seqs') ∧ longest_ok longest' seqs'.
Proof.
  intros Hn Hfs Hids Hpl. revert seq longest seqs.
  induction fs as [|f fs IH]; intros seq longest seqs Hok Hseq; [by exists longest, seqs|].
  specialize (IH ltac:(set_solver)). assert (Hf : f ∈ cs) by set_solver.
  destruct (Hn f Hf) as (nd & Hnd & Hid). rewrite fmap_cons. simpl. rewrite Hnd, bind_Ret, Hid.
  pose proof (Hids f Hf) as Hrange%(elem_of_history_ids E n Hwf).
  assert (Hb : 0 ≤ f_id f < zlen longest) by (unfold zlen; rewrite (lo_length _ _ Hok); lia).
  destruct (index_safe longest (f_id f) Hb) as [old Hold]. rewrite Hold, bind_Ret.
  (* where the entry is replaced by a sequence of the store *)
  assert (Hset : ∀ x seqs', seqs' !! x = Some (f_id <$> reverse cs) →
    (∀ y σ, seqs !! y = Some σ → seqs' !! y = Some σ) →
    Forall (partial_linearization M E) seqs' →
    ∃ l', set_index longest (f_id f) (Some x) = Ret l' ∧ longest_ok l' seqs').
  { intros x seqs' Hx Hmono Hall. rewrite set_index_Ret by done. eexists. split; [done|].
    split; [by rewrite length_insert; apply Hok|done|].
    intros i y Hy. apply list_lookup_insert_Some in Hy as [(<- & Hxy & _)|[_ Hy]].
    - injection Hxy as <-. eexists. split; [done|]. rewrite Z2Nat.id by lia.
      apply list_elem_of_fmap. exists f. by rewrite elem_of_reverse.
    - destruct (lo_member _ _ Hok i y Hy) as (σ & Hσ & ?). exists σ. eauto. }
  assert (∃ better, match old with
      | None => Ret true
      | Some x => s ← index seqs (Z.of_nat x); Ret (zlen s <? zlen (calls_of cs))
      end = Ret better) as [better ->].
  { destruct old as [x|]; [|eauto]. apply index_Ret in Hold as [_ Hold].
    destruct (lo_member _ _ Hok _ _ Hold) as (σ & Hσ & _).
    assert (Hix : index seqs (Z.of_nat x) = Ret σ) by (apply index_Ret; rewrite Nat2Z.id; split; [lia|done]).
    rewrite Hix, bind_Ret. eauto. }
  rewrite bind_Ret. destruct better; [|by apply IH].
  destruct seq as [x|].
  - destruct (Hset x seqs) as (l' & Hl' & Hok'); [done|done|by apply Hok|].
    rewrite Hl', bind_Ret. by apply IH.
  - assert (call_ids h (calls_of cs) = Ret (f_id <$> reverse cs)) as ->.
    { apply call_ids_spec. intros g Hg. apply Hn. by rewrite elem_of_reverse in Hg. }
    rewrite bind_Ret.
    destruct (Hset (length seqs) (seqs ++ [f_id <$> reverse cs])) as (l' & Hl' & Hok').
    { by apply list_lookup_middle. }
    { intros y σ Hy. by apply lookup_app_l_Some. }
    { apply Forall_app_2; [apply Hok|by constructor]. }
    rewrite Hl', bind_Ret. apply IH; [done|]. by apply list_lookup_middle.
Qed.

(** ** The loop *)

Definition weight cs : nat :=
  foldr (λ f w, length (f_after f) * entry_cost (n - size (f_pre f)) + w)%nat O cs.

Record searching (st : search V St) cs L (w : nat) : Prop := {
  se_stack : stacked cs (c_heap st) L (c_linearized st) (c_state st);
  se_calls : c_calls st = calls_of cs;
  se_entry :
    match c_entry st with
    | Some p => ∃ l1 l2, live E L = l1 ++ p :: l2 ∧
        (∀ q, q ∈ l1 → exhausted M E L (c_state st) q) ∧
        w = (S (length l2) * entry_cost (n - size L))%nat
    | None => live E L = [] ∧ w = O
    end;
  se_cache : cache_ok (c_cache st) cs;
  se_longest : longest_ok (c_longest st) (c_seqs st)
}.

Lemma entry_cost_pos k : (1 ≤ entry_cost k)%nat.
Proof. destruct k; simpl; lia. Qed.

(** What an iteration establishes: a smaller state of the same invariant. *)
Definition continues (r : Go (search V St + search V St)) (w : nat) : Prop :=
  ∃ st' cs' L' w', r = Ret (inl st') ∧ searching st' cs' L' w' ∧ (weight cs' + w' < w)%nat.

(** Passing over an exhausted call. *)
Lemma body_skip st cs L w p l1 l2 e nd :
  searching st cs L w → c_entry st = Some p → live E L = l1 ++ p :: l2 →
  (∀ q, q ∈ l1 → exhausted M E L (c_state st) q) →
  w = (S (length l2) * entry_cost (n - size L))%nat →
  R !! p = Some e → e_kind e = callEntry → c_heap st !! p = Some nd →
  exhausted M E L (c_state st) p →
  continues (Ret (inl (mkSearch (c_heap st) (n_next nd) (c_state st) (c_linearized st)
    (c_cache st) (c_calls st) (c_longest st) (c_seqs st)))) (weight cs + w).
Proof.
  intros [Hst Hcalls _ Hcache Hlong] _ Hl Hex -> He Hk Hnd Hp.
  pose proof (stacked_heap M E n Hwf h0 Hseg0 Hnodes0 _ _ _ _ _ Hst) as [Hs _].
  rewrite Hl, app_comm_cons in Hs. destruct (seg_at _ _ _ _ _ _ Hs) as (nd' & Hnd' & _ & Hnx).
  simplify_eq. destruct (live_lift E n Hwf L l1 p l2 e Hl He Hk) as (l2a & m & l2b & f & Hl2 & _).
  pose proof (entry_cost_pos (n - size L)).
  destruct l2 as [|p' l2']; [by destruct l2a|]. simpl in Hnx.
  exists (mkSearch (c_heap st) (Some p') (c_state st) (c_linearized st)
    (c_cache st) (c_calls st) (c_longest st) (c_seqs st)), cs, L,
    (S (length l2') * entry_cost (n - size L))%nat.
  split; [by rewrite Hnx|]. split; [|simpl; lia].
  split; simpl; try done. exists (l1 ++ [p]), l2'. rewrite <- app_assoc. split_and!; [done| |done].
  intros q [Hq|Hq]%elem_of_app; [by apply Hex|]. by apply list_elem_of_singleton in Hq as ->.
Qed.

Lemma calls_of_cons f cs :
  calls_of (f :: cs) = calls_of cs ++ [mkCallsEntry (Some (f_ptr f)) (f_state f)].
Proof. unfold calls_of. by rewrite reverse_cons, fmap_app. Qed.

Lemma set_linearized cs h L b s i :
  stacked cs h L b s → i ∈ op_ids E → ∃ b', Bitset.set b i = Ret b'.
Proof.
  intros Hst Hi. destruct (stacked_bits M E n Hwf h0 Hseg0 Hnodes0 _ _ _ _ _ Hst) as [Hlen _].
  assert (Hr : in_range b i) by (by apply (op_in_range E n Hwf)).
  rewrite set_Ret by done. eauto.
Qed.

(** Executing a call that leads to a new configuration. *)
Lemma body_push st cs L w p l1 l2 e s' b' :
  searching st cs L w → live E L = l1 ++ p :: l2 →
  (∀ q, q ∈ l1 → exhausted M E L (c_state st) q) →
  w = (S (length l2) * entry_cost (n - size L))%nat →
  R !! p = Some e → e_kind e = callEntry →
  op_step M E (c_state st) (e_id e) s' → Bitset.set (c_linearized st) (e_id e) = Ret b' →
  ∃ h' hd, lift (c_heap st) (Some p) = Ret h' ∧ load h' (Some (length E)) = Ret hd ∧
    continues (Ret (inl (mkSearch h' (n_next hd) s' b'
      (<[hash b' := map_get [] (c_cache st) (hash b') ++ [mkCacheEntry b' s']]> (c_cache st))
      (c_calls st ++ [mkCallsEntry (Some p) (c_state st)]) (c_longest st) (c_seqs st))))
      (weight cs + w).
Proof.
  intros [Hst Hcalls _ Hcache Hlong] Hl Hex -> He Hk Hop Hset.
  pose proof (stacked_heap M E n Hwf h0 Hseg0 Hnodes0 _ _ _ _ _ Hst) as [Hs Hn].
  destruct (paired_in_list E n Hwf _ _ _ _ _ e Hs Hn Hl He Hk) as (l2a & m & l2b & Hl2 & Hp & Hl').
  destruct (lift_spec _ _ _ _ _ _ _ Hp) as (h' & Hlift & Hs' & _).
  set (f := mkFrame l1 p l2 L (c_state st) s').
  assert (Hst' : stacked (f :: cs) h' (f_set f) b' (f_post f))
    by (by eapply stacked_cons).
  assert (Hfs : f_set f = {[e_id e]} ∪ L) by (unfold PorcupineSearch.f_set; by rewrite (f_id_of E f e He)).
  destruct Hs' as [(hd & Hhd & _ & Hnx) _]. exists h', hd.
  split; [done|]. split; [by apply load_Ret|].
  pose proof (stacked_live M E n Hwf h0 Hseg0 Hnodes0 _ _ _ _ _ Hst') as Hlen.
  pose proof (stacked_size M E n Hwf h0 Hseg0 Hnodes0 _ _ _ _ _ Hst) as Hsz.
  pose proof (stacked_size M E n Hwf h0 Hseg0 Hnodes0 _ _ _ _ _ Hst') as Hsz'.
  pose proof (stacked_le M E n Hwf h0 Hseg0 Hnodes0 _ _ _ _ _ Hst') as Hle. simpl in Hle.
  exists (mkSearch h' (n_next hd) s' b'
      (<[hash b' := map_get [] (c_cache st) (hash b') ++ [mkCacheEntry b' s']]> (c_cache st))
      (c_calls st ++ [mkCallsEntry (Some p) (c_state st)]) (c_longest st) (c_seqs st)),
    (f :: cs), (f_set f), (length (live E (f_set f)) * entry_cost (n - size (f_set f)))%nat.
  split; [done|]. split; [split; simpl|].
  - done.
  - by rewrite calls_of_cons, Hcalls.
  - rewrite Hnx, Hfs, Hl'. destruct (l1 ++ l2a ++ l2b) as [|p' l] eqn:Hnew; simpl; [done|].
    exists [], l. split_and!; [done| |done]. intros q Hq. by apply elem_of_nil in Hq.
  - apply (cache_ok_insert _ _ f (mkCacheEntry b' s')); simpl; try done.
    + apply (stacked_bits M E n Hwf h0 Hseg0 Hnodes0 _ _ _ _ _ Hst').
    + destruct (stacked_set M E n Hwf h0 Hseg0 Hnodes0 _ _ _ _ _ Hst') as (-> & _ & Hin).
      intros i Hi%elem_of_list_to_set. by apply Hin.
  - done.
  - simpl. rewrite Hlen, Hsz', Hsz. simpl length.
    replace (n - length cs)%nat with (S (n - S (length cs))) by lia.
    set (k := (n - S (length cs))%nat). simpl. lia.
Qed.

(** At a return every operation that may come next is exhausted. *)
Lemma return_dead L s l1 p l2 e :
  live E L = l1 ++ p :: l2 → (∀ q, q ∈ l1 → exhausted M E L s q) →
  R !! p = Some e → e_kind e = returnEntry → ¬ completes M E L s.
Proof.
  intros Hl Hex He Hk Hc. inversion Hc as [? ? Hall|? ? j s' Hcand Hop Hc']; subst.
  - apply (live_cover E n Hwf) in Hall. rewrite Hl in Hall. by destruct l1.
  - destruct (candidate_in_front E n Hwf _ _ _ _ _ _ Hl He Hk Hcand) as (c & f & Hcin & Hf & Hkf & <-).
    by eapply (Hex c Hcin f Hf).
Qed.

(** Taking back the last call. *)
Lemma body_pop st cs f L w longest seqs :
  searching st (f :: cs) L w → (0 < w)%nat → longest_ok longest seqs →
  ¬ completes M E L (c_state st) →
  ∃ nd nd' b h, load (c_heap st) (Some (f_ptr f)) = Ret nd ∧
    Bitset.clear (c_linearized st) (n_id nd) = Ret b ∧
    unlift (c_heap st) (Some (f_ptr f)) = Ret h ∧ load h (Some (f_ptr f)) = Ret nd' ∧
    continues (Ret (inl (mkSearch h (n_next nd') (f_state f) b (c_cache st) (calls_of cs)
      longest seqs))) (weight (f :: cs) + w).
Proof.
  intros [Hst Hcalls _ Hcache _] Hw Hlong Hdead.
  destruct (frame_node _ _ _ _ _ f Hst) as (nd & Hnd & Hid); [set_solver|].
  inversion Hst as [|? h L0 b s ? ? ? e Hst0 Hpre Hstate Hl Hex He Hk Hop Hlift Hset Ef Eh EL Eb Es]; subst.
  rewrite <- Es in Hdead.
  pose proof (stacked_heap M E n Hwf h0 Hseg0 Hnodes0 _ _ _ _ _ Hst0) as [Hs Hn].
  destruct (paired_in_list E n Hwf _ _ _ _ _ e Hs Hn Hl He Hk) as (l2a & m & l2b & Hl2 & Hp & Hl').
  rewrite Hl, app_comm_cons in Hs. destruct (seg_at _ _ _ _ _ _ Hs) as (nd' & Hnd' & _ & Hnx).
  assert (Hin : f_ptr f ∈ live E (f_pre f)) by (rewrite Hl; set_solver).
  apply elem_of_live_ptr in Hin as (e' & He' & Hni). simplify_eq.
  destruct (stacked_bits M E n Hwf h0 Hseg0 Hnodes0 _ _ _ _ _ Hst0) as [Hblen Hbits].
  assert (Hop_id : e_id e ∈ op_ids E).
  { apply (elem_of_history_ids E n Hwf), (id_range E n Hwf). by eapply elem_of_rev_lookup. }
  exists nd, nd', b, h. split_and!.
  - by apply load_Ret.
  - rewrite Hid, (f_id_of E _ e He). eapply clear_set; [|by rewrite Hbits, bool_decide_false|done].
    by eapply (op_in_range E n Hwf).
  - by eapply unlift_lift.
  - by apply load_Ret.
  - rewrite Hl2 in Hnx. assert (∃ p' l', f_after f = p' :: l') as (p' & l' & Haf).
    { rewrite Hl2. destruct l2a; simpl; eauto. }
    rewrite <- Hl2, Haf in Hnx. simpl in Hnx.
    exists (mkSearch h (n_next nd') (f_state f) b (c_cache st) (calls_of cs) longest seqs),
      cs, (f_pre f), (length (f_after f) * entry_cost (n - size (f_pre f)))%nat.
    split; [done|]. split; [split; simpl; try done|simpl; lia].
    + rewrite Hnx. exists (f_before f ++ [f_ptr f]), l'. rewrite <- app_assoc. simpl.
      split_and!; [by rewrite Hl, Haf| |by rewrite Haf].
      intros q [Hq|Hq]%elem_of_app; [by apply Hex|]. apply list_elem_of_singleton in Hq as ->.
      intros e1 He1. simplify_eq. split; [done|]. intros s1 Hop1.
      assert (s1 = f_post f) as -> by (by eapply op_step_det).
      by rewrite <- (f_id_of E _ e He).
    + eapply cache_ok_pop; [done|]. done.
Qed.

(** A configuration found in the cache leads nowhere: it is too large to be one
    of the stack. *)
Lemma hit_exhausted cs h L b s cache p e s' b' hsh es ce :
  stacked cs h L b s → cache_ok cache cs →
  R !! p = Some e → e_kind e = callEntry → e_id e ∉ L →
  op_step M E s (e_id e) s' → Bitset.set b (e_id e) = Ret b' →
  cache !! hsh = Some es → ce ∈ es → ce_linearized ce = b' →
  model_eq s' (ce_state ce) = true → exhausted M E L s p.
Proof.
  intros Hst Hcache He Hk HeL Hop Hset Hl Hin Hlin Heq e1 He1. simplify_eq. split; [done|].
  intros s1 Hop1 Hc. assert (s1 = s') as -> by (by eapply op_step_det).
  destruct (stacked_bits M E n Hwf h0 Hseg0 Hnodes0 _ _ _ _ _ Hst) as [Hblen Hbits].
  destruct (stacked_set M E n Hwf h0 Hseg0 Hnodes0 _ _ _ _ _ Hst) as (HL & _ & HLin).
  assert (Hop_id : e_id e ∈ op_ids E).
  { apply (elem_of_history_ids E n Hwf), (id_range E n Hwf). by eapply elem_of_rev_lookup. }
  destruct (Hcache _ _ _ Hl Hin) as (K & HK & HKr & HKd).
  assert ({[e_id e]} ∪ L = K) as HLK.
  { eapply represents_unique; [|done| |done].
    - eapply represents_set; [exact Hwf|exact Hseg0|exact Hnodes0|exact Hblen|exact Hbits|exact Hset].
    - intros i [->%elem_of_singleton|Hi]%elem_of_union; [done|].
      rewrite HL, elem_of_list_to_set in Hi. by apply HLin. }
  destruct HKd as [Hdead|(f & Hf & Hfs & _)].
  - apply Hdead. rewrite <- HLK. by eapply completes_equal.
  - pose proof (stacked_frames M E n Hwf h0 Hseg0 Hnodes0 _ _ _ _ _ f Hst Hf) as Hsz.
    rewrite Hfs, <- HLK, size_union, size_singleton in Hsz by set_solver.
    rewrite (stacked_size M E n Hwf h0 Hseg0 Hnodes0 _ _ _ _ _ Hst) in Hsz. lia.
Qed.

Lemma stacked_empty h L b s : stacked [] h L b s → L = ∅ ∧ s = Init M.
Proof. by inversion 1. Qed.

(** The iteration at a return. *)
Lemma body_return computePartial st cs L w p l1 l2 e nd :
  searching st cs L w → (0 < w)%nat → c_entry st = Some p → live E L = l1 ++ p :: l2 →
  (∀ q, q ∈ l1 → exhausted M E L (c_state st) q) →
  R !! p = Some e → e_kind e = returnEntry → c_heap st !! p = Some nd → n_match nd = None →
  continues (check_body M computePartial (Some (length E)) st) (weight cs + w) ∨
  (check_body M computePartial (Some (length E)) st = Ret (inr st) ∧
   ¬ completes M E ∅ (Init M)).
Proof.
  intros Hse Hw Hp Hl Hex He Hk Hnd Hmt. pose proof Hse as [Hst Hcalls _ Hcache Hlong].
  pose proof (return_dead _ _ _ _ _ _ Hl Hex He Hk) as Hdead.
  unfold check_body. rewrite Hp, (load_Ret _ _ _ Hnd), bind_Ret, Hmt.
  destruct cs as [|f cs].
  - right. rewrite Hcalls. split; [done|]. destruct (stacked_empty _ _ _ _ Hst) as [HL HI].
    by rewrite <- HL, <- HI.
  - left. rewrite Hcalls, calls_of_cons, zlen_app, zlen_cons, zlen_nil.
    pose proof (zlen_nonneg (calls_of cs)).
    rewrite (proj2 (Z.eqb_neq _ _)) by lia.
    assert (∃ longest seqs, (if computePartial
        then record_longest (c_heap st) (calls_of (f :: cs)) (calls_of (f :: cs)) None
               (c_longest st) (c_seqs st)
        else Ret (c_longest st, c_seqs st)) = Ret (longest, seqs) ∧ longest_ok longest seqs)
      as (longest & seqs & Hrec & Hlong').
    { destruct computePartial; [|by eexists _, _].
      apply record_longest_spec; try done.
      - intros g. by apply (frame_node _ _ _ _ _ g Hst).
      - intros g Hg. by rewrite elem_of_reverse in Hg.
      - intros g Hg. destruct (stacked_set M E n Hwf h0 Hseg0 Hnodes0 _ _ _ _ _ Hst) as (_ & _ & Hin).
        apply Hin, list_elem_of_fmap. by exists g.
      - rewrite fmap_reverse. apply (stacked_partial M E n Hwf h0 Hseg0 Hnodes0 _ _ _ _ _ Hst). }
    rewrite <- calls_of_cons, Hrec, bind_Ret.
    destruct (body_pop st cs f L w longest seqs Hse Hw Hlong' Hdead)
      as (nd1 & nd2 & b & h & Hnd1 & Hclear & Hun & Hnd2 & Hcont).
    rewrite calls_of_cons.
    assert (index (calls_of cs ++ [mkCallsEntry (Some (f_ptr f)) (f_state f)])
      (zlen (calls_of cs) + (1 + 0) - 1) = Ret (mkCallsEntry (Some (f_ptr f)) (f_state f))) as ->.
    { apply index_Ret. split; [lia|].
      replace (Z.to_nat _) with (length (calls_of cs)) by (unfold zlen; lia).
      by apply list_lookup_middle. }
    rewrite bind_Ret. simpl cl_entry. simpl cl_state.
    rewrite Hnd1, bind_Ret, Hclear, bind_Ret, slice_to_Ret by zlen_lia.
    rewrite bind_Ret, take_app_length' by (unfold zlen; lia).
    by rewrite Hun, bind_Ret, Hnd2, bind_Ret.
Qed.

(** One iteration: the search goes on with less to do, or it fails because the
    history cannot be linearized. *)
Lemma check_body_spec computePartial st cs L w p :
  searching st cs L w → c_entry st = Some p →
  continues (check_body M computePartial (Some (length E)) st) (weight cs + w) ∨
  (check_body M computePartial (Some (length E)) st = Ret (inr st) ∧
   ¬ completes M E ∅ (Init M)).
Proof.
  intros Hse Hp. pose proof Hse as [Hst Hcalls Hentry Hcache Hlong].
  rewrite Hp in Hentry. destruct Hentry as (l1 & l2 & Hl & Hex & Hw).
  pose proof (stacked_heap M E n Hwf h0 Hseg0 Hnodes0 _ _ _ _ _ Hst) as [Hs Hn].
  assert (Hpl : p ∈ live E L) by (rewrite Hl; set_solver).
  apply elem_of_live_ptr in Hpl as (e & He & HeL).
  destruct (Hn p) as (nd & Hnd & e' & He' & Hval & Hid & Hmt); [by apply lookup_lt_Some in He|].
  simplify_eq. unfold check_body. rewrite Hp, (load_Ret _ _ _ Hnd), bind_Ret, Hmt.
  destruct (e_kind e) eqn:Hk.
  - (* a call *) left.
    destruct (match_of_call E n Hwf p e He Hk) as (m & f & -> & Hm & Hkf & Hidf & _).
    destruct (Hn m) as (ndm & Hndm & f' & Hf' & Hvalm & _); [by apply lookup_lt_Some in Hm|].
    simplify_eq. rewrite (load_Ret _ _ _ Hndm), bind_Ret, Hval, Hvalm, Hid.
    pose proof (op_step_at p e m f) as Hopat.
    destruct (step_at p e m f (c_state st)) as (ok & s' & Hstep); try done.
    rewrite Hstep, bind_Ret.
    destruct ok.
    + assert (Hop : op_step M E (c_state st) (e_id e) s') by (by apply Hopat).
      rewrite bitset_clone_id. destruct (set_linearized _ _ _ _ _ (e_id e) Hst) as [b' Hb'].
      { apply (elem_of_history_ids E n Hwf), (id_range E n Hwf). by eapply elem_of_rev_lookup. }
      rewrite Hb', bind_Ret.
      destruct (cacheContains_spec (c_cache st) (mkCacheEntry b' s')) as (found & -> & Hfound).
      rewrite bind_Ret. destruct found; simpl negb.
      * destruct (Hfound eq_refl) as (hsh & es & ce & Hce & Hin & Hlin & Heq).
        eapply body_skip; try done. by eapply hit_exhausted.
      * rewrite bind_Ret.
        destruct (body_push st cs L _ p l1 l2 e s' b' Hse Hl Hex eq_refl He Hk Hop Hb')
          as (h' & hd & Hlift & Hhd & Hcont).
        by rewrite Hlift, bind_Ret, Hhd, bind_Ret.
    + eapply body_skip; try done. intros e1 He1. simplify_eq. split; [done|].
      intros s1 Hop%Hopat; try done. congruence.
  - (* a return *)
    pose proof (body_return computePartial st cs L _ p l1 l2 e nd Hse) as Hret.
    unfold check_body in Hret. rewrite Hp, (load_Ret _ _ _ Hnd), bind_Ret, Hmt in Hret.
    apply Hret; try done. pose proof (entry_cost_pos (n - size L)). simpl. lia.
Qed.

(** The loop ends within [weight cs + w] iterations: with a stack that covers all
    operations, or, unless it was told to stop, because there is none. *)
Lemma check_loop_correct fuel computePartial kill k st cs L w :
  searching st cs L w → (weight cs + w ≤ fuel)%nat →
  ∃ ok st', check_loop fuel M computePartial (Some (length E)) kill k st = Ret (ok, st') ∧
    longest_ok (c_longest st') (c_seqs st') ∧
    if (ok : bool) then ∃ cs' L' w', searching st' cs' L' w' ∧ live E L' = []
    else (∀ j, kill j = false) → ¬ completes M E ∅ (Init M).
Proof.
  revert k st cs L w. induction fuel as [|fuel IH]; intros k st cs L w Hse Hf;
    pose proof Hse as [Hst Hcalls Hentry Hcache Hlong];
    pose proof (stacked_heap M E n Hwf h0 Hseg0 Hnodes0 _ _ _ _ _ Hst) as [[(hd & Hhd & _ & Hnx) _] _];
    simpl check_loop; rewrite Hhd, bind_Ret, Hnx; pose proof (entry_cost_pos (n - size L));
    destruct (live E L) as [|p0 l0] eqn:Hl; simpl hd_or.
  - exists true, st. split_and!; [done..|]. by exists cs, L, w.
  - destruct (c_entry st) as [p|]; [|by destruct Hentry].
    destruct Hentry as (l1 & l2 & _ & _ & ->). simpl in Hf. lia.
  - exists true, st. split_and!; [done..|]. by exists cs, L, w.
  - destruct (kill k) eqn:Hkill.
    { exists false, st. split_and!; [done..|]. intros Hno. by rewrite Hno in Hkill. }
    destruct (c_entry st) as [p|] eqn:Hp; [|by destruct Hentry].
    destruct (check_body_spec computePartial st cs L w p Hse Hp)
      as [(st' & cs' & L' & w' & -> & Hse' & Hlt)|[-> Hdead]].
    + rewrite bind_Ret. apply (IH (S k) st' cs' L' w' Hse'). lia.
    + rewrite bind_Ret. exists false, st. split_and!; done.
Qed.

(** A stack that covers all operations is a linearization. *)
Lemma covered_linearizable cs h L b s :
  stacked cs h L b s → live E L = [] → linearizable M E.
Proof.
  intros Hst Hl.
  destruct (stacked_partial M E n Hwf h0 Hseg0 Hnodes0 _ _ _ _ _ Hst) as [Hr (Hnd & Hin & _ & Hord)].
  destruct (stacked_set M E n Hwf h0 Hseg0 Hnodes0 _ _ _ _ _ Hst) as (HL & _ & _).
  rewrite (live_cover E n Hwf) in Hl.
  exists (reverse (f_id <$> cs)), s. split_and!; [|done|].
  - apply NoDup_Permutation; [done|by apply (NoDup_op_ids E n Hwf)|]. intros i.
    split; [apply Hin|]. intros Hi%Hl. rewrite elem_of_reverse.
    by rewrite HL, elem_of_list_to_set in Hi.
  - intros a c i j Ha Hc Hp. destruct (Hord c j i Hc Hp) as (a' & Hlt & Ha').
    by rewrite (NoDup_lookup _ _ _ _ Hnd Ha Ha').
Qed.
End check.

Section checkSingle.
Context {V St : Type} `{Inhabited V} (M : Model V St) `{!CheckableModel M}.
Context (E : list (entry V)) (n : nat) (Hwf : wf_history E n).
Context (Htyped : ∀ i v w, called E i v → returned E i w → typed v w).

Lemma live_empty : live E ∅ = down (length E).
Proof. apply list_filter_all. set_solver. Qed.

(** [checkSingle], with [kill] set at any time: it returns; what it accepts is
    linearizable, and what it rejects on its own is not; and every reported
    sequence begins a linearization. *)
Lemma checkSingle_spec fuel computePartial kill :
  (search_bound n ≤ fuel)%nat →
  ∃ ok longest seqs, checkSingle fuel M E computePartial kill = Ret (ok, (longest, seqs)) ∧
    (ok = true → linearizable M E) ∧
    (ok = false → (∀ k, kill k = false) → ¬ linearizable M E) ∧
    longest_ok M E n longest seqs.
Proof.
  intros Hfuel. unfold checkSingle.
  destruct (makeLinkedEntries_spec E) as (h & Hmk & Hlen & Hs & Hn).
  rewrite Hmk, bind_Ret. unfold length_nodes.
  rewrite (length_from_seg _ _ _ _ _ Hs), bind_Ret by (rewrite length_down; lia).
  assert (Hdiv : (0 + zlen (down (length E))) / 2 = Z.of_nat n).
  { unfold zlen. rewrite length_down, (length_history E n Hwf). replace (0 + _) with (Z.of_nat n * 2) by lia.
    by apply Z.div_mul. }
  rewrite Hdiv, Nat2Z.id.
  destruct (insertBefore_front h (length h) (down (length E)) (mkNode inhabitant None (-1) None None))
    as (h1 & Hi & Hs1 & Hsame); try done.
  { rewrite Hlen. apply (NoDup_down (S (length E))). }
  rewrite Hi, bind_Ret. rewrite Hlen in *.
  assert (Hseg : seg h1 None (length E :: live E ∅) None) by (by rewrite live_empty).
  assert (Hnodes : nodes_ok (reverse E) h1).
  { eapply nodes_ok_same; [exact Hsame|]. intros p Hp. destruct (Hn p Hp) as (nd & Hnd & ?).
    exists nd. by rewrite (lookup_app_l_Some _ _ _ _ Hnd). }
  set (st0 := mkSearch h1 (hd_or (down (length E)) None) (Init M) (newBitset (Z.of_nat n)) ∅ []
    (replicate n None) []).
  assert (Hse : searching M E n h1 st0 [] ∅ (length (live E ∅) * entry_cost n)%nat).
  { split; simpl; try done.
    - constructor.
    - rewrite live_empty. destruct (down (length E)) as [|p l]; simpl; [done|].
      exists [], l. split_and!; [done| |by rewrite ?size_empty, ?Nat.sub_0_r].
      intros q Hq. by apply elem_of_nil in Hq.
    - split; [by rewrite length_replicate|constructor|].
      intros i x [? _]%lookup_replicate. done. }
  destruct (check_loop_correct M E n Hwf Htyped h1 Hseg Hnodes fuel computePartial kill 0 st0 [] ∅ _ Hse)
    as (ok & st & -> & Hlong & Hres).
  { rewrite live_empty, length_down, (length_history E n Hwf). unfold search_bound in Hfuel. simpl weight. lia. }
  rewrite bind_Ret. destruct ok.
  - destruct Hres as (cs & L & w & [Hst Hcalls _ _ _] & Hl).
    assert (call_ids (c_heap st) (c_calls st) = Ret (f_id E <$> reverse cs)) as ->.
    { rewrite Hcalls. apply call_ids_spec. intros f Hf. rewrite elem_of_reverse in Hf.
      by apply (frame_node M E n Hwf Htyped h1 Hseg Hnodes _ _ _ _ _ f Hst). }
    rewrite bind_Ret. eexists _, _, _. split; [done|]. split_and!; [|done|].
    + intros _. by apply (covered_linearizable M E n Hwf h1 Hseg Hnodes _ _ _ _ _ Hst).
    + destruct (stacked_partial M E n Hwf h1 Hseg Hnodes _ _ _ _ _ Hst) as [_ Hpl].
      split; [by rewrite length_replicate| |].
      * apply Forall_app_2; [apply Hlong|]. constructor; [|done]. by rewrite fmap_reverse.
      * intros i x [[= ->] Hlt]%lookup_replicate. eexists. split; [by apply list_lookup_middle|].
        destruct (stacked_set M E n Hwf h1 Hseg Hnodes _ _ _ _ _ Hst) as (HL & _ & _).
        rewrite (live_cover E n Hwf) in Hl.
        assert (Hin : Z.of_nat i ∈ L) by (apply Hl, (elem_of_history_ids E n Hwf); lia).
        rewrite HL, elem_of_list_to_set in Hin.
        by rewrite fmap_reverse, elem_of_reverse.
  - eexists _, _, _. split; [done|]. split_and!; [done| |done].
    intros _ Hno. rewrite (linearizable_completes M E n Hwf). by apply Hres.
Qed.
End checkSingle.
