(* ===== verification/KvModel.v ===== *)
(** * The key/value model the test suites check histories against

    [models/kv.go]: the sequential specification of one key ([kv_Step]) and the
    partition of a history by key ([kv_Partition]).  [kvValue] is what the
    [interface{}] fields of these histories hold; a value of another type makes
    the type assertions panic.

    [linearizable_kv] is the property the test suites mean: one order of all
    operations that respects real time and that the whole map can execute.
    [partition_local] shows that checking key by key decides it: a history is
    linearizable for the map exactly when each part is linearizable for one
    key. *)

From S2P Require Import Prelude Bitset Porcupine PorcupineList PorcupineSpec.

(** ** models/kv.go *)

Record KvInput := mkKvInput { in_Op : Z; in_Key : string; in_Value : string }.
Record KvOutput := mkKvOutput { out_Value : string }.

Inductive kvValue :=
| VNil
| VInput (i : KvInput)
| VOutput (o : KvOutput).

#[export] Instance kvValue_inhabited : Inhabited kvValue := populate VNil.

Abbreviation kvOp := (Operation kvValue) (only parsing).

(** [v.Input.(KvInput).Key]. *)
Definition op_key (v : kvOp) : Go string :=
  match op_Input v with VInput i => Ret (in_Key i) | _ => Panic PType end.

Fixpoint group_by_key (m : gmap string (list kvOp)) (history : list kvOp)
  : Go (gmap string (list kvOp)) :=
  match history with
  | [] => Ret m
  | v :: history' =>
      key ← op_key v;
      group_by_key (<[key := map_get [] m key ++ [v]]> m) history'
  end.

(** [sort.Strings]: byte order. *)
Definition string_le (a b : string) : Prop := String.leb a b = true.

#[export] Instance string_le_dec : RelDecision string_le.
Proof. intros a b. unfold string_le. apply _. Defined.

#[export] Instance string_le_total : Total string_le.
Proof. intros a b. apply String.leb_total. Qed.

Definition sort_strings (l : list string) : list string := merge_sort string_le l.

Definition kv_Partition (history : list kvOp) : Go (list (list kvOp)) :=
  m ← group_by_key ∅ history;
  let keys := sort_strings (map_to_list m).*1 in
  Ret ((λ k, map_get [] m k) <$> keys).

(** One key: the state is its value. *)
Definition kv_Step (state : string) (input output : kvValue) : Go (bool * string) :=
  match input, output with
  | VInput inp, VOutput out =>
      if in_Op inp =? 0 then Ret (bool_decide (out_Value out = state), state)
      else if in_Op inp =? 1 then Ret (true, in_Value inp)
      else Ret (true, (state +:+ in_Value inp)%string)
  | _, _ => Panic PType
  end.

Definition KvModel : Model kvValue string :=
  mkModel (Some kv_Partition) None EmptyString kv_Step None.

(** The checker may use the model: it only calls [Step] on an input and an
    output, and states are compared by [==]. *)
#[export] Instance KvModel_checkable : CheckableModel (fillDefault KvModel).
Proof.
  refine {| typed v w := ∃ i o, v = VInput i ∧ w = VOutput o;
            model_eq := ShallowEqual |}.
  - done.
  - intros s v w (i & o & -> & ->). simpl. repeat case_test; eauto.
  - intros s t v w s' Heq _ Hst. unfold ShallowEqual in Heq. apply bool_decide_eq_true in Heq as ->.
    exists s'. split; [done|]. unfold ShallowEqual. by apply bool_decide_eq_true.
Defined.

(** ** What the test suites mean *)

(** A well-typed operation that returns no earlier than it is called. *)
Definition kv_op_ok (v : kvOp) : Prop :=
  (∃ i o, op_Input v = VInput i ∧ op_Output v = VOutput o) ∧ op_Call v ≤ op_Return v.

Definition key_of (v : kvOp) : string :=
  match op_Input v with VInput i => in_Key i | _ => EmptyString end.

(** An order of operations respects real time: none returned before an earlier
    one was called. *)
Definition real_time {V} (l : list (Operation V)) : Prop :=
  StronglySorted (λ x y, op_Call x ≤ op_Return y) l.

(** The model executes the operations in this order, with their results. *)
Inductive executes {V St} (M : Model V St) : St → list (Operation V) → Prop :=
| executes_nil s : executes M s []
| executes_cons s v s' l :
    Step M s (op_Input v) (op_Output v) = Ret (true, s') →
    executes M s' l → executes M s (v :: l).

Definition linearizable_ops {V St} (M : Model V St) (hist : list (Operation V)) : Prop :=
  ∃ l, l ≡ₚ hist ∧ real_time l ∧ executes M (Init M) l.

(** The whole map: an absent key reads as the empty string. *)
Inductive map_executes : gmap string string → list kvOp → Prop :=
| map_executes_nil m : map_executes m []
| map_executes_cons m v st l :
    kv_Step (map_get EmptyString m (key_of v)) (op_Input v) (op_Output v) = Ret (true, st) →
    map_executes (<[key_of v := st]> m) l → map_executes m (v :: l).

Definition linearizable_kv (hist : list kvOp) : Prop :=
  ∃ l, l ≡ₚ hist ∧ real_time l ∧ map_executes ∅ l.

(** ** The partition *)

Lemma op_key_ok v : kv_op_ok v → op_key v = Ret (key_of v).
Proof. intros [(i & o & Hi & _) _]. unfold op_key, key_of. by rewrite Hi. Qed.

Definition with_key (k : string) (l : list kvOp) : list kvOp := filter (λ v, key_of v = k) l.

Lemma group_by_key_spec m hist :
  Forall kv_op_ok hist →
  ∃ m', group_by_key m hist = Ret m' ∧
    (∀ k, map_get [] m' k = map_get [] m k ++ with_key k hist) ∧
    (∀ k, is_Some (m' !! k) ↔ is_Some (m !! k) ∨ k ∈ key_of <$> hist).
Proof.
  intros Hok. revert m. induction Hok as [|v hist Hv _ IH]; intros m.
  - exists m. split_and!; [done| |].
    + intros k. by rewrite app_nil_r.
    + intros k. split; [auto|]. intros [?|Hk]; [done|]. by apply elem_of_nil in Hk.
  - simpl. rewrite op_key_ok by done. rewrite bind_Ret.
    destruct (IH (<[key_of v := map_get [] m (key_of v) ++ [v]]> m)) as (m' & -> & Hget & Hdom).
    exists m'. split_and!; [done| |].
    + intros k. rewrite Hget. unfold with_key. rewrite filter_cons.
      destruct (decide (key_of v = k)) as [<-|Hne].
      * by rewrite map_get_insert_eq, <- app_assoc.
      * by rewrite map_get_insert_ne.
    + intros k. rewrite Hdom, lookup_insert_is_Some', elem_of_cons.
      destruct (decide (key_of v = k)); naive_solver.
Qed.

(** The keys of the history, each once, in order. *)
Lemma kv_Partition_spec hist :
  Forall kv_op_ok hist →
  ∃ keys, kv_Partition hist = Ret ((λ k, with_key k hist) <$> keys) ∧
    NoDup keys ∧ (∀ k, k ∈ keys ↔ k ∈ key_of <$> hist) ∧
    Sorted string_le keys.
Proof.
  intros Hok. destruct (group_by_key_spec ∅ hist Hok) as (m & Hm & Hget & Hdom).
  unfold kv_Partition. rewrite Hm, bind_Ret. exists (sort_strings (map_to_list m).*1).
  split_and!.
  - f_equal. apply list_fmap_ext. intros i k _. by rewrite Hget.
  - unfold sort_strings. rewrite merge_sort_Permutation. apply NoDup_fst_map_to_list.
  - intros k. unfold sort_strings. rewrite merge_sort_Permutation.
    rewrite list_elem_of_fmap. split.
    + intros ([k' x] & -> & Hx%elem_of_map_to_list). simpl.
      destruct (proj1 (Hdom k')) as [[? ?]|?]; [by eauto|done|done].
    + intros Hk. destruct (proj2 (Hdom k)) as [x Hx]; [by right|].
      exists (k, x). by rewrite elem_of_map_to_list.
  - apply Sorted_merge_sort, _.
Qed.

(** ** Merging the linearizations of the keys *)

Inductive interleave {A} : list A → list A → list A → Prop :=
| interleave_nil : interleave [] [] []
| interleave_l x l k c : interleave l k c → interleave (x :: l) k (x :: c)
| interleave_r x l k c : interleave l k c → interleave l (x :: k) (x :: c).

Lemma interleave_perm {A} (l k c : list A) : interleave l k c → c ≡ₚ l ++ k.
Proof.
  induction 1 as [|x l k c _ IH|x l k c _ IH]; simpl; [done|by rewrite IH|].
  rewrite IH. apply Permutation_middle.
Qed.

Lemma interleave_right {A} (k : list A) : interleave [] k k.
Proof. induction k; by constructor. Qed.

Lemma interleave_left {A} (l : list A) : interleave l [] l.
Proof. induction l; by constructor. Qed.

Lemma interleave_nil_l {A} (k c : list A) : interleave [] k c → c = k.
Proof.
  intros H. remember [] as l eqn:Hl. induction H; simplify_eq; [done|]. f_equal. auto.
Qed.

Lemma interleave_nil_r {A} (l c : list A) : interleave l [] c → c = l.
Proof.
  intros H. remember [] as k eqn:Hk. induction H; simplify_eq; [done|]. f_equal. auto.
Qed.

Lemma interleave_filter {A} (P : A → Prop) `{!∀ x, Decision (P x)} (l k c : list A) :
  interleave l k c → interleave (filter P l) (filter P k) (filter P c).
Proof.
  induction 1; [constructor|rewrite !filter_cons; case_decide; [by constructor|done]..].
Qed.

(** Two orders that respect real time have an interleaving that does: if the
    first of one list must not go first, the first of the other may. *)
Lemma real_time_merge {V} (l k : list (Operation V)) :
  Forall (λ v, op_Call v ≤ op_Return v) (l ++ k) → real_time l → real_time k →
  ∃ c, interleave l k c ∧ real_time c.
Proof.
  unfold real_time. revert k. induction l as [|x l IHl]; intros k Hok Hl Hk.
  { exists k. split; [apply interleave_right|done]. }
  induction k as [|y k IHk].
  { exists (x :: l). split; [apply interleave_left|done]. }
  pose proof Hl as Hl0. pose proof Hk as Hk0.
  apply StronglySorted_cons in Hl as [Hx Hl]. apply StronglySorted_cons in Hk as [Hy Hk].
  apply Forall_app in Hok as [Hokl Hokk].
  pose proof (Forall_inv Hokl) as Hxok. pose proof (Forall_inv Hokk) as Hyok. simpl in Hxok, Hyok.
  destruct (decide (Forall (λ z, op_Call x ≤ op_Return z) (y :: k))) as [Hfirst|Hnot].
  - destruct (IHl (y :: k)) as (c & Hc & Hs); [|done|done|].
    { apply Forall_app. split; [by inversion Hokl|done]. }
    exists (x :: c). split; [by constructor|]. apply StronglySorted_cons. split; [|done].
    rewrite (interleave_perm _ _ _ Hc). apply Forall_app. done.
  - apply not_Forall_Exists, Exists_exists in Hnot as (z & Hz & Hlt); [|apply _]. unfold compose in Hlt. cbv beta in Hlt.
    destruct IHk as (c & Hc & Hs); [|done|].
    { apply Forall_app. split; [done|by inversion Hokk]. }
    exists (y :: c). split; [by constructor|]. apply StronglySorted_cons. split; [|done].
    rewrite (interleave_perm _ _ _ Hc). apply Forall_app. split; [|done].
    assert (Hyz : op_Call y ≤ op_Return z).
    { apply elem_of_cons in Hz as [->|Hz]; [done|]. rewrite Forall_forall in Hy. by apply Hy. }
    rewrite Forall_forall in Hx. apply Forall_forall. intros w Hw.
    assert (op_Call x ≤ op_Return w) by (apply elem_of_cons in Hw as [->|Hw]; [done|by apply Hx]).
    lia.
Qed.

Lemma with_key_same k l : (∀ v, v ∈ l → key_of v = k) → with_key k l = l.
Proof. apply list_filter_all. Qed.

Lemma with_key_none k l : (∀ v, v ∈ l → key_of v ≠ k) → with_key k l = [].
Proof. apply list_filter_none. Qed.

Lemma elem_of_with_key k l v : v ∈ with_key k l ↔ v ∈ l ∧ key_of v = k.
Proof. unfold with_key. rewrite list_elem_of_filter. tauto. Qed.

(** One order per key, all respecting real time, come from one order. *)
Lemma merge_keys (keys : list string) (order : string → list kvOp) :
  NoDup keys →
  (∀ k, k ∈ keys → real_time (order k) ∧
     ∀ v, v ∈ order k → key_of v = k ∧ op_Call v ≤ op_Return v) →
  ∃ c, real_time c ∧ (∀ v, v ∈ c → key_of v ∈ keys ∧ op_Call v ≤ op_Return v) ∧
    ∀ k, k ∈ keys → with_key k c = order k.
Proof.
  induction 1 as [|k keys Hk _ IH]; intros Hord.
  { exists []. split_and!; [constructor|by intros v Hv%elem_of_nil|by intros v Hv%elem_of_nil]. }
  destruct IH as (c & Hrt & Hc & Hkeys); [intros; apply Hord; set_solver|].
  destruct (Hord k) as [Hrk Hok]; [set_solver|].
  destruct (real_time_merge (order k) c) as (c' & Hint & Hrt'); [|done|done|].
  { apply Forall_app. rewrite !Forall_forall. split; naive_solver. }
  exists c'. split_and!; [done| |].
  - intros v. rewrite (interleave_perm _ _ _ Hint), elem_of_app, elem_of_cons.
    intros [Hv|Hv]; [|by apply Hc in Hv; naive_solver]. apply Hok in Hv. naive_solver.
  - intros k' [->|Hk']%elem_of_cons.
    + apply (interleave_filter (λ v, key_of v = k)) in Hint. fold (with_key k (order k)) in Hint.
      fold (with_key k c) (with_key k c') in Hint.
      rewrite (with_key_none k c), (with_key_same k (order k)) in Hint.
      * by apply interleave_nil_r in Hint.
      * naive_solver.
      * intros v Hv Heq. apply Hc in Hv as [Hv _]. congruence.
    + apply (interleave_filter (λ v, key_of v = k')) in Hint. fold (with_key k' (order k)) in Hint.
      fold (with_key k' c) (with_key k' c') in Hint.
      rewrite (with_key_none k' (order k)) in Hint.
      * apply interleave_nil_l in Hint. rewrite Hint. by apply Hkeys.
      * intros v Hv. apply Hok in Hv as [-> _]. by intros ->.
Qed.

(** The map executes a sequence exactly when each key executes its part. *)
Lemma map_executes_keys m l :
  map_executes m l ↔ ∀ k, executes KvModel (map_get EmptyString m k) (with_key k l).
Proof.
  split.
  - induction 1 as [m|m v st l Hst _ IH]; intros k; [constructor|].
    unfold with_key. rewrite filter_cons. case_decide as Hk.
    + subst k. econstructor; [done|]. specialize (IH (key_of v)).
      by rewrite map_get_insert_eq in IH.
    + specialize (IH k). by rewrite map_get_insert_ne in IH.
  - revert m. induction l as [|v l IH]; intros m Hk; [constructor|].
    pose proof (Hk (key_of v)) as Hv. unfold with_key in Hv. rewrite filter_cons_True in Hv by done.
    inversion Hv as [|? ? st ? Hst Hl]; subst. econstructor; [done|]. apply IH. intros k.
    destruct (decide (key_of v = k)) as [<-|Hne]; [by rewrite map_get_insert_eq|].
    specialize (Hk k). unfold with_key in Hk. rewrite filter_cons_False in Hk by done.
    by rewrite map_get_insert_ne.
Qed.

Lemma real_time_filter {V} (P : Operation V → Prop) `{!∀ x, Decision (P x)} l :
  real_time l → real_time (filter P l).
Proof.
  unfold real_time. induction 1 as [|v l _ IH Hv]; [constructor|].
  rewrite filter_cons. case_decide; [|done]. constructor; [done|].
  rewrite Forall_forall in *. intros w Hw%list_elem_of_filter. naive_solver.
Qed.

Lemma with_key_perm l l' : (∀ k, with_key k l ≡ₚ with_key k l') → l ≡ₚ l'.
Proof.
  revert l'. induction l as [|v l IH]; intros l' Hk.
  - destruct l' as [|v' l']; [done|]. specialize (Hk (key_of v')). unfold with_key in Hk.
    rewrite filter_cons_True in Hk by done. by apply Permutation_nil_cons in Hk.
  - assert (Hv : v ∈ with_key (key_of v) l').
    { rewrite <- Hk. apply elem_of_with_key. split; [set_solver|done]. }
    apply elem_of_with_key in Hv as [(a & b & ->)%list_elem_of_split _].
    rewrite <- Permutation_middle. f_equiv. apply IH. intros k. specialize (Hk k).
    unfold with_key in *. rewrite <- (Permutation_middle a b v) in Hk.
    rewrite !filter_cons in Hk. case_decide; [|done]. by apply Permutation_cons_inv in Hk.
Qed.

(** A history of the map is linearizable exactly when the part of each of its
    keys is linearizable for one key. *)
Lemma linearizable_by_key hist keys :
  Forall kv_op_ok hist → NoDup keys → (∀ k, k ∈ keys ↔ k ∈ key_of <$> hist) →
  linearizable_kv hist ↔ ∀ k, k ∈ keys → linearizable_ops KvModel (with_key k hist).
Proof.
  intros Hok Hnd Hkeys. split.
  - intros (l & Hp & Hrt & Hex) k _. exists (with_key k l). split_and!.
    + unfold with_key. by rewrite Hp.
    + by apply real_time_filter.
    + apply (proj1 (map_executes_keys ∅ l) Hex k).
  - intros Hlin.
    assert (∃ order : string → list kvOp, ∀ k, k ∈ keys →
      order k ≡ₚ with_key k hist ∧ real_time (order k) ∧ executes KvModel EmptyString (order k))
      as [order Hord].
    { clear Hkeys. induction Hnd as [|k keys Hk _ IH].
      - exists (λ _, []). by intros k Hk%elem_of_nil.
      - destruct IH as [order Hord]; [intros; apply Hlin; set_solver|].
        destruct (Hlin k) as (l & Hl); [set_solver|].
        exists (λ k', if decide (k' = k) then l else order k'). intros k' Hk'.
        case_decide as Heq; [by subst|]. apply Hord. set_solver. }
    rewrite Forall_forall in Hok.
    destruct (merge_keys keys order Hnd) as (c & Hrt & Hc & Hwk).
    { intros k Hk. destruct (Hord k Hk) as (Hp & Hrt & _). split; [done|].
      intros v. rewrite Hp, elem_of_with_key. intros [Hv Hkv]. apply Hok in Hv as [_ ?]. done. }
    exists c. split_and!; [|done|].
    + apply with_key_perm. intros k. destruct (decide (k ∈ keys)) as [Hk|Hk].
      * rewrite Hwk by done. by apply Hord.
      * rewrite !with_key_none; [done| |]; intros v Hv <-; apply Hk.
        -- apply Hkeys, list_elem_of_fmap. by exists v.
        -- by apply Hc in Hv as [? _].
    + apply map_executes_keys. intros k. destruct (decide (k ∈ keys)) as [Hk|Hk].
      * rewrite Hwk by done. apply Hord. done.
      * rewrite with_key_none; [constructor|]. intros v Hv <-. by apply Hc in Hv as [? _].
Qed.
