(* ===== verification/PorcupineOps.v ===== *)
(** * From operations and events to entries

    [makeEntries], [renumber] and [convertEntries] of [porcupine/checker.go].
    The entries [makeEntries] makes of a list of operations form a complete
    history ([makeEntries_wf]), one operation precedes another exactly when its
    return time is smaller than the other's call time ([precedes_times]), and
    so checking the entries decides [linearizable_ops] of the operations
    ([makeEntries_linearizable]), whatever order the sort leaves equal elements
    in. *)

From S2P Require Import Prelude Bitset Porcupine PorcupineList PorcupineSpec KvModel.

(** A [Sorter]: stdpp's merge sort. *)
Definition entry_le {V} (a b : entry V) : Prop := Less b a = false.

#[export] Instance entry_le_dec {V} : RelDecision (@entry_le V).
Proof. intros a b. unfold entry_le. apply _. Defined.

Lemma Less_spec {V} (a b : entry V) :
  Less a b = true ↔ e_time a < e_time b ∨
    (e_time a = e_time b ∧ e_kind a = callEntry ∧ e_kind b = returnEntry).
Proof.
  unfold Less. destruct (Z.eqb_spec (e_time a) (e_time b)); simpl.
  - rewrite andb_true_iff, !bool_decide_eq_true. intuition lia.
  - rewrite Z.ltb_lt. intuition lia.
Qed.

(** Calls rank before returns. *)
Definition kind_rank (k : entryKind) : Z := match k with callEntry => 0 | returnEntry => 1 end.

Lemma entry_le_rank {V} (a b : entry V) :
  entry_le a b ↔ e_time a < e_time b ∨
    (e_time a = e_time b ∧ kind_rank (e_kind a) ≤ kind_rank (e_kind b)).
Proof.
  unfold entry_le. rewrite <- not_true_iff_false, Less_spec.
  destruct (Z.lt_trichotomy (e_time a) (e_time b)) as [|[|]];
    destruct (e_kind a), (e_kind b); simpl; split; intros Hab; try lia;
    first [intros [?|(? & ? & ?)]; (lia || congruence) | exfalso; apply Hab; right; done].
Qed.

#[export] Instance entry_le_total {V} : Total (@entry_le V).
Proof. intros a b. rewrite !entry_le_rank. lia. Qed.

#[export] Instance entry_le_trans {V} : Transitive (@entry_le V).
Proof. intros a b c. rewrite !entry_le_rank. lia. Qed.

Lemma StronglySorted_lookup {A} (Rel : relation A) (l : list A) :
  StronglySorted Rel l ↔
  ∀ i j x y, (i < j)%nat → l !! i = Some x → l !! j = Some y → Rel x y.
Proof.
  split.
  - induction 1 as [|z l _ IH Hz]; intros [|i] [|j] x y Hlt Hi Hj; simpl in *; try done; try lia.
    + simplify_eq. rewrite Forall_forall in Hz. by eapply Hz, list_elem_of_lookup_2.
    + apply (IH i j); [lia|done|done].
  - induction l as [|z l IH]; intros Hl; constructor.
    + apply IH. intros i j x y Hlt. apply (Hl (S i) (S j)). lia.
    + apply Forall_forall. intros y [j Hj]%list_elem_of_lookup_1.
      apply (Hl 0%nat (S j)); [lia|done|done].
Qed.

#[export] Program Instance merge_sorter : Sorter := {|
  sort_byTime V l := merge_sort entry_le l
|}.
Next Obligation. intros V l. apply merge_sort_Permutation. Qed.
Next Obligation.
  intros V l i j a b Hlt Ha Hb.
  pose proof (StronglySorted_merge_sort (@entry_le V) l) as Hs.
  rewrite StronglySorted_lookup in Hs. exact (Hs i j a b Hlt Ha Hb).
Qed.

Section operations.
Context {S : Sorter} {V : Type} (hist : list (Operation V)).
Context (Htimes : Forall (λ v, op_Call v ≤ op_Return v) hist).
Implicit Types (v w : Operation V) (i j : Z).

Definition call_entry i v : entry V :=
  mkEntry callEntry (op_Input v) i (op_Call v) (op_ClientId v).
Definition return_entry i v : entry V :=
  mkEntry returnEntry (op_Output v) i (op_Return v) (op_ClientId v).

Lemma elem_of_makeEntries_from id (H : list (Operation V)) e :
  e ∈ makeEntries_from id H ↔ ∃ (k : nat) v, H !! k = Some v ∧
    (e = call_entry (id + Z.of_nat k) v ∨ e = return_entry (id + Z.of_nat k) v).
Proof.
  revert id. induction H as [|v H IH]; intros id; simpl.
  - rewrite elem_of_nil. split; [done|]. by intros (k & v & Hk & _).
  - rewrite !elem_of_cons, IH. split.
    + intros [->|[->|(k & w & Hk & He)]].
      * exists O, v. rewrite Z.add_0_r. auto.
      * exists O, v. rewrite Z.add_0_r. auto.
      * exists (Datatypes.S k), w. split; [done|].
        by replace (id + Z.of_nat (Datatypes.S k)) with (id + 1 + Z.of_nat k) by lia.
    + intros ([|k] & w & Hk & He); simpl in Hk.
      * simplify_eq. rewrite Z.add_0_r in He. naive_solver.
      * right. right. exists k, w. split; [done|].
        by replace (id + 1 + Z.of_nat k) with (id + Z.of_nat (Datatypes.S k)) by lia.
Qed.

Lemma ids_of_makeEntries_from k id (H : list (Operation V)) :
  ids_of (makeEntries_from id H) k = seqZ id (Z.of_nat (length H)).
Proof.
  revert id. induction H as [|v H IH]; intros id; [done|].
  rewrite seqZ_cons by (simpl; lia). unfold ids_of in *. simpl makeEntries_from.
  replace (Z.pred (Z.of_nat (length (v :: H)))) with (Z.of_nat (length H)) by (simpl; lia).
  destruct k.
  - rewrite filter_cons_True, filter_cons_False by done. simpl. f_equal. apply IH.
  - rewrite filter_cons_False, filter_cons_True by done. simpl. f_equal. apply IH.
Qed.

Abbreviation E := (makeEntries hist).
Abbreviation n := (length hist).

Lemma ids_of_perm k l l' : l ≡ₚ l' → ids_of (V := V) l k ≡ₚ ids_of l' k.
Proof. intros Hl. unfold ids_of. by rewrite Hl. Qed.

Lemma elem_of_makeEntries e :
  e ∈ E ↔ ∃ (k : nat) v, hist !! k = Some v ∧
    (e = call_entry (Z.of_nat k) v ∨ e = return_entry (Z.of_nat k) v).
Proof. unfold makeEntries. rewrite sort_perm. apply elem_of_makeEntries_from. Qed.

Lemma sorted_E a b e f :
  E !! a = Some e → E !! b = Some f → Less e f = true → a ≠ b → (a < b)%nat.
Proof.
  intros Ha Hb Hless Hne. destruct (decide (a < b)%nat); [done|].
  assert (Hlt : (b < a)%nat) by lia.
  pose proof (sort_sorted (makeEntries_from 0 hist) b a f e Hlt Hb Ha). congruence.
Qed.

(** The operation an entry belongs to. *)
Lemma entry_op a e :
  E !! a = Some e → ∃ v, 0 ≤ e_id e ∧ hist !! Z.to_nat (e_id e) = Some v ∧
    op_Call v ≤ op_Return v ∧
    e = (match e_kind e with callEntry => call_entry | returnEntry => return_entry end) (e_id e) v.
Proof.
  intros (k & v & Hk & He)%list_elem_of_lookup_2%elem_of_makeEntries.
  exists v. pose proof (Forall_lookup_1 _ _ _ _ Htimes Hk).
  destruct He as [-> | ->]; simpl; rewrite Nat2Z.id; split_and!; (done || lia).
Qed.

Lemma makeEntries_wf : wf_history E n.
Proof.
  split.
  - rewrite <- (ids_of_makeEntries_from callEntry). apply ids_of_perm, sort_perm.
  - rewrite <- (ids_of_makeEntries_from returnEntry). apply ids_of_perm, sort_perm.
  - intros a b e f Ha Hb Hk Hk' Hid.
    destruct (entry_op a e Ha) as (v & _ & Hv & Hle & He).
    destruct (entry_op b f Hb) as (w & _ & Hw & _ & Hf).
    rewrite Hk in He. rewrite Hk' in Hf. rewrite Hid in Hv. simplify_eq.
    apply (sorted_E a b e f Ha Hb); [|by intros ->; congruence].
    rewrite He, Hf. apply Less_spec. simpl.
    destruct (decide (op_Call v = op_Return v)); [by right|left; lia].
Qed.

(** Precedence is a matter of times: an operation that returns at the moment
    another is called does not precede it. *)
Lemma precedes_times i j :
  precedes E i j ↔ ∃ v w, 0 ≤ i ∧ 0 ≤ j ∧ hist !! Z.to_nat i = Some v ∧
    hist !! Z.to_nat j = Some w ∧ op_Return v < op_Call w.
Proof.
  split.
  - intros (a & b & e & f & Ha & Hb & Hlt & Hk & Hi & Hk' & Hj).
    destruct (entry_op a e Ha) as (v & Hi0 & Hv & _ & He).
    destruct (entry_op b f Hb) as (w & Hj0 & Hw & _ & Hf).
    rewrite Hk in He. rewrite Hk' in Hf. subst i j. exists v, w. split_and!; try done.
    pose proof (sort_sorted (makeEntries_from 0 hist) a b e f Hlt Ha Hb) as Hless.
    rewrite He, Hf in Hless. apply not_true_iff_false in Hless. rewrite Less_spec in Hless.
    simpl in Hless. destruct (decide (op_Return v < op_Call w)); [done|].
    destruct Hless. destruct (decide (op_Call w = op_Return v)); [by right|left; lia].
  - intros (v & w & Hi & Hj & Hv & Hw & Hlt).
    assert (Hr : return_entry i v ∈ E).
    { apply elem_of_makeEntries. exists (Z.to_nat i), v. rewrite Z2Nat.id by done. auto. }
    assert (Hc : call_entry j w ∈ E).
    { apply elem_of_makeEntries. exists (Z.to_nat j), w. rewrite Z2Nat.id by done. auto. }
    apply list_elem_of_lookup_1 in Hr as [a Ha]. apply list_elem_of_lookup_1 in Hc as [b Hb].
    exists a, b, (return_entry i v), (call_entry j w). split_and!; try done.
    apply (sorted_E a b _ _ Ha Hb); [apply Less_spec; by left|].
    intros ->. by rewrite Ha in Hb.
Qed.

(** ** Linearizability of the operations *)

(** The operations [l] and their ids [σ]. *)
Definition picks (l : list (Operation V)) (σ : list Z) : Prop :=
  Forall2 (λ v i, 0 ≤ i ∧ hist !! Z.to_nat i = Some v) l σ.

Lemma lookup_all : (λ i, hist !! Z.to_nat i) <$> seqZ 0 (Z.of_nat n) = Some <$> hist.
Proof.
  apply list_eq. intros k. rewrite !list_lookup_fmap.
  destruct (hist !! k) as [v|] eqn:Hk; simpl.
  - rewrite lookup_seqZ_lt by (apply lookup_lt_Some in Hk; lia). simpl.
    by rewrite Z.add_0_l, Nat2Z.id, Hk.
  - rewrite lookup_seqZ_ge; [done|]. apply lookup_ge_None in Hk. lia.
Qed.

Lemma picks_eq l σ :
  Forall (λ i, 0 ≤ i) σ → Some <$> l = (λ i, hist !! Z.to_nat i) <$> σ → picks l σ.
Proof.
  unfold picks. revert σ. induction l as [|v l IH]; intros [|i σ] Hσ Heq; simplify_eq/=; [constructor|].
  inversion Hσ; subst. constructor; [done|]. by apply IH.
Qed.

Lemma seqZ_nonneg σ : σ ≡ₚ seqZ 0 (Z.of_nat n) → Forall (λ i, 0 ≤ i) σ.
Proof. intros ->. apply Forall_forall. intros i Hi%elem_of_seqZ. lia. Qed.

(** Every order of the ids is an order of the operations, and conversely. *)
Lemma picks_of_ids σ : σ ≡ₚ seqZ 0 (Z.of_nat n) → ∃ l, picks l σ ∧ l ≡ₚ hist.
Proof.
  intros Hσ. assert (Hp : (λ i, hist !! Z.to_nat i) <$> σ ≡ₚ Some <$> hist).
  { by rewrite <- lookup_all, Hσ. }
  apply Permutation_map_inv in Hp as (l & Hl & Hp). exists l. split; [|by symmetry].
  apply picks_eq; [by apply seqZ_nonneg|]. symmetry. exact Hl.
Qed.

Lemma picks_of_ops l : l ≡ₚ hist → ∃ σ, picks l σ ∧ σ ≡ₚ seqZ 0 (Z.of_nat n).
Proof.
  intros Hl. assert (Hp : Some <$> l ≡ₚ (λ i, hist !! Z.to_nat i) <$> seqZ 0 (Z.of_nat n)).
  { by rewrite lookup_all, Hl. }
  apply Permutation_map_inv in Hp as (σ & Hσ & Hp). exists σ. split; [|by symmetry].
  apply picks_eq; [by apply seqZ_nonneg|]. exact Hσ.
Qed.

Lemma called_op i v (w : V) :
  0 ≤ i → hist !! Z.to_nat i = Some v → called E i w ↔ w = op_Input v.
Proof.
  intros Hi Hv. split.
  - intros (e & (k & v' & Hk & He)%elem_of_makeEntries & Hkind & <- & <-).
    destruct He as [-> | ->]; [|done]. simpl in Hv. rewrite Nat2Z.id in Hv. by simplify_eq.
  - intros ->. exists (call_entry i v). split; [|done]. apply elem_of_makeEntries.
    exists (Z.to_nat i), v. rewrite Z2Nat.id by done. auto.
Qed.

Lemma returned_op i v (w : V) :
  0 ≤ i → hist !! Z.to_nat i = Some v → returned E i w ↔ w = op_Output v.
Proof.
  intros Hi Hv. split.
  - intros (e & (k & v' & Hk & He)%elem_of_makeEntries & Hkind & <- & <-).
    destruct He as [-> | ->]; [done|]. simpl in Hv. rewrite Nat2Z.id in Hv. by simplify_eq.
  - intros ->. exists (return_entry i v). split; [|done]. apply elem_of_makeEntries.
    exists (Z.to_nat i), v. rewrite Z2Nat.id by done. auto.
Qed.

Section model.
Context {St : Type} (M : Model V St).

Lemma picks_executes l σ :
  picks l σ → ∀ s, executes M s l ↔ ∃ s', runs M E s σ s'.
Proof.
  induction 1 as [|v i l σ [Hi Hv] _ IH]; intros s.
  - split; [|by constructor]. intros _. exists s. constructor.
  - assert (Hop : ∀ s1, op_step M E s i s1 ↔ Step M s (op_Input v) (op_Output v) = Ret (true, s1)).
    { intros s1. unfold op_step. setoid_rewrite (called_op i v _ Hi Hv).
      setoid_rewrite (returned_op i v _ Hi Hv). naive_solver. }
    split.
    + inversion 1 as [|? ? s1 ? Hst Hex]; subst. apply IH in Hex as [s' Hr].
      exists s'. econstructor; [by apply Hop|done].
    + intros [s' Hr]. inversion Hr as [|? ? s1 ? ? Hst Hr1]; subst.
      econstructor; [by apply Hop|]. apply IH. eauto.
Qed.

Lemma picks_real_time l σ :
  picks l σ → real_time l ↔ StronglySorted (λ i j, ¬ precedes E j i) σ.
Proof.
  intros Hp. unfold real_time. rewrite !StronglySorted_lookup.
  assert (Hat : ∀ a v i, l !! a = Some v → σ !! a = Some i →
    0 ≤ i ∧ hist !! Z.to_nat i = Some v).
  { intros a v i Ha Hi. eapply (Forall2_lookup_lr _ _ _ _ _ _ Hp); eauto. }
  split.
  - intros Hl a b i j Hlt Hi Hj (v & w & Hj0 & Hi0 & Hv & Hw & Hvw)%precedes_times.
    destruct (Forall2_lookup_r _ _ _ _ _ Hp Hi) as (w' & Hw' & _ & Hwi).
    destruct (Forall2_lookup_r _ _ _ _ _ Hp Hj) as (v' & Hv' & _ & Hvj). simplify_eq.
    pose proof (Hl a b w v Hlt Hw' Hv'). lia.
  - intros Hσ a b v w Hlt Hv Hw.
    destruct (Forall2_lookup_l _ _ _ _ _ Hp Hv) as (i & Hi & Hi0 & Hiv).
    destruct (Forall2_lookup_l _ _ _ _ _ Hp Hw) as (j & Hj & Hj0 & Hjw).
    destruct (decide (op_Call v ≤ op_Return w)); [done|]. exfalso.
    apply (Hσ a b i j Hlt Hi Hj), precedes_times. exists w, v. split_and!; (done || lia).
Qed.

Lemma precedes_irrefl i : ¬ precedes E i i.
Proof.
  intros (v & w & _ & _ & Hv & Hw & Hlt)%precedes_times. simplify_eq.
  pose proof (Forall_lookup_1 _ _ _ _ Htimes Hv). simpl in *. lia.
Qed.

Lemma order_sorted σ :
  (∀ a b i j, σ !! a = Some i → σ !! b = Some j → precedes E i j → (a < b)%nat) ↔
  StronglySorted (λ i j, ¬ precedes E j i) σ.
Proof.
  rewrite StronglySorted_lookup. split.
  - intros Hord a b i j Hlt Hi Hj Hp. pose proof (Hord b a j i Hj Hi Hp). lia.
  - intros Hs a b i j Hi Hj Hp. destruct (Nat.lt_trichotomy a b) as [|[->|Hlt]]; [done| |].
    + simplify_eq. by apply precedes_irrefl in Hp.
    + exfalso. exact (Hs b a j i Hlt Hj Hi Hp).
Qed.

Lemma op_ids_makeEntries : op_ids E ≡ₚ seqZ 0 (Z.of_nat n).
Proof. apply (wf_calls E n makeEntries_wf). Qed.

(** The entries are linearizable exactly when the operations are. *)
Lemma makeEntries_linearizable : linearizable M E ↔ linearizable_ops M hist.
Proof.
  split.
  - intros (σ & s & Hσ & Hr & Hord). rewrite op_ids_makeEntries in Hσ.
    destruct (picks_of_ids σ Hσ) as (l & Hp & Hl). exists l. split_and!; [done| |].
    + rewrite (picks_real_time l σ Hp). by apply order_sorted.
    + apply (picks_executes l σ Hp). eauto.
  - intros (l & Hl & Hrt & Hex). destruct (picks_of_ops l Hl) as (σ & Hp & Hσ).
    destruct (proj1 (picks_executes l σ Hp (Init M)) Hex) as [s Hr]. exists σ, s.
    split_and!; [by rewrite op_ids_makeEntries|done|].
    apply order_sorted. by apply (picks_real_time l σ Hp).
Qed.
End model.
End operations.
