(* ===== verification/PorcupinePar.v ===== *)
(** * The parallel check and the checker as a whole

    [checkParallel] of [porcupine/checker.go] runs one goroutine per partition.
    [par_inv] holds in every state its events can reach: results received in the
    loop are verdicts of searches that were not told to stop, so the answer is
    [Ok] only if all partitions are linearizable and [Illegal] only if one is
    not ([par_run_inv]); no interleaving is longer than twice the number of
    partitions plus one, and each can be completed unless there is no partition
    at all ([par_completes]).

    The theorems: [checkSingle_correct] for one partition, and
    [CheckOperations_kv_correct] for a whole key/value history, from the
    partition by key down to the bit set. *)

From S2P Require Import Prelude Bitset Porcupine PorcupineList PorcupineSpec PorcupineSearch.
From S2P Require Import PorcupineCheck KvModel PorcupineOps.

Section parallel.
Context {V St : Type} `{Inhabited V} (M : Model V St) `{!CheckableModel M} (fuel : nat).

(** A partition the checker can decide within [fuel] iterations. *)
Definition checkable (E : list (entry V)) : Prop :=
  ∃ n, wf_history E n ∧ (∀ i v w, called E i v → returned E i w → typed v w) ∧
    (search_bound n ≤ fuel)%nat.

Context (hist : list (list (entry V))) (Hhist : Forall checkable hist).
Context (computeInfo : bool) (timeout : Z).
Implicit Types (s : par) (i : nat).

Abbreviation step := (par_step fuel M hist computeInfo timeout).
Abbreviation run := (par_run fuel M hist computeInfo timeout).

Definition lin i : Prop := ∃ E, hist !! i = Some E ∧ linearizable M E.

Lemma part_check i E kill :
  hist !! i = Some E →
  ∃ ok l, checkSingle fuel M E computeInfo kill = Ret (ok, l) ∧
    (ok = true → lin i) ∧ (ok = false → (∀ k, kill k = false) → ¬ lin i).
Proof.
  intros Hi. destruct (Forall_lookup_1 _ _ _ _ Hhist Hi) as (n & Hwf & Hty & Hf).
  destruct (checkSingle_spec M E n Hwf Hty fuel computeInfo kill Hf)
    as (ok & longest & seqs & Hc & Ht & Hfa & _).
  exists ok, (longest, seqs). split_and!; [done| |].
  - intros Hok. exists E. auto.
  - intros Hok Hno (E' & HE' & Hlin). simplify_eq. by apply (Hfa eq_refl).
Qed.

Definition unfinished s : nat := length (filter (λ o, o = None) (p_longest s)).

Lemma unfinished_insert {A} (l : list (option A)) i x :
  l !! i = Some None →
  length (filter (λ o, o = None) l) = Datatypes.S (length (filter (λ o, o = None) (<[i := Some x]> l))).
Proof.
  intros Hi. rewrite <- (take_drop_middle _ _ _ Hi) at 1.
  rewrite (insert_take_drop l i) by (by eapply lookup_lt_Some).
  rewrite !filter_app, filter_cons_True, filter_cons_False by done.
  rewrite !length_app. simpl. lia.
Qed.

Lemma unfinished_some {A} (l : list (option A)) :
  (0 < length (filter (λ o, o = None) l))%nat → ∃ i, l !! i = Some None.
Proof.
  intros Hl. destruct (filter _ l) as [|o k] eqn:Hf; [simpl in Hl; lia|].
  assert (Ho : o ∈ filter (λ o, o = None) l) by (rewrite Hf; set_solver).
  apply list_elem_of_filter in Ho as [-> Ho]. by apply list_elem_of_lookup_1 in Ho.
Qed.

(** What the main loop knows while it runs, and what the answer means once it
    has left it. *)
Definition loop_inv s : Prop :=
  p_kill s = false ∧ p_timedOut s = false ∧
  ∃ rcv que : list nat, NoDup (rcv ++ que) ∧
    (∀ i, i ∈ rcv ++ que ↔ ∃ l, p_longest s !! i = Some (Some l)) ∧
    p_count s = zlen rcv ∧ (rcv = [] ∨ zlen rcv < zlen hist) ∧
    Forall2 (λ i (r : bool), if r then lin i else ¬ lin i) que (p_results s) ∧
    (if p_ok s then ∀ i, i ∈ rcv → lin i else ∃ i, i ∈ rcv ∧ ¬ lin i).

Definition answer_inv s : Prop :=
  (p_timedOut s = true → 0 < timeout) ∧
  if p_ok s then p_timedOut s = false → ∀ i, (i < length hist)%nat → lin i
  else ∃ i, (i < length hist)%nat ∧ ¬ lin i.

Record par_inv s : Prop := {
  pi_length : length (p_longest s) = length hist;
  pi_balance : Z.of_nat (unfinished s) + zlen (p_results s) + p_count s = zlen hist;
  pi_phase : if p_looping s then loop_inv s else answer_inv s
}.

Lemma unfinished_init : unfinished (par_init hist) = length hist.
Proof.
  unfold unfinished. simpl. rewrite list_filter_all, length_replicate; [done|].
  intros o Ho. by apply elem_of_replicate_inv in Ho.
Qed.

Lemma par_init_inv : par_inv (par_init hist).
Proof.
  split; simpl.
  - apply length_replicate.
  - rewrite unfinished_init. unfold zlen. simpl. lia.
  - split_and!; [done..|]. exists [], []. split_and!; try done.
    + constructor.
    + intros i. split; [by intros Hi%elem_of_nil|].
      intros (l & [? _]%lookup_replicate). done.
    + by left.
    + intros i Hi. by apply elem_of_nil in Hi.
Qed.

(** All distinct partitions received: all of them. *)
Lemma received_all (rcv : list nat) :
  NoDup rcv → (∀ i, i ∈ rcv → (i < length hist)%nat) → (length hist ≤ length rcv)%nat →
  ∀ i, (i < length hist)%nat → i ∈ rcv.
Proof.
  intros Hnd Hlt Hlen i Hi.
  assert (Hsub : rcv ⊆+ seq 0 (length hist)).
  { apply NoDup_submseteq; [done|]. intros j Hj%Hlt. apply elem_of_seq. lia. }
  assert (Hp : rcv ≡ₚ seq 0 (length hist)).
  { apply submseteq_length_Permutation; [done|]. by rewrite length_seq. }
  rewrite Hp. apply elem_of_seq. lia.
Qed.

Definition work s : nat :=
  (2 * unfinished s + length (p_results s) + if p_looping s then 1 else 0)%nat.

Lemma work_init : work (par_init hist) = (2 * length hist + 1)%nat.
Proof. unfold work. rewrite unfinished_init. simpl. lia. Qed.

Definition advances s (r : Go (option par)) : Prop :=
  ∃ o, r = Ret o ∧ ∀ s', o = Some s' → par_inv s' ∧ (work s' < work s)%nat.

Lemma advances_none s : advances s (Ret None).
Proof. exists None. done. Qed.

Lemma advances_some s s' : par_inv s' → (work s' < work s)%nat → advances s (Ret (Some s')).
Proof. intros Hi Hw. exists (Some s'). split; [done|]. by intros ? [= <-]. Qed.

Lemma finish_advances s i killed_at : par_inv s → advances s (step (PFinish i killed_at) s).
Proof.
  intros [Hlen Hbal Hph]. simpl.
  destruct (hist !! i) as [E|] eqn:Hi; [|apply advances_none].
  destruct (p_longest s !! i) as [[l0|]|] eqn:Hl; try apply advances_none.
  destruct (bool_decide (killed_at = None) || p_kill s) eqn:Hen; [|apply advances_none].
  destruct (part_check i E (kill_reads killed_at) Hi) as (ok & l & -> & Ht & Hf). rewrite bind_Ret.
  pose proof (unfinished_insert _ _ l Hl) as Hun.
  apply advances_some; [split; simpl|].
  - by rewrite length_insert.
  - unfold unfinished in *. simpl. rewrite Hun in Hbal. rewrite zlen_app, zlen_cons, zlen_nil. lia.
  - destruct (p_looping s); [|done].
    destruct Hph as (Hk & Hto & rcv & que & Hnd & Hfin & Hcnt & Hlt & Hque & Hok).
    rewrite Hk, orb_false_r in Hen. apply bool_decide_eq_true in Hen as ->.
    split_and!; [done..|]. exists rcv, (que ++ [i]). simpl.
    assert (Hni : i ∉ rcv ++ que) by (rewrite Hfin; intros (? & ?); congruence).
    split_and!; try done.
    + rewrite app_assoc. apply NoDup_app. split_and!; [done| |apply NoDup_singleton].
      intros x Hx ->%list_elem_of_singleton. done.
    + intros j. rewrite app_assoc, elem_of_app, Hfin, list_elem_of_singleton.
      destruct (decide (i = j)) as [<-|Hne].
      * rewrite list_lookup_insert_eq by (by eapply lookup_lt_Some). naive_solver.
      * rewrite list_lookup_insert_ne by done. naive_solver.
    + apply Forall2_app; [done|]. constructor; [|done]. destruct ok; [by apply Ht|by apply Hf].
  - unfold work, unfinished in *. simpl. rewrite Hun, length_app. simpl. lia.
Qed.

Lemma recv_advances s : par_inv s → advances s (step PRecv s).
Proof.
  intros [Hlen Hbal Hph]. simpl.
  destruct (p_looping s) eqn:Hlp; [|apply advances_none].
  destruct Hph as (Hk & Hto & rcv & que & Hnd & Hfin & Hcnt & Hlt & Hque & Hok).
  destruct (p_results s) as [|r rs] eqn:Hrs; [apply advances_none|].
  inversion Hque as [|i ? que' ? Hr Hque']; subst.
  rewrite zlen_cons in Hbal.
  assert (Hrange : ∀ j, j ∈ rcv ++ i :: que' → (j < length hist)%nat).
  { intros j (l & Hj)%Hfin. rewrite <- Hlen. by eapply lookup_lt_Some. }
  assert (Hok' : if p_ok s && r then ∀ j, j ∈ rcv ++ [i] → lin j
                 else ∃ j, j ∈ rcv ++ [i] ∧ ¬ lin j).
  { destruct (p_ok s), r; simpl.
    - intros j [Hj|Hj]%elem_of_app; [by apply Hok|]. by apply list_elem_of_singleton in Hj as ->.
    - exists i. split; [set_solver|done].
    - destruct Hok as (j & Hj & ?). exists j. split; [set_solver|done].
    - destruct Hok as (j & Hj & ?). exists j. split; [set_solver|done]. }
  assert (Hanswer : p_ok s && r = false → ∃ j, (j < length hist)%nat ∧ ¬ lin j).
  { intros Hf. rewrite Hf in Hok'. destruct Hok' as (j & Hj & ?). exists j. split; [|done].
    apply Hrange. set_solver. }
  destruct (negb (p_ok s && r) && negb computeInfo) eqn:Hstop.
  - apply advances_some; [split; simpl; [done|..]|].
    + unfold unfinished in *. simpl. lia.
    + split; simpl; [by rewrite Hto|].
      apply andb_true_iff in Hstop as [Hb%negb_true_iff _]. rewrite Hb. by apply Hanswer.
    + unfold work, unfinished. simpl. rewrite Hrs, Hlp. simpl. lia.
  - apply advances_some; [split; simpl; [done|..]|].
    + unfold unfinished in *. simpl. lia.
    + destruct (Z.leb_spec (zlen hist) (p_count s + 1)) as [Hge|Hge]; simpl.
      * split; simpl; [by rewrite Hto|]. destruct (p_ok s && r) eqn:Hb; [|by apply Hanswer].
        intros _ j Hj. apply Hok'. apply received_all; try done.
        -- rewrite cons_middle, app_assoc in Hnd. by apply NoDup_app in Hnd as [? _].
        -- intros x Hx. apply Hrange. set_solver.
        -- rewrite length_app. simpl. unfold zlen in *. lia.
      * split_and!; [done..|]. exists (rcv ++ [i]), que'. simpl.
        rewrite <- app_assoc. simpl. split_and!; try done.
        -- rewrite zlen_app, zlen_cons, zlen_nil. lia.
        -- right. rewrite zlen_app, zlen_cons, zlen_nil. lia.
    + unfold work, unfinished. simpl. rewrite Hrs, Hlp. simpl. destruct (_ <=? _); simpl; lia.
Qed.

Lemma timeout_advances s : par_inv s → advances s (step PTimeout s).
Proof.
  intros [Hlen Hbal Hph]. simpl.
  destruct (p_looping s && (0 <? timeout)) eqn:Hen; [|apply advances_none]. bool_to_prop.
  match goal with Hb : p_looping s = true |- _ => rename Hb into Hlp end. rewrite Hlp in Hph.
  destruct Hph as (_ & _ & rcv & que & _ & Hfin & _ & _ & _ & Hok).
  apply advances_some; [split; simpl; [done|done|]|].
  - split; simpl; [done|]. destruct (p_ok s); [done|]. destruct Hok as (i & Hi & ?).
    exists i. split; [|done]. destruct (proj1 (Hfin i)) as [l Hl]; [set_solver|].
    rewrite <- Hlen. by eapply lookup_lt_Some.
  - unfold work, unfinished. simpl. rewrite Hlp. lia.
Qed.

Lemma drain_advances s : par_inv s → advances s (step PDrain s).
Proof.
  intros [Hlen Hbal Hph]. simpl.
  destruct (p_results s) as [|r rs] eqn:Hrs; [apply advances_none|].
  destruct (negb (p_looping s) && computeInfo && (p_count s <? zlen hist)) eqn:Hen;
    [|apply advances_none]. bool_to_prop.
  match goal with Hb : p_looping s = false |- _ => rename Hb into Hlp end. rewrite Hlp in Hph.
  rewrite zlen_cons in Hbal.
  apply advances_some; [split; simpl; [done| |done]|].
  - unfold unfinished in *. simpl. lia.
  - unfold work, unfinished. simpl. rewrite Hrs, Hlp. simpl. lia.
Qed.

Lemma step_advances ev s : par_inv s → advances s (step ev s).
Proof.
  destruct ev; [apply finish_advances | apply recv_advances | apply timeout_advances
               | apply drain_advances].
Qed.

(** Every interleaving keeps the invariant, never panics, and is bounded. *)
Lemma par_run_inv evs s :
  par_inv s → ∃ o, run evs s = Ret o ∧
    ∀ s', o = Some s' → par_inv s' ∧ (work s' + length evs ≤ work s)%nat.
Proof.
  revert s. induction evs as [|ev evs IH]; intros s Hs; simpl.
  - exists (Some s). split; [done|]. intros ? [= <-]. split; [done|lia].
  - destruct (step_advances ev s Hs) as ([s1|] & -> & Hadv); rewrite bind_Ret; [|by exists None].
    destruct (Hadv s1 eq_refl) as [Hs1 Hw1]. destruct (IH s1 Hs1) as (o & Ho & Hall).
    exists o. split; [done|]. intros s' Hs'. destruct (Hall s' Hs') as [? ?]. split; [done|lia].
Qed.

(** With at least one partition, some event is possible until the check returns. *)
Lemma par_progress s :
  hist ≠ [] → par_inv s → par_done hist computeInfo s = false →
  ∃ ev s', step ev s = Ret (Some s').
Proof.
  intros Hne [Hlen Hbal Hph] Hdone.
  assert (Hpos : 0 < zlen hist) by (destruct hist; [done|]; rewrite zlen_cons; zlen_lia).
  assert (Hfin : (0 < unfinished s)%nat → ∃ ev s', step ev s = Ret (Some s')).
  { intros [i Hi]%unfinished_some. destruct (lookup_lt_is_Some_2 hist i) as [E HE].
    { rewrite <- Hlen. by eapply lookup_lt_Some. }
    exists (PFinish i None). simpl. rewrite HE, Hi.
    destruct (part_check i E (kill_reads None) HE) as (ok & l & Hck & _).
    rewrite Hck. simpl. eauto. }
  unfold par_done in Hdone. destruct (p_looping s) eqn:Hlp; simpl in Hdone.
  - destruct Hph as (_ & _ & rcv & que & _ & _ & Hcnt & Hlt & _ & _).
    assert (p_count s < zlen hist) by (destruct Hlt as [->|]; [rewrite Hcnt; done|lia]).
    destruct (p_results s) as [|r rs] eqn:Hrs.
    + apply Hfin. rewrite zlen_nil in Hbal. lia.
    + exists PRecv. simpl. rewrite Hlp, Hrs. case_test; eauto.
  - destruct computeInfo; [|done]. simpl in Hdone. apply negb_false_iff in Hdone.
    pose proof (proj1 (Z.ltb_lt _ _) Hdone) as Hlt.
    destruct (p_results s) as [|r rs] eqn:Hrs.
    + apply Hfin. rewrite zlen_nil in Hbal. lia.
    + exists PDrain. simpl. rewrite Hrs, Hlp. simpl. rewrite Hdone. eauto.
Qed.

Lemma run_app evs evs' s s' :
  run evs s = Ret (Some s') → run (evs ++ evs') s = run evs' s'.
Proof.
  revert s. induction evs as [|ev evs IH]; intros s; simpl; [by intros [= ->]|].
  destruct (step ev s) as [[s1|]| |]; simpl; try done. apply IH.
Qed.

(** From any state the check can be brought to its end. *)
Lemma par_completes s :
  hist ≠ [] → par_inv s →
  ∃ evs s', run evs s = Ret (Some s') ∧ par_inv s' ∧ par_done hist computeInfo s' = true.
Proof.
  intros Hne. remember (work s) as k eqn:Hk. revert s Hk.
  induction (lt_wf k) as [k _ IH]. intros s -> Hs.
  destruct (par_done hist computeInfo s) eqn:Hd; [by exists [], s|].
  destruct (par_progress s Hne Hs Hd) as (ev & s1 & Hev).
  destruct (step_advances ev s Hs) as (o & Ho & Hadv). rewrite Hev in Ho. injection Ho as <-.
  destruct (Hadv s1 eq_refl) as [Hs1 Hw].
  destruct (IH _ Hw s1 eq_refl Hs1) as (evs & s' & Hrun & ? & ?).
  exists (ev :: evs), s'. split; [|done]. simpl. by rewrite Hev.
Qed.

(** What the three answers mean. *)
Lemma par_verdict_spec s :
  par_inv s → par_done hist computeInfo s = true →
  match par_verdict s with
  | Ok => ∀ i, (i < length hist)%nat → lin i
  | Illegal => ∃ i, (i < length hist)%nat ∧ ¬ lin i
  | Unknown => 0 < timeout
  end.
Proof.
  intros [_ _ Hph] Hd. unfold par_done in Hd. destruct (p_looping s); [done|].
  destruct Hph as [Hto Hans]. unfold par_verdict.
  destruct (p_ok s); simpl; [|done]. destruct (p_timedOut s); auto.
Qed.
End parallel.

(** ** The checker on key/value histories *)

Lemma entry_cost_mono k k' : (k ≤ k')%nat → (entry_cost k ≤ entry_cost k')%nat.
Proof.
  induction 1 as [|k' _ IH]; [done|]. simpl. pose proof (entry_cost_pos k').
  destruct k'; simpl in *; nia.
Qed.

Lemma search_bound_mono k k' : (k ≤ k')%nat → (search_bound k ≤ search_bound k')%nat.
Proof.
  intros Hk. unfold search_bound. pose proof (entry_cost_mono k k' Hk).
  apply Nat.mul_le_mono; lia.
Qed.

Lemma executes_fillDefault {V St} `{EqDecision St} (M : Model V St) s l :
  executes (fillDefault M) s l ↔ executes M s l.
Proof.
  split.
  - induction 1 as [s|s v s' l Hst _ IH]; [apply executes_nil | exact (executes_cons M s v s' l Hst IH)].
  - induction 1 as [s|s v s' l Hst _ IH];
      [apply executes_nil | exact (executes_cons (fillDefault M) s v s' l Hst IH)].
Qed.

(** The values of a well-typed history are those [kv_Step] accepts. *)
Lemma kv_typed `{Sorter} (l : list kvOp) i v w :
  Forall kv_op_ok l → called (makeEntries l) i v → returned (makeEntries l) i w →
  @typed _ _ _ KvModel_checkable v w.
Proof.
  intros Hl (e & (x & o & Hx & He)%elem_of_makeEntries & Hke & Hi & <-)
    (f & (y & o' & Hy & Hf)%elem_of_makeEntries & Hkf & Hi' & <-).
  destruct He as [-> | ->]; [|done]. destruct Hf as [-> | ->]; [done|]. simpl in Hi, Hi'.
  assert (x = y) as <- by lia. rewrite Hx in Hy. injection Hy as <-.
  destruct (Forall_lookup_1 _ _ _ _ Hl Hx) as [(a & b & Ha & Hb) _]. exists a, b. done.
Qed.

Section kv.
Context `{Sorter} `{KeyOrder} (fuel : nat) (hist : list kvOp).
Context (Hok : Forall kv_op_ok hist) (Hfuel : (search_bound (length hist) ≤ fuel)%nat).

(** The entries of each key, as [checkOperations] hands them to [checkParallel]. *)
Lemma kv_partitions :
  ∃ keys, kv_Partition hist = Ret ((λ k, with_key k hist) <$> keys) ∧
    NoDup keys ∧ (∀ k, k ∈ keys ↔ k ∈ key_of <$> hist) ∧
    Forall (checkable (fillDefault KvModel) fuel) (makeEntries <$> ((λ k, with_key k hist) <$> keys)).
Proof.
  destruct (kv_Partition_spec hist Hok) as (keys & Hp & Hnd & Hk & _).
  exists keys. split_and!; [done..|]. rewrite <- list_fmap_compose. apply Forall_fmap, Forall_forall.
  intros k _. unfold compose.
  assert (Hsub : ∀ v, v ∈ with_key k hist → kv_op_ok v).
  { intros v [Hv _]%elem_of_with_key. rewrite Forall_forall in Hok. by apply Hok. }
  assert (Htimes : Forall (λ v, op_Call v ≤ op_Return v) (with_key k hist)).
  { apply Forall_forall. intros v Hv. by apply Hsub. }
  exists (length (with_key k hist)). split_and!.
  - by apply makeEntries_wf.
  - intros i v w. apply kv_typed. by apply Forall_forall.
  - etrans; [|done]. apply search_bound_mono. unfold with_key. apply length_filter.
Qed.

Lemma kv_parts_linearizable keys :
  NoDup keys → (∀ k, k ∈ keys ↔ k ∈ key_of <$> hist) →
  linearizable_kv hist ↔
  ∀ i, (i < length (makeEntries <$> ((λ k, with_key k hist) <$> keys)))%nat →
    lin (fillDefault KvModel) (makeEntries <$> ((λ k, with_key k hist) <$> keys)) i.
Proof.
  intros Hnd Hk. rewrite (linearizable_by_key hist keys Hok Hnd Hk).
  assert (Hpart : ∀ k, linearizable (fillDefault KvModel) (makeEntries (with_key k hist)) ↔
    linearizable_ops KvModel (with_key k hist)).
  { intros k. rewrite makeEntries_linearizable.
    - split; intros (l & Hl & Hrt & Hex); exists l; split_and!; try done;
        by apply (executes_fillDefault KvModel).
    - apply Forall_forall. intros v [Hv _]%elem_of_with_key.
      rewrite Forall_forall in Hok. by apply Hok. }
  rewrite !length_fmap. unfold lin. split.
  - intros Hall i Hi. destruct (lookup_lt_is_Some_2 keys i Hi) as [k Hki].
    exists (makeEntries (with_key k hist)). rewrite !list_lookup_fmap, Hki. split; [done|].
    apply Hpart, Hall. by eapply list_elem_of_lookup_2.
  - intros Hall k [i Hki]%list_elem_of_lookup_1. apply Hpart.
    destruct (Hall i) as (E & HE & Hlin); [by eapply lookup_lt_Some|].
    rewrite !list_lookup_fmap, Hki in HE. by injection HE as <-.
Qed.

(** A check of the whole history, under any interleaving. *)
Lemma checkOperations_kv verbose timeout evs :
  ∃ o, checkOperations fuel KvModel hist verbose timeout evs = Ret o ∧
  match o with
  | Returned (Ok, _) => linearizable_kv hist
  | Returned (Illegal, _) => ¬ linearizable_kv hist
  | Returned (Unknown, _) => 0 < timeout
  | Running => hist ≠ [] → ∃ evs' r,
      checkOperations fuel KvModel hist verbose timeout (evs ++ evs') = Ret (Returned r)
  | Impossible => True
  end ∧
  (o ≠ Impossible → (length evs ≤ 2 * length hist + 1)%nat).
Proof.
  destruct kv_partitions as (keys & Hpart & Hnd & Hkeys & Hcheck).
  unfold checkOperations. simpl. rewrite Hpart, bind_Ret.
  set (parts := makeEntries <$> ((λ k, with_key k hist) <$> keys)) in *.
  pose proof (par_init_inv (fillDefault KvModel) parts timeout) as Hinit.
  unfold checkParallel.
  destruct (par_run_inv (fillDefault KvModel) fuel parts Hcheck verbose timeout evs _ Hinit)
    as (o & Hrun & Hinv).
  rewrite Hrun, bind_Ret. destruct o as [s|]; [|by exists Impossible].
  destruct (Hinv s eq_refl) as [Hs Hwork].
  assert (Hlen : (length evs ≤ 2 * length hist + 1)%nat).
  { assert (Hkl : (length keys ≤ length hist)%nat).
    { rewrite <- (length_fmap key_of hist). apply submseteq_length, NoDup_submseteq; [done|].
      intros k. apply Hkeys. }
    rewrite (work_init parts) in Hwork. unfold parts in Hwork. rewrite !length_fmap in Hwork. lia. }
  destruct (par_done parts verbose s) eqn:Hd.
  - eexists. split; [done|]. split; [|done].
    pose proof (par_verdict_spec (fillDefault KvModel) parts verbose timeout s Hs Hd) as Hv.
    destruct (par_verdict s); [done|by apply (kv_parts_linearizable keys Hnd Hkeys)|].
    rewrite (kv_parts_linearizable keys Hnd Hkeys). destruct Hv as (i & Hi & Hni). eauto.
  - eexists. split; [done|]. split; [|done]. intros Hne.
    assert (Hpne : parts ≠ []).
    { destruct hist as [|v hist'] eqn:Hh; [done|]. unfold parts.
      assert (Hin : key_of v ∈ keys) by (apply Hkeys; rewrite fmap_cons; set_solver).
      destruct keys; [by apply elem_of_nil in Hin|done]. }
    destruct (par_completes (fillDefault KvModel) fuel parts Hcheck verbose timeout s Hpne Hs)
      as (evs' & s' & Hrun' & Hs' & Hd').
    exists evs', (par_verdict s', par_info parts verbose s').
    rewrite bind_Ret. fold parts.
    rewrite (run_app _ _ _ _ _ evs evs' _ s Hrun), Hrun', bind_Ret, Hd'. done.
Qed.
End kv.

(** ** A concrete history *)

Definition kv_get (c : Z) (k v : string) (t t' : Z) : kvOp :=
  mkOperation c (VInput (mkKvInput 0 k EmptyString)) t (VOutput (mkKvOutput v)) t'.
Definition kv_put (c : Z) (k v : string) (t t' : Z) : kvOp :=
  mkOperation c (VInput (mkKvInput 1 k v)) t (VOutput (mkKvOutput EmptyString)) t'.
Definition kv_append (c : Z) (k v : string) (t t' : Z) : kvOp :=
  mkOperation c (VInput (mkKvInput 2 k v)) t (VOutput (mkKvOutput EmptyString)) t'.

(** A get of the old value while a put of the same key runs; another key. *)
Definition sample_history : list kvOp :=
  [ kv_put 0 "x" "1" 0 10; kv_get 1 "x" EmptyString 5 6; kv_append 0 "x" "2" 11 20;
    kv_get 1 "x" "12" 21 22; kv_get 2 "y" EmptyString 0 1 ].

(** The same with a get that misses the append that returned before it. *)
Definition stale_history : list kvOp :=
  [ kv_put 0 "x" "1" 0 10; kv_append 0 "x" "2" 11 20; kv_get 1 "x" "1" 21 22 ].

Definition one_by_one (n : nat) : list par_event :=
  mjoin ((λ i, [PFinish i None; PRecv]) <$> seq 0 n).

Definition sample_entries : list (entry kvValue) :=
  @makeEntries merge_sorter _ (with_key "x" sample_history).

Lemma kv_op_ok_dec (l : list kvOp) :
  forallb (λ v, match op_Input v, op_Output v with
                | VInput _, VOutput _ => op_Call v <=? op_Return v
                | _, _ => false end) l = true → Forall kv_op_ok l.
Proof.
  rewrite forallb_forall. intros Hl. apply Forall_forall. intros v Hv%list_elem_of_In.
  specialize (Hl v Hv). unfold kv_op_ok.
  destruct (op_Input v), (op_Output v); try done. split; [eauto|]. by apply Z.leb_le.
Qed.

Lemma sample_ok : Forall kv_op_ok sample_history.
Proof. apply kv_op_ok_dec. vm_compute. reflexivity. Qed.

Lemma stale_ok : Forall kv_op_ok stale_history.
Proof. apply kv_op_ok_dec. vm_compute. reflexivity. Qed.

(** ** Theorems *)

(** C21: The search decides linearizability: on a complete history of [n]
    operations whose values the model accepts, and with at least
    [search_bound n] iterations, [checkSingle] returns without a panic, and
    returns true exactly when there is an order of all operations that the model
    executes and that respects the precedence of the history. *)
Theorem checkSingle_correct {V St} `{Inhabited V} (M : Model V St) `{!CheckableModel M}
    (E : list (entry V)) (n fuel : nat) (computePartial : bool)
    (Hwf : wf_history E n)
    (Htyped : ∀ i v w, called E i v → returned E i w → typed v w)
    (Hfuel : (search_bound n ≤ fuel)%nat) :
  ∃ ok info, checkSingle fuel M E computePartial (λ _, false) = Ret (ok, info) ∧
    (ok = true ↔ linearizable M E).
Proof.
  destruct (checkSingle_spec M E n Hwf Htyped fuel computePartial (λ _, false) Hfuel)
    as (ok & longest & seqs & Hc & Ht & Hf & _).
  exists ok, (longest, seqs). split; [done|]. split; [done|].
  intros Hlin. destruct ok; [done|]. by apply Hf in Hlin.
Qed.

Lemma checkSingle_correct_witness :
  search_bound 4 = 632%nat ∧
  ∃ ok info, checkSingle 632 (fillDefault KvModel) sample_entries true (λ _, false) = Ret (ok, info) ∧
    (ok = true ↔ linearizable (fillDefault KvModel) sample_entries).
Proof.
  split; [reflexivity|].
  assert (Hok : Forall (λ v, op_Call v ≤ op_Return v) (with_key "x" sample_history)).
  { apply Forall_forall. intros v [Hv _]%elem_of_with_key.
    pose proof sample_ok as Hs. rewrite Forall_forall in Hs. by apply Hs. }
  apply (checkSingle_correct (fillDefault KvModel) sample_entries 4 632 true).
  - exact (makeEntries_wf (with_key "x" sample_history) Hok).
  - intros i v w. apply kv_typed. apply Forall_forall. intros x [Hx _]%elem_of_with_key.
    pose proof sample_ok as Hs. rewrite Forall_forall in Hs. by apply Hs.
  - vm_compute. lia.
Defined.

(** C20: [CheckOperations] on a key/value history decides what the test suites mean
    by it, for every sort and every interleaving of the goroutines: it never
    panics; when it returns, it returns true exactly when one order of all
    operations respects real time and is an execution of the whole map; and as
    long as it has not returned, and the history is not empty, the interleaving
    can be continued until it does, within two events per operation and one. *)
Theorem CheckOperations_kv_correct `{Sorter} `{KeyOrder} (fuel : nat) (hist : list kvOp)
    (evs : list par_event)
    (Hok : Forall kv_op_ok hist) (Hfuel : (search_bound (length hist) ≤ fuel)%nat) :
  ∃ o, CheckOperations fuel KvModel hist evs = Ret o ∧
  match o with
  | Returned b => b = true ↔ linearizable_kv hist
  | Running => hist ≠ [] → ∃ evs' b, CheckOperations fuel KvModel hist (evs ++ evs') = Ret (Returned b)
  | Impossible => True
  end ∧
  (o ≠ Impossible → (length evs ≤ 2 * length hist + 1)%nat).
Proof.
  destruct (checkOperations_kv fuel hist Hok Hfuel false 0 evs) as (o & Ho & Hres & Hlen).
  exists (outcome_map (λ r, bool_decide (r.1 = Ok)) o). unfold CheckOperations.
  rewrite Ho, bind_Ret. split; [done|]. split; [|by destruct o; intros; apply Hlen].
  destruct o as [| |[res info]]; simpl; [done| |].
  - intros Hne. destruct (Hres Hne) as (evs' & r & Hr). exists evs'.
    rewrite Hr, bind_Ret. simpl. eauto.
  - rewrite bool_decide_eq_true. destruct res; naive_solver lia.
Qed.

Lemma CheckOperations_kv_correct_witness :
  @CheckOperations merge_sorter key_order_std _ _ _ _ (search_bound 5) KvModel sample_history (one_by_one 2)
    = Ret (Returned true) ∧ linearizable_kv sample_history ∧
  @CheckOperations merge_sorter key_order_std _ _ _ _ (search_bound 5) KvModel stale_history (one_by_one 1)
    = Ret (Returned false) ∧ ¬ linearizable_kv stale_history.
Proof.
  assert (H1 : @CheckOperations merge_sorter key_order_std _ _ _ _ (search_bound 5) KvModel
    sample_history (one_by_one 2) = Ret (Returned true)) by (vm_compute; reflexivity).
  assert (H2 : @CheckOperations merge_sorter key_order_std _ _ _ _ (search_bound 5) KvModel
    stale_history (one_by_one 1) = Ret (Returned false)) by (vm_compute; reflexivity).
  destruct (@CheckOperations_kv_correct merge_sorter key_order_std (search_bound 5) sample_history
    (one_by_one 2) sample_ok (le_n _)) as (o1 & Ho1 & Hr1 & _).
  destruct (@CheckOperations_kv_correct merge_sorter key_order_std (search_bound 5) stale_history
    (one_by_one 1) stale_ok (search_bound_mono 3 5 ltac:(lia))) as (o2 & Ho2 & Hr2 & _).
  rewrite H1 in Ho1. injection Ho1 as <-. rewrite H2 in Ho2. injection Ho2 as <-.
  split_and!; [exact H1 | by apply Hr1 | exact H2 |].
  intros Hlin. by apply Hr2 in Hlin.
Defined.

(** The check the test suites make is sound with any timeout and in any
    interleaving: [CheckOperationsVerbose] answers [Illegal] only for a history
    that is not linearizable, [Ok] only for one that is, and [Unknown] only when
    a timeout was set; a check cut short is never a false positive. *)
Theorem CheckOperationsVerbose_sound `{Sorter} `{KeyOrder} (fuel : nat) (hist : list kvOp)
    (timeout : Z) (evs : list par_event) (res : CheckResult) (info : linearizationInfo kvValue)
    (Hok : Forall kv_op_ok hist) (Hfuel : (search_bound (length hist) ≤ fuel)%nat)
    (Hres : CheckOperationsVerbose fuel KvModel hist timeout evs = Ret (Returned (res, info))) :
  match res with
  | Ok => linearizable_kv hist
  | Illegal => ¬ linearizable_kv hist
  | Unknown => 0 < timeout
  end.
Proof.
  destruct (checkOperations_kv fuel hist Hok Hfuel true timeout evs) as (o & Ho & Hr & _).
  unfold CheckOperationsVerbose in Hres. rewrite Ho in Hres. by injection Hres as ->.
Qed.

Lemma CheckOperationsVerbose_sound_witness :
  (∃ info, @CheckOperationsVerbose merge_sorter key_order_std _ _ _ _ (search_bound 5) KvModel
    sample_history 5 [PFinish 0 None; PRecv; PTimeout; PFinish 1 (Some 2%nat); PDrain]
    = Ret (Returned (Unknown, info))) ∧ 0 < 5 ∧
  ¬ linearizable_kv stale_history.
Proof.
  split; [eexists; vm_compute; reflexivity|]. split.
  - eapply (@CheckOperationsVerbose_sound merge_sorter key_order_std (search_bound 5) sample_history 5
      [PFinish 0 None; PRecv; PTimeout; PFinish 1 (Some 2%nat); PDrain] Unknown _ sample_ok (le_n _)).
    vm_compute. reflexivity.
  - eapply (@CheckOperationsVerbose_sound merge_sorter key_order_std (search_bound 5) stale_history 5
      [PFinish 0 None; PRecv] Illegal _ stale_ok (search_bound_mono 3 5 ltac:(lia))).
    vm_compute. reflexivity.
Defined.

(** The partial linearizations a verbose check reports are genuine, also when
    the search is told to stop at any point: [checkSingle] returns, every
    sequence [longest] points to is the beginning of a linearization (the model
    executes it, and whatever precedes one of its operations comes earlier in
    it), and the sequence reported for an operation contains it. *)
Theorem checkSingle_prefixes {V St} `{Inhabited V} (M : Model V St) `{!CheckableModel M}
    (E : list (entry V)) (n fuel : nat) (kill : nat → bool)
    (Hwf : wf_history E n)
    (Htyped : ∀ i v w, called E i v → returned E i w → typed v w)
    (Hfuel : (search_bound n ≤ fuel)%nat) :
  ∃ ok longest seqs, checkSingle fuel M E true kill = Ret (ok, (longest, seqs)) ∧
    (ok = true → linearizable M E) ∧ length longest = n ∧
    (∀ σ, σ ∈ seqs → partial_linearization M E σ) ∧
    ∀ i x, longest !! i = Some (Some x) → ∃ σ, seqs !! x = Some σ ∧ Z.of_nat i ∈ σ.
Proof.
  destruct (checkSingle_spec M E n Hwf Htyped fuel true kill Hfuel)
    as (ok & longest & seqs & Hc & Ht & _ & [Hl Hs Hm]).
  exists ok, longest, seqs. rewrite Forall_forall in Hs. split_and!; done.
Qed.

Definition stale_entries : list (entry kvValue) := @makeEntries merge_sorter _ stale_history.

Lemma checkSingle_prefixes_witness :
  checkSingle 78 (fillDefault KvModel) stale_entries true (λ _, false)
    = Ret (false, ([Some 0%nat; Some 0%nat; None], [[0; 1]])) ∧
  partial_linearization (fillDefault KvModel) stale_entries [0; 1].
Proof.
  assert (Hc : checkSingle 78 (fillDefault KvModel) stale_entries true (λ _, false)
    = Ret (false, ([Some 0%nat; Some 0%nat; None], [[0; 1]]))) by (vm_compute; reflexivity).
  split; [exact Hc|].
  assert (Hok : Forall (λ v, op_Call v ≤ op_Return v) stale_history).
  { apply Forall_forall. intros v Hv.
    pose proof stale_ok as Hs. rewrite Forall_forall in Hs. by apply Hs. }
  destruct (checkSingle_prefixes (fillDefault KvModel) stale_entries 3 78 (λ _, false))
    as (ok & longest & seqs & Hc' & _ & _ & Hall & _).
  - exact (makeEntries_wf stale_history Hok).
  - intros i v w. apply kv_typed, stale_ok.
  - vm_compute. lia.
  - rewrite Hc in Hc'. injection Hc' as <- <- <-. apply Hall. constructor.
Defined.

(** A check of an empty key/value history never returns: there is no partition,
    so no result arrives, and without a timeout [select] waits for ever. *)
Theorem empty_history_blocks `{Sorter} `{KeyOrder} (fuel : nat) (evs : list par_event) :
  CheckOperations fuel KvModel [] evs = Ret (match evs with [] => Running | _ => Impossible end).
Proof.
  unfold CheckOperations, checkOperations. simpl. unfold kv_Partition. simpl.
  unfold checkParallel. destruct evs as [|ev evs]; [done|].
  destruct ev as [[|i] k| | |]; done.
Qed.
