(* ===== verification/KVLinear.v ===== *)
(** * Linearizability of the key/value service

    The specification the service meets: a [timeline] is the history of
    [KVRaftSpec] with a clock, in which an operation takes effect at one position of
    the log between its call and its return: a Get at an entry whose prefix gives the
    value it returns, a Put or an Append at its first entry.  Every timeline is
    linearizable in the sense of the test suites ([timeline_linearizable]): the
    operations that returned, with some of those still in progress, have an order
    that respects real time and that the map executes. *)

From S2P Require Import Prelude Chan RaftApi Raft Bitset Porcupine PorcupineList PorcupineSpec KvModel PorcupineOps KVRaft KVRaftSpec.
Import KVRaft.

(** ** What the test suites record *)

(** [models.KvInput] of an operation: 0 is Get, 1 is Put, 2 is Append. *)
Definition kv_input (op : Op) : KvInput :=
  mkKvInput (if bool_decide (Optype op = "Get") then 0 else if bool_decide (Optype op = "Put") then 1 else 2)
    (Key op) (Value op).

(** [models.KvOutput]: the value of a Get. *)
Definition kv_output (op : Op) (value : string) : KvOutput :=
  mkKvOutput (if bool_decide (Optype op = "Get") then value else EmptyString).

Definition recorded (client : Z) (op : Op) (call : Z) (value : string) (ret : Z) : kvOp :=
  mkOperation client (VInput (kv_input op)) call (VOutput (kv_output op value)) ret.

(** ** The specification *)
Record timeline := mkTimeline {
  t_hist : history;
  t_now : Z;
  t_called : gmap Z Z;          (* when each clerk made its call *)
  t_done : list (nat * kvOp)    (* what returned, and where it took effect *)
}.

(** Position [k] of the log is where operation [op] takes effect, with this result. *)
Definition effect_at (log : list Op) (k : nat) (op : Op) (value : string) : Prop :=
  log !! k = Some op ∧
  if bool_decide (Optype op = "Get") then value = map_get "" (kv_spec (take k log)) (Key op)
  else KVRaftSpec.op_id op ∉ KVRaftSpec.op_ids (take k log).

Inductive tstep : timeline → timeline → Prop :=
| ts_call T c ck r :
    h_clerks (t_hist T) !! c = Some (ck, None) →
    tstep T (mkTimeline
      (mkHistory (<[c := (ck, Some r)]> (h_clerks (t_hist T))) (clerk_op ck r :: h_calls (t_hist T))
         (h_log (t_hist T))) (t_now T) (<[c := t_now T]> (t_called T)) (t_done T))
| ts_log T op :
    op ∈ h_calls (t_hist T) →
    tstep T (mkTimeline (mkHistory (h_clerks (t_hist T)) (h_calls (t_hist T)) (h_log (t_hist T) ++ [op]))
      (t_now T) (t_called T) (t_done T))
| ts_return T c ck r server value t0 k :
    h_clerks (t_hist T) !! c = Some (ck, Some r) → t_called T !! c = Some t0 →
    effect_at (h_log (t_hist T)) k (clerk_op ck r) value →
    tstep T (mkTimeline
      (mkHistory (<[c := (clerk_answered ck r server value, None)]> (h_clerks (t_hist T)))
         (h_calls (t_hist T)) (h_log (t_hist T))) (t_now T) (t_called T)
      ((k, recorded c (clerk_op ck r) t0 value (t_now T)) :: t_done T))
| ts_tick T now : t_now T ≤ now → tstep T (mkTimeline (t_hist T) now (t_called T) (t_done T)).

Inductive treach : timeline → Prop :=
| tr_init T : (∀ c ck o, h_clerks (t_hist T) !! c = Some (ck, o) → o = None ∧ ∃ n, ck = MakeClerk n c) →
    h_calls (t_hist T) = [] → h_log (t_hist T) = [] → t_done T = [] → treach T
| tr_step T T' : treach T → tstep T T' → treach T'.

Lemma effect_at_id log k op value : effect_at log k op value → KVRaftSpec.op_id op ∈ KVRaftSpec.op_ids log.
Proof. intros [Hk _]. apply elem_of_op_ids. exists op. split; [by eapply list_elem_of_lookup_2|done]. Qed.

Lemma effect_at_snoc log k op value x : effect_at log k op value → effect_at (log ++ [x]) k op value.
Proof.
  intros [Hk He]. pose proof (lookup_lt_Some _ _ _ Hk). unfold effect_at.
  rewrite take_app_le, lookup_app_l by lia. done.
Qed.

(** A timeline is a history of the service. *)
Lemma treach_hreach T : treach T → hreach (t_hist T).
Proof.
  induction 1 as [T Hc Hca Hl _|T T' _ IH Hst]; [by apply hr_init|].
  destruct Hst as [T c ck r Hc|T op Hop|T c ck r server value t0 k Hc _ Heff|T now Hnow]; simpl; [..|done];
    (eapply hr_step; [exact IH|]).
  - by apply hs_call.
  - by apply hs_log.
  - eapply hs_ok; [done|]. by eapply effect_at_id.
Qed.

(** ** The invariant *)
Record tinv (T : timeline) : Prop := {
  (** the call of a clerk's number is the one in progress *)
  ti_current : ∀ op ck o, op ∈ h_calls (t_hist T) → h_clerks (t_hist T) !! ClientID op = Some (ck, o) →
    SeqNum op = seqNum ck → ∃ r, o = Some r ∧ op = clerk_op ck r;
  (** the earlier ones returned *)
  ti_answered : ∀ op ck o, op ∈ h_calls (t_hist T) → h_clerks (t_hist T) !! ClientID op = Some (ck, o) →
    SeqNum op < seqNum ck → ∃ k v, (k, v) ∈ t_done T ∧ h_log (t_hist T) !! k = Some op;
  ti_inj : ∀ op op', op ∈ h_calls (t_hist T) → op' ∈ h_calls (t_hist T) →
    KVRaftSpec.op_id op = KVRaftSpec.op_id op' → op = op';
  ti_done : ∀ k v, (k, v) ∈ t_done T → ∃ op t0 value t1 ck o,
    v = recorded (ClientID op) op t0 value t1 ∧ t0 ≤ t1 ≤ t_now T ∧ effect_at (h_log (t_hist T)) k op value ∧
    h_clerks (t_hist T) !! ClientID op = Some (ck, o) ∧ SeqNum op < seqNum ck;
  ti_nodup : NoDup (t_done T).*1;
  ti_called : ∀ c ck r, h_clerks (t_hist T) !! c = Some (ck, Some r) →
    ∃ t0, t_called T !! c = Some t0 ∧ t0 ≤ t_now T;
  (** real time, between operations that returned and with those in progress *)
  ti_time : ∀ k v k' v', (k, v) ∈ t_done T → (k', v') ∈ t_done T →
    op_Return v < op_Call v' → (k < k')%nat;
  ti_time_current : ∀ k v c ck r t0 j, (k, v) ∈ t_done T → h_clerks (t_hist T) !! c = Some (ck, Some r) →
    t_called T !! c = Some t0 → op_Return v < t0 → h_log (t_hist T) !! j = Some (clerk_op ck r) → (k < j)%nat
}.

Lemma clerk_op_ids ck r : ClientID (clerk_op ck r) = clientID ck ∧ SeqNum (clerk_op ck r) = seqNum ck.
Proof. pose proof (clerk_op_id ck r) as [= ? ?]. done. Qed.

Lemma tinv_call T c ck r :
  hinv (t_hist T) → tinv T → h_clerks (t_hist T) !! c = Some (ck, None) →
  tinv (mkTimeline
      (mkHistory (<[c := (ck, Some r)]> (h_clerks (t_hist T))) (clerk_op ck r :: h_calls (t_hist T))
         (h_log (t_hist T))) (t_now T) (<[c := t_now T]> (t_called T)) (t_done T)).
Proof.
  intros [Hid _ Hlog _] [Hcur Hans Hinj Hdone Hnd Hcal Htime Htc] Hc. destruct (Hid _ _ _ Hc) as [Hcc _].
  destruct (clerk_op_ids ck r) as [Hci Hsn]. rewrite Hcc in Hci.
  assert (∀ op, op ∈ h_calls (t_hist T) → ClientID op = c → SeqNum op ≠ seqNum ck) as Hnew.
  { intros op Hop <- Hs. by destruct (Hcur op _ _ Hop Hc Hs) as (? & ? & _). }
  split; simpl.
  - intros op ck' o [->|Hop]%elem_of_cons Hck Hs.
    + rewrite Hci, lookup_insert_eq in Hck. injection Hck as <- <-. eauto.
    + destruct (decide (c = ClientID op)) as [->|Hne];
        [rewrite lookup_insert_eq in Hck|rewrite lookup_insert_ne in Hck by done; by eapply Hcur].
      injection Hck as <- <-. by destruct (Hnew op Hop).
  - intros op ck' o [->|Hop]%elem_of_cons Hck Hs.
    + rewrite Hci, lookup_insert_eq in Hck. injection Hck as <- <-. lia.
    + destruct (decide (c = ClientID op)) as [->|Hne];
        [rewrite lookup_insert_eq in Hck|rewrite lookup_insert_ne in Hck by done; by eapply Hans].
      injection Hck as <- <-. by eapply Hans.
  - intros op op' [->|Hop]%elem_of_cons [->|Hop']%elem_of_cons Hi; [done|..].
    + injection Hi as Hi1 Hi2. destruct (Hnew op' Hop'); congruence.
    + injection Hi as Hi1 Hi2. destruct (Hnew op Hop); congruence.
    + by apply Hinj.
  - intros k v (op & t0 & value & t1 & ck' & o & Hv & Ht & He & Hck & Hs)%Hdone.
    destruct (decide (c = ClientID op)) as [->|Hne]; [|exists op, t0, value, t1, ck', o; by rewrite lookup_insert_ne].
    exists op, t0, value, t1, ck, (Some r). rewrite lookup_insert_eq.
    assert (ck' = ck) as -> by congruence. split_and!; done || lia.
  - done.
  - intros c' ck' r' [[<- [= <- <-]]|[Hne Hck]]%lookup_insert_Some;
      [rewrite lookup_insert_eq; by eexists|rewrite lookup_insert_ne by done; by eapply Hcal].
  - done.
  - intros k v c' ck' r' t0 j Hin [[<- [= <- <-]]|[Hne Hck]]%lookup_insert_Some;
      [|rewrite lookup_insert_ne by done; by eapply Htc].
    intros _ _ Hj. destruct (Hnew (clerk_op ck r)); [|done..]. apply Hlog. by eapply list_elem_of_lookup_2.
Qed.

Lemma tinv_log T op :
  tinv T → op ∈ h_calls (t_hist T) →
  tinv (mkTimeline (mkHistory (h_clerks (t_hist T)) (h_calls (t_hist T)) (h_log (t_hist T) ++ [op]))
      (t_now T) (t_called T) (t_done T)).
Proof.
  intros [Hcur Hans Hinj Hdone Hnd Hcal Htime Htc] Hop. split; simpl; try done.
  - intros op' ck o Hop' Hck Hs. destruct (Hans op' ck o Hop' Hck Hs) as (k & v & Hin & Hk).
    exists k, v. split; [done|]. by apply lookup_app_l_Some.
  - intros k v (op' & t0 & value & t1 & ck' & o & Hv & Ht & He & Hck & Hs)%Hdone.
    exists op', t0, value, t1, ck', o. split_and!; try done; try lia. by apply effect_at_snoc.
  - intros k v c ck r t0 j Hin Hc Ht0 Hlt [Hj|[Hj _]]%lookup_app_Some; [by eapply Htc|].
    destruct (Hdone k v Hin) as (op' & ? & ? & ? & ? & ? & _ & _ & [He%lookup_lt_Some _] & _). lia.
Qed.

Lemma tinv_return T c ck r server value t0 k :
  hinv (t_hist T) → tinv T →
  h_clerks (t_hist T) !! c = Some (ck, Some r) → t_called T !! c = Some t0 →
  effect_at (h_log (t_hist T)) k (clerk_op ck r) value →
  tinv (mkTimeline
      (mkHistory (<[c := (clerk_answered ck r server value, None)]> (h_clerks (t_hist T)))
         (h_calls (t_hist T)) (h_log (t_hist T))) (t_now T) (t_called T)
      ((k, recorded c (clerk_op ck r) t0 value (t_now T)) :: t_done T)).
Proof.
  intros [Hid Hca _ _] [Hcur Hans Hinj Hdone Hnd Hcal Htime Htc] Hc Ht0 Heff. destruct (Hid _ _ _ Hc) as [Hcc _].
  destruct (clerk_op_ids ck r) as [Hci Hsn]. rewrite Hcc in Hci.
  destruct (clerk_answered_fields ck r server value) as [_ Hnext].
  destruct (Hcal _ _ _ Hc) as (t0' & Ht0' & Hle). assert (t0' = t0) as -> by congruence.
  split; simpl.
  - intros op ck' o Hop [[-> [= <- <-]]|[_ Hck]]%lookup_insert_Some Hs; [|by eapply Hcur].
    destruct (Hca op Hop) as (ck1 & o1 & Hck1 & Hr & _). assert (ck1 = ck) as -> by congruence. lia.
  - intros op ck' o Hop [[-> [= <- <-]]|[_ Hck]]%lookup_insert_Some Hs.
    + destruct (decide (SeqNum op = seqNum ck)) as [Heq|Hne].
      * destruct (Hcur op _ _ Hop Hc Heq) as (r' & [= <-] & ->). eexists k, _. split; [by left|apply Heff].
      * destruct (Hans op _ _ Hop Hc) as (k' & v & ? & ?); [lia|]. exists k', v. split; [by right|done].
    + destruct (Hans op ck' o Hop Hck Hs) as (k' & v & ? & ?). exists k', v. split; [by right|done].
  - done.
  - intros k' v [[= -> ->]|Hin]%elem_of_cons.
    + exists (clerk_op ck r), t0, value, (t_now T). eexists _, _.
      rewrite Hci, lookup_insert_eq. split_and!; try done; lia.
    + destruct (Hdone k' v Hin) as (op & t1 & value' & t2 & ck' & o & Hv & Ht & He & Hck & Hs).
      destruct (decide (c = ClientID op)) as [->|Hne];
        [|exists op, t1, value', t2, ck', o; by rewrite lookup_insert_ne].
      eexists op, t1, value', t2, _, _. rewrite lookup_insert_eq. split_and!; try done; try lia.
      assert (ck' = ck) as -> by congruence. lia.
  - constructor; [|done]. intros ([k' v] & Hk & Hin)%list_elem_of_fmap. simpl in Hk. subst k'.
    destruct (Hdone k v Hin) as (op & t1 & value' & t2 & ck' & o & Hv & Ht & [He _] & Hck & Hs).
    destruct Heff as [Heff _]. assert (op = clerk_op ck r) as -> by congruence.
    rewrite Hci in Hck. assert (ck' = ck) as -> by congruence. lia.
  - intros c' ck' r' [[_ [=]]|[_ Hck]]%lookup_insert_Some. by eapply Hcal.
  - intros k1 v1 k2 v2 [[= -> ->]|H1]%elem_of_cons [[= -> ->]|H2]%elem_of_cons Hlt; simpl in Hlt.
    + lia.
    + destruct (Hdone k2 v2 H2) as (op & t1 & ? & ? & ? & ? & -> & ? & _). simpl in Hlt. lia.
    + eapply (Htc k1 v1); try done. apply Heff.
    + by eapply Htime.
  - intros k' v c' ck' r' t1 j [[= -> ->]|Hin]%elem_of_cons [[_ [=]]|[_ Hck]]%lookup_insert_Some Ht1 Hlt Hj.
    + simpl in Hlt. destruct (Hcal _ _ _ Hck) as (t2 & ? & ?). assert (t2 = t1) by congruence. lia.
    + by eapply (Htc k' v).
Qed.

Lemma treach_inv T : treach T → tinv T.
Proof.
  induction 1 as [T Hcl Hca Hl Hd|T T' HT IH Hst].
  { split; rewrite ?Hca, ?Hl, ?Hd; try (by intros ? ? ? ?%elem_of_nil); try (by intros ? ? ?%elem_of_nil).
    - constructor.
    - intros c ck r [[=] _]%Hcl.
    - by intros ? ? ? ? ?%elem_of_nil.
    - by intros ? ? ? ? ? ? ? ?%elem_of_nil. }
  pose proof (hreach_inv _ (treach_hreach _ HT)) as Hh.
  destruct Hst as [T c ck r Hc|T op Hop|T c ck r server value t0 k Hc Ht0 Heff|T now Hnow].
  - by apply tinv_call.
  - by apply tinv_log.
  - by eapply tinv_return.
  - destruct IH as [Hcur Hans Hinj Hdone Hnd Hcal Htime Htc]. split; simpl; try done.
    + intros k v (op & t0 & value & t1 & ck & o & -> & ? & ? & ? & ?)%Hdone.
      exists op, t0, value, t1, ck, o. split_and!; try done; lia.
    + intros c ck r (t0 & ? & ?)%Hcal. exists t0. split; [done|lia].
Qed.

(** ** The order *)

(** The operations at their points, in the order of the log. *)
Definition in_log_order (n : nat) (P : gmap nat kvOp) : list kvOp := omap (λ k, P !! k) (seq 0 n).

Lemma omap_insert_seq (P : gmap nat kvOp) k v i n :
  P !! k = None → (i ≤ k < i + n)%nat →
  omap (λ j, <[k := v]> P !! j) (seq i n) ≡ₚ v :: omap (λ j, P !! j) (seq i n).
Proof.
  intros HP. revert i. induction n as [|n IH]; intros i Hk; [lia|]. simpl.
  destruct (decide (k = i)) as [->|Hne].
  - rewrite lookup_insert_eq, HP. f_equiv.
    rewrite (list_omap_ext (λ j, <[i := v]> P !! j) (λ j, P !! j) _ (seq (S i) n)); [done|].
    apply Forall_Forall2_diag, Forall_forall. intros j Hj%elem_of_seq. apply lookup_insert_ne. lia.
  - rewrite lookup_insert_ne by done. specialize (IH (S i) ltac:(lia)).
    destruct (P !! i); [rewrite IH; apply Permutation_swap|exact IH].
Qed.

Lemma in_log_order_perm (l : list (nat * kvOp)) n :
  NoDup l.*1 → (∀ k v, (k, v) ∈ l → (k < n)%nat) → in_log_order n (list_to_map l) ≡ₚ l.*2.
Proof.
  unfold in_log_order. induction l as [|[k v] l IH]; intros Hnd Hlt; simpl.
  - induction (seq 0 n) as [|j s IHs]; [done|]. simpl. by rewrite lookup_empty.
  - inversion Hnd as [|? ? Hk Hnd']; subst. assert (k < n)%nat by (apply (Hlt k v); by left).
    rewrite omap_insert_seq; [|by apply not_elem_of_list_to_map_1|lia]. f_equiv.
    apply IH; [done|]. intros k' v' Hin. apply (Hlt k' v'). by right.
Qed.

Lemma in_log_order_time (P : gmap nat kvOp) i n :
  (∀ k k' v v', (k < k')%nat → P !! k = Some v → P !! k' = Some v' → op_Call v ≤ op_Return v') →
  real_time (omap (λ k, P !! k) (seq i n)).
Proof.
  intros HP. unfold real_time. revert i. induction n as [|n IH]; intros i; simpl; [constructor|].
  destruct (P !! i) as [v|] eqn:Hi; [|apply IH]. constructor; [apply IH|].
  apply Forall_forall. intros v' (j & Hj%elem_of_seq & Hv')%list_elem_of_omap.
  eapply (HP i j); [lia|done..].
Qed.

Lemma kv_spec_snoc l op :
  kv_spec (l ++ [op]) = if bool_decide (KVRaftSpec.op_id op ∈ KVRaftSpec.op_ids l) then kv_spec l
    else kv_exec (kv_spec l) op.
Proof.
  unfold kv_spec. rewrite first_ops_snoc, foldl_app, union_empty_l_L. by case_bool_decide.
Qed.

(** A point of the log: an operation that takes effect there. *)
Definition point (log : list Op) (k : nat) (v : kvOp) : Prop :=
  ∃ op value, op_Input v = VInput (kv_input op) ∧ op_Output v = VOutput (kv_output op value) ∧
    effect_at log k op value.

(** The types of operation the clerks ask for. *)
Definition typed_op (op : Op) : Prop := Optype op = "Get" ∨ Optype op = "Put" ∨ Optype op = "Append".

Lemma point_step log k v m op :
  log !! k = Some op → typed_op op → point log k v →
  (∀ x, map_get "" m x = map_get "" (kv_spec (take k log)) x) →
  ∃ st, kv_Step (map_get "" m (key_of v)) (op_Input v) (op_Output v) = Ret (true, st) ∧
    ∀ x, map_get "" (<[key_of v := st]> m) x = map_get "" (kv_spec (take (S k) log)) x.
Proof.
  intros Hk Hty (op' & value & Hin & Hout & [Hk' Heff]) Hm. assert (op' = op) as -> by congruence.
  rewrite (take_S_r _ _ _ Hk), kv_spec_snoc. unfold key_of. rewrite Hin, Hout. simpl. rewrite Hm.
  assert (∀ y st x, map_get "" (<[y := st]> m) x = if decide (y = x) then st else map_get "" m x) as Hins.
  { intros y st x. destruct (decide (y = x)) as [->|Hne]; [apply map_get_insert_eq|by apply map_get_insert_ne]. }
  unfold kv_exec, kv_input, kv_output in *. simpl. destruct Hty as [Ho|[Ho|Ho]]; rewrite Ho in *; simpl in *.
  - subst value. rewrite bool_decide_eq_true_2 by done. eexists. split; [done|]. intros x. rewrite Hins.
    destruct (decide (Key op = x)) as [<-|]; [|rewrite Hm]; by case_bool_decide.
  - rewrite bool_decide_eq_false_2 by done. eexists. split; [done|]. intros x. rewrite Hins.
    destruct (decide (Key op = x)) as [<-|Hne]; [by rewrite map_get_insert_eq|by rewrite map_get_insert_ne].
  - rewrite bool_decide_eq_false_2 by done. eexists. split; [done|]. intros x. rewrite Hins.
    destruct (decide (Key op = x)) as [<-|Hne]; [by rewrite map_get_insert_eq|by rewrite map_get_insert_ne].
Qed.

(** The map executes the points in the order of the log, if they include the
    first entry of every Put and Append. *)
Lemma in_log_order_executes log (P : gmap nat kvOp) :
  (∀ op, op ∈ log → typed_op op) → (∀ k v, P !! k = Some v → point log k v) →
  (∀ k op, log !! k = Some op → Optype op ≠ "Get" →
     KVRaftSpec.op_id op ∉ KVRaftSpec.op_ids (take k log) → is_Some (P !! k)) →
  map_executes ∅ (in_log_order (length log) P).
Proof.
  intros Hty HP Hall. unfold in_log_order.
  assert (∀ n i m, (i + n = length log)%nat → (∀ x, map_get "" m x = map_get "" (kv_spec (take i log)) x) →
    map_executes m (omap (λ k, P !! k) (seq i n))) as Hgen; [|by apply Hgen].
  induction n as [|n IH]; intros i m Hlen Hm; simpl; [constructor|].
  destruct (lookup_lt_is_Some_2 log i) as [op Hop]; [lia|]. pose proof (list_elem_of_lookup_2 _ _ _ Hop) as Hin.
  destruct (P !! i) as [v|] eqn:Hi.
  - destruct (point_step log i v m op Hop (Hty _ Hin) (HP _ _ Hi) Hm) as (st & Hst & Hm').
    econstructor; [exact Hst|]. apply IH; [lia|done].
  - apply IH; [lia|]. intros x. rewrite Hm, (take_S_r _ _ _ Hop), kv_spec_snoc. case_bool_decide as Hid; [done|].
    destruct (decide (Optype op = "Get")) as [Hg|Hng].
    + unfold kv_exec. by rewrite Hg.
    + destruct (Hall i op Hop Hng Hid) as [v ?]. congruence.
Qed.

(** ** The operations in progress *)

(** An operation in progress, as if it returned now. *)
Definition in_progress (T : timeline) (v : kvOp) : Prop := ∃ c ck r t0,
  h_clerks (t_hist T) !! c = Some (ck, Some r) ∧ t_called T !! c = Some t0 ∧
  v = recorded c (clerk_op ck r) t0 "" (t_now T).

(** Those that took effect already: a Put or an Append that is in the log. *)
Definition pending_point (T : timeline) (x : Z * (Clerk * option request)) : option (nat * kvOp) :=
  match x with
  | (c, (ck, Some r)) =>
      if bool_decide (Optype (clerk_op ck r) = "Get") then None
      else '(k, _) ← list_find (λ op, KVRaftSpec.op_id op = KVRaftSpec.op_id (clerk_op ck r)) (h_log (t_hist T));
           t0 ← t_called T !! c; Some (k, recorded c (clerk_op ck r) t0 "" (t_now T))
  | _ => None
  end.

Definition pending (T : timeline) : list (nat * kvOp) :=
  omap (pending_point T) (map_to_list (h_clerks (t_hist T))).

Lemma pending_point_spec T c x k v :
  hinv (t_hist T) → tinv T → h_clerks (t_hist T) !! c = Some x → pending_point T (c, x) = Some (k, v) →
  ∃ ck r t0, x = (ck, Some r) ∧ t_called T !! c = Some t0 ∧ Optype (clerk_op ck r) ≠ "Get" ∧
    v = recorded c (clerk_op ck r) t0 "" (t_now T) ∧ effect_at (h_log (t_hist T)) k (clerk_op ck r) "".
Proof.
  intros Hh Ht Hc. destruct x as [ck [r|]]; simpl; [|done]. case_bool_decide as Hg; [done|].
  intros ([k' op] & (Hk & Hid & Hfirst)%list_find_Some & (t0 & Ht0 & [= -> <-])%bind_Some)%bind_Some.
  exists ck, r, t0. split_and!; try done.
  destruct (hi_id _ Hh _ _ _ Hc) as [Hcc _]. rewrite clerk_op_id in Hid. injection Hid as Hi1 Hi2.
  assert (op = clerk_op ck r) as ->.
  { destruct (ti_current _ Ht op ck (Some r)) as (r' & [= <-] & ->); try done; [|congruence].
    apply (hi_log _ Hh). by eapply list_elem_of_lookup_2. }
  split; [done|]. rewrite bool_decide_eq_false_2 by done.
  intros (op & (j & [Hj Hlt]%lookup_take_Some)%list_elem_of_lookup & Hop)%elem_of_op_ids. by apply (Hfirst j op).
Qed.

Lemma elem_of_pending T k v :
  hinv (t_hist T) → tinv T → (k, v) ∈ pending T →
  ∃ c ck r t0, h_clerks (t_hist T) !! c = Some (ck, Some r) ∧ t_called T !! c = Some t0 ∧
    v = recorded c (clerk_op ck r) t0 "" (t_now T) ∧ effect_at (h_log (t_hist T)) k (clerk_op ck r) "".
Proof.
  intros Hh Ht ([c x] & Hc%elem_of_map_to_list & Hp)%list_elem_of_omap.
  destruct (pending_point_spec T c x k v Hh Ht Hc Hp) as (ck & r & t0 & -> & ? & _ & ? & ?).
  by exists c, ck, r, t0.
Qed.

Lemma NoDup_omap_key {K A B D} (f : K * A → option B) (g : B → D) (l : list (K * A)) :
  NoDup l.*1 → (∀ x y b b', x ∈ l → y ∈ l → f x = Some b → f y = Some b' → g b = g b' → x.1 = y.1) →
  NoDup (g <$> omap f l).
Proof.
  induction l as [|x l IH]; intros Hnd Hg; simpl; [constructor|]. inversion Hnd as [|? ? Hnot Hnd']; subst.
  assert (NoDup (g <$> omap f l)) as Hl.
  { apply IH; [done|]. intros y z b b' Hy Hz. apply Hg; by right. }
  destruct (f x) as [b|] eqn:Hf; [|done]. simpl. constructor; [|done].
  intros (b' & Hb & (y & Hy & Hfy)%list_elem_of_omap)%list_elem_of_fmap.
  apply Hnot, list_elem_of_fmap. exists y. split; [|done]. eapply (Hg x y); [by left|by right|done..].
Qed.

(** A point belongs to one clerk, and a clerk has one. *)
Lemma pending_nodup T :
  hinv (t_hist T) → tinv T → NoDup (pending T).*1 ∧ NoDup (op_ClientId <$> (pending T).*2).
Proof.
  intros Hh Ht. unfold pending. rewrite <- list_fmap_compose.
  pose proof (NoDup_fst_map_to_list (h_clerks (t_hist T))) as Hnd.
  split; (apply NoDup_omap_key; [done|]);
    intros [c x] [c' x'] [k v] [k' v'] Hc%elem_of_map_to_list Hc'%elem_of_map_to_list Hp Hp'; simpl;
    destruct (pending_point_spec T c x k v Hh Ht Hc Hp) as (ck & r & t0 & -> & _ & _ & -> & [E1 _]);
    destruct (pending_point_spec T c' x' k' v' Hh Ht Hc' Hp') as (ck' & r' & t0' & -> & _ & _ & -> & [E2 _]);
    [|done].
  intros <-. destruct (hi_id _ Hh _ _ _ Hc) as [<- _]. destruct (hi_id _ Hh _ _ _ Hc') as [<- _].
  rewrite <- (proj1 (clerk_op_ids ck r)), <- (proj1 (clerk_op_ids ck' r')). congruence.
Qed.

(** A Put or an Append whose first entry is in the log returned or is pending. *)
Lemma points_complete T k op :
  hinv (t_hist T) → tinv T → h_log (t_hist T) !! k = Some op → Optype op ≠ "Get" →
  KVRaftSpec.op_id op ∉ KVRaftSpec.op_ids (take k (h_log (t_hist T))) → ∃ v, (k, v) ∈ t_done T ++ pending T.
Proof.
  intros Hh Ht Hk Hg Hfirst. pose proof (hi_log _ Hh op (list_elem_of_lookup_2 _ _ _ Hk)) as Hop.
  destruct (hi_calls _ Hh op Hop) as (ck & o & Hc & Hr & _). destruct (decide (SeqNum op = seqNum ck)) as [Heq|Hne].
  - destruct (ti_current _ Ht op ck o Hop Hc Heq) as (r & -> & ->).
    destruct (ti_called _ Ht _ _ _ Hc) as (t0 & Ht0 & _). eexists. apply elem_of_app. right.
    apply list_elem_of_omap. exists (ClientID (clerk_op ck r), (ck, Some r)).
    split; [by apply elem_of_map_to_list|]. simpl. rewrite bool_decide_eq_false_2 by done.
    erewrite (proj2 (list_find_Some _ _ k (clerk_op ck r))).
    + simpl. rewrite Ht0. done.
    + split_and!; [done..|]. intros j y Hj Hlt Hid. apply Hfirst, elem_of_op_ids. exists y. split; [|done].
      apply (list_elem_of_lookup_2 _ j). apply lookup_take_Some. done.
  - destruct (ti_answered _ Ht op ck o Hop Hc) as (k' & v & Hin & Hk'); [lia|]. exists v. apply elem_of_app. left.
    destruct (ti_done _ Ht k' v Hin) as (op' & ? & ? & ? & ? & ? & _ & _ & [Hk1 Heff] & _).
    assert (op' = op) as -> by congruence. rewrite bool_decide_eq_false_2 in Heff by done.
    assert (∀ i j, h_log (t_hist T) !! i = Some op → (i < j)%nat →
      KVRaftSpec.op_id op ∈ KVRaftSpec.op_ids (take j (h_log (t_hist T)))) as Hbefore.
    { intros i j Hi Hlt. apply elem_of_op_ids. exists op. split; [|done].
      apply (list_elem_of_lookup_2 _ i). by apply lookup_take_Some. }
    destruct (Nat.lt_trichotomy k k') as [Hlt|[->|Hlt]]; [|done|].
    + by destruct Heff; apply (Hbefore k).
    + by destruct Hfirst; apply (Hbefore k').
Qed.

(** ** Linearizability *)
Lemma points_nodup T : hinv (t_hist T) → tinv T → NoDup (t_done T ++ pending T).*1.
Proof.
  intros Hh Ht. rewrite fmap_app. apply NoDup_app. split_and!; [apply Ht| |by apply pending_nodup].
  intros k ([k1 v] & -> & Hin)%list_elem_of_fmap ([k2 v'] & Hk & Hp)%list_elem_of_fmap. simpl in Hk. subst k2.
  destruct (ti_done _ Ht _ _ Hin) as (op & ? & ? & ? & ck & o & _ & _ & [E1 _] & Hc & Hs).
  destruct (elem_of_pending T k1 v' Hh Ht Hp) as (c & ck' & r & t0 & Hc' & _ & _ & [E2 _]).
  simpl in *. assert (op = clerk_op ck' r) as -> by congruence.
  destruct (clerk_op_ids ck' r) as [Hi1 Hi2]. destruct (hi_id _ Hh _ _ _ Hc') as [Hcc _].
  rewrite Hi1, Hcc in Hc. assert (ck = ck') as -> by congruence. lia.
Qed.

Lemma points_spec T k v :
  hinv (t_hist T) → tinv T → (k, v) ∈ t_done T ++ pending T →
  point (h_log (t_hist T)) k v ∧ op_Call v ≤ t_now T.
Proof.
  intros Hh Ht [Hin|Hp]%elem_of_app.
  - destruct (ti_done _ Ht _ _ Hin) as (op & t0 & value & t1 & ck & o & -> & ? & ? & _).
    split; [by exists op, value|simpl; lia].
  - destruct (elem_of_pending T k v Hh Ht Hp) as (c & ck & r & t0 & Hc & Ht0 & -> & He).
    split; [by eexists _, _|]. simpl. destruct (ti_called _ Ht _ _ _ Hc) as (t1 & ? & ?).
    assert (t1 = t0) by congruence. lia.
Qed.

Lemma points_time T k v k' v' :
  hinv (t_hist T) → tinv T → (k, v) ∈ t_done T ++ pending T → (k', v') ∈ t_done T ++ pending T →
  (k < k')%nat → op_Call v ≤ op_Return v'.
Proof.
  intros Hh Ht Hkv Hkv' Hlt. destruct (decide (op_Call v ≤ op_Return v')) as [|Hnot]; [done|]. exfalso.
  pose proof (points_spec T k v Hh Ht Hkv) as [_ Hnow].
  apply elem_of_app in Hkv' as [Hd'|Hp'].
  - apply elem_of_app in Hkv as [Hd|Hp].
    + pose proof (ti_time _ Ht k' v' k v Hd' Hd). lia.
    + destruct (elem_of_pending T k v Hh Ht Hp) as (c & ck & r & t0 & Hc & Ht0 & -> & [E _]). simpl in Hnot.
      pose proof (ti_time_current _ Ht k' v' c ck r t0 k Hd' Hc Ht0 ltac:(lia) E). lia.
  - destruct (elem_of_pending T k' v' Hh Ht Hp') as (c & ck & r & t0 & _ & _ & -> & _). simpl in Hnot. lia.
Qed.

Lemma call_typed T op : treach T → op ∈ h_calls (t_hist T) → typed_op op.
Proof.
  induction 1 as [T Hcl Hca Hl Hd|T T' HT IH Hst]; [rewrite Hca; by intros ?%elem_of_nil|].
  destruct Hst as [T c ck r Hc|T x Hop|T c ck r server value t0 k Hc Ht0 Heff|T now Hnow]; simpl; try done.
  intros [->|?]%elem_of_cons; [|by apply IH]. unfold typed_op. destruct r; simpl; auto.
Qed.

(** What returned, with some of what is in progress, at most one operation per
    clerk, is linearizable. *)
Lemma timeline_linearizable T :
  treach T → ∃ p, (∀ v, v ∈ p → in_progress T v) ∧ NoDup (op_ClientId <$> p) ∧
    linearizable_kv ((t_done T).*2 ++ p).
Proof.
  intros HT. pose proof (hreach_inv _ (treach_hreach _ HT)) as Hh. pose proof (treach_inv _ HT) as Ht.
  exists (pending T).*2. split; [|split; [by apply pending_nodup|]].
  { intros v ([k v'] & -> & Hp)%list_elem_of_fmap.
    destruct (elem_of_pending T k v' Hh Ht Hp) as (c & ck & r & t0 & ? & ? & ? & _). by exists c, ck, r, t0. }
  set (ps := t_done T ++ pending T). pose proof (points_nodup T Hh Ht) as Hnd. fold ps in Hnd.
  assert (∀ k v, (list_to_map ps : gmap nat kvOp) !! k = Some v → (k, v) ∈ ps) as Hin.
  { intros k v. by apply elem_of_list_to_map_2. }
  exists (in_log_order (length (h_log (t_hist T))) (list_to_map ps)). rewrite <- fmap_app. split_and!.
  - apply in_log_order_perm; [done|]. intros k v [(op & value & _ & _ & [E _]) _]%(points_spec T k v Hh Ht).
    by eapply lookup_lt_Some.
  - apply in_log_order_time. intros k k' v v' Hlt Hk Hk'. apply (points_time T k v k' v'); auto.
  - apply in_log_order_executes.
    + intros op Hop. eapply call_typed; [done|]. by apply (hi_log _ Hh).
    + intros k v Hk. apply (points_spec T k v Hh Ht). by apply Hin.
    + intros k op Hk Hg Hfirst. destruct (points_complete T k op Hh Ht Hk Hg Hfirst) as [v Hv].
      exists v. by apply elem_of_list_to_map_1.
Qed.
