(* ===== verification/KVGroup.v ===== *)
(** * The replicated key/value store as a whole

    The servers of kvraft/server.go on the peers of raft/raft.go, with the clerks
    of kvraft/client.go: the composition of [KVRaft], [RaftGroup] and [Rsm].  A
    clerk's call may reach any server at any time and repeatedly; a server that
    leads starts the operation and waits; the appliers execute what is committed
    and wake the waiting requests; replies may be lost; machines crash and
    restart.  Every run is a run of the abstract history of [KVRaftSpec], whose log
    is the committed log of the peers. *)

From S2P Require Import Prelude Persister Chan RaftApi Raft RaftLog RaftAppend RaftSteps RaftSpec RaftOps RaftElection RaftHistory RaftRep RaftGroup RaftGroupSteps RaftSafety Rsm RaftInstance Bitset Porcupine PorcupineList PorcupineSpec KvModel KVRaft KVRaftSpec KVLinear.
Import KVRaft.

Notation kv_state := (gmap string string * gmap Z Z)%type.

(** ** The server as a replica *)
Section replica.
Context `{HK : Codec kv_state} `{HC : Codec (Z * Z * list (Raft.LogEntry Op) * Z * Z)}.

(** A server with a given replicated state. *)
Definition kv_with (w : kv_state) : KVServer := mkKVServer (-1) w.1 empty_waitroom w.2 0.

Definition kv_replica_exec (w : kv_state) (c : option Op) : kv_state :=
  kv_view (execute (kv_with w) (default zeroOp c)).1.

Definition kv_replica_read (data : bytes) : option kv_state :=
  if zlen data <? 1 then None else gob_decode data.

Definition kv_replica_made (data : bytes) (kv : KVServer) : Prop :=
  ∃ ps npeers id maxraftstate now, ReadSnapshot ps = data ∧
    kv = (StartKVServer npeers id ps maxraftstate now).2.

Lemma kv_with_view w : kv_view (kv_with w) = w.
Proof. by destruct w. Qed.

Lemma kv_exec_view kv c : kv_replica_exec (kv_view kv) c = kv_view (execute kv (default zeroOp c)).1.
Proof. unfold kv_replica_exec. apply execute_view. apply kv_with_view. Qed.

Lemma kv_read_view kv data w :
  kv_replica_read data = Some w → kv_view (readServerPersistData kv data) = w.
Proof.
  unfold kv_replica_read, readServerPersistData. case_test; [done|]. intros ->. by destruct w.
Qed.

Lemma kv_read_written kv : kv_replica_read (getServerPersistData kv) = Some (kv_view kv).
Proof.
  pose proof (proj2 (read_persist_view kv kv)). unfold kv_replica_read. case_test; [lia|].
  apply gob_decode_encode.
Qed.

Lemma kv_replica_command (rf : Raft.Raft Op) kv c i rf' kv' :
  True → 1 ≤ i → lastIncludedIndex kv < i → applyHandler rf kv (command_msg c i) = Ret (rf', kv') →
  True ∧ lastIncludedIndex kv' = lastIncludedIndex kv ∧ kv_view kv' = kv_replica_exec (kv_view kv) c ∧
  (rf' = rf ∨ ∃ data, Raft.Snapshot rf i data = Ret rf' ∧ kv_replica_read data = Some (kv_view kv')).
Proof.
  intros _ _ Hi. unfold applyHandler. simpl. case_test; [lia|]. rewrite kv_exec_view.
  destruct (execute_static kv (default zeroOp c)) as (_ & _ & HI).
  destruct (execute kv (default zeroOp c)) as [kv1 op1]. simpl in *. intros Hr. do 2 inv_bind Hr.
  injection Hr as <- <-. split; [done|]. split; [done|]. split; [done|].
  case_test_in Hb; [right|left; by injection Hb].
  eexists. split; [exact Hb|]. exact (kv_read_written kv1).
Qed.

Lemma kv_replica_stale (rf : Raft.Raft Op) kv c i rf' kv' (p : list (option Op)) :
  True → True → kv_view kv = foldl kv_replica_exec (∅, ∅) p → 1 ≤ i ≤ zlen p → i ≤ lastIncludedIndex kv →
  p !! Z.to_nat (i - 1) = Some c → applyHandler rf kv (command_msg c i) = Ret (rf', kv') →
  True ∧ lastIncludedIndex kv' = lastIncludedIndex kv ∧ kv_view kv' = kv_view kv ∧
  (rf' = rf ∨ ∃ data, Raft.Snapshot rf i data = Ret rf').
Proof.
  intros _ _ _ _ Hi _. unfold applyHandler. simpl. case_test; [|lia]. intros [= <- <-]. auto.
Qed.

Lemma kv_replica_snapshot (rf : Raft.Raft Op) kv data t i rf' kv' :
  True → applyHandler rf kv (snapshot_msg data t i) = Ret (rf', kv') →
  True ∧ ((rf' = rf ∧ kv' = kv) ∨ ∃ b, Raft.CondInstallSnapshot rf t i data = Ret (rf', b) ∧
    if b : bool then lastIncludedIndex kv' = i ∧ ∀ w, kv_replica_read data = Some w → kv_view kv' = w
    else kv' = kv).
Proof.
  intros _. unfold applyHandler. simpl. intros Hr. inv_bind Hr. destruct x as [rf1 b]. split; [done|]. right. exists b.
  destruct b; simpl in Hr; injection Hr as <- <-; (split; [exact Hb|]); [|done].
  split; [done|]. intros w Hw. exact (kv_read_view kv data w Hw).
Qed.

Lemma kv_replica_made_view data kv :
  kv_replica_made data kv →
  True ∧ lastIncludedIndex kv = 0 ∧ kv_view kv = default (∅, ∅) (kv_replica_read data).
Proof.
  intros (ps & np & id & m & now & <- & ->). split; [done|]. unfold StartKVServer, Raft.GetSnapshot. simpl.
  destruct (Make_static (C:=Op) np id ps now) as (_ & _ & _ & _ & ->).
  unfold kv_replica_read, readServerPersistData.
  destruct (Z.ltb_spec 0 (zlen (ReadSnapshot ps))), (Z.ltb_spec (zlen (ReadSnapshot ps)) 1); try lia; [|done].
  by destruct (gob_decode (ReadSnapshot ps)) as [[st seq]|].
Qed.

#[export] Instance kv_replica : Replica Op KVServer kv_state := {|
  rp_handler := applyHandler;
  rp_ok := λ _, True;
  rp_view := kv_view;
  rp_skip := lastIncludedIndex;
  rp_init := (∅, ∅);
  rp_exec := kv_replica_exec;
  rp_log_ok := λ _, True;
  rp_read := kv_replica_read;
  rp_made := kv_replica_made;
  rp_command := kv_replica_command;
  rp_stale := kv_replica_stale;
  rp_snapshot := kv_replica_snapshot;
  rp_made_view := kv_replica_made_view;
  rp_read_nil := eq_refl
|}.

(** The operations of a log. *)
Definition ops_of (l : list (Raft.LogEntry Op)) : list Op :=
  (λ e, default zeroOp (Raft.le_Command e)) <$> l.

Lemma kv_run_ops l : rsm_run l = kv_view (apply_ops kv_start (ops_of l)).
Proof.
  unfold rsm_run, apply_ops, ops_of. induction l as [|e l IH] using rev_ind; [done|].
  rewrite !fmap_app, !foldl_app. cbn [fmap list_fmap foldl]. rewrite IH. apply kv_exec_view.
Qed.
End replica.

(** ** The whole service *)

(** What a clerk makes of a reply, or of a call that failed. *)
Definition clerk_attempt (ck : Clerk) (r : request) (lastErr : bool) (server : Z) (reply : option GetReply)
  : Clerk * (string + bool) :=
  match r with
  | RGet _ => Clerk_Get_attempt ck lastErr server reply
  | _ => let '(ck', x) := Clerk_PutAppend_attempt ck lastErr server (gr_Err <$> reply) in
         (ck', match x with inl _ => inl ""%string | inr b => inr b end)
  end.

(** The reply of the handler of an operation at the end of its wait. *)
Definition request_end (op : Op) (ev : wake) : GetReply :=
  if bool_decide (Optype op = "Get") then Get_end (mkGetArgs (Key op) (ClientID op) (SeqNum op)) ev
  else mkGetReply (PutAppend_end (mkPutAppendArgs (Key op) (Value op) (Optype op) (ClientID op) (SeqNum op)) ev) "".

Definition wrong_leader : GetReply := mkGetReply ErrWrongLeader "".

(** The clerks, with the operation each is at; the calls they ever made; the clock;
    and the operations that returned, as a test records them. *)
Record clients := mkClients {
  c_clerks : gmap Z (Clerk * option request);
  c_calls : list Op;
  c_now : Z;
  c_called : gmap Z Z;
  c_history : list kvOp
}.

(** The requests at the servers: started at an index, waiting on a channel, with
    a channel to close; and the replies, which may arrive late or never. *)
Record requests := mkRequests {
  q_started : list (Z * Op * Z);
  q_waiting : list (Z * Op * Z * Z);
  q_finished : list (Z * Z * Z);
  q_replies : list (Op * Z * GetReply)
}.

(** The handlers of a server are gone when it crashes. *)
Definition drop_requests (i : Z) (q : requests) : requests :=
  mkRequests (filter (λ x, x.1.1 ≠ i) (q_started q)) (filter (λ x, x.1.1.1 ≠ i) (q_waiting q))
    (filter (λ x, x.1.1 ≠ i) (q_finished q)) (q_replies q).

Definition add_reply (x : Op * Z * GetReply) (q : requests) : requests :=
  mkRequests (q_started q) (q_waiting q) (q_finished q) (x :: q_replies q).

Record kworld := mkKWorld {
  k_rsm : rworld (C:=Op) (S:=KVServer);
  k_clients : clients;
  k_requests : requests
}.

Definition with_server (R : rworld (C:=Op) (S:=KVServer)) (i : Z) (kv : KVServer) : rworld :=
  mkRWorld (r_group R) (<[i := kv]> (r_server R)) (r_batch R).

Section world.
Context `{HK : Codec kv_state} `{HC : Codec (Z * Z * list (Raft.LogEntry Op) * Z * Z)}.
Context (n : Z).
Implicit Types (W : kworld).

Inductive kstep : kworld → kworld → Prop :=
| ks_system W R' :                         (* the peers and the appliers *)
    rstep n (k_rsm W) R' → kstep W (mkKWorld R' (k_clients W) (k_requests W))
| ks_crash W i rf maxraftstate now rf' kv' :   (* a machine restarts from its storage *)
    g_peer (r_group (k_rsm W)) !! i = Some rf →
    StartKVServer n i (Raft.persister rf) maxraftstate now = (rf', kv') →
    kstep W (mkKWorld (mkRWorld (set_peer (r_group (k_rsm W)) i rf') (<[i := kv']> (r_server (k_rsm W)))
      (delete i (r_batch (k_rsm W)))) (k_clients W) (drop_requests i (k_requests W)))
| ks_call W c ck r :                       (* a clerk starts an operation *)
    c_clerks (k_clients W) !! c = Some (ck, None) →
    kstep W (mkKWorld (k_rsm W)
      (mkClients (<[c := (ck, Some r)]> (c_clerks (k_clients W))) (clerk_op ck r :: c_calls (k_clients W))
         (c_now (k_clients W)) (<[c := c_now (k_clients W)]> (c_called (k_clients W))) (c_history (k_clients W)))
      (k_requests W))
| ks_refuse W i rf op :                    (* a call reaches a server that does not lead *)
    op ∈ c_calls (k_clients W) → g_peer (r_group (k_rsm W)) !! i = Some rf → (Raft.GetState rf).2 = false →
    kstep W (mkKWorld (k_rsm W) (k_clients W) (add_reply (op, i, wrong_leader) (k_requests W)))
| ks_start W i rf op rf' idx t lead :      (* a call reaches a server, which starts it *)
    op ∈ c_calls (k_clients W) → g_peer (r_group (k_rsm W)) !! i = Some rf →
    Raft.Start rf op = Ret (rf', (idx, t, lead)) →
    kstep W (mkKWorld
      (mkRWorld (set_peer (r_group (k_rsm W)) i rf') (r_server (k_rsm W)) (r_batch (k_rsm W))) (k_clients W)
      (if lead : bool
       then mkRequests ((i, op, idx) :: q_started (k_requests W)) (q_waiting (k_requests W))
              (q_finished (k_requests W)) (q_replies (k_requests W))
       else add_reply (op, i, wrong_leader) (k_requests W)))
| ks_wait W l1 l2 i op idx kv kv' ch :     (* the handler gets its channel *)
    q_started (k_requests W) = l1 ++ (i, op, idx) :: l2 → r_server (k_rsm W) !! i = Some kv →
    getWaitCh kv idx = (kv', ch) →
    kstep W (mkKWorld (with_server (k_rsm W) i kv') (k_clients W)
      (mkRequests (l1 ++ l2) ((i, op, idx, ch) :: q_waiting (k_requests W)) (q_finished (k_requests W))
         (q_replies (k_requests W))))
| ks_receive W l1 l2 i op idx ch kv w v :  (* its channel is ready *)
    q_waiting (k_requests W) = l1 ++ (i, op, idx, ch) :: l2 → r_server (k_rsm W) !! i = Some kv →
    chan_recv (waitChan kv) ch = (w, v) → v ≠ RBlocked →
    kstep W (mkKWorld (with_server (k_rsm W) i (set_waitChan w kv)) (k_clients W)
      (mkRequests (q_started (k_requests W)) (l1 ++ l2) ((i, idx, ch) :: q_finished (k_requests W))
         ((op, i, request_end op (WReceived v)) :: q_replies (k_requests W))))
| ks_timeout W l1 l2 i op idx ch :         (* or its timer fires *)
    q_waiting (k_requests W) = l1 ++ (i, op, idx, ch) :: l2 →
    kstep W (mkKWorld (k_rsm W) (k_clients W)
      (mkRequests (q_started (k_requests W)) (l1 ++ l2) ((i, idx, ch) :: q_finished (k_requests W))
         ((op, i, request_end op WTimeout) :: q_replies (k_requests W))))
| ks_cleanup W l1 l2 i idx ch kv kv' :
    q_finished (k_requests W) = l1 ++ (i, idx, ch) :: l2 → r_server (k_rsm W) !! i = Some kv →
    request_cleanup kv idx ch = Ret kv' →
    kstep W (mkKWorld (with_server (k_rsm W) i kv') (k_clients W)
      (mkRequests (q_started (k_requests W)) (q_waiting (k_requests W)) (l1 ++ l2) (q_replies (k_requests W))))
| ks_reply W c ck r t0 server reply lastErr ck' res :   (* the attempt of a clerk ends *)
    c_clerks (k_clients W) !! c = Some (ck, Some r) → c_called (k_clients W) !! c = Some t0 →
    match reply with
    | Some rep => (clerk_op ck r, server, rep) ∈ q_replies (k_requests W)
    | None => True
    end →
    clerk_attempt ck r lastErr server reply = (ck', res) →
    kstep W (mkKWorld (k_rsm W)
      (match res with
       | inl value =>
           mkClients (<[c := (ck', None)]> (c_clerks (k_clients W))) (c_calls (k_clients W)) (c_now (k_clients W))
             (c_called (k_clients W))
             (recorded c (clerk_op ck r) t0 value (c_now (k_clients W)) :: c_history (k_clients W))
       | inr _ =>
           mkClients (<[c := (ck', Some r)]> (c_clerks (k_clients W))) (c_calls (k_clients W))
             (c_now (k_clients W)) (c_called (k_clients W)) (c_history (k_clients W))
       end) (k_requests W))
| ks_tick W now :
    c_now (k_clients W) ≤ now →
    kstep W (mkKWorld (k_rsm W) (mkClients (c_clerks (k_clients W)) (c_calls (k_clients W)) now
      (c_called (k_clients W)) (c_history (k_clients W))) (k_requests W)).

Definition kworld_init W : Prop :=
  rworld_init n (k_rsm W) ∧
  (∀ i kv, r_server (k_rsm W) !! i = Some kv → kv_replica_made [] kv) ∧
  (∀ c ck o, c_clerks (k_clients W) !! c = Some (ck, o) → o = None ∧ ∃ m, ck = MakeClerk m c) ∧
  c_calls (k_clients W) = [] ∧ c_history (k_clients W) = [] ∧ k_requests W = mkRequests [] [] [] [].

Definition kreach W : Prop := ∃ W0, kworld_init W0 ∧ rtc kstep W0 W.

(** ** The invariant *)
Notation hist := (RaftHistory.hist (C:=Op)).
Implicit Types (H : hist).
Context (Hn : 0 ≤ n).

(** An operation is executed at a committed entry, with this result. *)
Definition executed H (op : Op) (value : string) : Prop :=
  ∃ e k w, entry_of n H k e ∧ Raft.le_Command e = Some op ∧ at_index n H (k - 1) w ∧
    (Optype op = "Get" → value = map_get "" w.1 (Key op)).

(** What an applier puts on a channel. *)
Definition applied H (v : Op) : Prop :=
  ∃ e k w, entry_of n H k e ∧ at_index n H (k - 1) w ∧
    v = (execute (kv_with w) (default zeroOp (Raft.le_Command e))).2.

Definition buffered (kv : KVServer) (v : Op) : Prop :=
  ∃ ch b, wr_heap (waitChan kv) !! ch = Some (mkChan (Some v) b).

Definition buffers_ok H (R : rworld (C:=Op) (S:=KVServer)) : Prop :=
  ∀ i kv v, r_server R !! i = Some kv → buffered kv v → applied H v.

Record requests_ok H (calls : list Op) (q : requests) : Prop := {
  ro_started : ∀ i op idx, (i, op, idx) ∈ q_started q → op ∈ calls;
  ro_waiting : ∀ i op idx ch, (i, op, idx, ch) ∈ q_waiting q → op ∈ calls;
  ro_replies : ∀ op server rep, (op, server, rep) ∈ q_replies q →
    gr_Err rep = ErrWrongLeader ∨ gr_Err rep = OK ∧ executed H op (gr_Value rep)
}.

Definition from_calls (calls : list Op) (c : option Op) : Prop := ∃ op, c = Some op ∧ op ∈ calls.

(** The timeline the clients see, over a log. *)
Definition line_of (c : clients) (log : list Op) (D : list (nat * kvOp)) : timeline :=
  mkTimeline (mkHistory (c_clerks c) (c_calls c) log) (c_now c) (c_called c) D.

Record kinv W H (V : Z → list (Raft.LogEntry Op)) (l : list (Raft.LogEntry Op)) (D : list (nat * kvOp)) : Prop := {
  ki_rsm : rinv n (k_rsm W) H V;
  ki_log : ∃ T, safe_log n H T l;
  ki_commands : commands_in (from_calls (c_calls (k_clients W))) H;
  ki_line : treach (line_of (k_clients W) (ops_of l) D);
  ki_history : D.*2 = c_history (k_clients W);
  ki_buffers : buffers_ok H (k_rsm W);
  ki_requests : requests_ok H (c_calls (k_clients W)) (k_requests W)
}.

Lemma executed_grows tm H H' op value : grows tm H H' → executed H op value → executed H' op value.
Proof using Type.
  intros Hg (e & k & w & ? & ? & ? & ?). exists e, k, w.
  split_and!; [by eapply entry_of_grows|done|by eapply at_index_grows|done].
Qed.

Lemma applied_grows tm H H' v : grows tm H H' → applied H v → applied H' v.
Proof using Type.
  intros Hg (e & k & w & ? & ? & ?). exists e, k, w.
  split_and!; [by eapply entry_of_grows|by eapply at_index_grows|done].
Qed.

Lemma requests_ok_grows tm H H' calls q : grows tm H H' → requests_ok H calls q → requests_ok H' calls q.
Proof using Type.
  intros Hg [Hs Hw Hr]. split; [done..|]. intros op server rep [?|[? ?]]%Hr; [by left|right].
  split; [done|]. by eapply executed_grows.
Qed.

(** The timeline goes on as entries are committed. *)
Lemma line_extends c l l' D :
  treach (line_of c (ops_of l) D) → l `prefix_of` l' →
  (∀ e, e ∈ l' → from_calls (c_calls c) (Raft.le_Command e)) → treach (line_of c (ops_of l') D).
Proof using Type.
  intros Hl [r ->]. induction r as [|e r IH] using rev_ind; intros Hin; [by rewrite app_nil_r|].
  assert (treach (line_of c (ops_of (l ++ r)) D)) as Hr.
  { apply IH. intros x Hx. apply Hin. rewrite app_assoc. apply elem_of_app. by left. }
  destruct (Hin e) as (op & He & Hop); [rewrite app_assoc; apply elem_of_app; right; by left|].
  rewrite app_assoc. unfold ops_of. rewrite fmap_app. simpl. rewrite He. simpl.
  exact (tr_step _ _ Hr (ts_log (line_of c (ops_of (l ++ r)) D) op Hop)).
Qed.

Lemma kinv_extend W H V l D l' T :
  kinv W H V l D → safe_log n H T l' → l `prefix_of` l' → kinv W H V l' D.
Proof using Type.
  intros [Hr Hl Hc Ht Hd Hb Hq] Hs Hp. split; try done; [by exists T|]. eapply line_extends; [done..|].
  eapply safe_commands; [done|]. exact Hc.
Qed.
(** ** The channels *)
Lemma applyHandler_buffer (rf rf' : Raft.Raft Op) kv kv' m v :
  applyHandler rf kv m = Ret (rf', kv') → buffered kv' v → buffered kv v ∨
    (negb (CommandValid m) && SnapshotValid m = false ∧ lastIncludedIndex kv < CommandIndex m ∧
     v = (execute kv (default zeroOp (Command m))).2).
Proof using Type.
  unfold applyHandler. intros Hr (ch & b & Hb). destruct (negb (CommandValid m) && SnapshotValid m) eqn:Hm.
  - inv_bind Hr. destruct x as [rf1 ok]. destruct ok; simpl in Hr; injection Hr as <- <-; left; [|by exists ch, b].
    unfold readServerPersistData in Hb. case_test_in Hb; [by exists ch, b|].
    by destruct (gob_decode (Snapshot m)) as [[? ?]|]; exists ch, b.
  - case_test_in Hr; [injection Hr as <- <-; left; by exists ch, b|].
    destruct (execute_static kv (default zeroOp (Command m))) as (_ & Hw & _).
    destruct (execute kv (default zeroOp (Command m))) as [kv1 op1]. simpl in *. do 2 inv_bind Hr.
    injection Hr as <- <-. rewrite Hw in Hb1.
    destruct (wait_notify_buffer _ _ _ _ _ _ _ Hb1 Hb) as [[b' ?]| ->]; [left; by exists ch, b'|right].
    split_and!; [done|lia|done].
Qed.

(** The steps of the peers and of the appliers fill channels with executed
    operations. *)
Lemma rstep_buffers R R' H V : rinv n R H V → rstep n R R' → buffers_ok H R → buffers_ok H R'.
Proof using Hn.
  intros Hinv Hstep Hok.
  destruct Hstep as [R G' Hp|R i rf msgs c Hi Hb Ht|R i rf s m ms c rf' s' Hi Hs Hb Hr|R i rf c Hi Hb|
    R i rf s lit lii data rf' s' Hin Hi Hs Hr|R i rf Hi]; try done;
    intros j kv v; simpl; intros [[<- <-]|[_ Hj]]%lookup_insert_Some Hbuf; try by eapply Hok.
  - destruct (next_message n _ _ _ _ _ _ _ _ _ Hinv Hi Hs Hb) as (e & k & -> & He & _ & _ & Hex & _).
    destruct (applyHandler_buffer _ _ _ _ _ _ Hr Hbuf) as [?|(_ & Hlt & ->)]; [by eapply Hok|].
    simpl in Hlt. exists e, k, (kv_view s). split_and!; [done|by apply Hex|].
    simpl. apply execute_view. by rewrite kv_with_view.
  - destruct (applyHandler_buffer _ _ _ _ _ _ Hr Hbuf) as [?|(Hm & _)]; [by eapply Hok|done].
Qed.

Lemma kinv_system W R' H V l D :
  kinv W H V l D → rstep n (k_rsm W) R' →
  ∃ H' V', kinv (mkKWorld R' (k_clients W) (k_requests W)) H' V' l D.
Proof using Hn.
  intros [Hr [T Hl] Hc Ht Hd Hb Hq] Hstep. destruct (rstep_inv n Hn _ _ _ _ Hr (λ _ _ _, I) Hstep) as (H' & V' & Hr' & [Hg Hcmd]).
  exists H', V'. split; simpl; try done.
  - exists T. by eapply safe_grows.
  - by apply (Hcmd (from_calls _)).
  - intros i kv v Hi Hv. eapply applied_grows; [exact Hg|]. by apply (rstep_buffers _ _ _ _ Hr Hstep Hb i kv).
  - by eapply requests_ok_grows.
Qed.

(** ** Crashes *)
Lemma requests_ok_drop H calls i q : requests_ok H calls q → requests_ok H calls (drop_requests i q).
Proof using Type.
  intros [Hs Hw Hr]. split; simpl; [..|done].
  - intros j op idx [_ ?]%list_elem_of_filter. by eapply Hs.
  - intros j op idx ch [_ ?]%list_elem_of_filter. by eapply Hw.
Qed.

Lemma made_empty data kv v : kv_replica_made data kv → ¬ buffered kv v.
Proof using Type.
  intros (ps & np & id & m & now & _ & ->) (ch & b & Hb). unfold StartKVServer in Hb. simpl in Hb.
  case_test_in Hb; [|done]. unfold readServerPersistData in Hb. case_test_in Hb; [done|].
  by destruct (gob_decode _) as [[? ?]|].
Qed.

Lemma kinv_crash W H V l D i rf m now rf' kv' :
  kinv W H V l D → g_peer (r_group (k_rsm W)) !! i = Some rf →
  StartKVServer n i (Raft.persister rf) m now = (rf', kv') →
  ∃ V', kinv (mkKWorld (mkRWorld (set_peer (r_group (k_rsm W)) i rf') (<[i := kv']> (r_server (k_rsm W)))
      (delete i (r_batch (k_rsm W)))) (k_clients W) (drop_requests i (k_requests W))) H V' l D.
Proof using Type.
  intros [Hr Hl Hc Ht Hd Hb Hq] Hi Hs.
  assert (kv_replica_made (ReadSnapshot (Raft.persister rf)) kv') as Hm.
  { exists (Raft.persister rf), n, i, m, now. by rewrite Hs. }
  destruct (rinv_crash n _ _ _ _ _ kv' now Hr Hi Hm) as [V' Hr']. exists V'.
  assert (rf' = Raft.Make n i (Raft.persister rf) now) as -> by (unfold StartKVServer in Hs; congruence).
  split; simpl; try done; [|by apply requests_ok_drop].
  intros j kv v. simpl. intros [[<- <-]|[_ Hj]]%lookup_insert_Some Hbuf; [by destruct (made_empty _ _ _ Hm Hbuf)|by eapply Hb].
Qed.

(** ** Requests *)
Lemma kinv_local W H V l D i kv kv' q' :
  kinv W H V l D → r_server (k_rsm W) !! i = Some kv → kv_view kv' = kv_view kv →
  lastIncludedIndex kv' = lastIncludedIndex kv → (∀ v, buffered kv' v → buffered kv v) →
  requests_ok H (c_calls (k_clients W)) q' →
  kinv (mkKWorld (with_server (k_rsm W) i kv') (k_clients W) q') H V l D.
Proof using Type.
  intros [Hr Hl Hc Ht Hd Hb Hq] Hi Hv HI Hbuf Hq'. split; simpl; try done; [by eapply rinv_local|].
  intros j kvj v. simpl. intros [[<- <-]|[_ Hj]]%lookup_insert_Some Hbj; [|by eapply Hb].
  eapply Hb; [done|]. by apply Hbuf.
Qed.

Lemma kinv_requests W H V l D q' :
  kinv W H V l D → requests_ok H (c_calls (k_clients W)) q' →
  kinv (mkKWorld (k_rsm W) (k_clients W) q') H V l D.
Proof using Type. intros [Hr Hl Hc Ht Hd Hb Hq] Hq'. by split. Qed.

Lemma execute_reply kv op : (execute kv op).2 = fill_value kv op.
Proof using Type.
  unfold execute, fill_value. rewrite !open_session_state. case_test; done.
Qed.

(** A request that is answered with [OK] was executed. *)
Lemma received_executed W H V l D op x :
  kinv W H V l D → op ∈ c_calls (k_clients W) → applied H x →
  let rep := request_end op (WReceived (RValue x)) in
  gr_Err rep = ErrWrongLeader ∨ gr_Err rep = OK ∧ executed H op (gr_Value rep).
Proof using Type.
  intros Hinv Hop (e & k & w & He & Hat & ->). pose proof (ki_line _ _ _ _ _ Hinv) as Ht%treach_inv.
  assert (∃ op0, Raft.le_Command e = Some op0 ∧ op0 ∈ c_calls (k_clients W)) as (op0 & Hcmd & Hop0).
  { destruct He as (p & T & Hp & _ & Hk). apply (safe_commands n H T p _ Hp (ki_commands _ _ _ _ _ Hinv)).
    by eapply list_elem_of_lookup_2. }
  rewrite Hcmd, execute_reply. simpl. destruct (fill_value_id (kv_with w) op0) as (Hid & _ & _ & _).
  destruct (decide (KVRaftSpec.op_id op0 = KVRaftSpec.op_id op)) as [Heq|Hne].
  - assert (op0 = op) as -> by exact (ti_inj _ Ht op0 op Hop0 Hop Heq). injection Hid as Hi1 Hi2.
    right. unfold request_end. case_bool_decide as Hg; simpl; rewrite Hi1, Hi2, !Z.eqb_refl; simpl;
      (split; [done|]); exists e, k, w; (split_and!; [done..|]); [|by intros].
    intros _. unfold fill_value. by rewrite bool_decide_eq_true_2.
  - left. rewrite <- Hid in Hne. clear Hid. unfold request_end. case_bool_decide as Hg; simpl;
      (destruct (Z.eqb_spec (SeqNum (fill_value (kv_with w) op0)) (SeqNum op)) as [Hs|]; [|done]);
      (destruct (Z.eqb_spec (ClientID (fill_value (kv_with w) op0)) (ClientID op)) as [Hcl|]; [|done]);
      destruct Hne; unfold KVRaftSpec.op_id; congruence.
Qed.

Lemma kinv_start W H V l D i rf op rf' idx t lead :
  kinv W H V l D → op ∈ c_calls (k_clients W) → g_peer (r_group (k_rsm W)) !! i = Some rf →
  Raft.Start rf op = Ret (rf', (idx, t, lead)) → ∀ q',
  (∀ H', requests_ok H' (c_calls (k_clients W)) (k_requests W) → requests_ok H' (c_calls (k_clients W)) q') →
  ∃ H' V', kinv (mkKWorld (mkRWorld (set_peer (r_group (k_rsm W)) i rf') (r_server (k_rsm W))
    (r_batch (k_rsm W))) (k_clients W) q') H' V' l D.
Proof using Hn.
  intros [Hr [T Hl] Hc Ht Hd Hb Hq] Hop Hi Hs q' Hq'.
  destruct (rinv_start n Hn _ _ _ _ _ _ _ _ Hr Hi Hs) as (H' & V' & Hr' & [Hg Hcmd]).
  exists H', V'. split; simpl; try done.
  - exists T. by eapply safe_grows.
  - apply (Hcmd (from_calls _)); [|done]. intros c ->. by exists op.
  - intros j kv v Hj Hv. eapply applied_grows; [exact Hg|]. by eapply Hb.
  - apply Hq'. by eapply requests_ok_grows.
Qed.

(** ** Clients *)

(** An executed operation has its place in the log. *)
Lemma executed_effect T op value :
  treach T → op ∈ h_calls (t_hist T) → ∀ k, h_log (t_hist T) !! k = Some op →
  (Optype op = "Get" → value = map_get "" (kv_spec (take k (h_log (t_hist T)))) (Key op)) →
  ∃ k', effect_at (h_log (t_hist T)) k' op value.
Proof using Type.
  intros HT Hop k Hk Hget. pose proof (hreach_inv _ (treach_hreach _ HT)) as Hh. pose proof (treach_inv _ HT) as Ht.
  unfold effect_at. case_bool_decide as Hg; [exists k; split; [done|by apply Hget]|].
  destruct (list_find (λ x, KVRaftSpec.op_id x = KVRaftSpec.op_id op) (h_log (t_hist T))) as [[j x]|] eqn:Hf.
  - apply list_find_Some in Hf as (Hj & Hid & Hfirst). exists j.
    assert (x = op) as ->.
    { apply (ti_inj _ Ht); [|done..]. apply (hi_log _ Hh). by eapply list_elem_of_lookup_2. }
    split; [done|]. intros (y & (i & [Hi Hlt]%lookup_take_Some)%list_elem_of_lookup & Hy)%elem_of_op_ids.
    by apply (Hfirst i y).
  - apply list_find_None in Hf. rewrite Forall_lookup in Hf. by destruct (Hf k op Hk).
Qed.

(** The state the log leads to is the reference map. *)
Lemma run_spec (l r : list (Raft.LogEntry Op)) :
  client_ordered (ops_of (l ++ r)) → (rsm_run l).1 = kv_spec (ops_of l).
Proof using Type.
  intros Ho. rewrite kv_run_ops. apply apply_ops_spec. intros l1 op l2 E.
  apply (Ho l1 op (l2 ++ ops_of r)). unfold ops_of in *. by rewrite fmap_app, E, <- app_assoc.
Qed.

Lemma kinv_effect W H V l D op value :
  kinv W H V l D → op ∈ c_calls (k_clients W) → executed H op value →
  ∃ l' k, kinv W H V l' D ∧ effect_at (ops_of l') k op value.
Proof using Hn.
  intros Hinv Hop (e & k & w & (p & T & Hp & Hk1 & Hpk) & Hcmd & Hat & Hval).
  pose proof (gi_hist _ _ _ _ (ri_group _ _ _ _ (ki_rsm _ _ _ _ _ Hinv))) as Ho.
  destruct (ki_log _ _ _ _ _ Hinv) as [T0 Hl].
  assert (∃ l', kinv W H V l' D ∧ l' !! Z.to_nat (k - 1) = Some e) as (l' & Hinv' & Hl'k).
  { destruct (safe_comparable n Hn _ H _ _ _ _ Ho Hp Hl) as [Hpl|Hlp].
    - exists l. split; [done|]. by eapply prefix_lookup_Some.
    - exists p. split; [|done]. by eapply kinv_extend. }
  clear dependent l p. destruct (ki_log _ _ _ _ _ Hinv') as [T1 Hl]. exists l'.
  pose proof (ki_line _ _ _ _ _ Hinv') as Ht. pose proof (hreach_inv _ (treach_hreach _ Ht)) as Hh.
  pose proof (lookup_lt_Some _ _ _ Hl'k) as Hlt.
  destruct (executed_effect _ op value Ht Hop (Z.to_nat (k - 1))) as [k' Hk']; [| |by exists k'].
  - simpl. unfold ops_of. rewrite list_lookup_fmap, Hl'k. simpl. by rewrite Hcmd.
  - intros Hg. rewrite (Hval Hg). simpl. f_equal.
    rewrite (at_index_log n Hn _ H T1 l' (k - 1) w Ho Hl) by (done || unfold zlen; lia).
    unfold ops_of. rewrite <- fmap_take. apply (run_spec _ (drop (Z.to_nat (k - 1)) l')).
    rewrite take_drop. apply Hh.
Qed.

Lemma kinv_call W H V l D c ck r :
  kinv W H V l D → c_clerks (k_clients W) !! c = Some (ck, None) →
  kinv (mkKWorld (k_rsm W)
    (mkClients (<[c := (ck, Some r)]> (c_clerks (k_clients W))) (clerk_op ck r :: c_calls (k_clients W))
       (c_now (k_clients W)) (<[c := c_now (k_clients W)]> (c_called (k_clients W))) (c_history (k_clients W)))
    (k_requests W)) H V l D.
Proof using Type.
  intros [Hr Hl Hc Ht Hd Hb [Hs Hw Hre]] Hck. split; simpl; try done.
  - intros T L e HL He. destruct (Hc T L e HL He) as (op & ? & ?). exists op. split; [done|by right].
  - exact (tr_step _ _ Ht (ts_call (line_of (k_clients W) (ops_of l) D) c ck r Hck)).
  - split; simpl; [..|done]; intros; right; eauto.
Qed.

Lemma clerk_attempt_failed ck r lastErr server reply ck' res :
  (∀ rep, reply = Some rep → gr_Err rep = ErrWrongLeader) →
  clerk_attempt ck r lastErr server reply = (ck', res) → ck' = ck ∧ ∃ b, res = inr b.
Proof using Type.
  intros Hrep. destruct reply as [rep|]; [specialize (Hrep rep eq_refl)|]; destruct r; simpl; rewrite ?Hrep;
    intros [= <- <-]; eauto.
Qed.

Lemma clerk_attempt_ok ck r lastErr server rep ck' res :
  gr_Err rep = OK → clerk_attempt ck r lastErr server (Some rep) = (ck', res) →
  ∃ value, res = inl value ∧ ck' = clerk_answered ck r server value ∧
    (Optype (clerk_op ck r) = "Get" → value = gr_Value rep).
Proof using Type.
  intros Hrep. destruct r; simpl; unfold Clerk_Get_attempt, Clerk_PutAppend_attempt; simpl; rewrite Hrep; simpl;
    intros [= <- <-]; by eexists.
Qed.

Lemma kinv_reply W H V l D c ck r t0 server reply lastErr ck' res :
  kinv W H V l D → c_clerks (k_clients W) !! c = Some (ck, Some r) → c_called (k_clients W) !! c = Some t0 →
  match reply with Some rep => (clerk_op ck r, server, rep) ∈ q_replies (k_requests W) | None => True end →
  clerk_attempt ck r lastErr server reply = (ck', res) →
  ∃ l' D', kinv (mkKWorld (k_rsm W)
      (match res with
       | inl value =>
           mkClients (<[c := (ck', None)]> (c_clerks (k_clients W))) (c_calls (k_clients W)) (c_now (k_clients W))
             (c_called (k_clients W))
             (recorded c (clerk_op ck r) t0 value (c_now (k_clients W)) :: c_history (k_clients W))
       | inr _ =>
           mkClients (<[c := (ck', Some r)]> (c_clerks (k_clients W))) (c_calls (k_clients W))
             (c_now (k_clients W)) (c_called (k_clients W)) (c_history (k_clients W))
       end) (k_requests W)) H V l' D'.
Proof using Hn.
  intros Hinv Hc Ht0 Hin Hatt.
  assert ((∀ rep, reply = Some rep → gr_Err rep = ErrWrongLeader) ∨
    ∃ rep, reply = Some rep ∧ gr_Err rep = OK ∧ executed H (clerk_op ck r) (gr_Value rep)) as [Hf|(rep & -> & Hok & Hex)].
  { destruct reply as [rep|]; [|by left]. destruct (ro_replies _ _ _ (ki_requests _ _ _ _ _ Hinv) _ _ _ Hin) as [Hw|[? ?]];
      [left; by intros ? [= <-]|right; by exists rep]. }
  - destruct (clerk_attempt_failed _ _ _ _ _ _ _ Hf Hatt) as (-> & b & ->). exists l, D.
    rewrite insert_id by done. destruct W as [R [] q], Hinv. by split.
  - destruct (clerk_attempt_ok _ _ _ _ _ _ _ Hok Hatt) as (value & -> & -> & Hval).
    pose proof (treach_inv _ (ki_line _ _ _ _ _ Hinv)) as Hti.
    assert (clerk_op ck r ∈ c_calls (k_clients W)) as Hop.
    { destruct Hex as (e & k & w & (p & T & Hp & _ & Hk) & Hcmd & _).
      destruct (safe_commands n H T p _ Hp (ki_commands _ _ _ _ _ Hinv) e) as (op & ? & ?);
        [by eapply list_elem_of_lookup_2|]. congruence. }
    assert (executed H (clerk_op ck r) value) as Hex'.
    { destruct Hex as (e & k & w & ? & ? & ? & Hv). exists e, k, w. split_and!; [done..|].
      intros Hg. rewrite Hval by done. by apply Hv. }
    destruct (kinv_effect W H V l D _ _ Hinv Hop Hex') as (l' & k & [Hr Hl Hcm Ht Hd Hb Hq] & Heff).
    exists l', ((k, recorded c (clerk_op ck r) t0 value (c_now (k_clients W))) :: D). split; simpl; try done.
    + exact (tr_step _ _ Ht (ts_return (line_of (k_clients W) (ops_of l') D) c ck r server value t0 k Hc Ht0 Heff)).
    + by f_equal.
Qed.

(** ** Every step keeps the invariant *)
Lemma requests_ok_reply H calls op server rep q :
  gr_Err rep = ErrWrongLeader ∨ gr_Err rep = OK ∧ executed H op (gr_Value rep) →
  requests_ok H calls q → requests_ok H calls (add_reply (op, server, rep) q).
Proof using Type.
  intros Hrep [Hs Hw Hr]. split; simpl; [done..|]. intros op' server' rep' [[= -> -> ->]|?]%elem_of_cons; [done|].
  by eapply Hr.
Qed.

(** A request that waited is answered. *)
Lemma requests_ok_answered H calls l1 l2 i op idx ch rep q :
  q_waiting q = l1 ++ (i, op, idx, ch) :: l2 →
  gr_Err rep = ErrWrongLeader ∨ gr_Err rep = OK ∧ executed H op (gr_Value rep) →
  requests_ok H calls q →
  requests_ok H calls (mkRequests (q_started q) (l1 ++ l2) ((i, idx, ch) :: q_finished q) ((op, i, rep) :: q_replies q)).
Proof using Type.
  intros Hq Hrep [Hs Hw Hr]. split; simpl; [done|..].
  - intros j op' idx' ch' Hin. apply (Hw j op' idx' ch'). rewrite Hq. rewrite elem_of_app, elem_of_cons.
    apply elem_of_app in Hin as [?|?]; auto.
  - intros op' server' rep' [[= -> -> ->]|?]%elem_of_cons; [done|]. by eapply Hr.
Qed.

Lemma kinv_wait W H V l D l1 l2 i op idx kv kv' ch :
  kinv W H V l D → q_started (k_requests W) = l1 ++ (i, op, idx) :: l2 → r_server (k_rsm W) !! i = Some kv →
  getWaitCh kv idx = (kv', ch) →
  kinv (mkKWorld (with_server (k_rsm W) i kv') (k_clients W)
    (mkRequests (l1 ++ l2) ((i, op, idx, ch) :: q_waiting (k_requests W)) (q_finished (k_requests W))
       (q_replies (k_requests W)))) H V l D.
Proof using Type.
  intros Hinv Hw Hi Hg. destruct (ki_requests _ _ _ _ _ Hinv) as [Hqs Hqw Hqr]. rewrite Hw in Hqs. unfold getWaitCh in Hg.
  destruct (wait_get (waitChan kv) idx) as [w c] eqn:Hwg. injection Hg as <- <-.
  eapply kinv_local; try done; [|split; simpl; [..|done]].
  - intros v (ch & b & Hb). exists ch, b. unfold wait_get in Hwg. simpl in Hb.
    destruct (wr_map (waitChan kv) !! idx); injection Hwg as <- <-; [done|]. simpl in Hb.
    by apply lookup_insert_Some in Hb as [[_ [=]]|[_ ?]].
  - intros j op' idx' Hin. by apply (Hqs j op' idx'), elem_of_middle.
  - intros j op' idx' ch' [[= -> -> -> ->]|?]%elem_of_cons; [|by eapply Hqw]. apply (Hqs i op idx), elem_of_here.
Qed.

Lemma kinv_receive W H V l D l1 l2 i op idx ch kv w v :
  kinv W H V l D → q_waiting (k_requests W) = l1 ++ (i, op, idx, ch) :: l2 → r_server (k_rsm W) !! i = Some kv →
  chan_recv (waitChan kv) ch = (w, v) → v ≠ RBlocked →
  kinv (mkKWorld (with_server (k_rsm W) i (set_waitChan w kv)) (k_clients W)
    (mkRequests (q_started (k_requests W)) (l1 ++ l2) ((i, idx, ch) :: q_finished (k_requests W))
       ((op, i, request_end op (WReceived v)) :: q_replies (k_requests W)))) H V l D.
Proof using Type.
  intros Hinv Hw Hi Hre Hv. pose proof (ki_requests _ _ _ _ _ Hinv) as Hq.
  assert (op ∈ c_calls (k_clients W)) as Hop.
  { apply (ro_waiting _ _ _ Hq i op idx ch). rewrite Hw. apply elem_of_here. }
  unfold chan_recv in Hre. destruct (wr_heap (waitChan kv) !! ch) as [[[x|] b]|] eqn:Hch; simpl in Hre;
    injection Hre as <- <-; [| |done]; (eapply kinv_local; try done).
  - intros v (ch' & b' & Hb). simpl in Hb. apply lookup_insert_Some in Hb as [[_ [=]]|[_ ?]]. by exists ch', b'.
  - apply requests_ok_answered; [done| |done]. eapply received_executed; [done..|].
    eapply (ki_buffers _ _ _ _ _ Hinv); [done|]. by exists ch, b.
  - apply requests_ok_answered; [done| |done]. left. unfold request_end. destruct b; [|done]. by case_bool_decide.
Qed.

Lemma kinv_cleanup W H V l D l1 l2 i idx ch kv kv' :
  kinv W H V l D → q_finished (k_requests W) = l1 ++ (i, idx, ch) :: l2 → r_server (k_rsm W) !! i = Some kv →
  request_cleanup kv idx ch = Ret kv' →
  kinv (mkKWorld (with_server (k_rsm W) i kv') (k_clients W)
    (mkRequests (q_started (k_requests W)) (q_waiting (k_requests W)) (l1 ++ l2) (q_replies (k_requests W)))) H V l D.
Proof using Type.
  intros Hinv Hf Hi Hcl. destruct (ki_requests _ _ _ _ _ Hinv) as [Hqs Hqw Hqr].
  unfold request_cleanup in Hcl. inv_bind Hcl. injection Hcl as <-.
  eapply kinv_local; try done. intros v (ch' & b' & Hb'). simpl in Hb'.
  unfold wait_release in Hb. destruct (wr_heap (waitChan kv) !! ch) as [[o cl]|] eqn:Hch.
  - simpl in Hb. destruct cl; [done|]. injection Hb as <-. simpl in Hb'.
    apply lookup_insert_Some in Hb' as [[<- [= -> <-]]|[_ ?]]; [by exists ch, false|by exists ch', b'].
  - injection Hb as <-. by exists ch', b'.
Qed.

Lemma kstep_inv W W' H V l D :
  kinv W H V l D → kstep W W' → ∃ H' V' l' D', kinv W' H' V' l' D'.
Proof using Hn.
  intros Hinv Hstep. pose proof (ki_requests _ _ _ _ _ Hinv) as Hq.
  destruct Hstep as [W R' Hst|W i rf m now rf' kv' Hi Hs|W c ck r Hc|W i rf op Hop Hi Hf|
    W i rf op rf' idx t lead Hop Hi Hs|W l1 l2 i op idx kv kv' ch Hw Hi Hg|
    W l1 l2 i op idx ch kv w v Hw Hi Hre Hv|W l1 l2 i op idx ch Hw|W l1 l2 i idx ch kv kv' Hf Hi Hcl|
    W c ck r t0 server reply lastErr ck' res Hc Ht0 Hin Hatt|W now Hnow].
  - destruct (kinv_system _ _ _ _ _ _ Hinv Hst) as (H' & V' & ?). by exists H', V', l, D.
  - destruct (kinv_crash _ _ _ _ _ _ _ _ _ _ _ Hinv Hi Hs) as (V' & ?). by exists H, V', l, D.
  - exists H, V, l, D. by apply kinv_call.
  - exists H, V, l, D. apply kinv_requests; [done|]. apply requests_ok_reply; [by left|done].
  - destruct (kinv_start _ _ _ _ _ _ _ _ _ _ _ _ Hinv Hop Hi Hs
      (if lead then mkRequests ((i, op, idx) :: q_started (k_requests W)) (q_waiting (k_requests W))
         (q_finished (k_requests W)) (q_replies (k_requests W)) else add_reply (op, i, wrong_leader) (k_requests W)))
      as (H' & V' & ?); [|by exists H', V', l, D].
    intros H' Hq'. destruct lead; [|by apply requests_ok_reply; [left|]]. destruct Hq' as [Hqs Hqw Hqr].
    split; simpl; try done. intros j op' idx' [[= -> -> ->]|?]%elem_of_cons; [done|by eapply Hqs].
  - exists H, V, l, D. by eapply kinv_wait.
  - exists H, V, l, D. by eapply kinv_receive.
  - exists H, V, l, D. apply kinv_requests; [done|]. apply requests_ok_answered; [done| |done].
    left. unfold request_end. by case_bool_decide.
  - exists H, V, l, D. by eapply kinv_cleanup.
  - destruct (kinv_reply _ _ _ _ _ _ _ _ _ _ _ _ _ _ Hinv Hc Ht0 Hin Hatt) as (l' & D' & ?). by exists H, V, l', D'.
  - exists H, V, l, D. destruct Hinv as [Hr Hl Hc Ht Hd Hb Hqq]. split; simpl; try done.
    exact (tr_step _ _ Ht (ts_tick (line_of (k_clients W) (ops_of l) D) now Hnow)).
Qed.

Lemma kreach_inv W : kreach W → ∃ H V l D, kinv W H V l D.
Proof using Hn.
  intros (W0 & (Hi & Hmade & Hcl & Hca & Hhi & Hq) & Hsteps). apply rtc_nsteps in Hsteps as [m Hsteps].
  assert (∃ H V l D, kinv W0 H V l D) as Hinv.
  { exists (mkHist ∅ ∅), (λ _, []), [], []. split; try done.
    - by apply rworld_init_inv.
    - exists 0. by left.
    - by apply tr_init.
    - intros i kv v Hs Hb. by destruct (made_empty _ _ _ (Hmade i kv Hs) Hb).
    - rewrite Hq. by split; [intros ? ? ? ?%elem_of_nil|intros ? ? ? ? ?%elem_of_nil|intros ? ? ? ?%elem_of_nil]. }
  clear -Hinv Hsteps Hn. induction Hsteps as [|m W0 W1 W2 Hst _ IH]; [done|].
  apply IH. destruct Hinv as (H & V & l & D & Hinv). by eapply kstep_inv.
Qed.
End world.
