(* ===== verification/KVService.v ===== *)
(** * The correctness of the key/value service

    [kexec] executes one chosen step of [KVGroup.kstep]; the sample run elects a
    leader of three servers, on which a clerk appends to a key and reads it back.
    The theorems: every run of the service refines the history of [KVRaftSpec], its
    histories are linearizable, and the check the test suites make of them never
    fails. *)

From S2P Require Import Prelude Persister Chan RaftApi Raft RaftLog RaftAppend RaftSteps RaftSpec RaftOps RaftElection RaftHistory RaftRep RaftGroup RaftGroupSteps RaftSafety Rsm RaftInstance.
From S2P Require Import Bitset Porcupine PorcupineList PorcupineSpec PorcupineSearch PorcupineCheck KvModel PorcupineOps PorcupinePar KVRaft KVRaftSpec KVLinear KVGroup RaftGroupRun RsmRun.
Import KVRaft.

(** ** Running the service *)
Section exec.
Context `{HK : Codec kv_state} `{HC : Codec (Z * Z * list (Raft.LogEntry Op) * Z * Z)}.
Context (n : Z).
Implicit Types (W : kworld) (R : rworld (C:=Op) (S:=KVServer)).

(** What happens next; calls, requests and replies are chosen by their position. *)
Inductive kaction :=
| KSystem (a : raction (C:=Op))
| KCrash (i maxraftstate now : Z)
| KCall (c : Z) (r : request)
| KRefuse (i : Z) (p : nat)
| KStart (i : Z) (p : nat)
| KWait (p : nat)
| KReceive (p : nat)
| KTimeout (p : nat)
| KCleanup (p : nat)
| KReply (c : Z) (p : nat) (lastErr : bool)
| KLost (c server : Z) (lastErr : bool)
| KTick (now : Z).

(** The end of an attempt of a clerk. *)
Definition creply (c : Z) (server : Z) (reply : option GetReply) (lastErr : bool) (cl : clients) : option clients :=
  '(ck, o) ← c_clerks cl !! c; r ← o; t0 ← c_called cl !! c;
  let '(ck', res) := clerk_attempt ck r lastErr server reply in
  Some (match res with
  | inl value =>
      mkClients (<[c := (ck', None)]> (c_clerks cl)) (c_calls cl) (c_now cl) (c_called cl)
        (recorded c (clerk_op ck r) t0 value (c_now cl) :: c_history cl)
  | inr _ => mkClients (<[c := (ck', Some r)]> (c_clerks cl)) (c_calls cl) (c_now cl) (c_called cl) (c_history cl)
  end).

Definition kexec (a : kaction) W : option kworld :=
  let '(mkKWorld R cl q) := W in
  match a with
  | KCrash i m now =>
      rf ← g_peer (r_group R) !! i;
      let '(rf', kv') := StartKVServer n i (Raft.persister rf) m now in
      Some (mkKWorld (mkRWorld (set_peer (r_group R) i rf') (<[i := kv']> (r_server R)) (delete i (r_batch R))) cl
        (drop_requests i q))
  | KCall c r =>
      '(ck, o) ← c_clerks cl !! c; guard (o = None);;
      Some (mkKWorld R (mkClients (<[c := (ck, Some r)]> (c_clerks cl)) (clerk_op ck r :: c_calls cl) (c_now cl)
        (<[c := c_now cl]> (c_called cl)) (c_history cl)) q)
  | KRefuse i p =>
      op ← c_calls cl !! p; rf ← g_peer (r_group R) !! i; guard ((Raft.GetState rf).2 = false);;
      Some (mkKWorld R cl (add_reply (op, i, wrong_leader) q))
  | KStart i p =>
      op ← c_calls cl !! p; rf ← g_peer (r_group R) !! i;
      '(rf', (idx, _, lead)) ← returned (Raft.Start rf op);
      Some (mkKWorld (mkRWorld (set_peer (r_group R) i rf') (r_server R) (r_batch R)) cl
        (if lead : bool
         then mkRequests ((i, op, idx) :: q_started q) (q_waiting q) (q_finished q) (q_replies q)
         else add_reply (op, i, wrong_leader) q))
  | KWait p =>
      '(i, op, idx) ← q_started q !! p; kv ← r_server R !! i;
      let '(kv', ch) := getWaitCh kv idx in
      Some (mkKWorld (with_server R i kv') cl
        (mkRequests (remove p (q_started q)) ((i, op, idx, ch) :: q_waiting q) (q_finished q) (q_replies q)))
  | KReceive p =>
      '(i, op, idx, ch) ← q_waiting q !! p; kv ← r_server R !! i;
      let '(w, v) := chan_recv (waitChan kv) ch in
      match v with
      | RBlocked => None
      | _ => Some (mkKWorld (with_server R i (set_waitChan w kv)) cl
          (mkRequests (q_started q) (remove p (q_waiting q)) ((i, idx, ch) :: q_finished q)
             ((op, i, request_end op (WReceived v)) :: q_replies q)))
      end
  | KTimeout p =>
      '(i, op, idx, ch) ← q_waiting q !! p;
      Some (mkKWorld R cl (mkRequests (q_started q) (remove p (q_waiting q)) ((i, idx, ch) :: q_finished q)
        ((op, i, request_end op WTimeout) :: q_replies q)))
  | KCleanup p =>
      '(i, idx, ch) ← q_finished q !! p; kv ← r_server R !! i; kv' ← returned (request_cleanup kv idx ch);
      Some (mkKWorld (with_server R i kv') cl
        (mkRequests (q_started q) (q_waiting q) (remove p (q_finished q)) (q_replies q)))
  | KReply c p lastErr =>
      '(op, server, rep) ← q_replies q !! p; '(ck, o) ← c_clerks cl !! c; r ← o;
      guard (op = clerk_op ck r);; cl' ← creply c server (Some rep) lastErr cl; Some (mkKWorld R cl' q)
  | KLost c server lastErr => cl' ← creply c server None lastErr cl; Some (mkKWorld R cl' q)
  | KTick now =>
      guard (c_now cl ≤ now);;
      Some (mkKWorld R (mkClients (c_clerks cl) (c_calls cl) now (c_called cl) (c_history cl)) q)
  | KSystem a => R' ← rexec n a R; Some (mkKWorld R' cl q)
  end.

Lemma creply_sound c server reply lastErr R cl cl' q :
  creply c server reply lastErr cl = Some cl' →
  (∀ ck r, c_clerks cl !! c = Some (ck, Some r) → ∀ rep, reply = Some rep →
     (clerk_op ck r, server, rep) ∈ q_replies q) →
  kstep n (mkKWorld R cl q) (mkKWorld R cl' q).
Proof.
  unfold creply. intros HC' Hin. exec_inv.
  eapply (ks_reply n (mkKWorld R cl q)); [done|done| |done]. destruct reply; [by eapply Hin|done].
Qed.

Lemma kexec_sound a W W' : kexec a W = Some W' → kstep n W W'.
Proof.
  destruct W as [R cl q]. destruct a; cbn [kexec]; intros HW; exec_inv.
  - by eapply (ks_system n (mkKWorld R cl q)), rexec_sound.
  - by eapply (ks_crash n (mkKWorld R cl q)).
  - by apply (ks_call n (mkKWorld R cl q)).
  - eapply (ks_refuse n (mkKWorld R cl q)); [by eapply list_elem_of_lookup_2|done..].
  - eapply (ks_start n (mkKWorld R cl q)); [by eapply list_elem_of_lookup_2|done..].
  - eapply (ks_wait n (mkKWorld R cl q)); [by apply remove_middle|done..].
  - destruct r; [done|exec_inv..]; (eapply (ks_receive n (mkKWorld R cl q)); [by apply remove_middle|done..]).
  - eapply (ks_timeout n (mkKWorld R cl q)). by apply remove_middle.
  - eapply (ks_cleanup n (mkKWorld R cl q)); [by apply remove_middle|done..].
  - eapply creply_sound; [done|]. intros ck r Hc rep [= <-]. simplify_eq. by eapply list_elem_of_lookup_2.
  - by eapply creply_sound.
  - by apply (ks_tick n (mkKWorld R cl q)).
Qed.

Fixpoint kexecs (l : list kaction) W : option kworld :=
  match l with
  | [] => Some W
  | a :: l' => W' ← kexec a W; kexecs l' W'
  end.

Lemma kexecs_sound l W W' : kexecs l W = Some W' → rtc (kstep n) W W'.
Proof.
  revert W. induction l as [|a l IH]; intros W; simpl; [by intros [= ->]|].
  intros (W1 & H1%kexec_sound & H2%IH)%bind_Some. by eapply rtc_l.
Qed.
End exec.

(** ** A sample run *)
Definition kserver0 (i : Z) : KVServer := (StartKVServer 3 i MakePersister (-1) 0).2.

(** Three servers and one clerk. *)
Definition kservice3 : kworld :=
  mkKWorld (rworld3 kserver0)
    (mkClients {[7 := (MakeClerk 3 7, None)]} [] 0 ∅ []) (mkRequests [] [] [] []).

(** Server 0 is elected; it executes the append of clerk 7, and then its get. *)
Definition krun_append : list kaction :=
  [KTick 10; KCall 7 (RAppend "k" "v"); KRefuse 0 0; KReply 7 0 false;
   KSystem (RPeers (ATick 0 1000 300)); KSystem (RPeers (AVote 0 1001)); KSystem (RPeers (AVoteReply 0));
   KStart 0 0; KWait 0; KSystem (RPeers (APrepare 0 1)); KSystem (RPeers (AAppend 0 1002)); KSystem (RPeers (AAppendReply 0));
   KSystem (RTake 0); KSystem (RDeliver 0); KSystem (RDone 0); KReceive 0; KTick 20; KReply 7 0 false; KCleanup 0].
Definition krun_get : list kaction :=
  [KCrash 2 (-1) 25; KTick 30; KCall 7 (RGet "k"); KStart 0 0; KWait 0; KSystem (RPeers (APrepare 0 1)); KSystem (RPeers (AAppend 0 1003));
   KSystem (RPeers (AAppendReply 0)); KSystem (RTake 0); KSystem (RDeliver 0); KSystem (RDone 0); KReceive 0; KTick 40; KReply 7 0 false].

Lemma kserver0_made i : kv_replica_made [] (kserver0 i).
Proof. by exists MakePersister, 3, i, (-1), 0. Qed.

Lemma kservice3_init : kworld_init 3 kservice3.
Proof.
  split_and!; try done.
  - apply rworld3_init, kserver0_made.
  - intros i kv ->%rworld3_server. apply kserver0_made.
  - intros c ck o. simpl. intros [<- [= <- <-]]%lookup_singleton_Some. split; [done|by exists 3].
Qed.

Definition krun (l : list kaction) : kworld := default kservice3 (kexecs 3 l kservice3).

Lemma krun_reach l : kreach 3 (krun l).
Proof.
  exists kservice3. split; [apply kservice3_init|]. unfold krun.
  destruct (kexecs 3 l kservice3) as [W|] eqn:E; [by eapply kexecs_sound|apply rtc_refl].
Qed.

(** Both operations returned. *)
Definition kservice_done : kworld := krun (krun_append ++ krun_get).

Lemma kservice_done_clients :
  k_clients kservice_done = mkClients {[7 := (mkClerk 3 7 3 0, None)]}
    [mkOp 7 2 "k" "" "Get"; mkOp 7 1 "k" "v" "Append"] 40 {[7 := 30]}
    [recorded 7 (mkOp 7 2 "k" "" "Get") 30 "v" 40; recorded 7 (mkOp 7 1 "k" "v" "Append") 10 "" 20].
Proof. vm_compute. reflexivity. Qed.

(** ** Theorems *)

(** An operation a clerk is waiting for, as if it returned now. *)
Definition working (c : clients) (v : kvOp) : Prop := ∃ i ck r t0,
  c_clerks c !! i = Some (ck, Some r) ∧ c_called c !! i = Some t0 ∧ v = recorded i (clerk_op ck r) t0 "" (c_now c).

(** C1: the key/value service is linearizable.  Whatever the network loses, delays
    or duplicates, whichever machines crash and restart, and however elections,
    snapshots and retries interleave, the operations that returned to the clerks,
    together with some of those still in progress, have an order that respects
    real time and that one map executes with the results the clerks got. *)
Theorem kv_service_linearizable `{Codec kv_state} `{Codec (Z * Z * list (Raft.LogEntry Op) * Z * Z)}
    (n : Z) (W : kworld) (Hn : 0 ≤ n) (Hreach : kreach n W) :
  ∃ p, (∀ v, v ∈ p → working (k_clients W) v) ∧ NoDup (op_ClientId <$> p) ∧
    linearizable_kv (c_history (k_clients W) ++ p).
Proof.
  destruct (kreach_inv n Hn W Hreach) as (Hh & V & l & D & Hinv).
  destruct (timeline_linearizable _ (ki_line _ _ _ _ _ _ Hinv)) as (p & Hp & Hnd & Hlin).
  exists p. split_and!; [|done|]; [exact Hp|]. by rewrite <- (ki_history _ _ _ _ _ _ Hinv).
Qed.

Lemma kv_service_linearizable_witness : linearizable_kv (c_history (k_clients kservice_done)).
Proof.
  destruct (kv_service_linearizable 3 kservice_done ltac:(lia) (krun_reach _)) as (p & Hp & _ & Hlin).
  rewrite kservice_done_clients in *. destruct p as [|v p]; [by rewrite app_nil_r in Hlin|].
  destruct (Hp v) as (i & ck & r & t0 & Hi & _); [by left|].
  simpl in Hi. by apply lookup_singleton_Some in Hi as [_ [=]].
Defined.


(** C3: the servers and their peers implement the abstract history.  The calls of the
    clerks and the committed log of the peers form a run of it, and every server
    holds the map the reference gives for a prefix of that log, at least the
    part its peer has applied and at most what it has committed. *)
Theorem kv_service_refines `{Codec kv_state} `{Codec (Z * Z * list (Raft.LogEntry Op) * Z * Z)}
    (n : Z) (W : kworld) (Hn : 0 ≤ n) (Hreach : kreach n W) :
  ∃ H L, hreach H ∧ h_clerks H = c_clerks (k_clients W) ∧ h_calls H = c_calls (k_clients W) ∧
    h_log H = ops_of L ∧ group_log (r_group (k_rsm W)) L ∧
    ∀ i rf kv, g_peer (r_group (k_rsm W)) !! i = Some rf → r_server (k_rsm W) !! i = Some kv →
      ∃ k, Raft.lastApplied rf ≤ Z.of_nat k ≤ Raft.commitIndex rf ∧ (k ≤ length (h_log H))%nat ∧
        currentState kv = kv_spec (take k (h_log H)).
Proof.
  destruct (kreach_inv n Hn W Hreach) as (Hh & V & l & D & Hinv).
  destruct (ki_log _ _ _ _ _ _ Hinv) as [T Hl].
  destruct (rinv_follows n Hn _ _ _ _ _ (ki_rsm _ _ _ _ _ _ Hinv) Hl) as (L & T' & HL & Hp & Hlog & Hfol).
  pose proof (ki_line _ _ _ _ _ _ (kinv_extend n _ _ _ _ _ _ _ Hinv HL Hp)) as Hline%treach_hreach.
  pose proof (hreach_inv _ Hline) as Hi. exists (mkHistory (c_clerks (k_clients W)) (c_calls (k_clients W)) (ops_of L)), L.
  split_and!; try done. intros i rf kv Hpeer Hkv. destruct (Hfol i rf kv Hpeer Hkv) as (k & Hr & Hk & Hv).
  exists k. simpl. unfold ops_of. rewrite length_fmap, <- fmap_take. split_and!; [lia|lia|done|].
  change (currentState kv) with (rp_view kv).1. rewrite Hv. apply (run_spec _ (drop k L)).
  rewrite take_drop. apply Hi.
Qed.

Lemma kv_service_refines_witness :
  ∃ H L, hreach H ∧ group_log (r_group (k_rsm kservice_done)) L ∧ h_log H = ops_of L ∧
    h_calls H = [mkOp 7 2 "k" "" "Get"; mkOp 7 1 "k" "v" "Append"].
Proof.
  destruct (kv_service_refines 3 kservice_done ltac:(lia) (krun_reach _)) as (H & L & ? & _ & Hc & ? & ? & _).
  exists H, L. split; [done|]. split; [done|]. split; [done|]. by rewrite Hc, kservice_done_clients.
Defined.

(** C22: the check the test suites make never fails.  When no clerk is waiting, a check
    of the operations recorded, with any timeout and in any interleaving of its
    goroutines, does not panic and does not find the history illegal; it is
    unknown only if the timeout strikes. *)
Theorem kv_tests_pass `{Sorter} `{KeyOrder} `{Codec kv_state}
    `{Codec (Z * Z * list (Raft.LogEntry Op) * Z * Z)} (n : Z) (W : kworld) (fuel : nat) (timeout : Z)
    (evs : list par_event) (Hn : 0 ≤ n) (Hreach : kreach n W)
    (Hidle : ∀ c ck o, c_clerks (k_clients W) !! c = Some (ck, o) → o = None)
    (Hfuel : (search_bound (length (c_history (k_clients W))) ≤ fuel)%nat) :
  ∃ o, CheckOperationsVerbose fuel KvModel (c_history (k_clients W)) timeout evs = Ret o ∧
    match o with
    | Returned (res, _) => res = Ok ∨ res = Unknown ∧ 0 < timeout
    | _ => True
    end.
Proof.
  destruct (kreach_inv n Hn W Hreach) as (Hh & V & l & D & Hinv).
  destruct (timeline_linearizable _ (ki_line _ _ _ _ _ _ Hinv)) as (p & Hp & _ & Hlin).
  assert (p = []) as ->.
  { destruct p as [|v p]; [done|]. destruct (Hp v) as (c & ck & r & t0 & Hc & _); [by left|].
    by apply Hidle in Hc. }
  rewrite app_nil_r in Hlin. cbn [t_done line_of] in Hlin. rewrite (ki_history _ _ _ _ _ _ Hinv) in Hlin.
  assert (Forall kv_op_ok (c_history (k_clients W))) as Hok.
  { rewrite <- (ki_history _ _ _ _ _ _ Hinv). apply Forall_forall. intros v ([k v'] & -> & Hin)%list_elem_of_fmap.
    destruct (ti_done _ (treach_inv _ (ki_line _ _ _ _ _ _ Hinv)) k v' Hin)
      as (op & t0 & value & t1 & ck & o & -> & Ht & _). split; [by eexists _, _|simpl; lia]. }
  destruct (checkOperations_kv fuel _ Hok Hfuel true timeout evs) as (o & Ho & Hres & _).
  exists o. split; [exact Ho|]. destruct o as [| |[[] info]]; naive_solver.
Qed.

Lemma kv_tests_pass_witness :
  ∃ o, @CheckOperationsVerbose merge_sorter key_order_std _ _ _ _ (search_bound 2) KvModel
         (c_history (k_clients kservice_done)) 0 [PFinish 0 None; PRecv] = Ret o ∧
    match o with Returned (res, _) => res = Ok ∨ res = Unknown ∧ 0 < 0 | _ => True end.
Proof.
  apply (@kv_tests_pass merge_sorter key_order_std _ _ 3 kservice_done); [lia|apply krun_reach|..];
    rewrite kservice_done_clients; [|done].
  intros c ck o. simpl. by intros [_ [= _ <-]]%lookup_singleton_Some.
Defined.
