(* ===== verification/MapReduce.v ===== *)
(** * Map-reduce: coordinator, workers and the sequential reference

    [mr/coordinator.go]: the coordinator hands out map tasks, then reduce tasks,
    and takes them back when a worker has had one for more than ten seconds.
    [mr/worker.go]: a worker asks for tasks, executes them on files and reports.
    [main/mrsequential.go]: the same job in one process.  [mrapps/wc.go]: its
    reduce function counts values.

    Times are nanoseconds; [now] is what [time.Now()] returns within one critical
    section.  The file system maps names to files, and a worker writes through
    the file it has opened, so that a name can be taken over by another file
    while it writes.  The temporary directory is on the same file system as the
    working directory, so that [os.Rename] succeeds.  encoding/json is a
    [RecordCodec]: the records an encoder wrote one after the other are what a
    decoder reads back, for records whose strings JSON can represent. *)

From S2P Require Import Prelude.
From stdpp Require Import pretty.

Local Open Scope Z_scope.

(** ** coordinator.go *)

Definition STAGE_ASSIGNMAP : Z := 0.
Definition STAGE_MAPPING : Z := 1.
Definition STAGE_REDUCING : Z := 2.
Definition STAGE_FINISHED : Z := 3.

Definition TASK_IDLE : Z := 0.
Definition TASK_WORKING : Z := 1.
Definition TASK_DONE : Z := 2.

Record Task := mkTask {
  t_TaskId : Z;
  t_FileName : string;
  t_StartTime : Z;
  t_Status : Z
}.

Record Coordinator := mkCoordinator {
  nReduce : Z;
  nMap : Z;
  Stage : Z;
  Mapfiles : list string;
  MapTask : list Task;
  ReduceTask : list Task
}.

Definition RPC_MAP : Z := 0.
Definition RPC_REDUCE : Z := 1.
Definition RPC_REQUEST : Z := 2.
Definition RPC_WORKDONE : Z := 3.
Definition RPC_FAIL : Z := 4.
Definition RPC_ALLDONE : Z := 5.

Record Taskinfo := mkTaskinfo {
  RPCtype : Z;
  TaskId : Z;
  Filename : string;
  NMap : Z;
  NReduce : Z;
  StartTime : Z
}.

Definition zeroTaskinfo : Taskinfo := mkTaskinfo 0 0 EmptyString 0 0 0.
Definition set_RPCtype (t : Z) (r : Taskinfo) : Taskinfo :=
  mkTaskinfo t (TaskId r) (Filename r) (NMap r) (NReduce r) (StartTime r).

Definition set_Status (s : Z) (t : Task) : Task :=
  mkTask (t_TaskId t) (t_FileName t) (t_StartTime t) s.
Definition set_StartTime (now : Z) (t : Task) : Task :=
  mkTask (t_TaskId t) (t_FileName t) now (t_Status t).
Definition set_Stage (s : Z) (c : Coordinator) : Coordinator :=
  mkCoordinator (nReduce c) (nMap c) s (Mapfiles c) (MapTask c) (ReduceTask c).
Definition set_MapTask (l : list Task) (c : Coordinator) : Coordinator :=
  mkCoordinator (nReduce c) (nMap c) (Stage c) (Mapfiles c) l (ReduceTask c).
Definition set_ReduceTask (l : list Task) (c : Coordinator) : Coordinator :=
  mkCoordinator (nReduce c) (nMap c) (Stage c) (Mapfiles c) (MapTask c) l.

(** The index of the first idle task. *)
Fixpoint findIdleTask (tasks : list Task) : option nat :=
  match tasks with
  | [] => None
  | t :: tasks' =>
      if t_Status t =? TASK_IDLE then Some O
      else S <$> findIdleTask tasks'
  end.

(** Despite its name: whether every task is done. *)
Fixpoint finduncompletedTask (tasks : list Task) : bool :=
  match tasks with
  | [] => true
  | t :: tasks' => if negb (t_Status t =? TASK_DONE) then false else finduncompletedTask tasks'
  end.

(** A task is taken back after ten seconds (10e9 nanoseconds). *)
Definition timeOutTask (now : Z) (tasks : list Task) : list Task :=
  (λ t, if (t_Status t =? TASK_WORKING) && (10000000000 <? now - t_StartTime t)
        then set_Status TASK_IDLE t else t) <$> tasks.

(** The end of [assignTask], for the task at [idx] of [tasks]: the task started
    and the reply filled in. *)
Definition start_task (now : Z) (c : Coordinator) (tasks : list Task) (idx : nat)
    (reply : Taskinfo) : list Task * Taskinfo :=
  match tasks !! idx with
  | None => (tasks, reply)
  | Some t =>
      let t := set_StartTime now (set_Status TASK_WORKING t) in
      (<[idx := t]> tasks,
       mkTaskinfo (RPCtype reply) (t_TaskId t) (t_FileName t) (nMap c) (nReduce c) now)
  end.

Definition assignTask (now : Z) (c : Coordinator) (reply : Taskinfo) : Coordinator * Taskinfo :=
  if Stage c =? STAGE_MAPPING then
    let tasks := timeOutTask now (MapTask c) in
    let c := set_MapTask tasks c in
    if finduncompletedTask tasks then (set_Stage STAGE_REDUCING c, set_RPCtype RPC_FAIL reply)
    else match findIdleTask tasks with
         | None => (c, set_RPCtype RPC_FAIL reply)
         | Some idx =>
             let '(tasks, reply) := start_task now c tasks idx (set_RPCtype RPC_MAP reply) in
             (set_MapTask tasks c, reply)
         end
  else if Stage c =? STAGE_REDUCING then
    let tasks := timeOutTask now (ReduceTask c) in
    let c := set_ReduceTask tasks c in
    if finduncompletedTask tasks then (set_Stage STAGE_FINISHED c, set_RPCtype RPC_FAIL reply)
    else match findIdleTask tasks with
         | None => (c, set_RPCtype RPC_FAIL reply)
         | Some idx =>
             let '(tasks, reply) := start_task now c tasks idx (set_RPCtype RPC_REDUCE reply) in
             (set_ReduceTask tasks c, reply)
         end
  else if Stage c =? STAGE_FINISHED then (c, set_RPCtype RPC_ALLDONE reply)
  else (c, set_RPCtype RPC_FAIL reply).

(** One tick of [reassignTask], a goroutine that the program defines and never
    starts. *)
Definition reassignTask_tick (now : Z) (c : Coordinator) : Coordinator :=
  let c :=
    if Stage c =? STAGE_MAPPING then set_MapTask (timeOutTask now (MapTask c)) c
    else if Stage c =? STAGE_REDUCING then set_ReduceTask (timeOutTask now (ReduceTask c)) c
    else c in
  let complete := finduncompletedTask (MapTask c) in
  let c := if (Stage c =? STAGE_MAPPING) && negb complete then set_Stage STAGE_REDUCING c else c in
  let complete := finduncompletedTask (ReduceTask c) in
  if (Stage c =? STAGE_REDUCING) && negb complete then set_Stage STAGE_FINISHED c else c.

(** [task.Status = TASK_DONE] for the task at [args.TaskId], if it is being
    worked on. *)
Definition finish_task (tasks : list Task) (id : Z) : Go (list Task) :=
  t ← index tasks id;
  if t_Status t =? TASK_WORKING then set_index tasks id (set_Status TASK_DONE t)
  else Ret tasks.

(** [checkTask] reads [c.Stage] before it takes the lock, and goes by what it read. *)
Definition checkTask_at (stage : Z) (c : Coordinator) (args reply : Taskinfo) : Go (Coordinator * Taskinfo) :=
  if stage =? STAGE_MAPPING then
    tasks ← finish_task (MapTask c) (TaskId args);
    Ret (set_MapTask tasks c, set_RPCtype RPC_WORKDONE reply)
  else if stage =? STAGE_REDUCING then
    tasks ← finish_task (ReduceTask c) (TaskId args);
    Ret (set_ReduceTask tasks c, set_RPCtype RPC_WORKDONE reply)
  else Ret (c, reply).

(** When nothing comes in between. *)
Definition checkTask (c : Coordinator) (args reply : Taskinfo) : Go (Coordinator * Taskinfo) :=
  checkTask_at (Stage c) c args reply.

Definition Handlers (now : Z) (c : Coordinator) (args reply : Taskinfo)
  : Go (Coordinator * Taskinfo) :=
  if RPCtype args =? RPC_REQUEST then Ret (assignTask now c reply)
  else if RPCtype args =? RPC_WORKDONE then checkTask c args reply
  else Ret (c, reply).

Definition Done (c : Coordinator) : bool := Stage c =? STAGE_FINISHED.

Definition MakeCoordinator (files : list string) (nReduce : Z) : Coordinator :=
  mkCoordinator nReduce (zlen files) STAGE_MAPPING files
    (imap (λ i f, mkTask (Z.of_nat i) f 0 TASK_IDLE) files)
    ((λ i, mkTask i EmptyString 0 TASK_IDLE) <$> seqZ 0 nReduce).

(** ** worker.go *)

Record KeyValue := mkKeyValue { kv_Key : string; kv_Value : string }.

(** [ihash]: FNV-1a on 32 bits, without the sign bit. *)
Definition fnv_step (h : Z) (a : Ascii.ascii) : Z :=
  (Z.lxor h (Z.of_N (Ascii.N_of_ascii a)) * 16777619) mod 2 ^ 32.

Fixpoint fnv32a (h : Z) (s : string) : Z :=
  match s with
  | EmptyString => h
  | String a s' => fnv32a (fnv_step h a) s'
  end.

Definition ihash (key : string) : Z := Z.land (fnv32a 2166136261 key) 2147483647.

Definition concat_str (l : list string) : string := foldr String.append EmptyString l.

Lemma str_app_nil s : s +:+ EmptyString = s.
Proof. induction s as [|a s IH]; [done|]. apply (f_equal (String a) IH). Qed.

Lemma str_app_assoc (s1 s2 s3 : string) : (s1 +:+ s2) +:+ s3 = s1 +:+ s2 +:+ s3.
Proof. induction s1 as [|a s1 IH]; [done|]. apply (f_equal (String a) IH). Qed.

Lemma str_length_app s1 s2 : String.length (s1 +:+ s2) = (String.length s1 + String.length s2)%nat.
Proof. induction s1 as [|a s1 IH]; [done|]. apply (f_equal S IH). Qed.

Lemma concat_str_cons s l : concat_str (s :: l) = s +:+ concat_str l.
Proof. done. Qed.

Lemma concat_str_app l1 l2 : concat_str (l1 ++ l2) = concat_str l1 +:+ concat_str l2.
Proof. induction l1 as [|s l1 IH]; [done|]. simpl app. by rewrite !concat_str_cons, IH, str_app_assoc. Qed.

(** [enc.Encode] and a decoder read until its first error. *)
Class RecordCodec := {
  encode : KeyValue → string;
  decode : string → list KeyValue;
  encodable : KeyValue → Prop;
  decode_encoded : ∀ l, Forall encodable l → decode (concat_str (encode <$> l)) = l
}.

Record FileSystem := mkFileSystem {
  fs_names : gmap string nat;
  fs_files : list string
}.

Definition read_file (fs : FileSystem) (name : string) : option string :=
  i ← fs_names fs !! name; fs_files fs !! i.

(** A new empty file that takes the name: [ioutil.TempFile] and [os.Rename]. *)
Definition fresh_file (fs : FileSystem) (name : string) : FileSystem * nat :=
  let i := length (fs_files fs) in
  (mkFileSystem (<[name := i]> (fs_names fs)) (fs_files fs ++ [EmptyString]), i).

(** Writing to an open file. *)
Definition append_text (fs : FileSystem) (i : nat) (s : string) : FileSystem :=
  mkFileSystem (fs_names fs) (alter (λ old, old +:+ s) i (fs_files fs)).

(** [enc.Encode(&kv)] on an open file. *)
Definition write_record `{RecordCodec} (fs : FileSystem) (i : nat) (kv : KeyValue) : FileSystem :=
  append_text fs i (encode kv).

(** [os.Create]: an existing file is emptied. *)
Definition create_file (fs : FileSystem) (name : string) : FileSystem * nat :=
  match fs_names fs !! name with
  | Some i => (mkFileSystem (fs_names fs) (<[i := EmptyString]> (fs_files fs)), i)
  | None => fresh_file fs name
  end.

(** [os.Create] and the lines printed to it. *)
Definition write_lines (fs : FileSystem) (name : string) (lines : list string) : FileSystem :=
  let '(fs, i) := create_file fs name in foldl (λ fs l, append_text fs i l) fs lines.

Definition inter_name (m r : Z) : string := "mr-" +:+ pretty m +:+ "-" +:+ pretty r.
Definition out_name (r : Z) : string := "mr-out-" +:+ pretty r.

(** [sort.Sort(ByKey(kva))]: some order of the records by key. *)
Definition sorted_by_key (l : list KeyValue) : Prop :=
  StronglySorted (λ a b, String.leb (kv_Key a) (kv_Key b) = true) l.

Class KeySorter := {
  sort_byKey : list KeyValue → list KeyValue;
  sort_byKey_perm : ∀ l, sort_byKey l ≡ₚ l;
  sort_byKey_sorted : ∀ l, sorted_by_key (sort_byKey l)
}.

(** The inner loops: the values of the records that follow with the same key,
    and the rest. *)
Fixpoint same_run (k : string) (kva : list KeyValue) : list string * list KeyValue :=
  match kva with
  | [] => ([], [])
  | kv :: kva' =>
      if String.eqb (kv_Key kv) k
      then let '(values, rest) := same_run k kva' in (kv_Value kv :: values, rest)
      else ([], kva)
  end.

(** [fmt.Fprintf(ofile, "%v %v\n", key, output)]. *)
Definition newline : string := String (Ascii.ascii_of_nat 10) EmptyString.
Definition line (key output : string) : string := key +:+ " " +:+ output +:+ newline.

(** The outer loop, over the records from [i] on: at most one group per record. *)
Fixpoint reduce_loop (reducef : string → list string → string) (fuel : nat)
    (kva : list KeyValue) : list string :=
  match fuel, kva with
  | S fuel, kv :: kva' =>
      let '(values, rest) := same_run (kv_Key kv) kva' in
      line (kv_Key kv) (reducef (kv_Key kv) (kv_Value kv :: values))
        :: reduce_loop reducef fuel rest
  | _, _ => []
  end.

Definition reduce_lines (reducef : string → list string → string) (kva : list KeyValue)
  : list string := reduce_loop reducef (length kva) kva.

(** The records of the files [mr-0-r], ..., a missing one panics. *)
Fixpoint read_inter `{RecordCodec} (fs : FileSystem) (r : Z) (ms : list Z) : Go (list KeyValue) :=
  match ms with
  | [] => Ret []
  | i :: ms' =>
      match read_file fs (inter_name i r) with
      | None => Panic PUser
      | Some s => rest ← read_inter fs r ms'; Ret (decode s ++ rest)
      end
  end.

Definition execReduce `{RecordCodec, KeySorter} (fs : FileSystem) (t : Taskinfo)
    (reducef : string → list string → string) : Go FileSystem :=
  kva ← read_inter fs (TaskId t) (seqZ 0 (NMap t));
  let kva := sort_byKey kva in
  Ret (write_lines fs (out_name (TaskId t)) (reduce_lines reducef kva)).

(** [intermediate[ihash(key) % nReduce]] gets each record. *)
Fixpoint fill_buckets (nReduce : Z) (kva : list KeyValue) (intermediate : list (list KeyValue))
  : Go (list (list KeyValue)) :=
  match kva with
  | [] => Ret intermediate
  | kv :: kva' =>
      if nReduce =? 0 then Panic PDivide
      else
        let bucket := Z.rem (ihash (kv_Key kv)) nReduce in
        old ← index intermediate bucket;
        intermediate ← set_index intermediate bucket (old ++ [kv]);
        fill_buckets nReduce kva' intermediate
  end.

(** The loop that writes the buckets, each to a file of its own. *)
Fixpoint write_buckets `{RecordCodec} (fs : FileSystem) (m : Z) (rs : list Z) (intermediate : list (list KeyValue))
  : Go FileSystem :=
  match rs with
  | [] => Ret fs
  | r :: rs' =>
      let '(fs, i) := fresh_file fs (inter_name m r) in
      kvs ← index intermediate r;
      write_buckets (foldl (λ fs kv, write_record fs i kv) fs kvs) m rs' intermediate
  end.

(** [None]: the input cannot be read and the worker exits. *)
Definition execMap `{RecordCodec} (fs : FileSystem) (t : Taskinfo) (mapf : string → string → list KeyValue)
  : Go (option FileSystem) :=
  match read_file fs (Filename t) with
  | Some contents =>
      let kva := mapf (Filename t) contents in
      intermediate ← fill_buckets (NReduce t) kva (replicate (Z.to_nat (NReduce t)) []);
      fs ← write_buckets fs (TaskId t) (seqZ 0 (NReduce t)) intermediate;
      Ret (Some fs)
  | None => Ret None
  end.

Definition request_args : Taskinfo := set_RPCtype RPC_REQUEST zeroTaskinfo.
Definition report_args (taskId startTime : Z) : Taskinfo :=
  mkTaskinfo RPC_WORKDONE taskId EmptyString 0 0 startTime.

Inductive worker_end := Continues | Exits.

(** One round of the loop of [Worker], its calls answered by the coordinator at
    the times [t1] (request) and [t2] (report). *)
Definition worker_round `{RecordCodec, KeySorter} (mapf : string → string → list KeyValue)
    (reducef : string → list string → string) (t1 t2 : Z) (c : Coordinator) (fs : FileSystem)
  : Go (Coordinator * FileSystem * worker_end) :=
  '(c, taskinfo) ← Handlers t1 c request_args zeroTaskinfo;
  if RPCtype taskinfo =? RPC_MAP then
    done ← execMap fs taskinfo mapf;
    match done with
    | None => Ret (c, fs, Exits)
    | Some fs =>
        '(c, _) ← Handlers t2 c (report_args (TaskId taskinfo) (StartTime taskinfo)) zeroTaskinfo;
        Ret (c, fs, Continues)
    end
  else if RPCtype taskinfo =? RPC_REDUCE then
    fs ← execReduce fs taskinfo reducef;
    '(c, _) ← Handlers t2 c (report_args (TaskId taskinfo) (StartTime taskinfo)) zeroTaskinfo;
    Ret (c, fs, Continues)
  else if RPCtype taskinfo =? RPC_ALLDONE then Ret (c, fs, Exits)
  else Ret (c, fs, Continues).

(** A worker alone with the coordinator; [clock k] is the time of round [k]. *)
Fixpoint Worker `{RecordCodec, KeySorter} (fuel : nat) (mapf : string → string → list KeyValue)
    (reducef : string → list string → string) (clock : nat → Z) (k : nat)
    (c : Coordinator) (fs : FileSystem) : Go (Coordinator * FileSystem) :=
  match fuel with
  | O => NoFuel
  | S fuel =>
      '(c, fs, e) ← worker_round mapf reducef (clock k) (clock k) c fs;
      match e with
      | Exits => Ret (c, fs)
      | Continues => Worker fuel mapf reducef clock (S k) c fs
      end
  end.

(** ** mrsequential.go *)

Fixpoint seq_map (fs : FileSystem) (mapf : string → string → list KeyValue) (files : list string)
  : option (list KeyValue) :=
  match files with
  | [] => Some []
  | f :: files' =>
      match read_file fs f with
      | Some contents => kva ← seq_map fs mapf files'; Some (mapf f contents ++ kva)
      | None => None
      end
  end.

(** The lines [main] prints; [None] when an input cannot be read. *)
Definition sequential_lines `{KeySorter} (fs : FileSystem) (mapf : string → string → list KeyValue)
    (reducef : string → list string → string) (files : list string) : option (list string) :=
  intermediate ← seq_map fs mapf files;
  Some (reduce_lines reducef (sort_byKey intermediate)).

Definition mrsequential `{KeySorter} (fs : FileSystem) (mapf : string → string → list KeyValue)
    (reducef : string → list string → string) (files : list string) : option FileSystem :=
  lines ← sequential_lines fs mapf reducef files;
  Some (write_lines fs "mr-out-0" lines).

(** ** mrapps/wc.go *)

Definition wc_Reduce (key : string) (values : list string) : string := pretty (zlen values).
