(* ===== verification/MapReduceSpec.v ===== *)
(** * Map-reduce: splitting a job into tasks does not change its result

    The pure part of mr/worker.go against main/mrsequential.go: grouping a sorted
    list calls the reduce function once per key with all its values
    ([reduce_lines_spec]); distributing the records over buckets by the hash of
    their keys and reducing each bucket gives the same lines as reducing all
    records at once, up to their order ([buckets_lines]).  The reduce function
    must not depend on the order of the values, which neither program fixes. *)

From S2P Require Import Prelude MapReduce.
From stdpp Require Import pretty.

Local Open Scope Z_scope.

(** ** Grouping *)

Definition values (k : string) (l : list KeyValue) : list string :=
  kv_Value <$> filter (λ kv, kv_Key kv = k) l.

Definition keys_of (l : list KeyValue) : list string := kv_Key <$> l.

Lemma sorted_head kv l : sorted_by_key (kv :: l) →
  sorted_by_key l ∧ ∀ x, x ∈ l → String.leb (kv_Key kv) (kv_Key x) = true.
Proof. intros [Hf Hs]%StronglySorted_cons. rewrite Forall_forall in Hf. done. Qed.

Lemma sorted_filter P `{!∀ x, Decision (P x)} l : sorted_by_key l → sorted_by_key (filter P l).
Proof.
  unfold sorted_by_key. induction 1 as [|kv l _ IH Hf]; [constructor|].
  rewrite filter_cons. case_decide; [|done]. constructor; [done|].
  rewrite Forall_forall in *. intros x [_ Hx]%list_elem_of_filter. by apply Hf.
Qed.

(** In a sorted list the records with the key of the first are its first ones. *)
Lemma same_run_spec k l :
  sorted_by_key l → (∀ x, x ∈ l → String.leb k (kv_Key x) = true) →
  same_run k l = (values k l, filter (λ kv, kv_Key kv ≠ k) l).
Proof.
  induction l as [|kv l IH]; intros Hs Hk; [done|].
  destruct (sorted_head _ _ Hs) as [Hs' Hle]. simpl. unfold values in *.
  destruct (String.eqb_spec (kv_Key kv) k) as [Heq|Hne].
  - rewrite IH; [|done|intros; apply Hk; set_solver].
    rewrite filter_cons_True, filter_cons_False by tauto. done.
  - assert (Hall : ∀ x, x ∈ kv :: l → kv_Key x ≠ k).
    { intros x [->|Hx]%elem_of_cons; [done|]. intros Heq. apply Hne.
      apply String.leb_antisym; [rewrite <- Heq; by apply Hle|apply Hk; set_solver]. }
    rewrite (list_filter_none (λ kv, kv_Key kv = k)), list_filter_all by done. done.
Qed.

Lemma values_other k k' l : k ≠ k' → values k' (filter (λ kv, kv_Key kv ≠ k) l) = values k' l.
Proof.
  intros Hne. unfold values. f_equal. rewrite list_filter_filter. apply list_filter_iff.
  intros x. split; [tauto|]. intros <-. split; [done|congruence].
Qed.

Section reduce.
Context (reducef : string → list string → string).

Definition key_line (l : list KeyValue) (k : string) : string := line k (reducef k (values k l)).

(** One line per key, the keys in order, with all the values of the key. *)
Lemma reduce_loop_spec fuel l :
  sorted_by_key l → (length l ≤ fuel)%nat →
  ∃ ks, NoDup ks ∧ (∀ k, k ∈ ks ↔ k ∈ keys_of l) ∧ reduce_loop reducef fuel l = key_line l <$> ks.
Proof.
  revert l. induction fuel as [|fuel IH]; intros l Hs Hlen.
  - destruct l; [|simpl in Hlen; lia]. exists []. split_and!; [constructor|set_solver|done].
  - destruct l as [|kv l]; [exists []; split_and!; [constructor|set_solver|done]|].
    destruct (sorted_head _ _ Hs) as [Hs' Hle]. simpl in Hlen.
    destruct (IH (filter (λ x, kv_Key x ≠ kv_Key kv) l)) as (ks & Hnd & Hks & Hred).
    { by apply sorted_filter. }
    { pose proof (length_filter (λ x, kv_Key x ≠ kv_Key kv) l). lia. }
    assert (Hks' : ∀ k, k ∈ ks ↔ k ∈ keys_of l ∧ k ≠ kv_Key kv).
    { intros k. rewrite Hks. unfold keys_of. rewrite !list_elem_of_fmap.
      setoid_rewrite list_elem_of_filter. naive_solver. }
    exists (kv_Key kv :: ks). split_and!.
    + constructor; [|done]. rewrite Hks'. tauto.
    + intros k. unfold keys_of in *. rewrite fmap_cons, !elem_of_cons, Hks'.
      destruct (decide (k = kv_Key kv)); tauto.
    + simpl. rewrite same_run_spec by done. rewrite Hred. f_equal.
      * unfold key_line, values. by rewrite filter_cons_True.
      * apply list_fmap_ext. intros i k Hi%list_elem_of_lookup_2. apply Hks' in Hi as [_ Hne].
        unfold key_line. rewrite values_other by done. unfold values.
        by rewrite filter_cons_False.
Qed.

Context (Hperm : ∀ k vs vs', vs ≡ₚ vs' → reducef k vs = reducef k vs').

Lemma values_perm k l l' : l ≡ₚ l' → values k l ≡ₚ values k l'.
Proof. intros Hl. unfold values. by rewrite Hl. Qed.

(** The lines of a job, whatever the sort does with equal keys. *)
Lemma reduce_lines_spec `{KeySorter} l :
  reduce_lines reducef (sort_byKey l) ≡ₚ key_line l <$> remove_dups (keys_of l).
Proof.
  unfold reduce_lines.
  destruct (reduce_loop_spec (length (sort_byKey l)) (sort_byKey l)) as (ks & Hnd & Hks & ->);
    [apply sort_byKey_sorted|done|].
  assert (Hl : ∀ k, key_line (sort_byKey l) k = key_line l k).
  { intros k. unfold key_line. f_equal. apply Hperm, values_perm, sort_byKey_perm. }
  rewrite (list_fmap_ext (key_line (sort_byKey l)) (key_line l) ks) by done.
  apply fmap_Permutation, NoDup_Permutation; [done|apply NoDup_remove_dups|].
  intros k. rewrite Hks, elem_of_remove_dups. unfold keys_of. by rewrite sort_byKey_perm.
Qed.

(** ** Buckets *)

Lemma mjoin_cons {A} (l : list A) ls : mjoin (l :: ls) = l ++ mjoin ls.
Proof. done. Qed.

(** The records whose key is hashed to [r]. *)
Definition bucket (n r : Z) (l : list KeyValue) : list KeyValue :=
  filter (λ kv, Z.rem (ihash (kv_Key kv)) n = r) l.

Lemma values_bucket n l k : values k (bucket n (Z.rem (ihash k) n) l) = values k l.
Proof.
  unfold values, bucket. f_equal. rewrite list_filter_filter. apply list_filter_iff.
  intros x. split; [tauto|]. by intros <-.
Qed.

Lemma elem_of_keys_bucket n r l k : k ∈ keys_of (bucket n r l) ↔ k ∈ keys_of l ∧ Z.rem (ihash k) n = r.
Proof.
  unfold keys_of, bucket. rewrite !list_elem_of_fmap. setoid_rewrite list_elem_of_filter.
  naive_solver.
Qed.

Lemma NoDup_mjoin_keys (f : Z → list string) (rs : list Z) :
  NoDup rs → (∀ r, NoDup (f r)) → (∀ r r' k, k ∈ f r → k ∈ f r' → r = r') →
  NoDup (mjoin (f <$> rs)).
Proof.
  intros Hrs Hf Hd. induction Hrs as [|r rs Hr _ IH]; [constructor|].
  simpl. apply NoDup_app. split_and!; [apply Hf| |done].
  intros k Hk (l & Hkl & (r' & -> & Hr')%list_elem_of_fmap)%list_elem_of_join.
  by rewrite (Hd r r' k Hk Hkl) in Hr.
Qed.

(** Reducing bucket by bucket gives the lines of reducing everything. *)
Lemma buckets_lines n l :
  (∀ k, k ∈ keys_of l → 0 ≤ Z.rem (ihash k) n < n) →
  mjoin ((λ r, key_line (bucket n r l) <$> remove_dups (keys_of (bucket n r l))) <$> seqZ 0 n)
    ≡ₚ key_line l <$> remove_dups (keys_of l).
Proof.
  intros Hrange.
  assert (Hmap : mjoin ((λ r, key_line (bucket n r l) <$> remove_dups (keys_of (bucket n r l)))
      <$> seqZ 0 n) =
    key_line l <$> mjoin ((λ r, remove_dups (keys_of (bucket n r l))) <$> seqZ 0 n)).
  { generalize (seqZ 0 n) as rs. induction rs as [|r rs IH]; [done|].
    rewrite !fmap_cons, !mjoin_cons, fmap_app, IH. f_equal. apply list_fmap_ext. intros i k Hi%list_elem_of_lookup_2.
    rewrite elem_of_remove_dups, elem_of_keys_bucket in Hi. destruct Hi as [_ <-].
    unfold key_line. by rewrite values_bucket. }
  rewrite Hmap. apply fmap_Permutation, NoDup_Permutation.
  - apply NoDup_mjoin_keys; [apply NoDup_seqZ|intros; apply NoDup_remove_dups|].
    intros r r' k. rewrite !elem_of_remove_dups, !elem_of_keys_bucket. naive_solver.
  - apply NoDup_remove_dups.
  - intros k. rewrite list_elem_of_join, elem_of_remove_dups. split.
    + intros (ks & Hk & (r & -> & _)%list_elem_of_fmap).
      rewrite elem_of_remove_dups, elem_of_keys_bucket in Hk. tauto.
    + intros Hk. exists (remove_dups (keys_of (bucket n (Z.rem (ihash k) n) l))).
      rewrite elem_of_remove_dups, elem_of_keys_bucket. split; [done|].
      apply list_elem_of_fmap. exists (Z.rem (ihash k) n). split; [done|].
      apply elem_of_seqZ. specialize (Hrange k Hk). lia.
Qed.
End reduce.

(** ** The hash *)

Lemma fnv32a_range h s : 0 ≤ h < 2 ^ 32 → 0 ≤ fnv32a h s < 2 ^ 32.
Proof.
  revert h. induction s as [|a s IH]; intros h Hh; [done|]. simpl. apply IH.
  unfold fnv_step. apply Z.mod_pos_bound. lia.
Qed.

(** The hash is a non-negative 31-bit number, so it is a valid bucket modulo any
    positive number of reduce tasks. *)
Lemma ihash_range key : 0 ≤ ihash key < 2 ^ 31.
Proof.
  unfold ihash. change 2147483647 with (Z.ones 31). rewrite Z.land_ones by lia.
  apply Z.mod_pos_bound. lia.
Qed.

Lemma bucket_range n key : 0 < n → 0 ≤ Z.rem (ihash key) n < n.
Proof.
  intros Hn. pose proof (ihash_range key). rewrite Z.rem_mod_nonneg by lia.
  apply Z.mod_pos_bound. lia.
Qed.

(** [execMap] puts each record in its bucket, in order. *)
Lemma fill_buckets_spec n kva inter :
  0 < n → zlen inter = n →
  ∃ inter', fill_buckets n kva inter = Ret inter' ∧ zlen inter' = n ∧
    ∀ r old, index inter r = Ret old → index inter' r = Ret (old ++ bucket n r kva).
Proof.
  intros Hn. revert inter. induction kva as [|kv kva IH]; intros inter Hlen.
  - exists inter. split_and!; [done..|]. intros r old ->. unfold bucket. by rewrite app_nil_r.
  - simpl. rewrite (proj2 (Z.eqb_neq _ _)) by lia.
    pose proof (bucket_range n (kv_Key kv) Hn) as Hb.
    set (b := Z.rem (ihash (kv_Key kv)) n) in *.
    destruct (index_safe inter b) as [old Hold]; [lia|]. rewrite Hold, bind_Ret.
    rewrite set_index_Ret, bind_Ret by lia.
    destruct (IH (<[Z.to_nat b := old ++ [kv]]> inter)) as (inter' & -> & Hlen' & Hget).
    { by rewrite zlen_insert. }
    exists inter'. split_and!; [done..|]. intros r o Hr. unfold bucket. rewrite filter_cons.
    pose proof (index_bounds _ _ _ Hr) as Hrb. fold b.
    destruct (decide (b = r)) as [->|Hne].
    + assert (o = old) as -> by congruence.
      rewrite (Hget r (old ++ [kv])); [by rewrite <- app_assoc|].
      apply index_Ret. split; [lia|]. apply list_lookup_insert_eq. unfold zlen in *. lia.
    + apply Hget. apply index_Ret in Hr as [? Hr]. apply index_Ret. split; [lia|].
      rewrite list_lookup_insert_ne; [done|]. lia.
Qed.
