(* ===== verification/MapReduceCoord.v ===== *)
(** * The map-reduce coordinator

    The invariant of mr/coordinator.go ([coord_wf]): reduce tasks are only handed
    out when every map task is done, and the job is only finished when every
    reduce task is; both are kept by every call whose task number is in range
    ([Handlers_preserves]).  A task is handed out only when it is idle or has been
    with a worker for more than ten seconds ([assignTask_exclusive]).

    The coordinator does not check which task a report is for; the consequences
    are in [MapReduceRun]. *)

From S2P Require Import Prelude MapReduce.

Local Open Scope Z_scope.

(** ** Invariant *)

Definition task_ok (i : nat) (t : Task) : Prop :=
  t_TaskId t = Z.of_nat i ∧
  (t_Status t = TASK_IDLE ∨ t_Status t = TASK_WORKING ∨ t_Status t = TASK_DONE).

Definition tasks_ok (n : Z) (tasks : list Task) : Prop :=
  zlen tasks = n ∧ ∀ i t, tasks !! i = Some t → task_ok i t.

Definition all_done (tasks : list Task) : Prop := ∀ t, t ∈ tasks → t_Status t = TASK_DONE.

Record coord_wf (c : Coordinator) : Prop := {
  cw_map : tasks_ok (nMap c) (MapTask c);
  cw_reduce : tasks_ok (nReduce c) (ReduceTask c);
  cw_stage : STAGE_MAPPING ≤ Stage c ≤ STAGE_FINISHED;
  cw_mapped : STAGE_REDUCING ≤ Stage c → all_done (MapTask c);
  cw_reduced : STAGE_FINISHED ≤ Stage c → all_done (ReduceTask c)
}.

(** What a step may do to a task: done stays done, and the number stays. *)
Definition task_step (t t' : Task) : Prop :=
  t_TaskId t' = t_TaskId t ∧ t_FileName t' = t_FileName t ∧
  (t_Status t = TASK_DONE → t_Status t' = TASK_DONE) ∧
  (t_Status t' = t_Status t ∨ t_Status t' = TASK_IDLE ∨ t_Status t' = TASK_WORKING ∨
   t_Status t' = TASK_DONE).

Abbreviation tasks_step := (Forall2 task_step).

#[export] Instance task_step_refl : Reflexive task_step.
Proof. intros t. unfold task_step. tauto. Qed.

#[export] Instance task_step_trans : Transitive task_step.
Proof.
  intros t1 t2 t3 (? & ? & ? & ?) (? & ? & ? & H3). unfold task_step.
  split_and!; [congruence..|auto|]. destruct H3 as [->|]; tauto.
Qed.

Lemma tasks_step_ok n l l' : tasks_step l l' → tasks_ok n l → tasks_ok n l'.
Proof.
  intros Hs [Hl Hok]. split.
  - unfold zlen in *. by rewrite <- (Forall2_length _ _ _ Hs).
  - intros i t' Hi. destruct (Forall2_lookup_r _ _ _ _ _ Hs Hi) as (t & Ht & Hid & _ & _ & Hst).
    destruct (Hok i t Ht) as [Hti Hts]. split; [congruence|].
    destruct Hst as [->|]; tauto.
Qed.

Lemma tasks_step_done l l' : tasks_step l l' → all_done l → all_done l'.
Proof.
  intros Hs Hd t' [i Hi]%list_elem_of_lookup_1.
  destruct (Forall2_lookup_r _ _ _ _ _ Hs Hi) as (t & Ht & _ & _ & Hdone & _).
  apply Hdone, Hd. by eapply list_elem_of_lookup_2.
Qed.

Lemma finduncompleted_spec tasks : finduncompletedTask tasks = true ↔ all_done tasks.
Proof.
  unfold all_done. induction tasks as [|t tasks IH]; simpl; [set_solver|].
  destruct (Z.eqb_spec (t_Status t) TASK_DONE); simpl; [rewrite IH; set_solver|].
  split; [done|]. intros H. exfalso. apply n. apply H. set_solver.
Qed.

Lemma findIdle_spec tasks :
  match findIdleTask tasks with
  | Some i => ∃ t, tasks !! i = Some t ∧ t_Status t = TASK_IDLE
  | None => ∀ t, t ∈ tasks → t_Status t ≠ TASK_IDLE
  end.
Proof.
  induction tasks as [|t tasks IH]; simpl; [set_solver|].
  destruct (Z.eqb_spec (t_Status t) TASK_IDLE); [by exists t|].
  destruct (findIdleTask tasks); simpl; [done|]. set_solver.
Qed.

Lemma timeOut_step now tasks : tasks_step tasks (timeOutTask now tasks).
Proof.
  unfold timeOutTask. rewrite <- (list_fmap_id tasks) at 1.
  apply Forall2_fmap, Forall_Forall2_diag, Forall_forall. intros t _. unfold id.
  case_test; [|done]. unfold task_step. simpl. split_and!; try tauto.
  intros Hd. unfold TASK_WORKING, TASK_DONE in *. lia.
Qed.

Lemma tasks_step_insert tasks i t t' :
  tasks !! i = Some t → task_step t t' → tasks_step tasks (<[i := t']> tasks).
Proof.
  intros Hi Ht. rewrite <- (list_insert_id _ _ _ Hi) at 1.
  apply Forall2_insert; [|done]. by apply Forall_Forall2_diag, Forall_forall.
Qed.

Lemma finish_step tasks id :
  0 ≤ id < zlen tasks → ∃ tasks', finish_task tasks id = Ret tasks' ∧ tasks_step tasks tasks'.
Proof.
  intros Hid. unfold finish_task. destruct (index_safe tasks id Hid) as [t Ht].
  rewrite Ht, bind_Ret. case_test.
  - rewrite set_index_Ret by done. eexists. split; [done|].
    apply index_Ret in Ht as [_ Ht]. eapply tasks_step_insert; [done|].
    unfold task_step. simpl. tauto.
  - eexists. split; [done|]. by apply Forall_Forall2_diag, Forall_forall.
Qed.

(** What a call does to the coordinator. *)
Record coord_step (c c' : Coordinator) : Prop := {
  cs_nMap : nMap c' = nMap c;
  cs_nReduce : nReduce c' = nReduce c;
  cs_stage : Stage c ≤ Stage c';
  cs_map : tasks_step (MapTask c) (MapTask c');
  cs_reduce : tasks_step (ReduceTask c) (ReduceTask c')
}.

Lemma tasks_step_refl l : tasks_step l l.
Proof. by apply Forall_Forall2_diag, Forall_forall. Qed.

Lemma tasks_step_trans l1 l2 l3 : tasks_step l1 l2 → tasks_step l2 l3 → tasks_step l1 l3.
Proof.
  intros H12. revert l3. induction H12 as [|t1 t2 l1 l2 Ht _ IH]; intros l3 H23.
  - by inversion H23.
  - inversion H23; subst. constructor; [by etrans|auto].
Qed.

(** A call keeps the invariant when the stages it enters are complete. *)
Lemma coord_step_wf c c' :
  coord_wf c → coord_step c c' → Stage c' ≤ STAGE_FINISHED →
  (Stage c < STAGE_REDUCING → STAGE_REDUCING ≤ Stage c' → all_done (MapTask c')) →
  (Stage c < STAGE_FINISHED → STAGE_FINISHED ≤ Stage c' → all_done (ReduceTask c')) →
  coord_wf c'.
Proof.
  intros [Hm Hr Hs Hmd Hrd] [H1 H2 H3 H4 H5] Hf He1 He2. split.
  - rewrite H1. by eapply tasks_step_ok.
  - rewrite H2. by eapply tasks_step_ok.
  - lia.
  - intros Hst. destruct (decide (Stage c < STAGE_REDUCING)); [by apply He1|].
    eapply tasks_step_done; [done|]. apply Hmd. lia.
  - intros Hst. destruct (decide (Stage c < STAGE_FINISHED)); [by apply He2|].
    eapply tasks_step_done; [done|]. apply Hrd. lia.
Qed.

(** The outcomes of a request. *)
Definition started (now : Z) (t : Task) : Task := set_StartTime now (set_Status TASK_WORKING t).
Definition task_reply (ty now : Z) (c : Coordinator) (t : Task) : Taskinfo :=
  mkTaskinfo ty (t_TaskId t) (t_FileName t) (nMap c) (nReduce c) now.

Inductive assigned (now : Z) (c : Coordinator) (reply : Taskinfo) : Coordinator → Taskinfo → Prop :=
| as_map_end tasks :
    Stage c = STAGE_MAPPING → tasks = timeOutTask now (MapTask c) → all_done tasks →
    assigned now c reply (set_Stage STAGE_REDUCING (set_MapTask tasks c)) (set_RPCtype RPC_FAIL reply)
| as_map_wait tasks :
    Stage c = STAGE_MAPPING → tasks = timeOutTask now (MapTask c) → ¬ all_done tasks →
    (∀ t, t ∈ tasks → t_Status t ≠ TASK_IDLE) →
    assigned now c reply (set_MapTask tasks c) (set_RPCtype RPC_FAIL reply)
| as_map_task tasks i t :
    Stage c = STAGE_MAPPING → tasks = timeOutTask now (MapTask c) →
    tasks !! i = Some t → t_Status t = TASK_IDLE →
    assigned now c reply (set_MapTask (<[i := started now t]> tasks) c) (task_reply RPC_MAP now c t)
| as_reduce_end tasks :
    Stage c = STAGE_REDUCING → tasks = timeOutTask now (ReduceTask c) → all_done tasks →
    assigned now c reply (set_Stage STAGE_FINISHED (set_ReduceTask tasks c)) (set_RPCtype RPC_FAIL reply)
| as_reduce_wait tasks :
    Stage c = STAGE_REDUCING → tasks = timeOutTask now (ReduceTask c) → ¬ all_done tasks →
    (∀ t, t ∈ tasks → t_Status t ≠ TASK_IDLE) →
    assigned now c reply (set_ReduceTask tasks c) (set_RPCtype RPC_FAIL reply)
| as_reduce_task tasks i t :
    Stage c = STAGE_REDUCING → tasks = timeOutTask now (ReduceTask c) →
    tasks !! i = Some t → t_Status t = TASK_IDLE →
    assigned now c reply (set_ReduceTask (<[i := started now t]> tasks) c)
      (task_reply RPC_REDUCE now c t)
| as_finished :
    Stage c = STAGE_FINISHED → assigned now c reply c (set_RPCtype RPC_ALLDONE reply).

Lemma assign_cases now c reply :
  coord_wf c → assigned now c reply (assignTask now c reply).1 (assignTask now c reply).2.
Proof.
  intros Hwf. pose proof (cw_stage _ Hwf) as Hst. unfold assignTask, start_task.
  destruct (Z.eqb_spec (Stage c) STAGE_MAPPING) as [E1|E1];
    [|destruct (Z.eqb_spec (Stage c) STAGE_REDUCING) as [E2|E2]].
  1,2: set (tasks := timeOutTask now _); pose proof (finduncompleted_spec tasks) as Hd;
       pose proof (findIdle_spec tasks) as Hidle;
       destruct (finduncompletedTask tasks);
         [eapply as_map_end || eapply as_reduce_end; tauto|];
       destruct (findIdleTask tasks) as [i|];
         [destruct Hidle as (t & Ht & Hs); rewrite Ht|].
  - by apply (as_map_task now c reply tasks i t).
  - eapply as_map_wait; [done..| |done]. by intros ?%Hd.
  - by apply (as_reduce_task now c reply tasks i t).
  - eapply as_reduce_wait; [done..| |done]. by intros ?%Hd.
  - assert (E3 : Stage c = STAGE_FINISHED)
      by (unfold STAGE_MAPPING, STAGE_REDUCING, STAGE_FINISHED in *; lia).
    rewrite E3. simpl. by apply as_finished.
Qed.

Lemma started_step now tasks i t :
  tasks !! i = Some t → t_Status t = TASK_IDLE → tasks_step tasks (<[i := started now t]> tasks).
Proof.
  intros Hi Ht. eapply tasks_step_insert; [done|].
  unfold task_step. simpl. split_and!; try tauto. rewrite Ht. unfold TASK_IDLE, TASK_DONE. lia.
Qed.

Ltac unfold_stages := unfold STAGE_MAPPING, STAGE_REDUCING, STAGE_FINISHED in *.

#[local] Hint Resolve tasks_step_refl timeOut_step started_step : core.
#[local] Hint Resolve tasks_step_trans : core.

Lemma assign_step now c reply c' r :
  coord_wf c → assigned now c reply c' r → coord_step c c' ∧ coord_wf c'.
Proof.
  intros Hwf Ha. assert (Hs : coord_step c c').
  { destruct Ha; subst; split; simpl; unfold_stages; try (done || lia); eauto. }
  split; [done|]. pose proof (cw_stage _ Hwf).
  apply (coord_step_wf c c' Hwf Hs); destruct Ha; subst; simpl; unfold_stages; try done; lia.
Qed.

Lemma check_step c args reply :
  coord_wf c →
  (Stage c = STAGE_MAPPING → 0 ≤ TaskId args < nMap c) →
  (Stage c = STAGE_REDUCING → 0 ≤ TaskId args < nReduce c) →
  ∃ c' r, checkTask c args reply = Ret (c', r) ∧ coord_step c c' ∧ Stage c' = Stage c.
Proof.
  intros Hwf H1 H2. pose proof (tasks_step_refl (MapTask c)). pose proof (tasks_step_refl (ReduceTask c)).
  unfold checkTask, checkTask_at. destruct (Z.eqb_spec (Stage c) STAGE_MAPPING) as [E|E].
  - destruct (finish_step (MapTask c) (TaskId args)) as (l & -> & Hl).
    { rewrite (proj1 (cw_map _ Hwf)). by apply H1. }
    eexists _, _. split; [done|]. split; [split; simpl; (done || lia)|done].
  - destruct (Z.eqb_spec (Stage c) STAGE_REDUCING) as [E2|E2].
    + destruct (finish_step (ReduceTask c) (TaskId args)) as (l & -> & Hl).
      { rewrite (proj1 (cw_reduce _ Hwf)). by apply H2. }
      eexists _, _. split; [done|]. split; [split; simpl; (done || lia)|done].
    + eexists _, _. split; [done|]. split; [split; (done || lia)|done].
Qed.

Lemma MakeCoordinator_wf files n : 0 ≤ n → coord_wf (MakeCoordinator files n).
Proof.
  intros Hn. split; simpl.
  - split; [unfold zlen; by rewrite length_imap|]. intros i t.
    rewrite list_lookup_imap. destruct (files !! i); [|done]. intros [= <-].
    split; [done|]. by left.
  - split; [unfold zlen; rewrite length_fmap, length_seqZ; lia|]. intros i t.
    rewrite list_lookup_fmap. destruct (seqZ 0 n !! i) as [x|] eqn:Hx; [|done].
    intros [= <-]. apply lookup_seqZ in Hx as [-> _]. split; [simpl; lia|]. by left.
  - unfold STAGE_MAPPING, STAGE_FINISHED. lia.
  - unfold STAGE_MAPPING, STAGE_REDUCING. lia.
  - unfold STAGE_MAPPING, STAGE_FINISHED. lia.
Qed.

(** A reply with a reduce task means the reduce stage. *)
Lemma assign_reduce_stage now c reply c' r :
  assigned now c reply c' r → RPCtype r = RPC_REDUCE → STAGE_REDUCING ≤ Stage c'.
Proof. destruct 1; simpl; unfold RPC_FAIL, RPC_MAP, RPC_REDUCE, RPC_ALLDONE; lia. Qed.

(** The tasks of the current stage, and the ones a worker can get now. *)
Definition tasks_of (c : Coordinator) : list Task :=
  if Stage c =? STAGE_MAPPING then MapTask c else ReduceTask c.

Definition available (now : Z) (t : Task) : Prop :=
  t_Status t = TASK_IDLE ∨ t_Status t = TASK_WORKING ∧ 10000000000 < now - t_StartTime t.

Lemma timeOut_lookup now tasks i :
  timeOutTask now tasks !! i =
  (λ t, if (t_Status t =? TASK_WORKING) && (10000000000 <? now - t_StartTime t)
        then set_Status TASK_IDLE t else t) <$> tasks !! i.
Proof. apply list_lookup_fmap. Qed.

(** A task is idle after the timeouts if and only if it was available. *)
Lemma timeOut_idle now tasks i t :
  tasks !! i = Some t →
  ∃ t', timeOutTask now tasks !! i = Some t' ∧ t_TaskId t' = t_TaskId t ∧
    t_FileName t' = t_FileName t ∧ (t_Status t' = TASK_IDLE ↔ available now t).
Proof.
  intros Hi. rewrite timeOut_lookup, Hi. eexists. split; [done|]. unfold available.
  case_test; simpl; split_and!; try done; unfold TASK_IDLE, TASK_WORKING in *; lia.
Qed.

Lemma timeOut_idle_inv now tasks i t' :
  timeOutTask now tasks !! i = Some t' → t_Status t' = TASK_IDLE →
  ∃ t, tasks !! i = Some t ∧ available now t ∧ t_TaskId t = t_TaskId t' ∧
    t_FileName t = t_FileName t'.
Proof.
  intros Hi Hs. destruct (tasks !! i) as [t|] eqn:Ht.
  - destruct (timeOut_idle now tasks i t Ht) as (t2 & Ht2 & ? & ? & Hiff).
    exists t. simplify_eq. split_and!; [done|by apply Hiff|congruence..].
  - by rewrite timeOut_lookup, Ht in Hi.
Qed.

Lemma not_available now tasks t :
  (∀ t, t ∈ timeOutTask now tasks → t_Status t ≠ TASK_IDLE) → t ∈ tasks → ¬ available now t.
Proof.
  intros Hall [i Hi]%list_elem_of_lookup_1 Ha.
  destruct (timeOut_idle now tasks i t Hi) as (t' & Ht' & _ & _ & Hiff).
  apply (Hall t'); [by eapply list_elem_of_lookup_2|by apply Hiff].
Qed.

Lemma done_not_idle tasks : all_done tasks → ∀ t, t ∈ tasks → t_Status t ≠ TASK_IDLE.
Proof. intros Hd t Ht. rewrite (Hd t Ht). unfold TASK_DONE, TASK_IDLE. lia. Qed.

(** ** Theorems *)

(** C32: Every call to the coordinator keeps its books: as long as a report names a
    task of the current stage, the call does not panic, reduce tasks are only
    handed out when all map tasks are done, the job is only finished when all
    reduce tasks are, and neither the stage nor a finished task ever goes back. *)
Theorem Handlers_preserves now c args reply
    (Hwf : coord_wf c)
    (Hmap : RPCtype args = RPC_WORKDONE → Stage c = STAGE_MAPPING → 0 ≤ TaskId args < nMap c)
    (Hreduce : RPCtype args = RPC_WORKDONE → Stage c = STAGE_REDUCING → 0 ≤ TaskId args < nReduce c) :
  ∃ c' r, Handlers now c args reply = Ret (c', r) ∧ coord_wf c' ∧ coord_step c c' ∧
    (RPCtype args = RPC_REQUEST → RPCtype r = RPC_REDUCE → all_done (MapTask c')) ∧
    (Done c' = true → all_done (MapTask c') ∧ all_done (ReduceTask c')).
Proof.
  assert (∃ c' r, Handlers now c args reply = Ret (c', r) ∧ coord_wf c' ∧ coord_step c c' ∧
    (RPCtype args = RPC_REQUEST → RPCtype r = RPC_REDUCE → STAGE_REDUCING ≤ Stage c'))
    as (c' & r & Hh & Hwf' & Hstep & Hred).
  { unfold Handlers. destruct (Z.eqb_spec (RPCtype args) RPC_REQUEST) as [Eq|Eq].
    - pose proof (assign_cases now c reply Hwf) as Ha.
      destruct (assignTask now c reply) as [c' r]. simpl in Ha. exists c', r.
      destruct (assign_step _ _ _ _ _ Hwf Ha). split_and!; [done..|].
      intros _. by eapply assign_reduce_stage.
    - destruct (Z.eqb_spec (RPCtype args) RPC_WORKDONE) as [Ew|Ew].
      + destruct (check_step c args reply Hwf (Hmap Ew) (Hreduce Ew)) as (c' & r & Hc & Hs & Hst).
        exists c', r. split; [done|]. pose proof (cw_stage _ Hwf).
        split; [|split; [done|intros; congruence]].
        apply (coord_step_wf c c' Hwf Hs); lia.
      + exists c, reply. split_and!; [done..| |done]. split; (lia || apply tasks_step_refl || done). }
  exists c', r. split_and!; try done.
  - intros H1 H2. apply (cw_mapped _ Hwf'). auto.
  - unfold Done. intros Hd%Z.eqb_eq. split.
    + apply (cw_mapped _ Hwf'). unfold STAGE_REDUCING, STAGE_FINISHED in *. lia.
    + apply (cw_reduced _ Hwf'). lia.
Qed.

Lemma Handlers_preserves_witness :
  coord_wf (MakeCoordinator ["a"] 1) ∧
  ∃ c' r, Handlers 5 (MakeCoordinator ["a"] 1) request_args zeroTaskinfo = Ret (c', r) ∧ coord_wf c' ∧
    coord_step (MakeCoordinator ["a"] 1) c' ∧
    (RPCtype request_args = RPC_REQUEST → RPCtype r = RPC_REDUCE → all_done (MapTask c')) ∧
    (Done c' = true → all_done (MapTask c') ∧ all_done (ReduceTask c')).
Proof.
  split; [by apply MakeCoordinator_wf|].
  apply (Handlers_preserves 5 (MakeCoordinator ["a"] 1) request_args zeroTaskinfo); [|done..].
  by apply MakeCoordinator_wf.
Defined.

(** A request takes a task from another worker only after ten seconds, and finds a
    task whenever there is one: a task is handed out if it was idle or has been
    worked on for more than ten seconds, it is now being worked on since [now],
    and all other tasks change only by timing out; a worker is told to wait only
    when no task of the stage is available, and to stop only when the job is
    finished. *)
Theorem assignTask_exclusive now c (Hwf : coord_wf c) :
  let c' := (assignTask now c zeroTaskinfo).1 in
  let r := (assignTask now c zeroTaskinfo).2 in
  (RPCtype r = RPC_FAIL ∧ ∀ t, t ∈ tasks_of c → ¬ available now t) ∨
  (RPCtype r = RPC_ALLDONE ∧ Done c = true ∧ c' = c) ∨
  (RPCtype r = (if Stage c =? STAGE_MAPPING then RPC_MAP else RPC_REDUCE) ∧ Stage c' = Stage c ∧
   ∃ i t t', tasks_of c !! i = Some t ∧ available now t ∧
     TaskId r = Z.of_nat i ∧ Filename r = t_FileName t ∧ StartTime r = now ∧
     t_TaskId t' = Z.of_nat i ∧ t_Status t' = TASK_WORKING ∧ t_StartTime t' = now ∧
     tasks_of c' = <[i := t']> (timeOutTask now (tasks_of c))).
Proof.
  pose proof (assign_cases now c zeroTaskinfo Hwf) as Ha. simpl.
  unfold tasks_of, Done. destruct Ha as [? E ? Hd|? E ? _ Hw|? i t E ? Ht Hi|? E ? Hd|? E ? _ Hw|? i t E ? Ht Hi|E];
    subst; simpl; rewrite E; simpl.
  1,4: left; split; [done|]; intros t Ht; eapply not_available; [by apply done_not_idle|done].
  1,3: left; split; [done|]; intros t Ht; by eapply not_available.
  1,2: right; right; split_and!; [done..|];
    destruct (timeOut_idle_inv _ _ _ _ Ht Hi) as (t0 & Ht0 & Ha & Hid & Hf);
    assert (Hid' : t_TaskId t0 = Z.of_nat i)
      by (apply (cw_map _ Hwf) in Ht0 as [? _] || apply (cw_reduce _ Hwf) in Ht0 as [? _]; done);
    exists i, t0, (started now t); split_and!; (done || (simpl; congruence)).
  right. left. done.
Qed.

Lemma assignTask_exclusive_witness :
  coord_wf (MakeCoordinator ["a"; "b"] 1) ∧
  RPCtype (assignTask 5 (MakeCoordinator ["a"; "b"] 1) zeroTaskinfo).2 = RPC_MAP ∧
  t_Status <$> MapTask (assignTask 5 (MakeCoordinator ["a"; "b"] 1) zeroTaskinfo).1
    = [TASK_WORKING; TASK_IDLE].
Proof.
  pose proof (assignTask_exclusive 5 (MakeCoordinator ["a"; "b"] 1)
    (MakeCoordinator_wf ["a"; "b"] 1 ltac:(lia))) as [[H _]|[[H _]|(H & _)]].
  - vm_compute in H. done.
  - vm_compute in H. done.
  - split; [by apply MakeCoordinator_wf|]. done.
Defined.

(** [reassignTask] would end a job that has just begun: it takes the answer of
    [finduncompletedTask] for its opposite.  The program does not start it. *)
Lemma reassign_ends_job now c :
  coord_wf c → Stage c = STAGE_MAPPING → ¬ all_done (MapTask c) → ¬ all_done (ReduceTask c) →
  Done (reassignTask_tick now c) = true.
Proof.
  intros Hwf Hs Hm Hr. unfold reassignTask_tick. rewrite Hs. simpl. rewrite Hs. simpl.
  assert (Hm' : finduncompletedTask (timeOutTask now (MapTask c)) = false).
  { apply not_true_iff_false. intros Hd%finduncompleted_spec. apply Hm. intros t [i Hi]%list_elem_of_lookup_1.
    destruct (timeOut_idle now _ i t Hi) as (t' & Ht' & _). pose proof Ht' as Hin.
    apply list_elem_of_lookup_2, Hd in Hin. rewrite timeOut_lookup, Hi in Ht'. injection Ht' as <-.
    revert Hin. by case_test. }
  assert (Hr' : finduncompletedTask (ReduceTask c) = false).
  { apply not_true_iff_false. by intros ?%finduncompleted_spec. }
  rewrite Hm'. simpl. rewrite Hr'. done.
Qed.
