(* ===== verification/MapReduceFiles.v ===== *)
(** * Map-reduce: tasks on the file system

    What [execMap] and [execReduce] of mr/worker.go do to the files.  The names of
    intermediate and output files are all different ([inter_name_inj],
    [out_name_inj], [inter_not_out]); a map task writes each of its buckets to its
    file and touches no other ([execMap_spec]); a reduce task writes the lines of
    the records it reads ([execReduce_spec]). *)

From S2P Require Import Prelude MapReduce MapReduceSpec.
From stdpp Require Import pretty.

Local Open Scope Z_scope.

(** ** File names *)

Definition is_digit (a : Ascii.ascii) : bool :=
  let c := Ascii.N_of_ascii a in (48 <=? c)%N && (c <=? 57)%N.

Fixpoint digits (s : string) : bool :=
  match s with
  | EmptyString => true
  | String a s' => is_digit a && digits s'
  end.

Lemma pretty_N_go_digits x s : digits s = true → digits (pretty_N_go x s) = true.
Proof.
  revert s. induction (N.lt_wf_0 x) as [x _ IH]; intros s Hs.
  assert (x = 0 ∨ 0 < x)%N as [->|?] by lia; [done|].
  rewrite pretty_N_go_step by done. apply IH; [by apply N.div_lt|].
  simpl. rewrite Hs. unfold pretty_N_char. by repeat case_match.
Qed.

Lemma pretty_digits z : 0 ≤ z → digits (pretty z) = true.
Proof.
  destruct z as [|p|p]; intros Hz; [done| |lia].
  unfold pretty, pretty_Z, pretty, pretty_positive, pretty, pretty_N.
  case_decide; [done|]. by apply pretty_N_go_digits.
Qed.

(** Digits end where the dash is. *)
Lemma digits_dash s s' x x' :
  digits s = true → digits s' = true → s +:+ "-" +:+ x = s' +:+ "-" +:+ x' → s = s' ∧ x = x'.
Proof.
  revert s'. induction s as [|a s IH]; intros [|a' s'] Hs Hs' Heq; simpl in *; simplify_eq.
  - done.
  - apply andb_true_iff in Hs as [_ Hs]. apply andb_true_iff in Hs' as [_ Hs'].
    edestruct IH as [-> ->]; eauto.
Qed.

Lemma inter_name_inj m r m' r' :
  0 ≤ m → 0 ≤ m' → inter_name m r = inter_name m' r' → m = m' ∧ r = r'.
Proof.
  intros Hm Hm' [H1 H2]%(inj (String.append "mr-"))%digits_dash; [|by apply pretty_digits..].
  by simplify_eq.
Qed.

Lemma out_name_inj r r' : out_name r = out_name r' → r = r'.
Proof. intros H%(inj (String.append "mr-out-")). by simplify_eq. Qed.

Lemma inter_not_out m r r' : 0 ≤ m → inter_name m r ≠ out_name r'.
Proof.
  intros Hm H. change (out_name r') with ("mr-" +:+ ("out-" +:+ pretty r')) in H.
  apply (inj (String.append "mr-")) in H.
  pose proof (pretty_digits m Hm) as Hd. destruct (pretty m) as [|a s]; simpl in H; [done|].
  injection H as -> _. simpl in Hd. done.
Qed.

(** ** Files *)

Definition fs_wf (fs : FileSystem) : Prop :=
  (∀ name i, fs_names fs !! name = Some i → (i < length (fs_files fs))%nat) ∧
  (∀ a b i, fs_names fs !! a = Some i → fs_names fs !! b = Some i → a = b).

(** [fs'] is [fs] with the content [s] under [name]. *)
Definition fs_put (fs : FileSystem) (name s : string) (fs' : FileSystem) : Prop :=
  fs_wf fs' ∧ read_file fs' name = Some s ∧
  ∀ other, other ≠ name → read_file fs' other = read_file fs other.

Lemma read_named fs name i : fs_names fs !! name = Some i → read_file fs name = fs_files fs !! i.
Proof. unfold read_file. by intros ->. Qed.

Lemma fs_wf_new fs name s :
  fs_wf fs →
  fs_put fs name s
    (mkFileSystem (<[name := length (fs_files fs)]> (fs_names fs)) (fs_files fs ++ [s])).
Proof.
  intros [Hr Hi]. split_and!; [split; simpl| |].
  - intros nm i [[-> <-]|[? H%Hr]]%lookup_insert_Some; rewrite length_app; simpl; lia.
  - intros a b i [[<- <-]|[? Ha]]%lookup_insert_Some [[<- Hb]|[? Hb]]%lookup_insert_Some; try done.
    + apply Hr in Hb. lia.
    + apply Hr in Ha. lia.
    + by eapply Hi.
  - rewrite (read_named _ name (length (fs_files fs))) by apply lookup_insert_eq. simpl.
    rewrite lookup_app_r, Nat.sub_diag by done. done.
  - intros other Hne. unfold read_file. simpl. rewrite lookup_insert_ne by done.
    destruct (fs_names fs !! other) as [i|] eqn:Ho; simpl; [|done].
    rewrite lookup_app_l; [done|]. by eapply Hr.
Qed.

Lemma fs_wf_overwrite fs name i s files :
  fs_wf fs → fs_names fs !! name = Some i → files = <[i := s]> (fs_files fs) →
  fs_put fs name s (mkFileSystem (fs_names fs) files).
Proof.
  intros [Hr Hi] Hn ->. split_and!; [split; simpl| |].
  - intros nm j Hj. rewrite length_insert. by eapply Hr.
  - done.
  - rewrite (read_named _ name i) by done. simpl. apply list_lookup_insert_eq. by eapply Hr.
  - intros other Hne. unfold read_file. simpl.
    destruct (fs_names fs !! other) as [j|] eqn:Ho; simpl; [|done].
    rewrite list_lookup_insert_ne; [done|]. intros ->. by apply Hne, (Hi _ _ j).
Qed.

(** A name now has the open file [i] with the content [s]; other names are as before. *)
Definition same_file (fs fs' : FileSystem) (name : string) : Prop :=
  fs_names fs' !! name = fs_names fs !! name ∧ read_file fs' name = read_file fs name.

Record fs_open (fs : FileSystem) (name s : string) (i : nat) (fs' : FileSystem) : Prop := {
  fo_put : fs_put fs name s fs';
  fo_name : fs_names fs' !! name = Some i;
  fo_other : ∀ other, other ≠ name → same_file fs fs' other
}.

Lemma fresh_file_open fs name :
  fs_wf fs → fs_open fs name EmptyString (fresh_file fs name).2 (fresh_file fs name).1.
Proof.
  intros Hwf. pose proof (fs_wf_new fs name EmptyString Hwf) as Hp. split; [done|apply lookup_insert_eq|].
  intros other Hne. split; [simpl; by rewrite lookup_insert_ne|by apply Hp].
Qed.

Lemma create_file_open fs name :
  fs_wf fs → fs_open fs name EmptyString (create_file fs name).2 (create_file fs name).1.
Proof.
  intros Hwf. unfold create_file. destruct (fs_names fs !! name) as [i|] eqn:Hn; [|by apply fresh_file_open].
  pose proof (fs_wf_overwrite fs name i EmptyString _ Hwf Hn eq_refl) as Hp. split; [done|done|].
  intros other Hne. split; [done|by apply Hp].
Qed.

Lemma append_text_open fs name i s x :
  fs_wf fs → fs_names fs !! name = Some i → read_file fs name = Some s →
  fs_open fs name (s +:+ x) i (append_text fs i x).
Proof.
  intros Hwf Hn Hs. assert (Hp : fs_put fs name (s +:+ x) (append_text fs i x)).
  { eapply fs_wf_overwrite; [done..|]. rewrite (read_named _ _ _ Hn) in Hs. rewrite list_insert_alter.
    apply list_alter_ext; [|done]. intros y Hy. by simplify_eq. }
  split; [done|done|]. intros other Hne. split; [done|by apply Hp].
Qed.

Lemma append_all_put ls fs name i s :
  fs_wf fs → fs_names fs !! name = Some i → read_file fs name = Some s →
  fs_put fs name (s +:+ concat_str ls) (foldl (λ fs l, append_text fs i l) fs ls).
Proof.
  revert fs s. induction ls as [|l ls IH]; intros fs s Hwf Hn Hs; simpl.
  - change (concat_str _) with EmptyString. by rewrite str_app_nil.
  - destruct (append_text_open fs name i s l Hwf Hn Hs) as [(Hwf' & Hs' & Ho) Hn' _].
    destruct (IH (append_text fs i l) (s +:+ l)) as (Hwf2 & Hs2 & Ho2); [done..|].
    split_and!; [done|by rewrite Hs2, str_app_assoc|].
    intros other Hne. by rewrite Ho2, Ho.
Qed.

Lemma write_lines_put fs name lines :
  fs_wf fs → fs_put fs name (concat_str lines) (write_lines fs name lines).
Proof.
  intros Hwf. unfold write_lines. destruct (create_file_open fs name Hwf) as [(Hwf' & Hs & Ho) Hn _].
  destruct (create_file fs name) as [fs1 i]. simpl in *.
  destruct (append_all_put lines fs1 name i EmptyString Hwf' Hn Hs) as (? & ? & Ho2).
  split_and!; [done..|]. intros other Hne. by rewrite Ho2, Ho.
Qed.

Section tasks.
Context `{RecordCodec, KeySorter}.

Lemma write_records_put kvs fs name i s :
  fs_wf fs → fs_names fs !! name = Some i → read_file fs name = Some s →
  fs_put fs name (s +:+ concat_str (encode <$> kvs)) (foldl (λ fs kv, write_record fs i kv) fs kvs).
Proof.
  intros Hwf Hn Hs. pose proof (append_all_put (encode <$> kvs) fs name i s Hwf Hn Hs) as Hp.
  revert Hp. generalize (s +:+ concat_str (encode <$> kvs)). clear Hwf Hn Hs s. intros s'.
  enough (∀ fs1, foldl (λ fs l, append_text fs i l) fs1 (encode <$> kvs) = foldl (λ fs kv, write_record fs i kv) fs1 kvs)
    as Hfold by by rewrite Hfold.
  induction kvs as [|kv kvs IH]; intros fs1; [done|]. apply IH.
Qed.

(** The content of a file of records. *)
Definition record_file (l : list KeyValue) : string := concat_str (encode <$> l).

Lemma write_buckets_spec m rs fs inter :
  0 ≤ m → NoDup rs → (∀ r, r ∈ rs → 0 ≤ r < zlen inter) → fs_wf fs →
  ∃ fs', write_buckets fs m rs inter = Ret fs' ∧ fs_wf fs' ∧
    (∀ r kvs, r ∈ rs → index inter r = Ret kvs →
       read_file fs' (inter_name m r) = Some (record_file kvs)) ∧
    (∀ name, (∀ r, r ∈ rs → name ≠ inter_name m r) → read_file fs' name = read_file fs name).
Proof.
  intros Hm Hnd. revert fs. induction Hnd as [|r rs Hr _ IH]; intros fs Hrs Hwf; simpl.
  { eexists. split_and!; [done..|set_solver|done]. }
  destruct (index_safe inter r) as [kvs Hkvs]; [apply Hrs; set_solver|]. rewrite Hkvs, bind_Ret.
  destruct (fs_wf_new fs (inter_name m r) EmptyString Hwf) as (Hwf1 & Hs1 & Ho1).
  destruct (write_records_put kvs _ (inter_name m r) (length (fs_files fs)) EmptyString Hwf1)
    as (Hwf2 & Hs2 & Ho2); [apply lookup_insert_eq|done|].
  edestruct IH as (fs' & -> & Hwf' & Hin & Hout); [intros; apply Hrs; set_solver|exact Hwf2|].
  exists fs'. split_and!; [done..| |].
  - intros r' kvs' [->|Hr']%elem_of_cons Hk; [|by apply Hin].
    assert (kvs' = kvs) as -> by congruence.
    rewrite Hout; [exact Hs2|]. intros r' Hr' [_ <-]%inter_name_inj; done.
  - intros name Hname. rewrite Hout, Ho2, Ho1; [done| | |]; intros; apply Hname; set_solver.
Qed.

Lemma execMap_spec mapf fs t contents :
  fs_wf fs → 0 ≤ TaskId t → 0 < NReduce t → read_file fs (Filename t) = Some contents →
  ∃ fs', execMap fs t mapf = Ret (Some fs') ∧ fs_wf fs' ∧
    (∀ r, 0 ≤ r < NReduce t → read_file fs' (inter_name (TaskId t) r) =
       Some (record_file (bucket (NReduce t) r (mapf (Filename t) contents)))) ∧
    (∀ name, (∀ r, 0 ≤ r < NReduce t → name ≠ inter_name (TaskId t) r) →
       read_file fs' name = read_file fs name).
Proof.
  intros Hwf Hid Hn Hread. unfold execMap. rewrite Hread.
  destruct (fill_buckets_spec (NReduce t) (mapf (Filename t) contents)
    (replicate (Z.to_nat (NReduce t)) [])) as (inter & -> & Hlen & Hb); [done| |].
  { unfold zlen. rewrite length_replicate. lia. }
  rewrite bind_Ret.
  destruct (write_buckets_spec (TaskId t) (seqZ 0 (NReduce t)) fs inter) as (fs' & -> & Hwf' & Hin & Hout);
    [done|apply NoDup_seqZ|intros r Hr%elem_of_seqZ; lia|done|].
  exists fs'. split_and!; [done..| |].
  - intros r Hr. eapply Hin; [apply elem_of_seqZ; lia|]. apply (Hb r []).
    apply index_Ret. split; [lia|]. apply lookup_replicate. split; [done|lia].
  - intros name Hname. apply Hout. intros r Hr%elem_of_seqZ. apply Hname. lia.
Qed.

(** The records of the buckets for [r] are read back in order. *)
Lemma read_inter_spec fs r ms (ls : Z → list KeyValue) :
  (∀ m, m ∈ ms → read_file fs (inter_name m r) = Some (record_file (ls m)) ∧ Forall encodable (ls m)) →
  read_inter fs r ms = Ret (mjoin (ls <$> ms)).
Proof.
  induction ms as [|m ms IH]; intros Hms; [done|]. simpl.
  destruct (Hms m) as [-> Henc]; [set_solver|]. rewrite IH by (intros; apply Hms; set_solver).
  unfold record_file. by rewrite bind_Ret, decode_encoded.
Qed.

Lemma execReduce_spec reducef fs t (ls : Z → list KeyValue) :
  fs_wf fs →
  (∀ m, 0 ≤ m < NMap t →
     read_file fs (inter_name m (TaskId t)) = Some (record_file (ls m)) ∧ Forall encodable (ls m)) →
  ∃ fs', execReduce fs t reducef = Ret fs' ∧
    fs_put fs (out_name (TaskId t))
      (concat_str (reduce_lines reducef (sort_byKey (mjoin (ls <$> seqZ 0 (NMap t)))))) fs'.
Proof.
  intros Hwf Hls. unfold execReduce. rewrite (read_inter_spec _ _ _ ls).
  - eexists. split; [done|]. by apply write_lines_put.
  - intros m Hm%elem_of_seqZ. apply Hls. lia.
Qed.
End tasks.
