(* ===== verification/MapReduceJson.v ===== *)
(** * Map-reduce: an encoder and a sort

    Instances of the interfaces of [MapReduce]: the encoding of a record as
    encoding/json writes it ([json_encode]) with a decoder for what it wrote, and a
    stable sort by key.  The encoder escapes quotes, backslashes, control
    characters and [<], [>], [&]; the round trip ([json_records_encode]) is for strings
    of ASCII characters, which JSON represents as they are. *)

From S2P Require Import Prelude MapReduce.
From Stdlib Require Import Ascii.

Local Open Scope Z_scope.

(** ** Strings *)

Definition quote : ascii := ascii_of_nat 34.
Definition backslash : ascii := ascii_of_nat 92.

Definition hex_digit (x : N) : ascii :=
  ascii_of_N (if (x <? 10)%N then 48 + x else 87 + x)%N.

Definition hex_value (a : ascii) : N :=
  let c := N_of_ascii a in if (c <? 58)%N then (c - 48)%N else (c - 87)%N.

(** The characters written with an escape of their own. *)
Definition short_escape (c : N) : option ascii :=
  match c with
  | 34 => Some quote | 92 => Some backslash
  | 10 => Some "n"%char | 13 => Some "r"%char | 9 => Some "t"%char
  | _ => None
  end%N.

Definition needs_unicode (c : N) : bool :=
  ((c <? 32) || (c =? 60) || (c =? 62) || (c =? 38))%N.

Definition json_char (a : ascii) (rest : string) : string :=
  let c := N_of_ascii a in
  match short_escape c with
  | Some e => String backslash (String e rest)
  | None =>
      if needs_unicode c then
        String backslash (String "u" (String "0" (String "0"
          (String (hex_digit (c / 16)) (String (hex_digit (c mod 16)) rest)))))
      else String a rest
  end.

(** The characters of [s], the closing quote, and [rest]. *)
Fixpoint json_string (s rest : string) : string :=
  match s with
  | EmptyString => String quote rest
  | String a s' => json_char a (json_string s' rest)
  end.

Definition unescape (e : ascii) : ascii :=
  match N_of_ascii e with
  | 98 => ascii_of_N 8 | 102 => ascii_of_N 12
  | 110 => ascii_of_N 10 | 114 => ascii_of_N 13 | 116 => ascii_of_N 9
  | _ => e
  end%N.

Fixpoint parse_string (s : string) : option (string * string) :=
  match s with
  | EmptyString => None
  | String a s1 =>
      if Ascii.eqb a quote then Some (EmptyString, s1)
      else if Ascii.eqb a backslash then
        match s1 with
        | String e s2 =>
            if Ascii.eqb e "u" then
              match s2 with
              | String _ (String _ (String h (String l s3))) =>
                  prod_map (String (ascii_of_N (16 * hex_value h + hex_value l))) id
                    <$> parse_string s3
              | _ => None
              end
            else prod_map (String (unescape e)) id <$> parse_string s2
        | EmptyString => None
        end
      else prod_map (String a) id <$> parse_string s1
  end.

Lemma parse_char a rest :
  parse_string (json_char a rest) = prod_map (String a) id <$> parse_string rest.
Proof. destruct a as [[] [] [] [] [] [] [] []]; reflexivity. Qed.

Lemma parse_json s rest : parse_string (json_string s rest) = Some (s, rest).
Proof.
  induction s as [|a s IH]; [done|]. simpl. rewrite parse_char, IH. done.
Qed.

(** ** Records *)

Fixpoint skip (p s : string) : option string :=
  match p, s with
  | EmptyString, _ => Some s
  | String a p', String b s' => if Ascii.eqb a b then skip p' s' else None
  | _, _ => None
  end.

Definition quoted (s : string) : string := String quote (s +:+ String quote EmptyString).
Definition key_field : string := "{" +:+ quoted "Key" +:+ ":" +:+ String quote EmptyString.
Definition value_field : string := "," +:+ quoted "Value" +:+ ":" +:+ String quote EmptyString.
Definition record_end : string := "}" +:+ newline.

Definition json_encode (kv : KeyValue) : string :=
  key_field +:+ json_string (kv_Key kv) (value_field +:+ json_string (kv_Value kv) record_end).

Definition json_record (s : string) : option (KeyValue * string) :=
  s ← skip key_field s;
  '(k, s) ← parse_string s;
  s ← skip value_field s;
  '(v, s) ← parse_string s;
  s ← skip record_end s;
  Some (mkKeyValue k v, s).

(** The records up to the first error; a record takes at least one character. *)
Fixpoint json_records (fuel : nat) (s : string) : list KeyValue :=
  match fuel with
  | O => []
  | S fuel =>
      match json_record s with
      | Some (kv, s) => kv :: json_records fuel s
      | None => []
      end
  end.

Definition json_decode (s : string) : list KeyValue := json_records (String.length s) s.

Fixpoint is_ascii (s : string) : bool :=
  match s with
  | EmptyString => true
  | String a s' => (N_of_ascii a <? 128)%N && is_ascii s'
  end.

Definition json_encodable (kv : KeyValue) : Prop := is_ascii (kv_Key kv) = true ∧ is_ascii (kv_Value kv) = true.

Lemma skip_app p s : skip p (p +:+ s) = Some s.
Proof.
  induction p as [|a p IH]; [done|]. simpl. by rewrite Ascii.eqb_refl.
Qed.

Lemma json_string_app s r r' : json_string s r +:+ r' = json_string s (r +:+ r').
Proof.
  induction s as [|a s IH]; [done|]. simpl. rewrite <- IH. unfold json_char.
  destruct (short_escape _); [done|]. by destruct (needs_unicode _).
Qed.

Lemma json_record_encode kv rest : json_record (json_encode kv +:+ rest) = Some (kv, rest).
Proof.
  unfold json_record, json_encode.
  rewrite str_app_assoc, json_string_app, str_app_assoc, json_string_app.
  rewrite skip_app; cbn [mbind option_bind].
  rewrite parse_json; cbn [mbind option_bind].
  rewrite skip_app; cbn [mbind option_bind].
  rewrite parse_json; cbn [mbind option_bind].
  rewrite skip_app; cbn [mbind option_bind].
  by destruct kv.
Qed.

Lemma encode_length kv rest :
  (String.length rest < String.length (json_encode kv +:+ rest))%nat.
Proof.
  unfold json_encode. rewrite str_app_assoc, str_length_app. change (String.length key_field) with 8%nat.
  rewrite json_string_app, str_app_assoc.
  assert (H : ∀ s r, (String.length r ≤ String.length (json_string s r))%nat).
  { induction s as [|a s IH]; intros r; simpl; [lia|]. rewrite (IH r). unfold json_char.
    destruct (short_escape _); simpl; [lia|]. destruct (needs_unicode _); simpl; lia. }
  pose proof (H (kv_Key kv) (value_field +:+ json_string (kv_Value kv) record_end +:+ rest)) as H1.
  pose proof (H (kv_Value kv) (record_end +:+ rest)) as H2.
  rewrite json_string_app in *. rewrite !str_length_app in H1, H2. lia.
Qed.

Lemma json_records_encode fuel l :
  (String.length (concat_str (json_encode <$> l)) ≤ fuel)%nat →
  json_records fuel (concat_str (json_encode <$> l)) = l.
Proof.
  revert l. induction fuel as [|fuel IH]; intros [|kv l] Hf; [done| |done|];
    pose proof (encode_length kv (concat_str (json_encode <$> l))) as Hlen;
    rewrite fmap_cons, concat_str_cons in *.
  - lia.
  - simpl. rewrite json_record_encode, IH by lia. done.
Qed.

#[export] Instance json_codec : RecordCodec := {|
  encode := json_encode;
  decode := json_decode;
  encodable := json_encodable;
  decode_encoded l _ := json_records_encode _ l (le_n _)
|}.

(** ** Sorting *)

Definition key_le (a b : KeyValue) : Prop := String.leb (kv_Key a) (kv_Key b) = true.

#[local] Instance key_le_dec a b : Decision (key_le a b).
Proof. unfold key_le. apply _. Defined.

#[local] Instance key_le_trans : Transitive key_le.
Proof.
  unfold key_le. intros a b c H1 H2. apply Is_true_true. apply Is_true_true in H1, H2.
  pose proof (transitivity (R := String.le) (y := kv_Key b) H1 H2). done.
Qed.

#[local] Instance key_le_total : Total key_le.
Proof. intros a b. unfold key_le. apply String.leb_total. Qed.

#[export, program] Instance merge_key_sorter : KeySorter := {|
  sort_byKey := merge_sort key_le
|}.
Next Obligation. intros l. apply merge_sort_Permutation. Qed.
Next Obligation. intros l. apply (StronglySorted_merge_sort key_le). Qed.
