(* ===== verification/MapReduceWork.v ===== *)
(** * Map-reduce: a worker, step by step

    [execMap] and [execReduce] of mr/worker.go cut where other workers can come in
    between: reading an input file, creating each intermediate file, writing each of
    its records, reading each intermediate file, creating the output file and
    printing each of its lines are steps of their own ([work]), and a worker may crash
    after any of them.  Steps of a worker lead to what [execMap] and [execReduce] do
    as a whole ([exec_works]).  What holds of the files of its task at each point is
    [files_good]; a step keeps it and touches no file of another task ([work_good]). *)

From S2P Require Import Prelude MapReduce MapReduceSpec MapReduceCoord MapReduceFiles MapReduceJson.
From stdpp Require Import pretty.

Local Open Scope Z_scope.

(** What a worker is doing: with [rs] the buckets it has still to write, [i] the file
    it has open and [kvs] the records it has still to write there; with [ms] the
    files it has still to read and [kva] the records it has read; with [lines] what it has
    still to print.  The report of an executed task is under way, or the coordinator
    has read its stage for it. *)
Inductive wstate :=
| WIdle
| WTask (t : Taskinfo)
| WBuckets (t : Taskinfo) (rs : list Z) (inter : list (list KeyValue))
| WRecords (t : Taskinfo) (rs : list Z) (inter : list (list KeyValue)) (i : nat) (kvs : list KeyValue)
| WRead (t : Taskinfo) (ms : list Z) (kva : list KeyValue)
| WLines (t : Taskinfo) (i : nat) (lines : list string)
| WExecuted (t : Taskinfo)
| WReporting (t : Taskinfo) (stage : Z)
| WGone.

(** The switch of [Worker] on the reply to a request. *)
Definition next_state (r : Taskinfo) : wstate :=
  if (RPCtype r =? RPC_MAP) || (RPCtype r =? RPC_REDUCE) then WTask r
  else if RPCtype r =? RPC_ALLDONE then WGone
  else WIdle.

(** The task a worker has, from the reply to the request to the end of the report. *)
Definition held (w : wstate) : option Taskinfo :=
  match w with
  | WIdle | WGone => None
  | WTask t | WBuckets t _ _ | WRecords t _ _ _ _ | WRead t _ _ | WLines t _ _ | WExecuted t | WReporting t _ => Some t
  end.

(** Which task that is. *)
Definition task_key (t : Taskinfo) : Z * Z := (RPCtype t, TaskId t).

Section worker.
Context `{RecordCodec, KeySorter}.
Context (mapf : string → string → list KeyValue) (reducef : string → list string → string).

(** The next step of a worker that executes a task; [None] if it does not. *)
Definition work (fs : FileSystem) (w : wstate) : Go (option (FileSystem * wstate)) :=
  match w with
  | WTask t =>
      if RPCtype t =? RPC_MAP then
        match read_file fs (Filename t) with
        | Some contents =>
            let kva := mapf (Filename t) contents in
            intermediate ← fill_buckets (NReduce t) kva (replicate (Z.to_nat (NReduce t)) []);
            Ret (Some (fs, WBuckets t (seqZ 0 (NReduce t)) intermediate))
        | None => Ret (Some (fs, WGone))
        end
      else Ret (Some (fs, WRead t (seqZ 0 (NMap t)) []))
  | WBuckets t (r :: rs) inter =>
      let '(fs, i) := fresh_file fs (inter_name (TaskId t) r) in
      kvs ← index inter r;
      Ret (Some (fs, WRecords t rs inter i kvs))
  | WBuckets t [] _ => Ret (Some (fs, WExecuted t))
  | WRecords t rs inter i (kv :: kvs) => Ret (Some (write_record fs i kv, WRecords t rs inter i kvs))
  | WRecords t rs inter _ [] => Ret (Some (fs, WBuckets t rs inter))
  | WRead t (m :: ms) kva =>
      match read_file fs (inter_name m (TaskId t)) with
      | None => Panic PUser
      | Some s => Ret (Some (fs, WRead t ms (kva ++ decode s)))
      end
  | WRead t [] kva =>
      let '(fs, i) := create_file fs (out_name (TaskId t)) in
      Ret (Some (fs, WLines t i (reduce_lines reducef (sort_byKey kva))))
  | WLines t i (l :: lines) => Ret (Some (append_text fs i l, WLines t i lines))
  | WLines t _ [] => Ret (Some (fs, WExecuted t))
  | WIdle | WExecuted _ | WReporting _ _ | WGone => Ret None
  end.

Definition works (a b : FileSystem * wstate) : Prop := work a.1 a.2 = Ret (Some b).

(** ** Undisturbed, the steps are [execMap] and [execReduce] *)
Definition exec (fs : FileSystem) (t : Taskinfo) : Go (option FileSystem) :=
  if RPCtype t =? RPC_MAP then execMap fs t mapf
  else fs ← execReduce fs t reducef; Ret (Some fs).

Lemma records_works t rs inter i kvs fs :
  rtc works (fs, WRecords t rs inter i kvs) (foldl (λ fs kv, write_record fs i kv) fs kvs, WBuckets t rs inter).
Proof.
  revert fs. induction kvs as [|kv kvs IH]; intros fs; [by apply rtc_once|]. simpl. eapply rtc_l; [|apply IH]. done.
Qed.

Lemma buckets_works t rs inter fs fs' :
  write_buckets fs (TaskId t) rs inter = Ret fs' → rtc works (fs, WBuckets t rs inter) (fs', WExecuted t).
Proof.
  revert fs. induction rs as [|r rs IH]; intros fs Hw; simpl in Hw.
  - injection Hw as <-. by apply rtc_once.
  - inv_bind Hw. eapply rtc_l; [unfold works; simpl; by rewrite Hb|]. etrans; [apply records_works|]. by apply IH.
Qed.

Lemma read_works t ms kva kva' fs :
  read_inter fs (TaskId t) ms = Ret kva' → rtc works (fs, WRead t ms kva) (fs, WRead t [] (kva ++ kva')).
Proof.
  revert kva kva'. induction ms as [|m ms IH]; intros kva kva' Hr; simpl in Hr.
  - injection Hr as <-. rewrite app_nil_r. apply rtc_refl.
  - destruct (read_file fs (inter_name m (TaskId t))) as [s|] eqn:Hs; [|done]. inv_bind Hr. injection Hr as <-.
    eapply rtc_l; [unfold works; simpl; by rewrite Hs|]. rewrite app_assoc. by apply IH.
Qed.

Lemma lines_works t i lines fs :
  rtc works (fs, WLines t i lines) (foldl (λ fs l, append_text fs i l) fs lines, WExecuted t).
Proof.
  revert fs. induction lines as [|l lines IH]; intros fs; [by apply rtc_once|]. simpl. eapply rtc_l; [|apply IH]. done.
Qed.

Lemma exec_works fs t fs' : exec fs t = Ret (Some fs') → rtc works (fs, WTask t) (fs', WExecuted t).
Proof.
  unfold exec. destruct (RPCtype t =? RPC_MAP) eqn:Hty; intros He.
  - unfold execMap in He. destruct (read_file fs (Filename t)) as [contents|] eqn:Hf; [|done].
    inv_bind He. inv_bind He. injection He as ->.
    eapply rtc_l; [unfold works; simpl; by rewrite Hty, Hf, Hb|]. by apply buckets_works.
  - inv_bind He. injection He as ->. unfold execReduce in Hb. inv_bind Hb. injection Hb as <-.
    eapply rtc_l; [unfold works; simpl; by rewrite Hty|]. etrans; [by apply read_works|]. simpl.
    unfold write_lines. destruct (create_file fs (out_name (TaskId t))) as [fs1 i] eqn:Hc.
    eapply rtc_l; [unfold works; simpl; by rewrite Hc|]. apply lines_works.
Qed.

(** ** Jobs *)

Context (files : list string) (n : Z) (fs0 : FileSystem).

(** The number of reduce tasks is positive, the input files exist and are not
    named like files of the job, and the map function produces records that JSON
    can represent. *)
Record job_ok : Prop := {
  jo_n : 0 < n;
  jo_fs : fs_wf fs0;
  jo_inputs : ∀ f, f ∈ files → is_Some (read_file fs0 f);
  jo_inter : ∀ f m r, f ∈ files → 0 ≤ m → 0 ≤ r → f ≠ inter_name m r;
  jo_out : ∀ f r, f ∈ files → 0 ≤ r → f ≠ out_name r;
  jo_encodable : ∀ f contents, f ∈ files → read_file fs0 f = Some contents →
    Forall encodable (mapf f contents)
}.

(** The records of map task [m], and the lines of reduce task [r]. *)
Definition records (m : Z) : list KeyValue :=
  match files !! Z.to_nat m with
  | Some f => match read_file fs0 f with Some contents => mapf f contents | None => [] end
  | None => []
  end.

Definition map_ids : list Z := seqZ 0 (zlen files).

Definition out_lines (r : Z) : list string :=
  reduce_lines reducef (sort_byKey (mjoin ((λ m, bucket n r (records m)) <$> map_ids))).

(** The files of a finished map task, and of a finished reduce task. *)
Definition bucket_file (fs : FileSystem) (m r : Z) : Prop :=
  read_file fs (inter_name m r) = Some (record_file (bucket n r (records m))).

Definition mapped (fs : FileSystem) (m : Z) : Prop := ∀ r, 0 ≤ r < n → bucket_file fs m r.

Definition reduced (fs : FileSystem) (r : Z) : Prop :=
  read_file fs (out_name r) = Some (concat_str (out_lines r)).

(** A task as the coordinator hands it out. *)
Record task_good (t : Taskinfo) : Prop := {
  tg_NMap : NMap t = zlen files;
  tg_NReduce : NReduce t = n;
  tg_kind :
    RPCtype t = RPC_MAP ∧ 0 ≤ TaskId t < zlen files ∧ files !! Z.to_nat (TaskId t) = Some (Filename t) ∨
    RPCtype t = RPC_REDUCE ∧ 0 ≤ TaskId t < n
}.

(** The files of a task that a worker is executing, as far as it is. *)
Definition files_good (fs : FileSystem) (w : wstate) : Prop :=
  match w with
  | WIdle | WGone | WTask _ => True
  | WBuckets t rs inter =>
      RPCtype t = RPC_MAP ∧ (∀ r, 0 ≤ r < n → index inter r = Ret (bucket n r (records (TaskId t)))) ∧
      ∃ done, seqZ 0 n = done ++ rs ∧ ∀ r, r ∈ done → bucket_file fs (TaskId t) r
  | WRecords t rs inter i kvs =>
      RPCtype t = RPC_MAP ∧ (∀ r, 0 ≤ r < n → index inter r = Ret (bucket n r (records (TaskId t)))) ∧
      ∃ done r kvs0, seqZ 0 n = done ++ r :: rs ∧ (∀ r, r ∈ done → bucket_file fs (TaskId t) r) ∧
        fs_names fs !! inter_name (TaskId t) r = Some i ∧
        read_file fs (inter_name (TaskId t) r) = Some (record_file kvs0) ∧
        bucket n r (records (TaskId t)) = kvs0 ++ kvs
  | WRead t ms kva =>
      RPCtype t = RPC_REDUCE ∧ ∃ done, map_ids = done ++ ms ∧
        kva = mjoin ((λ m, bucket n (TaskId t) (records m)) <$> done)
  | WLines t i lines =>
      RPCtype t = RPC_REDUCE ∧ ∃ printed, out_lines (TaskId t) = printed ++ lines ∧
        fs_names fs !! out_name (TaskId t) = Some i ∧
        read_file fs (out_name (TaskId t)) = Some (concat_str printed)
  | WExecuted t | WReporting t _ =>
      (RPCtype t = RPC_MAP → mapped fs (TaskId t)) ∧ (RPCtype t = RPC_REDUCE → reduced fs (TaskId t))
  end.

(** The names of the files of a task; no two tasks share one. *)
Definition own (t : Taskinfo) (name : string) : Prop :=
  RPCtype t = RPC_MAP ∧ (∃ r, 0 ≤ r < n ∧ name = inter_name (TaskId t) r) ∨
  RPCtype t = RPC_REDUCE ∧ name = out_name (TaskId t).

Lemma own_unique t t' name :
  task_good t → task_good t' → own t name → own t' name → task_key t = task_key t'.
Proof.
  intros [_ _ Hk] [_ _ Hk'] Ho Ho'. unfold task_key.
  assert (RPCtype t = RPC_MAP → 0 ≤ TaskId t) by (unfold RPC_MAP, RPC_REDUCE in *; lia).
  assert (RPCtype t' = RPC_MAP → 0 ≤ TaskId t') by (unfold RPC_MAP, RPC_REDUCE in *; lia).
  destruct Ho as [(E & r & ? & ->)|[E ->]], Ho' as [(E' & r' & ? & Hn)|[E' Hn]]; rewrite E, E'.
  - apply inter_name_inj in Hn as [-> _]; auto.
  - exfalso. eapply inter_not_out; [|exact Hn]. auto.
  - exfalso. symmetry in Hn. eapply inter_not_out; [|exact Hn]. auto.
  - by apply out_name_inj in Hn as ->.
Qed.

Lemma own_inter t r : RPCtype t = RPC_MAP → 0 ≤ r < n → own t (inter_name (TaskId t) r).
Proof. intros Ht Hr. left. split; [done|]. by exists r. Qed.

Lemma own_out t : RPCtype t = RPC_REDUCE → own t (out_name (TaskId t)).
Proof. intros Ht. by right. Qed.

Lemma elem_done (done rs : list Z) r : seqZ 0 n = done ++ rs → r ∈ done → 0 ≤ r < n.
Proof.
  intros Hs Hr. assert (r ∈ seqZ 0 n) as ?%elem_of_seqZ; [|lia]. rewrite Hs. set_solver.
Qed.

Lemma elem_next (done rs : list Z) r : seqZ 0 n = done ++ r :: rs → 0 ≤ r < n.
Proof. intros Hs. assert (r ∈ seqZ 0 n) as ?%elem_of_seqZ; [|lia]. rewrite Hs. set_solver. Qed.

(** Nothing else matters to a worker. *)
Lemma files_good_frame fs fs' w :
  (∀ t name, held w = Some t → own t name → same_file fs fs' name) → files_good fs w → files_good fs' w.
Proof.
  intros Hs. destruct w as [|t|t rs inter|t rs inter i kvs|t ms kva|t i lines|t|t stage|]; simpl in *; try done.
  - intros (Ht & Hb & done & Hd & Hf). split_and!; [done..|]. exists done. split; [done|]. intros r Hr. unfold bucket_file.
    destruct (Hs t (inter_name (TaskId t) r) eq_refl) as [_ ->]; [apply own_inter; [done|by eapply elem_done]|by apply Hf].
  - intros (Ht & Hb & done & r & kvs0 & Hd & Hf & Hn & Hr & Hk). split_and!; [done..|].
    destruct (Hs t (inter_name (TaskId t) r) eq_refl) as [En Er]; [apply own_inter; [done|by eapply elem_next]|].
    exists done, r, kvs0. rewrite En, Er. split_and!; [done| |done..]. intros r' Hr'. unfold bucket_file.
    destruct (Hs t (inter_name (TaskId t) r') eq_refl) as [_ ->]; [apply own_inter; [done|by eapply elem_done]|by apply Hf].
  - intros (Ht & done & Hd & Hn & Hr). destruct (Hs t (out_name (TaskId t)) eq_refl) as [En Er]; [by apply own_out|].
    split; [done|]. exists done. by rewrite En, Er.
  - intros [Hm Hr]. split; intros Ht.
    + intros r Hrr. unfold bucket_file. destruct (Hs t _ eq_refl (own_inter t r Ht Hrr)) as [_ ->]. by apply Hm.
    + unfold reduced. destruct (Hs t _ eq_refl (own_out t Ht)) as [_ ->]. by apply Hr.
  - intros [Hm Hr]. split; intros Ht.
    + intros r Hrr. unfold bucket_file. destruct (Hs t _ eq_refl (own_inter t r Ht Hrr)) as [_ ->]. by apply Hm.
    + unfold reduced. destruct (Hs t _ eq_refl (own_out t Ht)) as [_ ->]. by apply Hr.
Qed.

Context (Hjob : job_ok).

(** The inputs are no files of a task. *)
Lemma own_not_input t name f : task_good t → own t name → f ∈ files → f ≠ name.
Proof using Hjob.
  intros [_ _ Hk] Ho Hf. destruct Ho as [(E & r & ? & ->)|[E ->]]; rewrite E in Hk; unfold RPC_MAP, RPC_REDUCE in Hk.
  - apply Hjob; [done|lia..].
  - apply Hjob; [done|lia].
Qed.

Lemma records_encodable m : Forall encodable (records m).
Proof using Hjob.
  unfold records. destruct (files !! Z.to_nat m) as [f|] eqn:Hf; [|constructor].
  destruct (read_file fs0 f) eqn:Hr; [|constructor].
  apply (jo_encodable Hjob f); [by eapply list_elem_of_lookup_2|done].
Qed.

Lemma decode_bucket m r : decode (record_file (bucket n r (records m))) = bucket n r (records m).
Proof using Hjob.
  apply decode_encoded, Forall_forall. intros kv [_ Hkv]%list_elem_of_filter.
  by apply (proj1 (Forall_forall _ _) (records_encodable m)).
Qed.

(** What the files are when a worker takes a step: the inputs are there, and, for a
    reduce task, all intermediate files. *)
Definition ready (fs : FileSystem) (t : Taskinfo) : Prop :=
  fs_wf fs ∧ (∀ f, f ∈ files → read_file fs f = read_file fs0 f) ∧
  (RPCtype t = RPC_REDUCE → ∀ m, 0 ≤ m < zlen files → mapped fs m).

(** A step of a worker that executes task [t]. *)
Definition step_good (fs : FileSystem) (w : wstate) (t : Taskinfo) : Prop :=
  ∃ fs' w', work fs w = Ret (Some (fs', w')) ∧ held w' = Some t ∧ fs_wf fs' ∧ files_good fs' w' ∧
    ∀ name, ¬ own t name → same_file fs fs' name.

Lemma step_quiet fs w t w' :
  fs_wf fs → work fs w = Ret (Some (fs, w')) → held w' = Some t → files_good fs w' → step_good fs w t.
Proof using Type. intros Hwf Hw Hh Hg. exists fs, w'. by split_and!. Qed.

(** A step that changes the file [name] of the task. *)
Lemma step_open fs w t fs' w' name s i :
  own t name → fs_open fs name s i fs' → work fs w = Ret (Some (fs', w')) → held w' = Some t →
  files_good fs' w' → step_good fs w t.
Proof using Type.
  intros Ho [Hp Hn Hother] Hw Hh Hg. exists fs', w'. split_and!; [done|done|apply Hp|done|].
  intros other Hne. apply Hother. by intros ->.
Qed.

Lemma task_step fs t : task_good t → ready fs t → step_good fs (WTask t) t.
Proof using Hjob.
  intros [Hm Hn Hk] (Hwf & Hin & _). destruct Hk as [(Hty & Hid & Hf)|(Hty & Hid)].
  - assert (Filename t ∈ files) as Hff by by eapply list_elem_of_lookup_2.
    destruct (jo_inputs Hjob _ Hff) as [contents Hc].
    destruct (fill_buckets_spec (NReduce t) (mapf (Filename t) contents) (replicate (Z.to_nat (NReduce t)) []))
      as (inter & Hfill & Hlen & Hb); [rewrite Hn; apply Hjob|unfold zlen; rewrite length_replicate, Hn; pose proof (jo_n Hjob); lia|].
    apply (step_quiet _ _ _ (WBuckets t (seqZ 0 (NReduce t)) inter)); [done|simpl; by rewrite Hty, Hin, Hc, Hfill|done|].
    rewrite Hn in *. split_and!; [done| |by exists []; split; [|set_solver]].
    intros r Hr. assert (records (TaskId t) = mapf (Filename t) contents) as -> by (unfold records; by rewrite Hf, Hc).
    apply (Hb r []). apply index_Ret. split; [lia|]. apply lookup_replicate. split; [done|lia].
  - apply (step_quiet _ _ _ (WRead t (seqZ 0 (NMap t)) [])); [done|simpl; by rewrite Hty|done|].
    split; [done|]. exists []. rewrite Hm. done.
Qed.

Lemma buckets_step fs t rs inter :
  task_good t → ready fs t → files_good fs (WBuckets t rs inter) → step_good fs (WBuckets t rs inter) t.
Proof using Type.
  intros Htg (Hwf & _) (Hty & Hb & done & Hd & Hf). destruct rs as [|r rs].
  - apply (step_quiet _ _ _ (WExecuted t)); [done..|]. rewrite app_nil_r in Hd. split; [|unfold RPC_MAP, RPC_REDUCE in *; lia].
    intros _ r Hr. apply Hf. rewrite <- Hd. apply elem_of_seqZ. lia.
  - pose proof (elem_next _ _ _ Hd) as Hr. pose proof (fresh_file_open fs (inter_name (TaskId t) r) Hwf) as Ho.
    eapply (step_open _ _ _ _ (WRecords t rs inter _ (bucket n r (records (TaskId t))))); [by apply own_inter|exact Ho| |done|].
    + simpl. by rewrite (Hb r Hr).
    + split_and!; [done..|]. exists done, r, []. destruct Ho as [(_ & Hs & _) Hnm Hother]. split_and!; try done.
      intros r' Hr'. unfold bucket_file. destruct (Hother (inter_name (TaskId t) r')) as [_ ->]; [|by apply Hf].
      intros [_ <-]%inter_name_inj; [|destruct (tg_kind _ Htg); lia..].
      pose proof (NoDup_seqZ 0 n) as Hnd. rewrite Hd in Hnd. apply NoDup_app in Hnd as (_ & Hnd & _).
      apply (Hnd r' Hr'). by left.
Qed.

Lemma records_step fs t rs inter i kvs :
  task_good t → ready fs t → files_good fs (WRecords t rs inter i kvs) → step_good fs (WRecords t rs inter i kvs) t.
Proof using Type.
  intros Htg (Hwf & _) (Hty & Hb & done & r & kvs0 & Hd & Hf & Hn & Hr & Hk). destruct kvs as [|kv kvs].
  - apply (step_quiet _ _ _ (WBuckets t rs inter)); [done..|]. split_and!; [done..|]. exists (done ++ [r]).
    rewrite <- app_assoc. split; [done|]. intros r' [?|E%list_elem_of_singleton]%elem_of_app; [by apply Hf|subst r'].
   
    unfold bucket_file. by rewrite Hr, Hk, app_nil_r.
  - pose proof (elem_next _ _ _ Hd) as Hrr.
    pose proof (append_text_open fs _ i _ (encode kv) Hwf Hn Hr) as Ho.
    eapply (step_open _ _ _ _ (WRecords t rs inter i kvs)); [by eapply own_inter|exact Ho|done|done|].
    split_and!; [done..|]. exists done, r, (kvs0 ++ [kv]). destruct Ho as [(_ & Hs & _) Hnm Hother]. split_and!; try done.
    + intros r' Hr'. unfold bucket_file. destruct (Hother (inter_name (TaskId t) r')) as [_ ->]; [|by apply Hf].
      intros [_ <-]%inter_name_inj; [|destruct (tg_kind _ Htg); lia..].
      pose proof (NoDup_seqZ 0 n) as Hnd. rewrite Hd in Hnd. apply NoDup_app in Hnd as (_ & Hnd & _).
      apply (Hnd r' Hr'). by left.
    + change (write_record fs i kv) with (append_text fs i (encode kv)). rewrite Hs. unfold record_file.
      rewrite fmap_app, concat_str_app. do 2 f_equal. symmetry. apply str_app_nil.
    + by rewrite <- app_assoc.
Qed.

Lemma read_step fs t ms kva :
  task_good t → ready fs t → files_good fs (WRead t ms kva) → step_good fs (WRead t ms kva) t.
Proof using Hjob.
  intros Htg (Hwf & _ & Hall) (Hty & done & Hd & ->). destruct ms as [|m ms].
  - pose proof (create_file_open fs (out_name (TaskId t)) Hwf) as Ho. rewrite app_nil_r in Hd.
    eapply (step_open _ _ _ _ (WLines t (create_file fs (out_name (TaskId t))).2 (out_lines (TaskId t)))); [by apply own_out|exact Ho| |done|].
    + simpl. unfold out_lines. rewrite Hd. by destruct (create_file fs (out_name (TaskId t))).
    + split; [done|]. exists []. destruct Ho as [(_ & Hs & _) Hnm _]. done.
  - assert (0 ≤ m < zlen files) as Hm.
    { assert (m ∈ map_ids) as Hin by (rewrite Hd; set_solver). apply elem_of_seqZ in Hin. lia. }
    assert (0 ≤ TaskId t < n) as Hid by (destruct (tg_kind _ Htg); unfold RPC_MAP, RPC_REDUCE in *; lia).
    eapply (step_quiet _ _ _ (WRead t ms _)); [done|simpl; by rewrite (Hall Hty m Hm (TaskId t) Hid)|done|].
    rewrite decode_bucket. split; [done|]. exists (done ++ [m]). rewrite <- app_assoc. split; [done|].
    rewrite fmap_app, join_app. simpl. by rewrite app_nil_r.
Qed.

Lemma lines_step fs t i lines :
  ready fs t → files_good fs (WLines t i lines) → step_good fs (WLines t i lines) t.
Proof using Type.
  intros (Hwf & _) (Hty & done & Hd & Hn & Hr). destruct lines as [|l lines].
  - apply (step_quiet _ _ _ (WExecuted t)); [done..|]. rewrite app_nil_r in Hd. split; [unfold RPC_MAP, RPC_REDUCE in *; lia|].
    intros _. unfold reduced. by rewrite Hr, Hd.
  - pose proof (append_text_open fs _ i _ l Hwf Hn Hr) as Ho.
    eapply (step_open _ _ _ _ (WLines t i lines)); [by apply own_out|exact Ho|done|done|].
    split; [done|]. exists (done ++ [l]). rewrite <- app_assoc. destruct Ho as [(_ & Hs & _) Hnm _].
    split_and!; [done|done|]. rewrite Hs, concat_str_app. do 2 f_equal. symmetry. apply str_app_nil.
Qed.

(** A worker with work to do can go on, and does not panic. *)
Definition executing (w : wstate) : Prop :=
  match w with WIdle | WGone | WExecuted _ | WReporting _ _ => False | _ => True end.

Lemma work_good fs w t :
  executing w → held w = Some t → task_good t → ready fs t → files_good fs w → step_good fs w t.
Proof using Hjob.
  intros He Hh Htg Hrd Hg. destruct w; simpl in He, Hh; try done; injection Hh as ->.
  - by apply task_step.
  - by apply buckets_step.
  - by apply records_step.
  - by apply read_step.
  - by apply lines_step.
Qed.

(** Alone, a worker finishes its task. *)
Lemma exec_good fs t : task_good t → ready fs t → ∃ fs', exec fs t = Ret (Some fs').
Proof using Hjob.
  intros [Hm Hn Hk] (Hwf & Hin & Hall). unfold exec. destruct Hk as [(Hty & Hid & Hf)|(Hty & Hid)]; rewrite Hty; simpl.
  - assert (Filename t ∈ files) as Hff by by eapply list_elem_of_lookup_2. destruct (jo_inputs Hjob _ Hff) as [contents Hc].
    destruct (execMap_spec mapf fs t contents) as (fs' & -> & _); [done|lia|rewrite Hn; apply Hjob|by rewrite Hin|by exists fs'].
  - destruct (execReduce_spec reducef fs t (λ m, bucket n (TaskId t) (records m))) as (fs' & -> & _); [done| |by exists fs'].
    intros m Hmr. rewrite Hm in Hmr. split; [by apply Hall|]. apply Forall_forall. intros kv [_ Hkv]%list_elem_of_filter.
    by apply (proj1 (Forall_forall _ _) (records_encodable m)).
Qed.
End worker.
