(* ===== verification/MapReduceRun.v ===== *)
(** * Map-reduce: running a job

    The coordinator of mr/coordinator.go and any number of workers of
    mr/worker.go on one file system, as a machine ([mr_step]): a worker asks for a
    task, executes it step by step ([MapReduceWork.work]), reports it; the
    coordinator reads its stage for a report before it handles it.  Reports can be
    lost, and workers can crash at any point, so tasks time out and are executed
    again, whatever the crashed worker left behind.

    If a task is handed out again only when no worker has it any more, a finished
    job has the output of main/mrsequential.go, split over its output files
    ([job_correct]), and nothing panics on the way ([job_safe]).  Without that
    condition, when a worker that is alive takes more than the ten seconds, a job can
    finish with output missing ([stale_report_loses_output], [late_mapper_loses_records]).
    A worker on its own finishes the job ([Worker_completes]). *)

From S2P Require Import Prelude MapReduce MapReduceSpec MapReduceCoord MapReduceFiles MapReduceJson MapReduceWork.
From stdpp Require Import pretty.

Local Open Scope Z_scope.

(** ** Machine *)

Record mr := mkMr {
  mr_c : Coordinator;
  mr_fs : FileSystem;
  mr_ws : list wstate
}.

(** No worker executes the task, and no report of it is under way. *)
Definition unheld (ws : list wstate) (r : Taskinfo) : Prop :=
  ∀ w st t, ws !! w = Some st → held st = Some t → task_key t ≠ task_key r.

Section machine.
Context `{RecordCodec, KeySorter}.
Context (mapf : string → string → list KeyValue) (reducef : string → list string → string).
Notation work := (work mapf reducef).
Notation exec := (exec mapf reducef).

Definition report_of (t : Taskinfo) : Taskinfo := report_args (TaskId t) (StartTime t).

Inductive mr_step (exclusive : bool) : mr → mr → Prop :=
| ms_request w now c c' r fs ws :
    ws !! w = Some WIdle → Handlers now c request_args zeroTaskinfo = Ret (c', r) →
    (exclusive = true → unheld ws r) →
    mr_step exclusive (mkMr c fs ws) (mkMr c' fs (<[w := next_state r]> ws))
| ms_work w st st' c fs fs' ws :
    ws !! w = Some st → work fs st = Ret (Some (fs', st')) →
    mr_step exclusive (mkMr c fs ws) (mkMr c fs' (<[w := st']> ws))
| ms_arrive w t c fs ws :
    ws !! w = Some (WExecuted t) →
    mr_step exclusive (mkMr c fs ws) (mkMr c fs (<[w := WReporting t (Stage c)]> ws))
| ms_report w t stage c c' r fs ws :
    ws !! w = Some (WReporting t stage) → checkTask_at stage c (report_of t) zeroTaskinfo = Ret (c', r) →
    mr_step exclusive (mkMr c fs ws) (mkMr c' fs (<[w := WIdle]> ws))
| ms_lost w t c fs ws :
    ws !! w = Some (WExecuted t) →
    mr_step exclusive (mkMr c fs ws) (mkMr c fs (<[w := WIdle]> ws))
| ms_crash w c fs ws :
    mr_step exclusive (mkMr c fs ws) (mkMr c fs (<[w := WGone]> ws)).

Definition mr_init (files : list string) (n : Z) (fs : FileSystem) (workers : nat) : mr :=
  mkMr (MakeCoordinator files n) fs (replicate workers WIdle).

Definition mr_reach (exclusive : bool) (s s' : mr) : Prop := rtc (mr_step exclusive) s s'.

(** Some steps of one worker. *)
Fixpoint work_steps (k : nat) (fs : FileSystem) (st : wstate) : option (FileSystem * wstate) :=
  match k with
  | O => Some (fs, st)
  | S k => match work fs st with Ret (Some (fs', st')) => work_steps k fs' st' | _ => None end
  end.

Lemma work_steps_reach ex k w c fs st fs' st' ws :
  ws !! w = Some st → work_steps k fs st = Some (fs', st') →
  mr_reach ex (mkMr c fs ws) (mkMr c fs' (<[w := st']> ws)).
Proof.
  revert fs st ws. induction k as [|k IH]; intros fs st ws Hw Hk; simpl in Hk.
  - injection Hk as <- <-. rewrite list_insert_id by done. apply rtc_refl.
  - destruct (work fs st) as [[[fs1 st1]|]| |] eqn:E; try done.
    eapply rtc_l; [by apply (ms_work ex w st st1 c fs fs1 ws)|].
    pose proof (lookup_lt_Some _ _ _ Hw) as Hlt. rewrite <- (list_insert_insert_eq ws w st' st1).
    apply (IH fs1 st1); [by apply list_lookup_insert_eq|done].
Qed.

(** ** The invariant *)

Context (files : list string) (n : Z) (fs0 : FileSystem).
Notation job_ok := (job_ok mapf files n fs0).
Notation mapped := (mapped mapf files n fs0).
Notation reduced := (reduced mapf reducef files n fs0).
Notation task_good := (task_good files n).
Notation files_good := (files_good mapf reducef files n fs0).

Definition done_in (tasks : list Task) (i : nat) : Prop :=
  ∃ t, tasks !! i = Some t ∧ t_Status t = TASK_DONE.

(** The tasks of its kind, and the stage in which these are executed. *)
Definition tasks_for (t : Taskinfo) (c : Coordinator) : list Task :=
  if RPCtype t =? RPC_MAP then MapTask c else ReduceTask c.

Definition stage_of (t : Taskinfo) : Z := if RPCtype t =? RPC_MAP then STAGE_MAPPING else STAGE_REDUCING.

(** A task that a worker has is not done. *)
Record task_open (c : Coordinator) (t : Taskinfo) : Prop := {
  to_good : task_good t;
  to_stage : stage_of t ≤ Stage c;
  to_open : ¬ done_in (tasks_for t c) (Z.to_nat (TaskId t))
}.

Definition worker_good (c : Coordinator) (fs : FileSystem) (st : wstate) : Prop :=
  (∀ t, held st = Some t → task_open c t) ∧ files_good fs st ∧
  (∀ t stage, st = WReporting t stage → stage = stage_of t).

Record mr_inv (s : mr) : Prop := {
  mi_wf : coord_wf (mr_c s);
  mi_nMap : nMap (mr_c s) = zlen files;
  mi_nReduce : nReduce (mr_c s) = n;
  mi_names : t_FileName <$> MapTask (mr_c s) = files;
  mi_fs : fs_wf (mr_fs s);
  mi_inputs : ∀ f, f ∈ files → read_file (mr_fs s) f = read_file fs0 f;
  mi_mapped : ∀ i, done_in (MapTask (mr_c s)) i → mapped (mr_fs s) (Z.of_nat i);
  mi_reduced : ∀ i, done_in (ReduceTask (mr_c s)) i → reduced (mr_fs s) (Z.of_nat i);
  mi_workers : ∀ w st, mr_ws s !! w = Some st → worker_good (mr_c s) (mr_fs s) st;
  mi_unique : ∀ w w' st st' t t', mr_ws s !! w = Some st → mr_ws s !! w' = Some st' →
    held st = Some t → held st' = Some t' → task_key t = task_key t' → w = w'
}.

Context (Hjob : job_ok).

(** ** Tasks *)

Lemma done_lookup tasks i : all_done tasks → (i < length tasks)%nat → done_in tasks i.
Proof.
  intros Hd [t Ht]%lookup_lt_is_Some_2. exists t. split; [done|].
  apply Hd. by eapply list_elem_of_lookup_2.
Qed.

Lemma timeOut_done now tasks i : done_in (timeOutTask now tasks) i → done_in tasks i.
Proof.
  intros (t & Ht & Hs). rewrite timeOut_lookup in Ht.
  destruct (tasks !! i) as [t0|] eqn:Ht0; [|done]. simpl in Ht. injection Ht as <-.
  exists t0. split; [done|]. revert Hs. by case_test.
Qed.

Lemma insert_done tasks i j t :
  t_Status t ≠ TASK_DONE → done_in (<[j := t]> tasks) i → done_in tasks i ∧ i ≠ j.
Proof.
  intros Hs (t' & [(-> & -> & _)|[Hne Ht]]%list_lookup_insert_Some & Hd); [done|]. split; [by exists t'|done].
Qed.

(** A request does not complete tasks. *)
Lemma assigned_done now c reply c' r :
  assigned now c reply c' r →
  (∀ i, done_in (MapTask c') i → done_in (MapTask c) i) ∧
  (∀ i, done_in (ReduceTask c') i → done_in (ReduceTask c) i).
Proof.
  destruct 1; subst; split; simpl; intros j Hj; try done; try (by eapply timeOut_done);
    (eapply timeOut_done, insert_done; [|exact Hj]; done).
Qed.

Lemma finish_done tasks id tasks' i :
  finish_task tasks id = Ret tasks' → done_in tasks' i → done_in tasks i ∨ Z.of_nat i = id.
Proof.
  unfold finish_task. intros Hf Hd. inv_bind Hf. case_test_in Hf.
  - apply set_index_inv in Hf as [? ->]. destruct Hd as (t' & Ht' & Hs').
    apply list_lookup_insert_Some in Ht' as [(<- & _)|[_ Ht']]; [right; lia|].
    left. by exists t'.
  - injection Hf as <-. auto.
Qed.

Lemma tasks_step_names l l' : tasks_step l l' → t_FileName <$> l' = t_FileName <$> l.
Proof. induction 1 as [|t t' l l' (_ & Hf & _) _ IH]; [done|]. by rewrite !fmap_cons, Hf, IH. Qed.

(** While a worker has a task, the coordinator is in its stage. *)
Lemma open_stage c t :
  coord_wf c → nMap c = zlen files → nReduce c = n → task_open c t → Stage c = stage_of t.
Proof using Type.
  intros Hwf Hm Hr [[_ _ Hk] Hs Ho]. unfold stage_of, tasks_for in *. pose proof (cw_stage _ Hwf).
  destruct Hk as [(Hty & Hid & _)|(Hty & Hid)]; rewrite Hty in *; simpl in *.
  - destruct (decide (Stage c < STAGE_REDUCING)) as [|Hge]; [unfold_stages; lia|]. destruct Ho.
    apply done_lookup; [apply (cw_mapped _ Hwf); lia|]. pose proof (proj1 (cw_map _ Hwf)). unfold zlen in *. lia.
  - destruct (decide (Stage c < STAGE_FINISHED)) as [|Hge]; [unfold_stages; lia|]. destruct Ho.
    apply done_lookup; [apply (cw_reduced _ Hwf); lia|]. pose proof (proj1 (cw_reduce _ Hwf)). unfold zlen in *. lia.
Qed.

(** ** The coordinator *)

(** It takes a step that no worker notices, and completes a task only if it was
    executed and nobody else has it. *)
Lemma inv_coord c c' fs ws :
  mr_inv (mkMr c fs ws) → coord_step c c' → coord_wf c' →
  (∀ i, done_in (MapTask c') i → done_in (MapTask c) i ∨ mapped fs (Z.of_nat i)) →
  (∀ i, done_in (ReduceTask c') i → done_in (ReduceTask c) i ∨ reduced fs (Z.of_nat i)) →
  (∀ w st t, ws !! w = Some st → held st = Some t → ¬ done_in (tasks_for t c') (Z.to_nat (TaskId t))) →
  mr_inv (mkMr c' fs ws).
Proof using Type.
  intros Hi Hs Hwf Hm Hr Hopen. pose proof Hi as []. simpl in *. split; simpl; try done.
  - by rewrite (cs_nMap _ _ Hs).
  - by rewrite (cs_nReduce _ _ Hs).
  - by rewrite (tasks_step_names _ _ (cs_map _ _ Hs)).
  - intros i [?|?]%Hm; auto.
  - intros i [?|?]%Hr; auto.
  - intros w st Hw. destruct (mi_workers0 w st Hw) as (Ht & Hf & Hst). split_and!; [|done..].
    intros t Hh. destruct (Ht t Hh) as [? ? _]. split; [done| |by eapply Hopen]. pose proof (cs_stage _ _ Hs). lia.
Qed.

(** A worker gets another state, with a task nobody else has. *)
Lemma inv_worker c fs ws i st :
  mr_inv (mkMr c fs ws) → worker_good c fs st →
  (∀ w st' t t', w ≠ i → ws !! w = Some st' → held st' = Some t' → held st = Some t → task_key t' ≠ task_key t) →
  mr_inv (mkMr c fs (<[i := st]> ws)).
Proof using Type.
  intros [] Hg Hu. simpl in *. split; simpl; try done.
  - intros w st' [(_ & <- & _)|[_ Hw]]%list_lookup_insert_Some; [done|by eapply mi_workers0].
  - intros w w' st1 st2 t t' H1 H2 Ht Ht' Hk.
    apply list_lookup_insert_Some in H1 as [(<- & <- & _)|[Hne H1]], H2 as [(<- & <- & _)|[Hne' H2]]; try done.
    + by destruct (Hu w' st2 t t' ltac:(done) H2 Ht' Ht).
    + by destruct (Hu w st1 t' t ltac:(done) H1 Ht Ht').
    + by eapply mi_unique0.
Qed.

Lemma inv_worker_same c fs ws i st st' :
  mr_inv (mkMr c fs ws) → ws !! i = Some st → worker_good c fs st' → held st' = held st ∨ held st' = None →
  mr_inv (mkMr c fs (<[i := st']> ws)).
Proof using Type.
  intros Hi Hw Hg Hh. apply inv_worker; [done..|]. intros w st1 t t' Hne H1 Ht' Ht Hk.
  destruct Hh as [Hh|Hh]; rewrite Hh in Ht; [|done]. apply Hne. by eapply (mi_unique _ Hi).
Qed.

Lemma inv_worker_none c fs ws i st :
  mr_inv (mkMr c fs ws) → st = WIdle ∨ st = WGone → mr_inv (mkMr c fs (<[i := st]> ws)).
Proof using Type.
  intros Hi Hst. apply inv_worker; [done|..].
  - by destruct Hst as [->| ->].
  - intros w st' t t' _ _ _ Ht. by destruct Hst as [->| ->].
Qed.

(** All maps are done in the reduce stage. *)
Lemma inv_all_mapped c fs ws :
  mr_inv (mkMr c fs ws) → STAGE_REDUCING ≤ Stage c → ∀ m, 0 ≤ m < zlen files → mapped fs m.
Proof using Type.
  intros Hi Hs m Hm. rewrite <- (Z2Nat.id m) by lia. apply (mi_mapped _ Hi). simpl.
  apply done_lookup; [by apply (cw_mapped _ (mi_wf _ Hi))|].
  pose proof (proj1 (cw_map _ (mi_wf _ Hi))) as Hl. rewrite (mi_nMap _ Hi) in Hl. simpl in Hl.
  unfold zlen in *. lia.
Qed.

Lemma inv_ready c fs ws t : mr_inv (mkMr c fs ws) → task_open c t → ready mapf files n fs0 fs t.
Proof using Type.
  intros Hi [_ Hs _]. split_and!; [apply (mi_fs _ Hi)|apply (mi_inputs _ Hi)|]. intros Ht.
  eapply inv_all_mapped; [done|]. unfold stage_of in Hs. by rewrite Ht in Hs.
Qed.

(** The task a request is answered with. *)
Lemma assigned_good now c fs ws c' r :
  mr_inv (mkMr c fs ws) → assigned now c zeroTaskinfo c' r → worker_good c' fs (next_state r).
Proof using Type.
  intros Hi Ha. destruct Hi as [Hwf Hm Hn Hnames _ _ _ _ _ _]. simpl in *.
  assert (∀ t, task_open c' t → worker_good c' fs (WTask t)) as Hw by (intros t Ht; by split_and!; [intros ? [= <-]|..]).
  destruct Ha as [| |tasks i t Hst -> Ht _| | |tasks i t Hst -> Ht _|]; try (by split_and!).
  - pose proof (tasks_step_ok _ _ _ (timeOut_step now _) (cw_map _ Hwf)) as [Hlen Hok].
    destruct (Hok _ _ Ht) as [Hid _]. pose proof (lookup_lt_Some _ _ _ Ht). unfold zlen in Hlen.
    apply Hw. split; [split; simpl; [done..|]| |].
    + left. split_and!; [done|lia|lia|].
      rewrite Hid, Nat2Z.id, <- Hnames, <- (tasks_step_names _ _ (timeOut_step now (MapTask c))).
      rewrite list_lookup_fmap, Ht. done.
    + simpl. unfold stage_of. simpl. lia.
    + unfold tasks_for. simpl. rewrite Hid, Nat2Z.id. by intros [_ ?]%insert_done.
  - pose proof (tasks_step_ok _ _ _ (timeOut_step now _) (cw_reduce _ Hwf)) as [Hlen Hok].
    destruct (Hok _ _ Ht) as [Hid _]. pose proof (lookup_lt_Some _ _ _ Ht). unfold zlen in Hlen.
    apply Hw. split; [split; simpl; [done..|]| |].
    + right. split_and!; [done|lia|lia].
    + simpl. unfold stage_of. simpl. lia.
    + unfold tasks_for. simpl. rewrite Hid, Nat2Z.id. by intros [_ ?]%insert_done.
Qed.

Lemma request_good now c fs ws :
  mr_inv (mkMr c fs ws) →
  ∃ c' r, Handlers now c request_args zeroTaskinfo = Ret (c', r) ∧ assigned now c zeroTaskinfo c' r ∧
    mr_inv (mkMr c' fs ws) ∧ worker_good c' fs (next_state r).
Proof using Type.
  intros Hi. pose proof (assign_cases now c zeroTaskinfo (mi_wf _ Hi)) as Ha.
  exists (assignTask now c zeroTaskinfo).1, (assignTask now c zeroTaskinfo).2.
  split; [by destruct (assignTask now c zeroTaskinfo) eqn:E; unfold Handlers; simpl; rewrite E|].
  destruct (assign_step _ _ _ _ _ (mi_wf _ Hi) Ha) as [Hs Hwf].
  destruct (assigned_done _ _ _ _ _ Ha) as [H1 H2].
  split_and!; [done| |by eapply assigned_good]. eapply inv_coord; eauto.
  intros w st t Hw Hh Hd. destruct (mi_workers _ Hi w st Hw) as (Ht & _). apply (to_open _ _ (Ht t Hh)).
  unfold tasks_for in *. destruct (RPCtype t =? RPC_MAP); auto.
Qed.

(** A report completes a task whose files are there. *)
Lemma report_good c fs ws w t stage :
  mr_inv (mkMr c fs ws) → ws !! w = Some (WReporting t stage) →
  ∃ c' r, checkTask_at stage c (report_of t) zeroTaskinfo = Ret (c', r) ∧ mr_inv (mkMr c' fs (<[w := WIdle]> ws)).
Proof using Type.
  intros Hi Hw. pose proof (mi_wf _ Hi) as Hwf. simpl in Hwf.
  pose proof (mi_nMap _ Hi) as HnM. pose proof (mi_nReduce _ Hi) as HnR. simpl in HnM, HnR.
  destruct (mi_workers _ Hi w _ Hw) as (Ht & [Hmd Hrd] & Hstage). simpl in Ht. specialize (Ht t eq_refl).
  specialize (Hstage t stage eq_refl). pose proof (open_stage c t Hwf HnM HnR Ht) as Hst.
  rewrite Hstage, <- Hst. change (checkTask_at (Stage c) c) with (checkTask c).
  pose proof (tg_kind _ _ _ (to_good _ _ Ht)) as Hkind. unfold stage_of in Hst.
  destruct (check_step c (report_of t) zeroTaskinfo Hwf) as (c' & r & Hc & Hs & Hs').
  { simpl. rewrite Hst. destruct Hkind as [(Hty & ? & _)|(Hty & ?)]; rewrite Hty; simpl; unfold_stages; lia. }
  { simpl. rewrite Hst. destruct Hkind as [(Hty & ? & _)|(Hty & ?)]; rewrite Hty; simpl; unfold_stages; lia. }
  exists c', r. split; [done|].
  assert (∀ i, done_in (MapTask c') i → done_in (MapTask c) i ∨ RPCtype t = RPC_MAP ∧ Z.of_nat i = TaskId t) as HdM.
  { intros i Hd. unfold checkTask, checkTask_at in Hc. repeat case_test_in Hc.
    - inv_bind Hc. simplify_eq. simpl in *. destruct (finish_done _ _ _ _ Hb Hd) as [?|?]; [by left|right].
      destruct Hkind as [(Hty & _)|(Hty & _)]; [done|]. rewrite Hty, Htest in Hst. unfold_stages. simpl in Hst. lia.
    - inv_bind Hc. simplify_eq. by left.
    - simplify_eq. by left. }
  assert (∀ i, done_in (ReduceTask c') i → done_in (ReduceTask c) i ∨ RPCtype t = RPC_REDUCE ∧ Z.of_nat i = TaskId t) as HdR.
  { intros i Hd. unfold checkTask, checkTask_at in Hc. repeat case_test_in Hc.
    - inv_bind Hc. simplify_eq. by left.
    - inv_bind Hc. simplify_eq. simpl in *. destruct (finish_done _ _ _ _ Hb Hd) as [?|?]; [by left|right].
      destruct Hkind as [(Hty & _)|(Hty & _)]; [|done]. rewrite Hty in Hst. unfold_stages. simpl in Hst. lia.
    - simplify_eq. by left. }
  eapply inv_coord; [by eapply (inv_worker_none c fs ws w WIdle); auto|done|..].
  - pose proof (cw_stage _ Hwf). apply (coord_step_wf c c' Hwf Hs); rewrite Hs'; lia.
  - intros i [?|[Hty ->]]%HdM; [by left|right; auto].
  - intros i [?|[Hty ->]]%HdR; [by left|right; auto].
  - intros w1 st1 t1 [(_ & <- & _)|[Hne Hw1]]%list_lookup_insert_Some Hh1 Hd; [done|].
    destruct (mi_workers _ Hi w1 st1 Hw1) as (Ht1 & _). pose proof (Ht1 t1 Hh1) as [Hg1 _ Ho1].
    assert (task_key t1 ≠ task_key t) as Hk by (intros Hk; apply Hne; symmetry; by eapply (mi_unique _ Hi)).
    unfold task_key, tasks_for in *. destruct (tg_kind _ _ _ Hg1) as [(Hty1 & Hid1 & _)|(Hty1 & Hid1)];
      rewrite Hty1 in *; simpl in Hd, Ho1.
    + apply HdM in Hd as [?|[Hty Hid]]; [done|]. apply Hk. f_equal; [done|]. lia.
    + apply HdR in Hd as [?|[Hty Hid]]; [done|]. apply Hk. f_equal; [done|]. lia.
Qed.

(** ** Workers *)

(** A step of a worker leaves what the coordinator and the others have. *)
Lemma work_inv c fs ws w st fs' st' t :
  mr_inv (mkMr c fs ws) → ws !! w = Some st → held st = Some t → held st' = Some t → fs_wf fs' → files_good fs' st' →
  (∀ t stage, st' = WReporting t stage → False) →
  (∀ name, ¬ own n t name → same_file fs fs' name) →
  mr_inv (mkMr c fs' (<[w := st']> ws)).
Proof using Hjob.
  intros Hi Hw Hh Hh' Hwf' Hf' Hnr Hsame. pose proof Hi as []. simpl in *.
  destruct (mi_workers0 w st Hw) as (Ht & _). pose proof (Ht t Hh) as [Htg Hts Hto].
  assert (∀ t', task_good t' → (∀ name, own n t' name → own n t name → False) → ∀ name, own n t' name → same_file fs fs' name) as Hother.
  { intros t' Ht' Hd name Ho. apply Hsame. intros Ho'. by eapply Hd. }
  assert (∀ t1, task_good t1 → task_key t1 ≠ task_key t → ∀ name, own n t1 name → same_file fs fs' name) as Hkey.
  { intros t1 Ht1 Hk. apply Hother; [done|]. intros name H1 H2. apply Hk. by eapply own_unique. }
  assert (∀ ty i, done_in (if ty =? RPC_MAP then MapTask c else ReduceTask c) i → (ty = RPC_MAP ∨ ty = RPC_REDUCE) →
    ∀ name, own n (mkTaskinfo ty (Z.of_nat i) (default EmptyString (files !! i)) (zlen files) n 0) name →
      same_file fs fs' name) as Hdone.
  { intros ty i Hd Hty. apply Hkey.
    - destruct Hd as (x & Hx & _). apply lookup_lt_Some in Hx.
      pose proof (proj1 (cw_map _ mi_wf0)). pose proof (proj1 (cw_reduce _ mi_wf0)). unfold zlen in *.
      split; simpl; unfold zlen in *; [done..|]. destruct Hty as [->| ->]; simpl in Hx; [left|right].
      + split_and!; [done|lia|lia|]. rewrite Nat2Z.id. destruct (files !! i) as [f|] eqn:E; [done|].
        apply lookup_ge_None in E. lia.
      + split; [done|]. lia.
    - intros [= Hty' Hid]. apply Hto. unfold tasks_for. rewrite <- Hty', <- Hid, Nat2Z.id. done. }
  split; simpl; try done.
  - intros f Hf. rewrite <- mi_inputs0 by done. apply Hsame. intros Ho. by eapply (own_not_input mapf files n fs0 Hjob t f f).
  - intros i Hd r Hr. destruct (Hdone RPC_MAP i Hd ltac:(by left) (inter_name (Z.of_nat i) r)) as [_ E].
    { apply (own_inter n (mkTaskinfo RPC_MAP (Z.of_nat i) _ _ _ 0)); done. }
    unfold bucket_file. rewrite E. by apply mi_mapped0.
  - intros i Hd. destruct (Hdone RPC_REDUCE i Hd ltac:(by right) (out_name (Z.of_nat i))) as [_ E].
    { apply (own_out n (mkTaskinfo RPC_REDUCE (Z.of_nat i) _ _ _ 0)); done. }
    unfold MapReduceWork.reduced. rewrite E. by apply mi_reduced0.
  - intros w1 st1 [(<- & <- & _)|[Hne Hw1]]%list_lookup_insert_Some.
    + split_and!; [intros ? [= <-]%(eq_trans (eq_sym Hh')); by apply Ht|done|]. intros t1 stage1 E. by destruct (Hnr t1 stage1).
    + destruct (mi_workers0 w1 st1 Hw1) as (Ht1 & Hf1 & Hs1). split_and!; [done| |done].
      eapply files_good_frame; [|done]. intros t1 name Hh1. apply Hkey; [apply (Ht1 t1 Hh1)|].
      intros Hk. apply Hne. symmetry. by eapply mi_unique0.
  - intros w1 w2 st1 st2 t1 t2 H1 H2 E1 E2 Hk.
    apply list_lookup_insert_Some in H1 as [(<- & <- & _)|[Hne H1]], H2 as [(<- & <- & _)|[Hne' H2]]; try done.
    + rewrite Hh' in E1. injection E1 as <-. by eapply mi_unique0.
    + rewrite Hh' in E2. injection E2 as <-. by eapply mi_unique0.
    + by eapply mi_unique0.
Qed.

Lemma work_held fs st fs' st' : work fs st = Ret (Some (fs', st')) → executing st ∧ ∃ t, held st = Some t.
Proof using Type. destruct st; simpl; try done; intros _; (split; [done|by eexists]). Qed.

Lemma step_not_reporting fs st fs' st' t stage : work fs st = Ret (Some (fs', st')) → st' ≠ WReporting t stage.
Proof using Type.
  destruct st as [|t0|t0 [|r rs] inter|t0 rs inter i [|kv kvs]|t0 [|m ms] kva|t0 i [|l ls]|t0|t0 s0|]; simpl; intros Hr; try done;
    try (by injection Hr as _ <-); try (by inv_bind Hr; injection Hr as _ <-).
  - case_match; [|by injection Hr as _ <-]. case_match; [|by injection Hr as _ <-]. inv_bind Hr. by injection Hr as _ <-.
  - destruct (create_file fs (out_name (TaskId t0))). by injection Hr as _ <-.
  - case_match; [|done]. by injection Hr as _ <-.
Qed.

Lemma mr_step_inv s s' : mr_inv s → mr_step true s s' → mr_inv s'.
Proof using Hjob.
  intros Hi Hs. destruct Hs as [w now c c' r fs ws Hw Hh Hu|w st st' c fs fs' ws Hw He|w t c fs ws Hw
    |w t stage c c' r fs ws Hw Hh|w t c fs ws Hw|w c fs ws].
  - destruct (request_good now _ _ _ Hi) as (c2 & r2 & Hh2 & _ & Hi2 & Hg).
    rewrite Hh in Hh2. simplify_eq. apply inv_worker; [done..|]. intros w1 st1 t t1 _ Hw1 Ht1 Ht.
    assert (t = r2) as -> by (unfold next_state in Ht; repeat case_match; naive_solver). by eapply (Hu eq_refl).
  - destruct (work_held _ _ _ _ He) as [Hex [t Ht]]. destruct (mi_workers _ Hi w st Hw) as (Hto & Hf & _).
    specialize (Hto t Ht). destruct (work_good mapf reducef files n fs0 Hjob fs st t Hex Ht (to_good _ _ Hto)
      (inv_ready _ _ _ _ Hi Hto) Hf) as (fs2 & st2 & E & Hh2 & Hwf2 & Hf2 & Hsame).
    rewrite He in E. injection E as <- <-. eapply work_inv; [done..|by intros t1 s1 ->; eapply step_not_reporting|done].
  - destruct (mi_workers _ Hi w _ Hw) as (Hto & Hf & _). eapply inv_worker_same; [done..| |by left].
    split_and!; [done..|]. intros t1 s1 [= <- <-].
    apply (open_stage c t (mi_wf _ Hi) (mi_nMap _ Hi) (mi_nReduce _ Hi)). by apply Hto.
  - destruct (report_good _ _ _ _ _ _ Hi Hw) as (c2 & r2 & Hh2 & Hi2). rewrite Hh in Hh2. by simplify_eq.
  - apply inv_worker_none; auto.
  - apply inv_worker_none; auto.
Qed.

Lemma mr_init_inv workers : mr_inv (mr_init files n fs0 workers).
Proof using Hjob.
  assert (Hnd : ∀ tasks i, (∀ t, t ∈ tasks → t_Status t = TASK_IDLE) → ¬ done_in tasks i).
  { intros tasks i Hall (t & Ht%list_elem_of_lookup_2 & Hs). rewrite (Hall t Ht) in Hs. done. }
  split; simpl.
  - apply MakeCoordinator_wf. pose proof (jo_n _ _ _ _ Hjob). lia.
  - done.
  - done.
  - apply list_eq. intros i. rewrite list_lookup_fmap, list_lookup_imap.
    destruct (files !! i); done.
  - apply Hjob.
  - done.
  - intros i []%Hnd. intros t [j Hj]%list_elem_of_lookup_1. rewrite list_lookup_imap in Hj.
    destruct (files !! j); [|done]. by injection Hj as <-.
  - intros i []%Hnd. intros t (j & -> & _)%list_elem_of_fmap. done.
  - intros w st [-> _]%lookup_replicate_1. by split_and!.
  - intros w w' st st' t t' [-> _]%lookup_replicate_1. done.
Qed.

Lemma mr_steps_inv s s' : mr_inv s → mr_reach true s s' → mr_inv s'.
Proof using Hjob. intros Hi Hr. revert Hi. induction Hr as [s|s s1 s2 Hs _ IH]; [done|]. intros Hi. apply IH. by eapply mr_step_inv. Qed.

Lemma mr_reach_inv workers s : mr_reach true (mr_init files n fs0 workers) s → mr_inv s.
Proof using Hjob. apply mr_steps_inv, mr_init_inv. Qed.

(** ** The output *)

Context (Hperm : ∀ k vs vs', vs ≡ₚ vs' → reducef k vs = reducef k vs').

Definition records_of (f : string) : list KeyValue :=
  match read_file fs0 f with Some contents => mapf f contents | None => [] end.

Lemma records_all : records mapf files fs0 <$> map_ids files = records_of <$> files.
Proof using Type.
  apply list_eq. intros i. rewrite !list_lookup_fmap. unfold map_ids, records, records_of.
  destruct (files !! i) as [f|] eqn:Hf.
  - apply lookup_lt_Some in Hf as Hlt. rewrite lookup_seqZ_lt by (unfold zlen; lia). simpl.
    rewrite Z.add_0_l, Nat2Z.id, Hf. done.
  - apply lookup_ge_None_1 in Hf. rewrite lookup_seqZ_ge by (unfold zlen; lia). done.
Qed.

Lemma seq_map_all fs l :
  (∀ f, f ∈ l → is_Some (read_file fs0 f)) → fs = fs0 →
  seq_map fs mapf l = Some (mjoin (records_of <$> l)).
Proof using Type.
  intros Hl ->. induction l as [|f l IH]; [done|]. simpl. unfold records_of at 1.
  destruct (Hl f) as [contents ->]; [rewrite elem_of_cons; auto|].
  rewrite IH; [done|]. intros f' Hf'. apply Hl. rewrite elem_of_cons. auto.
Qed.

Lemma bucket_mjoin {A} (g : A → list KeyValue) r l :
  mjoin ((λ x, bucket n r (g x)) <$> l) = bucket n r (mjoin (g <$> l)).
Proof using Type.
  induction l as [|x l IH]; [done|]. rewrite !fmap_cons, !mjoin_cons, IH.
  unfold bucket. by rewrite filter_app.
Qed.

Lemma mjoin_perm {A B} (f g : A → list B) l :
  (∀ x, f x ≡ₚ g x) → mjoin (f <$> l) ≡ₚ mjoin (g <$> l).
Proof using Type.
  intros Hfg. induction l as [|x l IH]; [done|]. rewrite !fmap_cons, !mjoin_cons, IH.
  by rewrite Hfg.
Qed.

Lemma out_lines_all :
  mjoin (out_lines mapf reducef files n fs0 <$> seqZ 0 n) ≡ₚ
    reduce_lines reducef (sort_byKey (mjoin (records_of <$> files))).
Proof using Hjob Hperm.
  set (all := mjoin (records_of <$> files)).
  rewrite (reduce_lines_spec reducef Hperm all), <- (buckets_lines reducef n all).
  - apply mjoin_perm. intros r. unfold out_lines. rewrite bucket_mjoin, records_all.
    apply (reduce_lines_spec reducef Hperm).
  - intros k _. apply bucket_range. apply Hjob.
Qed.

(** The output files have the lines the sequential program prints, in some
    order. *)
Definition job_output (fs : FileSystem) : Prop :=
  ∃ outs lines fsq,
    mrsequential fs0 mapf reducef files = Some fsq ∧
    sequential_lines fs0 mapf reducef files = Some lines ∧
    read_file fsq "mr-out-0" = Some (concat_str lines) ∧
    zlen outs = n ∧ mjoin outs ≡ₚ lines ∧
    ∀ r out, outs !! r = Some out → read_file fs (out_name (Z.of_nat r)) = Some (concat_str out).

Lemma inv_output s : mr_inv s → Done (mr_c s) = true → job_output (mr_fs s).
Proof using Hjob Hperm.
  intros Hi Hd%Z.eqb_eq. pose proof (jo_n _ _ _ _ Hjob) as Hn.
  pose proof (cw_reduced _ (mi_wf _ Hi) ltac:(lia)) as Hall.
  pose proof (proj1 (cw_reduce _ (mi_wf _ Hi))) as Hlen. rewrite (mi_nReduce _ Hi) in Hlen.
  assert (Hseq : sequential_lines fs0 mapf reducef files =
    Some (reduce_lines reducef (sort_byKey (mjoin (records_of <$> files))))).
  { unfold sequential_lines. rewrite (seq_map_all fs0 files); [done|apply Hjob|done]. }
  eexists (out_lines mapf reducef files n fs0 <$> seqZ 0 n), _, _. split_and!.
  - unfold mrsequential. rewrite Hseq. done.
  - exact Hseq.
  - destruct (write_lines_put fs0 "mr-out-0"
      (reduce_lines reducef (sort_byKey (mjoin (records_of <$> files))))) as (_ & ? & _);
      [apply Hjob|done].
  - unfold zlen. rewrite length_fmap, length_seqZ. lia.
  - apply out_lines_all.
  - intros r out Hr. rewrite list_lookup_fmap in Hr.
    destruct (seqZ 0 n !! r) as [z|] eqn:Hz; [|done]. injection Hr as <-.
    apply lookup_seqZ in Hz as [-> Hz]. rewrite Z.add_0_l. apply (mi_reduced _ Hi).
    apply done_lookup; [done|]. unfold zlen in Hlen. lia.
Qed.

(** ** One worker *)

Definition quiet (tasks : list Task) : Prop := ∀ t, t ∈ tasks → t_Status t ≠ TASK_WORKING.
Definition unfinished (tasks : list Task) : list Task := filter (λ t, t_Status t ≠ TASK_DONE) tasks.

Lemma quiet_timeOut now tasks : quiet tasks → timeOutTask now tasks = tasks.
Proof.
  intros Hq. unfold timeOutTask. rewrite <- (list_fmap_id tasks) at 2. apply list_fmap_ext.
  intros i t Ht%list_elem_of_lookup_2. case_test; [|done]. by destruct (Hq t Ht).
Qed.

Lemma quiet_done m tasks :
  quiet tasks → tasks_ok m tasks → (∀ t, t ∈ tasks → t_Status t ≠ TASK_IDLE) → all_done tasks.
Proof.
  intros Hq [_ Hok] Hidle t Ht. pose proof Ht as [i Hi]%list_elem_of_lookup_1.
  destruct (Hok i t Hi) as [_ [?|[?|?]]]; [by destruct (Hidle t Ht)|by destruct (Hq t Ht)|done].
Qed.

Lemma quiet_insert tasks i t : quiet tasks → t_Status t ≠ TASK_WORKING → quiet (<[i := t]> tasks).
Proof.
  intros Hq Ht t' [j Hj]%list_elem_of_lookup_1.
  apply list_lookup_insert_Some in Hj as [(_ & <- & _)|[_ Hj]]; [done|].
  apply Hq. by eapply list_elem_of_lookup_2.
Qed.

Lemma finish_started now tasks i t :
  tasks !! i = Some t →
  finish_task (<[i := started now t]> tasks) (Z.of_nat i) =
    Ret (<[i := set_Status TASK_DONE (started now t)]> tasks).
Proof.
  intros Hi. pose proof (lookup_lt_Some _ _ _ Hi) as Hlt. unfold finish_task.
  assert (Hx : index (<[i := started now t]> tasks) (Z.of_nat i) = Ret (started now t)).
  { apply index_Ret. split; [lia|]. rewrite Nat2Z.id. by apply list_lookup_insert_eq. }
  rewrite Hx, bind_Ret. simpl. rewrite set_index_Ret by (rewrite zlen_insert; unfold zlen; lia).
  by rewrite Nat2Z.id, list_insert_insert_eq.
Qed.

Lemma unfinished_finish tasks i t t' :
  tasks !! i = Some t → t_Status t ≠ TASK_DONE → t_Status t' = TASK_DONE →
  length (unfinished tasks) = S (length (unfinished (<[i := t']> tasks))).
Proof.
  revert i. induction tasks as [|x tasks IH]; intros [|i] Hi Ht Ht'; simplify_eq/=; unfold unfinished in *.
  - rewrite filter_cons_True, filter_cons_False by (by rewrite ?Ht'; auto). done.
  - rewrite !filter_cons. specialize (IH i Hi Ht Ht'). case_decide; simpl; lia.
Qed.

Definition todo (c : Coordinator) : nat :=
  length (unfinished (MapTask c)) + length (unfinished (ReduceTask c)) + Z.to_nat (3 - Stage c).

(** One worker, which is idle. *)
Definition round_inv (c : Coordinator) (fs : FileSystem) : Prop :=
  mr_inv (mkMr c fs [WIdle]) ∧ quiet (MapTask c) ∧ quiet (ReduceTask c).

(** Reporting the task that was just handed out. *)
Definition completed (now : Z) (t : Task) : Task := set_Status TASK_DONE (started now t).

Lemma report_map t1 t2 c i t :
  Stage c = STAGE_MAPPING → MapTask c !! i = Some t → t_TaskId t = Z.of_nat i →
  Handlers t2 (set_MapTask (<[i := started t1 t]> (MapTask c)) c)
    (report_of (task_reply RPC_MAP t1 c t)) zeroTaskinfo =
  Ret (set_MapTask (<[i := completed t1 t]> (MapTask c)) c, set_RPCtype RPC_WORKDONE zeroTaskinfo).
Proof.
  intros Hs Hti Hid. unfold Handlers, checkTask, checkTask_at. simpl. rewrite Hs, Hid. simpl.
  rewrite (finish_started _ _ _ _ Hti). done.
Qed.

Lemma report_reduce t1 t2 c i t :
  Stage c = STAGE_REDUCING → ReduceTask c !! i = Some t → t_TaskId t = Z.of_nat i →
  Handlers t2 (set_ReduceTask (<[i := started t1 t]> (ReduceTask c)) c)
    (report_of (task_reply RPC_REDUCE t1 c t)) zeroTaskinfo =
  Ret (set_ReduceTask (<[i := completed t1 t]> (ReduceTask c)) c, set_RPCtype RPC_WORKDONE zeroTaskinfo).
Proof.
  intros Hs Hti Hid. unfold Handlers, checkTask, checkTask_at. simpl. rewrite Hs, Hid. simpl.
  rewrite (finish_started _ _ _ _ Hti). done.
Qed.

Lemma unfinished_completed now tasks i t :
  tasks !! i = Some t → t_Status t = TASK_IDLE →
  length (unfinished tasks) = S (length (unfinished (<[i := completed now t]> tasks))).
Proof. intros Hi Ht. eapply unfinished_finish; [done|by rewrite Ht|done]. Qed.

(** The steps of a lone worker are steps of the machine. *)
Lemma works_reach ex c fs st fs' st' :
  rtc (works mapf reducef) (fs, st) (fs', st') → mr_reach ex (mkMr c fs [st]) (mkMr c fs' [st']).
Proof using Type.
  intros Hr. remember (fs, st) as a eqn:Ea. remember (fs', st') as b eqn:Eb. revert fs st Ea.
  induction Hr as [a|a [fs1 st1] b Hs _ IH]; intros fs st ->; [injection Eb as <- <-; apply rtc_refl|].
  eapply rtc_l; [|by apply IH]. by apply (ms_work ex 0 st st1 c fs fs1 [st]).
Qed.

Definition after_round (e : worker_end) : wstate :=
  match e with Exits => WGone | Continues => WIdle end.

(** A round is a run of the machine. *)
Lemma worker_round_reach t1 t2 c fs c' fs' e :
  worker_round mapf reducef t1 t2 c fs = Ret (c', fs', e) →
  mr_reach true (mkMr c fs [WIdle]) (mkMr c' fs' [after_round e]).
Proof using Type.
  intros Hr. unfold worker_round in Hr. inv_bind Hr. destruct x as [c1 r].
  eapply rtc_l.
  { apply (ms_request true 0 t1 c c1 r fs [WIdle]); [done..|].
    intros _ w st t [_ <-]%list_lookup_singleton_Some. done. }
  simpl. unfold next_state.
  assert (Hrep : ∀ fs2 c2 r2, exec fs r = Ret (Some fs2) → Handlers t2 c1 (report_of r) zeroTaskinfo = Ret (c2, r2) →
    mr_reach true (mkMr c1 fs [WTask r]) (mkMr c2 fs2 [WIdle])).
  { intros fs2 c2 r2 He Hh. unfold mr_reach. etrans; [by apply works_reach, exec_works|].
    eapply rtc_l; [by apply (ms_arrive true 0 r c1 fs2 [WExecuted r])|]. apply rtc_once.
    by apply (ms_report true 0 r (Stage c1) c1 c2 r2 fs2 [WReporting r (Stage c1)]). }
  destruct (Z.eqb_spec (RPCtype r) RPC_MAP) as [Hm|Hm]; simpl in *.
  - inv_bind Hr. destruct x as [fs2|].
    + inv_bind Hr. destruct x as [c2 r2]. simplify_eq. eapply Hrep; [unfold MapReduceWork.exec; by rewrite Hm|done].
    + simplify_eq. apply rtc_once. apply (ms_work true 0 (WTask r) WGone c' fs' fs' [WTask r]); [done|].
      simpl. rewrite Hm. simpl. unfold execMap in Hb0. case_match; [|done]. inv_bind Hb0. by inv_bind Hb0.
  - destruct (Z.eqb_spec (RPCtype r) RPC_REDUCE) as [Hd|Hd]; simpl in *.
    + inv_bind Hr. inv_bind Hr. destruct x0 as [c2 r2]. simplify_eq.
      eapply Hrep; [unfold MapReduceWork.exec; rewrite Hd; simpl; by rewrite Hb0|done].
    + destruct (RPCtype r =? RPC_ALLDONE); simplify_eq; apply rtc_refl.
Qed.

Lemma held_task_good c fs r : worker_good c fs (WTask r) → task_open c r.
Proof using Type. intros (Ht & _). by apply Ht. Qed.

Lemma worker_round_good t1 t2 c fs :
  round_inv c fs →
  ∃ c' fs' e, worker_round mapf reducef t1 t2 c fs = Ret (c', fs', e) ∧ mr_inv (mkMr c' fs' [after_round e]) ∧
    match e with
    | Exits => Done c' = true
    | Continues => round_inv c' fs' ∧ (todo c' < todo c)%nat
    end.
Proof using Hjob.
  intros (Hi & Hqm & Hqr). pose proof (mi_wf _ Hi) as Hwf. simpl in Hwf.
  assert (Hgo : ∀ c' fs' e, worker_round mapf reducef t1 t2 c fs = Ret (c', fs', e) →
    match e with
    | Exits => Done c' = true
    | Continues => quiet (MapTask c') ∧ quiet (ReduceTask c') ∧ (todo c' < todo c)%nat
    end → ∃ c' fs' e, worker_round mapf reducef t1 t2 c fs = Ret (c', fs', e) ∧ mr_inv (mkMr c' fs' [after_round e]) ∧
    match e with
    | Exits => Done c' = true
    | Continues => round_inv c' fs' ∧ (todo c' < todo c)%nat
    end).
  { intros c' fs' e Hr He. exists c', fs', e. pose proof (mr_steps_inv _ _ Hi (worker_round_reach _ _ _ _ _ _ _ Hr)) as Hi'.
    split_and!; [done..|]. destruct e; [|done]. destruct He as (? & ? & ?). by split; [split_and!|]. }
  destruct (request_good t1 c fs _ Hi) as (c1 & r & Hh & Ha & Hi1 & Hg).
  unfold worker_round in Hgo |- *. rewrite Hh, bind_Ret in Hgo |- *.
  destruct Ha as [tasks Hs Htasks Hd|tasks Hs Htasks Hnd Hw|tasks i t Hs Htasks Hti Hst
    |tasks Hs Htasks Hd|tasks Hs Htasks Hnd Hw|tasks i t Hs Htasks Hti Hst|Hs];
    try (rewrite quiet_timeOut in Htasks by done); subst; simpl in Hgo |- *.
  - eapply Hgo; [done|]. split_and!; [done..|]. unfold todo. simpl. unfold_stages. lia.
  - destruct Hnd. eapply quiet_done; [done|apply Hwf|done].
  - destruct (cw_map _ Hwf) as [_ Hok]. destruct (Hok _ _ Hti) as [Hid _].
    pose proof (report_map t1 t2 c i t Hs Hti Hid) as Hrep. pose proof (held_task_good _ _ _ Hg) as Hto.
    destruct (exec_good mapf reducef files n fs0 Hjob fs _ (to_good _ _ Hto) (inv_ready _ _ _ _ Hi1 Hto)) as [fs' He].
    unfold MapReduceWork.exec in He. simpl in He. rewrite He, bind_Ret in Hgo |- *.
    unfold report_of in Hrep. simpl in Hrep. rewrite Hrep, bind_Ret in Hgo |- *.
    eapply Hgo; [done|]. split_and!; [by apply quiet_insert|done|]. unfold todo. simpl.
    rewrite (unfinished_completed t1 (MapTask c) i t Hti Hst). lia.
  - eapply Hgo; [done|]. split_and!; [done..|]. unfold todo. simpl. unfold_stages. lia.
  - destruct Hnd. eapply quiet_done; [done|apply Hwf|done].
  - destruct (cw_reduce _ Hwf) as [_ Hok]. destruct (Hok _ _ Hti) as [Hid _].
    pose proof (report_reduce t1 t2 c i t Hs Hti Hid) as Hrep. pose proof (held_task_good _ _ _ Hg) as Hto.
    destruct (exec_good mapf reducef files n fs0 Hjob fs _ (to_good _ _ Hto) (inv_ready _ _ _ _ Hi1 Hto)) as [fs' He].
    unfold MapReduceWork.exec in He. simpl in He. inv_bind He. rewrite Hb, bind_Ret in Hgo |- *.
    unfold report_of in Hrep. simpl in Hrep. rewrite Hrep, bind_Ret in Hgo |- *.
    eapply Hgo; [done|]. split_and!; [done|by apply quiet_insert|]. unfold todo. simpl.
    rewrite (unfinished_completed t1 (ReduceTask c) i t Hti Hst). lia.
  - eapply Hgo; [done|]. unfold Done. by apply Z.eqb_eq.
Qed.

Lemma Worker_good fuel clock k c fs :
  round_inv c fs → (todo c < fuel)%nat →
  ∃ c' fs', Worker fuel mapf reducef clock k c fs = Ret (c', fs') ∧
    mr_inv (mkMr c' fs' [WGone]) ∧ Done c' = true ∧
    mr_reach true (mkMr c fs [WIdle]) (mkMr c' fs' [WGone]).
Proof using Hjob.
  revert k c fs. induction fuel as [|fuel IH]; intros k c fs Hr Hf; [lia|]. simpl.
  destruct (worker_round_good (clock k) (clock k) c fs Hr) as (c' & fs' & e & Hw & Hi' & He).
  pose proof (worker_round_reach _ _ _ _ _ _ _ Hw) as Hreach.
  rewrite Hw, bind_Ret. destruct e.
  - destruct He as [Hr' Hlt]. destruct (IH (S k) c' fs') as (c2 & fs2 & ? & ? & ? & ?); [done|lia|].
    exists c2, fs2. split_and!; [done..|]. unfold mr_reach. by etrans.
  - exists c', fs'. by split_and!.
Qed.

Lemma init_round : round_inv (MakeCoordinator files n) fs0 ∧
  todo (MakeCoordinator files n) = (length files + Z.to_nat n + 2)%nat.
Proof using Hjob.
  assert (Hidle : ∀ tasks, (∀ t, t ∈ tasks → t_Status t = TASK_IDLE) →
    quiet tasks ∧ unfinished tasks = tasks).
  { intros tasks Hall. split.
    - intros t Ht. by rewrite (Hall t Ht).
    - apply list_filter_all. intros t Ht. by rewrite (Hall t Ht). }
  destruct (Hidle (MapTask (MakeCoordinator files n))) as [Hq1 Hu1].
  { simpl. intros t [j Hj]%list_elem_of_lookup_1. rewrite list_lookup_imap in Hj.
    destruct (files !! j); [|done]. by injection Hj as <-. }
  destruct (Hidle (ReduceTask (MakeCoordinator files n))) as [Hq2 Hu2].
  { simpl. intros t (j & -> & _)%list_elem_of_fmap. done. }
  split; [split_and!; [apply (mr_init_inv 1)|done..]|].
  unfold todo. rewrite Hu1, Hu2. simpl. rewrite length_imap, length_fmap, length_seqZ.
  unfold_stages. lia.
Qed.
End machine.

(** ** Theorems *)

(** A sample job: two inputs, two reduce tasks. *)
Definition sample_mapf (f contents : string) : list KeyValue :=
  [mkKeyValue contents "1"; mkKeyValue "b" "1"].
Definition sample_fs : FileSystem :=
  mkFileSystem {["in0" := 0%nat; "in1" := 1%nat]} ["a"; "b"].
Definition sample_files : list string := ["in0"; "in1"].

Ltac in_sample f Hf :=
  assert (f = "in0" ∨ f = "in1") as [->| ->] by (unfold sample_files in Hf; set_solver).

Lemma sample_job : job_ok sample_mapf sample_files 2 sample_fs.
Proof.
  split.
  - lia.
  - split.
    + intros name i. unfold sample_fs. simpl. rewrite lookup_insert_Some, lookup_singleton_Some. naive_solver lia.
    + intros a b i. unfold sample_fs. simpl. rewrite !lookup_insert_Some, !lookup_singleton_Some. naive_solver.
  - intros f Hf. in_sample f Hf; by vm_compute; eexists.
  - intros f m r Hf. by in_sample f Hf.
  - intros f r Hf. by in_sample f Hf.
  - intros f contents Hf Hr. in_sample f Hf; vm_compute in Hr; injection Hr as <-;
      repeat constructor.
Qed.

Lemma wc_Reduce_perm k vs vs' : vs ≡ₚ vs' → wc_Reduce k vs = wc_Reduce k vs'.
Proof. intros Hp. unfold wc_Reduce, zlen. by rewrite Hp. Qed.

(** C27: A distributed job computes what the sequential program computes.  Workers take
    steps in any order, of which creating a file, writing one record or line to it
    and reading one file are the smallest; they crash anywhere, also with files half
    written, and reports are lost, so that tasks time out and are executed again.
    When the coordinator says the job is done, the output files together hold
    exactly the lines that mrsequential prints, each once, provided that
    - a task is handed out again only when no worker has it any more, that is, when the
      one that had it has crashed or its report was lost, not when it is slow
      ([unheld]; what happens otherwise is shown below);
    - the job is well formed ([job_ok]): there are reduce tasks, the inputs exist
      and have other names than the files of the job, the records can be
      represented in JSON; and
    - the reduce function does not depend on the order of the values. *)
Theorem job_correct `{RecordCodec, KeySorter} mapf reducef files n fs0 workers s
    (Hjob : job_ok mapf files n fs0)
    (Hperm : ∀ k vs vs', vs ≡ₚ vs' → reducef k vs = reducef k vs')
    (Hreach : mr_reach mapf reducef true (mr_init files n fs0 workers) s)
    (Hdone : Done (mr_c s) = true) :
  job_output mapf reducef files n fs0 (mr_fs s).
Proof. eapply inv_output; [done..| |done]. by eapply mr_reach_inv. Qed.

Lemma job_correct_witness :
  ∃ s, mr_reach sample_mapf wc_Reduce true (mr_init sample_files 2 sample_fs 1) s ∧
    Done (mr_c s) = true ∧ job_output sample_mapf wc_Reduce sample_files 2 sample_fs (mr_fs s).
Proof.
  destruct (init_round sample_mapf wc_Reduce sample_files 2 sample_fs sample_job) as [Hr Ht].
  destruct (Worker_good sample_mapf wc_Reduce sample_files 2 sample_fs sample_job 7 (λ _, 0) 0 _ _ Hr)
    as (c & fs & _ & _ & Hd & Hreach); [rewrite Ht; simpl; lia|].
  exists (mkMr c fs [WGone]). split; [exact Hreach|]. split; [exact Hd|].
  exact (job_correct _ _ _ _ _ 1%nat (mkMr c fs [WGone]) sample_job wc_Reduce_perm Hreach Hd).
Defined.

(** On the way nothing panics: a request is answered, a worker that executes a task
    can go on with it, and a report is accepted. *)
Theorem job_safe `{RecordCodec, KeySorter} mapf reducef files n fs0 workers s
    (Hjob : job_ok mapf files n fs0)
    (Hreach : mr_reach mapf reducef true (mr_init files n fs0 workers) s) :
  (∀ now, ∃ c' r, Handlers now (mr_c s) request_args zeroTaskinfo = Ret (c', r)) ∧
  (∀ w st t, mr_ws s !! w = Some st → executing st → held st = Some t →
     ∃ fs' st', work mapf reducef (mr_fs s) st = Ret (Some (fs', st')) ∧ held st' = Some t) ∧
  (∀ w t stage, mr_ws s !! w = Some (WReporting t stage) →
     ∃ c' r, checkTask_at stage (mr_c s) (report_of t) zeroTaskinfo = Ret (c', r)).
Proof.
  pose proof (mr_reach_inv mapf reducef files n fs0 Hjob workers s Hreach) as Hi.
  destruct s as [c fs ws]. simpl. split_and!.
  - intros now. destruct (request_good _ _ _ _ _ now _ _ _ Hi) as (c' & r & ? & _). eauto.
  - intros w st t Hw Hex Ht. destruct (mi_workers _ _ _ _ _ _ Hi w st Hw) as (Hto & Hf & _). specialize (Hto t Ht).
    destruct (work_good mapf reducef files n fs0 Hjob fs st t Hex Ht (to_good _ _ _ _ Hto)
      (inv_ready _ _ _ _ _ _ _ _ _ Hi Hto) Hf) as (fs' & st' & ? & ? & _). eauto.
  - intros w t stage Hw. destruct (report_good _ _ _ _ _ _ _ _ _ _ _ Hi Hw) as (c' & r & ? & _). eauto.
Qed.

Lemma job_safe_witness :
  ∃ c' r, Handlers 3 (MakeCoordinator sample_files 2) request_args zeroTaskinfo = Ret (c', r).
Proof.
  apply (job_safe sample_mapf wc_Reduce sample_files 2 sample_fs 2%nat _ sample_job
    (rtc_refl _ (mr_init sample_files 2 sample_fs 2))).
Defined.

(** C28: One worker is enough: [Worker] on a new job returns after as many rounds as
    there are tasks, plus two to change the stage and one to learn that the job is
    done; the job is then finished with the output of the sequential program. *)
Theorem Worker_completes `{RecordCodec, KeySorter} mapf reducef files n fs0 clock
    (Hjob : job_ok mapf files n fs0)
    (Hperm : ∀ k vs vs', vs ≡ₚ vs' → reducef k vs = reducef k vs') :
  ∃ c fs, Worker (length files + Z.to_nat n + 3) mapf reducef clock 0 (MakeCoordinator files n) fs0
            = Ret (c, fs) ∧
    Done c = true ∧ job_output mapf reducef files n fs0 fs.
Proof.
  destruct (init_round mapf reducef files n fs0 Hjob) as [Hr Ht].
  destruct (Worker_good mapf reducef files n fs0 Hjob (length files + Z.to_nat n + 3) clock 0 _ _ Hr)
    as (c & fs & Hw & Hi & Hd & _); [lia|].
  exists c, fs. split_and!; [done..|].
  by apply (inv_output mapf reducef files n fs0 Hjob Hperm (mkMr c fs [WGone])).
Qed.

Lemma Worker_completes_witness :
  ∃ c fs, Worker 7 sample_mapf wc_Reduce (λ _, 0) 0 (MakeCoordinator sample_files 2) sample_fs
            = Ret (c, fs) ∧
    Done c = true ∧ job_output sample_mapf wc_Reduce sample_files 2 sample_fs fs.
Proof.
  exact (Worker_completes sample_mapf wc_Reduce sample_files 2 sample_fs (λ _, 0)
    sample_job wc_Reduce_perm).
Defined.

(** The condition that a task is not handed out while a worker has it matters.  A
    worker that finishes a map task after it was given to another one reports it in
    the reduce stage; the coordinator takes the report for one of the reduce task
    with the same number, and finishes the job although that task has not written
    its output. *)
Theorem stale_report_loses_output :
  ∃ s, mr_reach sample_mapf wc_Reduce false (mr_init ["in0"] 1 sample_fs 2) s ∧
    Done (mr_c s) = true ∧ read_file (mr_fs s) (out_name 0) = None.
Proof.
  eexists. split.
  - eapply rtc_l; [eapply (ms_request _ _ _ 0 0); [reflexivity|vm_compute; reflexivity|discriminate]|].
    etrans; [eapply (work_steps_reach _ _ _ 6 0); [reflexivity|vm_compute; reflexivity]|].
    eapply rtc_l; [eapply (ms_request _ _ _ 1 11000000000); [reflexivity|vm_compute; reflexivity|discriminate]|].
    etrans; [eapply (work_steps_reach _ _ _ 6 1); [reflexivity|vm_compute; reflexivity]|].
    eapply rtc_l; [eapply (ms_arrive _ _ _ 1); reflexivity|].
    eapply rtc_l; [eapply (ms_report _ _ _ 1); [reflexivity|vm_compute; reflexivity]|].
    eapply rtc_l; [eapply (ms_request _ _ _ 1 11000000002); [reflexivity|vm_compute; reflexivity|discriminate]|].
    eapply rtc_l; [eapply (ms_request _ _ _ 1 11000000003); [reflexivity|vm_compute; reflexivity|discriminate]|].
    eapply rtc_l; [eapply (ms_arrive _ _ _ 0); reflexivity|].
    eapply rtc_l; [eapply (ms_report _ _ _ 0); [reflexivity|vm_compute; reflexivity]|].
    eapply rtc_l; [eapply (ms_request _ _ _ 0 11000000005); [reflexivity|vm_compute; reflexivity|discriminate]|].
    apply rtc_refl.
  - split; vm_compute; reflexivity.
Qed.

(** And a worker that comes late to the point where [execMap] renames its empty file
    into place takes the records from the reduce task that then reads them: the job
    finishes with an empty output file. *)
Theorem late_mapper_loses_records :
  ∃ s, mr_reach sample_mapf wc_Reduce false (mr_init ["in0"] 1 sample_fs 2) s ∧
    Done (mr_c s) = true ∧ read_file (mr_fs s) (out_name 0) = Some EmptyString ∧
    is_Some (sequential_lines sample_fs sample_mapf wc_Reduce ["in0"]) ∧
    sequential_lines sample_fs sample_mapf wc_Reduce ["in0"] ≠ Some [].
Proof.
  eexists. split.
  - eapply rtc_l; [eapply (ms_request _ _ _ 0 0); [reflexivity|vm_compute; reflexivity|discriminate]|].
    etrans; [eapply (work_steps_reach _ _ _ 1 0); [reflexivity|vm_compute; reflexivity]|].
    eapply rtc_l; [eapply (ms_request _ _ _ 1 11000000000); [reflexivity|vm_compute; reflexivity|discriminate]|].
    etrans; [eapply (work_steps_reach _ _ _ 6 1); [reflexivity|vm_compute; reflexivity]|].
    eapply rtc_l; [eapply (ms_arrive _ _ _ 1); reflexivity|].
    eapply rtc_l; [eapply (ms_report _ _ _ 1); [reflexivity|vm_compute; reflexivity]|].
    eapply rtc_l; [eapply (ms_request _ _ _ 1 11000000002); [reflexivity|vm_compute; reflexivity|discriminate]|].
    eapply rtc_l; [eapply (ms_request _ _ _ 1 11000000003); [reflexivity|vm_compute; reflexivity|discriminate]|].
    etrans; [eapply (work_steps_reach _ _ _ 1 0); [reflexivity|vm_compute; reflexivity]|].
    etrans; [eapply (work_steps_reach _ _ _ 4 1); [reflexivity|vm_compute; reflexivity]|].
    eapply rtc_l; [eapply (ms_arrive _ _ _ 1); reflexivity|].
    eapply rtc_l; [eapply (ms_report _ _ _ 1); [reflexivity|vm_compute; reflexivity]|].
    eapply rtc_l; [eapply (ms_request _ _ _ 1 11000000005); [reflexivity|vm_compute; reflexivity|discriminate]|].
    apply rtc_refl.
  - split_and!; [vm_compute; reflexivity..|vm_compute; by eexists|vm_compute; discriminate].
Qed.

(** With more inputs than reduce tasks such a report is out of range and the
    coordinator panics. *)
Theorem stale_report_panics now c t reply :
  coord_wf c → Stage c = STAGE_REDUCING → nReduce c ≤ TaskId t →
  Handlers now c (report_of t) reply = Panic PIndex.
Proof.
  intros Hwf Hs Hid. unfold Handlers, checkTask, checkTask_at, finish_task. simpl. rewrite Hs. simpl.
  rewrite index_oob; [done|]. rewrite (proj1 (cw_reduce _ Hwf)). lia.
Qed.
